(* ===== verification/_CoqProject ===== *)
-Q . S2P
Prelude.v
VersionRanges.v
JsString.v
JsonText.v
ExpressionScanner.v
ExpressionScannerProps.v
ExpressionReferences.v
ExpressionReferencesProps.v
InputValidation.v
ModelType.v
PartitionKey.v
DataMetadata.v
Intent.v
Base64.v
CommitOps.v
Commit.v
IntentKeyPaths.v
Partition.v
PartitionProps.v
ProcessLiveness.v
WriterLease.v
WriterLeaseProps.v
WriterLeaseRuns.v
AccessNames.v
AccessGrants.v
AccessDecision.v
CommitAuthorization.v
CommitAuthorizationProps.v
Credentials.v
WorkerRecords.v
TopologicalSort.v
Remote.v
TriggerCondition.v
Workflow.v
Schedule.v
ScheduleProps.v
StepRun.v
SignalWait.v
SignalStore.v
SignalKeys.v
SignalKeysProps.v
SignalKeysRuns.v
SignalProtocol.v
Continuation.v
ContinuationProps.v
ContinuationAlone.v
JobRun.v
WorkflowRun.v
WorkflowRunProps.v
ResumePlan.v
ResumePlanProps.v
