(* ===== verification/Prelude.v ===== *)
(** * A verification of the core of swamp

    swamp is an automation framework: a command line and a server ([swamp serve])
    that run workflows of model methods, locally or on enrolled workers, keep the
    data they produce, and decide who may do what. Its own logic is the domain
    layer, [src/src/domain]; the layers around it (command line, server handlers,
    persistence, presentation) do input and output. This library models the parts
    of the domain layer that decide and record: what a request may do, what a
    credential admits, in which order and where steps run, what a run's record
    says after any sequence of events, what a resume runs again, which expressions
    a value holds and what they read, which fires of a schedule were missed, how
    commits change the partitions of the
    datastore and who may write them, and the three protocols by which processes
    share a store without a lock: the writer lease, the keys and early signals
    of waits, and the claims of suspended runs.

    ** Files

    Shared:

    - [Prelude] (this file): results of code that throws, record update, the
      ECMAScript sort and set, list lemmas, numbers.
    - [JsString], [JsonText]: the string operations, JSON values, their text and
      orderings, on strings of 8-bit code units.
    - [InputValidation]: [inputs/input_validation_service.ts], values checked
      against schemas.
    - [ModelType]: [models/model_type.ts] and its normalizer.

    Expressions, [expressions]:

    - [ExpressionScanner], [ExpressionScannerProps]: [cel_string_lexer.ts],
      [expression_scanner.ts] and the traversal of [expression_parser.ts]: the
      spans [${{ ... }}] of a text and of a value.
    - [ExpressionReferences], [ExpressionReferencesProps]:
      [expression_references.ts], the outputs, data and definitions an expression
      may read, from its syntax tree.

    The third datastore generation, [datastore_v3]:

    - [VersionRanges]: [version_ranges.ts], sets of versions as sorted ranges,
      every operation proved against sets of integers.
    - [PartitionKey], [DataMetadata], [Intent], [Base64], [CommitOps], [Commit]:
      keys of partitions, data metadata, the intents, ops and commits of a log
      and their wire form ([partition_key.ts], [intent.ts], [commit.ts] and the
      files they use).
    - [IntentKeyPaths]: [intent_key_paths.ts], the keys an intent may write.
    - [Partition], [PartitionProps]: [partition.ts], the state a log folds to:
      appends, retention, snapshots.
    - [ProcessLiveness], [WriterLease], [WriterLeaseProps], [WriterLeaseRuns]:
      [process_liveness.ts], [writer_lease.ts].
    - [CommitAuthorization], [CommitAuthorizationProps]:
      [commit_authorization.ts] and the authority the server builds for it.

    Access, credentials and workers:

    - [AccessNames]: the names of access control, [access/principal.ts],
      [subject.ts], [action.ts], [client.ts], [resource_selector.ts] and the rest:
      parsers, printers and matching.
    - [AccessGrants]: the grant and group models, [models/access/grant_model.ts]
      and [group_model.ts]: creating, revoking, membership.
    - [AccessDecision]: [access/policy_snapshot.ts], [access_resources.ts],
      [grant_based_access_decision_service.ts] and [admission.ts]: the snapshot of
      grants and groups, and [decide], [explain], [decideAll].
    - [Credentials]: [crypto/timing_safe_equal.ts], enrollment tokens and server
      tokens ([models/worker/enrollment_token_model.ts],
      [models/access/server_token_model.ts]).
    - [WorkerRecords]: step leases, pending dispatches, worker state and their
      retention ([models/worker]).

    Workflows:

    - [TopologicalSort]: [workflows/topological_sort_service.ts].
    - [Remote]: [remote/fan_out.ts], [rollout.ts], [scheduler.ts].
    - [TriggerCondition]: [workflows/trigger_condition.ts].
    - [Workflow]: the definitions, [workflow.ts], [job.ts], [step.ts],
      [step_task.ts], [placement.ts], and the refusals of [fan_out_job.ts].
    - [Schedule], [ScheduleProps]: [schedule_catch_up.ts], [schedule_state.ts] and
      what [libswamp/workflows/scheduled_execution.ts] decides and writes for a
      schedule at startup.
    - [StepRun], [JobRun], [WorkflowRun]: the three classes of
      [workflows/workflow_run.ts], every method of each, with the links of
      [nested_run_ref.ts]; [WorkflowRunProps] holds the theorems on whole runs.
    - [SignalWait]: [workflows/signal_wait.ts], the wait a step holds and the
      payloads it accepts; it implements the interface [SignalWaits] of
      [StepRun].
    - [SignalStore]: the records of waits, keys and early signals, and the
      store of [control_plane_signal_wait_store.ts].
    - [SignalKeys]: [wait_key_claim.ts], [pending_signal.ts],
      [early_signal.ts], [signal_wait_cleanup.ts], the part of
      [execution_service.ts] that opens a wait and the delivery of
      [libswamp/workflows/signal.ts].
    - [SignalKeysProps], [SignalKeysRuns], [SignalProtocol]: the logs the
      protocol leaves and a logic of programs, every operation in that logic,
      and the theorems on pools of processes.
    - [Continuation], [ContinuationProps], [ContinuationAlone]:
      [continuation_claim.ts] and its store, the claims by which one of several
      hosts resumes a suspended run: pools of processes, and a resume alone.
    - [ResumePlan], [ResumePlanProps]: [job_pairing.ts],
      [failed_step_retry.ts], [resume_reset.ts]: which steps of a failed or
      suspended run a resume or a retry runs again, and when it is refused. The
      runs are those of [WorkflowRun], the definitions those of [Workflow].

    ** How the code is modelled

    A class is a record of its fields and a function per method; a method that
    changes the object returns the changed record. A function that throws returns
    a [result] with the message. The clock, random identifiers and the vault are
    arguments; a method reads the clock once. A method on stored data is a
    function of the stored record, if any, and returns what it writes.
    A [Map] or [Set] whose order is not observed is a [gmap] or [gset], one whose
    order is observed a list. Numbers that hold integers are [Z]. Strings are
    Rocq strings, one character per 8-bit code unit. Instants are milliseconds.

    Code that shares a store with other processes ([WriterLease], [SignalStore],
    [SignalKeys], [Continuation]) is a program: a tree of calls to the store, each with what
    follows for every answer and for a failure. A step relation lets any process
    of a pool make its next call; a call is atomic, may fail with or without
    effect, and a process may stop for good at any call. The theorems on pools
    hold for every interleaving.

    Interfaces between components are classes: [TriggerEvaluationContext] (what a
    condition reads of a run; job runs and workflow runs implement it),
    [SignalWaits] (what a run uses of signal waits, implemented by [SignalWait]),
    [ConditionChecks] (what creating a grant uses of the condition compiler),
    [Ending] (records that end once), [Comparator] (what sorting needs of a
    comparison), [Env] (what the store of waits uses of the schema library),
    [CelGrammar] and [CelParser] (whether a text is CEL, and its syntax tree),
    [Evaluator] with its laws (what an expression's value depends on), [CronLib]
    with its laws (the next slot of a schedule).
    Parameters stand for code outside the domain layer: the condition evaluator,
    the vault, SHA-256, [localeCompare], the UUID check of the schema library,
    the resolvers of commit authorization, the run repository. Their hypotheses
    are documented behaviour (a comparison is a total preorder, a stored wait is
    read back), and each theorem that has one has a witness with concrete
    functions.

    ** Theorems

    - Access decisions: a deny grant that holds, or cannot be evaluated, refuses
      whatever the allows say; every allow is justified by a grant whose condition
      holds; adding a deny never widens access; control-plane records need admin;
      [decideAll] is at least as strict as [decide] on each resource; [explain]
      agrees with [decide]; admission; parsers and printers of names are inverse;
      a grant is never replaced or un-revoked; groups are sets.
    - Credentials: comparison is equality; an enrollment token never binds more
      machines than allowed and admits exactly the right callers; rotation retires
      the old secret; leases, dispatches and their reaping only move forward.
    - Datastore: no version is recorded twice; the invariant of partitions; the
      staged application of a commit equals the direct one; appends only move
      forward and only reject; snapshots, commits and keys are read back; a
      commit is authorized exactly when its ops are; a key has one owner.
    - Writer lease: no two processes hold one fence; a free lease is acquired;
      waiting ends.
    - Expressions: the spans of a value are exactly its expressions and putting
      their texts back gives the value; a scan is linear in the text whatever the
      grammar accepts; an expression whose references are not wide has the same
      value in repositories that agree on them.
    - Resumes: the steps to run again are those reachable from the entries, and
      the search for them ends; an accepted plan resets exactly their records and
      fits the run; jobs named by expressions are paired one to one; a retry
      starts from every failure or is refused.
    - Continuations: of the processes that resume a suspension automatically at
      most one that is alive holds its claim, provided none dies after it began
      to release ([released_and_dead_lets_two_in] shows that this is needed); a
      resume alone ends as the highest readable claim says.
    - Schedules: the fires reported missed are exactly the slots since the
      watermark; a slot is caught up only when it is the latest, in time, and no
      run recorded it; a pass leaves nothing missed; racing writers agree.
    - Scheduling: the sort is a topological sort and ends on every input, with
      the right error; batches partition the lanes of a fan-out; a rollout starts
      a batch only when it may and never stalls; a step goes to the freest worker.
    - Runs: conditions on forEach steps; fan-out plans are recorded faithfully;
      a signal settles a wait at most once; recovery asks for exactly the steps it
      resets; the owner of a run survives resumes; a run ends once with the right
      result and detaches its children; the stored form is a fixed point; a resume
      resets exactly what it names; refused data is never part of a success.
    - Signals: a payload is accepted exactly when it is well shaped and conforms
      to the schema; at most one wait is open under a key; a signal answered as
      pending is seen by the waits that read its slot; it settles one wait at
      most. [removed_generation_is_reused] shows why nothing but registrations
      is removed in these: a claimant that sleeps through a removal is given a
      generation again.

    ** Bounds and fuel

    The loops of [ExpressionScanner] have a unit of fuel per character of the
    text: each step advances ([lexStep_advances]), so none runs out
    ([scanLoop_covers], [scanLoop_work]). The search of [ResumePlan] for the
    steps to run again has one unit per entry and edge
    ([templatesToReset_closure]). The bisection of [Schedule] has the logarithm
    of its interval ([latestAtOrBefore_last]), and its loop over slots the cap
    of the source.

    In [TopologicalSort], the level loop has one unit of fuel per node (each
    level takes at least one node), and the search for a cycle one unit more
    than the nodes left (a path does not repeat a node before the search stops);
    [sort_decides_acyclicity] proves that neither runs out. In [VersionRanges],
    the binary search has one unit more than the ranges (each step drops one at
    least); [has_is_membership] proves that it finds every member. The waiting
    of [WriterLease.acquire] has fuel, and [waiting_ends] proves how much is
    enough. The loops of claims and of highest records make 8 and 4 attempts, as
    in the source. Every other recursion is structural.

    Versions of data go up to 2^30, as the arrays of the ranges index them;
    generations of keys stay below 2^53. An object of the store of waits is the
    record its bytes hold, or garbage; the limits on its bytes make it garbage.
    Numbers in schemas and payloads are integers.

    ** What is not modelled

    Logging, tracing and telemetry have no effect on results. The persisted and
    masked views of a run with sensitive values attached, the read-access
    fingerprint of the decision service, the checks of the schema library on
    fields no code depends on, and 16-bit characters outside Latin-1 are left
    out. Of the domain layer, the execution service but for the opening of
    signal waits (an asynchronous driver of the runs modelled here), the
    evaluation of expressions (a package evaluates them) and their replacement
    by values, the schemas that read authored workflow files, data repositories,
    the stores of logs and chunks and the replication of [datastore_v3], vaults,
    extensions, reports, audit and the repository service are not modelled, and
    neither are the timers, queues and fires of scheduled execution. They mostly
    do input and output around the decisions modelled here. What could be taken
    up next in the same way are the loops of [signal_wait_cleanup.ts] over the
    steps of a run, compaction and the catalog of [datastore_v3], and the audit
    chain ([serve_audit]). *)

From stdpp Require Export sorting.
From stdpp Require Export base numbers pretty gmap strings list.

(** ** Results of fallible code

    A TypeScript function that may [throw] returns a [result]: [Ok] carries
    the returned value, [Throw] the message of the thrown [Error]. *)

Inductive result (A : Type) : Type :=
| Ok (a : A)
| Throw (msg : string).

Arguments Ok {A} _.
Arguments Throw {A} _.

#[global] Instance result_ret : MRet result := @Ok.

#[global] Instance result_bind : MBind result := λ A B f m,
  match m with
  | Ok a => f a
  | Throw e => Throw e
  end.

#[global] Instance result_fmap : FMap result := λ A B f m,
  match m with
  | Ok a => Ok (f a)
  | Throw e => Throw e
  end.

#[global] Instance result_eq_dec `{EqDecision A} : EqDecision (result A).
Proof. solve_decision. Defined.

Definition is_ok {A} (r : result A) : bool :=
  match r with Ok _ => true | Throw _ => false end.

(** [try { return Some m } catch { return None }] *)
Definition try_option {A} (r : result A) : option A :=
  match r with Ok a => Some a | Throw _ => None end.

(** [if (c) throw new Error(msg)] *)
Definition throw_if (c : bool) (msg : string) : result () :=
  if c then Throw msg else Ok tt.

Lemma throw_if_ok c msg u : throw_if c msg = Ok u ↔ c = false.
Proof. unfold throw_if. destruct c, u; naive_solver. Qed.

Lemma result_bind_ok {A B} (m : result A) (f : A → result B) b :
  (m ≫= f) = Ok b ↔ ∃ a, m = Ok a ∧ f a = Ok b.
Proof. destruct m; cbv [mbind result_bind]; naive_solver. Qed.

Lemma try_option_Some {A} (r : result A) a : try_option r = Some a ↔ r = Ok a.
Proof. destruct r; cbv [try_option]; naive_solver. Qed.

Lemma try_option_None {A} (r : result A) :
  try_option r = None ↔ ∃ msg, r = Throw msg.
Proof. destruct r; cbv [try_option]; naive_solver. Qed.

(** ** Functional record update

    [r <| f := v |>] is [r] with its field [f] replaced. A record takes part
    by giving its eta expansion as an instance of [Eta]; the setter of a
    field is then derived by abstracting that field's occurrence. *)

Class Eta (R : Type) := eta_expand : R → R.

Class SetField {R T : Type} (f : R → T) := set_field : T → R → R.

#[global] Hint Mode SetField - - ! : typeclass_instances.
Arguments set_field {R T} f {_} _ _ /.

Ltac derive_setter :=
  lazymatch goal with
  | |- @SetField ?R ?T ?f =>
    let inst := constr:(_ : Eta R) in
    let body := eval hnf in inst in
    exact (λ (v : T) (r : R),
      ltac:(let b := eval cbv beta in (body r) in
            let p := eval pattern (f r) in b in
            lazymatch p with
            | ?g _ => let t := eval cbv beta in (g v) in exact t
            end))
  end.

#[global] Hint Extern 0 (SetField _) => derive_setter : typeclass_instances.

Declare Scope swamp_scope.
Delimit Scope swamp_scope with swamp.

Notation "r <| f := v |>" := (set_field f v r)
  (at level 10, left associativity, f at level 200, v at level 200,
   format "r  <| f  :=  v |>") : swamp_scope.

#[global] Open Scope swamp_scope.

(** ** Automation *)

Create HintDb swamp.

(** Closes the case analyses on booleans the source's guards leave behind. *)
Ltac case_bools :=
  repeat match goal with
  | H : context [if ?b then _ else _] |- _ =>
      lazymatch type of b with bool => destruct b eqn:? end
  | |- context [if ?b then _ else _] =>
      lazymatch type of b with bool => destruct b eqn:? end
  end.

(** Splits conjunctions of boolean tests in the context into propositions. *)
Ltac split_bools :=
  repeat match goal with
  | H : _ && _ = true |- _ => apply andb_true_iff in H as [? ?]
  | H : _ || _ = false |- _ => apply orb_false_iff in H as [? ?]
  | H : negb _ = true |- _ => apply negb_true_iff in H
  | H : negb _ = false |- _ => apply negb_false_iff in H
  | H : bool_decide _ = true |- _ => apply bool_decide_eq_true in H
  | H : bool_decide _ = false |- _ => apply bool_decide_eq_false in H
  | H : (_ <? _)%Z = true |- _ => apply Z.ltb_lt in H
  | H : (_ <? _)%Z = false |- _ => apply Z.ltb_ge in H
  | H : (_ <=? _)%Z = true |- _ => apply Z.leb_le in H
  | H : (_ <=? _)%Z = false |- _ => apply Z.leb_gt in H
  | H : (_ =? _)%Z = true |- _ => apply Z.eqb_eq in H
  | H : (_ =? _)%Z = false |- _ => apply Z.eqb_neq in H
  end.

(** ** Array.prototype.sort

    The ECMAScript sort is stable, so for a comparator that is a total
    preorder its result is determined: the insertion sort below, which puts
    an element before the first one it does not exceed, computes it. *)

Class Comparator {A} (cmp : A → A → Z) : Prop := {
  cmp_antisym x y : (0 < cmp x y ↔ cmp y x < 0)%Z;
  cmp_trans x y z : (cmp x y ≤ 0 → cmp y z ≤ 0 → cmp x z ≤ 0)%Z;
}.

Section sort.
Context {A : Type} (cmp : A → A → Z).

Fixpoint sort_insert (x : A) (l : list A) : list A :=
  match l with
  | [] => [x]
  | y :: l' => if (cmp x y <=? 0)%Z then x :: y :: l' else y :: sort_insert x l'
  end.

Fixpoint js_sort (l : list A) : list A :=
  match l with
  | [] => []
  | x :: l' => sort_insert x (js_sort l')
  end.

Lemma sort_insert_perm x l : sort_insert x l ≡ₚ x :: l.
Proof.
  induction l as [|y l IH]; simpl; [done|].
  destruct (cmp x y <=? 0)%Z; [done|]. rewrite IH. constructor.
Qed.

Lemma js_sort_perm l : js_sort l ≡ₚ l.
Proof. induction l as [|x l IH]; simpl; [done|]. by rewrite sort_insert_perm, IH. Qed.

Lemma elem_of_js_sort x l : x ∈ js_sort l ↔ x ∈ l.
Proof. by rewrite js_sort_perm. Qed.

Lemma length_js_sort l : length (js_sort l) = length l.
Proof. by rewrite js_sort_perm. Qed.

Lemma js_sort_nil_inv l : js_sort l = [] → l = [].
Proof. intros H. apply nil_length_inv. by rewrite <-length_js_sort, H. Qed.

Context `{!Comparator cmp}.

Lemma cmp_total x y : (cmp x y ≤ 0 ∨ cmp y x ≤ 0)%Z.
Proof.
  destruct (Z.le_gt_cases (cmp x y) 0) as [|H]; [by left|right].
  apply cmp_antisym in H. lia.
Qed.

Lemma sort_insert_sorted x l :
  StronglySorted (λ a b, (cmp a b ≤ 0)%Z) l →
  StronglySorted (λ a b, (cmp a b ≤ 0)%Z) (sort_insert x l).
Proof.
  induction 1 as [|y l Hs IH Hall]; simpl; [by repeat constructor|].
  destruct (Z.leb_spec (cmp x y) 0) as [Hle|Hgt].
  - constructor; [by constructor|]. constructor; [done|].
    eapply Forall_impl; [exact Hall|]. intros z Hz. by eapply cmp_trans.
  - constructor; [done|]. rewrite sort_insert_perm. constructor; [|done].
    apply cmp_antisym in Hgt. lia.
Qed.

Lemma js_sort_sorted l : StronglySorted (λ a b, (cmp a b ≤ 0)%Z) (js_sort l).
Proof. induction l; simpl; [constructor|]. by apply sort_insert_sorted. Qed.

Lemma sort_insert_id x l :
  Forall (λ y, (cmp x y ≤ 0)%Z) l → sort_insert x l = x :: l.
Proof. destruct 1 as [|y l Hy]; simpl; [done|]. by rewrite (proj2 (Z.leb_le _ _) Hy). Qed.

Lemma js_sort_id l : StronglySorted (λ a b, (cmp a b ≤ 0)%Z) l → js_sort l = l.
Proof.
  induction 1 as [|x l Hs IH Hall]; simpl; [done|]. rewrite IH. by apply sort_insert_id.
Qed.

Lemma sorted_lookup_lt l i j x y :
  StronglySorted (λ a b, (cmp a b ≤ 0)%Z) l → i < j → l !! i = Some x → l !! j = Some y →
  (cmp x y ≤ 0)%Z.
Proof.
  intros Hs. revert i j. induction Hs as [|z l Hs IH Hall]; intros i j Hij Hi Hj; [done|].
  destruct j as [|j]; [lia|]. destruct i as [|i]; simpl in *.
  - simplify_eq. rewrite Forall_forall in Hall. apply Hall. by eapply list_elem_of_lookup_2.
  - eapply IH; [|done..]. lia.
Qed.

(** The head of a sorted array is a least element of the input. *)
Lemma js_sort_head x l l' :
  js_sort l = x :: l' → x ∈ l ∧ ∀ y, y ∈ l → (cmp x y ≤ 0)%Z.
Proof.
  intros E. pose proof (js_sort_sorted l) as Hs. rewrite E in Hs.
  apply StronglySorted_inv in Hs as [_ Hall].
  assert (Hin : ∀ y, y ∈ l ↔ y = x ∨ y ∈ l').
  { intros y. rewrite <-elem_of_js_sort, E. by rewrite elem_of_cons. }
  split; [apply Hin; by left|]. intros y [->|Hy]%Hin.
  - destruct (cmp_total x x); done.
  - rewrite Forall_forall in Hall. by apply Hall.
Qed.
End sort.

(** ** Sets and de-duplication

    [new Set(xs)] iterates in insertion order, each value once. *)

Section dedup.
Context {A : Type} `{!EqDecision A}.

Definition set_add (x : A) (s : list A) : list A :=
  if bool_decide (x ∈ s) then s else s ++ [x].

Definition set_of (l : list A) : list A := foldl (λ s x, set_add x s) [] l.

Lemma elem_of_set_add x y s : y ∈ set_add x s ↔ y = x ∨ y ∈ s.
Proof. unfold set_add. case_bool_decide; set_solver. Qed.

Lemma set_add_NoDup x s : NoDup s → NoDup (set_add x s).
Proof.
  unfold set_add. case_bool_decide; [done|]. intros Hs. apply NoDup_app.
  split; [done|]. split; [set_solver|]. apply NoDup_singleton.
Qed.

Lemma foldl_set_add l s :
  (∀ x, x ∈ foldl (λ s x, set_add x s) s l ↔ x ∈ s ∨ x ∈ l) ∧
  (NoDup s → NoDup (foldl (λ s x, set_add x s) s l)).
Proof.
  revert s. induction l as [|y l IH]; intros s; simpl.
  - split; [set_solver|done].
  - destruct (IH (set_add y s)) as [IH1 IH2]. split.
    + intros x. rewrite IH1, elem_of_set_add. set_solver.
    + intros Hs. apply IH2. by apply set_add_NoDup.
Qed.

Lemma elem_of_set_of x l : x ∈ set_of l ↔ x ∈ l.
Proof. unfold set_of. rewrite (proj1 (foldl_set_add l [])). set_solver. Qed.

Lemma set_of_NoDup l : NoDup (set_of l).
Proof. apply (proj2 (foldl_set_add l [])). constructor. Qed.
End dedup.

(** ** Booleans and lists *)

Lemma existsb_elem_of {A} (f : A → bool) l : existsb f l = true ↔ ∃ x, x ∈ l ∧ f x = true.
Proof. rewrite existsb_exists. by setoid_rewrite <-list_elem_of_In. Qed.

Lemma forallb_elem_of {A} (f : A → bool) l : forallb f l = true ↔ ∀ x, x ∈ l → f x = true.
Proof. rewrite forallb_forall. by setoid_rewrite <-list_elem_of_In. Qed.

Lemma existsb_false_elem_of {A} (f : A → bool) l :
  existsb f l = false ↔ ∀ x, x ∈ l → f x = false.
Proof.
  rewrite <-not_true_iff_false, existsb_elem_of. split.
  - intros H x Hx. apply not_true_iff_false. intros ?. apply H. eauto.
  - intros H (x & Hx & E). rewrite H in E; done.
Qed.

(** [List.find] on booleans, the source's [Array.prototype.find]. *)
Lemma find_Some_elem_of {A} (f : A → bool) l x :
  List.find f l = Some x → x ∈ l ∧ f x = true.
Proof. intros [? ?]%List.find_some. by rewrite list_elem_of_In. Qed.

Lemma find_None_elem_of {A} (f : A → bool) l :
  List.find f l = None ↔ ∀ x, x ∈ l → f x = false.
Proof.
  split.
  - intros H x Hx. eapply List.find_none; [done|]. by apply list_elem_of_In.
  - induction l as [|y l IH]; simpl; [done|]. intros H.
    rewrite (H y) by set_solver. apply IH. intros x Hx. apply H. set_solver.
Qed.

(** Filtering with a boolean test, the source's [Array.prototype.filter]. *)
Lemma elem_of_bfilter {A} (f : A → bool) l x :
  x ∈ List.filter f l ↔ x ∈ l ∧ f x = true.
Proof. rewrite !list_elem_of_In. apply List.filter_In. Qed.

Lemma bfilter_all {A} (f : A → bool) l :
  (∀ x, x ∈ l → f x = true) → List.filter f l = l.
Proof.
  induction l as [|y l IH]; simpl; [done|]. intros H.
  rewrite (H y) by set_solver. f_equal. apply IH. set_solver.
Qed.

Lemma bfilter_length_le {A} (f : A → bool) l : length (List.filter f l) ≤ length l.
Proof. apply List.filter_length_le. Qed.

Lemma bfilter_length_eq {A} (f : A → bool) l :
  length (List.filter f l) = length l → List.filter f l = l.
Proof.
  induction l as [|y l IH]; simpl; [done|].
  pose proof (bfilter_length_le f l). destruct (f y); simpl; intros H'; [|lia].
  f_equal. apply IH. lia.
Qed.

Lemma bfilter_NoDup {A} (f : A → bool) (l : list A) : NoDup l → NoDup (List.filter f l).
Proof. rewrite !NoDup_ListNoDup. apply List.NoDup_filter. Qed.

Lemma bfilter_fmap_NoDup {A B} (g : A → B) (f : A → bool) (l : list A) :
  NoDup (g <$> l) → NoDup (g <$> List.filter f l).
Proof.
  induction l as [|x l IH]; simpl; [done|]. intros [Hni Hnd]%NoDup_cons.
  destruct (f x); simpl; [|by apply IH]. apply NoDup_cons. split; [|by apply IH].
  intros (y & E & [Hy _]%elem_of_bfilter)%list_elem_of_fmap. apply Hni.
  apply list_elem_of_fmap. by exists y.
Qed.

(** [map.get(k)?.push(v)] on an insertion-ordered multimap is a [gmap] of
    lists whose entry grows at its end. *)
Definition multimap_add {V} (k : string) (v : V) (m : gmap string (list V))
    : gmap string (list V) :=
  match m !! k with
  | Some vs => <[k := vs ++ [v]]> m
  | None => <[k := [v]]> m
  end.

Lemma multimap_add_lookup {V} k (v : V) m k' :
  default [] (multimap_add k v m !! k') =
  default [] (m !! k') ++ (if bool_decide (k = k') then [v] else []).
Proof.
  unfold multimap_add. case_bool_decide as E; [subst k'|].
  - destruct (m !! k) eqn:Hk; by rewrite lookup_insert_eq.
  - destruct (m !! k) eqn:Hk; rewrite lookup_insert_ne by done;
      by rewrite app_nil_r.
Qed.

#[export] Hint Rewrite @elem_of_set_of @elem_of_js_sort @elem_of_bfilter : swamp.
#[export] Hint Resolve set_of_NoDup bfilter_NoDup : swamp.

(** ** Numbers

    A JavaScript number that holds an integer is a [Z]; the checks and the
    32-bit conversions the source applies to it are written out. *)

(** [Number.MAX_SAFE_INTEGER] *)
Definition MAX_SAFE_INTEGER : Z := (2 ^ 53 - 1)%Z.

(** [Number.isSafeInteger(z)] for an integral [z] *)
Definition isSafeInteger (z : Z) : bool :=
  ((- MAX_SAFE_INTEGER <=? z) && (z <=? MAX_SAFE_INTEGER))%Z.

(** ToInt32, which the bitwise operators apply to their operands *)
Definition to_int32 (z : Z) : Z :=
  let m := (z mod 2 ^ 32)%Z in if (2 ^ 31 <=? m)%Z then (m - 2 ^ 32)%Z else m.

(** [z >> 1] *)
Definition shr1 (z : Z) : Z := Z.shiftr (to_int32 z) 1.

Lemma shr1_small z : (0 ≤ z < 2 ^ 31)%Z → shr1 z = (z / 2)%Z.
Proof.
  intros Hz. unfold shr1, to_int32. rewrite Z.mod_small by lia.
  rewrite (proj2 (Z.leb_gt _ _)) by lia. by rewrite Z.shiftr_div_pow2.
Qed.

(** [xs.join(sep)] *)
Fixpoint join (sep : string) (xs : list string) : string :=
  match xs with
  | [] => ""
  | [x] => x
  | x :: xs' => x +:+ sep +:+ join sep xs'
  end.
