(* ===== verification/VersionRanges.v ===== *)
(** * Version ranges of the v3 datastore

    [src/src/domain/datastore_v3/version_ranges.ts]: an immutable set of
    positive version numbers held as sorted, disjoint, never adjacent
    ranges. [of_] (the static [of]) builds one from arbitrary ranges, [has] is a binary search
    over them, [add], [union] and [delete] are the set operations.

    The theorems show that every operation keeps the representation
    canonical, that each refines the operation on sets of integers, that the
    binary search terminates with membership, and that two canonical
    representations of one set are equal. *)

From S2P Require Import Prelude.
Local Open Scope Z_scope.

Module VersionRanges.

(** ** The class *)

Notation VersionRange := (Z * Z)%type (only parsing).

Definition isVersion (value : Z) : bool := isSafeInteger value && (1 <=? value).

Definition EMPTY : list VersionRange := [].

(** the guard of the loop at the top of [of], as a pair when it passes *)
Definition validRange (range : list Z) : option VersionRange :=
  match range with
  | [first; last] =>
      if isVersion first && isVersion last && negb (last <? first)
      then Some (first, last) else None
  | _ => None
  end.

Definition notARange (range : list Z) : string :=
  "[" +:+ join "," (pretty <$> range) +:+ "] is not a range of positive versions".

Fixpoint checkRanges (ranges : list (list Z)) : result (list VersionRange) :=
  match ranges with
  | [] => Ok []
  | range :: rest =>
      match validRange range with
      | None => Throw (notARange range)
      | Some r => rs ← checkRanges rest; Ok (r :: rs)
      end
  end.

Definition byFirst (a b : VersionRange) : Z := a.1 - b.1.

(** one turn of the merging loop *)
Definition mergeStep (merged : list VersionRange) (r : VersionRange)
    : list VersionRange :=
  match last merged with
  | Some (pfirst, plast) =>
      if r.1 <=? plast + 1
      then removelast merged ++ [(pfirst, Z.max plast r.2)]
      else merged ++ [r]
  | None => merged ++ [r]
  end.

Definition of_ (ranges : list (list Z)) : result (list VersionRange) :=
  checked ← checkRanges ranges;
  Ok (foldl mergeStep [] (js_sort byFirst checked)).

Definition isEmpty (r : list VersionRange) : bool :=
  match r with [] => true | _ => false end.

Definition max (r : list VersionRange) : Z :=
  match last r with Some (_, l) => l | None => 0 end.

(** The [while (low <= high)] loop of [has]. [None] is a body that did not
    return within the fuel or that read past the array. *)
Fixpoint has_loop (fuel : nat) (r : list VersionRange) (version low high : Z)
    : option bool :=
  match fuel with
  | O => None
  | S fuel =>
      if low <=? high then
        let mid := shr1 (low + high) in
        '(first, last) ← (if mid <? 0 then None else r !! Z.to_nat mid);
        if version <? first then has_loop fuel r version low (mid - 1)
        else if last <? version then has_loop fuel r version (mid + 1) high
        else Some true
      else Some false
  end.

Definition has (r : list VersionRange) (version : Z) : bool :=
  default false
    (has_loop (S (length r)) r version 0 (Z.of_nat (length r) - 1)).

Definition asArrays (r : list VersionRange) : list (list Z) :=
  (λ p : VersionRange, [p.1; p.2]) <$> r.

Definition add (r : list VersionRange) (version : Z) : result (list VersionRange) :=
  if has r version then Ok r else of_ (asArrays r ++ [[version; version]]).

Definition equals (a b : list VersionRange) : bool :=
  bool_decide (length a = length b) &&
  forallb (λ '(x, y), (x.1 =? y.1) && (x.2 =? y.2)) (zip a b).

Definition union (a b : list VersionRange) : result (list VersionRange) :=
  if isEmpty b then Ok a
  else if isEmpty a then Ok b
  else of_ (asArrays a ++ asArrays b).

(** the ranges one range leaves once [version] is taken out *)
Definition without (version : Z) (p : VersionRange) : list VersionRange :=
  if (version <? p.1) || (p.2 <? version) then [p]
  else (if p.1 <? version then [(p.1, version - 1)] else []) ++
       (if version <? p.2 then [(version + 1, p.2)] else []).

Definition delete (r : list VersionRange) (version : Z) : list VersionRange :=
  if negb (has r version) then r else mjoin (without version <$> r).

(** ** Canonical representations and the set they denote *)

Definition version_range_ok (p : VersionRange) : Prop :=
  1 ≤ p.1 ≤ p.2 ∧ p.2 ≤ MAX_SAFE_INTEGER.

(** [p] ends before [q] starts and is not adjacent to it *)
Definition apart (p q : VersionRange) : Prop := p.2 + 2 ≤ q.1.

Definition canonical (r : list VersionRange) : Prop :=
  Forall version_range_ok r ∧ StronglySorted apart r.

Definition mem (v : Z) (r : list VersionRange) : Prop := ∃ p, p ∈ r ∧ p.1 ≤ v ≤ p.2.

(** an array short enough for [>>] to stay within 32 bits *)
Definition indexable (r : list VersionRange) : Prop := Z.of_nat (length r) ≤ 2 ^ 30.

Lemma mem_cons v p r : mem v (p :: r) ↔ p.1 ≤ v ≤ p.2 ∨ mem v r.
Proof. unfold mem. set_solver. Qed.

Lemma mem_app v r1 r2 : mem v (r1 ++ r2) ↔ mem v r1 ∨ mem v r2.
Proof. unfold mem. set_solver. Qed.

Lemma mem_nil v : ¬ mem v [].
Proof. unfold mem. set_solver. Qed.

Lemma canonical_cons p r :
  canonical (p :: r) ↔ version_range_ok p ∧ Forall (apart p) r ∧ canonical r.
Proof. unfold canonical. rewrite Forall_cons, StronglySorted_cons. naive_solver. Qed.

Lemma canonical_snoc r p :
  canonical (r ++ [p]) ↔ canonical r ∧ version_range_ok p ∧ ∀ q, q ∈ r → apart q p.
Proof.
  unfold canonical. rewrite Forall_app, Forall_singleton, StronglySorted_app.
  split.
  - intros [[??] (Ha & ? & ?)]. split_and!; [done..|]. intros q Hq. apply Ha; set_solver.
  - intros [[??] [? Ha]]. split_and!; [done..| |done|repeat constructor].
    intros x1 x2 ? ->%list_elem_of_singleton. by apply Ha.
Qed.

(** ** Building a representation *)

#[local] Instance byFirst_comparator : Comparator byFirst.
Proof. split; unfold byFirst; intros; lia. Qed.

Lemma validRange_Some range p :
  validRange range = Some p ↔ range = [p.1; p.2] ∧ version_range_ok p.
Proof.
  unfold validRange, isVersion, isSafeInteger, version_range_ok.
  destruct range as [|a [|b [|]]]; [naive_solver..| |naive_solver].
  destruct p as [x y]; simpl. case_bools; split_bools; split.
  - intros [= -> ->]. split; [done|]. lia.
  - intros [[= -> ->] _]. done.
  - done.
  - intros [[= -> ->] Hv]. unfold MAX_SAFE_INTEGER in *.
    repeat match goal with H : _ && _ = false |- _ => apply andb_false_iff in H as [?|?] end;
      split_bools; lia.
Qed.

Lemma checkRanges_Ok ranges rs :
  checkRanges ranges = Ok rs ↔ asArrays rs = ranges ∧ Forall version_range_ok rs.
Proof.
  revert rs. induction ranges as [|range ranges IH]; intros rs; simpl.
  - unfold asArrays. destruct rs; naive_solver.
  - destruct (validRange range) as [p|] eqn:Hp.
    + rewrite result_bind_ok. setoid_rewrite IH. apply validRange_Some in Hp as [-> Hok].
      split.
      * intros (rs' & [<- ?] & [= <-]). split; [done|]. by constructor.
      * destruct rs as [|q rs]; [naive_solver|]. intros [[= Hq1 Hq2 <-] [? ?]%Forall_cons].
        exists rs. split; [done|]. do 2 f_equal. destruct p, q; naive_solver.
    + split; [done|]. destruct rs as [|q rs]; [naive_solver|].
      intros [[= <- <-] [Hok _]%Forall_cons].
      assert (validRange [q.1; q.2] = Some q) by (by apply validRange_Some). congruence.
Qed.

Lemma mergeStep_spec merged r :
  canonical merged → version_range_ok r → (∀ q, q ∈ merged → q.1 ≤ r.1) →
  canonical (mergeStep merged r) ∧
  (∀ v, mem v (mergeStep merged r) ↔ mem v merged ∨ r.1 ≤ v ≤ r.2) ∧
  (∀ q, q ∈ mergeStep merged r → q.1 ≤ r.1).
Proof.
  intros Hc Hr Hle. unfold mergeStep.
  destruct (last merged) as [[pf pl]|] eqn:Hl.
  - apply last_Some in Hl as [m ->]. rewrite removelast_last.
    apply canonical_snoc in Hc as (Hm & Hp & Hap).
    assert (pf ≤ r.1) by (apply (Hle (pf, pl)); set_solver).
    destruct (Z.leb_spec r.1 (pl + 1)); split_and!.
    + apply canonical_snoc. split_and!; [done| |by intros q ?%Hap].
      unfold version_range_ok in *. simpl in *. lia.
    + intros v. rewrite !mem_app, !mem_cons. pose proof (mem_nil v).
      unfold version_range_ok in *. simpl in *.
      destruct (Z.le_gt_cases v pl), (Z.le_gt_cases r.1 v);
        split; intros Hv; repeat destruct Hv as [Hv|Hv]; try tauto; lia.
    + intros q [?| ->%list_elem_of_singleton]%elem_of_app; [|done].
      apply Hle. set_solver.
    + apply canonical_snoc. split_and!; [by apply canonical_snoc|done|].
      intros q [Hq| ->%list_elem_of_singleton]%elem_of_app; [|unfold apart; simpl; lia].
      apply Hap in Hq. unfold apart, version_range_ok in *. simpl in *. lia.
    + intros v. rewrite !mem_app, !mem_cons. pose proof (mem_nil v). tauto.
    + intros q [?| ->%list_elem_of_singleton]%elem_of_app; [by apply Hle|done].
  - apply last_None in Hl as ->. simpl. split_and!.
    + apply (canonical_snoc []). set_solver.
    + intros v. rewrite mem_cons. tauto.
    + intros q ->%list_elem_of_singleton. done.
Qed.

Lemma mergeAll_spec l merged :
  canonical merged → Forall version_range_ok l →
  StronglySorted (λ a b, byFirst a b ≤ 0) l →
  (∀ q r, q ∈ merged → r ∈ l → q.1 ≤ r.1) →
  canonical (foldl mergeStep merged l) ∧
  ∀ v, mem v (foldl mergeStep merged l) ↔ mem v merged ∨ mem v l.
Proof.
  revert merged. induction l as [|r l IH]; intros merged Hc Hok Hs Hle; simpl.
  - split; [done|]. intros v. pose proof (mem_nil v). tauto.
  - apply Forall_cons in Hok as [Hr Hok]. apply StronglySorted_cons in Hs as [Hall Hs].
    destruct (mergeStep_spec merged r) as (Hc' & Hm' & Hle'); [set_solver..|].
    destruct (IH (mergeStep merged r)) as [Hc'' Hm'']; [done..| |].
    + intros q r' Hq%Hle' Hr'. rewrite Forall_forall in Hall. specialize (Hall _ Hr').
      unfold byFirst in Hall. lia.
    + split; [done|]. intros v. rewrite Hm'', Hm', mem_cons. tauto.
Qed.

Lemma mem_js_sort v l : mem v (js_sort byFirst l) ↔ mem v l.
Proof. unfold mem. by setoid_rewrite elem_of_js_sort. Qed.

Lemma of_arrays_spec rs :
  Forall version_range_ok rs →
  ∃ r, of_ (asArrays rs) = Ok r ∧ canonical r ∧ ∀ v, mem v r ↔ mem v rs.
Proof.
  intros Hok. unfold of_. rewrite (proj2 (checkRanges_Ok _ rs)) by done. simpl.
  eexists; split; [reflexivity|].
  destruct (mergeAll_spec (js_sort byFirst rs) []) as [Hc Hm].
  - by repeat split; constructor.
  - rewrite js_sort_perm. done.
  - apply (js_sort_sorted byFirst).
  - set_solver.
  - split; [done|]. intros v. rewrite Hm, mem_js_sort. pose proof (mem_nil v). tauto.
Qed.

(** ** Membership *)

Lemma lookup_apart r i j p q :
  canonical r → r !! i = Some p → r !! j = Some q → (i < j)%nat → p.2 + 2 ≤ q.1.
Proof.
  intros [_ Hs]. revert i j. induction Hs as [|x l Hs IH Hall]; intros i j; [done|].
  destruct i as [|i], j as [|j]; simpl; intros Hp Hq ?; [lia| |lia|].
  - simplify_eq. rewrite Forall_forall in Hall. apply Hall.
    by eapply list_elem_of_lookup_2.
  - eapply IH; [done..|lia].
Qed.

Lemma lookup_ok r i p : canonical r → r !! i = Some p → version_range_ok p.
Proof. intros [Hok _] Hi. rewrite Forall_forall in Hok. apply Hok.
  by eapply list_elem_of_lookup_2. Qed.

(** the interval of indices the search still has to look at *)
Definition mem_between (v : Z) (r : list VersionRange) (low high : Z) : Prop :=
  ∃ i p, r !! i = Some p ∧ low ≤ Z.of_nat i ≤ high ∧ p.1 ≤ v ≤ p.2.

Lemma mem_mem_between v r : mem v r ↔ mem_between v r 0 (Z.of_nat (length r) - 1).
Proof.
  unfold mem, mem_between. split.
  - intros (p & [i Hi]%list_elem_of_lookup & ?). exists i, p.
    pose proof (lookup_lt_Some _ _ _ Hi). split; [done|]. lia.
  - intros (i & p & Hi & _ & ?). exists p. split; [|done].
    by eapply list_elem_of_lookup_2.
Qed.

Lemma has_loop_spec fuel r v low high :
  canonical r → indexable r →
  0 ≤ low ≤ high + 1 → high < Z.of_nat (length r) → high - low + 1 < Z.of_nat fuel →
  ∃ b, has_loop fuel r v low high = Some b ∧ (b = true ↔ mem_between v r low high).
Proof.
  intros Hc Hi. revert low high.
  induction fuel as [|fuel IH]; intros low high Hlow Hhigh Hfuel; simpl.
  { lia. }
  destruct (Z.leb_spec low high) as [Hlh|Hlh].
  2: { exists false. split; [done|]. split; [done|]. intros (i & p & ? & ? & ?). lia. }
  unfold indexable in Hi. rewrite shr1_small by lia.
  set (mid := (low + high) / 2).
  assert (low ≤ mid ≤ high) as Hmid by (unfold mid; split;
    [apply Z.div_le_lower_bound|apply Z.div_le_upper_bound]; lia).
  rewrite (proj2 (Z.ltb_ge mid 0)) by lia.
  destruct (r !! Z.to_nat mid) as [[first last]|] eqn:Hm; simpl.
  2: { apply lookup_ge_None in Hm. lia. }
  destruct (Z.ltb_spec v first) as [Hf|Hf]; [|destruct (Z.ltb_spec last v) as [Hl|Hl]].
  - destruct (IH low (mid - 1)) as (b & -> & Hb); [lia..|]. exists b. split; [done|].
    rewrite Hb. split; intros (i & p & Hp & ? & ?); exists i, p; (split; [done|]);
      (split; [|done]); [lia|].
    destruct (Z.lt_trichotomy (Z.of_nat i) mid) as [|[He|Hgt]]; [lia|..]; exfalso.
    + replace (Z.to_nat mid) with i in Hm by lia. simplify_eq. simpl in *. lia.
    + pose proof (lookup_apart r (Z.to_nat mid) i _ _ Hc Hm Hp). simpl in *.
      pose proof (lookup_ok _ _ _ Hc Hm) as [? _]. simpl in *. lia.
  - destruct (IH (mid + 1) high) as (b & -> & Hb); [lia..|]. exists b. split; [done|].
    rewrite Hb. split; intros (i & p & Hp & ? & ?); exists i, p; (split; [done|]);
      (split; [|done]); [lia|].
    destruct (Z.lt_trichotomy (Z.of_nat i) mid) as [Hlt|[He|]]; [..|lia]; exfalso.
    + pose proof (lookup_apart r i (Z.to_nat mid) _ _ Hc Hp Hm). simpl in *.
      pose proof (lookup_ok _ _ _ Hc Hm) as [? _]. simpl in *. lia.
    + replace (Z.to_nat mid) with i in Hm by lia. simplify_eq. simpl in *. lia.
  - exists true. split; [done|]. split; [|done]. intros _.
    exists (Z.to_nat mid), (first, last). split; [done|]. simpl. lia.
Qed.

Lemma has_mem r v : canonical r → indexable r → has r v = true ↔ mem v r.
Proof.
  intros Hc Hi. unfold has.
  destruct (has_loop_spec (S (length r)) r v 0 (Z.of_nat (length r) - 1))
    as (b & -> & Hb); [done|done|lia..|].
  simpl. by rewrite mem_mem_between.
Qed.

(** ** One set, one representation *)

Lemma mem_apart_lower p r v : Forall (apart p) r → mem v r → p.2 + 2 ≤ v.
Proof.
  intros Hall (q & Hq & ?). rewrite Forall_forall in Hall.
  specialize (Hall _ Hq). unfold apart in Hall. lia.
Qed.

(** the head range of a canonical set ends no later than that of an equal set *)
Lemma canonical_head_le p q a b :
  canonical (p :: a) → canonical (q :: b) →
  (∀ v, mem v (p :: a) ↔ mem v (q :: b)) → q.1 ≤ p.1 ∧ (p.1 = q.1 → p.2 ≤ q.2).
Proof.
  intros (Hp & Ha & _)%canonical_cons (Hq & Hb & _)%canonical_cons Hv.
  unfold version_range_ok in *. split.
  - assert (mem p.1 (q :: b)) as [?|Hm]%mem_cons; [|lia|].
    + apply Hv, mem_cons. lia.
    + apply (mem_apart_lower q) in Hm; [lia|done].
  - intros E. destruct (Z.le_gt_cases p.2 q.2) as [|Hlt]; [done|exfalso].
    assert (mem (q.2 + 1) (q :: b)) as [?|Hm]%mem_cons; [|lia|].
    + apply Hv, mem_cons. lia.
    + apply (mem_apart_lower q) in Hm; [lia|done].
Qed.

Lemma canonical_ext a b :
  canonical a → canonical b → (∀ v, mem v a ↔ mem v b) → a = b.
Proof.
  revert b. induction a as [|p a IH]; intros [|q b] Ca Cb Hv; [done|..].
  - apply canonical_cons in Cb as ([? _] & _). destruct (mem_nil q.1).
    apply Hv, mem_cons. lia.
  - apply canonical_cons in Ca as ([? _] & _). destruct (mem_nil p.1).
    apply Hv, mem_cons. lia.
  - destruct (canonical_head_le p q a b) as [H1 H2]; [done..|].
    destruct (canonical_head_le q p b a) as [H3 H4]; [done..|by intros; symmetry|].
    assert (p = q) as ->.
    { destruct p, q; simpl in *. f_equal; lia. }
    apply canonical_cons in Ca as (Hq & Ha & Ca), Cb as (_ & Hb & Cb).
    f_equal. apply IH; [done..|]. intros v. specialize (Hv v). rewrite !mem_cons in Hv.
    pose proof (mem_apart_lower q a v Ha). pose proof (mem_apart_lower q b v Hb).
    unfold version_range_ok in *. split; intros Hm.
    + destruct (proj1 Hv (or_intror Hm)) as [?|?]; [|done]. specialize (H Hm). lia.
    + destruct (proj2 Hv (or_intror Hm)) as [?|?]; [|done]. specialize (H0 Hm). lia.
Qed.

Lemma equals_eq a b : equals a b = true ↔ a = b.
Proof.
  unfold equals. rewrite andb_true_iff, bool_decide_eq_true.
  revert b. induction a as [|[x y] a IH]; intros [|[x' y'] b]; simpl; [naive_solver..|].
  rewrite andb_true_iff. split.
  - intros [Hl [Hp Ht]]. apply andb_true_iff in Hp as [?%Z.eqb_eq ?%Z.eqb_eq].
    f_equal; [by f_equal|]. apply IH. split; [congruence|done].
  - intros [= <- <- <-]. rewrite !Z.eqb_refl. split_and!; [done..|].
    by apply (proj2 (IH a)).
Qed.

(** ** Removing a version *)

Lemma without_spec version p :
  version_range_ok p →
  (∀ v, mem v (without version p) ↔ p.1 ≤ v ≤ p.2 ∧ v ≠ version) ∧
  Forall (λ q, version_range_ok q ∧ p.1 ≤ q.1 ∧ q.2 ≤ p.2) (without version p) ∧
  StronglySorted apart (without version p).
Proof.
  intros Hok. unfold without, version_range_ok in *.
  pose proof mem_nil as Hnil.
  destruct (Z.ltb_spec version p.1); destruct (Z.ltb_spec p.2 version); simpl;
    [exfalso; lia|..].
  1,2: split_and!; [intros v; rewrite mem_cons; specialize (Hnil v); intuition lia
                   |repeat constructor; lia|repeat constructor].
  destruct (Z.ltb_spec p.1 version), (Z.ltb_spec version p.2); simpl.
  all: split_and!; [intros v; rewrite ?mem_cons; specialize (Hnil v); simpl; intuition lia
                   |repeat constructor; simpl; lia|].
  all: repeat constructor; unfold apart; simpl; lia.
Qed.

Lemma delete_ranges_spec version r :
  canonical r →
  canonical (mjoin (without version <$> r)) ∧
  ∀ v, mem v (mjoin (without version <$> r)) ↔ mem v r ∧ v ≠ version.
Proof.
  induction r as [|p r IH]; intros Hc; simpl.
  - split; [done|]. intros v. pose proof (mem_nil v). tauto.
  - apply canonical_cons in Hc as (Hp & Hap & Hc). destruct (IH Hc) as [[IHo IHs] IHm].
    destruct (without_spec version p Hp) as (Wm & Wo & Ws). split; [split|].
    + apply Forall_app. split; [|done]. eapply Forall_impl; [exact Wo|]. naive_solver.
    + apply StronglySorted_app. split_and!; [|done|done]. intros x1 x2 Hx1 Hx2.
      rewrite Forall_forall in Wo. destruct (Wo _ Hx1) as (? & ? & ?).
      assert (mem x2.1 r) as Hm.
      { apply (IHm x2.1). exists x2. split; [done|]. rewrite Forall_forall in IHo.
        destruct (IHo _ Hx2). lia. }
      apply (mem_apart_lower p) in Hm; [|done]. unfold apart. lia.
    + intros v. rewrite mem_app, Wm, IHm, mem_cons. tauto.
Qed.

Lemma add_spec a version :
  canonical a → indexable a → 1 ≤ version ≤ MAX_SAFE_INTEGER →
  ∃ r, add a version = Ok r ∧ canonical r ∧ ∀ v, mem v r ↔ v = version ∨ mem v a.
Proof.
  intros Ca Hi Hv. unfold add. destruct (has a version) eqn:Hh.
  - apply has_mem in Hh; [|done..]. exists a. split; [done|]. split; [done|].
    intros v. split; [tauto|]. intros [->|?]; done.
  - destruct (of_arrays_spec (a ++ [(version, version)])) as (r & Hr & Hc & Hm).
    + apply Forall_app. split; [apply Ca|]. repeat constructor; simpl; lia.
    + unfold asArrays in Hr. rewrite fmap_app in Hr. exists r. split; [done|].
      split; [done|]. intros v. rewrite Hm, mem_app, mem_cons. simpl.
      pose proof (mem_nil v). split; [intros [?|[?|?]]; [tauto|left; lia|tauto]|].
      intros [->|?]; [right; left; lia|tauto].
Qed.

Lemma union_spec a b :
  canonical a → canonical b →
  ∃ r, union a b = Ok r ∧ canonical r ∧ ∀ v, mem v r ↔ mem v a ∨ mem v b.
Proof.
  intros Ca Cb. unfold union. destruct b as [|q b]; simpl.
  { exists a. split; [done|]. split; [done|]. intros v. pose proof (mem_nil v). tauto. }
  destruct a as [|p a]; simpl.
  { exists (q :: b). split; [done|]. split; [done|]. intros v.
    pose proof (mem_nil v). tauto. }
  destruct (of_arrays_spec ((p :: a) ++ (q :: b))) as (r & Hr & Hc & Hm).
  { apply Forall_app. split; [apply Ca|apply Cb]. }
  unfold asArrays in Hr. rewrite fmap_app in Hr. exists r. split; [done|].
  split; [done|]. intros v. by rewrite Hm, mem_app.
Qed.

Lemma delete_spec a version :
  canonical a → indexable a →
  canonical (delete a version) ∧ ∀ v, mem v (delete a version) ↔ mem v a ∧ v ≠ version.
Proof.
  intros Ca Hi. unfold delete. destruct (has a version) eqn:Hh; simpl.
  - by apply delete_ranges_spec.
  - split; [done|]. intros v. split; [|tauto]. intros Hm. split; [done|]. intros ->.
    apply has_mem in Hm; [congruence|done..].
Qed.

(** ranges that are never adjacent are few: bounded versions make the array short *)
Lemma canonical_length_from r lo b :
  canonical r → (∀ q, q ∈ r → lo ≤ q.1) → (∀ v, mem v r → v ≤ b) →
  2 * Z.of_nat (length r) ≤ Z.max 0 (b - lo + 2).
Proof.
  revert lo. induction r as [|p r IH]; intros lo Hc Hlo Hb; cbn [length]; [lia|].
  apply canonical_cons in Hc as (Hp & Hap & Hc). unfold version_range_ok in Hp.
  assert (lo ≤ p.1) by (apply Hlo; set_solver).
  assert (p.2 ≤ b) by (apply Hb, mem_cons; left; lia).
  assert (2 * Z.of_nat (length r) ≤ Z.max 0 (b - (lo + 2) + 2)); [|lia].
  apply IH; [done| |].
  - intros q Hq. rewrite Forall_forall in Hap. specialize (Hap q Hq). unfold apart in Hap. lia.
  - intros v Hv. apply Hb, mem_cons. by right.
Qed.

Lemma bounded_indexable r b :
  canonical r → (∀ v, mem v r → v ≤ b) → b ≤ 2 ^ 30 → indexable r.
Proof.
  intros Hc Hb Hle. unfold indexable.
  assert (2 * Z.of_nat (length r) ≤ Z.max 0 (b - 1 + 2)); [|lia].
  apply canonical_length_from; [done| |done]. intros q Hq. destruct Hc as [Hok _].
  rewrite Forall_forall in Hok. destruct (Hok q Hq). lia.
Qed.

#[export] Hint Resolve has_mem canonical_ext : swamp.

(** ** The properties *)

(** Whatever ranges it is given, [of] either returns the canonical
    (sorted, disjoint, never adjacent) representation of the union of the
    ranges, or throws because one of them is not a pair of positive safe
    integers in order. *)
Lemma of_represents_union (ranges : list (list Z)) :
  match of_ ranges with
  | Ok r =>
      canonical r ∧
      ∀ v, mem v r ↔ ∃ first last, [first; last] ∈ ranges ∧ first ≤ v ≤ last
  | Throw _ =>
      ∃ range, range ∈ ranges ∧
        ¬ ∃ first last, range = [first; last] ∧ 1 ≤ first ≤ last ∧ last ≤ MAX_SAFE_INTEGER
  end.
Proof.
  destruct (checkRanges ranges) as [rs|msg] eqn:Hc.
  - apply checkRanges_Ok in Hc as [<- Hok].
    destruct (of_arrays_spec rs Hok) as (r & -> & Hr & Hm). split; [done|].
    intros v. rewrite Hm. unfold mem, asArrays. setoid_rewrite list_elem_of_fmap. split.
    + intros (p & ? & ?). eauto 6.
    + intros (? & ? & ([x y] & [= -> ->] & ?) & ?). exists (x, y). done.
  - unfold of_. rewrite Hc. simpl.
    induction ranges as [|range ranges IH]; simpl in Hc; [done|].
    destruct (validRange range) as [p|] eqn:Hv.
    + destruct (checkRanges ranges) as [|msg']; simplify_eq/=.
      destruct IH as (x & ? & ?); [done|].
      exists x. set_solver.
    + exists range. split; [set_solver|]. intros (a & b & -> & ? & ?).
      assert (validRange [a; b] = Some (a, b)); [|congruence].
      by apply validRange_Some.
Qed.

(** On a canonical representation the binary search of [has] terminates
    within one turn per range, never reads past the array, and answers
    exactly membership; the array is assumed short enough for the 32-bit
    [>> 1] of the midpoint. *)
Lemma has_is_membership (r : list VersionRange) (version : Z) :
  canonical r → indexable r →
  ∃ b, has_loop (S (length r)) r version 0 (Z.of_nat (length r) - 1) = Some b ∧
       has r version = b ∧ (b = true ↔ mem version r).
Proof.
  intros Hc Hi.
  destruct (has_loop_spec (S (length r)) r version 0 (Z.of_nat (length r) - 1))
    as (b & Hb & Hm); [done|done|lia..|].
  exists b. unfold has. rewrite Hb, mem_mem_between. done.
Qed.

Lemma has_is_membership_witness :
  ∃ b, has_loop 3 [(1, 4); (7, 9)] 8 0 1 = Some b ∧
       has [(1, 4); (7, 9)] 8 = b ∧ (b = true ↔ mem 8 [(1, 4); (7, 9)]).
Proof.
  apply (has_is_membership [(1, 4); (7, 9)] 8).
  - repeat split; repeat constructor; unfold apart; simpl; unfold MAX_SAFE_INTEGER; lia.
  - unfold indexable. simpl. lia.
Defined.

(** [equals] on canonical representations decides equality of the sets
    they denote, so equal sets serialize equally. *)
Lemma equals_decides_set_equality (a b : list VersionRange) :
  canonical a → canonical b →
  equals a b = true ↔ ∀ v, mem v a ↔ mem v b.
Proof.
  intros Ca Cb. rewrite equals_eq. split; [by intros ->|]. by apply canonical_ext.
Qed.

Lemma equals_decides_set_equality_witness :
  equals [(1, 2)] [(1, 2)] = true ↔ ∀ v, mem v [(1, 2)] ↔ mem v [(1, 2)].
Proof.
  apply equals_decides_set_equality;
    repeat split; repeat constructor; simpl; unfold MAX_SAFE_INTEGER; lia.
Defined.

(** [add], [delete] and [union] refine insertion, removal and union on
    sets of versions: on canonical inputs and a positive safe version they
    return a canonical representation with exactly the expected members. *)
Lemma set_operations_refine (a b : list VersionRange) (version : Z) :
  canonical a → canonical b → indexable a → 1 ≤ version ≤ MAX_SAFE_INTEGER →
  (∃ r, add a version = Ok r ∧ canonical r ∧ ∀ v, mem v r ↔ v = version ∨ mem v a) ∧
  (∃ r, union a b = Ok r ∧ canonical r ∧ ∀ v, mem v r ↔ mem v a ∨ mem v b) ∧
  canonical (delete a version) ∧
  (∀ v, mem v (delete a version) ↔ mem v a ∧ v ≠ version).
Proof.
  intros Ca Cb Hi Hv. split_and!.
  - by apply add_spec.
  - by apply union_spec.
  - by apply delete_spec.
  - by apply delete_spec.
Qed.

Lemma set_operations_refine_witness :
  (∃ r, add [(1, 2)] 3 = Ok r ∧ canonical r ∧ ∀ v, mem v r ↔ v = 3 ∨ mem v [(1, 2)]) ∧
  (∃ r, union [(1, 2)] [(5, 6)] = Ok r ∧ canonical r ∧
        ∀ v, mem v r ↔ mem v [(1, 2)] ∨ mem v [(5, 6)]) ∧
  canonical (delete [(1, 2)] 3) ∧
  (∀ v, mem v (delete [(1, 2)] 3) ↔ mem v [(1, 2)] ∧ v ≠ 3).
Proof.
  apply (set_operations_refine [(1, 2)] [(5, 6)] 3).
  1, 2: repeat split; repeat constructor; simpl; unfold MAX_SAFE_INTEGER; lia.
  - unfold indexable. simpl. lia.
  - unfold MAX_SAFE_INTEGER. lia.
Defined.

Example of_merges : of_ [[7; 9]; [1; 3]; [4; 4]] = Ok [(1, 4); (7, 9)].
Proof. vm_compute. reflexivity. Qed.

Example of_refuses : of_ [[1; 3]; [0; 2]] = Throw "[0,2] is not a range of positive versions".
Proof. vm_compute. reflexivity. Qed.

Example delete_splits : delete [(1, 4); (7, 9)] 8 = [(1, 4); (7, 7); (9, 9)].
Proof. vm_compute. reflexivity. Qed.

End VersionRanges.
