(* ===== verification/JsString.v ===== *)
(** * JavaScript strings and values

    The string operations of the language the source uses. A string is a
    sequence of UTF-16 code units; the ones below 256 are kept, as [ascii]
    characters read as Latin-1, for which [toLowerCase] and the white space
    of [trim] and of the [\s] class are written out. *)

From Stdlib Require Import Ascii.
From S2P Require Import Prelude.

#[global] Arguments String.append !_ _ / : simpl nomatch.
#[global] Arguments Ascii.eqb : simpl never.

(** ** Literals *)

Definition DQ : string := String (ascii_of_nat 34) EmptyString.

Definition newline : string := String (ascii_of_nat 10) EmptyString.

(** the text between double quotes, as in the error messages *)
Definition quoted (s : string) : string := DQ +:+ s +:+ DQ.

(** ** Slices and searches *)

Fixpoint str_take (n : nat) (s : string) : string :=
  match n, s with
  | S n, String c s => String c (str_take n s)
  | _, _ => EmptyString
  end.

Fixpoint str_drop (n : nat) (s : string) : string :=
  match n, s with
  | S n, String _ s => str_drop n s
  | _, _ => s
  end.

(** [s.indexOf(c)], [None] standing for -1 *)
Fixpoint indexOf (c : ascii) (s : string) : option nat :=
  match s with
  | EmptyString => None
  | String d s => if Ascii.eqb c d then Some 0 else S <$> indexOf c s
  end.

Definition includesChar (c : ascii) (s : string) : bool :=
  match indexOf c s with Some _ => true | None => false end.

Definition startsWith (s p : string) : bool := String.prefix p s.

(** [s.endsWith(c)] for a one-character suffix *)
Fixpoint endsWithChar (c : ascii) (s : string) : bool :=
  match s with
  | EmptyString => false
  | String d EmptyString => Ascii.eqb c d
  | String _ s => endsWithChar c s
  end.

(** [s.slice(0, -1)] *)
Fixpoint dropLast (s : string) : string :=
  match s with
  | EmptyString => EmptyString
  | String _ EmptyString => EmptyString
  | String c s => String c (dropLast s)
  end.

(** [s.includes("xy")] for a two-character needle *)
Fixpoint includesPair (x y : ascii) (s : string) : bool :=
  match s with
  | String c ((String d _) as s') => (Ascii.eqb x c && Ascii.eqb y d) || includesPair x y s'
  | _ => false
  end.

Fixpoint map_string (f : ascii → ascii) (s : string) : string :=
  match s with
  | EmptyString => EmptyString
  | String c s => String (f c) (map_string f s)
  end.

Fixpoint all_chars (p : ascii → bool) (s : string) : bool :=
  match s with
  | EmptyString => true
  | String c s => p c && all_chars p s
  end.

(** [s.split(c)] for a one-character separator *)
Fixpoint splitOn (c : ascii) (s : string) : list string :=
  match s with
  | EmptyString => [""]
  | String d s =>
      match splitOn c s with
      | [] => [""]
      | w :: ws => if Ascii.eqb c d then "" :: w :: ws else String d w :: ws
      end
  end.

(** ** Character classes *)

Definition code (c : ascii) : Z := Z.of_nat (nat_of_ascii c).

Definition in_range (lo hi : Z) (c : ascii) : bool := ((lo <=? code c) && (code c <=? hi))%Z.

(** the class [\s], which is also what [trim] removes *)
Definition isSpace (c : ascii) : bool :=
  in_range 9 13 c || in_range 32 32 c || in_range 160 160 c.

Definition isUpper (c : ascii) : bool :=
  in_range 65 90 c || in_range 192 214 c || in_range 216 222 c.

Definition lower (c : ascii) : ascii :=
  if isUpper c then ascii_of_nat (nat_of_ascii c + 32) else c.

Definition toLowerCase (s : string) : string := map_string lower s.

(** the class [[0-9]] *)
Definition isDigit (c : ascii) : bool := in_range 48 57 c.

(** the class [[a-z]] *)
Definition isLowerAZ (c : ascii) : bool := in_range 97 122 c.

(** the value of a string of digits, [Number(s)] and [parseInt(s, 10)] *)
Fixpoint digits_value (acc : Z) (s : string) : Z :=
  match s with
  | EmptyString => acc
  | String c s => digits_value (acc * 10 + (code c - 48)) s
  end.

(** ** Trimming and replacing *)

Fixpoint trimStart (s : string) : string :=
  match s with
  | String c s' => if isSpace c then trimStart s' else s
  | EmptyString => EmptyString
  end.

Fixpoint trimEnd (s : string) : string :=
  match s with
  | EmptyString => EmptyString
  | String c s' =>
      let t := trimEnd s' in
      if isSpace c && bool_decide (t = "") then "" else String c t
  end.

Definition trim (s : string) : string := trimEnd (trimStart s).

(** [s.replace(/::/g, "/")] *)
Fixpoint replaceColons (s : string) : string :=
  match s with
  | EmptyString => EmptyString
  | String c s' =>
      match s' with
      | String d s'' =>
          if Ascii.eqb c ":" && Ascii.eqb d ":" then String "/" (replaceColons s'')
          else String c (replaceColons s')
      | EmptyString => String c EmptyString
      end
  end.

(** [s.replace(/p+/g, "/")] for a class [p]; [prev] says the previous
    character was in the class *)
Fixpoint collapse (p : ascii → bool) (prev : bool) (s : string) : string :=
  match s with
  | EmptyString => EmptyString
  | String c s' =>
      if p c then
        if prev then collapse p true s' else String "/" (collapse p true s')
      else String c (collapse p false s')
  end.

(** [s.replace(/\./g, "/")] *)
Definition replaceDots (s : string) : string :=
  map_string (λ c, if Ascii.eqb c "." then "/"%char else c) s.

Definition isSlash (c : ascii) : bool := Ascii.eqb c "/".

Definition stripLeadingSlash (s : string) : string :=
  match s with
  | String c s' => if isSlash c then s' else s
  | EmptyString => EmptyString
  end.

Definition stripTrailingSlash (s : string) : string :=
  if endsWithChar "/" s then dropLast s else s.

(** [s.replace(/^\/|\/$/g, "")] *)
Definition stripSlashes (s : string) : string := stripTrailingSlash (stripLeadingSlash s).

(** [s.replace(/^[@/]+/, "")] *)
Fixpoint stripAtSlash (s : string) : string :=
  match s with
  | String c s' => if Ascii.eqb c "@" || isSlash c then stripAtSlash s' else s
  | EmptyString => EmptyString
  end.

(** [s.replace(/\*$/, "")] *)
Definition stripTrailingStar (s : string) : string :=
  if endsWithChar "*" s then dropLast s else s.

(** ** [JSON.stringify] of a string *)

Definition hexDigit (n : Z) : ascii :=
  if (n <? 10)%Z then ascii_of_nat (Z.to_nat (48 + n)) else ascii_of_nat (Z.to_nat (87 + n)).

Definition jsonEscape (c : ascii) : string :=
  if (code c =? 34)%Z then "\" +:+ DQ
  else if (code c =? 92)%Z then "\\"
  else if (code c =? 8)%Z then "\b"
  else if (code c =? 9)%Z then "\t"
  else if (code c =? 10)%Z then "\n"
  else if (code c =? 12)%Z then "\f"
  else if (code c =? 13)%Z then "\r"
  else if (code c <? 32)%Z then
    "\u00" +:+ String (hexDigit (code c / 16)) (String (hexDigit (code c mod 16)) "")
  else String c "".

Fixpoint jsonEscapes (s : string) : string :=
  match s with
  | EmptyString => EmptyString
  | String c s => jsonEscape c +:+ jsonEscapes s
  end.

Definition JSON_stringify (s : string) : string := quoted (jsonEscapes s).

(** ** Values of type [unknown] *)

Inductive JsValue : Type :=
| VNull
| VBool (b : bool)
| VNum (z : Z)
| VStr (s : string)
| VArr (l : list JsValue)
| VObj (l : list (string * JsValue)).

(** the value of a field, [None] standing for [undefined] *)
Fixpoint assoc_get {V} (key : string) (l : list (string * V)) : option V :=
  match l with
  | [] => None
  | (k, v) :: l => if bool_decide (k = key) then Some v else assoc_get key l
  end.

Definition field_string (key : string) (l : list (string * JsValue)) : option string :=
  match assoc_get key l with Some (VStr s) => Some s | _ => None end.

(** [String(v)] *)
Fixpoint js_toString (v : JsValue) : string :=
  match v with
  | VNull => "null"
  | VBool b => if b then "true" else "false"
  | VNum z => pretty z
  | VStr s => s
  | VArr l =>
      join "," (List.map (λ x, match x with VNull => "" | _ => js_toString x end) l)
  | VObj _ => "[object Object]"
  end.

(** [String(v)] of a field that may be missing *)
Definition js_show (v : option JsValue) : string :=
  match v with None => "undefined" | Some v => js_toString v end.

(** [JSON.stringify(v)] *)
Fixpoint json_text (v : JsValue) : string :=
  match v with
  | VNull => "null"
  | VBool b => if b then "true" else "false"
  | VNum z => pretty z
  | VStr s => JSON_stringify s
  | VArr l => "[" +:+ join "," (List.map json_text l) +:+ "]"
  | VObj l =>
      "{" +:+ join "," (List.map (λ kv, JSON_stringify kv.1 +:+ ":" +:+ json_text kv.2) l) +:+ "}"
  end.

(** the first key of an object that is not among those allowed *)
Definition unknownField {V} (allowed : list string) (l : list (string * V)) : option string :=
  List.find (λ k, negb (bool_decide (k ∈ allowed))) l.*1.

(** a field that is written only when it has a value *)
Definition optField {A V} (key : string) (f : A → V) (a : option A) : list (string * V) :=
  match a with Some a => [(key, f a)] | None => [] end.

(** ** Facts *)

Lemma str_app_nil_r s : s +:+ "" = s.
Proof. induction s; by f_equal/=. Qed.

Lemma str_app_assoc (a b c : string) : (a +:+ b) +:+ c = a +:+ (b +:+ c).
Proof. induction a; by f_equal/=. Qed.

Lemma ascii_eqb_true (a b : ascii) : Ascii.eqb a b = true ↔ a = b.
Proof. apply Ascii.eqb_eq. Qed.

(** What [indexOf] and the two slices around it give on [k + c + r]. *)
Lemma indexOf_split c s n :
  indexOf c s = Some n ↔
  s = str_take n s +:+ String c (str_drop (S n) s) ∧ includesChar c (str_take n s) = false ∧
  n < String.length s.
Proof.
  revert n. induction s as [|d s IH]; intros n; simpl.
  - split; [done|]. intros (_ & _ & ?). lia.
  - destruct (Ascii.eqb c d) eqn:E.
    + apply ascii_eqb_true in E as ->. destruct n as [|n]; simpl.
      * split; [intros _|done]. split_and!; [by destruct s|done|lia].
      * split; [done|]. unfold includesChar. simpl. rewrite Ascii.eqb_refl. naive_solver.
    + rewrite fmap_Some. setoid_rewrite IH. split.
      * intros (m & (H1 & H2 & H3) & ->). simpl. split_and!; [by f_equal| |lia].
        unfold includesChar in *. simpl. rewrite E. by destruct (indexOf c (str_take m s)).
      * destruct n as [|n]; simpl; intros (H1 & H2 & H3).
        -- injection H1; intros; subst. by rewrite Ascii.eqb_refl in E.
        -- exists n. injection H1 as H1. split; [|done]. split_and!; [done| |lia].
           unfold includesChar in *. simpl in H2. rewrite E in H2.
           by destruct (indexOf c (str_take n s)).
Qed.

Lemma str_take_app a b : str_take (String.length a) (a +:+ b) = a.
Proof. induction a; simpl; [by destruct b|]. by f_equal/=. Qed.

Lemma str_drop_app a c b : str_drop (S (String.length a)) (a +:+ String c b) = b.
Proof. induction a; simpl; [by destruct b|done]. Qed.

Lemma indexOf_app a c b :
  includesChar c a = false → indexOf c (a +:+ String c b) = Some (String.length a).
Proof.
  induction a as [|d a IH]; simpl.
  - by rewrite Ascii.eqb_refl.
  - unfold includesChar. simpl. destruct (Ascii.eqb c d); [done|].
    intros H. rewrite IH; [done|]. unfold includesChar.
    by destruct (indexOf c a).
Qed.

Lemma startsWith_app p s : startsWith (p +:+ s) p = true.
Proof.
  unfold startsWith. induction p as [|c p IH]; simpl; [by destruct s|].
  by destruct (ascii_dec c c).
Qed.

Lemma startsWith_spec s p : startsWith s p = true ↔ ∃ r, s = p +:+ r.
Proof.
  unfold startsWith. split.
  - revert s. induction p as [|c p IH]; intros [|d s]; simpl; [by eexists..|done|].
    destruct (ascii_dec c d) as [->|]; [|done].
    intros [r ->]%IH. by exists r.
  - intros [r ->]. apply startsWith_app.
Qed.

Lemma endsWithChar_spec c s : endsWithChar c s = true ↔ ∃ p, s = p +:+ String c "".
Proof.
  split.
  - induction s as [|d s IH]; simpl; [done|]. destruct s as [|e s].
    + intros ->%ascii_eqb_true. by exists "".
    + intros [p Hp]%IH. exists (String d p). simpl. by f_equal.
  - intros [p ->]. induction p as [|d p IH]; simpl; [by rewrite Ascii.eqb_refl|].
    by destruct p; simpl in *; rewrite ?Ascii.eqb_refl.
Qed.

Lemma dropLast_snoc p c : dropLast (p +:+ String c "") = p.
Proof.
  induction p as [|d p IH]; simpl; [done|]. destruct p; simpl in *; [done|].
  by f_equal.
Qed.

Lemma str_length_app a b : String.length (a +:+ b) = String.length a + String.length b.
Proof. induction a; simpl; by f_equal. Qed.

Lemma str_length_take n s : n ≤ String.length s → String.length (str_take n s) = n.
Proof.
  revert s. induction n as [|n IH]; intros [|c s]; simpl; [done..|lia|].
  intros ?. rewrite IH by lia. done.
Qed.

(** ** Comparators by keys *)

Definition cmp_lex {A} (c1 c2 : A → A → Z) (x y : A) : Z :=
  if (c1 x y =? 0)%Z then c2 x y else c1 x y.

Lemma cmp_lex_comparator {A} (c1 c2 : A → A → Z) :
  Comparator c1 → Comparator c2 → Comparator (cmp_lex c1 c2).
Proof.
  intros [A1 T1] [A2 T2]. unfold cmp_lex.
  assert (∀ x y, c1 x y = 0%Z ↔ c1 y x = 0%Z) as E1.
  { intros x y. pose proof (A1 x y). pose proof (A1 y x). lia. }
  split.
  - intros x y. pose proof (A1 x y). pose proof (A1 y x). pose proof (E1 x y). pose proof (A2 x y).
    destruct (Z.eqb_spec (c1 x y) 0), (Z.eqb_spec (c1 y x) 0); lia.
  - intros x y z. pose proof (A1 x y). pose proof (A1 y x). pose proof (A1 y z). pose proof (A1 z y).
    pose proof (A1 x z). pose proof (A1 z x). pose proof (T1 x y z). pose proof (T1 z y x).
    pose proof (T1 y x z). pose proof (T1 z x y). pose proof (T1 x z y). pose proof (T1 y z x).
    pose proof (T2 x y z).
    destruct (Z.eqb_spec (c1 x y) 0), (Z.eqb_spec (c1 y z) 0), (Z.eqb_spec (c1 x z) 0); lia.
Qed.

Lemma cmp_on_comparator {A B} (f : A → B) (c : B → B → Z) :
  Comparator c → Comparator (λ x y, c (f x) (f y)).
Proof. intros [H1 H2]. split; naive_solver. Qed.

Lemma cmp_sub_comparator {A} (f : A → Z) : Comparator (λ x y, f x - f y)%Z.
Proof. split; intros; lia. Qed.

(** the default comparison of [Array.prototype.sort] on strings, by code units *)
Fixpoint codeUnitCompare (a b : string) : Z :=
  match a, b with
  | EmptyString, EmptyString => 0
  | EmptyString, _ => -1
  | _, EmptyString => 1
  | String c a, String d b =>
      if (code c =? code d)%Z then codeUnitCompare a b else (code c - code d)%Z
  end.

Lemma codeUnitCompare_comparator : Comparator codeUnitCompare.
Proof.
  split.
  - induction x as [|c x IH]; intros [|d y]; simpl; [lia..|].
    rewrite (Z.eqb_sym (code d)). destruct (Z.eqb_spec (code c) (code d)); [apply IH|lia].
  - induction x as [|c x IH]; intros [|d y] [|e z]; simpl; try lia.
    destruct (Z.eqb_spec (code c) (code d)), (Z.eqb_spec (code d) (code e)), (Z.eqb_spec (code c) (code e));
      try lia. apply IH.
Qed.

(** [a < b ? -1 : a > b ? 1 : 0] *)
Definition byCodeUnit (a b : string) : Z := Z.sgn (codeUnitCompare a b).

#[global] Instance byCodeUnit_comparator : Comparator byCodeUnit.
Proof.
  destruct codeUnitCompare_comparator as [H1 H2]. unfold byCodeUnit. split.
  - intros x y. specialize (H1 x y). lia.
  - intros x y z. specialize (H2 x y z). lia.
Qed.

Lemma codeUnitCompare_zero a b : codeUnitCompare a b = 0%Z ↔ a = b.
Proof.
  split; [|intros ->; induction b; simpl; [done|by rewrite Z.eqb_refl]].
  revert b. induction a as [|c a IH]; intros [|d b]; simpl; [done..|].
  destruct (Z.eqb_spec (code c) (code d)) as [E|]; [|lia]. intros H%IH. subst b. f_equal.
  unfold code in E. apply Nat2Z.inj in E. by rewrite <-(ascii_nat_embedding c), E, ascii_nat_embedding.
Qed.

(** ** [JSON.stringify] of strings is a prefix code *)

Definition allAscii : list ascii := ascii_of_nat <$> seq 0 256.

Lemma elem_of_allAscii (c : ascii) : c ∈ allAscii.
Proof.
  unfold allAscii. apply list_elem_of_fmap. exists (nat_of_ascii c).
  rewrite ascii_nat_embedding. split; [done|]. apply elem_of_seq.
  pose proof (nat_ascii_bounded c). lia.
Qed.

Lemma forall_ascii (p : ascii → bool) : forallb p allAscii = true → ∀ c, p c = true.
Proof. rewrite forallb_elem_of. eauto using elem_of_allAscii. Qed.

Lemma str_app_inj_l (a x y : string) : a +:+ x = a +:+ y → x = y.
Proof. induction a; simpl; [done|]. intros [= ?]. auto. Qed.

(** reading the first character back from its escape *)
Definition jsonUnescape (s : string) : option (ascii * string) :=
  match s with
  | EmptyString => None
  | String c s =>
      if negb (code c =? 92)%Z then Some (c, s)
      else match s with
           | EmptyString => None
           | String d s =>
               if (code d =? 98)%Z then Some (ascii_of_nat 8, s)
               else if (code d =? 116)%Z then Some (ascii_of_nat 9, s)
               else if (code d =? 110)%Z then Some (ascii_of_nat 10, s)
               else if (code d =? 102)%Z then Some (ascii_of_nat 12, s)
               else if (code d =? 114)%Z then Some (ascii_of_nat 13, s)
               else if (code d =? 117)%Z then
                 match s with
                 | String _ (String _ (String h (String l s))) =>
                     Some (ascii_of_nat (Z.to_nat (16 * (code h - 48) +
                       (if code l <? 60 then code l - 48 else code l - 87))), s)
                 | _ => None
                 end
               else Some (d, s)
           end
  end%Z.

(** the characters that are escaped *)
Definition escaped : list ascii := ascii_of_nat 34 :: ascii_of_nat 92 :: (ascii_of_nat <$> seq 0 32).

Lemma jsonEscape_cases c :
  c ∈ escaped ∨ (jsonEscape c = String c "" ∧ (code c =? 92)%Z = false).
Proof.
  pose proof (forall_ascii (λ c, existsb (Ascii.eqb c) escaped ||
    (String.eqb (jsonEscape c) (String c "") && negb (code c =? 92)%Z))
    ltac:(vm_compute; reflexivity) c) as H.
  apply orb_true_iff in H as [H|H]; [left|right].
  - apply existsb_elem_of in H as (d & Hd & E). apply ascii_eqb_true in E as ->. done.
  - apply andb_true_iff in H as [H1 H2]. apply String.eqb_eq in H1. by apply negb_true_iff in H2.
Qed.

Lemma jsonUnescape_escape c x : jsonUnescape (jsonEscape c +:+ x) = Some (c, x).
Proof.
  destruct (jsonEscape_cases c) as [Hc|[-> Hc]]; [|cbn; by rewrite Hc].
  assert (Forall (λ c, jsonUnescape (jsonEscape c +:+ x) = Some (c, x)) escaped) as H
    by (let l := eval vm_compute in escaped in change escaped with l; repeat constructor).
  rewrite Forall_forall in H. by apply H.
Qed.

Lemma jsonEscape_inj c d x y :
  jsonEscape c +:+ x = jsonEscape d +:+ y → c = d ∧ x = y.
Proof.
  intros E%(f_equal jsonUnescape). rewrite !jsonUnescape_escape in E. by injection E.
Qed.

Lemma jsonEscape_not_quote c x y : jsonEscape c +:+ x ≠ DQ +:+ y.
Proof.
  intros E. assert (∃ d s, jsonEscape c = String d s ∧ (code d =? 34)%Z = false) as (d & s & Ed & Hd).
  { pose proof (forall_ascii (λ c, match jsonEscape c with
      | String d _ => negb (code d =? 34)%Z | EmptyString => false end)
      ltac:(vm_compute; reflexivity) c) as H. simpl in H.
    destruct (jsonEscape c) as [|d s]; [done|]. exists d, s. split; [done|]. by apply negb_true_iff. }
  rewrite Ed in E. unfold DQ in E. simpl in E. injection E as -> _. done.
Qed.

Lemma JSON_stringify_inj a b x y :
  JSON_stringify a +:+ x = JSON_stringify b +:+ y → a = b ∧ x = y.
Proof.
  unfold JSON_stringify, quoted. rewrite !str_app_assoc. intros E%str_app_inj_l.
  revert b E. induction a as [|c a IH]; intros [|d b]; cbn [jsonEscapes].
  - intros E. change (DQ +:+ x = DQ +:+ y) in E. by apply str_app_inj_l in E.
  - rewrite str_app_assoc. intros E. symmetry in E. by apply jsonEscape_not_quote in E.
  - rewrite str_app_assoc. intros E. by apply jsonEscape_not_quote in E.
  - rewrite !str_app_assoc. intros [-> E]%jsonEscape_inj. destruct (IH _ E) as [-> ->]. done.
Qed.

(** ** Fields of an object *)

(** Decides the comparisons of literal keys that reading a field leaves. *)
Ltac eval_keys :=
  repeat match goal with
  | |- context [@bool_decide (@eq string ?a ?b) ?d] =>
      let v := eval vm_compute in (@bool_decide (@eq string a b) d) in
      lazymatch v with
      | true => change (@bool_decide (@eq string a b) d) with true
      | false => change (@bool_decide (@eq string a b) d) with false
      end
  end;
  cbv beta iota.

Lemma assoc_get_app {V} key (l1 l2 : list (string * V)) :
  assoc_get key (l1 ++ l2) =
  match assoc_get key l1 with Some v => Some v | None => assoc_get key l2 end.
Proof. induction l1 as [|[k v] l1 IH]; simpl; [done|]. by case_bool_decide. Qed.

Lemma assoc_get_is_Some {V} key (l : list (string * V)) :
  is_Some (assoc_get key l) ↔ key ∈ l.*1.
Proof.
  induction l as [|[k v] l IH]; simpl; [split; [by intros []|by intros []%elem_of_nil]|].
  rewrite elem_of_cons. case_bool_decide as E; subst; [by split; eauto|]. rewrite IH.
  split; [by right|]. by intros [?|?].
Qed.

Lemma assoc_get_optField {A V} key key' (f : A → V) a :
  assoc_get key (optField key' f a) = if bool_decide (key' = key) then f <$> a else None.
Proof. destruct a; simpl; [done|]. by case_bool_decide. Qed.

Lemma unknownField_None {V} allowed (l : list (string * V)) :
  unknownField allowed l = None ↔ ∀ k, k ∈ l.*1 → k ∈ allowed.
Proof.
  unfold unknownField. rewrite find_None_elem_of. split; intros H k Hk; specialize (H k Hk).
  - by split_bools.
  - apply negb_false_iff. by apply bool_decide_eq_true.
Qed.

Lemma unknownField_app {V} allowed (l1 l2 : list (string * V)) :
  unknownField allowed l1 = None → unknownField allowed l2 = None →
  unknownField allowed (l1 ++ l2) = None.
Proof.
  rewrite !unknownField_None. intros H1 H2 k. rewrite fmap_app, elem_of_app. naive_solver.
Qed.

Lemma unknownField_optField {A V} allowed key (f : A → V) a :
  key ∈ allowed → unknownField allowed (optField key f a) = None.
Proof.
  intros Hk. apply unknownField_None. destruct a; set_solver.
Qed.

Lemma all_chars_impl (p q : ascii → bool) s :
  (∀ c, p c = true → q c = true) → all_chars p s = true → all_chars q s = true.
Proof.
  intros Hpq. induction s as [|c s IH]; simpl; [done|].
  rewrite !andb_true_iff. intros [? ?]. auto.
Qed.

(** ** Decimal numerals are read back *)

Lemma pretty_char_digit x :
  (x < 10)%N → isDigit (pretty_N_char x) = true ∧ code (pretty_N_char x) = (48 + Z.of_N x)%Z.
Proof.
  intros Hx. assert (x = 0 ∨ x = 1 ∨ x = 2 ∨ x = 3 ∨ x = 4 ∨ x = 5 ∨ x = 6 ∨ x = 7 ∨ x = 8 ∨
    x = 9)%N as Hc by lia.
  by repeat destruct Hc as [->|Hc]; subst.
Qed.

Lemma pretty_go_digits x s :
  digits_value 0 (pretty_N_go x s) = digits_value (Z.of_N x) s ∧
  all_chars isDigit (pretty_N_go x s) = all_chars isDigit s.
Proof.
  revert s. induction (N.lt_wf_0 x) as [x _ IH]; intros s.
  assert (x = 0 ∨ 0 < x)%N as [->|Hx] by lia; [by rewrite pretty_N_go_0|].
  destruct (pretty_char_digit (x mod 10)) as [Hd Hv]; [by apply N.mod_lt|].
  rewrite pretty_N_go_step by done.
  destruct (IH (x / 10)%N (N.div_lt x 10 Hx eq_refl) (String (pretty_N_char (x mod 10)) s)) as [-> ->].
  cbn [digits_value all_chars]. rewrite Hd, Hv. split; [|done]. f_equal.
  rewrite N2Z.inj_mod, N2Z.inj_div. pose proof (Z.div_mod (Z.of_N x) 10). lia.
Qed.

Lemma pretty_go_nonempty x s : (0 < x)%N → pretty_N_go x s ≠ "".
Proof.
  revert s. induction (N.lt_wf_0 x) as [x _ IH]; intros s Hx.
  rewrite pretty_N_go_step by done.
  destruct (N.eq_0_gt_0_cases (x / 10)) as [->|Hy]; [done|].
  apply IH; [by apply N.div_lt|done].
Qed.

(** [Number(String(z)) = z] *)
Lemma pretty_Z_digits (z : Z) :
  (0 ≤ z)%Z →
  digits_value 0 (pretty z) = z ∧ all_chars isDigit (pretty z) = true ∧ pretty z ≠ "".
Proof.
  destruct z as [|p|p]; [intros _; by repeat split|intros _|lia].
  change (pretty (Zpos p)) with (pretty (Npos p)). unfold pretty, pretty_N.
  rewrite decide_False by done. destruct (pretty_go_digits (Npos p) "") as [-> ->].
  split_and!; [done..|]. by apply pretty_go_nonempty.
Qed.

(** a numeral has as many digits as its bound *)
Lemma pretty_go_length n x s :
  (x < 10 ^ N.of_nat n)%N → String.length (pretty_N_go x s) ≤ n + String.length s.
Proof.
  revert x s. induction n as [|n IH]; intros x s Hx.
  - assert (x = 0)%N as -> by (cbn in Hx; lia). by rewrite pretty_N_go_0.
  - assert (x = 0 ∨ 0 < x)%N as [->|Hp] by lia; [rewrite pretty_N_go_0; lia|].
    rewrite pretty_N_go_step by done. etransitivity; [apply IH|cbn; lia].
    apply N.Div0.div_lt_upper_bound. rewrite Nat2N.inj_succ, N.pow_succ_r' in Hx. done.
Qed.

Lemma pretty_Z_length n (z : Z) :
  0 < n → (0 ≤ z < 10 ^ Z.of_nat n)%Z → String.length (pretty z) ≤ n.
Proof.
  intros Hn Hz. destruct z as [|p|p]; [cbn; lia| |lia].
  change (pretty (Zpos p)) with (pretty (Npos p)). unfold pretty, pretty_N.
  rewrite decide_False by done. etransitivity; [apply (pretty_go_length n)|cbn; lia].
  apply N2Z.inj_lt. rewrite N2Z.inj_pow, nat_N_Z. cbn. lia.
Qed.

Lemma digits_value_acc acc s :
  digits_value acc s = (acc * 10 ^ Z.of_nat (String.length s) + digits_value 0 s)%Z.
Proof.
  revert acc. induction s as [|c s IH]; intros acc; cbn [digits_value String.length]; [lia|].
  rewrite IH, (IH (0 * 10 + _)%Z). rewrite Nat2Z.inj_succ, Z.pow_succ_r by lia. ring.
Qed.

Lemma digits_value_bound s :
  all_chars isDigit s = true → (0 ≤ digits_value 0 s < 10 ^ Z.of_nat (String.length s))%Z.
Proof.
  induction s as [|c s IH]; [done|]. cbn [digits_value String.length all_chars].
  intros [Hc Hs]%andb_true_iff. specialize (IH Hs). rewrite digits_value_acc.
  rewrite Nat2Z.inj_succ, Z.pow_succ_r by lia. unfold isDigit, in_range in Hc. split_bools.
  assert (0 < 10 ^ Z.of_nat (String.length s))%Z by (apply Z.pow_pos_nonneg; lia). nia.
Qed.

(** digits of one length are determined by their value *)
Lemma digits_value_inj a b :
  String.length a = String.length b → all_chars isDigit a = true → all_chars isDigit b = true →
  digits_value 0 a = digits_value 0 b → a = b.
Proof.
  revert b. induction a as [|c a IH]; intros [|d b]; try done.
  cbn [String.length all_chars digits_value]. intros [= Hl] [Hc Ha]%andb_true_iff [Hd Hb]%andb_true_iff.
  rewrite (digits_value_acc _ a), (digits_value_acc _ b), Hl. intros Hv.
  pose proof (digits_value_bound a Ha) as Ba. pose proof (digits_value_bound b Hb) as Bb. rewrite Hl in Ba.
  assert (code c = code d) as Hcd by nia. rewrite Hcd in Hv.
  assert (c = d) as ->.
  { unfold code in Hcd. apply Nat2Z.inj in Hcd.
    by rewrite <-(ascii_nat_embedding c), Hcd, ascii_nat_embedding. }
  f_equal. apply IH; [done..|]. lia.
Qed.
