(* ===== verification/JsonText.v ===== *)
(** * [JSON.stringify] tells values apart

    Several parts compare or look up values by their JSON text: commits are
    equal when their texts are, and the decisions on a commit are remembered
    under the text of the access they decide. The text is a prefix code, so
    equal texts are of equal values. *)

From Stdlib Require Import Ascii.
From S2P Require Import Prelude JsString.

Module JsonText.

(** induction on a value and the values in it *)
Section ind.
Context (P : JsValue → Prop).
Hypothesis (Hnull : P VNull) (Hbool : ∀ b, P (VBool b)) (Hnum : ∀ z, P (VNum z)) (Hstr : ∀ s, P (VStr s)).
Hypothesis (Harr : ∀ l, Forall P l → P (VArr l)).
Hypothesis (Hobj : ∀ l, Forall (P ∘ snd) l → P (VObj l)).

Fixpoint JsValue_ind' (v : JsValue) : P v :=
  match v with
  | VNull => Hnull
  | VBool b => Hbool b
  | VNum z => Hnum z
  | VStr s => Hstr s
  | VArr l =>
      Harr l ((fix go l : Forall P l :=
        match l with [] => Forall_nil_2 _ | v :: l => Forall_cons_2 _ _ _ (JsValue_ind' v) (go l) end) l)
  | VObj l =>
      Hobj l ((fix go l : Forall (P ∘ snd) l :=
        match l with
        | [] => Forall_nil_2 _
        | kv :: l => Forall_cons_2 (P ∘ snd) kv l (JsValue_ind' kv.2) (go l)
        end) l)
  end.
End ind.

(** text that cannot continue a number *)
Definition stops (x : string) : Prop :=
  match x with EmptyString => True | String c _ => isDigit c = false end.

(** texts of [f] end where they end, whatever follows *)
Definition prefixFree {A} (f : A → string) (a : A) : Prop :=
  ∀ b x y, stops x → stops y → f a +:+ x = f b +:+ y → a = b ∧ x = y.

Lemma digits_prefix a b x y :
  all_chars isDigit a = true → all_chars isDigit b = true → stops x → stops y →
  a +:+ x = b +:+ y → a = b ∧ x = y.
Proof.
  revert b. induction a as [|c a IH]; intros [|d b]; cbn [all_chars] in *; intros Ha Hb Hx Hy E.
  - done.
  - change ("" +:+ x) with x in E. rewrite E in Hx. cbn in Hx. by rewrite Hx in Hb.
  - change ("" +:+ y) with y in E. rewrite <-E in Hy. cbn in Hy. by rewrite Hy in Ha.
  - apply andb_true_iff in Ha as [_ Ha], Hb as [_ Hb]. injection E as -> E.
    destruct (IH b Ha Hb Hx Hy E) as [-> ->]. done.
Qed.

Lemma pretty_neg (z : Z) : (z < 0)%Z → pretty z = String "-" (pretty (- z)%Z).
Proof. destruct z; [lia|lia|]. done. Qed.

(** a number is its digits, after a sign when it is negative *)
Lemma pretty_head (z : Z) :
  (0 ≤ z)%Z → ∃ c r, pretty z = String c r ∧ isDigit c = true.
Proof.
  intros Hz. destruct (pretty_Z_digits z Hz) as (_ & Hd & Hn).
  destruct (pretty z) as [|c r]; [done|]. exists c, r. split; [done|].
  cbn [all_chars] in Hd. by apply andb_true_iff in Hd as [? _].
Qed.

Lemma pretty_prefix (z w : Z) x y :
  stops x → stops y → pretty z +:+ x = pretty w +:+ y → z = w ∧ x = y.
Proof.
  intros Hx Hy.
  assert (∀ a b : Z, (0 ≤ a)%Z → (0 ≤ b)%Z → pretty a +:+ x = pretty b +:+ y → a = b ∧ x = y) as Hpos.
  { intros a b Ha Hb E. destruct (pretty_Z_digits a Ha) as (Hva & Hda & _), (pretty_Z_digits b Hb) as (Hvb & Hdb & _).
    destruct (digits_prefix _ _ _ _ Hda Hdb Hx Hy E) as [Eab ->]. split; [|done].
    by rewrite <-Hva, <-Hvb, Eab. }
  assert (∀ a b : Z, (0 ≤ a)%Z → (b < 0)%Z → pretty a +:+ x ≠ pretty b +:+ y) as Hsign.
  { intros a b Ha Hb E. rewrite (pretty_neg b Hb) in E. destruct (pretty_head a Ha) as (c & r & Er & Hc).
    rewrite Er in E. injection E as -> _. done. }
  destruct (Z.lt_ge_cases z 0) as [Hz|Hz], (Z.lt_ge_cases w 0) as [Hw|Hw].
  - rewrite (pretty_neg z Hz), (pretty_neg w Hw). intros [= E].
    destruct (Hpos (- z)%Z (- w)%Z ltac:(lia) ltac:(lia) E) as [? ->]. split; [lia|done].
  - intros E. exfalso. clear Hpos Hsign. rewrite (pretty_neg z Hz) in E.
    destruct (pretty_head w Hw) as (c & r & Er & Hc). rewrite Er in E. injection E as <- _. done.
  - intros E. by destruct (Hsign z w Hz Hw).
  - by apply Hpos.
Qed.

(** the kind of value a text starts *)
Definition tagOf (c : ascii) : nat :=
  if Ascii.eqb c "n" then 0 else if Ascii.eqb c "t" then 1 else if Ascii.eqb c "f" then 2
  else if Ascii.eqb c (ascii_of_nat 34) then 3 else if Ascii.eqb c "[" then 4
  else if Ascii.eqb c "{" then 5 else if Ascii.eqb c "-" || isDigit c then 6 else 7.

Definition tag (v : JsValue) : nat :=
  match v with
  | VNull => 0 | VBool true => 1 | VBool false => 2 | VStr _ => 3 | VArr _ => 4 | VObj _ => 5 | VNum _ => 6
  end.

Lemma digit_tag c : isDigit c = true → tagOf c = 6.
Proof.
  pose proof (forall_ascii (λ c, implb (isDigit c) (tagOf c =? 6)) ltac:(vm_compute; reflexivity) c) as H.
  cbv beta in H. intros Hc. rewrite Hc in H. by apply Nat.eqb_eq.
Qed.

Lemma json_text_head v : ∃ c r, json_text v = String c r ∧ tagOf c = tag v.
Proof.
  destruct v as [|[]|z|s|l|l]; cbn [json_text tag]; try (by eexists _, _; split).
  destruct (Z.lt_ge_cases z 0) as [Hz|Hz].
  - rewrite pretty_neg by done. by eexists _, _; split.
  - destruct (pretty_head z Hz) as (c & r & -> & Hc). eexists _, _. split; [done|]. by apply digit_tag.
Qed.

Lemma json_text_tag v w x y : json_text v +:+ x = json_text w +:+ y → tag v = tag w.
Proof.
  destruct (json_text_head v) as (c & r & -> & <-), (json_text_head w) as (d & r' & -> & <-).
  by intros [= -> _].
Qed.

(** the items of an array or an object, up to its closing bracket *)
Lemma items_prefix {A} (f : A → string) (close : ascii) l x y :
  Forall (prefixFree f) l → (∀ a, ∃ c r, f a = String c r ∧ c ≠ close) →
  close ≠ ","%char → isDigit close = false →
  ∀ l', join "," (List.map f l) +:+ String close x = join "," (List.map f l') +:+ String close y → l = l' ∧ x = y.
Proof.
  intros Hl Hf Hc Hd. induction Hl as [|a l Ha Hl IH]; intros l' E.
  - destruct l' as [|b l']; [by injection E|]. exfalso. destruct (Hf b) as (c & r & Hb & Hne).
    destruct l'; cbn [List.map join] in E; rewrite Hb in E; injection E as E1 _; congruence.
  - destruct l' as [|b l'].
    { exfalso. destruct (Hf a) as (c & r & Hb & Hne).
      destruct l; cbn [List.map join] in E; rewrite Hb in E; injection E as E1 _; congruence. }
    destruct l as [|a' l], l' as [|b' l']; cbn [List.map join] in E; rewrite ?str_app_assoc in E.
    + apply Ha in E as [-> E]; [|done..]. by injection E.
    + apply Ha in E as [_ E]; [|done..]. injection E as E _. congruence.
    + apply Ha in E as [_ E]; [|done..]. injection E as E _. congruence.
    + apply Ha in E as [-> E]; [|done..]. apply (str_app_inj_l ",") in E.
      destruct (IH (b' :: l') E) as [-> ->]. done.
Qed.

Lemma json_text_prefix v : prefixFree json_text v.
Proof.
  induction v as [|b|z|s|l IH|l IH] using JsValue_ind'; intros w x y Hx Hy E;
    pose proof (json_text_tag _ _ _ _ E) as Ht;
    destruct w as [|b'|z'|s'|l'|l']; cbn [tag] in Ht; try (by destruct b); try (by destruct b'); try done.
  - cbn in E. by injection E.
  - destruct b, b'; try done; cbn in E; by injection E.
  - cbn [json_text] in E. destruct (pretty_prefix _ _ _ _ Hx Hy E) as [-> ->]. done.
  - cbn [json_text] in E. destruct (JSON_stringify_inj _ _ _ _ E) as [-> ->]. done.
  - cbn [json_text] in E. rewrite !str_app_assoc in E. apply (str_app_inj_l "[") in E.
    destruct (items_prefix json_text "]" l x y) with (l' := l') as [-> ->]; try done.
    intros a. destruct (json_text_head a) as (c & r & -> & Hc). exists c, r. split; [done|].
    intros ->. by destruct a as [|[]| | | |].
  - cbn [json_text] in E. rewrite !str_app_assoc in E. apply (str_app_inj_l "{") in E.
    destruct (items_prefix (λ kv, JSON_stringify kv.1 +:+ ":" +:+ json_text kv.2) "}" l x y)
      with (l' := l') as [-> ->]; try done.
    + eapply Forall_impl; [exact IH|]. intros [k v] Hv [k' v'] x' y' Hx' Hy' E'. cbn [fst snd] in *.
      rewrite !str_app_assoc in E'. apply JSON_stringify_inj in E' as [-> E'].
      apply (str_app_inj_l ":") in E'. change (prefixFree json_text v) in Hv.
      destruct (Hv _ _ _ Hx' Hy' E') as [-> ->]. done.
    + intros [k v]. by eexists _, _; split.
Qed.

Lemma json_text_inj v w : json_text v = json_text w → v = w.
Proof. intros E. apply (json_text_prefix v w "" ""); [done..|]. by rewrite !str_app_nil_r. Qed.

End JsonText.
