(* ===== verification/ExpressionScanner.v ===== *)
(** * Expressions in strings: the lexer and the scanner

    [src/src/domain/expressions/cel_string_lexer.ts] (a step of the lexer and
    the segments of a text), [src/src/domain/expressions/expression_scanner.ts]
    (the spans [${{ ... }}] of a value) and the traversal
    [extractExpressions] of [expression_parser.ts]. Positions are naturals and
    [LEX_ERROR] is [None]. Whether a text parses as CEL is decided by the
    parser of a package, so [parsesAsCel] of [cel_grammar.ts] is the class
    [CelGrammar]. The counters of [ScanWork] are always kept; the spans do not
    depend on them.

    The loops take fuel: a step of the lexer advances ([lexStep_advances]), and
    so does an iteration of the scanner, so the length of the text is enough
    ([scanLoop_covers] and [scanLoop_work] of [ExpressionScannerProps]). *)

From Stdlib Require Import Ascii.
From S2P Require Import Prelude JsString.

Module Lexer.

Inductive LexState : Type := Code | Single | Double | TripleSingle | TripleDouble | Comment.

#[global] Instance LexState_eq_dec : EqDecision LexState.
Proof. solve_decision. Defined.

Definition stateNumber (s : LexState) : nat :=
  match s with
  | Code => 0 | Single => 1 | Double => 2 | TripleSingle => 3 | TripleDouble => 4 | Comment => 5
  end.

Definition LEX_STATE_COUNT : nat := 6.

Definition SQ : ascii := "'".
Definition QUOTE : ascii := ascii_of_nat 34.
Definition BACKSLASH : ascii := ascii_of_nat 92.
Definition LF : ascii := ascii_of_nat 10.
Definition CR : ascii := ascii_of_nat 13.

(** [text[pos] === c] *)
Definition isAt (text : string) (pos : nat) (c : ascii) : bool :=
  bool_decide (String.get pos text = Some c).

Definition openQuote (text : string) (pos : nat) (quote : ascii) (one three : LexState)
    : nat * LexState :=
  if isAt text (pos + 1) quote && isAt text (pos + 2) quote then (pos + 3, three) else (pos + 1, one).

(** [lexStep]; [None] for a position is [LEX_ERROR] *)
Definition lexStep (text : string) (pos : nat) (state : LexState) : option nat * LexState :=
  let escape := if pos + 2 <=? String.length text then Some (pos + 2) else None in
  let inLine quote :=
    if isAt text pos BACKSLASH then (escape, state)
    else if isAt text pos quote then (Some (pos + 1), Code)
    else if isAt text pos LF || isAt text pos CR then (None, state)
    else (Some (pos + 1), state) in
  let inTriple quote :=
    if isAt text pos BACKSLASH then (escape, state)
    else if isAt text pos quote && isAt text (pos + 1) quote && isAt text (pos + 2) quote
    then (Some (pos + 3), Code)
    else (Some (pos + 1), state) in
  match state with
  | Code =>
      if isAt text pos SQ then let '(p, s) := openQuote text pos SQ Single TripleSingle in (Some p, s)
      else if isAt text pos QUOTE
      then let '(p, s) := openQuote text pos QUOTE Double TripleDouble in (Some p, s)
      else if isAt text pos "/" && isAt text (pos + 1) "/" then (Some (pos + 2), Comment)
      else (Some (pos + 1), Code)
  | Single => inLine SQ
  | Double => inLine QUOTE
  | TripleSingle => inTriple SQ
  | TripleDouble => inTriple QUOTE
  | Comment => (Some (pos + 1), if isAt text pos LF then Code else Comment)
  end.

(** ** Segments *)

Inductive Kind : Type := code | string_ | comment.

Record LexSegment : Type := MkSegment { kind : Kind; start : nat; end_ : nat }.

#[global] Instance Kind_eq_dec : EqDecision Kind.
Proof. solve_decision. Defined.
#[global] Instance LexSegment_eq_dec : EqDecision LexSegment.
Proof. solve_decision. Defined.

Definition kindOf (s : LexState) : Kind :=
  match s with Code => code | Comment => comment | _ => string_ end.

Fixpoint segmentLoop (fuel : nat) (text : string) (pos : nat) (state : LexState)
    (segmentStart : nat) (segments : list LexSegment) : list LexSegment :=
  let last :=
    segments ++ if segmentStart <? String.length text
                then [MkSegment (kindOf state) segmentStart (String.length text)] else [] in
  match fuel with
  | O => last
  | S fuel =>
      if pos <? String.length text then
        match lexStep text pos state with
        | (None, _) => last
        | (Some next, nextState) =>
            if bool_decide (nextState = state)
            then segmentLoop fuel text next nextState segmentStart segments
            else
              let boundary := match state with Code => pos | _ => next end in
              segmentLoop fuel text next nextState boundary
                (segments ++ if segmentStart <? boundary
                             then [MkSegment (kindOf state) segmentStart boundary] else [])
        end
      else last
  end.

Definition lexSegments (text : string) : list LexSegment :=
  segmentLoop (String.length text) text 0 Code 0 [].

(** [text.slice(from, to)] *)
Definition slice (text : string) (from to : nat) : string := String.substring from (to - from) text.

Fixpoint skipSpace (fuel : nat) (text : string) (i end_ : nat) : nat :=
  match fuel with
  | O => i
  | S fuel =>
      match String.get i text with
      | Some c => if (i <? end_) && isSpace c then skipSpace fuel text (i + 1) end_ else i
      | None => i
      end
  end.

(** [while (i < end && WHITESPACE.test(text[i])) i++] *)
Definition pastSpace (text : string) (i end_ : nat) : nat := skipSpace (String.length text) text i end_.

Fixpoint normaliseLoop (fuel : nat) (text : string) (i : nat) (out : string) : string :=
  match fuel with
  | O => out
  | S fuel =>
      let n := String.length text in
      match String.get i text with
      | None => out
      | Some ch =>
          if isSpace ch then
            let j := pastSpace text i n in
            normaliseLoop fuel text j (if isAt text j "." then out else out +:+ slice text i j)
          else if Ascii.eqb ch "." then
            let i := pastSpace text (i + 1) n in
            normaliseLoop fuel text (if isAt text i "?" then pastSpace text (i + 1) n else i)
              (out +:+ ".")
          else normaliseLoop fuel text (i + 1) (out +:+ String ch "")
      end
  end.

Definition normaliseMemberAccess (text : string) : string :=
  normaliseLoop (String.length text) text 0 "".

Definition stripStringLiterals (celExpression : string) : string :=
  foldl (λ out seg,
    match kind seg with
    | string_ => out +:+ DQ +:+ DQ
    | code => out +:+ normaliseMemberAccess (slice celExpression (start seg) (end_ seg))
    | comment => out +:+ slice celExpression (start seg) (end_ seg)
    end) "" (lexSegments celExpression).

End Lexer.

(** ** The scanner *)

(** whether a text parses in the grammar evaluation uses *)
Class CelGrammar := parsesAsCel : string → bool.

Module Scanner.
Import Lexer.

Record ExpressionSpan : Type := MkSpan { start : nat; end_ : nat; raw : string; inner : string }.

Record ScanWork : Type := MkWork { lexSteps : nat; parsedChars : nat }.

#[global] Instance ExpressionSpan_eq_dec : EqDecision ExpressionSpan.
Proof. solve_decision. Defined.
#[global] Instance ScanWork_eta : Eta ScanWork := λ w, MkWork (lexSteps w) (parsedChars w).

Definition OPENER : string := "${{".
Definition CLOSER : string := "}}".

(** [value.startsWith(pattern, pos)] *)
Definition startsWithAt (value pattern : string) (pos : nat) : bool :=
  bool_decide (String.substring pos (String.length pattern) value = pattern).

Definition stateKey (pos : nat) (state : LexState) : nat := pos * LEX_STATE_COUNT + stateNumber state.

Definition mayClose (state : LexState) : bool :=
  match state with Code | Comment => true | _ => false end.

(** the loop of [walkToClose]: the close, the visited keys and the steps made *)
Fixpoint walkLoop (fuel : nat) (value : string) (open : nat) (rejected : gset nat)
    (visited : list nat) (work : ScanWork) (pos : nat) (state : LexState)
    : option nat * list nat * ScanWork :=
  match fuel with
  | O => (None, visited, work)
  | S fuel =>
      if pos <? String.length value then
        let key := stateKey pos state in
        if bool_decide (key ∈ rejected) then (None, visited, work)
        else
          let visited := visited ++ [key] in
          if mayClose state && (open <? pos) && startsWithAt value CLOSER pos
          then (Some pos, visited, work)
          else
            let work := work <| lexSteps := lexSteps work + 1 |> in
            match lexStep value pos state with
            | (None, _) => (None, visited, work)
            | (Some pos, state) => walkLoop fuel value open rejected visited work pos state
            end
      else (None, visited, work)
  end.

Definition walkToClose (value : string) (open : nat) (rejected : gset nat) (work : ScanWork)
    : option nat * list nat * ScanWork :=
  walkLoop (String.length value) value open rejected [] work open Code.

Definition markRejected (rejected : gset nat) (visited : list nat) : gset nat :=
  foldl (λ r key, {[key]} ∪ r) rejected visited.

Section scan.
Context `{CelGrammar}.

Definition parses (text : string) (work : ScanWork) : bool * ScanWork :=
  let cel := trim text in
  (parsesAsCel cel, work <| parsedChars := parsedChars work + String.length cel |>).

(** the close, with the keys rejected so far and the work *)
Definition chooseClose (value : string) (open legacy : nat) (rejected : gset nat) (work : ScanWork)
    : nat * gset nat * ScanWork :=
  let '(walked, visited, work) := walkToClose value open rejected work in
  match walked with
  | Some walked =>
      if bool_decide (walked = legacy) then (legacy, rejected, work)
      else
        let '(ok, work) := parses (slice value open legacy) work in
        if ok then (legacy, markRejected rejected visited, work)
        else
          let '(ok, work) := parses (slice value open walked) work in
          if ok then (walked, rejected, work)
          else (legacy, markRejected rejected visited, work)
  | None => (legacy, markRejected rejected visited, work)
  end.

Fixpoint scanLoop (fuel : nat) (value : string) (from : nat) (rejected : gset nat)
    (work : ScanWork) : list ExpressionSpan * ScanWork :=
  match fuel with
  | O => ([], work)
  | S fuel =>
      match String.index from OPENER value with
      | None => ([], work)
      | Some start =>
          let open := start + String.length OPENER in
          match String.index (open + 1) CLOSER value with
          | None => ([], work)
          | Some legacy =>
              let '(close, rejected, work) := chooseClose value open legacy rejected work in
              let end_ := close + String.length CLOSER in
              let '(spans, work) := scanLoop fuel value end_ rejected work in
              (MkSpan start end_ (slice value start end_) (trim (slice value open close)) :: spans, work)
          end
      end
  end.

Definition scan (value : string) : list ExpressionSpan * ScanWork :=
  match String.index 0 OPENER value with
  | None => ([], MkWork 0 0)
  | Some _ => scanLoop (String.length value) value 0 ∅ (MkWork 0 0)
  end.

Definition scanExpressions (value : string) : list ExpressionSpan := (scan value).1.
Definition scanWork (value : string) : ScanWork := (scan value).2.

Definition matchSingleExpression (value : string) (exact : bool) : option ExpressionSpan :=
  if negb (startsWithAt value OPENER 0) then None
  else
    match scanExpressions value with
    | [] => None
    | span :: _ =>
        if negb (start span =? 0) then None
        else
          let rest := slice value (end_ span) (String.length value) in
          if bool_decide ((if exact then rest else trim rest) ≠ "") then None else Some span
    end.

Fixpoint onlyExpressions (value : string) (last : nat) (spans : list ExpressionSpan) : bool :=
  match spans with
  | [] => bool_decide (trim (slice value last (String.length value)) = "")
  | span :: spans =>
      bool_decide (trim (slice value last (start span)) = "") && onlyExpressions value (end_ span) spans
  end.

Definition isExpressionsOnly (value : string) : bool :=
  match scanExpressions value with
  | [] => false
  | spans => onlyExpressions value 0 spans
  end.

Fixpoint replaceLoop (value : string) (replace : ExpressionSpan → string) (last : nat)
    (spans : list ExpressionSpan) : string :=
  match spans with
  | [] => slice value last (String.length value)
  | span :: spans =>
      slice value last (start span) +:+ replace span +:+ replaceLoop value replace (end_ span) spans
  end.

Definition replaceExpressionSpans (value : string) (replace : ExpressionSpan → string) : string :=
  match scanExpressions value with
  | [] => value
  | spans => replaceLoop value replace 0 spans
  end.

End scan.
End Scanner.

(** ** The expressions of a value *)

Module ExpressionParser.
Import Scanner.

Record ExpressionLocation : Type := MkLocation {
  path : string;
  l_raw : string;
  celExpression : string;
  l_start : nat;
  l_end : nat;
  embedded : bool;
}.

#[global] Instance ExpressionLocation_eq_dec : EqDecision ExpressionLocation.
Proof. solve_decision. Defined.

(** [HAS_EXPRESSION_PATTERN.test(value)]: an opener, at least one character and
    a closer *)
Definition containsExpression (value : string) : bool :=
  let positions := seq 0 (String.length value) in
  existsb (λ i, startsWithAt value OPENER i &&
                existsb (λ j, (i + 4 <=? j) && startsWithAt value CLOSER j) positions) positions.

(** [provenance_map.ts] *)
Definition isPathChar (c : ascii) : bool :=
  Ascii.eqb c "." || Ascii.eqb c "[" || Ascii.eqb c "]" || Ascii.eqb c Lexer.QUOTE.

Definition keySegment (key : string) : string :=
  if negb (bool_decide (key = "")) && all_chars (λ c, negb (isPathChar c)) key then key
  else "[" +:+ JSON_stringify key +:+ "]".

Definition prefix (root path : string) : string :=
  if bool_decide (root = "") then path
  else if bool_decide (path = "") then root
  else if startsWith path "[" then root +:+ path else root +:+ "." +:+ path.

Definition keyPath (parent key : string) : string := prefix parent (keySegment key).

Definition indexPath (parent : string) (index : nat) : string :=
  parent +:+ "[" +:+ pretty (Z.of_nat index) +:+ "]".

Section parser.
Context `{CelGrammar}.

Definition locationOf (path : string) (embedded : bool) (span : ExpressionSpan) : ExpressionLocation :=
  MkLocation path (raw span) (inner span) (start span) (end_ span) embedded.

(** [extractExpressionsRecursive]; [skipPath] is the constantly false function
    when the caller gives none *)
Fixpoint extractFrom (skipPath : string → bool) (data : JsValue) (path : string)
    : list ExpressionLocation :=
  if skipPath path then []
  else
    match data with
    | VStr s =>
        let embedded := bool_decide (matchSingleExpression s false = None) in
        locationOf path embedded <$> scanExpressions s
    | VArr l =>
        (fix items (l : list JsValue) (i : nat) :=
           match l with
           | [] => []
           | x :: l => extractFrom skipPath x (indexPath path i) ++ items l (S i)
           end) l 0
    | VObj l =>
        (fix fields (l : list (string * JsValue)) :=
           match l with
           | [] => []
           | (key, x) :: l => extractFrom skipPath x (keyPath path key) ++ fields l
           end) l
    | _ => []
    end.

Definition extractExpressions (data : JsValue) : list ExpressionLocation :=
  extractFrom (λ _, false) data "".

Fixpoint valueContainsExpression (value : JsValue) : bool :=
  match value with
  | VStr s => containsExpression s
  | VArr l => existsb valueContainsExpression l
  | VObj l => existsb (λ kv, valueContainsExpression kv.2) l
  | _ => false
  end.

End parser.
End ExpressionParser.
