(* ===== verification/ExpressionScannerProps.v ===== *)
(** * Properties of the lexer and the scanner of expressions

    A step of the lexer advances and stays in the text, so the segments of a
    text partition it; the spans of a value are its expressions, in order, and
    leave no expression outside them; the work of a scan is linear in the
    length of the value, whatever parses. *)

From Stdlib Require Import Ascii.
From S2P Require Import Prelude JsString ExpressionScanner.

Module ScannerProps.
Import Lexer Scanner.

(** ** Positions and slices of strings *)

Lemma get_Some_lt n s c : String.get n s = Some c → n < String.length s.
Proof. revert n. induction s as [|d s IH]; intros [|n]; simpl; [done..|lia|]. intros ?%IH. lia. Qed.

Lemma isAt_lt text pos c : isAt text pos c = true → pos < String.length text.
Proof. unfold isAt. rewrite bool_decide_eq_true. apply get_Some_lt. Qed.

Lemma length_substring s n m :
  String.length (String.substring n m s) = Nat.min m (String.length s - n).
Proof.
  revert n m. induction s as [|d s IH]; intros [|n] [|m]; simpl; rewrite ?IH, ?Nat.sub_0_r; done.
Qed.

Lemma length_slice s a b : b ≤ String.length s → String.length (slice s a b) = b - a.
Proof. unfold slice. rewrite length_substring. lia. Qed.

Lemma length_trimEnd s : String.length (trimEnd s) ≤ String.length s.
Proof. induction s as [|c s IH]; simpl; [done|]. destruct (_ && _); simpl; lia. Qed.

Lemma length_trimStart s : String.length (trimStart s) ≤ String.length s.
Proof. induction s as [|c s IH]; simpl; [done|]. destruct (isSpace c); simpl; lia. Qed.

Lemma length_trim s : String.length (trim s) ≤ String.length s.
Proof. unfold trim. etrans; [apply length_trimEnd|apply length_trimStart]. Qed.

Lemma substring_all s : String.substring 0 (String.length s) s = s.
Proof. induction s; by f_equal/=. Qed.

Lemma slice_all s : slice s 0 (String.length s) = s.
Proof. unfold slice. rewrite Nat.sub_0_r. apply substring_all. Qed.

Lemma substring_app s n a b :
  n + a ≤ String.length s →
  String.substring n a s +:+ String.substring (n + a) b s = String.substring n (a + b) s.
Proof.
  revert n a. induction s as [|d s IH]; intros [|n] [|a] Hl; simpl in *; try lia; try done.
  - f_equal. apply (IH 0 a). lia.
  - apply IH. lia.
  - apply (IH n (S a)). lia.
Qed.

Lemma slice_app s a b c :
  a ≤ b → b ≤ c → b ≤ String.length s → slice s a b +:+ slice s b c = slice s a c.
Proof.
  intros. unfold slice. replace (c - a) with ((b - a) + (c - b)) by lia.
  rewrite <-substring_app by lia. do 2 f_equal. lia.
Qed.

Lemma startsWithAt_bound value pattern pos :
  pattern ≠ "" → startsWithAt value pattern pos = true → pos + String.length pattern ≤ String.length value.
Proof.
  unfold startsWithAt. rewrite bool_decide_eq_true. intros Hp E.
  assert (String.length pattern ≠ 0) by by destruct pattern.
  assert (String.length (String.substring pos (String.length pattern) value) = String.length pattern)
    as El by by rewrite E.
  rewrite length_substring in El. lia.
Qed.

Lemma index_Some from pattern value n :
  String.index from pattern value = Some n →
  from ≤ n ∧ startsWithAt value pattern n = true ∧
  ∀ m, from ≤ m → m < n → startsWithAt value pattern m = false.
Proof.
  intros E. split_and!.
  - revert n value E. induction from as [|from IH]; intros n value E; [lia|].
    destruct value as [|c value]; [done|]. cbn in E.
    destruct (String.index from pattern value) eqn:E'; [|done]. simplify_eq. apply IH in E'. lia.
  - unfold startsWithAt. apply bool_decide_eq_true. by apply String.index_correct1 in E.
  - intros m Hm Hmn. unfold startsWithAt. apply bool_decide_eq_false.
    eapply (String.index_correct2 from n pattern value); eauto.
Qed.

Lemma index_None from pattern value m :
  pattern ≠ "" → String.index from pattern value = None → from ≤ m →
  startsWithAt value pattern m = false.
Proof.
  intros Hp E Hm. unfold startsWithAt. apply bool_decide_eq_false.
  eapply (String.index_correct3 from m pattern value); eauto.
Qed.

(** ** Steps of the lexer *)

Lemma lexStep_advances text pos s next s' :
  pos < String.length text → lexStep text pos s = (Some next, s') →
  pos < next ∧ next ≤ pos + 3 ∧ next ≤ String.length text.
Proof.
  intros Hpos E. unfold lexStep, openQuote in E.
  repeat match goal with
  | E : context [if ?b then _ else _] |- _ => destruct b eqn:?
  | E : context [match ?s with Code => _ | _ => _ end] |- _ => destruct s
  end; simplify_eq; split_bools;
  repeat match goal with
  | H : (_ <=? _) = true |- _ => apply Nat.leb_le in H
  | H : isAt _ _ _ = true |- _ => apply isAt_lt in H
  end; lia.
Qed.

(** ** Segments *)

(** the segments lie end to end from [from] to [to], none empty *)
Fixpoint tiles (from to : nat) (l : list LexSegment) : Prop :=
  match l with
  | [] => from = to
  | seg :: l => Lexer.start seg = from ∧ from < Lexer.end_ seg ∧ tiles (Lexer.end_ seg) to l
  end.

Lemma tiles_snoc from mid to l seg :
  tiles from mid l → Lexer.start seg = mid → mid < Lexer.end_ seg → Lexer.end_ seg = to →
  tiles from to (l ++ [seg]).
Proof. revert from. induction l; simpl; naive_solver. Qed.

Lemma tiles_extend from mid to l k :
  tiles from mid l → mid ≤ to →
  tiles from to (l ++ if mid <? to then [MkSegment k mid to] else []).
Proof.
  intros Hl Hle. destruct (Nat.ltb_spec mid to).
  - by apply (tiles_snoc _ mid).
  - rewrite app_nil_r. by replace to with mid by lia.
Qed.

Lemma segmentLoop_tiles fuel text pos st b l :
  tiles 0 b l → b ≤ pos → pos ≤ String.length text →
  tiles 0 (String.length text) (segmentLoop fuel text pos st b l).
Proof.
  revert pos st b l. induction fuel as [|fuel IH]; intros pos st b l Hl Hb Hpos; simpl.
  { apply tiles_extend; [done|lia]. }
  destruct (Nat.ltb_spec pos (String.length text)) as [Hlt|]; [|apply tiles_extend; [done|lia]].
  destruct (lexStep text pos st) as [[next|] st'] eqn:E; [|apply tiles_extend; [done|lia]].
  apply lexStep_advances in E as (? & ? & ?); [|done].
  case_bool_decide; [apply IH; [done|lia..]|].
  assert (b ≤ match st with Code => pos | _ => next end ∧ match st with Code => pos | _ => next end ≤ next)
    as [??] by (destruct st; lia).
  apply IH; [by apply tiles_extend|lia..].
Qed.

Lemma lexSegments_tile text : tiles 0 (String.length text) (lexSegments text).
Proof. apply segmentLoop_tiles; [done|lia..]. Qed.

(** ** Walks to a close *)

Definition keyBound (value : string) : nat := String.length value * LEX_STATE_COUNT.

Lemma stateKey_bounds pos s :
  pos * LEX_STATE_COUNT ≤ stateKey pos s ∧ stateKey pos s < (pos + 1) * LEX_STATE_COUNT.
Proof. unfold stateKey, LEX_STATE_COUNT. destruct s; simpl; lia. Qed.

(** what a walk from [pos] adds: the keys it visits, the close it finds and the
    steps it makes *)
Record walked (value : string) (open : nat) (rejected : gset nat) (pos : nat) (new : list nat)
    (steps : nat) (close : option nat) : Prop := {
  w_nodup : NoDup new;
  w_fresh : ∀ k, k ∈ new → k ∉ rejected ∧ pos * LEX_STATE_COUNT ≤ k ∧ k < keyBound value;
  w_steps : steps ≤ length new;
  w_close : ∀ p, close = Some p →
    pos ≤ p ∧ open < p ∧ startsWithAt value CLOSER p = true ∧
    p - pos ≤ 3 * length new ∧ steps ≤ p - pos;
}.

Lemma walked_stop value open rejected pos : walked value open rejected pos [] 0 None.
Proof. split; [constructor|set_solver|simpl; lia|done]. Qed.

Lemma walked_here value open rejected pos st steps close :
  pos < String.length value → stateKey pos st ∉ rejected → steps ≤ 1 →
  (∀ p, close = Some p → p = pos ∧ steps = 0 ∧ open < p ∧ startsWithAt value CLOSER p = true) →
  walked value open rejected pos [stateKey pos st] steps close.
Proof.
  intros Hpos Hk Hs Hc. pose proof (stateKey_bounds pos st).
  split; [apply NoDup_singleton| |done|].
  - intros k ->%list_elem_of_singleton. unfold keyBound, LEX_STATE_COUNT in *. split_and!; [done|lia..].
  - intros p (-> & -> & ? & ?)%Hc. simpl. split_and!; [lia|done|done|lia..].
Qed.

Lemma walked_step value open rejected pos st next new steps close :
  pos < String.length value → stateKey pos st ∉ rejected → pos < next → next ≤ pos + 3 →
  walked value open rejected next new steps close →
  walked value open rejected pos (stateKey pos st :: new) (S steps) close.
Proof.
  intros Hpos Hk Hn Hn3 [Hnd Hf Hs Hc]. pose proof (stateKey_bounds pos st).
  split.
  - constructor; [|done]. intros (_ & ? & _)%Hf. unfold LEX_STATE_COUNT in *. lia.
  - intros k [->|Hin]%elem_of_cons; unfold keyBound, LEX_STATE_COUNT in *; [split_and!; [done|lia..]|].
    destruct (Hf k Hin) as (? & ? & ?). split_and!; [done|lia..].
  - simpl. lia.
  - intros p (? & ? & ? & ? & ?)%Hc. simpl. split_and!; [lia|done|done|lia..].
Qed.

Lemma walkLoop_spec fuel value open rejected visited work pos st :
  ∃ new steps close,
    walkLoop fuel value open rejected visited work pos st =
      (close, visited ++ new, MkWork (lexSteps work + steps) (parsedChars work)) ∧
    walked value open rejected pos new steps close.
Proof.
  revert visited work pos st. induction fuel as [|fuel IH]; intros visited work pos st; simpl.
  { exists [], 0, None. destruct work. rewrite app_nil_r, Nat.add_0_r. auto using walked_stop. }
  destruct (Nat.ltb_spec pos (String.length value)) as [Hpos|Hpos].
  2: { exists [], 0, None. destruct work. rewrite app_nil_r, Nat.add_0_r. auto using walked_stop. }
  case_bool_decide as Hk.
  { exists [], 0, None. destruct work. rewrite app_nil_r, Nat.add_0_r. auto using walked_stop. }
  destruct (mayClose st && (open <? pos) && startsWithAt value CLOSER pos) eqn:Hc.
  { exists [stateKey pos st], 0, (Some pos). destruct work. rewrite Nat.add_0_r. split; [done|].
    apply walked_here; [done..|lia|]. intros p [= <-]. split_bools.
    split_and!; [done|done|by apply Nat.ltb_lt|done]. }
  destruct (lexStep value pos st) as [[next|] st'] eqn:E.
  - apply lexStep_advances in E as (? & ? & ?); [|done].
    destruct (IH (visited ++ [stateKey pos st]) (MkWork (lexSteps work + 1) (parsedChars work)) next st')
      as (new & steps & close & -> & Hw).
    exists (stateKey pos st :: new), (S steps), close. split; [|by eapply walked_step].
    rewrite <-app_assoc. simpl. do 2 f_equal. lia.
  - exists [stateKey pos st], 1, None. split; [done|]. by apply walked_here.
Qed.

Lemma markRejected_elem visited rejected k :
  k ∈ markRejected rejected visited ↔ k ∈ rejected ∨ k ∈ visited.
Proof.
  revert rejected. induction visited as [|v visited IH]; intros rejected; simpl; [set_solver|].
  rewrite IH. set_solver.
Qed.

Lemma markRejected_size visited rejected :
  NoDup visited → (∀ k, k ∈ visited → k ∉ rejected) →
  size (markRejected rejected visited) = size rejected + length visited.
Proof.
  revert rejected. induction visited as [|v visited IH]; intros rejected Hnd Hf; simpl; [lia|].
  apply NoDup_cons in Hnd as [Hv Hnd]. rewrite IH; [|done|set_solver].
  rewrite size_union by set_solver. rewrite size_singleton. lia.
Qed.

Section scan.
Context `{CelGrammar}.

(** ** The choice of a close *)

Record chosen (value : string) (open legacy : nat) (rejected : gset nat) (close : nat)
    (rejected' : gset nat) (steps chars : nat) : Prop := {
  c_after : legacy ≤ close;
  c_closer : startsWithAt value CLOSER close = true;
  c_bound : (∀ k, k ∈ rejected → k < keyBound value) → ∀ k, k ∈ rejected' → k < keyBound value;
  c_steps : steps + size rejected ≤ size rejected' + (close - open);
  c_chars : chars + 3 * size rejected ≤ 3 * size rejected' + 2 * (close - open);
}.

Lemma parses_spec text work :
  ∃ n, n ≤ String.length text ∧
    parses text work = (parsesAsCel (trim text), MkWork (lexSteps work) (parsedChars work + n)).
Proof. exists (String.length (trim text)). split; [apply length_trim|done]. Qed.

Lemma chosen_kept value open legacy rejected new steps close chars :
  walked value open rejected open new steps (Some close) →
  legacy ≤ close → chars ≤ 2 * (close - open) →
  chosen value open legacy rejected close rejected steps chars.
Proof.
  intros [? ? ? Hc] ??. destruct (Hc close eq_refl) as (? & ? & ? & ? & ?).
  split; [done|done|auto|lia..].
Qed.

Lemma chosen_marked value open legacy rejected new steps close chars :
  walked value open rejected open new steps close →
  startsWithAt value CLOSER legacy = true →
  chars ≤ 2 * (legacy - open) + 3 * length new →
  chosen value open legacy rejected legacy (markRejected rejected new) steps chars.
Proof.
  intros [Hnd Hf Hs Hc] ??.
  assert (size (markRejected rejected new) = size rejected + length new) as Hsz.
  { apply markRejected_size; [done|]. intros k ?%Hf. naive_solver. }
  split; [done|done| |lia..].
  intros Hb k [?|(_ & _ & ?)%Hf]%markRejected_elem; auto.
Qed.

Lemma chooseClose_spec value open legacy rejected work :
  String.index (open + 1) CLOSER value = Some legacy →
  ∃ close rejected' steps chars,
    chooseClose value open legacy rejected work =
      (close, rejected', MkWork (lexSteps work + steps) (parsedChars work + chars)) ∧
    chosen value open legacy rejected close rejected' steps chars.
Proof.
  intros (Hl & Hcl & Hfirst)%index_Some. unfold chooseClose, walkToClose.
  destruct (walkLoop_spec (String.length value) value open rejected [] work open Code)
    as (new & steps & close & -> & Hw). cbn [app].
  pose proof (startsWithAt_bound value CLOSER legacy ltac:(done) Hcl) as Hlb. simpl in Hlb.
  destruct close as [close|].
  2: { eexists legacy, _, steps, 0. rewrite Nat.add_0_r. split; [done|].
       eapply chosen_marked; [done..|lia]. }
  destruct (w_close _ _ _ _ _ _ _ Hw close eq_refl) as (? & ? & Hcc & Hdist & ?).
  pose proof (startsWithAt_bound value CLOSER close ltac:(done) Hcc) as Hcb. simpl in Hcb.
  assert (legacy ≤ close) as Hle.
  { destruct (decide (close < legacy)); [|lia]. rewrite (Hfirst close) in Hcc by lia. done. }
  case_bool_decide as Heq.
  { subst close. eexists legacy, _, steps, 0. rewrite Nat.add_0_r. split; [done|].
    eapply chosen_kept; [done|lia..]. }
  destruct (parses_spec (slice value open legacy) (MkWork (lexSteps work + steps) (parsedChars work)))
    as (n & Hn & ->). rewrite length_slice in Hn by lia. cbv beta iota. cbn [lexSteps parsedChars].
  destruct (parsesAsCel (trim (slice value open legacy))).
  { eexists legacy, _, steps, n. split; [done|]. eapply chosen_marked; [done..|lia]. }
  destruct (parses_spec (slice value open close) (MkWork (lexSteps work + steps) (parsedChars work + n)))
    as (m & Hm & Em). rewrite length_slice in Hm by lia. rewrite Em.
  cbv beta iota. cbn [lexSteps parsedChars]. rewrite <-Nat.add_assoc.
  destruct (parsesAsCel (trim (slice value open close))); eexists _, _, steps, (n + m);
    (split; [done|]).
  - eapply chosen_kept; [done|lia..].
  - eapply chosen_marked; [done..|lia].
Qed.

(** ** Scans *)

Lemma size_bounded (X : gset nat) n : (∀ k, k ∈ X → k < n) → size X ≤ n.
Proof.
  intros Hb. etrans; [apply (subseteq_size _ (set_seq 0 n))|by rewrite size_set_seq].
  intros k ?%Hb. apply elem_of_set_seq. lia.
Qed.

(** one iteration of the loop of the scanner *)
Lemma scan_step value from rejected work start legacy :
  String.index from OPENER value = Some start →
  String.index (start + 3 + 1) CLOSER value = Some legacy →
  ∃ close rejected' steps chars,
    (∀ fuel, scanLoop (S fuel) value from rejected work =
      let '(spans, work) := scanLoop fuel value (close + 2) rejected'
             (MkWork (lexSteps work + steps) (parsedChars work + chars)) in
      (MkSpan start (close + 2) (slice value start (close + 2)) (trim (slice value (start + 3) close))
         :: spans, work)) ∧
    from ≤ start ∧ start + 4 ≤ close ∧ close + 2 ≤ String.length value ∧
    chosen value (start + 3) legacy rejected close rejected' steps chars.
Proof.
  intros Es El. destruct (chooseClose_spec value (start + 3) legacy rejected work El)
    as (close & rejected' & steps & chars & Ec & Hch).
  exists close, rejected', steps, chars.
  pose proof (index_Some _ _ _ _ Es) as [? _]. pose proof (index_Some _ _ _ _ El) as [? _]. destruct Hch as [? Hc ???].
  pose proof (startsWithAt_bound value CLOSER close ltac:(done) Hc) as Hb. simpl in Hb.
  split; [|split_and!; [lia..|by split]].
  intros fuel. cbn [scanLoop]. rewrite Es. change (String.length OPENER) with 3.
  rewrite El, Ec. done.
Qed.

Lemma scanLoop_work fuel value from rejected work :
  (∀ k, k ∈ rejected → k < keyBound value) → from ≤ String.length value →
  let work' := (scanLoop fuel value from rejected work).2 in
  lexSteps work' + size rejected ≤ lexSteps work + keyBound value + (String.length value - from) ∧
  parsedChars work' + 3 * size rejected ≤
    parsedChars work + 3 * keyBound value + 2 * (String.length value - from).
Proof.
  revert from rejected work. induction fuel as [|fuel IH]; intros from rejected work Hr Hfrom;
    pose proof (size_bounded _ _ Hr) as Hsz; [simpl; lia|].
  destruct (String.index from OPENER value) as [start|] eqn:Es; [|cbn; rewrite Es; simpl; lia].
  destruct (String.index (start + 3 + 1) CLOSER value) as [legacy|] eqn:El.
  2: { cbn [scanLoop]. rewrite Es. change (String.length OPENER) with 3. rewrite El. simpl. lia. }
  destruct (scan_step value from rejected work start legacy Es El)
    as (close & rejected' & steps & chars & -> & ? & ? & ? & [? ? Hb ? ?]).
  specialize (IH (close + 2) rejected' (MkWork (lexSteps work + steps) (parsedChars work + chars))
    (Hb Hr) ltac:(lia)).
  destruct (scanLoop _ _ _ _ _) as [spans work']. simpl in *. lia.
Qed.

(** [spans] are the expressions of [value] from [from] on: each starts at the
    first opener, holds at least a character and ends at a closer, and what is
    left over holds no opener with a closer after it *)
Fixpoint covers (value : string) (from : nat) (spans : list ExpressionSpan) : Prop :=
  match spans with
  | [] => ∀ i j, from ≤ i → i + 4 ≤ j →
      startsWithAt value OPENER i = true → startsWithAt value CLOSER j = false
  | s :: spans =>
      from ≤ start s ∧ start s + 6 ≤ end_ s ∧ end_ s ≤ String.length value ∧
      (∀ i, from ≤ i → i < start s → startsWithAt value OPENER i = false) ∧
      startsWithAt value OPENER (start s) = true ∧ startsWithAt value CLOSER (end_ s - 2) = true ∧
      raw s = slice value (start s) (end_ s) ∧
      inner s = trim (slice value (start s + 3) (end_ s - 2)) ∧
      covers value (end_ s) spans
  end.

Lemma scanLoop_covers fuel value from rejected work :
  String.length value - from ≤ fuel → covers value from (scanLoop fuel value from rejected work).1.
Proof.
  revert from rejected work. induction fuel as [|fuel IH]; intros from rejected work Hf.
  { intros i j ? ? Ho%startsWithAt_bound; [|done]. simpl in Ho. lia. }
  destruct (String.index from OPENER value) as [start|] eqn:Es.
  2: { cbn [scanLoop]. rewrite Es. intros i j ? ? Ho. by rewrite (index_None from OPENER value i ltac:(done) Es) in Ho. }
  destruct (String.index (start + 3 + 1) CLOSER value) as [legacy|] eqn:El.
  2: { cbn [scanLoop]. rewrite Es. change (String.length OPENER) with 3. rewrite El. intros i j ? ? Ho.
       apply index_Some in Es as (? & _ & Hfirst). destruct (decide (i < start)).
       - by rewrite Hfirst in Ho by lia.
       - apply (index_None (start + 3 + 1) CLOSER value j ltac:(done) El). lia. }
  destruct (scan_step value from rejected work start legacy Es El)
    as (close & rejected' & steps & chars & -> & ? & ? & ? & [? ? ? ? ?]).
  specialize (IH (close + 2) rejected' (MkWork (lexSteps work + steps) (parsedChars work + chars))
    ltac:(lia)).
  destruct (scanLoop _ _ _ _ _) as [spans work']. simpl.
  apply index_Some in Es as (? & ? & ?). replace (close + 2 - 2) with close by lia.
  split_and!; [lia..|done|done|done|done|done|done].
Qed.

Lemma scanExpressions_covers value : covers value 0 (scanExpressions value).
Proof.
  unfold scanExpressions, scan. destruct (String.index 0 OPENER value) eqn:E.
  - apply scanLoop_covers. lia.
  - intros i j ? ? Ho. by rewrite (index_None 0 OPENER value i ltac:(done) E) in Ho by lia.
Qed.

Lemma replaceLoop_raw value from spans :
  from ≤ String.length value → covers value from spans →
  replaceLoop value raw from spans = slice value from (String.length value).
Proof.
  revert from. induction spans as [|s spans IH]; intros from Hfrom; simpl; [done|].
  intros (? & ? & ? & _ & _ & _ & -> & _ & Hc). rewrite IH by done.
  by rewrite slice_app, slice_app by lia.
Qed.

Lemma containsExpression_spec value :
  ExpressionParser.containsExpression value = true ↔
  ∃ i j, i + 4 ≤ j ∧ startsWithAt value OPENER i = true ∧ startsWithAt value CLOSER j = true.
Proof.
  unfold ExpressionParser.containsExpression. rewrite existsb_elem_of. split.
  - intros (i & _ & [? (j & _ & [Hij ?]%andb_true_iff)%existsb_elem_of]%andb_true_iff).
    apply Nat.leb_le in Hij. eauto.
  - intros (i & j & Hij & Hi & Hj).
    pose proof (startsWithAt_bound _ OPENER i ltac:(done) Hi) as Hil. simpl in Hil.
    pose proof (startsWithAt_bound _ CLOSER j ltac:(done) Hj) as Hjl. simpl in Hjl.
    exists i. split; [apply list_elem_of_In, in_seq; lia|]. rewrite Hi. apply existsb_elem_of.
    exists j. split; [apply list_elem_of_In, in_seq; lia|]. rewrite Hj.
    apply andb_true_iff. split; [by apply Nat.leb_le|done].
Qed.

(** C34: The scan of a value is a partition of it: the spans are disjoint, in
    order, each opens at the first opener after the one before and closes at a
    closer; no opener with a closer after it is left outside them. So putting the
    text of every span back gives the value, and the value has a span exactly when
    the pattern that detects an expression matches it. *)
Theorem spans_are_the_expressions value :
  covers value 0 (scanExpressions value) ∧
  replaceExpressionSpans value raw = value ∧
  (ExpressionParser.containsExpression value = true ↔ scanExpressions value ≠ []).
Proof.
  pose proof (scanExpressions_covers value) as Hc. split_and!; [done| |].
  - unfold replaceExpressionSpans. destruct (scanExpressions value) eqn:E; [done|].
    rewrite <-E in *. rewrite replaceLoop_raw by (done || lia). apply slice_all.
  - rewrite containsExpression_spec. destruct (scanExpressions value) as [|s spans]; simpl in Hc.
    + split; [|done]. intros (i & j & ? & Hi & Hj). rewrite (Hc i j) in Hj by (done || lia). done.
    + split; [done|]. intros _. destruct Hc as (? & ? & ? & _ & ? & ? & _).
      exists (start s), (end_ s - 2). split_and!; [lia|done|done].
Qed.

(** C33: A scan is linear in the length of the value, whatever the grammar
    accepts: at most seven steps of the lexer and twenty parsed characters for
    every character of the value. *)
Theorem scan_is_linear value :
  lexSteps (scanWork value) ≤ 7 * String.length value ∧
  parsedChars (scanWork value) ≤ 20 * String.length value.
Proof.
  unfold scanWork, scan. destruct (String.index 0 OPENER value); [|simpl; lia].
  pose proof (scanLoop_work (String.length value) value 0 ∅ (MkWork 0 0) ltac:(set_solver) ltac:(lia))
    as Hw. unfold keyBound, LEX_STATE_COUNT in Hw. rewrite size_empty in Hw.
  cbn [lexSteps parsedChars] in Hw. lia.
Qed.

End scan.

(** a grammar that accepts the texts that end outside of strings and comments *)
Definition balanced : CelGrammar := λ text,
  match last (lexSegments text) with
  | Some seg => bool_decide (kind seg = code)
  | None => false
  end.

(** a closer inside a string literal does not end the expression, unless the
    text up to it parses *)
Example quoted_closer :
  inner <$> @scanExpressions balanced "a ${{ f('}}') }} b ${{ x }}" = ["f('}}')"; "x"].
Proof. vm_compute. reflexivity. Qed.

End ScannerProps.
