(* ===== verification/ExpressionReferences.v ===== *)
(** * What an expression reads

    [src/src/domain/expressions/expression_references.ts]: the walk over the
    syntax tree of an expression that lists the models, the data and the step
    outputs it reads, and the analysis of every expression of a value. The trees
    are those of the CEL package; its parser, applied after the rewriting of
    hyphenated names, is the class [CelParser]. Sets are lists without
    duplicates, in the order of insertion.

    [references_are_sound] states what authorization relies on: for every
    evaluator whose namespaces answer through their accessors, an expression
    whose references are not wide has the same value in two repositories that
    agree on the references. *)

From Stdlib Require Import Ascii.
From S2P Require Import Prelude JsString ExpressionScanner.

(** ** Syntax trees of CEL *)

Module Cel.

Inductive Literal : Type := LString (s : string) | LOther (text : string).

(** [dot] is [.] or, optional, [.?]; [index] is [[]] or [[?]]; [other] any
    operator whose arguments are an array of nodes *)
Inductive ASTNode : Type :=
| value (v : Literal)
| id (name : string)
| dot (optional : bool) (target : ASTNode) (field : string)
| index (optional : bool) (target key : ASTNode)
| rcall (name : string) (receiver : ASTNode) (args : list ASTNode)
| call (name : string) (args : list ASTNode)
| unary (op : string) (arg : ASTNode)
| map_ (entries : list (ASTNode * ASTNode))
| other (op : string) (args : list ASTNode).

Section ASTNode_ind'.
Context (P : ASTNode → Prop).
Context (Hvalue : ∀ v, P (value v)) (Hid : ∀ x, P (id x)).
Context (Hdot : ∀ o n f, P n → P (dot o n f)).
Context (Hindex : ∀ o n k, P n → P k → P (index o n k)).
Context (Hrcall : ∀ name r args, P r → Forall P args → P (rcall name r args)).
Context (Hcall : ∀ name args, Forall P args → P (call name args)).
Context (Hunary : ∀ op n, P n → P (unary op n)).
Context (Hmap : ∀ l, Forall (λ kv, P kv.1 ∧ P kv.2) l → P (map_ l)).
Context (Hother : ∀ op args, Forall P args → P (other op args)).

Fixpoint ASTNode_ind' (n : ASTNode) : P n :=
  let fix nodes (l : list ASTNode) : Forall P l :=
    match l with [] => Forall_nil_2 P | n :: l => Forall_cons_2 P n l (ASTNode_ind' n) (nodes l) end in
  let fix entries (l : list (ASTNode * ASTNode)) : Forall (λ kv, P kv.1 ∧ P kv.2) l :=
    match l with
    | [] => Forall_nil_2 _
    | (k, v) :: l =>
        Forall_cons_2 (λ kv, P kv.1 ∧ P kv.2) (k, v) l (conj (ASTNode_ind' k) (ASTNode_ind' v)) (entries l)
    end in
  match n with
  | value v => Hvalue v
  | id x => Hid x
  | dot o n f => Hdot o n f (ASTNode_ind' n)
  | index o n k => Hindex o n k (ASTNode_ind' n) (ASTNode_ind' k)
  | rcall name r args => Hrcall name r args (ASTNode_ind' r) (nodes args)
  | call name args => Hcall name args (nodes args)
  | unary op n => Hunary op n (ASTNode_ind' n)
  | map_ l => Hmap l (entries l)
  | other op args => Hother op args (nodes args)
  end.
End ASTNode_ind'.

End Cel.

(** the parser of the evaluator's grammar; [None] for a text it refuses *)
Class CelParser := parseCel : string → option Cel.ASTNode.

Module References.
Import Cel.

(** ** The accumulator *)

Record SyncDataRead : Type := MkSync { resource : bool; allFiles : bool; fileSpecs : list string }.

Record t : Type := Mk {
  dataTargets : list string;
  modelTargets : list string;
  syncDataReads : gmap string SyncDataRead;
  dataWide : bool;
  stepTargets : list string;
  stepsWide : bool;
  usesEnv : bool;
  readsSelfOrInputs : bool;
  runTargets : list (string * string);
  runsComputed : bool;
  unanalyzable : bool;
}.

#[global] Instance SyncDataRead_eta : Eta SyncDataRead :=
  λ r, MkSync (resource r) (allFiles r) (fileSpecs r).
#[global] Instance References_eta : Eta t := λ a,
  Mk (dataTargets a) (modelTargets a) (syncDataReads a) (dataWide a) (stepTargets a) (stepsWide a)
     (usesEnv a) (readsSelfOrInputs a) (runTargets a) (runsComputed a) (unanalyzable a).

Definition empty : t := Mk [] [] ∅ false [] false false false [] false false.

Definition MODEL_SCOPED_DATA_ACCESSORS : list string := ["latest"; "version"; "listVersions"; "findBySpec"].
Definition MODEL_DATA_ACCESSORS : list string := ["resource"; "file"; "execution"].
Definition MODEL_DEFINITION_ACCESSORS : list string := ["input"; "definition"].
Definition BINDING_MACROS : list string := ["map"; "filter"; "all"; "exists"; "exists_one"].

Definition isFree (node : ASTNode) (name : string) (bound : list string) : bool :=
  match node with id x => bool_decide (x = name) && negb (bool_decide (name ∈ bound)) | _ => false end.

Definition stringLiteral (node : option ASTNode) : option string :=
  match node with
  | Some (value (LString s)) => if bool_decide (s = "") then None else Some s
  | _ => None
  end.

Definition addDataTarget (node : option ASTNode) (acc : t) : t :=
  match stringLiteral node with
  | None => acc <| dataWide := true |>
  | Some name => acc <| dataTargets := set_add name (dataTargets acc) |>
  end.

Definition syncReadOf (name : string) (acc : t) : SyncDataRead :=
  default (MkSync false false []) (syncDataReads acc !! name).

Definition addFileContentsRead (modelNode specNode : option ASTNode) (acc : t) : t :=
  match stringLiteral modelNode with
  | None => acc
  | Some name =>
      let read := syncReadOf name acc in
      let read := match stringLiteral specNode with
                  | None => read <| allFiles := true |>
                  | Some spec => read <| fileSpecs := set_add spec (fileSpecs read) |>
                  end in
      acc <| syncDataReads := <[name := read]> (syncDataReads acc) |>
  end.

Definition addModelEntry (name accessor : option string) (acc : t) : t :=
  match name with
  | None => acc <| dataWide := true |>
  | Some name =>
      let named s := bool_decide (accessor = Some s) in
      if match accessor with Some a => bool_decide (a ∈ MODEL_DEFINITION_ACCESSORS) | None => false end
      then acc <| modelTargets := set_add name (modelTargets acc) |>
      else
        let acc :=
          if match accessor with Some a => bool_decide (a ∈ MODEL_DATA_ACCESSORS) | None => false end
          then acc else acc <| modelTargets := set_add name (modelTargets acc) |> in
        let acc := acc <| dataTargets := set_add name (dataTargets acc) |> in
        if named "execution" then acc
        else
          let read := syncReadOf name acc in
          let read := if named "file" then read else read <| resource := true |> in
          let read := if named "resource" then read else read <| allFiles := true |> in
          acc <| syncDataReads := <[name := read]> (syncDataReads acc) |>
  end.

(** the name and the key node of [model.<name>] and [model[<key>]] *)
Definition modelEntry (node : ASTNode) (bound : list string)
    : option (option string * option ASTNode) :=
  match node with
  | dot _ target field => if isFree target "model" bound then Some (Some field, None) else None
  | index _ target key =>
      if isFree target "model" bound then Some (stringLiteral (Some key), Some key) else None
  | _ => None
  end.

Definition visitId (name : string) (bound : list string) (acc : t) : t :=
  if bool_decide (name ∈ bound) then acc
  else
    let named s := bool_decide (name = s) in
    let acc := if named "env" then acc <| usesEnv := true |> else acc in
    let acc := if named "self" || named "inputs" then acc <| readsSelfOrInputs := true |> else acc in
    let acc := if named "data" || named "model" || named "file" then acc <| dataWide := true |> else acc in
    let acc := if named "steps" then acc <| stepsWide := true |> else acc in
    if named "model" then acc <| runsComputed := true |> else acc.

(** what a call on a free namespace adds, before its arguments are visited *)
Definition dataCall (name : string) (args : list ASTNode) (acc : t) : t :=
  if bool_decide (name ∈ MODEL_SCOPED_DATA_ACCESSORS) then addDataTarget (head args) acc
  else acc <| dataWide := true |>.

Definition fileCall (name : string) (args : list ASTNode) (acc : t) : t :=
  if bool_decide (name = "contents")
  then addFileContentsRead (head args) (args !! 1) (addDataTarget (head args) acc)
  else acc <| dataWide := true |>.

Definition modelCall (name : string) (args : list ASTNode) (acc : t) : t :=
  match bool_decide (name = "method"), stringLiteral (head args), stringLiteral (args !! 1) with
  | true, Some model, Some method =>
      acc <| runTargets := runTargets acc ++ [(model, method)] |>
          <| dataTargets := set_add model (dataTargets acc) |>
  | _, _, _ => acc <| runsComputed := true |> <| dataWide := true |>
  end.

Fixpoint visit (node : ASTNode) (bound : list string) (acc : t) {struct node} : t :=
  match node with
  | value _ => acc
  | id name => visitId name bound acc
  | dot _ target field =>
      if isFree target "steps" bound then acc <| stepTargets := set_add field (stepTargets acc) |>
      else
        match modelEntry target bound with
        | Some (name, keyNode) =>
            let acc := addModelEntry name (Some field) acc in
            match target with
            | index _ _ key => visit key bound acc
            | _ => acc
            end
        | None =>
            match modelEntry node bound with
            | Some (name, _) => addModelEntry name None acc
            | None => visit target bound acc
            end
        end
  | index _ target key =>
      if isFree target "steps" bound then
        visit key bound
          match stringLiteral (Some key) with
          | None => acc <| stepsWide := true |>
          | Some name => acc <| stepTargets := set_add name (stepTargets acc) |>
          end
      else
        match modelEntry target bound with
        | Some (name, keyNode) =>
            let acc := addModelEntry name (stringLiteral (Some key)) acc in
            let acc := match target with index _ _ key => visit key bound acc | _ => acc end in
            visit key bound acc
        | None =>
            match modelEntry node bound with
            | Some (name, _) => visit key bound (addModelEntry name None acc)
            | None => visit key bound (visit target bound acc)
            end
        end
  | rcall name receiver args =>
      let visitAll bound l acc := foldl (λ acc a, visit a bound acc) acc l in
      if isFree receiver "data" bound then visitAll bound args (dataCall name args acc)
      else if isFree receiver "file" bound then visitAll bound args (fileCall name args acc)
      else if isFree receiver "model" bound then visitAll bound args (modelCall name args acc)
      else
        let plain :=
          let acc := visit receiver bound acc in
          match args with
          | id x :: rest =>
              if bool_decide (name ∈ BINDING_MACROS) then visitAll (x :: bound) rest acc
              else visitAll bound args acc
          | _ => visitAll bound args acc
          end in
        match args with
        | [id x; bound1; body] =>
            if bool_decide (name = "bind") && isFree receiver "cel" bound
            then visit body (x :: bound) (visit bound1 bound acc)
            else plain
        | _ => plain
        end
  | call _ args => foldl (λ acc a, visit a bound acc) acc args
  | unary _ arg => visit arg bound acc
  | map_ entries => foldl (λ acc kv, visit kv.2 bound (visit kv.1 bound acc)) acc entries
  | other _ args => foldl (λ acc a, visit a bound acc) acc args
  end.

(** what a text that does not parse is assumed to read *)
Definition failClosed : t :=
  empty <| dataWide := true |> <| stepsWide := true |> <| runsComputed := true |> <| usesEnv := true |>
        <| readsSelfOrInputs := true |> <| unanalyzable := true |>.

Section analysis.
Context `{CelParser}.

Definition analyzeExpression (celExpression : string) : t :=
  match parseCel celExpression with
  | None => failClosed
  | Some ast => visit ast [] empty
  end.

Record AnalyzedExpression : Type := MkAnalyzed { a_raw : string; a_paths : list string; references : t }.

(** an expression that is not written between [${{] and [}}] *)
Record Extra : Type := MkExtra { e_raw : string; e_celExpression : string; e_path : string }.

(** [add] on the map keyed by the raw text, in the order of insertion *)
Fixpoint addExpression (raw cel path : string) (seen : list AnalyzedExpression)
    : list AnalyzedExpression :=
  match seen with
  | [] => [MkAnalyzed raw [path] (analyzeExpression cel)]
  | e :: seen =>
      if bool_decide (a_raw e = raw) then MkAnalyzed (a_raw e) (a_paths e ++ [path]) (references e) :: seen
      else e :: addExpression raw cel path seen
  end.

Definition analyzeContentExpressions `{CelGrammar} (data : JsValue) (extra : list Extra)
    : list AnalyzedExpression :=
  let seen := foldl (λ seen e,
      addExpression (ExpressionParser.l_raw e) (ExpressionParser.celExpression e)
        (ExpressionParser.path e) seen) [] (ExpressionParser.extractExpressions data) in
  foldl (λ seen e, addExpression (e_raw e) (e_celExpression e) (e_path e) seen) seen extra.

Definition inScope (scope path : string) : bool :=
  bool_decide (path = scope) || startsWith path (scope +:+ ".") || startsWith path (scope +:+ "[").

Definition expressionsAddedByEdit (before after : list AnalyzedExpression) (retargeted : bool)
    (changedScopes : list string) : list AnalyzedExpression :=
  let inChangedScope path := existsb (λ scope, inScope scope path) changedScopes in
  List.filter (λ e,
    match List.find (λ b, bool_decide (a_raw b = a_raw e)) (rev before) with
    | None => true
    | Some stored =>
        existsb (λ path, negb (bool_decide (path ∈ a_paths stored)) || inChangedScope path) (a_paths e) ||
        retargeted && dataWide (references e) && readsSelfOrInputs (references e)
    end) after.

End analysis.
End References.
