(* ===== verification/ExpressionReferencesProps.v ===== *)
(** * Soundness of the references of an expression

    An evaluator of CEL is given by its operations on values and by the
    namespaces [steps], [data], [file] and [model] over a repository; what is
    assumed of it is that a namespace, used through an accessor with a literal
    name, answers from the part of the repository that bears the name. *)

From Stdlib Require Import Ascii.
From S2P Require Import Prelude JsString ExpressionScanner ExpressionReferences.

Module ReferencesProps.
Import Cel References.

(** ** Induction over trees

    The walk looks two levels down: below [model[key].field] it goes on with
    [key]. So the premises about a target also give its key. *)

Definition withKey (P : ASTNode → Prop) (n : ASTNode) : Prop :=
  P n ∧ match n with index _ _ key => P key | _ => True end.

Lemma ASTNode_key_ind (P : ASTNode → Prop) :
  (∀ v, P (value v)) → (∀ x, P (id x)) →
  (∀ o n f, withKey P n → P (dot o n f)) →
  (∀ o n k, withKey P n → P k → P (index o n k)) →
  (∀ name r args, P r → Forall P args → P (rcall name r args)) →
  (∀ name args, Forall P args → P (call name args)) →
  (∀ op n, P n → P (unary op n)) →
  (∀ l, Forall (λ kv, P kv.1 ∧ P kv.2) l → P (map_ l)) →
  (∀ op args, Forall P args → P (other op args)) →
  ∀ n, P n.
Proof.
  intros Hvalue Hid Hdot Hindex Hrcall Hcall Hunary Hmap Hother n. cut (withKey P n); [by intros []|].
  assert (∀ l, Forall (withKey P) l → Forall P l) as Hl 
    by (intros l Hl; eapply Forall_impl; [done|by intros ? []]).
  induction n as [v|x|o n f IHn|o n k IHn [IHk _]|name r args [IHr _] IHargs|name args IHargs
    |op n [IHn _]|l IHl|op args IHargs] using ASTNode_ind'; (split; [|done]); auto.
  apply Hmap. eapply Forall_impl; [done|]. by intros kv [[] []].
Qed.

(** ** Evaluators *)

Class Evaluator := {
  V : Type;
  lit : Literal → V;
  dotV : bool → V → string → V;
  indexV : bool → V → V → V;
  rcallV : string → V → list V → V;
  callV : string → list V → V;
  unaryV : string → V → V;
  mapV : list (V * V) → V;
  otherV : string → list V → V;
  macroV : string → V → (V → list V) → V;
  Output : Type;
  ModelData : Type;
  ModelDefinition : Type;
  stepsV : (string → Output) → V;
  dataV : (string → ModelData) → V;
  fileV : (string → ModelData) → V;
  modelV : (string → ModelData) → (string → ModelDefinition) → V;
}.

(** [v.name] and [v["name"]], each also in its optional form *)
Inductive Access : Type := ByDot (optional : bool) | ByIndex (optional : bool).

Definition select `{Evaluator} (a : Access) (v : V) (name : string) : V :=
  match a with
  | ByDot o => dotV o v name
  | ByIndex o => indexV o v (lit (LString name))
  end.

Class EvaluatorLaws `{Evaluator} : Prop := {
  steps_local a σ σ' name : σ name = σ' name → select a (stepsV σ) name = select a (stepsV σ') name;
  data_local accessor δ δ' m rest :
    accessor ∈ MODEL_SCOPED_DATA_ACCESSORS → δ m = δ' m →
    rcallV accessor (dataV δ) (lit (LString m) :: rest) =
    rcallV accessor (dataV δ') (lit (LString m) :: rest);
  file_local δ δ' m rest :
    δ m = δ' m →
    rcallV "contents" (fileV δ) (lit (LString m) :: rest) =
    rcallV "contents" (fileV δ') (lit (LString m) :: rest);
  run_local δ δ' D D' m method rest :
    δ m = δ' m → D m = D' m →
    rcallV "method" (modelV δ D) (lit (LString m) :: method :: rest) =
    rcallV "method" (modelV δ' D') (lit (LString m) :: method :: rest);
  entry_local a δ δ' D D' m :
    δ m = δ' m → D m = D' m → select a (modelV δ D) m = select a (modelV δ' D') m;
  definition_local a b δ δ' D D' m accessor :
    accessor ∈ MODEL_DEFINITION_ACCESSORS → D m = D' m →
    select b (select a (modelV δ D) m) accessor = select b (select a (modelV δ' D') m) accessor;
  data_part_local a b δ δ' D D' m accessor :
    accessor ∈ MODEL_DATA_ACCESSORS → δ m = δ' m →
    select b (select a (modelV δ D) m) accessor = select b (select a (modelV δ' D') m) accessor;
  macro_ext name v f g : (∀ x, f x = g x) → macroV name v f = macroV name v g;
}.

Section soundness.
Context `{Evaluator}.

Record Repository : Type := MkRepository {
  outputs : string → Output;
  data : string → ModelData;
  definitions : string → ModelDefinition;
}.

Definition update (env : string → V) (x : string) (v : V) : string → V :=
  λ y, if bool_decide (y = x) then v else env y.

Definition isCel (node : ASTNode) : bool :=
  match node with id x => bool_decide (x = "cel") | _ => false end.

Fixpoint eval (env : string → V) (n : ASTNode) {struct n} : V :=
  match n with
  | value l => lit l
  | id x => env x
  | dot o target field => dotV o (eval env target) field
  | index o target key => indexV o (eval env target) (eval env key)
  | rcall name receiver args =>
      let plain :=
        match args with
        | id x :: rest =>
            if bool_decide (name ∈ BINDING_MACROS)
            then macroV name (eval env receiver) (λ v, eval (update env x v) <$> rest)
            else rcallV name (eval env receiver) (eval env <$> args)
        | _ => rcallV name (eval env receiver) (eval env <$> args)
        end in
      match args with
      | [id x; bound1; body] =>
          if bool_decide (name = "bind") && isCel receiver
          then eval (update env x (eval env bound1)) body
          else plain
      | _ => plain
      end
  | call name args => callV name (eval env <$> args)
  | unary op arg => unaryV op (eval env arg)
  | map_ entries => mapV ((λ kv, (eval env kv.1, eval env kv.2)) <$> entries)
  | other op args => otherV op (eval env <$> args)
  end.

Definition namespace (w : Repository) (x : string) : option V :=
  if bool_decide (x = "steps") then Some (stepsV (outputs w))
  else if bool_decide (x = "data") then Some (dataV (data w))
  else if bool_decide (x = "file") then Some (fileV (data w))
  else if bool_decide (x = "model") then Some (modelV (data w) (definitions w))
  else None.

(** the environment of an expression: the namespaces, and what the caller binds *)
Definition environment (w : Repository) (rest : string → V) : string → V :=
  λ x, default (rest x) (namespace w x).

(** two repositories agree on what an analysis lists, and the list is complete *)
Record agree (w w' : Repository) (acc : t) : Prop := {
  g_data : dataWide acc = false;
  g_steps : stepsWide acc = false;
  g_outputs s : s ∈ stepTargets acc → outputs w s = outputs w' s;
  g_models m : m ∈ dataTargets acc → data w m = data w' m;
  g_definitions m : m ∈ modelTargets acc ∨ m ∈ (runTargets acc).*1 → definitions w m = definitions w' m;
}.

(** ** The accumulator only grows *)

Record grows (a b : t) : Prop := {
  gr_data : dataWide a = true → dataWide b = true;
  gr_steps : stepsWide a = true → stepsWide b = true;
  gr_outputs : stepTargets a ⊆ stepTargets b;
  gr_models : dataTargets a ⊆ dataTargets b;
  gr_definitions : modelTargets a ⊆ modelTargets b;
  gr_runs : runTargets a ⊆ runTargets b;
}.

#[local] Instance grows_preorder : PreOrder grows.
Proof.
  split; [by split|]. intros a b c [? ? ? ? ? ?] [? ? ? ? ? ?]. split; [auto|auto|set_solver..].
Qed.

Lemma agree_grows w w' a b : grows a b → agree w w' b → agree w w' a.
Proof.
  intros [Hd Hs ? ? ? Hr] [? ? Ho Hm Hdef]. split.
  - destruct (dataWide a); [|done]. rewrite Hd in *; done.
  - destruct (stepsWide a); [|done]. rewrite Hs in *; done.
  - intros s ?. apply Ho. set_solver.
  - intros m ?. apply Hm. set_solver.
  - intros m Hin. apply Hdef. destruct Hin as [?|(p & -> & ?)%list_elem_of_fmap]; [set_solver|].
    right. apply list_elem_of_fmap. set_solver.
Qed.

Lemma set_add_subseteq (x : string) l : l ⊆ set_add x l.
Proof. intros y. rewrite elem_of_set_add. auto. Qed.

Ltac solve_grows := split; simpl; auto using set_add_subseteq, list_subseteq_app_l.

Lemma addDataTarget_grows n acc : grows acc (addDataTarget n acc).
Proof. unfold addDataTarget. case_match; solve_grows. Qed.

Lemma addFileContentsRead_grows n k acc : grows acc (addFileContentsRead n k acc).
Proof. unfold addFileContentsRead. case_match; [solve_grows|done]. Qed.

Lemma addModelEntry_grows n a acc : grows acc (addModelEntry n a acc).
Proof. unfold addModelEntry. repeat case_match; solve_grows. Qed.

Lemma visitId_grows x b acc : grows acc (visitId x b acc).
Proof. unfold visitId. repeat case_match; solve_grows. Qed.

Lemma dataCall_grows x l acc : grows acc (dataCall x l acc).
Proof. unfold dataCall. case_match; [apply addDataTarget_grows|solve_grows]. Qed.

Lemma fileCall_grows x l acc : grows acc (fileCall x l acc).
Proof.
  unfold fileCall. case_match; [|solve_grows].
  etrans; [apply addDataTarget_grows|apply addFileContentsRead_grows].
Qed.

Lemma modelCall_grows x l acc : grows acc (modelCall x l acc).
Proof. unfold modelCall. repeat case_match; solve_grows. Qed.

Lemma visitAll_grows {A} (f : A → t → t) l acc :
  Forall (λ x, ∀ acc, grows acc (f x acc)) l → grows acc (foldl (λ acc x, f x acc) acc l).
Proof.
  intros Hl. revert acc. induction Hl as [|x l Hx _ IH]; intros acc; simpl; [done|].
  etrans; [apply Hx|apply IH].
Qed.

#[local] Hint Resolve addDataTarget_grows addModelEntry_grows visitId_grows dataCall_grows
  fileCall_grows modelCall_grows : swamp.

Lemma visit_grows n : ∀ bound acc, grows acc (visit n bound acc).
Proof.
  induction n as [v|x|o n f [IHn IHkey]|o n k [IHn IHkey] IHk|name r args IHr IHargs|name args IHargs
    |op n IHn|l IHl|op args IHargs] using ASTNode_key_ind; intros bound acc; cbn [visit].
  - done.
  - auto with swamp.
  - destruct (isFree n "steps" bound); [solve_grows|].
    destruct (modelEntry n bound) as [[m kn]|].
    + etrans; [apply (addModelEntry_grows m (Some f))|]. destruct n; done || apply IHkey.
    + destruct (modelEntry _ bound) as [[m kn]|]; auto with swamp.
  - destruct (isFree n "steps" bound); [etrans; [|apply IHk]; destruct (stringLiteral _); solve_grows|].
    destruct (modelEntry n bound) as [[m kn]|].
    + etrans; [apply (addModelEntry_grows m (stringLiteral (Some k)))|]. etrans; [|apply IHk].
      destruct n; done || apply IHkey.
    + destruct (modelEntry _ bound) as [[m kn]|]; (etrans; [|apply IHk]); auto with swamp.
  - assert (∀ l bound acc, Forall (λ n, ∀ bound acc, grows acc (visit n bound acc)) l →
      grows acc (foldl (λ acc a, visit a bound acc) acc l)) as Hall.
    { intros l ?? Hl. apply (visitAll_grows (λ a, visit a _)). eapply Forall_impl; [done|]. auto. }
    destruct (isFree r "data" bound); [etrans; [|by apply Hall]; auto with swamp|].
    destruct (isFree r "file" bound); [etrans; [|by apply Hall]; auto with swamp|].
    destruct (isFree r "model" bound); [etrans; [|by apply Hall]; auto with swamp|].
    destruct args as [|a args]; [apply IHr|].
    assert (grows acc (foldl (λ acc a, visit a bound acc) (visit r bound acc) (a :: args))) as Hplain
      by (etrans; [apply IHr|by apply Hall]).
    apply Forall_cons in IHargs as [IHa IHargs]. destruct a as [|x| | | | | | |]; try exact Hplain.
    assert (grows acc (foldl (λ acc a, visit a (x :: bound) acc) (visit r bound acc) args)) as Hmacro
      by (etrans; [apply IHr|by apply Hall]).
    destruct args as [|b1 [|body [|? ?]]]; try (case_match; [exact Hmacro|exact Hplain]).
    case_match; [|case_match; [exact Hmacro|exact Hplain]].
    apply Forall_cons in IHargs as [IH1 [IH2 _]%Forall_cons]. etrans; [apply IH1|apply IH2].
  - apply (visitAll_grows (λ a, visit a bound)). eapply Forall_impl; [done|]. auto.
  - auto.
  - apply (visitAll_grows (λ kv acc, visit kv.2 bound (visit kv.1 bound acc))).
    eapply Forall_impl; [done|]. intros kv [??] ?. etrans; auto.
  - apply (visitAll_grows (λ a, visit a bound)). eapply Forall_impl; [done|]. auto.
Qed.

(** ** Soundness *)

Context `{!EvaluatorLaws} (w w' : Repository).

(** environments that differ at most in the namespaces that are not shadowed *)
Definition related (bound : list string) (env env' : string → V) : Prop :=
  ∀ x, env x = env' x ∨ (x ∉ bound ∧ namespace w x = Some (env x) ∧ namespace w' x = Some (env' x)).

Lemma related_update bound bound' x v env env' :
  related bound env env' → bound' = bound ∨ bound' = x :: bound →
  related bound' (update env x v) (update env' x v).
Proof.
  intros Hr Hb y. unfold update. case_bool_decide; [by left|]. destruct (Hr y) as [?|(? & ? & ?)]; [by left|].
  right. destruct Hb as [->| ->]; set_solver.
Qed.

Lemma isFree_true n name bound : isFree n name bound = true → n = id name ∧ name ∉ bound.
Proof. destruct n; try done. simpl. intros [??]%andb_true_iff. split_bools. by subst. Qed.

Lemma stringLiteral_Some n s : stringLiteral n = Some s → n = Some (value (LString s)).
Proof. destruct n as [[[]| | | | | | | |]|]; simpl; try done. case_match; by intros [= ->]. Qed.

Lemma visitId_sound x bound acc env env' :
  related bound env env' → agree w w' (visitId x bound acc) → env x = env' x.
Proof.
  intros Hr Hg. destruct (Hr x) as [?|(Hx & Hn & Hn')]; [done|].
  unfold visitId in Hg. rewrite bool_decide_false in Hg by done.
  destruct Hg as [Hd Hs _ _ _]. unfold namespace in Hn.
  repeat case_bool_decide; simplify_eq; simpl in *; done.
Qed.

(** what the accumulator has once an entry of [model] is added *)
Lemma addModelEntry_agree m accessor acc :
  agree w w' (addModelEntry (Some m) accessor acc) →
  (∃ a, accessor = Some a ∧ a ∈ MODEL_DEFINITION_ACCESSORS ∧ definitions w m = definitions w' m) ∨
  (∃ a, accessor = Some a ∧ a ∈ MODEL_DATA_ACCESSORS ∧ data w m = data w' m) ∨
  (data w m = data w' m ∧ definitions w m = definitions w' m).
Proof.
  assert (∀ l : list string, m ∈ set_add m l) as Hin by (intros; apply elem_of_set_add; auto).
  intros Hg. destruct accessor as [a|]; simpl in Hg.
  - destruct (decide (a ∈ MODEL_DEFINITION_ACCESSORS)) as [Ha|Ha].
    { rewrite bool_decide_true in Hg by done. left. exists a. split_and!; [done..|].
      apply (g_definitions _ _ _ Hg). left. apply Hin. }
    rewrite (bool_decide_false (a ∈ MODEL_DEFINITION_ACCESSORS)) in Hg by done.
    destruct (decide (a ∈ MODEL_DATA_ACCESSORS)) as [Ha'|Ha'].
    + right; left. exists a. split_and!; [done..|]. apply (g_models _ _ _ Hg).
      repeat case_match; simpl; apply Hin.
    + rewrite (bool_decide_false (a ∈ MODEL_DATA_ACCESSORS)) in Hg by done. right; right. split.
      * apply (g_models _ _ _ Hg). repeat case_match; simpl; apply Hin.
      * apply (g_definitions _ _ _ Hg). left. repeat case_match; simpl; apply Hin.
  - right; right. split; [apply (g_models _ _ _ Hg)|apply (g_definitions _ _ _ Hg); left]; apply Hin.
Qed.

Lemma namespace_model v : namespace v "model" = Some (modelV (data v) (definitions v)).
Proof. done. Qed.

(** an entry of [model] has equal values, or is the entry of a literal name *)
Lemma modelEntry_sound n bound name kn accessor acc env env' :
  related bound env env' → modelEntry n bound = Some (name, kn) →
  agree w w' (addModelEntry name accessor acc) →
  ∃ m, name = Some m ∧ (eval env n = eval env' n ∨
    ∃ a, eval env n = select a (modelV (data w) (definitions w)) m ∧
         eval env' n = select a (modelV (data w') (definitions w')) m).
Proof.
  intros Hr He Hg. destruct n as [| |o t f|o t k| | | | |]; try done; cbn [modelEntry] in He;
    destruct (isFree t "model" bound) eqn:Hf; try done; simplify_eq;
    apply isFree_true in Hf as [-> Hb]; specialize (Hr "model").
  - exists f. split; [done|]. destruct Hr as [Heq|(_ & Hn & Hn')].
    + left. simpl. by rewrite Heq.
    + rewrite namespace_model in Hn, Hn'. right. exists (ByDot o). simpl. split; congruence.
  - destruct (stringLiteral (Some k)) as [m|] eqn:Hk; [|by destruct Hg].
    apply stringLiteral_Some in Hk as [= ->]. exists m. split; [done|].
    destruct Hr as [Heq|(_ & Hn & Hn')].
    + left. simpl. by rewrite Heq.
    + rewrite namespace_model in Hn, Hn'. right. exists (ByIndex o). simpl. split; congruence.
Qed.

Lemma entry_select_sound n bound name kn f acc env env' b :
  related bound env env' → modelEntry n bound = Some (name, kn) →
  agree w w' (addModelEntry name (Some f) acc) →
  select b (eval env n) f = select b (eval env' n) f.
Proof.
  intros Hr He Hg. destruct (modelEntry_sound _ _ _ _ _ _ _ _ Hr He Hg) as (m & -> & [->|(a & -> & ->)]);
    [done|].
  apply addModelEntry_agree in Hg as [(? & [= <-] & ? & ?)|[(? & [= <-] & ? & ?)|[? ?]]].
  - by apply definition_local.
  - by apply data_part_local.
  - f_equal. by apply entry_local.
Qed.

Lemma entry_whole_sound n bound name kn acc env env' :
  related bound env env' → modelEntry n bound = Some (name, kn) →
  agree w w' (addModelEntry name None acc) → eval env n = eval env' n.
Proof.
  intros Hr He Hg. destruct (modelEntry_sound _ _ _ _ _ _ _ _ Hr He Hg) as (m & -> & [->|(a & -> & ->)]);
    [done|].
  apply addModelEntry_agree in Hg as [(? & [=] & _)|[(? & [=] & _)|[? ?]]]. by apply entry_local.
Qed.

Lemma steps_sound bound acc env env' name a :
  related bound env env' → name ∈ stepTargets acc → agree w w' acc →
  select a (env "steps") name = select a (env' "steps") name.
Proof.
  intros Hr Hin Hg. destruct (Hr "steps") as [->|(_ & Hn & Hn')]; [done|].
  change (namespace w "steps") with (Some (stepsV (outputs w))) in Hn.
  change (namespace w' "steps") with (Some (stepsV (outputs w'))) in Hn'. simplify_eq.
  rewrite <-Hn, <-Hn'. apply steps_local. by apply (g_outputs _ _ _ Hg).
Qed.

(** the soundness of a walk, for every set of shadowed names *)
Definition sound (n : ASTNode) : Prop := ∀ bound acc env env',
  related bound env env' → agree w w' (visit n bound acc) → eval env n = eval env' n.

Lemma visitAll_sound l bound acc env env' :
  Forall sound l → related bound env env' →
  agree w w' (foldl (λ acc a, visit a bound acc) acc l) → eval env <$> l = eval env' <$> l.
Proof.
  intros Hl Hr. revert acc. induction Hl as [|n l Hn Hl IH]; intros acc Hg; [done|].
  cbn [foldl] in Hg. simpl. f_equal.
  - apply (Hn bound acc); [done|]. eapply agree_grows; [|exact Hg].
    apply (visitAll_grows (λ a, visit a bound)), Forall_true. intros. apply visit_grows.
  - by eapply IH.
Qed.

Lemma dot_sound o n f : withKey sound n → sound (dot o n f).
Proof.
  intros [IHn IHkey] bound acc env env' Hr Hg. cbn [visit eval] in *.
  destruct (isFree n "steps" bound) eqn:Hs.
  { apply isFree_true in Hs as [-> _]. eapply (steps_sound _ _ _ _ f (ByDot o) Hr); [|exact Hg].
    simpl. apply elem_of_set_add. auto. }
  destruct (modelEntry n bound) as [[m kn]|] eqn:He.
  { eapply (entry_select_sound _ _ _ _ f acc _ _ (ByDot o) Hr He). destruct n; done || idtac.
    eapply agree_grows; [apply visit_grows|exact Hg]. }
  destruct (modelEntry (dot o n f) bound) as [[m kn]|] eqn:He'.
  - exact (entry_whole_sound (dot o n f) _ _ _ _ _ _ Hr He' Hg).
  - f_equal. by eapply IHn.
Qed.

Lemma index_sound o n k : withKey sound n → sound k → sound (index o n k).
Proof.
  intros [IHn IHkey] IHk bound acc env env' Hr Hg. cbn [visit eval] in *.
  destruct (isFree n "steps" bound) eqn:Hs.
  { apply isFree_true in Hs as [-> _]. pose proof (agree_grows _ _ _ _ (visit_grows _ _ _) Hg) as Hg'.
    destruct (stringLiteral (Some k)) as [s|] eqn:Hk; [|by destruct Hg'].
    apply stringLiteral_Some in Hk as [= ->].
    eapply (steps_sound _ _ _ _ s (ByIndex o) Hr); [|exact Hg']. simpl. apply elem_of_set_add. auto. }
  destruct (modelEntry n bound) as [[m kn]|] eqn:He.
  { assert (eval env k = eval env' k) as Hk by by eapply IHk.
    assert (agree w w' (addModelEntry m (stringLiteral (Some k)) acc)) as Hg'.
    { eapply agree_grows; [|exact Hg]. etrans; [|apply visit_grows]. destruct n; done || apply visit_grows. }
    destruct (stringLiteral (Some k)) as [s|] eqn:Hl.
    - apply stringLiteral_Some in Hl as [= ->].
      exact (entry_select_sound _ _ _ _ _ _ _ _ (ByIndex o) Hr He Hg').
    - by rewrite Hk, (entry_whole_sound _ _ _ _ _ _ _ Hr He Hg'). }
  destruct (modelEntry (index o n k) bound) as [[m kn]|] eqn:He'.
  - eapply (entry_whole_sound (index o n k) _ _ _ _ _ _ Hr He').
    eapply agree_grows; [apply visit_grows|exact Hg].
  - f_equal; [|by eapply IHk]. eapply IHn; [done|]. eapply agree_grows; [apply visit_grows|exact Hg].
Qed.

Lemma visitAll_first l bound acc : agree w w' (foldl (λ acc a, visit a bound acc) acc l) → agree w w' acc.
Proof.
  apply agree_grows, (visitAll_grows (λ a, visit a bound)), Forall_true. intros. apply visit_grows.
Qed.

(** the value of a namespace, equal on both sides or the namespace itself *)
Lemma namespace_cases bound env env' x v v' :
  related bound env env' → namespace w x = Some v → namespace w' x = Some v' →
  env x = env' x ∨ env x = v ∧ env' x = v'.
Proof. intros Hr Hv Hv'. destruct (Hr x) as [?|(_ & ? & ?)]; [by left|right]. split; congruence. Qed.

Lemma addDataTarget_agree l acc :
  agree w w' (addDataTarget (head l) acc) →
  ∃ m rest, l = value (LString m) :: rest ∧ data w m = data w' m.
Proof.
  unfold addDataTarget. destruct (stringLiteral (head l)) as [m|] eqn:Hl; intros Hg; [|by destruct Hg].
  apply stringLiteral_Some in Hl. destruct l as [|a rest]; [done|]. injection Hl as ->.
  exists m, rest. split; [done|]. apply (g_models _ _ _ Hg), elem_of_set_add. auto.
Qed.

Lemma data_call_sound name l bound acc env env' :
  related bound env env' → agree w w' (dataCall name l acc) → eval env <$> l = eval env' <$> l →
  rcallV name (env "data") (eval env <$> l) = rcallV name (env' "data") (eval env' <$> l).
Proof.
  intros Hr Hg <-. unfold dataCall in Hg. case_bool_decide; [|by destruct Hg].
  apply addDataTarget_agree in Hg as (m & rest & -> & ?).
  destruct (namespace_cases _ _ _ "data" _ _ Hr eq_refl eq_refl) as [->|[-> ->]]; [done|].
  simpl. by apply data_local.
Qed.

Lemma file_call_sound name l bound acc env env' :
  related bound env env' → agree w w' (fileCall name l acc) → eval env <$> l = eval env' <$> l →
  rcallV name (env "file") (eval env <$> l) = rcallV name (env' "file") (eval env' <$> l).
Proof.
  intros Hr Hg <-. unfold fileCall in Hg. case_bool_decide as E; [subst name|by destruct Hg].
  apply (agree_grows _ _ _ _ (addFileContentsRead_grows _ _ _)), addDataTarget_agree in Hg
    as (m & rest & -> & ?).
  destruct (namespace_cases _ _ _ "file" _ _ Hr eq_refl eq_refl) as [->|[-> ->]]; [done|].
  simpl. by apply file_local.
Qed.

Lemma model_call_sound name l bound acc env env' :
  related bound env env' → agree w w' (modelCall name l acc) → eval env <$> l = eval env' <$> l →
  rcallV name (env "model") (eval env <$> l) = rcallV name (env' "model") (eval env' <$> l).
Proof.
  intros Hr Hg <-. unfold modelCall in Hg. case_bool_decide as E; [subst name|by destruct Hg].
  destruct (stringLiteral (head l)) as [m|] eqn:Hm; [|by destruct Hg].
  destruct (stringLiteral (l !! 1)) as [x|] eqn:Hx; [|by destruct Hg].
  apply stringLiteral_Some in Hm, Hx. destruct l as [|a [|b rest]]; [done..|]. simpl in Hm, Hx. simplify_eq.
  destruct (namespace_cases _ _ _ "model" _ _ Hr eq_refl eq_refl) as [->|[-> ->]]; [done|].
  simpl. apply run_local.
  - apply (g_models _ _ _ Hg). simpl. apply elem_of_set_add. auto.
  - apply (g_definitions _ _ _ Hg). right. simpl. rewrite fmap_app. set_solver.
Qed.

Lemma update_sound n bound acc x v env env' :
  sound n → related bound env env' → agree w w' (visit n (x :: bound) acc) ∨ agree w w' (visit n bound acc) →
  eval (update env x v) n = eval (update env' x v) n.
Proof.
  intros Hn Hr [Hg|Hg]; (eapply Hn; [|exact Hg]); eapply related_update; eauto.
Qed.

(** calls on the namespaces take a literal first, so they bind no variable *)
Lemma literal_first acc l name :
  agree w w' (dataCall name l acc) ∨ agree w w' (fileCall name l acc) ∨ agree w w' (modelCall name l acc) →
  ∃ v rest, l = value v :: rest.
Proof.
  intros [Hg|[Hg|Hg]].
  - unfold dataCall in Hg. case_match; [|by destruct Hg].
    apply addDataTarget_agree in Hg as (? & ? & -> & _). eauto.
  - unfold fileCall in Hg. case_match; [|by destruct Hg].
    apply (agree_grows _ _ _ _ (addFileContentsRead_grows _ _ _)), addDataTarget_agree in Hg
      as (? & ? & -> & _). eauto.
  - unfold modelCall in Hg. case_match; [|by destruct Hg].
    destruct (stringLiteral (head l)) as [m|] eqn:Hm; [|by destruct Hg].
    apply stringLiteral_Some in Hm. destruct l; [done|]. simpl in Hm. simplify_eq. eauto.
Qed.

Lemma rcall_sound name r args : sound r → Forall sound args → sound (rcall name r args).
Proof.
  intros IHr IHargs bound acc env env' Hr Hg. cbn [visit] in Hg.
  destruct (isFree r "data" bound) eqn:Hf.
  { apply isFree_true in Hf as [-> _]. pose proof (visitAll_first _ _ _ Hg) as Hg'.
    destruct (literal_first acc args name) as (v & rest & E); [by left|]. pose proof (visitAll_sound _ _ _ _ _ IHargs Hr Hg).
    pose proof (data_call_sound _ _ _ _ _ _ Hr Hg' ltac:(done)). by subst. }
  destruct (isFree r "file" bound) eqn:Hf'.
  { apply isFree_true in Hf' as [-> _]. pose proof (visitAll_first _ _ _ Hg) as Hg'.
    destruct (literal_first acc args name) as (v & rest & E); [by right; left|]. pose proof (visitAll_sound _ _ _ _ _ IHargs Hr Hg).
    pose proof (file_call_sound _ _ _ _ _ _ Hr Hg' ltac:(done)). by subst. }
  destruct (isFree r "model" bound) eqn:Hf''.
  { apply isFree_true in Hf'' as [-> _]. pose proof (visitAll_first _ _ _ Hg) as Hg'.
    destruct (literal_first acc args name) as (v & rest & E); [by right; right|]. pose proof (visitAll_sound _ _ _ _ _ IHargs Hr Hg).
    pose proof (model_call_sound _ _ _ _ _ _ Hr Hg' ltac:(done)). by subst. }
  clear Hf Hf' Hf''.
  assert (∀ args, Forall sound args →
    agree w w' (foldl (λ acc a, visit a bound acc) (visit r bound acc) args) →
    rcallV name (eval env r) (eval env <$> args) = rcallV name (eval env' r) (eval env' <$> args)) as Hplain.
  { intros l Hl Hgl. f_equal; [|by eapply visitAll_sound]. eapply IHr; [done|by eapply visitAll_first]. }
  destruct args as [|a args]; [by apply (Hplain [])|].
  pose proof (Hplain _ IHargs) as Hp. apply Forall_cons in IHargs as [IHa IHargs].
  destruct a as [|x| | | | | | |]; try exact (Hp Hg).
  assert (agree w w' (foldl (λ acc a, visit a (x :: bound) acc) (visit r bound acc) args) →
    macroV name (eval env r) (λ v, eval (update env x v) <$> args) =
    macroV name (eval env' r) (λ v, eval (update env' x v) <$> args)) as Hmacro.
  { intros Hgm. rewrite (IHr _ _ _ _ Hr (visitAll_first _ _ _ Hgm)). apply macro_ext. intros v.
    eapply visitAll_sound; [done|eapply related_update; eauto|done]. }
  assert (agree w w' (if bool_decide (name ∈ BINDING_MACROS)
      then foldl (λ acc a, visit a (x :: bound) acc) (visit r bound acc) args
      else foldl (λ acc a, visit a bound acc) (visit r bound acc) (id x :: args)) →
    (if bool_decide (name ∈ BINDING_MACROS)
     then macroV name (eval env r) (λ v, eval (update env x v) <$> args)
     else rcallV name (eval env r) (eval env <$> id x :: args)) =
    (if bool_decide (name ∈ BINDING_MACROS)
     then macroV name (eval env' r) (λ v, eval (update env' x v) <$> args)
     else rcallV name (eval env' r) (eval env' <$> id x :: args))) as Hboth
    by (destruct (bool_decide _); [exact Hmacro|exact Hp]).
  destruct args as [|b1 [|body [|? ?]]]; try exact (Hboth Hg).
  apply Forall_cons in IHargs as [IH1 [IH2 _]%Forall_cons].
  destruct (bool_decide (name = "bind")) eqn:Hb; [|simpl in Hg |- *; rewrite Hb; exact (Hboth Hg)].
  destruct (isCel r) eqn:Hc.
  2: { assert (isFree r "cel" bound = false) as Hf by (destruct r; try done; simpl in *; by rewrite Hc).
       rewrite Hf in Hg. simpl in Hg |- *. rewrite Hb, Hc. exact (Hboth Hg). }
  simpl in Hg |- *. rewrite Hb, Hc. simpl. apply bool_decide_eq_true in Hb as ->.
  destruct (isFree r "cel" bound).
  - rewrite (IH1 bound acc env env' Hr) by (eapply agree_grows; [apply visit_grows|exact Hg]).
    eapply update_sound; [done..|left; exact Hg].
  - rewrite (IH1 bound (visitId x bound (visit r bound acc)) env env' Hr)
      by (eapply agree_grows; [apply visit_grows|exact Hg]).
    eapply update_sound; [done..|right; exact Hg].
Qed.

Lemma visit_sound n : sound n.
Proof.
  induction n as [v|x|o n f IHn|o n k IHn IHk|name r args IHr IHargs|name args IHargs
    |op n IHn|l IHl|op args IHargs] using ASTNode_key_ind.
  - done.
  - intros bound acc env env' Hr Hg. by eapply visitId_sound.
  - by apply dot_sound.
  - by apply index_sound.
  - by apply rcall_sound.
  - intros bound acc env env' Hr Hg. simpl. f_equal. by eapply visitAll_sound.
  - intros bound acc env env' Hr Hg. simpl. f_equal. by eapply IHn.
  - intros bound acc env env' Hr Hg. cbn [visit eval] in *. f_equal. revert acc Hg.
    induction IHl as [|[k v] l [Hk Hv] _ IH]; intros acc Hg; [done|]. cbn [foldl] in Hg.
    assert (agree w w' (visit v bound (visit k bound acc))) as Hg'.
    { eapply agree_grows; [|exact Hg].
      apply (visitAll_grows (λ kv acc, visit kv.2 bound (visit kv.1 bound acc))), Forall_true.
      intros. etrans; apply visit_grows. }
    specialize (IH _ Hg). apply (Hv _ _ _ _ Hr) in Hg' as Ev.
    apply (agree_grows _ _ _ _ (visit_grows _ _ _)), (Hk _ _ _ _ Hr) in Hg' as Ek.
    csimpl. cbn [fst snd] in Ek, Ev. by rewrite Ek, Ev, IH.
  - intros bound acc env env' Hr Hg. simpl. f_equal. by eapply visitAll_sound.
Qed.

Lemma environment_related rest : related [] (environment w rest) (environment w' rest).
Proof.
  intros x. unfold environment, namespace. repeat case_bool_decide; simpl; auto;
    right; (split; [set_solver|done]).
Qed.


End soundness.

(** ** A concrete evaluator *)

Module Sample.

Inductive Val : Type :=
| Txt (s : string) | Lst (l : list Val) | Steps (f : string → string) | Data (d : string → string)
| Model (d D : string → string) | Entry (d D : string) | Err.

Definition field (v : Val) (x : string) : Val :=
  match v with
  | Steps f => Txt (f x)
  | Model d D => Entry (d x) (D x)
  | Entry d D =>
      if bool_decide (x ∈ MODEL_DEFINITION_ACCESSORS) then Txt D
      else if bool_decide (x ∈ MODEL_DATA_ACCESSORS) then Txt d else Err
  | _ => Err
  end.

Definition method (v : Val) (args : list Val) : Val :=
  match v, args with
  | Data d, Txt m :: _ => Txt (d m)
  | Model d D, Txt m :: _ => Entry (d m) (D m)
  | _, _ => Err
  end.

Definition evaluator : Evaluator := {|
  V := Val; lit l := match l with LString s => Txt s | LOther s => Txt s end;
  dotV _ v x := field v x; indexV _ v k := match k with Txt x => field v x | _ => Err end;
  rcallV _ v args := method v args; callV _ args := Lst args; unaryV _ v := v;
  mapV l := Lst (concat ((λ kv, [kv.1; kv.2]) <$> l)); otherV _ args := Lst args;
  macroV _ v f := Lst (f v);
  Output := string; ModelData := string; ModelDefinition := string;
  stepsV := Steps; dataV := Data; fileV := Data; modelV := Model;
|}.

Lemma evaluator_laws : @EvaluatorLaws evaluator.
Proof.
  split; cbn; intros; repeat match goal with a : Access |- _ => destruct a end; cbn;
    repeat match goal with E : _ = _ |- _ => rewrite E end; auto;
    unfold MODEL_DEFINITION_ACCESSORS, MODEL_DATA_ACCESSORS in *;
    repeat match goal with H : _ ∈ _ |- _ => apply elem_of_cons in H as [->|H] end;
    first [reflexivity|exfalso; by eapply not_elem_of_nil|by f_equal].
Qed.

Definition ast : ASTNode :=
  other "_+_" [rcall "latest" (id "data") [value (LString "cfg")]; dot false (id "steps") "build"].

Definition repository (other : string) : @Repository evaluator :=
  @MkRepository evaluator (λ s, if bool_decide (s = "build") then "done" else other)
    (λ m, if bool_decide (m = "cfg") then "v1" else other) (λ _, other).

End Sample.


End ReferencesProps.
