(* ===== verification/InputValidation.v ===== *)
(** * Validation of inputs against a schema

    [src/src/domain/inputs/input_validation_service.ts]: the validator of
    workflow inputs and of signal payloads. A schema is the JSON object it was
    parsed from; the fields the validator reads have the types the schema of
    schemas gives them ([minItems] and [maxItems] are read as numbers).

    The lemmas show what an empty list of errors means, whether or not the walk
    stops at the first failing entry. *)

From S2P Require Import Prelude JsString JsonText.
Local Open Scope Z_scope.

(** ** Objects *)

Definition field (key : string) (v : JsValue) : option JsValue :=
  match v with VObj l => assoc_get key l | _ => None end.

(** the field of an object, through a function *)
Definition find_field {R} (f : JsValue → R) (d : R) (key : string) : list (string * JsValue) → R :=
  fix go l := match l with
  | [] => d
  | (k, v) :: l => if bool_decide (k = key) then f v else go l
  end.

Lemma find_field_eq {R} (f : JsValue → R) d key l :
  find_field f d key l = default d (f <$> assoc_get key l).
Proof. induction l as [|[k v] l IH]; [done|]. cbn. by case_bool_decide. Qed.

(** [{...l, key: v}] *)
Fixpoint set_assoc {V} (key : string) (v : V) (l : list (string * V)) : list (string * V) :=
  match l with
  | [] => [(key, v)]
  | (k, w) :: l => if bool_decide (k = key) then (k, v) :: l else (k, w) :: set_assoc key v l
  end.

Lemma assoc_get_set {V} key k (v : V) l :
  assoc_get k (set_assoc key v l) = if bool_decide (k = key) then Some v else assoc_get k l.
Proof.
  induction l as [|[k' w] l IH]; cbn.
  - repeat case_bool_decide; congruence.
  - destruct (bool_decide (k' = key)) eqn:E; cbn.
    + apply bool_decide_eq_true in E as ->. repeat case_bool_decide; congruence.
    + apply bool_decide_eq_false in E. rewrite IH. repeat case_bool_decide; congruence.
Qed.

(** the names every object has *)
Definition OBJECT_PROTOTYPE : list string :=
  ["constructor"; "__defineGetter__"; "__defineSetter__"; "hasOwnProperty"; "__lookupGetter__";
   "__lookupSetter__"; "isPrototypeOf"; "propertyIsEnumerable"; "toString"; "valueOf"; "__proto__";
   "toLocaleString"].

(** [key in l] *)
Definition inObject (key : string) (l : list (string * JsValue)) : bool :=
  bool_decide (is_Some (assoc_get key l)) || bool_decide (key ∈ OBJECT_PROTOTYPE).

Definition truthy (v : option JsValue) : bool :=
  match v with
  | None | Some VNull | Some (VBool false) => false
  | Some (VNum z) => negb (z =? 0)
  | Some (VStr s) => negb (bool_decide (s = ""))
  | Some _ => true
  end.

Definition isObject (v : JsValue) : bool := match v with VObj _ => true | _ => false end.

Definition dq : string := String (Ascii.ascii_of_nat 34) "".

Module InputValidation.

Record InputValidationError := MkError { path : string; message : string }.

(** ** What the validator reads of a schema *)

Definition s_type (schema : JsValue) : option string :=
  match field "type" schema with Some (VStr t) => if bool_decide (t = "") then None else Some t | _ => None end.

Definition s_enum (schema : JsValue) : option (list JsValue) :=
  match field "enum" schema with Some (VArr (x :: l)) => Some (x :: l) | _ => None end.

Definition s_number (key : string) (schema : JsValue) : option Z :=
  match field key schema with Some (VNum z) => Some z | _ => None end.

Definition s_items (schema : JsValue) : option JsValue :=
  match field "items" schema with Some v => if truthy (Some v) then Some v else None | None => None end.

Definition s_required (schema : JsValue) : list string :=
  match field "required" schema with
  | Some (VArr l) => omap (λ v, match v with VStr s => Some s | _ => None end) l
  | _ => []
  end.

Definition s_properties (schema : JsValue) : option (list (string * JsValue)) :=
  match field "properties" schema with Some (VObj l) => Some l | _ => None end.

Definition s_closed (schema : JsValue) : bool :=
  match field "additionalProperties" schema with Some (VBool false) => true | _ => false end.

Definition s_additional (schema : JsValue) : option JsValue :=
  match field "additionalProperties" schema with Some (VObj l) => Some (VObj l) | _ => None end.

(** the schema a property declares, when it is one *)
Definition declared (properties : list (string * JsValue)) (key : string) : option JsValue :=
  match assoc_get key properties with Some v => if truthy (Some v) then Some v else None | None => None end.

(** ** Checks on one value *)

Definition getValueType (value : JsValue) : string :=
  match value with
  | VNull => "null"
  | VArr _ => "array"
  | VBool _ => "boolean"
  | VNum _ => "number"
  | VStr _ => "string"
  | VObj _ => "object"
  end.

Definition validateType (path : string) (value : JsValue) (expectedType : string)
    : option InputValidationError :=
  if bool_decide (expectedType = "integer") then
    match value with
    | VNum _ => None
    | _ => Some (MkError path (path +:+ " must be an integer"))
    end
  else if negb (bool_decide (getValueType value = expectedType)) then
    Some (MkError path (path +:+ " must be a " +:+ expectedType))
  else None.

(** [schema.enum.includes(value)]: objects and arrays are never the same *)
Definition includesValue (value : JsValue) (l : list JsValue) : bool :=
  existsb (λ x, match value, x with
    | VNull, VNull => true
    | VBool a, VBool b => Bool.eqb a b
    | VNum a, VNum b => a =? b
    | VStr a, VStr b => bool_decide (a = b)
    | _, _ => false
    end) l.

Definition enumErrors (path : string) (value : JsValue) (schema : JsValue) : list InputValidationError :=
  match s_enum schema with
  | None => []
  | Some l =>
      if includesValue value l then []
      else
        let allowedValues :=
          join ", " (List.map (λ v, match v with VStr s => dq +:+ s +:+ dq | _ => js_toString v end) l) in
        [MkError path (path +:+ " must be one of: " +:+ allowedValues)]
  end.

Definition plural (n : Z) : string := if n =? 1 then "" else "s".

(** [new Set(stringified).size !== value.length] *)
Definition hasDuplicates (l : list JsValue) : bool :=
  negb (bool_decide (size (list_to_set (json_text <$> l) : gset string) = length l)).

Definition boundErrors (path : string) (value : list JsValue) (schema : JsValue)
    : list InputValidationError :=
  let n := Z.of_nat (length value) in
  match s_number "minItems" schema with
  | Some m => if n <? m then
      [MkError path (path +:+ " must have at least " +:+ pretty m +:+ " item" +:+ plural m)] else []
  | None => []
  end ++
  match s_number "maxItems" schema with
  | Some m => if m <? n then
      [MkError path (path +:+ " must have at most " +:+ pretty m +:+ " item" +:+ plural m)] else []
  | None => []
  end ++
  (if truthy (field "uniqueItems" schema) && hasDuplicates value
   then [MkError path (path +:+ " must have unique items")] else []).

Definition requiredErrors (path : string) (value : list (string * JsValue)) (schema : JsValue)
    : list InputValidationError :=
  omap (λ key,
    if bool_decide (is_Some (assoc_get key value)) then None
    else Some (MkError (path +:+ "." +:+ key) (path +:+ "." +:+ key +:+ " is required")))
    (s_required schema).

(** ** The walk *)

Section walk.
(** [stopsAtFirstFailingArgument()] *)
Context (stops : bool).

(** a loop that collects the errors of each entry *)
Definition collect {A} (f : nat → A → list InputValidationError)
    : nat → list A → list InputValidationError → list InputValidationError :=
  fix go i l errors := match l with
  | [] => errors
  | x :: l =>
      let errors := errors ++ f i x in
      if bool_decide (errors ≠ []) && stops then errors else go (S i) l errors
  end.

Fixpoint validateProperty (value : JsValue) (path : string) (schema : JsValue)
    : list InputValidationError :=
  match value with
  | VNull =>
      match field "default" schema with
      | None => [MkError path (path +:+ " cannot be null or undefined")]
      | Some _ => []
      end
  | _ =>
      match s_type schema ≫= validateType path value with
      | Some typeError => [typeError]
      | None =>
          enumErrors path value schema ++
          match value with
          | VArr l =>
              if bool_decide (s_type schema = Some "array") then
                let errors := boundErrors path l schema in
                match s_items schema with
                | None => errors
                | Some items =>
                    collect (λ i x, validateProperty x (path +:+ "[" +:+ pretty i +:+ "]") items) 0 l errors
                end
              else []
          | VObj l =>
              if bool_decide (s_type schema = Some "object") then
                let errors := requiredErrors path l schema in
                match s_properties schema with
                | Some properties =>
                    collect (λ _ '(key, x),
                      match declared properties key with
                      | Some propSchema => validateProperty x (path +:+ "." +:+ key) propSchema
                      | None =>
                          if s_closed schema then
                            [MkError (path +:+ "." +:+ key) (path +:+ "." +:+ key +:+ " is not a valid property")]
                          else
                            match s_additional schema with
                            | Some additional => validateProperty x (path +:+ "." +:+ key) additional
                            | None => []
                            end
                      end) 0 l errors
                | None =>
                    match s_additional schema with
                    | Some additional =>
                        collect (λ _ '(key, x), validateProperty x (path +:+ "." +:+ key) additional) 0 l errors
                    | None => errors
                    end
                end
              else []
          | _ => []
          end
      end
  end.

(** ** Inputs *)

(** [schema.properties ?? schema] *)
Definition propertiesOf (schema : list (string * JsValue)) : list (string * JsValue) :=
  match assoc_get "properties" schema with
  | Some (VObj l) => l
  | Some _ => []
  | None => schema
  end.

Definition validateEntries (inputs schema : list (string * JsValue)) : list InputValidationError :=
  let properties := propertiesOf schema in
  collect (λ _ '(key, value),
    match declared properties key with
    | Some propSchema => validateProperty value key propSchema
    | None =>
        if s_closed (VObj schema) then [MkError key (key +:+ " is not a valid input property")] else []
    end) 0 inputs [].

Definition validate (inputs schema : list (string * JsValue)) : bool * list InputValidationError :=
  let required := omap (λ key,
    if inObject key inputs then None else Some (MkError key (key +:+ " is required")))
    (s_required (VObj schema)) in
  let errors := required ++ validateEntries inputs schema in
  (bool_decide (errors = []), errors).

Definition validateProvided (inputs schema : list (string * JsValue)) : bool * list InputValidationError :=
  let errors := validateEntries inputs schema in (bool_decide (errors = []), errors).

End walk.

Definition getMissingRequiredInputs (inputs schema : list (string * JsValue)) : list string :=
  let properties := propertiesOf schema in
  List.filter (λ key,
    negb (inObject key inputs) &&
    negb (truthy (assoc_get key properties ≫= field "default")))
    (s_required (VObj schema)).

Definition applyDefaults (inputs schema : list (string * JsValue)) : list (string * JsValue) :=
  foldl (λ result '(key, prop),
    match field "default" prop with
    | Some d => if inObject key result then result else result ++ [(key, d)]
    | None => result
    end) inputs (propertiesOf schema).

(** ** What no error means *)

Section facts.
Context (stops : bool).

Lemma collect_nil {A} (f : nat → A → list InputValidationError) i l errors :
  collect stops f i l errors = [] ↔ errors = [] ∧ ∀ j x, l !! j = Some x → f (i + j)%nat x = [].
Proof.
  revert i errors. induction l as [|x l IH]; intros i errors; cbn [collect].
  - split; [by intros ->|by intros [-> _]].
  - assert ((∀ j y, (x :: l) !! j = Some y → f (i + j)%nat y = []) ↔
      f i x = [] ∧ ∀ j y, l !! j = Some y → f (S i + j)%nat y = []) as ->.
    { split.
      - intros H. split; [rewrite <-(Nat.add_0_r i); by apply H|].
        intros j y Hj. replace (S i + j)%nat with (i + S j)%nat by lia. by apply H.
      - intros [H1 H2] [|j] y; cbn; [intros [= <-]; by rewrite Nat.add_0_r|].
        intros Hj. replace (i + S j)%nat with (S i + j)%nat by lia. by apply H2. }
    fold (collect stops f). destruct (bool_decide (errors ++ f i x ≠ []) && stops) eqn:E.
    + apply andb_true_iff in E as [E _]. apply bool_decide_eq_true in E. split; [done|].
      intros (-> & Hf & _). by rewrite Hf in E.
    + rewrite IH, app_nil. tauto.
Qed.

(** the entries of an object, in no particular order *)
Lemma collect_entries_nil {A} (f : A → list InputValidationError) i l errors :
  collect stops (λ _ x, f x) i l errors = [] ↔ errors = [] ∧ ∀ x, x ∈ l → f x = [].
Proof.
  rewrite collect_nil. setoid_rewrite list_elem_of_lookup. naive_solver.
Qed.

Lemma hasDuplicates_spec l : hasDuplicates l = false ↔ NoDup l.
Proof.
  unfold hasDuplicates. rewrite negb_false_iff, bool_decide_eq_true.
  assert (NoDup (json_text <$> l) ↔ NoDup l) as Hn.
  { split; [apply NoDup_fmap_1|]. apply NoDup_fmap_2. intros x y. apply JsonText.json_text_inj. }
  rewrite <-Hn. rewrite <-(length_fmap json_text). generalize (json_text <$> l). clear. intros l. split.
  - induction l as [|x l IH]; [constructor|]. cbn [list_to_set length]. intros H.
    assert (size (list_to_set l : gset string) ≤ length l)%nat.
    { clear. induction l as [|y l IH]; [done|]. cbn [list_to_set length].
      pose proof (size_union_alt {[y]} (list_to_set l : gset string)) as E. rewrite size_singleton in E.
      assert (size ((list_to_set l : gset string) ∖ {[y]}) ≤ size (list_to_set l : gset string))%nat
        by (apply subseteq_size; set_solver). lia. }
    destruct (decide (x ∈ l)) as [Hx|Hx].
    + exfalso. assert ({[x]} ∪ list_to_set l = (list_to_set l : gset string)) as E by set_solver.
      rewrite E in H. lia.
    + constructor; [done|]. apply IH. rewrite size_union in H by set_solver. rewrite size_singleton in H. lia.
  - intros H. by apply size_list_to_set.
Qed.

Lemma validateType_none path value t :
  validateType path value t = None ↔
  (t = "integer" ∧ ∃ z, value = VNum z) ∨ (t ≠ "integer" ∧ getValueType value = t).
Proof.
  unfold validateType. case_bool_decide as Ht.
  - destruct value; naive_solver.
  - case_bool_decide as Hv; cbn; naive_solver.
Qed.

Lemma enumErrors_nil path value schema :
  enumErrors path value schema = [] ↔ ∀ l, s_enum schema = Some l → includesValue value l = true.
Proof.
  unfold enumErrors. destruct (s_enum schema) as [l|]; [|naive_solver].
  destruct (includesValue value l) eqn:E.
  - split; [|done]. by intros _ ? [= <-].
  - split; [done|]. intros H. by rewrite (H l eq_refl) in E.
Qed.

Lemma requiredErrors_nil path value schema :
  requiredErrors path value schema = [] ↔ ∀ key, key ∈ s_required schema → is_Some (assoc_get key value).
Proof.
  unfold requiredErrors. induction (s_required schema) as [|k l IH]; cbn [omap list_omap].
  - split; [|done]. by intros _ key ?%elem_of_nil.
  - setoid_rewrite elem_of_cons. destruct (bool_decide _) eqn:E.
    + apply bool_decide_eq_true in E. rewrite IH. naive_solver.
    + apply bool_decide_eq_false in E. naive_solver.
Qed.

Lemma boundErrors_nil path l schema :
  boundErrors path l schema = [] ↔
  (∀ m, s_number "minItems" schema = Some m → m ≤ Z.of_nat (length l)) ∧
  (∀ m, s_number "maxItems" schema = Some m → Z.of_nat (length l) ≤ m) ∧
  (truthy (field "uniqueItems" schema) = true → NoDup l).
Proof.
  unfold boundErrors. rewrite !app_nil, <-hasDuplicates_spec.
  assert (∀ (o : option Z) (b : Z → bool) (e : Z → InputValidationError),
    match o with Some m => if b m then [e m] else [] | None => [] end = [] ↔ ∀ m, o = Some m → b m = false)
    as Ho.
  { intros [m|] b e; [|done]. destruct (b m) eqn:E.
    - split; [done|]. intros H. by rewrite (H m eq_refl) in E.
    - split; [|done]. by intros _ ? [= <-]. }
  rewrite (Ho (s_number "minItems" schema) (λ m, Z.of_nat (length l) <? m)).
  rewrite (Ho (s_number "maxItems" schema) (λ m, m <? Z.of_nat (length l))).
  setoid_rewrite Z.ltb_ge. destruct (truthy _), (hasDuplicates l); cbn [andb]; intuition congruence.
Qed.

(** what the walk checks of one entry of an object *)
Definition entryOk (schema : JsValue) (path : string) (entry : string * JsValue) : Prop :=
  let '(key, x) := entry in
  match s_properties schema ≫= λ properties, declared properties key with
  | Some propSchema => validateProperty stops x (path +:+ "." +:+ key) propSchema = []
  | None =>
      (s_closed schema = true → s_properties schema = None) ∧
      ∀ additional, s_additional schema = Some additional →
        validateProperty stops x (path +:+ "." +:+ key) additional = []
  end.

Lemma closed_not_additional schema : s_closed schema = true → s_additional schema = None.
Proof. unfold s_closed, s_additional. by destruct (field _ schema) as [[| [] | | | |]|]. Qed.

Lemma validateProperty_array path l schema :
  validateProperty stops (VArr l) path schema = [] ↔
  (∀ t, s_type schema = Some t → t = "array") ∧ enumErrors path (VArr l) schema = [] ∧
  (s_type schema = Some "array" → boundErrors path l schema = [] ∧
   ∀ items j x, s_items schema = Some items → l !! j = Some x →
     validateProperty stops x (path +:+ "[" +:+ pretty j +:+ "]") items = []).
Proof.
  cbn [validateProperty]. destruct (s_type schema) as [t|]; cbn [mbind option_bind].
  - destruct (validateType path (VArr l) t) as [e|] eqn:Ht.
    + split; [done|]. intros (H & _). specialize (H t eq_refl) as ->. done.
    + apply validateType_none in Ht as [(_ & z & ?)|[Hne Ht]]; [done|]. cbn in Ht. subst t.
      rewrite bool_decide_eq_true_2, app_nil by done.
      destruct (s_items schema) as [items|]; [|naive_solver].
      rewrite collect_nil. setoid_rewrite Nat.add_0_l. naive_solver.
  - rewrite app_nil_r. naive_solver.
Qed.

Lemma validateProperty_object path l schema :
  validateProperty stops (VObj l) path schema = [] ↔
  (∀ t, s_type schema = Some t → t = "object") ∧ enumErrors path (VObj l) schema = [] ∧
  (s_type schema = Some "object" →
   requiredErrors path l schema = [] ∧ ∀ entry, entry ∈ l → entryOk schema path entry).
Proof.
  cbn [validateProperty]. destruct (s_type schema) as [t|]; cbn [mbind option_bind].
  2: { rewrite app_nil_r. naive_solver. }
  destruct (validateType path (VObj l) t) as [e|] eqn:Ht.
  { split; [done|]. intros (H & _). specialize (H t eq_refl) as ->. done. }
  apply validateType_none in Ht as [(_ & z & ?)|[Hne Ht]]; [done|]. cbn in Ht. subst t.
  rewrite bool_decide_eq_true_2, app_nil by done.
  assert (∀ P Q R : Prop, (P ↔ R) → (Q ∧ P ↔ (∀ t, Some "object" = Some t → t = "object") ∧ Q ∧
    (Some "object" = Some "object" → R))) as Hshape by naive_solver.
  apply Hshape. clear Hshape. unfold entryOk.
  destruct (s_properties schema) as [properties|] eqn:Hp; cbn [mbind option_bind].
  - rewrite collect_entries_nil. apply and_iff_compat_l.
    split; intros H [key x] Hin; specialize (H _ Hin); cbn beta iota in *;
      destruct (declared properties key); [done| |done|];
      pose proof (closed_not_additional schema); destruct (s_closed schema), (s_additional schema); naive_solver.
  - destruct (s_additional schema) as [a|]; [rewrite collect_entries_nil; apply and_iff_compat_l|].
    + split; intros H [key x] Hin; specialize (H _ Hin); naive_solver.
    + split; [|by intros [? _]]. intros H. split; [done|]. by intros [key x] _.
Qed.

Lemma validateProperty_plain path value schema :
  match value with VArr _ | VObj _ | VNull => False | _ => True end →
  validateProperty stops value path schema = [] ↔
  (∀ t, s_type schema = Some t → validateType path value t = None) ∧ enumErrors path value schema = [].
Proof.
  intros Hv. destruct value; try done; cbn [validateProperty]; rewrite app_nil_r;
    (destruct (s_type schema) as [t|]; cbn [mbind option_bind]; [|naive_solver];
     match goal with |- context [validateType ?p ?v ?t] => destruct (validateType p v t) eqn:E end;
     [split; [done|]; intros [H _]; by rewrite (H t eq_refl) in E|naive_solver]).
Qed.

End facts.

End InputValidation.
