(* ===== verification/ModelType.v ===== *)
(** * Behaviour types and their normal form

    [src/src/domain/models/model_type.ts] and
    [src/src/domain/models/control_plane_types.ts]: a type name in any
    spelling ([AWS::EC2], [aws.ec2], [@swamp/grant]) is brought to one normal
    form, by which stored records are found and authorization compares types.

    The theorems show that the normal form is a fixed point of normalization
    (so comparing normal forms compares types) and what its characters can be. *)

From Stdlib Require Import Ascii.
From S2P Require Import Prelude JsString.

Module ModelType.

Record t : Type := Mk { raw : string; normalized : string }.

Definition normalize (raw : string) : string :=
  stripSlashes
    (collapse isSlash false
      (replaceDots
        (collapse isSpace false
          (replaceColons (toLowerCase raw))))).

Definition create (rawType : string) : result t :=
  let trimmed := trim rawType in
  _ ← throw_if (bool_decide (trimmed = "")) "Behavior type cannot be empty";
  let normalized := normalize trimmed in
  _ ← throw_if (bool_decide (normalized = ""))
        "Behavior type normalization resulted in empty string";
  Ok (Mk trimmed normalized).

Definition equals (a b : t) : bool := bool_decide (normalized a = normalized b).

Definition isUserNamespace (normalized : string) : bool := startsWith normalized "@".

Definition getUserNamespace (normalized : string) : option string :=
  if negb (isUserNamespace normalized) then None
  else
    let withoutAt := str_drop 1 normalized in
    match indexOf "/" withoutAt with
    | None => Some withoutAt
    | Some slashIndex => Some (str_take slashIndex withoutAt)
    end.

Definition getSegmentCount (normalized : string) : nat :=
  let body := if isUserNamespace normalized then str_drop 1 normalized else normalized in
  length (List.filter (λ s, negb (bool_decide (s = ""))) (splitOn "/" body)).

Definition RESERVED_COLLECTIVES : list string := ["swamp"; "si"].

Definition isReservedCollective (normalized : string) : bool :=
  if isUserNamespace normalized then
    match getUserNamespace normalized with
    | None => false
    | Some namespace => bool_decide (namespace ∈ RESERVED_COLLECTIVES)
    end
  else
    let firstSegment :=
      match indexOf "/" normalized with
      | None => normalized
      | Some firstSlash => str_take firstSlash normalized
      end in
    bool_decide (firstSegment ∈ RESERVED_COLLECTIVES).

(** ** Control-plane types *)

Definition CONTROL_PLANE_MODEL_TYPES : list string :=
  ["swamp/enrollment-token"; "swamp/worker"; "swamp/step-lease";
   "swamp/pending-dispatch"; "swamp/fleet-probe"; "swamp/server-token";
   "swamp/grant"; "swamp/group"].

Definition CONTROL_PLANE_STORED_TYPES : list string :=
  mjoin ((λ type, [type; "@" +:+ type]) <$> CONTROL_PLANE_MODEL_TYPES).

Definition normalizeModelTypeName (type : string) : option string :=
  mt ← try_option (create type);
  let stripped := stripAtSlash (normalized mt) in
  if negb (bool_decide (stripped = "")) then Some stripped else None.

Definition isControlPlaneModelType (type : string) : bool :=
  match normalizeModelTypeName type with
  | Some n => bool_decide (n ∈ CONTROL_PLANE_MODEL_TYPES)
  | None => false
  end.

(** ** The shape of a normal form *)

(** a character normalization leaves as it is *)
Definition plain (c : ascii) : bool :=
  Ascii.eqb (lower c) c && negb (isSpace c) && negb (Ascii.eqb c ".").

Definition noPair (c : ascii) (s : string) : Prop := includesPair c c s = false.

Definition headIs (c : ascii) (s : string) : bool :=
  match s with String d _ => Ascii.eqb c d | EmptyString => false end.

Record normal (s : string) : Prop := {
  normal_plain : all_chars plain s = true;
  normal_colons : noPair ":" s;
  normal_slashes : noPair "/" s;
  normal_head : headIs "/" s = false;
  normal_last : endsWithChar "/" s = false;
}.

Lemma noPair_cons c d s :
  noPair c (String d s) ↔ (Ascii.eqb c d && headIs c s = false) ∧ noPair c s.
Proof.
  unfold noPair. destruct s as [|e s]; simpl.
  - rewrite andb_false_r. naive_solver.
  - by rewrite orb_false_iff.
Qed.

Lemma noPair_nil c : noPair c "".
Proof. done. Qed.

Lemma lower_lower c : lower (lower c) = lower c.
Proof. by destruct c as [[] [] [] [] [] [] [] []]. Qed.

Lemma toLowerCase_fixed s : all_chars (λ c, Ascii.eqb (lower c) c) (toLowerCase s) = true.
Proof.
  unfold toLowerCase. induction s as [|c s IH]; simpl; [done|].
  by rewrite lower_lower, Ascii.eqb_refl.
Qed.

Lemma map_string_id (f : ascii → ascii) s :
  all_chars (λ c, Ascii.eqb (f c) c) s = true → map_string f s = s.
Proof.
  induction s as [|c s IH]; simpl; [done|]. rewrite andb_true_iff.
  intros [->%ascii_eqb_true ?]. f_equal; auto.
Qed.

(** *** Replacing [::] *)

Lemma string_pair_ind (P : string → Prop) :
  P "" → (∀ c, P (String c "")) →
  (∀ c d s, P s → P (String d s) → P (String c (String d s))) → ∀ s, P s.
Proof.
  intros H0 H1 H2 s. assert (P s ∧ ∀ c, P (String c s)) as [? _]; [|done].
  induction s as [|d s [IH1 IH2]]; split; auto.
Qed.

Lemma replaceColons_all p s :
  p "/"%char = true → all_chars p s = true → all_chars p (replaceColons s) = true.
Proof.
  intros Hp. induction s as [|c|c d s IH1 IH2] using string_pair_ind; [done..|].
  intros [Hc [Hd Hs]%andb_true_iff]%andb_true_iff.
  change (replaceColons (String c (String d s))) with
    (if Ascii.eqb c ":" && Ascii.eqb d ":" then String "/" (replaceColons s)
     else String c (replaceColons (String d s))).
  destruct (Ascii.eqb c ":" && Ascii.eqb d ":"); cbn [all_chars].
  - rewrite Hp. auto.
  - rewrite Hc. apply IH2. cbn. by rewrite Hd.
Qed.

Lemma replaceColons_head s : headIs ":" (replaceColons s) = true → headIs ":" s = true.
Proof.
  destruct s as [|c [|d s]]; [done..|].
  change (replaceColons (String c (String d s))) with
    (if Ascii.eqb c ":" && Ascii.eqb d ":" then String "/" (replaceColons s)
     else String c (replaceColons (String d s))).
  by destruct (Ascii.eqb c ":" && Ascii.eqb d ":").
Qed.

Lemma replaceColons_noPair s : noPair ":" (replaceColons s).
Proof.
  induction s as [|c|c d s IH1 IH2] using string_pair_ind; [done..|].
  change (replaceColons (String c (String d s))) with
    (if Ascii.eqb c ":" && Ascii.eqb d ":" then String "/" (replaceColons s)
     else String c (replaceColons (String d s))).
  destruct (Ascii.eqb c ":" && Ascii.eqb d ":") eqn:E; apply noPair_cons; [done|].
  split; [|done]. apply andb_false_iff.
  destruct (headIs ":" (replaceColons (String d s))) eqn:Hh; [|by right].
  apply replaceColons_head in Hh. simpl in Hh. left.
  rewrite (Ascii.eqb_sym d), Hh, andb_true_r in E. by rewrite Ascii.eqb_sym.
Qed.

Lemma replaceColons_id s : noPair ":" s → replaceColons s = s.
Proof.
  induction s as [|c|c d s IH1 IH2] using string_pair_ind; [done..|].
  intros [Hh Hp]%noPair_cons.
  change (replaceColons (String c (String d s))) with
    (if Ascii.eqb c ":" && Ascii.eqb d ":" then String "/" (replaceColons s)
     else String c (replaceColons (String d s))).
  cbn [headIs] in Hh. rewrite (Ascii.eqb_sym c), (Ascii.eqb_sym d), Hh. f_equal. auto.
Qed.

(** *** Collapsing a class of characters *)

Lemma collapse_all p q b s :
  q "/"%char = true → all_chars q s = true → all_chars q (collapse p b s) = true.
Proof.
  intros Hq. revert b. induction s as [|c s IH]; intros b; simpl; [done|].
  rewrite andb_true_iff. intros [Hc Hs].
  destruct (p c), b; simpl; rewrite ?Hq, ?Hc; simpl; auto.
Qed.

Lemma collapse_none p b s :
  p "/"%char = false → all_chars (λ c, negb (p c)) (collapse p b s) = true.
Proof.
  intros Hp. revert b. induction s as [|c s IH]; intros b; simpl; [done|].
  destruct (p c) eqn:Hc, b; simpl; rewrite ?Hp, ?Hc; simpl; auto.
Qed.

Lemma collapse_head p d s :
  d ≠ "/"%char → headIs d (collapse p false s) = true → headIs d s = true.
Proof.
  intros Hd. destruct s as [|c s]; simpl; [done|]. destruct (p c); simpl; [|done].
  by intros ->%ascii_eqb_true.
Qed.

Lemma collapse_noPair p d b s :
  d ≠ "/"%char → noPair d s → noPair d (collapse p b s).
Proof.
  intros Hd. revert b. induction s as [|c s IH]; intros b; simpl; [done|].
  intros [Hh Hs]%noPair_cons. destruct (p c), b; [auto|..]; apply noPair_cons; split; auto.
  1: destruct (Ascii.eqb d "/") eqn:E; [by apply ascii_eqb_true in E|done].
  all: apply andb_false_iff in Hh as [->|Hh]; [done|]; apply andb_false_iff; right;
    destruct (headIs d (collapse p false s)) eqn:E; [|done];
    apply collapse_head in E; congruence.
Qed.

Lemma collapse_slash_noPair b s :
  noPair "/" (collapse isSlash b s) ∧ (b = true → headIs "/" (collapse isSlash b s) = false).
Proof.
  revert b. induction s as [|c s IH]; intros b; cbn [collapse]; [done|].
  destruct (isSlash c) eqn:Hc; [destruct b|].
  - by apply IH.
  - destruct (IH true) as [IH1 IH2]. split; [|done]. apply noPair_cons. split; [|done].
    by rewrite IH2.
  - unfold isSlash in Hc. rewrite Ascii.eqb_sym in Hc. split.
    + apply noPair_cons. rewrite Hc. split; [done|]. apply IH.
    + done.
Qed.

Lemma collapse_id p s : all_chars (λ c, negb (p c)) s = true → collapse p false s = s.
Proof.
  induction s as [|c s IH]; simpl; [done|]. rewrite andb_true_iff, negb_true_iff.
  intros [-> ?]. f_equal. auto.
Qed.

Lemma collapse_slash_id b s :
  noPair "/" s → (b = true → headIs "/" s = false) → collapse isSlash b s = s.
Proof.
  revert b. induction s as [|c s IH]; intros b; cbn [collapse]; [done|].
  intros [Hh Hs]%noPair_cons Hb. cbn [headIs] in *. unfold isSlash.
  rewrite Ascii.eqb_sym. destruct (Ascii.eqb "/" c) eqn:Hc.
  - apply ascii_eqb_true in Hc as <-. destruct b; [by specialize (Hb eq_refl)|].
    f_equal. apply IH; auto.
  - f_equal. by apply IH.
Qed.

(** *** Dots and the edges *)

Lemma replaceDots_all p s :
  p "/"%char = true → all_chars p s = true →
  all_chars (λ c, p c && negb (Ascii.eqb c ".")) (replaceDots s) = true.
Proof.
  intros Hp. unfold replaceDots. induction s as [|c s IH]; simpl; [done|].
  rewrite andb_true_iff. intros [Hc Hs].
  destruct (Ascii.eqb c ".") eqn:E; simpl; rewrite ?Hp, ?Hc, ?E; simpl; auto.
Qed.

Lemma replaceDots_noPair s : noPair ":" s → noPair ":" (replaceDots s).
Proof.
  unfold replaceDots. induction s as [|c s IH]; simpl; [done|].
  intros [Hh Hs]%noPair_cons. apply noPair_cons. split; [|auto].
  destruct (Ascii.eqb c ".") eqn:E; [done|].
  destruct s as [|d s]; [done|]. simpl in *. by destruct (Ascii.eqb d "."), (Ascii.eqb ":" c).
Qed.

Lemma dropLast_all p s : all_chars p s = true → all_chars p (dropLast s) = true.
Proof.
  induction s as [|c [|d s] IH]; [done..|]. cbn [dropLast]. simpl in *.
  rewrite !andb_true_iff. intros (? & ? & ?). split; [done|]. apply IH.
  by apply andb_true_iff.
Qed.

Lemma dropLast_head c s : headIs c s = false → headIs c (dropLast s) = false.
Proof. by destruct s as [|d [|e s]]. Qed.

Lemma dropLast_noPair c s : noPair c s → noPair c (dropLast s).
Proof.
  induction s as [|d [|e s] IH]; [done..|].
  change (dropLast (String d (String e s))) with (String d (dropLast (String e s))).
  intros [Hh Hs]%noPair_cons. apply noPair_cons. split; [|auto].
  apply andb_false_iff in Hh as [->|Hh]; [done|]. apply andb_false_iff. right.
  by apply dropLast_head.
Qed.

Lemma noPair_last c s : noPair c s → endsWithChar c s = true → endsWithChar c (dropLast s) = false.
Proof.
  induction s as [|d [|e s] IH]; [done..|].
  intros [Hh Hs]%noPair_cons Hl.
  change (dropLast (String d (String e s))) with (String d (dropLast (String e s))).
  destruct s as [|f s]; simpl in *; [|by apply IH].
  apply ascii_eqb_true in Hl as ->. by rewrite Ascii.eqb_refl, andb_true_r in Hh.
Qed.

Lemma stripSlashes_normal s :
  all_chars plain s = true → noPair ":" s → noPair "/" s → normal (stripSlashes s).
Proof.
  intros Hp Hc Hs. unfold stripSlashes.
  assert (all_chars plain (stripLeadingSlash s) = true ∧ noPair ":" (stripLeadingSlash s) ∧
    noPair "/" (stripLeadingSlash s) ∧ headIs "/" (stripLeadingSlash s) = false)
    as (Hp' & Hc' & Hs' & Hh').
  { destruct s as [|c s]; [done|]. unfold stripLeadingSlash, isSlash.
    rewrite Ascii.eqb_sym. destruct (Ascii.eqb "/" c) eqn:E; [|done].
    simpl in Hp. apply andb_true_iff in Hp as [_ Hp]. apply noPair_cons in Hc as [_ Hc].
    apply noPair_cons in Hs as [Hh Hs]. by rewrite E in Hh. }
  unfold stripTrailingSlash. destruct (endsWithChar "/" (stripLeadingSlash s)) eqn:E.
  - split; auto using dropLast_all, dropLast_noPair, dropLast_head, noPair_last.
  - by split.
Qed.

Lemma normalize_normal s : normal (normalize s).
Proof.
  unfold normalize. apply stripSlashes_normal.
  - apply collapse_all; [done|].
    eapply all_chars_impl; [|apply (replaceDots_all
      (λ c, Ascii.eqb (lower c) c && negb (isSpace c)))]; [done|done|].
    set (t := replaceColons (toLowerCase s)).
    assert (all_chars (λ c, Ascii.eqb (lower c) c) (collapse isSpace false t) = true) as H1.
    { apply collapse_all; [done|]. apply replaceColons_all; [done|].
      apply toLowerCase_fixed. }
    pose proof (collapse_none isSpace false t eq_refl) as H2. revert H1 H2.
    generalize (collapse isSpace false t). clear. intros u.
    induction u as [|c u IH]; simpl; [done|]. rewrite !andb_true_iff. tauto.
  - apply collapse_noPair; [done|]. apply replaceDots_noPair, collapse_noPair; [done|].
    apply replaceColons_noPair.
  - apply collapse_slash_noPair.
Qed.

Lemma normal_normalize s : normal s → normalize s = s.
Proof.
  intros [Hp Hc Hs Hh Hl]. unfold normalize, toLowerCase.
  assert (all_chars (λ c, Ascii.eqb (lower c) c) s = true ∧
          all_chars (λ c, negb (isSpace c)) s = true ∧
          all_chars (λ c, Ascii.eqb (if Ascii.eqb c "." then "/"%char else c) c) s = true)
    as (H1 & H2 & H3).
  { split_and!; (eapply all_chars_impl; [|exact Hp]); unfold plain; intros c;
      rewrite !andb_true_iff, !negb_true_iff; intros [[? ?] E]; [done|done|].
    by rewrite E, Ascii.eqb_refl. }
  rewrite map_string_id, replaceColons_id by done. rewrite (collapse_id isSpace) by done.
  unfold replaceDots. rewrite map_string_id by done. rewrite collapse_slash_id by done.
  unfold stripSlashes, stripTrailingSlash.
  assert (stripLeadingSlash s = s) as ->.
  { destruct s as [|c s]; [done|]. unfold stripLeadingSlash, isSlash.
    cbn [headIs] in Hh. by rewrite Ascii.eqb_sym, Hh. }
  by rewrite Hl.
Qed.

Lemma trim_id s : all_chars (λ c, negb (isSpace c)) s = true → trim s = s.
Proof.
  intros Hs. unfold trim. assert (trimStart s = s) as ->.
  { destruct s as [|c s]; simpl in *; [done|]. by destruct (isSpace c). }
  induction s as [|c s IH]; simpl in *; [done|]. apply andb_true_iff in Hs as [Hc Hs].
  rewrite negb_true_iff in Hc. rewrite Hc, IH by done. done.
Qed.

Lemma create_normal s : normal s → s ≠ "" → create s = Ok (Mk s s).
Proof.
  intros Hn Hne. unfold create. rewrite trim_id.
  - rewrite normal_normalize by done. by rewrite bool_decide_eq_false_2.
  - eapply all_chars_impl; [|apply (normal_plain _ Hn)]. unfold plain. intros c.
    rewrite !andb_true_iff. tauto.
Qed.

Lemma create_Ok s mt : create s = Ok mt → normal (normalized mt) ∧ normalized mt ≠ "".
Proof.
  unfold create. rewrite result_bind_ok. intros (? & _ & H).
  rewrite result_bind_ok in H. destruct H as (? & H & [= <-]).
  apply throw_if_ok in H. split_bools. split; [apply normalize_normal|done].
Qed.

Lemma stripAtSlash_suffix s : ∃ p, s = p +:+ stripAtSlash s.
Proof.
  induction s as [|c s [p Hp]]; simpl; [by exists ""|].
  destruct (Ascii.eqb c "@" || isSlash c); [|by exists ""].
  exists (String c p). simpl. by f_equal.
Qed.

Lemma stripAtSlash_head s : headIs "@" (stripAtSlash s) = false ∧ headIs "/" (stripAtSlash s) = false.
Proof.
  induction s as [|c s IH]; simpl; [done|]. unfold isSlash in *.
  destruct (Ascii.eqb c "@" || Ascii.eqb c "/") eqn:E; [done|].
  apply orb_false_iff in E as [E1 E2]. simpl. by rewrite !(Ascii.eqb_sym _ c), E1, E2.
Qed.

Lemma stripAtSlash_id s : headIs "@" s = false → headIs "/" s = false → stripAtSlash s = s.
Proof.
  destruct s as [|c s]; simpl; [done|]. unfold isSlash.
  rewrite !(Ascii.eqb_sym _ c). by intros -> ->.
Qed.

Lemma endsWithChar_tail c d s : endsWithChar c (String d s) = false → endsWithChar c s = false.
Proof. by destruct s. Qed.

(** every condition but the one on the head passes to a suffix *)
Lemma normal_suffix p s :
  all_chars plain (p +:+ s) = true → noPair ":" (p +:+ s) → noPair "/" (p +:+ s) →
  endsWithChar "/" (p +:+ s) = false → headIs "/" s = false → normal s.
Proof.
  induction p as [|c p IH]; [by split|]. cbn [String.append all_chars].
  intros [_ Hp]%andb_true_iff [_ Hc]%noPair_cons [_ Hs]%noPair_cons Hl%endsWithChar_tail.
  by apply IH.
Qed.

Lemma normal_stripAtSlash s : normal s → normal (stripAtSlash s).
Proof.
  intros [Hp Hc Hs Hh Hl]. destruct (stripAtSlash_suffix s) as [p E].
  destruct (stripAtSlash_head s) as [_ ?].
  apply (normal_suffix p); [by rewrite <-E..|done].
Qed.

#[export] Hint Resolve create_normal normal_normalize normal_stripAtSlash : swamp.

(** ** The properties *)

(** Normalization reaches a fixed point in one step: the normal form
    [create] computes for any accepted spelling is accepted and is its own
    normal form, so [equals] compares types whatever their spelling. *)
Lemma create_is_idempotent (rawType : string) (mt : t) :
  create rawType = Ok mt →
  create (normalized mt) = Ok (Mk (normalized mt) (normalized mt)).
Proof. intros [? ?]%create_Ok. by apply create_normal. Qed.

(** The key authorization compares types by is a fixed point: a name
    [normalizeModelTypeName] returns is returned unchanged for itself, so two
    spellings of one type have one key. *)
Lemma normalizeModelTypeName_fixed_point (type name : string) :
  normalizeModelTypeName type = Some name → normalizeModelTypeName name = Some name.
Proof.
  unfold normalizeModelTypeName. intros (mt & Hmt & H)%bind_Some.
  apply try_option_Some, create_Ok in Hmt as [Hn _].
  case_bools; simplify_eq. split_bools.
  rewrite create_normal by auto with swamp. simpl.
  destruct (stripAtSlash_head (normalized mt)). rewrite stripAtSlash_id by done.
  by rewrite bool_decide_eq_false_2.
Qed.

Lemma normalizeModelTypeName_fixed_point_witness :
  normalizeModelTypeName " @Swamp::Grant" = Some "swamp/grant" ∧
  normalizeModelTypeName "swamp/grant" = Some "swamp/grant".
Proof.
  assert (H : normalizeModelTypeName " @Swamp::Grant" = Some "swamp/grant")
    by (vm_compute; reflexivity).
  split; [exact H|]. exact (normalizeModelTypeName_fixed_point _ _ H).
Defined.

(** Every stored spelling of a control-plane type is recognised. *)
Example stored_types_are_control_plane :
  forallb isControlPlaneModelType CONTROL_PLANE_STORED_TYPES = true.
Proof. vm_compute. reflexivity. Qed.

End ModelType.
