(* ===== verification/PartitionKey.v ===== *)
(** * Partition keys

    [src/src/domain/datastore_v3/partition_key.ts]: the commit log of the
    third datastore generation is one log per aggregate, and a partition key
    names the aggregate in one line of text. An identity is built from an
    aggregate ([partitionOf]) or read back from the text ([parse]); segments
    that are free text are percent-encoded, ids are lowercase UUIDs.

    The theorem shows that [parse] accepts exactly the texts [partitionOf]
    makes and gives back the same key, so two aggregates never share a log. *)

From Stdlib Require Import Ascii.
From S2P Require Import Prelude JsString ModelType.

(** ** The URI functions of the language, on 8-bit code units *)

(** the characters [encodeURIComponent] leaves: letters, digits, -_.!~*'() *)
Definition uriUnreserved (c : ascii) : bool :=
  in_range 65 90 c || in_range 97 122 c || isDigit c || in_range 45 46 c ||
  in_range 95 95 c || in_range 33 33 c || in_range 126 126 c || in_range 39 42 c.

Definition upperHexDigit (n : Z) : ascii :=
  if (n <? 10)%Z then ascii_of_nat (Z.to_nat (48 + n)) else ascii_of_nat (Z.to_nat (55 + n)).

(** one byte as [%XX] *)
Definition percentByte (b : Z) : string :=
  String "%" (String (upperHexDigit (b / 16)) (String (upperHexDigit (b mod 16)) "")).

(** one code unit: itself, one byte, or the two bytes UTF-8 gives it *)
Definition encodeURIChar (c : ascii) : string :=
  if uriUnreserved c then String c ""
  else if (code c <? 128)%Z then percentByte (code c)
  else percentByte (192 + code c / 64) +:+ percentByte (128 + code c mod 64).

Fixpoint encodeURIComponent (s : string) : string :=
  match s with
  | EmptyString => EmptyString
  | String c s => encodeURIChar c +:+ encodeURIComponent s
  end.

Definition hexValue (c : ascii) : option Z :=
  if isDigit c then Some (code c - 48)%Z
  else if in_range 65 70 c then Some (code c - 55)%Z
  else if in_range 97 102 c then Some (code c - 87)%Z
  else None.

Definition byteOf (h l : ascii) : option Z :=
  a ← hexValue h; b ← hexValue l; Some (a * 16 + b)%Z.

Definition chr (z : Z) : ascii := ascii_of_nat (Z.to_nat z).

(** [decodeURIComponent], [None] where it throws a [URIError] or where the
    decoded text has a code unit above 255 *)
Fixpoint decodeURIComponent (s : string) : option string :=
  match s with
  | EmptyString => Some EmptyString
  | String c s' =>
      if Ascii.eqb c "%" then
        match s' with
        | String h (String l r) =>
            b ← byteOf h l;
            if (b <? 128)%Z then String (chr b) <$> decodeURIComponent r
            else
              match r with
              | String p (String h' (String l' r')) =>
                  if negb (Ascii.eqb p "%") then None
                  else
                    b' ← byteOf h' l';
                    if ((194 <=? b) && (b <=? 195) && (128 <=? b') && (b' <=? 191))%Z
                    then String (chr ((b - 192) * 64 + (b' - 128))) <$> decodeURIComponent r'
                    else None
              | _ => None
              end
        | _ => None
        end
      else String c <$> decodeURIComponent s'
  end.

(** [s.replaceAll("%40", "@")] *)
Fixpoint replaceEncodedAt (s : string) : string :=
  match s with
  | EmptyString => EmptyString
  | String c s' =>
      if Ascii.eqb c "%" then
        match s' with
        | String d (String e r) =>
            if Ascii.eqb d "4" && Ascii.eqb e "0" then String "@" (replaceEncodedAt r)
            else String c (replaceEncodedAt s')
        | _ => String c (replaceEncodedAt s')
        end
      else String c (replaceEncodedAt s')
  end.

(** [s.lastIndexOf("--")], [None] standing for -1 *)
Fixpoint lastIndexOfDashes (s : string) : option nat :=
  match s with
  | EmptyString => None
  | String c s' =>
      match lastIndexOfDashes s' with
      | Some n => Some (S n)
      | None =>
          match s' with
          | String d _ => if Ascii.eqb c "-" && Ascii.eqb d "-" then Some 0 else None
          | EmptyString => None
          end
      end
  end.

Module PartitionKey.
Import ModelType.

(** ** Identities *)

Inductive DefinitionKind := DkModel | DkWorkflow | DkVault.

#[global] Instance DefinitionKind_eq_dec : EqDecision DefinitionKind.
Proof. solve_decision. Defined.

Definition DefinitionKind_toString (k : DefinitionKind) : string :=
  match k with DkModel => "model" | DkWorkflow => "workflow" | DkVault => "vault" end.

Definition DEFINITION_KINDS : list DefinitionKind := [DkModel; DkWorkflow; DkVault].

Definition LOCKFILE_NAME : string := "upstream_extensions".

Definition MAX_PARTITION_KEY_LENGTH : Z := 1024.

Inductive AggregateIdentity :=
| AgModel (type : ModelType.t) (id : string)
| AgRun (workflowId runId : string)
| AgConfig (definitionKind : DefinitionKind) (name : string)
| AgLockfile
| AgDefinition (id : string).

Inductive PartitionIdentity :=
| PkModel (type id : string)
| PkRun (workflowId runId : string)
| PkConfig (definitionKind : DefinitionKind) (name : string)
| PkLockfile
| PkDefinition (id : string).

#[global] Instance PartitionIdentity_eq_dec : EqDecision PartitionIdentity.
Proof. solve_decision. Defined.

Record t := Mk { value : string; identity : PartitionIdentity }.

#[global] Instance t_eq_dec : EqDecision t.
Proof. solve_decision. Defined.

Definition equals (a b : t) : bool := bool_decide (value a = value b).

(** ** UUIDs *)

(** [[0-9a-f]] *)
Definition isLowerHex (c : ascii) : bool := isDigit c || in_range 97 102 c.

(** the regular expression, a character at a time: [true] stands for a hyphen *)
Definition uuidShape : list bool :=
  replicate 8 false ++ [true] ++ replicate 4 false ++ [true] ++ replicate 4 false ++ [true] ++
  replicate 4 false ++ [true] ++ replicate 12 false.

Fixpoint matchesShape (shape : list bool) (s : string) : bool :=
  match shape, s with
  | [], EmptyString => true
  | dash :: shape, String c s =>
      (if dash : bool then Ascii.eqb c "-" else isLowerHex c) && matchesShape shape s
  | _, _ => false
  end.

Definition UUID (id : string) : bool := matchesShape uuidShape id.

Definition UUID_LENGTH : nat := 36.

Definition requireUuid (id label : string) : result () :=
  throw_if (negb (UUID id)) ("A partition " +:+ label +:+ " must be a UUID: " +:+ id).

Definition canonicalUuid (id label : string) : result string :=
  let lowered := toLowerCase id in
  _ ← requireUuid lowered label;
  Ok lowered.

Definition requireName (name : string) : result () :=
  throw_if (bool_decide (name = "")) "A config partition needs a non-empty name".

(** ** Segments *)

Definition encodeSegment (segment : string) : string :=
  replaceEncodedAt (encodeURIComponent segment).

Definition decodeSegment (segment key : string) : result string :=
  match decodeURIComponent segment with
  | None => Throw ("Partition key is not validly percent-encoded: " +:+ key)
  | Some decoded =>
      _ ← throw_if (negb (bool_decide (encodeSegment decoded = segment)))
            ("Partition key is not canonically encoded: " +:+ key);
      Ok decoded
  end.

(** ** Building and reading a key *)

Definition format (identity : PartitionIdentity) : string :=
  match identity with
  | PkModel type id => "model--" +:+ encodeSegment type +:+ "--" +:+ id
  | PkRun workflowId runId => "run--" +:+ workflowId +:+ "--" +:+ runId
  | PkConfig definitionKind name =>
      "config--" +:+ DefinitionKind_toString definitionKind +:+ "--" +:+ encodeSegment name
  | PkLockfile => "config--lockfile--" +:+ LOCKFILE_NAME
  | PkDefinition id => "definition--" +:+ id
  end.

Definition fromIdentity (identity : PartitionIdentity) : result t :=
  let value := format identity in
  _ ← throw_if (MAX_PARTITION_KEY_LENGTH <? Z.of_nat (String.length value))%Z
        "Partition key is longer than 1024 characters";
  Ok (Mk value identity).

Definition partitionOf (identity : AggregateIdentity) : result t :=
  match identity with
  | AgModel type id =>
      id' ← canonicalUuid id "model id";
      fromIdentity (PkModel (normalized type) id')
  | AgRun workflowId runId =>
      workflowId' ← canonicalUuid workflowId "workflow id";
      runId' ← canonicalUuid runId "run id";
      fromIdentity (PkRun workflowId' runId')
  | AgConfig definitionKind name =>
      _ ← requireName name;
      fromIdentity (PkConfig definitionKind name)
  | AgLockfile => fromIdentity PkLockfile
  | AgDefinition id =>
      id' ← canonicalUuid id "auto-definition id";
      fromIdentity (PkDefinition id')
  end.

Definition runPartitionsPrefix (workflowId : string) : result string :=
  workflowId' ← canonicalUuid workflowId "workflow id";
  Ok ("run--" +:+ workflowId' +:+ "--").

(** the loop over [DEFINITION_KINDS] *)
Fixpoint parseConfig (kinds : list DefinitionKind) (rest value : string)
    : result PartitionIdentity :=
  match kinds with
  | [] => Throw ("Malformed config partition key: " +:+ value)
  | definitionKind :: kinds =>
      let prefix := DefinitionKind_toString definitionKind +:+ "--" in
      if startsWith rest prefix then
        name ← decodeSegment (str_drop (String.length prefix) rest) value;
        _ ← requireName name;
        Ok (PkConfig definitionKind name)
      else parseConfig kinds rest value
  end.

Definition parseModel (value : string) : result PartitionIdentity :=
  let rest := str_drop (String.length "model--") value in
  match lastIndexOfDashes rest with
  | None | Some 0 => Throw ("Malformed model partition key: " +:+ value)
  | Some at_ =>
      type ← decodeSegment (str_take at_ rest) value;
      let id := str_drop (at_ + 2) rest in
      _ ← requireUuid id "model id";
      match create type with
      | Throw _ => Throw ("Malformed model partition key: " +:+ value)
      | Ok mt =>
          _ ← throw_if (negb (bool_decide (normalized mt = type)))
                ("Partition key holds a model type that is not normalized: " +:+ value);
          Ok (PkModel type id)
      end
  end.

Definition parseRun (value : string) : result PartitionIdentity :=
  let rest := str_drop (String.length "run--") value in
  _ ← throw_if (negb (bool_decide (String.length rest = UUID_LENGTH * 2 + 2)) ||
                negb (bool_decide (str_take 2 (str_drop UUID_LENGTH rest) = "--")))
        ("Malformed run partition key: " +:+ value);
  let workflowId := str_take UUID_LENGTH rest in
  let runId := str_drop (UUID_LENGTH + 2) rest in
  _ ← requireUuid workflowId "workflow id";
  _ ← requireUuid runId "run id";
  Ok (PkRun workflowId runId).

Definition parseIdentity (value : string) : result PartitionIdentity :=
  if startsWith value "model--" then parseModel value
  else if startsWith value "run--" then parseRun value
  else if bool_decide (value = "config--lockfile--" +:+ LOCKFILE_NAME) then Ok PkLockfile
  else if startsWith value "config--" then
    parseConfig DEFINITION_KINDS (str_drop (String.length "config--") value) value
  else if startsWith value "definition--" then
    let id := str_drop (String.length "definition--") value in
    _ ← requireUuid id "auto-definition id";
    Ok (PkDefinition id)
  else Throw ("Unknown partition key kind: " +:+ value).

Definition parse (v : string) : result t :=
  identity ← parseIdentity v;
  key ← fromIdentity identity;
  _ ← throw_if (negb (bool_decide (value key = v)))
        ("Partition key is not canonical: " +:+ v);
  Ok key.

(** ** Segments are read back *)

(** what one character of a segment becomes *)
Definition encodeSegmentChar (c : ascii) : string :=
  if Ascii.eqb c "@" then "@" else encodeURIChar c.

Lemma replaceEncodedAt_char c r :
  replaceEncodedAt (encodeURIChar c +:+ r) = encodeSegmentChar c +:+ replaceEncodedAt r.
Proof. by destruct c as [[] [] [] [] [] [] [] []]. Qed.

Lemma encodeSegment_cons c s :
  encodeSegment (String c s) = encodeSegmentChar c +:+ encodeSegment s.
Proof. unfold encodeSegment. cbn [encodeURIComponent]. apply replaceEncodedAt_char. Qed.

Lemma decode_char c r :
  decodeURIComponent (encodeSegmentChar c +:+ r) = String c <$> decodeURIComponent r.
Proof. by destruct c as [[] [] [] [] [] [] [] []]. Qed.

Lemma decode_encodeSegment s : decodeURIComponent (encodeSegment s) = Some s.
Proof.
  induction s as [|c s IH]; [done|]. by rewrite encodeSegment_cons, decode_char, IH.
Qed.

Lemma decodeSegment_encode s key : decodeSegment (encodeSegment s) key = Ok s.
Proof.
  unfold decodeSegment. rewrite decode_encodeSegment.
  by rewrite bool_decide_eq_true_2.
Qed.

Lemma decodeSegment_ok segment key s :
  decodeSegment segment key = Ok s → segment = encodeSegment s.
Proof.
  unfold decodeSegment. destruct (decodeURIComponent segment) as [d|]; [|done].
  intros (? & H & [= ->])%result_bind_ok. apply throw_if_ok in H. by split_bools.
Qed.

Lemma encodeSegment_nonempty s : s ≠ "" → encodeSegment s ≠ "".
Proof.
  intros Hs E. pose proof (decode_encodeSegment s) as H. rewrite E in H. by simplify_eq/=.
Qed.

(** ** UUIDs and hyphens *)

Fixpoint dashesApart (shape : list bool) : bool :=
  match shape with
  | d :: ((d' :: _) as shape') => negb (d && d') && dashesApart shape'
  | _ => true
  end.

Lemma isLowerHex_dash c : isLowerHex c = true → Ascii.eqb c "-" = false.
Proof.
  pose proof (forall_ascii (λ c, implb (isLowerHex c) (negb (Ascii.eqb c "-")))
    ltac:(vm_compute; reflexivity) c) as H. cbv beta in H.
  intros Hc. rewrite Hc in H. by apply negb_true_iff.
Qed.

Lemma matchesShape_dashes shape s :
  matchesShape shape s = true → dashesApart shape = true → lastIndexOfDashes s = None.
Proof.
  revert s. induction shape as [|d shape IH]; intros [|c s]; try done.
  cbn [matchesShape lastIndexOfDashes]. intros [Hc Hs]%andb_true_iff Hd.
  assert (dashesApart shape = true) as Hd' by (destruct shape; [done|]; simpl in Hd; by split_bools).
  rewrite (IH s) by done. destruct s as [|c' s], shape as [|d' shape]; try done.
  simpl in Hs, Hd. split_bools. destruct d, d'; try done;
    repeat match goal with H : isLowerHex _ = true |- _ => apply isLowerHex_dash in H as -> end;
    by rewrite ?andb_false_r.
Qed.

Lemma UUID_dashes id : UUID id = true → lastIndexOfDashes id = None.
Proof. intros H. by eapply matchesShape_dashes. Qed.

Lemma matchesShape_length shape s :
  matchesShape shape s = true → String.length s = length shape.
Proof.
  revert s. induction shape as [|d shape IH]; intros [|c s]; try done.
  simpl. intros [_ ?]%andb_true_iff. f_equal. auto.
Qed.

Lemma UUID_length id : UUID id = true → String.length id = UUID_LENGTH.
Proof. intros H. by apply matchesShape_length in H. Qed.

Lemma UUID_head id : UUID id = true → headIs "-" id = false.
Proof.
  destruct id as [|c id]; [done|]. unfold UUID. intros H.
  assert (isLowerHex c = true) as Hc%isLowerHex_dash by (simpl in H; by split_bools).
  simpl. by rewrite Ascii.eqb_sym.
Qed.

Lemma isLowerHex_lower c : isLowerHex c = true → lower c = c.
Proof.
  pose proof (forall_ascii (λ c, implb (isLowerHex c) (Ascii.eqb (lower c) c))
    ltac:(vm_compute; reflexivity) c) as H. cbv beta in H.
  intros Hc. rewrite Hc in H. by apply ascii_eqb_true.
Qed.

Lemma matchesShape_lower shape s : matchesShape shape s = true → toLowerCase s = s.
Proof.
  unfold toLowerCase. revert s. induction shape as [|d shape IH]; intros [|c s]; try done.
  simpl. intros [Hc Hs]%andb_true_iff. rewrite (IH s) by done. f_equal.
  destruct d; [by apply ascii_eqb_true in Hc as ->|by apply isLowerHex_lower].
Qed.

Lemma canonicalUuid_ok id label u :
  canonicalUuid id label = Ok u ↔ u = toLowerCase id ∧ UUID u = true.
Proof.
  unfold canonicalUuid, requireUuid. rewrite result_bind_ok. setoid_rewrite throw_if_ok.
  setoid_rewrite negb_false_iff. split; [by intros ([] & ? & [= <-])|].
  intros [-> ?]. by exists tt.
Qed.

Lemma canonicalUuid_id id label : UUID id = true → canonicalUuid id label = Ok id.
Proof. intros H. apply canonicalUuid_ok. by rewrite (matchesShape_lower uuidShape). Qed.

(** The last pair of hyphens of [a--id] is the separator. *)
Lemma lastIndexOfDashes_app a id :
  lastIndexOfDashes id = None → headIs "-" id = false →
  lastIndexOfDashes (a +:+ "--" +:+ id) = Some (String.length a).
Proof.
  intros Hid Hh. induction a as [|c a IH].
  - simpl in *. rewrite Hid. destruct id as [|d id]; [done|].
    simpl in Hh. by rewrite Ascii.eqb_sym, Hh.
  - change (String c a +:+ "--" +:+ id) with (String c (a +:+ "--" +:+ id)).
    cbn [lastIndexOfDashes]. by rewrite IH.
Qed.

(** ** Reading back *)

Lemma startsWith_drop s p : startsWith s p = true → s = p +:+ str_drop (String.length p) s.
Proof.
  intros [r ->]%startsWith_spec. f_equal. induction p as [|c p IH]; [by destruct r|done].
Qed.

Lemma str_drop_length_app p s : str_drop (String.length p) (p +:+ s) = s.
Proof. induction p as [|c p IH]; [by destruct s|done]. Qed.

Lemma str_drop_plus p n s : str_drop (String.length p + n) (p +:+ s) = str_drop n s.
Proof. by induction p. Qed.

Lemma str_take_drop n s : str_take n s +:+ str_drop n s = s.
Proof. revert s. induction n as [|n IH]; intros [|c s]; simpl; [done..|]. by rewrite IH. Qed.

Lemma str_drop_drop m n s : str_drop m (str_drop n s) = str_drop (n + m) s.
Proof.
  revert s. induction n as [|n IH]; intros [|c s]; simpl; [done| |by destruct m|apply IH].
  done.
Qed.

Lemma lastIndexOfDashes_split s n :
  lastIndexOfDashes s = Some n → s = str_take n s +:+ "--" +:+ str_drop (n + 2) s.
Proof.
  revert n. induction s as [|c s IH]; intros n; [done|]. cbn [lastIndexOfDashes].
  destruct (lastIndexOfDashes s) as [m|] eqn:E.
  - intros [= <-]. simpl. f_equal. by apply IH.
  - destruct s as [|d s]; [done|]. destruct (Ascii.eqb c "-" && Ascii.eqb d "-") eqn:Hd; [|done].
    split_bools. repeat match goal with H : Ascii.eqb _ _ = true |- _ => apply ascii_eqb_true in H as -> end.
    by intros [= <-].
Qed.

Lemma UUID_take w x : UUID w = true → str_take UUID_LENGTH (w +:+ x) = w.
Proof. intros <-%UUID_length. apply str_take_app. Qed.

Lemma UUID_drop w n x : UUID w = true → str_drop (UUID_LENGTH + n) (w +:+ x) = str_drop n x.
Proof. intros <-%UUID_length. apply str_drop_plus. Qed.

(** the identities a key can have *)
Definition validIdentity (i : PartitionIdentity) : Prop :=
  match i with
  | PkModel type id => normal type ∧ type ≠ "" ∧ UUID id = true
  | PkRun workflowId runId => UUID workflowId = true ∧ UUID runId = true
  | PkConfig _ name => name ≠ ""
  | PkLockfile => True
  | PkDefinition id => UUID id = true
  end.

Lemma parseIdentity_format i : validIdentity i → parseIdentity (format i) = Ok i.
Proof.
  destruct i as [type id|w r|k name| |id]; cbn [validIdentity format].
  - intros (Hn & Hne & Hid). unfold parseIdentity. rewrite startsWith_app.
    unfold parseModel. rewrite str_drop_length_app.
    rewrite lastIndexOfDashes_app by auto using UUID_dashes, UUID_head.
    destruct (String.length (encodeSegment type)) as [|n] eqn:Hl.
    { apply encodeSegment_nonempty in Hne. by destruct (encodeSegment type). }
    rewrite <-Hl, str_take_app, str_drop_plus, decodeSegment_encode. cbn.
    change (str_drop 0 id) with id.
    unfold requireUuid. rewrite Hid, create_normal by done. cbn. by rewrite bool_decide_eq_true_2.
  - intros [Hw Hr]. unfold parseIdentity. rewrite (startsWith_app "run--").
    change (startsWith _ "model--") with false. unfold parseRun.
    rewrite str_drop_length_app, !str_length_app, UUID_take by done.
    rewrite (UUID_length w), (UUID_length r), UUID_drop by done.
    pose proof (UUID_drop w 0 ("--" +:+ r) Hw) as E. rewrite Nat.add_0_r in E. rewrite E.
    change (str_drop 2 _) with r. unfold requireUuid. by rewrite Hw, Hr.
  - intros Hn. destruct k; cbn; rewrite decodeSegment_encode; cbn; unfold requireName;
      rewrite !bool_decide_eq_false_2 by done; by destruct (encodeSegment name).
  - done.
  - intros Hid. cbn. rewrite bool_decide_eq_false_2 by done. unfold requireUuid. rewrite Hid.
    by destruct id.
Qed.

Lemma requireUuid_ok id label u : requireUuid id label = Ok u → UUID id = true.
Proof. unfold requireUuid. rewrite throw_if_ok. by intros ?%negb_false_iff. Qed.

Lemma requireName_ok name u : requireName name = Ok u → name ≠ "".
Proof. unfold requireName. rewrite throw_if_ok. by intros ?%bool_decide_eq_false. Qed.

Lemma parseModel_ok v i : parseModel v = Ok i → validIdentity i.
Proof.
  unfold parseModel. destruct (lastIndexOfDashes _) as [[|n]|]; [done| |done].
  intros (type & _ & H)%result_bind_ok. apply result_bind_ok in H as ([] & Hid & H).
  destruct (create type) as [mt|] eqn:Hc; [|done].
  apply result_bind_ok in H as ([] & Hn & [= <-]). apply throw_if_ok in Hn. split_bools.
  apply create_Ok in Hc as [? ?]. subst type. split_and!; eauto using requireUuid_ok.
Qed.

Lemma parseRun_ok v i : parseRun v = Ok i → validIdentity i.
Proof.
  unfold parseRun. intros ([] & _ & H)%result_bind_ok.
  apply result_bind_ok in H as ([] & ? & H). apply result_bind_ok in H as ([] & ? & [= <-]).
  split; eauto using requireUuid_ok.
Qed.

Lemma parseConfig_ok kinds rest v i : parseConfig kinds rest v = Ok i → validIdentity i.
Proof.
  induction kinds as [|k kinds IH]; cbn [parseConfig]; [done|].
  destruct (startsWith _ _); [|done]. intros (name & _ & H)%result_bind_ok.
  apply result_bind_ok in H as ([] & ? & [= <-]). by eapply requireName_ok.
Qed.

Lemma parseIdentity_ok v i : parseIdentity v = Ok i → validIdentity i.
Proof.
  unfold parseIdentity. case_bools; eauto using parseModel_ok, parseRun_ok, parseConfig_ok.
  - by intros [= <-].
  - intros ([] & ? & [= <-])%result_bind_ok. by eapply requireUuid_ok.
  - done.
Qed.

Lemma fromIdentity_ok i k :
  fromIdentity i = Ok k ↔
  k = Mk (format i) i ∧ (Z.of_nat (String.length (format i)) ≤ MAX_PARTITION_KEY_LENGTH)%Z.
Proof.
  unfold fromIdentity. rewrite result_bind_ok. setoid_rewrite throw_if_ok.
  setoid_rewrite Z.ltb_ge. split; [by intros ([] & ? & [= <-])|]. intros [-> ?]. by exists tt.
Qed.

(** an aggregate whose model type was made by [ModelType.create], the only
    public constructor of the class *)
Definition wellTyped (a : AggregateIdentity) : Prop :=
  match a with AgModel type _ => ∃ raw, create raw = Ok type | _ => True end.

(** The keys [partitionOf] makes are those of the valid identities. *)
Lemma partitionOf_spec k :
  (∃ a, wellTyped a ∧ partitionOf a = Ok k) ↔
  ∃ i, validIdentity i ∧ fromIdentity i = Ok k.
Proof.
  split.
  - intros (a & Ha & HP). destruct a as [type id|w r|dk name| |id]; cbn in *.
    + destruct Ha as [raw Hraw%create_Ok]. apply result_bind_ok in HP as (u & [_ ?]%canonicalUuid_ok & ?).
      exists (PkModel (normalized type) u). split; [|done]. by destruct Hraw.
    + apply result_bind_ok in HP as (u & [_ ?]%canonicalUuid_ok & HP).
      apply result_bind_ok in HP as (u' & [_ ?]%canonicalUuid_ok & ?). by exists (PkRun u u').
    + apply result_bind_ok in HP as (? & ?%requireName_ok & ?). by exists (PkConfig dk name).
    + by exists PkLockfile.
    + apply result_bind_ok in HP as (u & [_ ?]%canonicalUuid_ok & ?). by exists (PkDefinition u).
  - intros (i & Hi & H). destruct i as [type id|w r|dk name| |id]; cbn in Hi.
    + destruct Hi as (? & ? & ?). exists (AgModel (ModelType.Mk type type) id). split.
      * exists type. by apply create_normal.
      * cbn. by rewrite canonicalUuid_id.
    + exists (AgRun w r). destruct Hi. split; [done|]. cbn. by rewrite !canonicalUuid_id.
    + exists (AgConfig dk name). split; [done|]. cbn. unfold requireName.
      by rewrite bool_decide_eq_false_2.
    + by exists AgLockfile.
    + exists (AgDefinition id). split; [done|]. cbn. by rewrite canonicalUuid_id.
Qed.

(** the text of a key that was made is read back *)
Lemma parse_made i k : validIdentity i → fromIdentity i = Ok k → parse (value k) = Ok k.
Proof.
  intros Hi Hk. pose proof Hk as [-> ?]%fromIdentity_ok. unfold parse. cbn.
  rewrite parseIdentity_format by done. cbn. rewrite Hk. cbn. by rewrite bool_decide_eq_true_2.
Qed.

Lemma parse_ok v k : parse v = Ok k → value k = v ∧ ∃ i, validIdentity i ∧ fromIdentity i = Ok k.
Proof.
  unfold parse. intros (i & Hi%parseIdentity_ok & H)%result_bind_ok.
  apply result_bind_ok in H as (k' & Hk & H). apply result_bind_ok in H as (? & H & [= ->]).
  apply throw_if_ok in H. split_bools. eauto.
Qed.

(** [parse] is the exact inverse of building a key: it accepts a text
    just when the text is the value of a key that [partitionOf] makes for some
    aggregate, and returns that key, identity included. *)
Lemma parse_reads_exactly_the_built_keys (v : string) (k : t) :
  parse v = Ok k ↔ value k = v ∧ ∃ a, wellTyped a ∧ partitionOf a = Ok k.
Proof.
  rewrite partitionOf_spec. split; [apply parse_ok|].
  intros (<- & i & Hi & Hk). by eapply parse_made.
Qed.

(** Two aggregates share a log only if they have the same identity: the
    text of a key determines the kind, the normal form of the type, the
    names and the ids it was made from. *)
Lemma partition_keys_are_injective (a b : AggregateIdentity) (ka kb : t) :
  wellTyped a → wellTyped b → partitionOf a = Ok ka → partitionOf b = Ok kb →
  equals ka kb = bool_decide (identity ka = identity kb).
Proof.
  intros Ha Hb Hka Hkb. unfold equals.
  destruct (proj1 (partitionOf_spec ka)) as (i & Hi & Ei%fromIdentity_ok); [eauto|].
  destruct (proj1 (partitionOf_spec kb)) as (j & Hj & Ej%fromIdentity_ok); [eauto|].
  destruct Ei as [-> _], Ej as [-> _]. cbn. apply bool_decide_ext. split; [|by intros ->].
  intros E%(f_equal parseIdentity). rewrite !parseIdentity_format in E by done. by simplify_eq.
Qed.

Definition sampleUuid : string := "0b7e4a52-93c1-4d2f-8e66-1fa2b3c4d5e6".

Lemma partition_keys_are_injective_witness :
  ∃ ka kb, partitionOf (AgConfig DkVault "a-b/c") = Ok ka ∧
    partitionOf (AgConfig DkVault "a/b-c") = Ok kb ∧
    equals ka kb = bool_decide (identity ka = identity kb) ∧ equals ka kb = false.
Proof.
  eexists _, _. split; [vm_compute; reflexivity|]. split; [vm_compute; reflexivity|].
  split; [|vm_compute; reflexivity].
  eapply (partition_keys_are_injective (AgConfig DkVault "a-b/c") (AgConfig DkVault "a/b-c"));
    [exact I|exact I|vm_compute; reflexivity|vm_compute; reflexivity].
Defined.

(** a model type in any spelling, and an id in any case, reach one key *)
Example model_key_of_any_spelling :
  (mt ← create "AWS::EC2.Instance";
   k ← partitionOf (AgModel mt "0B7E4A52-93C1-4D2F-8E66-1FA2B3C4D5E6");
   Ok (value k)) = Ok ("model--aws%2Fec2%2Finstance--" +:+ sampleUuid).
Proof. vm_compute. reflexivity. Qed.

End PartitionKey.
