(* ===== verification/DataMetadata.v ===== *)
(** * Data metadata

    [src/src/domain/data/data_metadata.ts] and [duration.ts]: the schema of
    the metadata of a data version, lifetimes and garbage-collection policies,
    and the forms both have in a catalog column. A value of type [unknown] is
    read in two steps, the types of its fields and then the checks on them;
    the checks of the schema library on the text of UUIDs and instants are the
    parameters [isUuid] and [isDatetime]. *)

From Stdlib Require Import Ascii.
From S2P Require Import Prelude JsString.
Local Open Scope Z_scope.

Module DataMetadata.

(** ** Durations *)

(** [s.match(/^(\d+)(mo|y|h|m|d|w)$/)]: the digits and the unit *)
Fixpoint spanDigits (s : string) : string * string :=
  match s with
  | String c s' =>
      if isDigit c then let '(d, u) := spanDigits s' in (String c d, u) else ("", s)
  | EmptyString => ("", "")
  end.

Definition DURATION_UNITS : list string := ["mo"; "y"; "h"; "m"; "d"; "w"].

Definition matchDuration (s : string) : option (Z * string) :=
  let '(digits, unit) := spanDigits s in
  if negb (bool_decide (digits = "")) && bool_decide (unit ∈ DURATION_UNITS)
  then Some (digits_value 0 digits, unit) else None.

Definition unitMs (value : Z) (unit : string) : option Z :=
  if bool_decide (unit = "mo") then Some (value * 30 * 24 * 60 * 60 * 1000)
  else if bool_decide (unit = "y") then Some (value * 365 * 24 * 60 * 60 * 1000)
  else if bool_decide (unit = "h") then Some (value * 60 * 60 * 1000)
  else if bool_decide (unit = "m") then Some (value * 60 * 1000)
  else if bool_decide (unit = "d") then Some (value * 24 * 60 * 60 * 1000)
  else if bool_decide (unit = "w") then Some (value * 7 * 24 * 60 * 60 * 1000)
  else None.

Definition lifetimeToMs (lifetime : string) : option Z :=
  '(value, unit) ← matchDuration lifetime; unitMs value unit.

Definition parseDataDuration (duration : string) : result Z :=
  match matchDuration duration with
  | None => Throw ("Invalid duration format: " +:+ duration)
  | Some (value, unit) =>
      match unitMs value unit with
      | Some ms => Ok ms
      | None => Throw ("Unknown duration unit: " +:+ unit)
      end
  end.

Definition isDuration (s : string) : bool := bool_decide (is_Some (matchDuration s)).

Definition positiveDuration (s : string) : bool :=
  match matchDuration s with Some (value, _) => 0 <? value | None => false end.

Definition LifetimeSchema (s : string) : bool :=
  isDuration s || bool_decide (s ∈ ["ephemeral"; "infinite"; "job"; "workflow"]).

Definition OutputLifetimeSchema (s : string) : bool :=
  positiveDuration s || bool_decide (s = "infinite").

Definition normalizeLifetime (lifetime : string) : string :=
  match matchDuration lifetime with
  | Some (value, _) => if value =? 0 then "workflow" else lifetime
  | None => lifetime
  end.

(** ** Garbage-collection policies *)

Inductive GarbageCollectionPolicy := GcVersions (n : Z) | GcDuration (s : string).

#[global] Instance GarbageCollectionPolicy_eq_dec : EqDecision GarbageCollectionPolicy.
Proof. solve_decision. Defined.

Definition GarbageCollectionSchema (policy : GarbageCollectionPolicy) : bool :=
  match policy with
  | GcVersions n => isSafeInteger n && (0 <? n)
  | GcDuration s => positiveDuration s
  end.

Definition garbageCollectionToColumn (policy : GarbageCollectionPolicy) : string :=
  match policy with GcVersions n => pretty n | GcDuration s => s end.

Definition garbageCollectionFromColumn (column : string) : GarbageCollectionPolicy :=
  if negb (bool_decide (column = "")) && all_chars isDigit column
  then GcVersions (digits_value 0 column) else GcDuration column.

(** ** Lifecycles and owners *)

Definition DataLifecycleSchema (s : string) : bool := bool_decide (s ∈ ["active"; "deleted"]).

Definition lifecycleFromColumn (column : string) : string :=
  if DataLifecycleSchema column then column else "".

Definition BEHAVIOR_OWNER_TYPE : string := "behavior-method".
Definition MODEL_OWNER_TYPE : string := "model-method".

Definition OwnerTypes : list string := ["model-method"; "workflow-step"; "manual"].

Definition canonicalOwnerType (ownerType : string) : string :=
  if bool_decide (ownerType = BEHAVIOR_OWNER_TYPE) then MODEL_OWNER_TYPE else ownerType.

Record OwnerDefinition := MkOwnerDefinition {
  definitionHash : option string;
  ownerType : string;
  ownerRef : string;
  od_workflowId : option string;
  workflowRunId : option string;
  od_workflowName : option string;
  jobName : option string;
  stepName : option string;
  source : option string;
}.

#[global] Instance OwnerDefinition_eq_dec : EqDecision OwnerDefinition.
Proof. solve_decision. Defined.

Record t := Mk {
  name : string;
  id : string;
  version : Z;
  contentType : string;
  lifetime : string;
  garbageCollection : GarbageCollectionPolicy;
  streaming : bool;
  tags : list (string * string);
  ownerDefinition : OwnerDefinition;
  createdAt : string;
  size : option Z;
  checksum : option string;
  lifecycle : option string;
  renamedTo : option string;
}.

#[global] Instance t_eq_dec : EqDecision t.
Proof. solve_decision. Defined.

#[global] Instance t_eta : Eta t := λ m,
  Mk (name m) (id m) (version m) (contentType m) (lifetime m) (garbageCollection m)
     (streaming m) (tags m) (ownerDefinition m) (createdAt m) (size m) (checksum m)
     (lifecycle m) (renamedTo m).

(** ** The schema *)

Definition MAX_DATA_TAGS : Z := 10000.

(** the name stays within its directory *)
Definition safeDataName (name : string) : bool :=
  negb (includesPair "." "." name) && negb (includesChar "/" name) &&
  negb (includesChar "\" name) && negb (includesChar (ascii_of_nat 0) name).

Definition readString (key : string) (l : list (string * JsValue)) : option string :=
  field_string key l.

Definition readOptString (key : string) (l : list (string * JsValue)) : option (option string) :=
  match assoc_get key l with
  | None => Some None
  | Some (VStr s) => Some (Some s)
  | Some _ => None
  end.

Definition readNumber (key : string) (l : list (string * JsValue)) : option Z :=
  match assoc_get key l with Some (VNum z) => Some z | _ => None end.

Definition readOptNumber (key : string) (l : list (string * JsValue)) : option (option Z) :=
  match assoc_get key l with
  | None => Some None
  | Some (VNum z) => Some (Some z)
  | Some _ => None
  end.

(** [z.record(z.string(), z.string())] *)
Fixpoint stringEntries (l : list (string * JsValue)) : option (list (string * string)) :=
  match l with
  | [] => Some []
  | (k, VStr v) :: l => rest ← stringEntries l; Some ((k, v) :: rest)
  | _ => None
  end.

(** the types of the fields of an owner *)
Definition readOwner (raw : option JsValue) : option OwnerDefinition :=
  match raw with
  | Some (VObj l) =>
      definitionHash ← readOptString "definitionHash" l;
      ownerType ← readString "ownerType" l;
      ownerRef ← readString "ownerRef" l;
      workflowId ← readOptString "workflowId" l;
      workflowRunId ← readOptString "workflowRunId" l;
      workflowName ← readOptString "workflowName" l;
      jobName ← readOptString "jobName" l;
      stepName ← readOptString "stepName" l;
      source ← readOptString "source" l;
      Some (MkOwnerDefinition definitionHash ownerType ownerRef workflowId workflowRunId
              workflowName jobName stepName source)
  | _ => None
  end.

(** the types of the fields of the metadata; [streaming] has a default *)
Definition readMetadata (raw : JsValue) : option t :=
  match raw with
  | VObj l =>
      name ← readString "name" l;
      id ← readString "id" l;
      version ← readNumber "version" l;
      contentType ← readString "contentType" l;
      lifetime ← readString "lifetime" l;
      garbageCollection ← match assoc_get "garbageCollection" l with
        | Some (VNum n) => Some (GcVersions n)
        | Some (VStr s) => Some (GcDuration s)
        | _ => None
        end;
      streaming ← match assoc_get "streaming" l with
        | None => Some false
        | Some (VBool b) => Some b
        | Some _ => None
        end;
      tags ← match assoc_get "tags" l with
        | Some (VObj entries) => stringEntries entries
        | _ => None
        end;
      ownerDefinition ← readOwner (assoc_get "ownerDefinition" l);
      createdAt ← readString "createdAt" l;
      size ← readOptNumber "size" l;
      checksum ← readOptString "checksum" l;
      lifecycle ← readOptString "lifecycle" l;
      renamedTo ← readOptString "renamedTo" l;
      Some (Mk name id version contentType lifetime garbageCollection streaming tags
              ownerDefinition createdAt size checksum lifecycle renamedTo)
  | _ => None
  end.

Section schema.
Context (isUuid isDatetime : string → bool).

Definition OwnerDefinitionSchema (o : OwnerDefinition) : bool :=
  default true ((λ h, negb (bool_decide (h = ""))) <$> definitionHash o) &&
  bool_decide (ownerType o ∈ OwnerTypes) &&
  negb (bool_decide (ownerRef o = "")) &&
  default true (isUuid <$> od_workflowId o) &&
  default true (isUuid <$> workflowRunId o).

(** the checks on the values of the fields *)
Definition validMetadata (m : t) : bool :=
  negb (bool_decide (name m = "")) && safeDataName (name m) &&
  isUuid (id m) &&
  isSafeInteger (version m) && (0 <? version m) &&
  negb (bool_decide (contentType m = "")) &&
  LifetimeSchema (lifetime m) &&
  GarbageCollectionSchema (garbageCollection m) &&
  (Z.of_nat (length (tags m)) <=? MAX_DATA_TAGS) &&
  bool_decide (is_Some (assoc_get "type" (tags m))) &&
  OwnerDefinitionSchema (ownerDefinition m) &&
  isDatetime (createdAt m) &&
  default true ((λ n, isSafeInteger n && (0 <=? n)) <$> size m) &&
  default true (DataLifecycleSchema <$> lifecycle m) &&
  default true ((λ s, negb (bool_decide (s = ""))) <$> renamedTo m).

(** [DataMetadataSchema.safeParse] *)
Definition parse (raw : JsValue) : option t :=
  m ← readMetadata raw;
  if validMetadata m then Some m else None.

End schema.

(** the metadata as the schema returns it, written as an object *)
Definition ownerToJSON (o : OwnerDefinition) : JsValue :=
  VObj (optField "definitionHash" VStr (definitionHash o) ++
        [("ownerType", VStr (ownerType o)); ("ownerRef", VStr (ownerRef o))] ++
        optField "workflowId" VStr (od_workflowId o) ++
        optField "workflowRunId" VStr (workflowRunId o) ++
        optField "workflowName" VStr (od_workflowName o) ++
        optField "jobName" VStr (jobName o) ++
        optField "stepName" VStr (stepName o) ++
        optField "source" VStr (source o)).

Definition toJSON (m : t) : JsValue :=
  VObj ([("name", VStr (name m)); ("id", VStr (id m)); ("version", VNum (version m));
         ("contentType", VStr (contentType m)); ("lifetime", VStr (lifetime m));
         ("garbageCollection",
           match garbageCollection m with GcVersions n => VNum n | GcDuration s => VStr s end);
         ("streaming", VBool (streaming m));
         ("tags", VObj ((λ '(k, v), (k, VStr v)) <$> tags m));
         ("ownerDefinition", ownerToJSON (ownerDefinition m));
         ("createdAt", VStr (createdAt m))] ++
        optField "size" VNum (size m) ++
        optField "checksum" VStr (checksum m) ++
        optField "lifecycle" VStr (lifecycle m) ++
        optField "renamedTo" VStr (renamedTo m)).

(** ** Facts *)

Lemma stringEntries_toJSON l : stringEntries ((λ '(k, v), (k, VStr v)) <$> l) = Some l.
Proof. induction l as [|[k v] l IH]; [done|]. csimpl. by rewrite IH. Qed.

Lemma readOwner_toJSON o : readOwner (Some (ownerToJSON o)) = Some o.
Proof. destruct o as [[] ? ? [] [] [] [] [] []]; reflexivity. Qed.

Lemma readMetadata_toJSON m : readMetadata (toJSON m) = Some m.
Proof.
  destruct m as [? ? ? ? ? g ? tg o ? sz ck lc rn].
  unfold toJSON. cbn [ownerDefinition tags].
  pose proof (readOwner_toJSON o) as Ho. pose proof (stringEntries_toJSON tg) as Ht.
  revert Ho Ht. generalize (ownerToJSON o), ((λ '(k, v), (k, VStr v)) <$> tg).
  intros jo jt Ho Ht.
  destruct g, sz, ck, lc, rn; cbv -[readOwner stringEntries]; rewrite Ht, Ho; reflexivity.
Qed.

Lemma parse_toJSON isUuid isDatetime m :
  validMetadata isUuid isDatetime m = true → parse isUuid isDatetime (toJSON m) = Some m.
Proof. intros H. unfold parse. rewrite readMetadata_toJSON. cbn. by rewrite H. Qed.

Lemma parse_valid isUuid isDatetime raw m :
  parse isUuid isDatetime raw = Some m → validMetadata isUuid isDatetime m = true.
Proof. unfold parse. intros (m' & _ & H)%bind_Some. by case_bools; simplify_eq. Qed.

Lemma spanDigits_digits d u :
  all_chars isDigit d = true → spanDigits u = ("", u) → spanDigits (d +:+ u) = (d, u).
Proof.
  intros Hd Hu. induction d as [|c d IH]; [done|]. simpl in Hd |- *.
  apply andb_true_iff in Hd as [-> Hd]. by rewrite IH.
Qed.

Lemma spanDigits_all s : all_chars isDigit s = true → spanDigits s = (s, "").
Proof. intros H. by rewrite <-(str_app_nil_r s) at 1; apply spanDigits_digits. Qed.

Lemma digits_value_nonneg acc s :
  0 ≤ acc → all_chars isDigit s = true → 0 ≤ digits_value acc s.
Proof.
  revert acc. induction s as [|c s IH]; intros acc Ha; [done|]. simpl.
  intros [Hc Hs]%andb_true_iff. apply IH; [|done]. unfold isDigit, in_range in Hc. split_bools. lia.
Qed.

Lemma spanDigits_spec s : all_chars isDigit (spanDigits s).1 = true.
Proof.
  induction s as [|c s IH]; [done|]. simpl. destruct (isDigit c) eqn:Hc; [|done].
  destruct (spanDigits s). simpl in *. by rewrite Hc.
Qed.

Lemma matchDuration_Some s value unit :
  matchDuration s = Some (value, unit) → 0 ≤ value ∧ unit ∈ DURATION_UNITS.
Proof.
  unfold matchDuration. pose proof (spanDigits_spec s) as Hd.
  destruct (spanDigits s) as [d u]. case_bools; [|done]. intros [= <- <-]. split_bools.
  split; [by apply digits_value_nonneg|done].
Qed.

(** a unit is at least a minute *)
Lemma unitMs_bound value unit :
  unit ∈ DURATION_UNITS → ∃ ms, unitMs value unit = Some ms ∧ (0 < value → 60000 ≤ ms) ∧
    (value = 0 → ms = 0).
Proof.
  unfold DURATION_UNITS. rewrite !elem_of_cons.
  intros [->|[->|[->|[->|[->|[->|[]%elem_of_nil]]]]]]; cbn; eexists;
    (split; [reflexivity|]; split; lia).
Qed.

(** The two readings of a duration agree, the only failure is a text that
    is not digits and a unit, and a lifetime that has been normalized never
    expires at once: when it is a duration at all it is a minute at least. *)
Lemma normalized_lifetimes_last (lifetime : string) :
  try_option (parseDataDuration lifetime) = lifetimeToMs lifetime ∧
  (lifetimeToMs lifetime = None ↔ isDuration lifetime = false) ∧
  (∀ ms, lifetimeToMs (normalizeLifetime lifetime) = Some ms → 60000 ≤ ms) ∧
  (LifetimeSchema lifetime = true → LifetimeSchema (normalizeLifetime lifetime) = true) ∧
  normalizeLifetime (normalizeLifetime lifetime) = normalizeLifetime lifetime.
Proof.
  unfold parseDataDuration, lifetimeToMs, isDuration, normalizeLifetime.
  destruct (matchDuration lifetime) as [[value unit]|] eqn:Hm; cbn.
  2: { rewrite !Hm. by split_and!. }
  destruct (matchDuration_Some _ _ _ Hm) as [Hv Hu].
  destruct (unitMs_bound value unit Hu) as (ms & Hms & Hpos & Hz). rewrite Hms.
  split; [done|]. split; [done|].
  destruct (Z.eqb_spec value 0) as [->|Hne]; [by split_and!|].
  rewrite Hm. cbn. rewrite Hms. destruct (Z.eqb_spec value 0); [done|].
  split_and!; [|done|done]. intros ? [= <-]. lia.
Qed.

Lemma isDigit_alpha c : isDigit c = true → isLowerAZ c = false.
Proof. by destruct c as [[] [] [] [] [] [] [] []]. Qed.

Lemma all_digits_no_duration s : all_chars isDigit s = true → matchDuration s = None.
Proof.
  intros H. unfold matchDuration. rewrite spanDigits_all by done.
  change (bool_decide ("" ∈ DURATION_UNITS)) with false.
  by rewrite andb_false_r.
Qed.

(** A garbage-collection policy survives its column: the text of a count
    of versions or of a duration is read back as the policy it was written
    for, for every policy the schema accepts. *)
Lemma garbageCollection_column_roundtrip (policy : GarbageCollectionPolicy) :
  GarbageCollectionSchema policy = true →
  garbageCollectionFromColumn (garbageCollectionToColumn policy) = policy.
Proof.
  unfold garbageCollectionFromColumn, garbageCollectionToColumn.
  destruct policy as [n|s]; cbn; intros H.
  - split_bools. destruct (pretty_Z_digits n) as (Hv & Hd & Hne); [lia|].
    rewrite Hd, bool_decide_eq_false_2 by done. cbn. by rewrite Hv.
  - destruct (all_chars isDigit s) eqn:Hd; [|by rewrite andb_false_r].
    unfold positiveDuration in H. by rewrite all_digits_no_duration in H.
Qed.

Lemma garbageCollection_column_roundtrip_witness :
  garbageCollectionFromColumn (garbageCollectionToColumn (GcVersions 120)) = GcVersions 120 ∧
  garbageCollectionToColumn (GcVersions 120) = "120" ∧
  garbageCollectionFromColumn (garbageCollectionToColumn (GcDuration "2w")) = GcDuration "2w".
Proof.
  split_and!.
  - apply (garbageCollection_column_roundtrip (GcVersions 120)). vm_compute. reflexivity.
  - vm_compute. reflexivity.
  - apply (garbageCollection_column_roundtrip (GcDuration "2w")). vm_compute. reflexivity.
Defined.

End DataMetadata.
