(* ===== verification/Intent.v ===== *)
(** * Intents

    [src/src/domain/datastore_v3/intent.ts]: what a change of the datastore
    means. An intent comes from a caller as an object of type [unknown];
    [createIntent] reads the fields its kind takes, each checked, refuses any
    other field, and names the one partition the change belongs to. The server
    authorises on the intent, so the theorem states what an accepted intent is
    sure to be. *)

From Stdlib Require Import Ascii.
From S2P Require Import Prelude JsString ModelType PartitionKey.

Module Intent.
Import ModelType.

(** ** Kinds and shapes *)

Inductive IntentKind :=
| KDataSave | KDataAppend | KDataDelete | KDataGc
| KDataRename | KOutputSave | KOutputDelete | KEvaluatedDefinitionSave
| KEvaluatedDefinitionDelete | KGrantCreate | KGrantRevoke | KGroupCreate
| KGroupUpdate | KTokenCreate | KTokenRevoke | KTokenRotate
| KWorkerTokenCreate | KWorkerTokenRevoke | KWorkerDelete | KRunCreate
| KRunUpdate | KRunDelete | KRunSnapshotSave | KRunSnapshotDelete
| KRunStartSave | KRunStartDelete | KDefinitionCreate | KDefinitionEdit
| KDefinitionDelete | KEvaluatedWorkflowSave | KEvaluatedWorkflowDelete | KDefinitionRenameTo
| KDefinitionRenameFrom | KAutoDefinitionSave | KAutoDefinitionDelete | KLockfileWrite.

#[global] Instance IntentKind_eq_dec : EqDecision IntentKind.
Proof. solve_decision. Defined.

Definition IntentKind_toString (k : IntentKind) : string :=
  match k with
  | KDataSave => "data.save"
  | KDataAppend => "data.append"
  | KDataDelete => "data.delete"
  | KDataGc => "data.gc"
  | KDataRename => "data.rename"
  | KOutputSave => "output.save"
  | KOutputDelete => "output.delete"
  | KEvaluatedDefinitionSave => "evaluated-definition.save"
  | KEvaluatedDefinitionDelete => "evaluated-definition.delete"
  | KGrantCreate => "grant.create"
  | KGrantRevoke => "grant.revoke"
  | KGroupCreate => "group.create"
  | KGroupUpdate => "group.update"
  | KTokenCreate => "token.create"
  | KTokenRevoke => "token.revoke"
  | KTokenRotate => "token.rotate"
  | KWorkerTokenCreate => "worker-token.create"
  | KWorkerTokenRevoke => "worker-token.revoke"
  | KWorkerDelete => "worker.delete"
  | KRunCreate => "run.create"
  | KRunUpdate => "run.update"
  | KRunDelete => "run.delete"
  | KRunSnapshotSave => "run-snapshot.save"
  | KRunSnapshotDelete => "run-snapshot.delete"
  | KRunStartSave => "run-start.save"
  | KRunStartDelete => "run-start.delete"
  | KDefinitionCreate => "definition.create"
  | KDefinitionEdit => "definition.edit"
  | KDefinitionDelete => "definition.delete"
  | KEvaluatedWorkflowSave => "evaluated-workflow.save"
  | KEvaluatedWorkflowDelete => "evaluated-workflow.delete"
  | KDefinitionRenameTo => "definition.rename-to"
  | KDefinitionRenameFrom => "definition.rename-from"
  | KAutoDefinitionSave => "auto-definition.save"
  | KAutoDefinitionDelete => "auto-definition.delete"
  | KLockfileWrite => "lockfile.write"
  end.

Inductive Shape :=
| ShModel | ShData | ShDataOpt | ShRename | ShOutput | ShRun | ShDefinition | ShRenameTo | ShRenameFrom | ShAuto | ShLockfile.

#[global] Instance Shape_eq_dec : EqDecision Shape.
Proof. solve_decision. Defined.

Definition SHAPES (k : IntentKind) : Shape :=
  match k with
  | KDataSave | KDataAppend => ShData
  | KDataDelete | KDataGc => ShDataOpt
  | KDataRename => ShRename
  | KOutputSave | KOutputDelete => ShOutput
  | KEvaluatedDefinitionSave | KEvaluatedDefinitionDelete | KGrantCreate | KGrantRevoke
  | KGroupCreate | KGroupUpdate | KTokenCreate | KTokenRevoke | KTokenRotate
  | KWorkerTokenCreate | KWorkerTokenRevoke | KWorkerDelete => ShModel
  | KRunCreate | KRunUpdate | KRunDelete | KRunSnapshotSave | KRunSnapshotDelete
  | KRunStartSave | KRunStartDelete => ShRun
  | KDefinitionCreate | KDefinitionEdit | KDefinitionDelete | KEvaluatedWorkflowSave
  | KEvaluatedWorkflowDelete => ShDefinition
  | KDefinitionRenameTo => ShRenameTo
  | KDefinitionRenameFrom => ShRenameFrom
  | KAutoDefinitionSave | KAutoDefinitionDelete => ShAuto
  | KLockfileWrite => ShLockfile
  end.

Definition INTENT_KINDS : list IntentKind :=
  [KDataSave; KDataAppend; KDataDelete; KDataGc; KDataRename; KOutputSave; KOutputDelete;
   KEvaluatedDefinitionSave; KEvaluatedDefinitionDelete; KGrantCreate; KGrantRevoke;
   KGroupCreate; KGroupUpdate; KTokenCreate; KTokenRevoke; KTokenRotate;
   KWorkerTokenCreate; KWorkerTokenRevoke; KWorkerDelete; KRunCreate; KRunUpdate;
   KRunDelete; KRunSnapshotSave; KRunSnapshotDelete; KRunStartSave; KRunStartDelete;
   KDefinitionCreate; KDefinitionEdit; KDefinitionDelete; KEvaluatedWorkflowSave;
   KEvaluatedWorkflowDelete; KDefinitionRenameTo; KDefinitionRenameFrom;
   KAutoDefinitionSave; KAutoDefinitionDelete; KLockfileWrite].

(** the kind of that name, [Object.hasOwn(SHAPES, kind)] *)
Definition kindOf (s : string) : option IntentKind :=
  List.find (λ k, bool_decide (IntentKind_toString k = s)) INTENT_KINDS.

(** the type of control-plane record an intent is about *)
Definition CONTROL_PLANE_INTENT_TYPES (k : IntentKind) : option string :=
  match k with
  | KGrantCreate | KGrantRevoke => Some "swamp/grant"
  | KGroupCreate | KGroupUpdate => Some "swamp/group"
  | KTokenCreate | KTokenRevoke | KTokenRotate => Some "swamp/server-token"
  | KWorkerTokenCreate | KWorkerTokenRevoke => Some "swamp/enrollment-token"
  | KWorkerDelete => Some "swamp/worker"
  | _ => None
  end.

(** ** Intents *)

Record ModelRef := MkModelRef { mr_type : string; mr_id : string }.
Record RunRef := MkRunRef { rr_workflowId : string; rr_runId : string }.
Record DefinitionRef := MkDefinitionRef {
  dr_kind : PartitionKey.DefinitionKind; dr_name : string }.

#[global] Instance ModelRef_eq_dec : EqDecision ModelRef.
Proof. solve_decision. Defined.
#[global] Instance RunRef_eq_dec : EqDecision RunRef.
Proof. solve_decision. Defined.
#[global] Instance DefinitionRef_eq_dec : EqDecision DefinitionRef.
Proof. solve_decision. Defined.

Definition modelRef (type : ModelType.t) (id : string) : ModelRef :=
  MkModelRef (normalized type) (toLowerCase id).

(** one constructor per shape, with the fields the shape has *)
Inductive t :=
| InModel (kind : IntentKind) (model : ModelRef)
| InData (kind : IntentKind) (model : ModelRef) (name : string) (version : Z)
| InDataOpt (kind : IntentKind) (model : ModelRef) (name : string) (version : option Z)
| InRename (kind : IntentKind) (model : ModelRef) (name to : string)
| InOutput (kind : IntentKind) (model : ModelRef) (outputId : string)
| InRun (kind : IntentKind) (run : RunRef)
| InDefinition (kind : IntentKind) (definition : DefinitionRef)
| InRenameTo (kind : IntentKind) (definition : DefinitionRef) (from : string)
| InRenameFrom (kind : IntentKind) (definition : DefinitionRef) (to : string)
| InAuto (kind : IntentKind) (id : string)
| InLockfile (kind : IntentKind).

#[global] Instance t_eq_dec : EqDecision t.
Proof. solve_decision. Defined.

Definition kind (i : t) : IntentKind :=
  match i with
  | InModel k _ | InData k _ _ _ | InDataOpt k _ _ _ | InRename k _ _ _ | InOutput k _ _
  | InRun k _ | InDefinition k _ | InRenameTo k _ _ | InRenameFrom k _ _ | InAuto k _
  | InLockfile k => k
  end.

Definition shape (i : t) : Shape :=
  match i with
  | InModel _ _ => ShModel | InData _ _ _ _ => ShData | InDataOpt _ _ _ _ => ShDataOpt
  | InRename _ _ _ _ => ShRename | InOutput _ _ _ => ShOutput | InRun _ _ => ShRun
  | InDefinition _ _ => ShDefinition | InRenameTo _ _ _ => ShRenameTo
  | InRenameFrom _ _ _ => ShRenameFrom | InAuto _ _ => ShAuto | InLockfile _ => ShLockfile
  end.

Definition model (i : t) : option ModelRef :=
  match i with
  | InModel _ m | InData _ m _ _ | InDataOpt _ m _ _ | InRename _ m _ _ | InOutput _ m _ => Some m
  | _ => None
  end.

Definition DEFINITION_CHANGE_KINDS : list IntentKind :=
  [KDefinitionCreate; KDefinitionEdit; KDefinitionDelete; KDefinitionRenameTo;
   KDefinitionRenameFrom].

Definition changesDefinition (intent : t) : bool :=
  bool_decide (kind intent ∈ DEFINITION_CHANGE_KINDS).

(** ** The partition of an intent *)

Definition modelPartition (m : ModelRef) : result PartitionKey.t :=
  type ← ModelType.create (mr_type m);
  PartitionKey.partitionOf (PartitionKey.AgModel type (mr_id m)).

Definition intentPartition (intent : t) : result PartitionKey.t :=
  match intent with
  | InModel _ m | InData _ m _ _ | InDataOpt _ m _ _ | InRename _ m _ _ | InOutput _ m _ =>
      modelPartition m
  | InRun _ run =>
      PartitionKey.partitionOf (PartitionKey.AgRun (rr_workflowId run) (rr_runId run))
  | InDefinition _ d | InRenameTo _ d _ | InRenameFrom _ d _ =>
      PartitionKey.partitionOf (PartitionKey.AgConfig (dr_kind d) (dr_name d))
  | InAuto _ id => PartitionKey.partitionOf (PartitionKey.AgDefinition id)
  | InLockfile _ => PartitionKey.partitionOf PartitionKey.AgLockfile
  end.

(** ** Reading an intent *)

Definition MAX_FIELD_LENGTH : Z := 1024.

Definition asObject (value : option JsValue) (label : string)
    : result (list (string * JsValue)) :=
  match value with
  | Some (VObj l) => Ok l
  | _ => Throw (label +:+ " must be an object")
  end.

Definition requireOnlyFields (json : list (string * JsValue)) (allowed : list string)
    (kind : IntentKind) : result () :=
  match unknownField allowed json with
  | Some field =>
      Throw ("Intent " +:+ IntentKind_toString kind +:+ " does not take the field '" +:+
             field +:+ "'")
  | None => Ok tt
  end.

Definition readString (value : option JsValue) (label : string) : result string :=
  match value with
  | Some (VStr s) =>
      _ ← throw_if (bool_decide (s = "")) ("Intent " +:+ label +:+ " must be a non-empty string");
      _ ← throw_if (MAX_FIELD_LENGTH <? Z.of_nat (String.length s))%Z
            ("Intent " +:+ label +:+ " is longer than 1024 characters");
      Ok s
  | _ => Throw ("Intent " +:+ label +:+ " must be a non-empty string")
  end.

Definition readId (value : option JsValue) (label : string) : result string :=
  s ← readString value label; Ok (toLowerCase s).

Definition readVersion (value : option JsValue) : result Z :=
  match value with
  | Some (VNum z) =>
      _ ← throw_if (negb (isSafeInteger z) || (z <? 1)%Z)
            ("A data version must be a positive integer: " +:+ js_show value);
      Ok z
  | _ => Throw ("A data version must be a positive integer: " +:+ js_show value)
  end.

Definition readDataName (value : option JsValue) : result string :=
  name ← readString value "data name";
  _ ← throw_if (includesPair "." "." name || includesChar "/" name || includesChar "\" name ||
                includesChar (ascii_of_nat 0) name)
        ("Data name must not contain '..', '/', '\' or NUL: " +:+ name);
  Ok name.

Definition readModel (value : option JsValue) (kind : IntentKind) : result ModelRef :=
  ref ← asObject value "model";
  _ ← requireOnlyFields ref ["type"; "id"] kind;
  type ← readString (assoc_get "type" ref) "model.type";
  match ModelType.create type with
  | Throw _ =>
      Throw ("Intent " +:+ IntentKind_toString kind +:+ " has an invalid model type: " +:+ type)
  | Ok mt =>
      _ ← throw_if (negb (bool_decide (normalized mt = type)))
            ("Intent " +:+ IntentKind_toString kind +:+ " must carry a normalized model type: " +:+
             type);
      _ ← match CONTROL_PLANE_INTENT_TYPES kind with
          | Some required =>
              throw_if (negb (bool_decide (normalizeModelTypeName type = Some required)))
                ("Intent " +:+ IntentKind_toString kind +:+ " needs a model of type " +:+ required +:+
                 ", not " +:+ type)
          | None => Ok tt
          end;
      id ← readId (assoc_get "id" ref) "model.id";
      Ok (MkModelRef type id)
  end.

Definition definitionKindOf (value : option JsValue) : option PartitionKey.DefinitionKind :=
  match value with
  | Some (VStr s) =>
      List.find (λ k, bool_decide (PartitionKey.DefinitionKind_toString k = s))
        PartitionKey.DEFINITION_KINDS
  | _ => None
  end.

Definition readDefinition (value : option JsValue) (kind : IntentKind) : result DefinitionRef :=
  ref ← asObject value "definition";
  _ ← requireOnlyFields ref ["kind"; "name"] kind;
  match definitionKindOf (assoc_get "kind" ref) with
  | None =>
      Throw ("Intent " +:+ IntentKind_toString kind +:+ " has an unknown definition kind: " +:+
             js_show (assoc_get "kind" ref))
  | Some definitionKind =>
      _ ← throw_if (bool_decide (kind ∈ [KEvaluatedWorkflowSave; KEvaluatedWorkflowDelete]) &&
                    negb (bool_decide (definitionKind = PartitionKey.DkWorkflow)))
            ("Intent " +:+ IntentKind_toString kind +:+ " needs a workflow definition");
      name ← readString (assoc_get "name" ref) "definition.name";
      Ok (MkDefinitionRef definitionKind name)
  end.

Definition build (kind : IntentKind) (shape : Shape) (json : list (string * JsValue)) : result t :=
  match shape with
  | ShModel =>
      model ← readModel (assoc_get "model" json) kind;
      Ok (InModel kind model)
  | ShData =>
      model ← readModel (assoc_get "model" json) kind;
      name ← readDataName (assoc_get "name" json);
      version ← readVersion (assoc_get "version" json);
      Ok (InData kind model name version)
  | ShDataOpt =>
      model ← readModel (assoc_get "model" json) kind;
      name ← readDataName (assoc_get "name" json);
      match assoc_get "version" json with
      | None => Ok (InDataOpt kind model name None)
      | Some v => version ← readVersion (Some v); Ok (InDataOpt kind model name (Some version))
      end
  | ShRename =>
      model ← readModel (assoc_get "model" json) kind;
      name ← readDataName (assoc_get "name" json);
      to ← readDataName (assoc_get "to" json);
      Ok (InRename kind model name to)
  | ShOutput =>
      model ← readModel (assoc_get "model" json) kind;
      outputId ← readString (assoc_get "outputId" json) "outputId";
      Ok (InOutput kind model outputId)
  | ShRun =>
      run ← asObject (assoc_get "run" json) "run";
      _ ← requireOnlyFields run ["workflowId"; "runId"] kind;
      workflowId ← readId (assoc_get "workflowId" run) "workflowId";
      runId ← readId (assoc_get "runId" run) "runId";
      Ok (InRun kind (MkRunRef workflowId runId))
  | ShDefinition =>
      definition ← readDefinition (assoc_get "definition" json) kind;
      Ok (InDefinition kind definition)
  | ShRenameTo =>
      definition ← readDefinition (assoc_get "definition" json) kind;
      from ← readString (assoc_get "from" json) "from";
      Ok (InRenameTo kind definition from)
  | ShRenameFrom =>
      definition ← readDefinition (assoc_get "definition" json) kind;
      to ← readString (assoc_get "to" json) "to";
      Ok (InRenameFrom kind definition to)
  | ShAuto =>
      ref ← asObject (assoc_get "autoDefinition" json) "autoDefinition";
      _ ← requireOnlyFields ref ["id"] kind;
      id ← readId (assoc_get "id" ref) "autoDefinition.id";
      Ok (InAuto kind id)
  | ShLockfile => Ok (InLockfile kind)
  end.

(** the object an intent is, its fields in the order [build] gives them *)
Definition modelToJSON (m : ModelRef) : JsValue :=
  VObj [("type", VStr (mr_type m)); ("id", VStr (mr_id m))].

Definition definitionToJSON (d : DefinitionRef) : JsValue :=
  VObj [("kind", VStr (PartitionKey.DefinitionKind_toString (dr_kind d)));
        ("name", VStr (dr_name d))].

Definition fields (i : t) : list (string * JsValue) :=
  ("kind", VStr (IntentKind_toString (kind i))) ::
  match i with
  | InModel _ m => [("model", modelToJSON m)]
  | InData _ m name version =>
      [("model", modelToJSON m); ("name", VStr name); ("version", VNum version)]
  | InDataOpt _ m name version =>
      [("model", modelToJSON m); ("name", VStr name)] ++ optField "version" VNum version
  | InRename _ m name to => [("model", modelToJSON m); ("name", VStr name); ("to", VStr to)]
  | InOutput _ m outputId => [("model", modelToJSON m); ("outputId", VStr outputId)]
  | InRun _ run =>
      [("run", VObj [("workflowId", VStr (rr_workflowId run)); ("runId", VStr (rr_runId run))])]
  | InDefinition _ d => [("definition", definitionToJSON d)]
  | InRenameTo _ d from => [("definition", definitionToJSON d); ("from", VStr from)]
  | InRenameFrom _ d to => [("definition", definitionToJSON d); ("to", VStr to)]
  | InAuto _ id => [("autoDefinition", VObj [("id", VStr id)])]
  | InLockfile _ => []
  end.

Definition toJSON (i : t) : JsValue := VObj (fields i).

Definition createIntent (value : JsValue) : result t :=
  json ← asObject (Some value) "Intent";
  match (s ← field_string "kind" json; kindOf s) with
  | None => Throw ("Unknown intent kind: " +:+ js_show (assoc_get "kind" json))
  | Some intentKind =>
      intent ← build intentKind (SHAPES intentKind) json;
      _ ← requireOnlyFields json (fields intent).*1 intentKind;
      _ ← intentPartition intent;
      Ok intent
  end.

(** ** What is read is read again *)

Lemma kindOf_toString k : kindOf (IntentKind_toString k) = Some k.
Proof. by destruct k. Qed.

Lemma kindOf_Some s k : kindOf s = Some k → s = IntentKind_toString k.
Proof. unfold kindOf. intros [_ H]%find_Some_elem_of. by split_bools. Qed.

Lemma requireOnlyFields_ok json allowed kind u :
  requireOnlyFields json allowed kind = Ok u ↔ unknownField allowed json = None.
Proof. unfold requireOnlyFields. destruct (unknownField allowed json), u; naive_solver. Qed.

Lemma requireOnlyFields_own json kind : requireOnlyFields json json.*1 kind = Ok tt.
Proof. by apply requireOnlyFields_ok, unknownField_None. Qed.

Lemma readString_ok value label s :
  readString value label = Ok s ↔
  value = Some (VStr s) ∧ s ≠ "" ∧ (Z.of_nat (String.length s) ≤ MAX_FIELD_LENGTH)%Z.
Proof.
  unfold readString. destruct value as [[| | |x| |]|]; [naive_solver..| | | |]; try naive_solver.
  rewrite result_bind_ok. setoid_rewrite throw_if_ok. setoid_rewrite result_bind_ok.
  setoid_rewrite throw_if_ok. setoid_rewrite Z.ltb_ge. setoid_rewrite bool_decide_eq_false.
  split; [naive_solver|]. intros ([= ->] & ? & ?). by exists tt; split; [|exists tt].
Qed.

Lemma readString_again value label s :
  readString value label = Ok s → readString (Some (VStr s)) label = Ok s.
Proof. rewrite !readString_ok. naive_solver. Qed.

Lemma length_map_string f s : String.length (map_string f s) = String.length s.
Proof. induction s; simpl; by f_equal. Qed.

Lemma toLowerCase_twice s : toLowerCase (toLowerCase s) = toLowerCase s.
Proof. apply map_string_id, toLowerCase_fixed. Qed.

Lemma readId_again value label s :
  readId value label = Ok s → readId (Some (VStr s)) label = Ok s.
Proof.
  unfold readId. rewrite !result_bind_ok. intros (r & (-> & ? & ?)%readString_ok & [= <-]).
  exists (toLowerCase r). rewrite toLowerCase_twice, readString_ok. split_and!; [done| | |done].
  - by destruct r.
  - unfold toLowerCase. by rewrite length_map_string.
Qed.

Lemma readVersion_again value v : readVersion value = Ok v → readVersion (Some (VNum v)) = Ok v.
Proof.
  unfold readVersion. destruct value as [[]|]; try done. rewrite !result_bind_ok.
  setoid_rewrite throw_if_ok. intros (? & ? & [= <-]). by eexists.
Qed.

Lemma readVersion_ok value v : readVersion value = Ok v → (1 ≤ v ≤ MAX_SAFE_INTEGER)%Z.
Proof.
  unfold readVersion. destruct value as [[]|]; try done. rewrite !result_bind_ok.
  setoid_rewrite throw_if_ok. intros (? & ? & [= <-]). split_bools. unfold isSafeInteger in *.
  split_bools. lia.
Qed.

Lemma readDataName_again value s :
  readDataName value = Ok s → readDataName (Some (VStr s)) = Ok s.
Proof.
  unfold readDataName. rewrite !result_bind_ok. intros (r & Hr & H).
  apply result_bind_ok in H as ([] & Ht & [= ->]). exists s. split; [by eapply readString_again|].
  by rewrite Ht.
Qed.

(** a bind that succeeds, its first part shown by [tac] *)
Ltac bind_step tac := apply result_bind_ok; eexists; split; [tac|].

Lemma readModel_again value kind m :
  readModel value kind = Ok m → readModel (Some (modelToJSON m)) kind = Ok m.
Proof.
  unfold readModel. intros (ref & _ & H)%result_bind_ok.
  apply result_bind_ok in H as (_ & _ & H). apply result_bind_ok in H as (type & Hs & H).
  destruct (create type) as [mt|] eqn:Hc; [|done].
  apply result_bind_ok in H as ([] & Hn & H). apply result_bind_ok in H as ([] & Hr & H).
  apply result_bind_ok in H as (id & Hid & [= <-]).
  unfold modelToJSON. cbn [mr_type mr_id].
  bind_step ltac:(reflexivity). bind_step ltac:(reflexivity). bind_step ltac:(by eapply readString_again).
  rewrite Hc. bind_step ltac:(exact Hn). bind_step ltac:(exact Hr).
  by bind_step ltac:(by eapply readId_again).
Qed.

(** what the checks on the type leave *)
Lemma readModel_ok value kind m :
  readModel value kind = Ok m →
  (∃ mt, create (mr_type m) = Ok mt ∧ normalized mt = mr_type m) ∧
  (∀ required, CONTROL_PLANE_INTENT_TYPES kind = Some required →
     normalizeModelTypeName (mr_type m) = Some required).
Proof.
  unfold readModel. intros (ref & _ & H)%result_bind_ok.
  apply result_bind_ok in H as (_ & _ & H). apply result_bind_ok in H as (type & Hs & H).
  destruct (create type) as [mt|] eqn:Hc; [|done].
  apply result_bind_ok in H as ([] & Hn & H). apply result_bind_ok in H as ([] & Hr & H).
  apply result_bind_ok in H as (id & Hid & [= <-]). apply throw_if_ok in Hn. split_bools.
  split; [by exists mt|]. intros required E. rewrite E in Hr. apply throw_if_ok in Hr.
  by split_bools.
Qed.

Lemma readDefinition_again value kind d :
  readDefinition value kind = Ok d → readDefinition (Some (definitionToJSON d)) kind = Ok d.
Proof.
  unfold readDefinition. intros (ref & _ & H)%result_bind_ok.
  apply result_bind_ok in H as (_ & _ & H).
  destruct (definitionKindOf (assoc_get "kind" ref)) as [dk|] eqn:Hk; [|done].
  apply result_bind_ok in H as ([] & Hw & H). apply result_bind_ok in H as (name & Hn & [= <-]).
  assert (definitionKindOf (Some (VStr (PartitionKey.DefinitionKind_toString dk))) = Some dk)
    as E by (by destruct dk).
  unfold definitionToJSON. cbn [dr_kind dr_name].
  bind_step ltac:(reflexivity). bind_step ltac:(reflexivity).
  change (assoc_get "kind" _) with (Some (VStr (PartitionKey.DefinitionKind_toString dk))).
  rewrite E. bind_step ltac:(exact Hw). by bind_step ltac:(by eapply readString_again).
Qed.

(** Takes the readers of [build] apart and replays them on what was read. *)
Ltac read_again :=
  repeat match goal with
  | H : (_ ≫= _) = Ok _ |- _ => apply result_bind_ok in H as (? & ? & H)
  | H : Ok _ = Ok _ |- _ => injection H as <-
  end;
  repeat bind_step ltac:(first
    [ eapply readModel_again; eassumption | eapply readDefinition_again; eassumption
    | eapply readDataName_again; eassumption | eapply readString_again; eassumption
    | eapply readId_again; eassumption | eapply readVersion_again; eassumption
    | reflexivity ]).

Lemma build_again k json i :
  build k (SHAPES k) json = Ok i → build k (SHAPES k) (fields i) = Ok i.
Proof.
  destruct (SHAPES k); cbn [build]; intros H; try (read_again; done).
  apply result_bind_ok in H as (? & ? & H). apply result_bind_ok in H as (? & ? & H).
  destruct (assoc_get "version" json) eqn:E; read_again; done.
Qed.

Lemma build_kind k json i :
  build k (SHAPES k) json = Ok i → kind i = k ∧ shape i = SHAPES k.
Proof.
  destruct (SHAPES k); cbn [build]; intros H; try (case_match);
    repeat (match goal with H : (_ ≫= _) = Ok _ |- _ => apply result_bind_ok in H as (? & ? & H) end);
    try case_match; repeat (match goal with H : (_ ≫= _) = Ok _ |- _ => apply result_bind_ok in H as (? & ? & H) end);
    by simplify_eq.
Qed.

(** an intent on a control-plane record names a model *)
Lemma build_model k json i m :
  build k (SHAPES k) json = Ok i → model i = Some m →
  readModel (assoc_get "model" json) k = Ok m.
Proof.
  destruct (SHAPES k); cbn [build]; intros H Hm;
    repeat (match goal with H : (_ ≫= _) = Ok _ |- _ => apply result_bind_ok in H as (? & ? & H) end);
    try case_match; repeat (match goal with H : (_ ≫= _) = Ok _ |- _ => apply result_bind_ok in H as (? & ? & H) end);
    by simplify_eq/=.
Qed.

Lemma control_plane_shape k required :
  CONTROL_PLANE_INTENT_TYPES k = Some required → SHAPES k = ShModel.
Proof. by destruct k. Qed.

Lemma createIntent_ok value i :
  createIntent value = Ok i ↔
  ∃ json k p, value = VObj json ∧ field_string "kind" json = Some (IntentKind_toString k) ∧
    build k (SHAPES k) json = Ok i ∧ unknownField (fields i).*1 json = None ∧
    intentPartition i = Ok p.
Proof.
  unfold createIntent. split.
  - intros (json & Hj & H)%result_bind_ok. destruct value as [| | | | |l]; try done. injection Hj as ->.
    destruct (field_string "kind" json) as [s|] eqn:Hs; [|done]. change (Some s ≫= _) with (kindOf s) in H.
    destruct (kindOf s) as [k|] eqn:Hk; [|done]. apply kindOf_Some in Hk as ->.
    apply result_bind_ok in H as (i' & Hb & H). apply result_bind_ok in H as ([] & Hf & H).
    apply result_bind_ok in H as (p & Hp & [= ->]). apply requireOnlyFields_ok in Hf.
    by exists json, k, p.
  - intros (json & k & p & -> & Hs & Hb & Hf & Hp). bind_step ltac:(reflexivity). rewrite Hs.
    change (Some _ ≫= _) with (kindOf (IntentKind_toString k)). rewrite kindOf_toString.
    bind_step ltac:(exact Hb). apply result_bind_ok. exists tt.
    split; [by apply requireOnlyFields_ok|]. by bind_step ltac:(exact Hp).
Qed.

(** An intent that was read is read again as it is. *)
Lemma createIntent_again value i : createIntent value = Ok i → createIntent (toJSON i) = Ok i.
Proof.
  intros (json & k & p & -> & Hs & Hb & Hf & Hp)%createIntent_ok.
  destruct (build_kind _ _ _ Hb) as [Hk Hsh]. apply createIntent_ok.
  exists (fields i), k, p. rewrite <-Hk in *. split_and!; [done| | | |done].
  - by destruct i.
  - by eapply build_again.
  - by apply unknownField_None.
Qed.

(** What an accepted intent is sure to be, whatever object it came from:
    it has the shape of its kind, belongs to a partition, names a control-plane
    record of the right type when its kind is about one, and is a fixed point
    (written out and read again it is the same intent, so what is stored is
    what was authorised). *)
Lemma createIntent_checks (value : JsValue) (i : t) :
  createIntent value = Ok i →
  shape i = SHAPES (kind i) ∧
  (∃ p, intentPartition i = Ok p) ∧
  (∀ required, CONTROL_PLANE_INTENT_TYPES (kind i) = Some required →
     ∃ m, model i = Some m ∧ normalizeModelTypeName (mr_type m) = Some required) ∧
  createIntent (toJSON i) = Ok i.
Proof.
  intros H. pose proof (createIntent_again _ _ H) as Ha.
  apply createIntent_ok in H as (json & k & p & -> & Hs & Hb & Hf & Hp).
  destruct (build_kind _ _ _ Hb) as [Hk Hsh]. rewrite Hk. split_and!; [done|by exists p| |done].
  intros required Hr. pose proof (control_plane_shape _ _ Hr) as E. rewrite E in Hsh.
  destruct i as [k' m| | | | | | | | | |]; try done. exists m. split; [done|].
  eapply readModel_ok; [|done]. by eapply build_model.
Qed.

Definition sampleGrant : JsValue :=
  VObj [("kind", VStr "grant.create");
        ("model", VObj [("type", VStr "@swamp/grant"); ("id", VStr PartitionKey.sampleUuid)])].

Lemma createIntent_checks_witness :
  ∃ i, createIntent sampleGrant = Ok i ∧ createIntent (toJSON i) = Ok i ∧
    ∃ m, model i = Some m ∧ normalizeModelTypeName (mr_type m) = Some "swamp/grant".
Proof.
  eexists. assert (H : createIntent sampleGrant = Ok (InModel KGrantCreate
    (MkModelRef "@swamp/grant" PartitionKey.sampleUuid))) by (vm_compute; reflexivity).
  split; [exact H|]. destruct (createIntent_checks _ _ H) as (_ & _ & Hm & Hf).
  split; [exact Hf|]. exact (Hm "swamp/grant" eq_refl).
Defined.

(** a grant intent on any other type is refused *)
Example grant_intent_on_other_type :
  createIntent (VObj [("kind", VStr "grant.create");
    ("model", VObj [("type", VStr "aws/ec2"); ("id", VStr PartitionKey.sampleUuid)])]) =
  Throw "Intent grant.create needs a model of type swamp/grant, not aws/ec2".
Proof. vm_compute. reflexivity. Qed.

End Intent.
