(* ===== verification/Base64.v ===== *)
(** * Base64

    The language's [btoa] and [atob] on 8-bit strings, which the ops of the
    commit log use for inline content: [btoa] writes three bytes as four
    characters and pads the end with [=]; [atob] skips ASCII white space,
    takes the padding off when it completes a group of four, and refuses any
    other character. The lemmas show that [atob] reads back what [btoa]
    writes, and how long the text is. *)

From Stdlib Require Import Ascii.
From S2P Require Import Prelude JsString.
Local Open Scope Z_scope.

Definition base64Char (n : Z) : ascii :=
  ascii_of_nat (Z.to_nat
    (if n <? 26 then 65 + n else if n <? 52 then 71 + n else if n <? 62 then n - 4
     else if n =? 62 then 43 else 47)).

Definition base64Value (c : ascii) : option Z :=
  if in_range 65 90 c then Some (code c - 65)
  else if in_range 97 122 c then Some (code c - 71)
  else if isDigit c then Some (code c + 4)
  else if code c =? 43 then Some 62
  else if code c =? 47 then Some 63
  else None.

(** the digits and the padding of the last group *)
Fixpoint btoa (s : string) : string :=
  match s with
  | EmptyString => EmptyString
  | String a EmptyString =>
      String (base64Char (code a / 4))
        (String (base64Char (code a mod 4 * 16)) "==")
  | String a (String b EmptyString) =>
      String (base64Char (code a / 4))
        (String (base64Char (code a mod 4 * 16 + code b / 16))
          (String (base64Char (code b mod 16 * 4)) "="))
  | String a (String b (String c r)) =>
      String (base64Char (code a / 4))
        (String (base64Char (code a mod 4 * 16 + code b / 16))
          (String (base64Char (code b mod 16 * 4 + code c / 64))
            (String (base64Char (code c mod 64)) (btoa r))))
  end.

Definition byteChar (z : Z) : ascii := ascii_of_nat (Z.to_nat z).

(** the groups of digits; a last group of one digit is refused *)
Fixpoint decodeDigits (s : string) : option string :=
  match s with
  | EmptyString => Some EmptyString
  | String _ EmptyString => None
  | String w (String x EmptyString) =>
      w ← base64Value w; x ← base64Value x;
      Some (String (byteChar (w * 4 + x / 16)) "")
  | String w (String x (String y EmptyString)) =>
      w ← base64Value w; x ← base64Value x; y ← base64Value y;
      Some (String (byteChar (w * 4 + x / 16)) (String (byteChar (x mod 16 * 16 + y / 4)) ""))
  | String w (String x (String y (String z r))) =>
      w ← base64Value w; x ← base64Value x; y ← base64Value y; z ← base64Value z;
      rest ← decodeDigits r;
      Some (String (byteChar (w * 4 + x / 16))
             (String (byteChar (x mod 16 * 16 + y / 4))
               (String (byteChar (y mod 4 * 64 + z)) rest)))
  end.

Definition isAsciiSpace (c : ascii) : bool :=
  (code c =? 9) || (code c =? 10) || (code c =? 12) || (code c =? 13) || (code c =? 32).

Fixpoint dropSpaces (s : string) : string :=
  match s with
  | EmptyString => EmptyString
  | String c s => if isAsciiSpace c then dropSpaces s else String c (dropSpaces s)
  end.

(** one or two [=] are taken off a text whose length is a multiple of four *)
Definition stripPadding (s : string) : string :=
  if Z.of_nat (String.length s) mod 4 =? 0 then
    if endsWithChar "=" s then
      let s := dropLast s in if endsWithChar "=" s then dropLast s else s
    else s
  else s.

Definition atob (s : string) : option string := decodeDigits (stripPadding (dropSpaces s)).

(** ** Reading back *)

Lemma base64_digit n :
  0 ≤ n < 64 →
  base64Value (base64Char n) = Some n ∧ isAsciiSpace (base64Char n) = false ∧
  Ascii.eqb "=" (base64Char n) = false.
Proof.
  intros Hn.
  assert (forallb (λ n, bool_decide (base64Value (base64Char n) = Some n) &&
    negb (isAsciiSpace (base64Char n)) && negb (Ascii.eqb "=" (base64Char n)))
    (Z.of_nat <$> seq 0 64) = true) as H by (vm_compute; reflexivity).
  rewrite forallb_elem_of in H. specialize (H n). rewrite list_elem_of_fmap in H.
  assert (∃ y, n = Z.of_nat y ∧ y ∈ seq 0 64) as Hy.
  { exists (Z.to_nat n). split; [lia|]. apply elem_of_seq. lia. }
  specialize (H Hy). by split_bools.
Qed.

Lemma code_bound c : 0 ≤ code c < 256.
Proof. unfold code. pose proof (nat_ascii_bounded c). lia. Qed.

Lemma byteChar_code c : byteChar (code c) = c.
Proof. unfold byteChar, code. by rewrite Nat2Z.id, ascii_nat_embedding. Qed.

Lemma byteChar_eq z c : z = code c → byteChar z = c.
Proof. intros ->. apply byteChar_code. Qed.

Lemma string_triple_ind (P : string → Prop) :
  P "" → (∀ a, P (String a "")) → (∀ a b, P (String a (String b ""))) →
  (∀ a b c r, P r → P (String a (String b (String c r)))) → ∀ s, P s.
Proof.
  intros H0 H1 H2 H3 s.
  assert (P s ∧ (∀ a, P (String a s)) ∧ (∀ a b, P (String a (String b s)))) as [? _]; [|done].
  induction s as [|c s (IH1 & IH2 & IH3)]; split_and!; auto.
Qed.

(** Bounds of the digits, for [base64_digit]. *)
Ltac digit_bounds :=
  repeat match goal with
  | |- context [code ?c] =>
      lazymatch goal with
      | _ : 0 ≤ code c < 256 |- _ => fail
      | _ => pose proof (code_bound c)
      end
  end;
  repeat match goal with H : ?P |- _ => lazymatch P with 0 ≤ code _ < 256 => fail | _ => clear H end end;
  Z.to_euclidean_division_equations; lia.

(** the digits of [btoa] without the padding, and how many characters of
    padding follow *)
Lemma btoa_shape s :
  ∃ d pad, btoa s = d +:+ pad ∧ decodeDigits d = Some s ∧
    (pad = "" ∨ pad = "=" ∨ pad = "==") ∧ endsWithChar "=" d = false ∧
    dropSpaces (btoa s) = btoa s ∧
    Z.of_nat (String.length (btoa s)) = (Z.of_nat (String.length s) + 2) / 3 * 4.
Proof.
  induction s as [|a|a b|a b c r (d & pad & E & Hd & Hp & He & Hs & Hl)] using string_triple_ind.
  - exists "", "". split_and!; try done. by left.
  - destruct (base64_digit (code a / 4)) as (V1 & S1 & E1); [digit_bounds|].
    destruct (base64_digit (code a mod 4 * 16)) as (V2 & S2 & E2); [digit_bounds|].
    exists (String (base64Char (code a / 4)) (String (base64Char (code a mod 4 * 16)) "")), "==".
    cbn [btoa decodeDigits endsWithChar dropSpaces]. rewrite V1, V2, S1, S2, E2.
    split_and!; try done; [|by right; right]. cbn. do 2 f_equal. apply byteChar_eq. digit_bounds.
  - destruct (base64_digit (code a / 4)) as (V1 & S1 & E1); [digit_bounds|].
    destruct (base64_digit (code a mod 4 * 16 + code b / 16)) as (V2 & S2 & E2); [digit_bounds|].
    destruct (base64_digit (code b mod 16 * 4)) as (V3 & S3 & E3); [digit_bounds|].
    exists (String (base64Char (code a / 4)) (String (base64Char (code a mod 4 * 16 + code b / 16))
      (String (base64Char (code b mod 16 * 4)) ""))), "=".
    cbn [btoa decodeDigits endsWithChar dropSpaces]. rewrite V1, V2, V3, S1, S2, S3, E3.
    split_and!; try done; [|by right; left]. cbn. f_equal. f_equal; [apply byteChar_eq; digit_bounds|].
    f_equal. apply byteChar_eq. digit_bounds.
  - destruct (base64_digit (code a / 4)) as (V1 & S1 & E1); [digit_bounds|].
    destruct (base64_digit (code a mod 4 * 16 + code b / 16)) as (V2 & S2 & E2); [digit_bounds|].
    destruct (base64_digit (code b mod 16 * 4 + code c / 64)) as (V3 & S3 & E3); [digit_bounds|].
    destruct (base64_digit (code c mod 64)) as (V4 & S4 & E4); [digit_bounds|].
    exists (String (base64Char (code a / 4)) (String (base64Char (code a mod 4 * 16 + code b / 16))
      (String (base64Char (code b mod 16 * 4 + code c / 64)) (String (base64Char (code c mod 64)) d)))), pad.
    cbn [btoa decodeDigits dropSpaces]. rewrite V1, V2, V3, V4, S1, S2, S3, S4, Hs.
    split_and!; [by rewrite E| |done| |done|].
    + cbn. rewrite Hd. cbn. f_equal.
      f_equal; [apply byteChar_eq; digit_bounds|]. f_equal; [apply byteChar_eq; digit_bounds|].
      f_equal. apply byteChar_eq. digit_bounds.
    + destruct d; [cbn; by rewrite E4|]. exact He.
    + cbn [String.length]. rewrite !Nat2Z.inj_succ, Hl.
      Z.to_euclidean_division_equations. lia.
Qed.

Lemma length_btoa s :
  Z.of_nat (String.length (btoa s)) = (Z.of_nat (String.length s) + 2) / 3 * 4.
Proof. destruct (btoa_shape s) as (? & ? & ? & ? & ? & ? & ? & ?). done. Qed.

Lemma atob_btoa s : atob (btoa s) = Some s.
Proof.
  destruct (btoa_shape s) as (d & pad & E & Hd & Hp & He & Hs & Hl).
  unfold atob, stripPadding. rewrite Hs, Hl.
  rewrite Z.mod_mul by lia. cbn [Z.eqb]. rewrite E.
  destruct Hp as [-> | [-> | ->]].
  - by rewrite str_app_nil_r, He.
  - rewrite (proj2 (endsWithChar_spec "=" (d +:+ "="))) by eauto. by rewrite dropLast_snoc, He.
  - assert (d +:+ "==" = (d +:+ "=") +:+ "=") as -> by by rewrite str_app_assoc.
    rewrite (proj2 (endsWithChar_spec "=" ((d +:+ "=") +:+ "="))) by eauto. rewrite dropLast_snoc.
    rewrite (proj2 (endsWithChar_spec "=" (d +:+ "="))) by eauto. by rewrite dropLast_snoc.
Qed.
