(* ===== verification/CommitOps.v ===== *)
(** * Ops of the commit log

    [src/src/domain/datastore_v3/record_key.ts], [file_access.ts],
    [blob_ref.ts] and [op.ts]: the values a commit is made of. A put writes
    the content of one record, inline as base64 or as a reference to a blob; a
    tombstone removes one record; a data-version op records the metadata of a
    version; a lease op records who holds the partition's lease. Every op is
    built by a factory that checks its parts, and read from JSON through the
    same factory. SHA-256 is the parameter [sha256Hex]; the texts of the schema
    library's issues are left out of the message for invalid metadata. *)

From Stdlib Require Import Ascii.
From S2P Require Import Prelude JsString PartitionKey DataMetadata Intent Base64.
Local Open Scope Z_scope.

(** ** Record keys *)

Module RecordKey.

Definition MAX_RECORD_KEY_LENGTH : Z := 4096.

Record t := Mk { value : string }.

#[global] Instance t_eq_dec : EqDecision t.
Proof. solve_decision. Defined.

Definition badSegment (segment : string) : bool :=
  bool_decide (segment = "") || bool_decide (segment = ".") || bool_decide (segment = "..").

Definition create (value : string) : result t :=
  _ ← throw_if (bool_decide (value = "")) "Record key must be a non-empty string";
  _ ← throw_if (MAX_RECORD_KEY_LENGTH <? Z.of_nat (String.length value))
        "Record key is longer than 4096 characters";
  _ ← throw_if (includesChar "\" value || includesChar (ascii_of_nat 0) value)
        ("Record key must not contain a backslash or NUL: " +:+ value);
  _ ← throw_if (existsb badSegment (splitOn "/" value))
        ("Record key must be a relative path without empty, '.' or '..' segments: " +:+ value);
  Ok (Mk value).

Definition fromJSON (value : option JsValue) : result t :=
  match value with
  | Some (VStr s) => create s
  | _ => Throw "Record key must be a string"
  end.

Definition equals (a b : t) : bool := bool_decide (value a = value b).

Lemma create_value v k : create v = Ok k → value k = v.
Proof.
  unfold create. intros (_ & _ & H)%result_bind_ok. apply result_bind_ok in H as (_ & _ & H).
  apply result_bind_ok in H as (_ & _ & H). by apply result_bind_ok in H as (_ & _ & [= <-]).
Qed.

Lemma recordKey_again v k : create v = Ok k → create (value k) = Ok k.
Proof. intros H. by rewrite (create_value _ _ H). Qed.

Lemma recordKey_JSON_again v k : fromJSON v = Ok k → fromJSON (Some (VStr (value k))) = Ok k.
Proof. destruct v as [[]|]; try done. apply recordKey_again. Qed.

End RecordKey.

(** ** Digests *)

Definition isSha256Hex (value : option JsValue) : option string :=
  match value with
  | Some (VStr s) =>
      if bool_decide (String.length s = 64%nat) && all_chars PartitionKey.isLowerHex s
      then Some s else None
  | _ => None
  end.

Lemma isSha256Hex_again v s : isSha256Hex v = Some s → isSha256Hex (Some (VStr s)) = Some s.
Proof.
  unfold isSha256Hex. destruct v as [[| | |x| |]|]; try done.
  destruct (_ && _) eqn:E; [|done]. intros [= <-]. by rewrite E.
Qed.

(** ** File access *)

Module FileAccess.

Inductive t := Executable | Private | PrivateExecutable.

#[global] Instance t_eq_dec : EqDecision t.
Proof. solve_decision. Defined.

Definition toString (a : t) : string :=
  match a with
  | Executable => "executable" | Private => "private" | PrivateExecutable => "private-executable"
  end.

Definition FILE_ACCESSES : list t := [Executable; Private; PrivateExecutable].

(** the octal masks *)
Definition o111 : Z := 73. (* 0o111 *)
Definition o077 : Z := 63. (* 0o077 *)
Definition o777 : Z := 511. (* 0o777 *)
Definition o700 : Z := 448. (* 0o700 *)
Definition o444 : Z := 292. (* 0o444 *)

Definition fileAccessOf (mode : option Z) : option t :=
  match mode with
  | None => None
  | Some mode =>
      let executable := negb (Z.land mode o111 =? 0) in
      let isPrivate := Z.land mode o077 =? 0 in
      if executable && isPrivate then Some PrivateExecutable
      else if executable then Some Executable
      else if isPrivate then Some Private
      else None
  end.

Definition isExecutable (access : option t) : bool :=
  bool_decide (access = Some Executable) || bool_decide (access = Some PrivateExecutable).

Definition isPrivate (access : option t) : bool :=
  bool_decide (access = Some Private) || bool_decide (access = Some PrivateExecutable).

Definition modeWithAccess (created : Z) (access : option t) : Z :=
  let mode := Z.land created o777 in
  let mode := if isPrivate access then Z.land mode o700 else mode in
  if isExecutable access then Z.lor mode (Z.shiftr (Z.land mode o444) 2) else mode.

Definition satisfiesAccess (mode : Z) (access : option t) : bool :=
  if negb (Bool.eqb (negb (Z.land mode o111 =? 0)) (isExecutable access)) then false
  else negb (isPrivate access) || (Z.land mode o077 =? 0).

Definition readFileAccess (access : option JsValue) : result (option t) :=
  match access with
  | None => Ok None
  | Some v =>
      match (match v with
             | VStr s => List.find (λ a, bool_decide (toString a = s)) FILE_ACCESSES
             | _ => None
             end) with
      | Some a => Ok (Some a)
      | None =>
          Throw ("A file access must be one of executable, private, private-executable: " +:+
                 js_toString v)
      end
  end.

Lemma readFileAccess_again v a :
  readFileAccess v = Ok a → readFileAccess ((λ x, VStr (toString x)) <$> a) = Ok a.
Proof. by destruct a as [[]|]. Qed.

(** The mode of a file is a number below 512 once masked. *)
Lemma land_o777 created : ∃ m, (m < 512)%nat ∧ Z.land created o777 = Z.of_nat m.
Proof.
  assert (0 ≤ Z.land created o777 < 512) as H.
  { change o777 with (Z.ones 9). rewrite Z.land_ones by lia. apply Z.mod_pos_bound. lia. }
  exists (Z.to_nat (Z.land created o777)). lia.
Qed.

Lemma land_sub_o777 created mask :
  Z.land mask o777 = mask → Z.land created mask = Z.land (Z.land created o777) mask.
Proof. intros <-. rewrite (Z.land_comm mask), <-!Z.land_assoc, (Z.land_assoc o777), Z.land_diag. done. Qed.

(** the modes a new file can have: readable by its owner and not executable *)
Definition newFile (created : Z) : bool :=
  (Z.land created o111 =? 0) && negb (Z.land created 256 =? 0).

Definition accesses : list (option t) := [None; Some Executable; Some Private; Some PrivateExecutable].

(** A checkout gives a file the access its record asks for: whatever mode
    the umask left on a new file its owner can read, the mode computed for an
    access satisfies it, stays within the permission bits, and is private
    whenever the mode the file was created with was. *)
Lemma checkout_modes_satisfy_access (created : Z) (access : option t) :
  newFile created = true →
  let mode := modeWithAccess created access in
  satisfiesAccess mode access = true ∧ 0 ≤ mode < 512 ∧
  (Z.land created o077 = 0 → Z.land mode o077 = 0).
Proof.
  intros Hn mode. unfold newFile in Hn. unfold mode, modeWithAccess. cbv zeta.
  rewrite (land_sub_o777 created o111), (land_sub_o777 created 256) in Hn by done.
  rewrite (land_sub_o777 created o077) by done.
  destruct (land_o777 created) as (m & Hm & Em). rewrite Em in Hn |- *.
  assert (forallb (λ m, let created := Z.of_nat m in
    negb ((Z.land created o111 =? 0) && negb (Z.land created 256 =? 0)) ||
    forallb (λ access, let mode := modeWithAccess created access in
      satisfiesAccess mode access && (0 <=? mode) && (mode <? 512) &&
      (negb (Z.land created o077 =? 0) || (Z.land mode o077 =? 0))) accesses) (seq 0 512) = true)
    as H by (vm_compute; reflexivity).
  rewrite forallb_elem_of in H. specialize (H m). rewrite elem_of_seq in H.
  specialize (H ltac:(lia)). cbv zeta in H. rewrite Hn in H. cbn [negb orb] in H.
  rewrite forallb_elem_of in H. specialize (H access).
  assert (access ∈ accesses) as Ha by (unfold accesses; destruct access as [[]|]; set_solver).
  specialize (H Ha). cbv zeta in H. unfold modeWithAccess in H. cbv zeta in H.
  assert (Z.land (Z.of_nat m) o777 = Z.of_nat m) as E.
  { change o777 with (Z.ones 9). rewrite Z.land_ones by lia. apply Z.mod_small. lia. }
  rewrite E in H. split_bools. split_and!; [done|lia|lia|]. intros Hp.
  match goal with H : negb _ || _ = true |- _ => apply orb_true_iff in H as [?|?] end; split_bools; congruence.
Qed.

Lemma checkout_modes_satisfy_access_witness :
  newFile 33188 = true ∧ modeWithAccess 33188 (Some PrivateExecutable) = 448 ∧
  satisfiesAccess (modeWithAccess 33188 (Some PrivateExecutable)) (Some PrivateExecutable) = true.
Proof.
  split; [vm_compute; reflexivity|]. split; [vm_compute; reflexivity|].
  exact (proj1 (checkout_modes_satisfy_access 33188 (Some PrivateExecutable) eq_refl)).
Defined.

End FileAccess.

(** ** Blob references *)

Module BlobRef.

Record BlobPart := MkPart { p_sha256 : string; p_size : Z }.

#[global] Instance BlobPart_eq_dec : EqDecision BlobPart.
Proof. solve_decision. Defined.

Record t := Mk {
  sha256 : string;
  size : Z;
  parts : option (list BlobPart);
  legacyKey : option RecordKey.t;
}.

#[global] Instance t_eq_dec : EqDecision t.
Proof. solve_decision. Defined.

(** [Number.isSafeInteger(v) && v >= least] on a value of type [unknown] *)
Definition integerFrom (least : Z) (value : option JsValue) : option Z :=
  match value with
  | Some (VNum z) => if isSafeInteger z && (least <=? z) then Some z else None
  | _ => None
  end.

Definition readPart (index : nat) (part : JsValue) : result BlobPart :=
  match part with
  | VObj l =>
      match unknownField ["sha256"; "size"] l with
      | Some field => Throw ("A blob part does not take the field '" +:+ field +:+ "'")
      | None =>
          match isSha256Hex (assoc_get "sha256" l) with
          | None =>
              Throw ("Blob part " +:+ pretty index +:+
                     " sha256 must be 64 lowercase hex characters: " +:+
                     js_show (assoc_get "sha256" l))
          | Some sha256 =>
              match integerFrom 1 (assoc_get "size" l) with
              | None =>
                  Throw ("Blob part " +:+ pretty index +:+
                         " size must be a positive integer: " +:+ js_show (assoc_get "size" l))
              | Some size => Ok (MkPart sha256 size)
              end
          end
      end
  | _ => Throw ("Blob part " +:+ pretty index +:+ " must be an object")
  end.

Fixpoint readPartsFrom (index : nat) (l : list JsValue) : result (list BlobPart) :=
  match l with
  | [] => Ok []
  | v :: l =>
      part ← readPart index v;
      rest ← readPartsFrom (S index) l;
      Ok (part :: rest)
  end.

Definition total (ps : list BlobPart) : Z := foldr Z.add 0 (p_size <$> ps).

Definition readParts (value : JsValue) (size : Z) : result (list BlobPart) :=
  match value with
  | VArr l =>
      _ ← throw_if (bool_decide (length l < 2)%nat)
            "Blob parts list two or more chunks; one chunk needs no parts";
      ps ← readPartsFrom 0 l;
      _ ← throw_if (negb (total ps =? size))
            ("Blob part sizes add up to " +:+ pretty (total ps) +:+ ", not the blob size " +:+
             pretty size);
      Ok ps
  | _ => Throw "Blob parts must be an array"
  end.

Definition create (sha256 size parts : option JsValue) (legacyKey : option RecordKey.t)
    : result t :=
  match isSha256Hex sha256 with
  | None => Throw ("Blob sha256 must be 64 lowercase hex characters: " +:+ js_show sha256)
  | Some digest =>
      match integerFrom 0 size with
      | None => Throw ("Blob size must be a non-negative integer: " +:+ js_show size)
      | Some n =>
          ps ← match parts with
               | None => Ok None
               | Some v => ps ← readParts v n; Ok (Some ps)
               end;
          Ok (Mk digest n ps legacyKey)
      end
  end.

Definition fromJSON (value : JsValue) : result t :=
  match value with
  | VObj json =>
      match unknownField ["sha256"; "size"; "parts"; "legacyKey"] json with
      | Some field => Throw ("A blob reference does not take the field '" +:+ field +:+ "'")
      | None =>
          legacyKey ← match assoc_get "legacyKey" json with
                      | None => Ok None
                      | Some v => k ← RecordKey.fromJSON (Some v); Ok (Some k)
                      end;
          create (assoc_get "sha256" json) (assoc_get "size" json) (assoc_get "parts" json) legacyKey
      end
  | _ => Throw "Blob reference must be an object"
  end.

Definition partToJSON (p : BlobPart) : JsValue :=
  VObj [("sha256", VStr (p_sha256 p)); ("size", VNum (p_size p))].

Definition toJSON (b : t) : JsValue :=
  VObj ([("sha256", VStr (sha256 b)); ("size", VNum (size b))] ++
        optField "parts" (λ ps, VArr (partToJSON <$> ps)) (parts b) ++
        optField "legacyKey" (λ k, VStr (RecordKey.value k)) (legacyKey b)).

Definition chunkHashes (b : t) : list string :=
  match parts b with None => [sha256 b] | Some ps => p_sha256 <$> ps end.

Definition partsEqual (a b : option (list BlobPart)) : bool :=
  match a, b with
  | Some a, Some b =>
      bool_decide (length a = length b) &&
      forallb (λ '(p, q), bool_decide (p_sha256 p = p_sha256 q) && (p_size p =? p_size q)) (zip a b)
  | None, None => true
  | _, _ => false
  end.

Definition equals (a b : t) : bool :=
  bool_decide (sha256 a = sha256 b) && (size a =? size b) && partsEqual (parts a) (parts b) &&
  match legacyKey a, legacyKey b with
  | None, None => true
  | Some k, Some k' => RecordKey.equals k k'
  | _, _ => false
  end.

(** *** A reference is read back *)

Lemma integerFrom_again least v z :
  integerFrom least v = Some z → integerFrom least (Some (VNum z)) = Some z.
Proof.
  unfold integerFrom. destruct v as [[| |x| | |]|]; try done.
  destruct (_ && _) eqn:E; [|done]. intros [= <-]. by rewrite E.
Qed.

Lemma readPart_again i v p : readPart i v = Ok p → ∀ j, readPart j (partToJSON p) = Ok p.
Proof.
  unfold readPart. destruct v as [| | | | |l]; try done. destruct (unknownField _ l); [done|].
  destruct (isSha256Hex _) as [s|] eqn:Hs; [|done].
  destruct (integerFrom 1 _) as [z|] eqn:Hz; [|done]. intros [= <-] j. unfold partToJSON.
  change (unknownField _ _) with (None (A := string)).
  change (assoc_get "sha256" _) with (Some (VStr s)). change (assoc_get "size" _) with (Some (VNum z)).
  by rewrite (isSha256Hex_again _ _ Hs), (integerFrom_again _ _ _ Hz).
Qed.

Lemma readPartsFrom_again i l ps :
  readPartsFrom i l = Ok ps →
  length ps = length l ∧ ∀ j, readPartsFrom j (partToJSON <$> ps) = Ok ps.
Proof.
  revert i ps. induction l as [|v l IH]; intros i ps; cbn [readPartsFrom].
  - by intros [= <-].
  - intros (p & Hp & H)%result_bind_ok. apply result_bind_ok in H as (rest & Hr & [= <-]).
    destruct (IH _ _ Hr) as [Hl Hj]. split; [cbn; by rewrite Hl|]. intros j.
    change (partToJSON <$> p :: rest) with (partToJSON p :: (partToJSON <$> rest)).
    cbn [readPartsFrom]. rewrite (readPart_again _ _ _ Hp). cbn [mbind result_bind]. by rewrite Hj.
Qed.

Lemma readParts_again v n ps :
  readParts v n = Ok ps → readParts (VArr (partToJSON <$> ps)) n = Ok ps.
Proof.
  unfold readParts. destruct v as [| | | |l|]; try done.
  intros ([] & Hl & H)%result_bind_ok. apply result_bind_ok in H as (ps' & Hp & H).
  apply result_bind_ok in H as ([] & Ht & [= ->]). destruct (readPartsFrom_again _ _ _ Hp) as [Hn Hj].
  rewrite length_fmap, Hn, Hl. cbn [mbind result_bind]. rewrite Hj. cbn [mbind result_bind].
  by rewrite Ht.
Qed.

Lemma blobRef_again s n v k b :
  create s n v k = Ok b →
  legacyKey b = k ∧
  create (Some (VStr (sha256 b))) (Some (VNum (size b)))
    ((λ ps, VArr (partToJSON <$> ps)) <$> parts b) (legacyKey b) = Ok b.
Proof.
  unfold create. destruct (isSha256Hex s) as [d|] eqn:Hs; [|done].
  destruct (integerFrom 0 n) as [z|] eqn:Hz; [|done].
  intros (ps & Hp & [= <-])%result_bind_ok. split; [done|]. cbn [sha256 size parts legacyKey].
  rewrite (isSha256Hex_again _ _ Hs), (integerFrom_again _ _ _ Hz).
  destruct v as [v|]; [|by injection Hp as <-].
  apply result_bind_ok in Hp as (l & Hl & [= <-]). cbn [fmap option_fmap option_map].
  by rewrite (readParts_again _ _ _ Hl).
Qed.

Lemma blobRef_JSON_again v b : fromJSON v = Ok b → fromJSON (toJSON b) = Ok b.
Proof.
  unfold fromJSON. destruct v as [| | | | |json]; try done. destruct (unknownField _ json); [done|].
  intros (k & Hk & [<- Hc]%blobRef_again)%result_bind_ok. unfold toJSON.
  assert (match legacyKey b with None => True
          | Some k => RecordKey.fromJSON (Some (VStr (RecordKey.value k))) = Ok k end) as Hl.
  { destruct (assoc_get "legacyKey" json) as [v|]; [|by injection Hk as <-].
    apply result_bind_ok in Hk as (k' & ? & [= <-]). by eapply RecordKey.recordKey_JSON_again. }
  rewrite unknownField_app; [|done|apply unknownField_app; apply unknownField_optField; set_solver].
  rewrite !assoc_get_app, !assoc_get_optField.
  etransitivity; [|exact Hc].
  destruct (legacyKey b) as [lk|]; destruct (parts b); cbn -[create RecordKey.fromJSON]; eval_keys;
    rewrite ?Hl; reflexivity.
Qed.

Lemma partsEqual_eq a b : partsEqual a b = true ↔ a = b.
Proof.
  destruct a as [a|], b as [b|]; try done. cbn. revert b.
  induction a as [|[s z] a IH]; intros [|[s' z'] b]; try done.
  cbn [zip zip_with length forallb]. split.
  - intros H. split_bools. match goal with H : S _ = S _ |- _ => injection H as Hl end.
    specialize (IH b). rewrite bool_decide_eq_true_2 in IH by done.
    cbn [p_sha256 p_size] in *. destruct IH as [IH _]. 
    match goal with H : forallb _ _ = true |- _ => specialize (IH H) end. by simplify_eq.
  - intros [= -> -> ->]. rewrite bool_decide_eq_true_2 by done. cbn. rewrite Z.eqb_refl.
    rewrite bool_decide_eq_true_2 by done. cbn.
    destruct (IH b) as [_ IH']. specialize (IH' eq_refl). split_bools. done.
Qed.

(** [equals] is equality: two references are equal exactly when all their
    parts are. *)
Lemma equals_decides (a b : t) : equals a b = bool_decide (a = b).
Proof.
  apply Bool.eq_iff_eq_true. rewrite bool_decide_eq_true. unfold equals.
  rewrite !andb_true_iff, partsEqual_eq, bool_decide_eq_true, Z.eqb_eq.
  destruct a as [s z p [[k]|]], b as [s' z' p' [[k']|]]; cbn;
    try (unfold RecordKey.equals; cbn; rewrite bool_decide_eq_true); naive_solver.
Qed.

End BlobRef.

(** ** Ops *)

Module Op.

Definition MAX_INLINE_BYTES : Z := 8 * 1024.

(** [Math.ceil(MAX_INLINE_BYTES / 3) * 4] *)
Definition MAX_INLINE_BASE64_LENGTH : Z := (MAX_INLINE_BYTES + 2) / 3 * 4.

Definition MAX_HOLDER_LENGTH : Z := 1024.

Inductive PutExpect := PutAbsent | PutSha (sha256 : string).
Inductive TombstoneExpect := TombstonePresent | TombstoneSha (sha256 : string).
Inductive PutContent := Blob (blob : BlobRef.t) | Inline (inline : string).

#[global] Instance PutExpect_eq_dec : EqDecision PutExpect.
Proof. solve_decision. Defined.
#[global] Instance TombstoneExpect_eq_dec : EqDecision TombstoneExpect.
Proof. solve_decision. Defined.
#[global] Instance PutContent_eq_dec : EqDecision PutContent.
Proof. solve_decision. Defined.

Record PutOp := MkPut {
  put_intent : Intent.t;
  put_key : RecordKey.t;
  content : PutContent;
  put_sha256 : string;
  put_expect : option PutExpect;
  access : option FileAccess.t;
}.

Record TombstoneOp := MkTombstone {
  tomb_intent : Intent.t;
  tomb_key : RecordKey.t;
  tomb_expect : option TombstoneExpect;
}.

Record DataVersionOp := MkDataVersion {
  dv_key : RecordKey.t;
  metadata : DataMetadata.t;
}.

Record LeaseOp := MkLease { holder : string; fence : Z }.

Inductive t :=
| Put (op : PutOp)
| Tombstone (op : TombstoneOp)
| DataVersion (op : DataVersionOp)
| Lease (op : LeaseOp).

#[global] Instance PutOp_eq_dec : EqDecision PutOp.
Proof. solve_decision. Defined.
#[global] Instance TombstoneOp_eq_dec : EqDecision TombstoneOp.
Proof. solve_decision. Defined.
#[global] Instance DataVersionOp_eq_dec : EqDecision DataVersionOp.
Proof. solve_decision. Defined.
#[global] Instance LeaseOp_eq_dec : EqDecision LeaseOp.
Proof. solve_decision. Defined.
#[global] Instance t_eq_dec : EqDecision t.
Proof. solve_decision. Defined.

(** *** Reading the parts *)

Definition requireFence (fence : option JsValue) : result Z :=
  match BlobRef.integerFrom 0 fence with
  | Some f => Ok f
  | None => Throw ("A fence must be a non-negative integer: " +:+ js_show fence)
  end.

(** the object [{ sha256 }], with no other key *)
Definition expectedSha (v : JsValue) : option string :=
  match v with
  | VObj l =>
      if bool_decide (length l = 1%nat) then isSha256Hex (assoc_get "sha256" l) else None
  | _ => None
  end.

Definition readPutExpect (expect : option JsValue) : result (option PutExpect) :=
  match expect with
  | None => Ok None
  | Some v =>
      if match v with VStr s => bool_decide (s = "absent") | _ => false end
      then Ok (Some PutAbsent)
      else
        match expectedSha v with
        | Some sha256 => Ok (Some (PutSha sha256))
        | None =>
            Throw "A put's expect must be 'absent' or { sha256 } with a lowercase hex digest"
        end
  end.

Definition readTombstoneExpect (expect : option JsValue) : result (option TombstoneExpect) :=
  match expect with
  | None => Ok None
  | Some v =>
      if match v with VStr s => bool_decide (s = "present") | _ => false end
      then Ok (Some TombstonePresent)
      else
        match expectedSha v with
        | Some sha256 => Ok (Some (TombstoneSha sha256))
        | None =>
            Throw ("A tombstone's expect must be 'present' or { sha256 } with a lowercase " +:+
                   "hex digest: " +:+ json_text v)
        end
  end.

Definition decodeInline (inline : JsValue) : result string :=
  match inline with
  | VStr s =>
      _ ← throw_if (MAX_INLINE_BASE64_LENGTH <? Z.of_nat (String.length s))
            "Inline content is larger than 8192 bytes; store it as a blob";
      match atob s with
      | None => Throw "A put's inline content is not valid base64"
      | Some binary =>
          _ ← throw_if (negb (bool_decide (btoa binary = s)))
                "A put's inline content is not canonical base64";
          _ ← throw_if (MAX_INLINE_BYTES <? Z.of_nat (String.length binary))
                "Inline content is larger than 8192 bytes; store it as a blob";
          Ok binary
      end
  | _ => Throw "A put's inline content must be a base64 string"
  end.

Definition createIntent (intent : option JsValue) : result Intent.t :=
  match intent with
  | Some v => Intent.createIntent v
  | None => Throw "Intent must be an object"
  end.

(** the entries of the tags, by key *)
Definition byKey (a b : string * string) : Z := byCodeUnit a.1 b.1.

Section factories.
Context (sha256Hex : string → string) (isUuid isDatetime : string → bool).

Definition putOp (intent : option JsValue) (key : RecordKey.t) (blob : option BlobRef.t)
    (inline expect access : option JsValue) : result t :=
  intent ← createIntent intent;
  expect ← readPutExpect expect;
  access ← FileAccess.readFileAccess access;
  match blob, inline with
  | Some blob, None => Ok (Put (MkPut intent key (Blob blob) (BlobRef.sha256 blob) expect access))
  | None, Some inline =>
      bytes ← decodeInline inline;
      Ok (Put (MkPut intent key (Inline (js_toString inline)) (sha256Hex bytes) expect access))
  | _, _ => Throw "A put carries exactly one of blob and inline"
  end.

Definition tombstoneOp (intent : option JsValue) (key : RecordKey.t) (expect : option JsValue)
    : result t :=
  intent ← createIntent intent;
  expect ← readTombstoneExpect expect;
  Ok (Tombstone (MkTombstone intent key expect)).

Definition dataVersionOp (key : RecordKey.t) (metadata : option JsValue) : result t :=
  match (v ← metadata; DataMetadata.parse isUuid isDatetime v) with
  | None => Throw "A data-version op needs valid data metadata: "
  | Some m =>
      Ok (DataVersion (MkDataVersion key
            (m <| DataMetadata.tags := js_sort byKey (DataMetadata.tags m) |>)))
  end.

Definition leaseOp (holder fence : option JsValue) : result t :=
  match holder with
  | Some (VStr h) =>
      _ ← throw_if (bool_decide (h = "") || (MAX_HOLDER_LENGTH <? Z.of_nat (String.length h)))
            "A lease holder must be a non-empty string of at most 1024 characters";
      f ← requireFence fence;
      Ok (Lease (MkLease h f))
  | _ => Throw "A lease holder must be a non-empty string of at most 1024 characters"
  end.

Definition requireOnlyFields (json : list (string * JsValue)) (allowed : list string) : result () :=
  match unknownField allowed json with
  | Some field =>
      Throw ("Op " +:+ js_show (assoc_get "kind" json) +:+ " does not take the field '" +:+ field +:+
             "'")
  | None => Ok tt
  end.

Definition opFromJSON (value : JsValue) : result t :=
  match value with
  | VObj json =>
      match field_string "kind" json with
      | Some kind =>
          if bool_decide (kind = "put") then
            _ ← requireOnlyFields json ["kind"; "intent"; "key"; "blob"; "inline"; "expect"; "access"];
            key ← RecordKey.fromJSON (assoc_get "key" json);
            blob ← match assoc_get "blob" json with
                   | None => Ok None
                   | Some v => b ← BlobRef.fromJSON v; Ok (Some b)
                   end;
            putOp (assoc_get "intent" json) key blob (assoc_get "inline" json)
              (assoc_get "expect" json) (assoc_get "access" json)
          else if bool_decide (kind = "tombstone") then
            _ ← requireOnlyFields json ["kind"; "intent"; "key"; "expect"];
            key ← RecordKey.fromJSON (assoc_get "key" json);
            tombstoneOp (assoc_get "intent" json) key (assoc_get "expect" json)
          else if bool_decide (kind = "data-version") then
            _ ← requireOnlyFields json ["kind"; "key"; "metadata"];
            key ← RecordKey.fromJSON (assoc_get "key" json);
            dataVersionOp key (assoc_get "metadata" json)
          else if bool_decide (kind = "lease") then
            _ ← requireOnlyFields json ["kind"; "holder"; "fence"];
            leaseOp (assoc_get "holder" json) (assoc_get "fence" json)
          else Throw ("Unknown op kind: " +:+ js_show (assoc_get "kind" json))
      | None => Throw ("Unknown op kind: " +:+ js_show (assoc_get "kind" json))
      end
  | _ => Throw "An op must be an object"
  end.

End factories.

(** *** Writing *)

Definition shaObject (s : string) : JsValue := VObj [("sha256", VStr s)].

Definition putExpectToJSON (e : PutExpect) : JsValue :=
  match e with PutAbsent => VStr "absent" | PutSha s => shaObject s end.

Definition tombstoneExpectToJSON (e : TombstoneExpect) : JsValue :=
  match e with TombstonePresent => VStr "present" | TombstoneSha s => shaObject s end.

Definition toJSON (op : t) : JsValue :=
  match op with
  | Put op =>
      VObj ([("kind", VStr "put"); ("intent", Intent.toJSON (put_intent op));
             ("key", VStr (RecordKey.value (put_key op)));
             match content op with
             | Blob blob => ("blob", BlobRef.toJSON blob)
             | Inline inline => ("inline", VStr inline)
             end] ++
            optField "expect" putExpectToJSON (put_expect op) ++
            optField "access" (λ a, VStr (FileAccess.toString a)) (access op))
  | Tombstone op =>
      VObj ([("kind", VStr "tombstone"); ("intent", Intent.toJSON (tomb_intent op));
             ("key", VStr (RecordKey.value (tomb_key op)))] ++
            optField "expect" tombstoneExpectToJSON (tomb_expect op))
  | DataVersion op =>
      VObj [("kind", VStr "data-version"); ("key", VStr (RecordKey.value (dv_key op)));
            ("metadata", DataMetadata.toJSON (metadata op))]
  | Lease op => VObj [("kind", VStr "lease"); ("holder", VStr (holder op)); ("fence", VNum (fence op))]
  end.

(** *** Inline content *)

Lemma decodeInline_ok v bytes :
  decodeInline v = Ok bytes ↔
  v = VStr (btoa bytes) ∧ Z.of_nat (String.length bytes) ≤ MAX_INLINE_BYTES.
Proof.
  unfold decodeInline. destruct v as [| | |s| |]; try (split; [done|by intros [? _]]).
  rewrite result_bind_ok. setoid_rewrite throw_if_ok. setoid_rewrite Z.ltb_ge. split.
  - intros ([] & Hl & H). destruct (atob s) as [b|]; [|done].
    apply result_bind_ok in H as ([] & Hb & H). apply result_bind_ok in H as ([] & Hn & [= ->]).
    apply throw_if_ok in Hb, Hn. split_bools. by subst s.
  - intros [[= ->] Hn]. exists tt. rewrite atob_btoa, length_btoa.
    rewrite bool_decide_eq_true_2 by done. cbn. unfold throw_if.
    rewrite (proj2 (Z.ltb_ge _ _)) by done. split; [|done].
    unfold MAX_INLINE_BASE64_LENGTH, MAX_INLINE_BYTES in *. Z.to_euclidean_division_equations. lia.
Qed.

(** Inline content is accepted exactly when it is the one canonical
    base64 text of at most [MAX_INLINE_BYTES] bytes, and the bytes that are
    digested are the ones it stands for; anything else, one byte too many
    included, is refused. *)
Lemma inline_content_bounds (inline : JsValue) :
  match decodeInline inline with
  | Ok bytes =>
      inline = VStr (btoa bytes) ∧ atob (btoa bytes) = Some bytes ∧
      Z.of_nat (String.length bytes) ≤ MAX_INLINE_BYTES ∧
      Z.of_nat (String.length (btoa bytes)) ≤ MAX_INLINE_BASE64_LENGTH
  | Throw _ =>
      ∀ bytes, inline = VStr (btoa bytes) → MAX_INLINE_BYTES < Z.of_nat (String.length bytes)
  end.
Proof.
  destruct (decodeInline inline) as [bytes|msg] eqn:E.
  - apply decodeInline_ok in E as [-> Hn]. rewrite atob_btoa, length_btoa. split_and!; [done..|].
    unfold MAX_INLINE_BASE64_LENGTH, MAX_INLINE_BYTES in *. Z.to_euclidean_division_equations. lia.
  - intros bytes ->. apply Z.lt_nge. intros Hn.
    assert (decodeInline (VStr (btoa bytes)) = Ok bytes) as E' by (by apply decodeInline_ok).
    by rewrite E' in E.
Qed.

(** *** An op is read back *)

Lemma requireFence_again v f : requireFence v = Ok f → requireFence (Some (VNum f)) = Ok f.
Proof.
  unfold requireFence. destruct (BlobRef.integerFrom 0 v) as [z|] eqn:E; [|done].
  intros [= <-]. by rewrite (BlobRef.integerFrom_again _ _ _ E).
Qed.

Lemma expectedSha_again v s : expectedSha v = Some s → expectedSha (shaObject s) = Some s.
Proof.
  unfold expectedSha, shaObject. destruct v; try done. destruct (bool_decide _); [|done].
  intros H. change (bool_decide _) with true. cbv iota.
  change (assoc_get "sha256" _) with (Some (VStr s)). by eapply isSha256Hex_again.
Qed.

Lemma readPutExpect_again v e :
  readPutExpect v = Ok e → readPutExpect (putExpectToJSON <$> e) = Ok e.
Proof.
  unfold readPutExpect. destruct v as [v|]; [|by intros [= <-]].
  destruct (match v with VStr s => _ | _ => _ end); [by intros [= <-]|].
  destruct (expectedSha v) as [s|] eqn:E; [|done]. intros [= <-].
  cbn [fmap option_fmap option_map putExpectToJSON tombstoneExpectToJSON].
  by rewrite (expectedSha_again _ _ E).
Qed.

Lemma readTombstoneExpect_again v e :
  readTombstoneExpect v = Ok e → readTombstoneExpect (tombstoneExpectToJSON <$> e) = Ok e.
Proof.
  unfold readTombstoneExpect. destruct v as [v|]; [|by intros [= <-]].
  destruct (match v with VStr s => _ | _ => _ end); [by intros [= <-]|].
  destruct (expectedSha v) as [s|] eqn:E; [|done]. intros [= <-].
  cbn [fmap option_fmap option_map putExpectToJSON tombstoneExpectToJSON].
  by rewrite (expectedSha_again _ _ E).
Qed.

Lemma opIntent_again v i : createIntent v = Ok i → createIntent (Some (Intent.toJSON i)) = Ok i.
Proof. destruct v; [|done]. apply Intent.createIntent_again. Qed.

#[local] Instance byKey_comparator : Comparator byKey.
Proof. apply (cmp_on_comparator fst byCodeUnit). apply _. Qed.

Section again.
Context (sha256Hex : string → string) (isUuid isDatetime : string → bool).

Lemma putOp_again intent key blob inline expect acc op :
  putOp sha256Hex intent key blob inline expect acc = Ok op →
  ∃ p, op = Put p ∧ put_key p = key ∧
    (∀ b, content p = Blob b → blob = Some b) ∧
    putOp sha256Hex (Some (Intent.toJSON (put_intent p))) key
      (match content p with Blob b => Some b | Inline _ => None end)
      (match content p with Blob _ => None | Inline s => Some (VStr s) end)
      (putExpectToJSON <$> put_expect p) ((λ a, VStr (FileAccess.toString a)) <$> access p) = Ok op.
Proof.
  unfold putOp. intros (i & Hi & H)%result_bind_ok. apply result_bind_ok in H as (e & He & H).
  apply result_bind_ok in H as (a & Ha & H).
  apply opIntent_again in Hi. apply readPutExpect_again in He.
  apply FileAccess.readFileAccess_again in Ha.
  destruct blob as [b|], inline as [v|]; try done.
  - injection H as <-. eexists. split; [done|]. split; [done|]. split; [cbn; by intros ? [= ->]|].
    cbn [put_intent put_expect access content]. rewrite Hi. cbn [mbind result_bind]. rewrite He.
    cbn [mbind result_bind]. rewrite Ha. done.
  - apply result_bind_ok in H as (bytes & Hb & [= <-]). pose proof Hb as [-> _]%decodeInline_ok.
    eexists. split; [done|]. split; [done|]. split; [done|].
    cbn [put_intent put_expect access content js_toString]. rewrite Hi. cbn [mbind result_bind].
    rewrite He. cbn [mbind result_bind]. rewrite Ha. cbn [mbind result_bind]. by rewrite Hb.
Qed.

Lemma validMetadata_tags m l :
  l ≡ₚ DataMetadata.tags m →
  DataMetadata.validMetadata isUuid isDatetime m = true →
  DataMetadata.validMetadata isUuid isDatetime (m <| DataMetadata.tags := l |>) = true.
Proof.
  intros Hl. unfold DataMetadata.validMetadata. cbn [set_field DataMetadata.tags
    DataMetadata.name DataMetadata.id DataMetadata.version DataMetadata.contentType
    DataMetadata.lifetime DataMetadata.garbageCollection DataMetadata.ownerDefinition
    DataMetadata.createdAt DataMetadata.size DataMetadata.lifecycle DataMetadata.renamedTo].
  rewrite (Permutation_length Hl).
  assert (is_Some (assoc_get "type" (DataMetadata.tags m)) → is_Some (assoc_get "type" l)) as Ht.
  { rewrite !assoc_get_is_Some. by rewrite Hl. }
  intros H. split_bools. repeat match goal with H : ?b = true |- _ =>
    match b with bool_decide _ => fail 1 | _ => rewrite H; clear H end end.
  rewrite !bool_decide_eq_false_2, bool_decide_eq_true_2 by auto. cbn.
  repeat match goal with H : (_ <= _)%Z |- _ => apply Z.leb_le in H; rewrite H; clear H
                       | H : (_ < _)%Z |- _ => apply Z.ltb_lt in H; rewrite H; clear H end.
  done.
Qed.

Lemma dataVersionOp_again key raw op :
  dataVersionOp isUuid isDatetime key raw = Ok op →
  ∃ d, op = DataVersion d ∧ dv_key d = key ∧
    dataVersionOp isUuid isDatetime key (Some (DataMetadata.toJSON (metadata d))) = Ok op.
Proof.
  unfold dataVersionOp. destruct raw as [v|]; [|done].
  change (Some v ≫= _) with (DataMetadata.parse isUuid isDatetime v).
  destruct (DataMetadata.parse isUuid isDatetime v) as [m|] eqn:Hm; [|done].
  intros [= <-]. eexists. split; [done|]. split; [done|]. cbn [metadata].
  change (Some ?x ≫= _) with (DataMetadata.parse isUuid isDatetime x).
  rewrite DataMetadata.parse_toJSON.
  - do 3 f_equal. cbn [set_field DataMetadata.tags]. 
    rewrite (js_sort_id byKey (js_sort byKey _)); [done|]. apply js_sort_sorted, _.
  - apply validMetadata_tags; [apply js_sort_perm|]. by eapply DataMetadata.parse_valid.
Qed.

Lemma leaseOp_again h f op :
  leaseOp h f = Ok op →
  ∃ l, op = Lease l ∧ leaseOp (Some (VStr (holder l))) (Some (VNum (fence l))) = Ok op.
Proof.
  unfold leaseOp. destruct h as [[| | |s| |]|]; try done.
  intros ([] & Hh & H)%result_bind_ok. apply result_bind_ok in H as (z & Hz & [= <-]).
  eexists. split; [done|]. cbn [holder fence]. rewrite Hh. cbn [mbind result_bind].
  by rewrite (requireFence_again _ _ Hz).
Qed.

(** the op of each kind of object *)
Lemma opFromJSON_kind v op :
  opFromJSON sha256Hex isUuid isDatetime v = Ok op →
  (∃ json key blob intent inline expect acc, v = VObj json ∧
     RecordKey.fromJSON (assoc_get "key" json) = Ok key ∧
     match blob with None => True | Some b => ∃ w, BlobRef.fromJSON w = Ok b end ∧
     putOp sha256Hex intent key blob inline expect acc = Ok op) ∨
  (∃ json key intent expect, v = VObj json ∧ RecordKey.fromJSON (assoc_get "key" json) = Ok key ∧
     tombstoneOp intent key expect = Ok op) ∨
  (∃ json key raw, v = VObj json ∧ RecordKey.fromJSON (assoc_get "key" json) = Ok key ∧
     dataVersionOp isUuid isDatetime key raw = Ok op) ∨
  (∃ h f, leaseOp h f = Ok op).
Proof.
  unfold opFromJSON. destruct v as [| | | | |json]; try done.
  destruct (field_string "kind" json) as [k|]; [|done].
  destruct (bool_decide (k = "put")); [intros H; left|].
  { apply result_bind_ok in H as (_ & _ & H). apply result_bind_ok in H as (key & Hk & H).
    apply result_bind_ok in H as (blob & Hb & H). exists json, key, blob. do 4 eexists.
    split; [done|]. split; [done|]. split; [|exact H]. destruct (assoc_get "blob" json) as [w|].
    - apply result_bind_ok in Hb as (b & Hb & [= <-]). eauto.
    - by injection Hb as <-. }
  destruct (bool_decide (k = "tombstone")); [intros H; right; left|].
  { apply result_bind_ok in H as (_ & _ & H). apply result_bind_ok in H as (key & Hk & H).
    exists json, key. do 2 eexists. by split_and!. }
  destruct (bool_decide (k = "data-version")); [intros H; right; right; left|].
  { apply result_bind_ok in H as (_ & _ & H). apply result_bind_ok in H as (key & Hk & H).
    exists json, key. eexists. by split_and!. }
  destruct (bool_decide (k = "lease")); [intros H; right; right; right|done].
  apply result_bind_ok in H as (_ & _ & H). eauto.
Qed.

Lemma opFromJSON_again v op :
  opFromJSON sha256Hex isUuid isDatetime v = Ok op →
  opFromJSON sha256Hex isUuid isDatetime (toJSON op) = Ok op.
Proof.
  intros [(json & key & blob & intent & inline & expect & acc & -> & Hk & Hb & H)|
    [(json & key & intent & expect & -> & Hk & H)|
    [(json & key & raw & -> & Hk & H)|(h & f & H)]]]%opFromJSON_kind.
  - apply putOp_again in H as (p & -> & <- & Hc & H). apply RecordKey.recordKey_JSON_again in Hk.
    destruct p as [i k c s e a]. cbn [put_intent put_key content put_expect access] in *.
    destruct c as [b|text].
    + specialize (Hc b eq_refl). subst blob. destruct Hb as [w Hw%BlobRef.blobRef_JSON_again].
      destruct e, a; cbn -[RecordKey.fromJSON BlobRef.fromJSON putOp BlobRef.toJSON Intent.toJSON];
        eval_keys; rewrite Hk; cbn [mbind result_bind]; rewrite Hw; exact H.
    + destruct e, a; cbn -[RecordKey.fromJSON BlobRef.fromJSON putOp Intent.toJSON];
        eval_keys; rewrite Hk; exact H.
  - revert H. unfold tombstoneOp. intros (i & Hi%opIntent_again & H)%result_bind_ok.
    apply result_bind_ok in H as (e & He%readTombstoneExpect_again & [= <-]).
    apply RecordKey.recordKey_JSON_again in Hk.
    destruct e; cbn -[RecordKey.fromJSON createIntent readTombstoneExpect Intent.toJSON tombstoneOp];
      eval_keys; rewrite Hk; cbn [mbind result_bind]; unfold tombstoneOp; rewrite Hi;
      cbn [mbind result_bind]; cbn [fmap option_fmap option_map tombstoneExpectToJSON] in He;
      cbn [tombstoneExpectToJSON]; rewrite He; done.
  - apply dataVersionOp_again in H as (d & -> & <- & H). apply RecordKey.recordKey_JSON_again in Hk.
    cbn -[RecordKey.fromJSON dataVersionOp DataMetadata.toJSON]. eval_keys. by rewrite Hk.
  - apply leaseOp_again in H as (l & -> & H). cbn -[leaseOp]. eval_keys. exact H.
Qed.

End again.

End Op.
