(* ===== verification/Commit.v ===== *)
(** * Commits

    [src/src/domain/datastore_v3/commit.ts]: one entry of a partition's log. A
    commit is built from its parts by [create], which checks each, or read
    from JSON by [fromJSON], which builds every op through its factory and
    then calls [create]. A field that comes from a caller is a value of type
    [unknown] until it is checked. The theorems show what a commit that exists
    is sure to be, and that its stored form is read back as it was. *)

From Stdlib Require Import Ascii.
From S2P Require Import Prelude JsString JsonText PartitionKey Intent CommitOps.
Local Open Scope Z_scope.

Module Commit.

Definition MAX_COMMIT_OPS : Z := 10000.
Definition MAX_OPS_WITH_LEASE : Z := MAX_COMMIT_OPS + 1.
Definition MAX_FIELD_LENGTH : Z := 1024.

(** ** Instants *)

Inductive isoClass := Digit | Exactly (c : ascii).

Definition classMatches (k : isoClass) (c : ascii) : bool :=
  match k with Digit => isDigit c | Exactly d => Ascii.eqb c d end.

(** [\d{4}-\d{2}-\d{2}T\d{2}:\d{2}:\d{2}] *)
Definition isoShape : list isoClass :=
  [Digit; Digit; Digit; Digit; Exactly "-"; Digit; Digit; Exactly "-"; Digit; Digit; Exactly "T";
   Digit; Digit; Exactly ":"; Digit; Digit; Exactly ":"; Digit; Digit].

(** the rest of the text after the shape, if it starts with it *)
Fixpoint matchClasses (shape : list isoClass) (s : string) : option string :=
  match shape, s with
  | [], _ => Some s
  | k :: shape, String c s => if classMatches k c then matchClasses shape s else None
  | _ :: _, EmptyString => None
  end.

(** [\d+Z$] *)
Fixpoint digitsThenZ (s : string) : bool :=
  match s with
  | String c s' =>
      isDigit c && (bool_decide (s' = "Z") || digitsThenZ s')
  | EmptyString => false
  end.

Definition ISO_INSTANT (s : string) : bool :=
  match matchClasses isoShape s with
  | Some (String c s') =>
      if Ascii.eqb c "." then digitsThenZ s' else bool_decide (String c s' = "Z")
  | _ => false
  end.

Definition field (s : string) (first count : nat) : Z :=
  digits_value 0 (str_take count (str_drop first s)).

Definition isLeapYear (y : Z) : bool :=
  ((y mod 4 =? 0) && negb (y mod 100 =? 0)) || (y mod 400 =? 0).

Definition daysIn (y m : Z) : Z :=
  if m =? 2 then (if isLeapYear y then 29 else 28)
  else if (m =? 4) || (m =? 6) || (m =? 9) || (m =? 11) then 30 else 31.

(** the instant exists as written: [Date.parse] accepts it, and formatting the
    date again gives the same day and time, so nothing rolled over *)
Definition realInstant (s : string) : bool :=
  let y := field s 0 4 in
  let m := field s 5 2 in
  let d := field s 8 2 in
  (1 <=? m) && (m <=? 12) && (1 <=? d) && (d <=? daysIn y m) &&
  (field s 11 2 <=? 23) && (field s 14 2 <=? 59) && (field s 17 2 <=? 59).

Definition requireInstant (value : option JsValue) (label : string) : result string :=
  match value with
  | Some (VStr s) =>
      if ISO_INSTANT s && realInstant s then Ok s
      else Throw ("Commit " +:+ label +:+ " must be an ISO 8601 instant in UTC: " +:+ js_show value)
  | _ => Throw ("Commit " +:+ label +:+ " must be an ISO 8601 instant in UTC: " +:+ js_show value)
  end.

Definition requireText (value : option JsValue) (label : string) : result string :=
  let msg := "Commit " +:+ label +:+ " must be a non-empty string of at most 1024 characters" in
  match value with
  | Some (VStr s) =>
      _ ← throw_if (bool_decide (s = "") || (MAX_FIELD_LENGTH <? Z.of_nat (String.length s))) msg;
      Ok s
  | _ => Throw msg
  end.

(** ** The writer *)

Record CommitWriter := MkWriter { host : string; pid : Z; instance : string }.

#[global] Instance CommitWriter_eq_dec : EqDecision CommitWriter.
Proof. solve_decision. Defined.

Definition readWriter (value : option JsValue) : result CommitWriter :=
  match value with
  | Some (VObj json) =>
      match unknownField ["host"; "pid"; "instance"] json with
      | Some field => Throw ("Commit writer does not take the field '" +:+ field +:+ "'")
      | None =>
          host ← requireText (assoc_get "host" json) "writer.host";
          instance ← requireText (assoc_get "instance" json) "writer.instance";
          match BlobRef.integerFrom 1 (assoc_get "pid" json) with
          | None => Throw "Commit writer.pid must be a positive integer"
          | Some pid => Ok (MkWriter host pid instance)
          end
      end
  | _ => Throw "Commit writer must be an object"
  end.

Definition writerToJSON (w : CommitWriter) : JsValue :=
  VObj [("host", VStr (host w)); ("pid", VNum (pid w)); ("instance", VStr (instance w))].

(** ** Commits *)

Record CommitProps := MkProps {
  p_seq : option JsValue;
  p_partition : PartitionKey.t;
  p_namespace : option JsValue;
  p_txnId : option JsValue;
  p_writer : option JsValue;
  p_executedAt : option JsValue;
  p_clockOffsetMs : option JsValue;
  p_principal : option JsValue;
  p_fence : option JsValue;
  p_at : option JsValue;
  p_ops : list Op.t;
}.

Record t := Mk {
  seq : Z;
  partition : PartitionKey.t;
  namespace : string;
  txnId : string;
  writer : CommitWriter;
  executedAt : option string;
  clockOffsetMs : option Z;
  principal : option string;
  fence : option Z;
  at_ : string;
  ops : list Op.t;
}.

#[global] Instance t_eq_dec : EqDecision t.
Proof. solve_decision. Defined.

(** [if (value !== undefined) check(value)] *)
Definition optional {A} (value : option JsValue) (check : option JsValue → result A)
    : result (option A) :=
  match value with
  | None => Ok None
  | Some v => a ← check (Some v); Ok (Some a)
  end.

Definition isLease (op : Op.t) : bool := match op with Op.Lease _ => true | _ => false end.

(** the partition an op's intent names *)
Definition opIntent (op : Op.t) : option Intent.t :=
  match op with
  | Op.Put p => Some (Op.put_intent p)
  | Op.Tombstone p => Some (Op.tomb_intent p)
  | _ => None
  end.

Definition isModelPartition (k : PartitionKey.t) : bool :=
  match PartitionKey.identity k with PartitionKey.PkModel _ _ => true | _ => false end.

Definition checkOp (partition : PartitionKey.t) (op : Op.t) : result () :=
  _ ← match opIntent op with
      | Some intent =>
          target ← Intent.intentPartition intent;
          throw_if (negb (PartitionKey.equals target partition))
            ("Op intent " +:+ Intent.IntentKind_toString (Intent.kind intent) +:+
             " belongs to partition " +:+ PartitionKey.value target +:+ ", not " +:+
             PartitionKey.value partition)
      | None => Ok tt
      end;
  match op with
  | Op.DataVersion _ =>
      throw_if (negb (isModelPartition partition))
        ("A data-version op belongs in a model partition, not " +:+ PartitionKey.value partition)
  | _ => Ok tt
  end.

Fixpoint checkOps (partition : PartitionKey.t) (ops : list Op.t) : result () :=
  match ops with
  | [] => Ok tt
  | op :: ops => _ ← checkOp partition op; checkOps partition ops
  end.

Definition create (props : CommitProps) : result t :=
  match BlobRef.integerFrom 1 (p_seq props) with
  | None => Throw ("Commit seq must be a positive integer: " +:+ js_show (p_seq props))
  | Some seq =>
      match p_namespace props with
      | Some (VStr namespace) =>
          _ ← throw_if (MAX_FIELD_LENGTH <? Z.of_nat (String.length namespace))
                "Commit namespace must be a string of at most 1024 characters";
          txnId ← requireText (p_txnId props) "txnId";
          writer ← readWriter (p_writer props);
          executedAt ← optional (p_executedAt props) (λ v, requireInstant v "executedAt");
          clockOffsetMs ← optional (p_clockOffsetMs props) (λ v,
            match v with
            | Some (VNum z) => Ok z
            | _ => Throw "Commit clockOffsetMs must be a finite number"
            end);
          principal ← optional (p_principal props) (λ v, requireText v "principal");
          fence ← optional (p_fence props) Op.requireFence;
          at_ ← requireInstant (p_at props) "at";
          _ ← throw_if (bool_decide (p_ops props = [])) "A commit carries at least one op";
          let leaseOps := Z.of_nat (length (List.filter isLease (p_ops props))) in
          let n := Z.of_nat (length (p_ops props)) in
          _ ← throw_if ((MAX_COMMIT_OPS <? n - leaseOps) || (MAX_OPS_WITH_LEASE <? n))
                "A commit carries at most 10000 ops";
          _ ← checkOps (p_partition props) (p_ops props);
          Ok (Mk seq (p_partition props) namespace txnId writer executedAt clockOffsetMs principal
                fence at_ (p_ops props))
      | _ => Throw "Commit namespace must be a string of at most 1024 characters"
      end
  end.

Section json.
Context (sha256Hex : string → string) (isUuid isDatetime : string → bool).

Fixpoint opsFromJSON (l : list JsValue) : result (list Op.t) :=
  match l with
  | [] => Ok []
  | v :: l =>
      op ← Op.opFromJSON sha256Hex isUuid isDatetime v;
      rest ← opsFromJSON l;
      Ok (op :: rest)
  end.

Definition commitFields : list string :=
  ["v"; "seq"; "partition"; "namespace"; "txnId"; "writer"; "executedAt"; "clockOffsetMs";
   "principal"; "fence"; "at"; "ops"].

Definition fromJSON (value : JsValue) : result t :=
  match value with
  | VObj json =>
      match unknownField commitFields json with
      | Some field => Throw ("A commit does not take the field '" +:+ field +:+ "'")
      | None =>
          _ ← match assoc_get "v" json with
              | Some (VNum 3) => Ok tt
              | v => Throw ("Unsupported commit format: v" +:+ js_show v)
              end;
          match assoc_get "partition" json with
          | Some (VStr key) =>
              match assoc_get "ops" json with
              | Some (VArr l) =>
                  _ ← throw_if (MAX_OPS_WITH_LEASE <? Z.of_nat (length l))
                        "A commit carries at most 10000 ops";
                  ops ← opsFromJSON l;
                  partition ← PartitionKey.parse key;
                  create (MkProps (assoc_get "seq" json) partition (assoc_get "namespace" json)
                    (assoc_get "txnId" json) (assoc_get "writer" json) (assoc_get "executedAt" json)
                    (assoc_get "clockOffsetMs" json) (assoc_get "principal" json)
                    (assoc_get "fence" json) (assoc_get "at" json) ops)
              | _ => Throw "Commit ops must be an array"
              end
          | _ => Throw "Commit partition must be a string"
          end
      end
  | _ => Throw "A commit must be an object"
  end.

End json.

Definition fields (c : t) : list (string * JsValue) :=
  ([("v", VNum 3); ("seq", VNum (seq c));
         ("partition", VStr (PartitionKey.value (partition c)));
         ("namespace", VStr (namespace c)); ("txnId", VStr (txnId c));
         ("writer", writerToJSON (writer c))] ++
        optField "executedAt" VStr (executedAt c) ++
        optField "clockOffsetMs" VNum (clockOffsetMs c) ++
        optField "principal" VStr (principal c) ++
        optField "fence" VNum (fence c) ++
        [("at", VStr (at_ c)); ("ops", VArr (Op.toJSON <$> ops c))]).

Definition toJSON (c : t) : JsValue := VObj (fields c).

(** the chunks of the blobs its puts refer to, each once *)
Definition chunkRefs (c : t) : list string :=
  set_of (ops c ≫= λ op,
    match op with
    | Op.Put p =>
        match Op.content p with Op.Blob b => BlobRef.chunkHashes b | Op.Inline _ => [] end
    | _ => []
    end).

Definition equals (a b : t) : bool := bool_decide (json_text (toJSON a) = json_text (toJSON b)).

(** ** What [create] has checked *)

Lemma optional_again {A} (check : option JsValue → result A) (f : A → JsValue) v a :
  (∀ w b, check w = Ok b → check (Some (f b)) = Ok b) →
  optional v check = Ok a → optional (f <$> a) check = Ok a.
Proof.
  intros Hc. unfold optional. destruct v as [v|]; [|by intros [= <-]].
  intros (b & Hb & [= <-])%result_bind_ok. cbn [fmap option_fmap option_map].
  by rewrite (Hc _ _ Hb).
Qed.

Lemma requireText_again v label s : requireText v label = Ok s → requireText (Some (VStr s)) label = Ok s.
Proof.
  unfold requireText. destruct v as [[| | |x| |]|]; try done.
  intros ([] & H & [= <-])%result_bind_ok. by rewrite H.
Qed.

Lemma requireInstant_again v label s :
  requireInstant v label = Ok s → requireInstant (Some (VStr s)) label = Ok s.
Proof.
  unfold requireInstant. destruct v as [[| | |x| |]|]; try done.
  destruct (ISO_INSTANT x && realInstant x) eqn:E; [|done]. intros [= <-]. by rewrite E.
Qed.

Lemma readWriter_again v w : readWriter v = Ok w → readWriter (Some (writerToJSON w)) = Ok w.
Proof.
  unfold readWriter. destruct v as [[| | | | |json]|]; try done.
  destruct (unknownField _ json); [done|].
  intros (h & Hh & H)%result_bind_ok. apply result_bind_ok in H as (i & Hi & H).
  destruct (BlobRef.integerFrom 1 _) as [p|] eqn:Hp; [|done]. injection H as <-.
  unfold writerToJSON. change (unknownField _ _) with (None (A := string)).
  change (assoc_get "host" _) with (Some (VStr h)). change (assoc_get "instance" _) with (Some (VStr i)).
  change (assoc_get "pid" _) with (Some (VNum p)).
  rewrite (requireText_again _ _ _ Hh). cbn [mbind result_bind].
  rewrite (requireText_again _ _ _ Hi). cbn [mbind result_bind].
  by rewrite (BlobRef.integerFrom_again _ _ _ Hp).
Qed.

(** the parts of a commit as [create] takes them *)
Definition toProps (c : t) : CommitProps :=
  MkProps (Some (VNum (seq c))) (partition c) (Some (VStr (namespace c))) (Some (VStr (txnId c)))
    (Some (writerToJSON (writer c))) (VStr <$> executedAt c) (VNum <$> clockOffsetMs c)
    (VStr <$> principal c) (VNum <$> fence c) (Some (VStr (at_ c))) (ops c).

Lemma commit_again props c :
  create props = Ok c →
  create (toProps c) = Ok c ∧ partition c = p_partition props ∧ ops c = p_ops props.
Proof.
  unfold create. destruct (BlobRef.integerFrom 1 _) as [sq|] eqn:Hs; [|done].
  destruct (p_namespace props) as [[| | |ns| |]|]; try done.
  intros ([] & Hn & H)%result_bind_ok. apply result_bind_ok in H as (tx & Ht & H).
  apply result_bind_ok in H as (w & Hw & H). apply result_bind_ok in H as (ex & Hex & H).
  apply result_bind_ok in H as (co & Hco & H). apply result_bind_ok in H as (pr & Hpr & H).
  apply result_bind_ok in H as (fe & Hfe & H). apply result_bind_ok in H as (at' & Hat & H).
  apply result_bind_ok in H as ([] & He & H). apply result_bind_ok in H as ([] & Hm & H).
  apply result_bind_ok in H as ([] & Ho & [= <-]). split; [|done].
  unfold toProps. cbn [p_seq p_partition p_namespace p_txnId p_writer p_executedAt p_clockOffsetMs
    p_principal p_fence p_at p_ops seq partition namespace txnId writer executedAt clockOffsetMs
    principal fence at_ ops].
  rewrite (BlobRef.integerFrom_again _ _ _ Hs), Hn. cbn [mbind result_bind].
  rewrite (requireText_again _ _ _ Ht). cbn [mbind result_bind].
  rewrite (readWriter_again _ _ Hw). cbn [mbind result_bind].
  rewrite (optional_again _ VStr _ _ (λ w b, requireInstant_again w _ b) Hex). cbn [mbind result_bind].
  rewrite (optional_again _ VNum _ co) by (done || by intros [[]|]). cbn [mbind result_bind].
  rewrite (optional_again _ VStr _ _ (λ w b, requireText_again w _ b) Hpr). cbn [mbind result_bind].
  rewrite (optional_again _ VNum _ _ (λ w b, Op.requireFence_again w b) Hfe). cbn [mbind result_bind].
  rewrite (requireInstant_again _ _ _ Hat). cbn [mbind result_bind].
  rewrite He. cbn [mbind result_bind]. rewrite Hm. cbn [mbind result_bind]. by rewrite Ho.
Qed.

Lemma create_inv props c :
  create props = Ok c →
  BlobRef.integerFrom 1 (p_seq props) = Some (seq c) ∧
  optional (p_fence props) Op.requireFence = Ok (fence c) ∧ p_ops props ≠ [] ∧
  Z.of_nat (length (p_ops props)) - Z.of_nat (length (List.filter isLease (p_ops props))) ≤
    MAX_COMMIT_OPS ∧
  Z.of_nat (length (p_ops props)) ≤ MAX_OPS_WITH_LEASE ∧
  checkOps (p_partition props) (p_ops props) = Ok tt.
Proof.
  unfold create. destruct (BlobRef.integerFrom 1 _) as [sq|] eqn:Hs; [|done].
  destruct (p_namespace props) as [[| | |ns| |]|]; try done.
  intros (_ & _ & H)%result_bind_ok. apply result_bind_ok in H as (tx & _ & H).
  apply result_bind_ok in H as (w & _ & H). apply result_bind_ok in H as (ex & _ & H).
  apply result_bind_ok in H as (co & _ & H). apply result_bind_ok in H as (pr & _ & H).
  apply result_bind_ok in H as (fe & Hfe & H). apply result_bind_ok in H as (at' & _ & H).
  apply result_bind_ok in H as ([] & He & H). apply result_bind_ok in H as ([] & Hm & H).
  apply result_bind_ok in H as ([] & Ho & [= <-]). apply throw_if_ok in He, Hm. by split_bools.
Qed.

Lemma checkOps_ok partition ops u :
  checkOps partition ops = Ok u ↔ ∀ op, op ∈ ops → checkOp partition op = Ok tt.
Proof.
  destruct u. induction ops as [|op ops IH]; cbn [checkOps]; [set_solver|].
  rewrite result_bind_ok. setoid_rewrite IH. split.
  - intros ([] & ? & ?) op'. rewrite elem_of_cons. naive_solver.
  - intros H. exists tt. split; [apply H; set_solver|]. intros op' ?. apply H. set_solver.
Qed.

Lemma checkOp_ok partition op :
  checkOp partition op = Ok tt ↔
  (∀ intent, opIntent op = Some intent → ∃ target,
     Intent.intentPartition intent = Ok target ∧ PartitionKey.value target = PartitionKey.value partition) ∧
  (∀ d, op = Op.DataVersion d → isModelPartition partition = true).
Proof.
  unfold checkOp. rewrite result_bind_ok. split.
  - intros ([] & H1 & H2). split.
    + intros intent E. rewrite E in H1. apply result_bind_ok in H1 as (target & Ht & H1).
      apply throw_if_ok, negb_false_iff in H1. unfold PartitionKey.equals in H1. split_bools. eauto.
    + intros d ->. by apply throw_if_ok, negb_false_iff in H2.
  - intros [H1 H2]. exists tt. split.
    + destruct (opIntent op) as [intent|] eqn:E; [|done]. destruct (H1 intent eq_refl) as (tg & -> & Hv).
      cbn [mbind result_bind]. apply throw_if_ok, negb_false_iff. by apply bool_decide_eq_true.
    + destruct op as [| |d|]; try done. apply throw_if_ok, negb_false_iff. by eapply H2.
Qed.


(** ** The stored form *)

Section roundtrip.
Context (sha256Hex : string → string) (isUuid isDatetime : string → bool).

(** an op one of the factories made *)
Definition builtOp (op : Op.t) : Prop :=
  Op.opFromJSON sha256Hex isUuid isDatetime (Op.toJSON op) = Ok op.

Lemma opsFromJSON_toJSON ops :
  (∀ op, op ∈ ops → builtOp op) →
  opsFromJSON sha256Hex isUuid isDatetime (Op.toJSON <$> ops) = Ok ops.
Proof.
  induction ops as [|op ops IH]; intros H; [done|].
  change (Op.toJSON <$> op :: ops) with (Op.toJSON op :: (Op.toJSON <$> ops)).
  cbn [opsFromJSON]. rewrite (H op) by set_solver. cbn [mbind result_bind].
  rewrite IH; [done|]. intros op' ?. apply H. set_solver.
Qed.

Lemma opsFromJSON_built l ops :
  opsFromJSON sha256Hex isUuid isDatetime l = Ok ops → ∀ op, op ∈ ops → builtOp op.
Proof.
  revert ops. induction l as [|v l IH]; intros ops; cbn [opsFromJSON].
  - intros [= <-] op []%elem_of_nil.
  - intros (op & Hop & H)%result_bind_ok. apply result_bind_ok in H as (rest & Hr & [= <-]).
    intros op' [->|Hin]%elem_of_cons; [by eapply Op.opFromJSON_again|]. by eapply IH.
Qed.

Lemma fromJSON_toJSON c :
  create (toProps c) = Ok c → PartitionKey.parse (PartitionKey.value (partition c)) = Ok (partition c) →
  (∀ op, op ∈ ops c → builtOp op) → fromJSON sha256Hex isUuid isDatetime (toJSON c) = Ok c.
Proof.
  intros Hc Hp Ho. unfold fromJSON, toJSON.
  assert (Z.of_nat (length (ops c)) ≤ MAX_OPS_WITH_LEASE) as Hl.
  { apply create_inv in Hc as (_ & _ & _ & _ & ? & _). done. }
  assert (unknownField commitFields (fields c) = None) as Hf.
  { unfold fields. repeat apply unknownField_app;
      first [reflexivity | apply unknownField_optField, (bool_decide_unpack _); vm_compute; exact I]. }
  rewrite Hf. unfold fields.
  rewrite !assoc_get_app, !assoc_get_optField. cbn [assoc_get]. eval_keys.
  rewrite length_fmap. unfold throw_if at 1. rewrite (proj2 (Z.ltb_ge _ _)) by done.
  cbn [mbind result_bind]. rewrite opsFromJSON_toJSON by done. cbn [mbind result_bind].
  rewrite Hp. cbn [mbind result_bind]. etransitivity; [|exact Hc]. unfold toProps. f_equal.
  f_equal; by destruct (executedAt c), (clockOffsetMs c), (principal c), (fence c).
Qed.

(** every commit that was read is written as a text that reads as itself *)
Lemma fromJSON_again json c :
  fromJSON sha256Hex isUuid isDatetime json = Ok c →
  fromJSON sha256Hex isUuid isDatetime (toJSON c) = Ok c.
Proof.
  unfold fromJSON at 1. destruct json as [| | | | |json]; try done.
  destruct (unknownField _ json); [done|]. intros (_ & _ & H)%result_bind_ok.
  destruct (assoc_get "partition" json) as [[| | |key| |]|]; try done.
  destruct (assoc_get "ops" json) as [[| | | |l|]|]; try done.
  apply result_bind_ok in H as (_ & _ & H). apply result_bind_ok in H as (ops & Hops & H).
  apply result_bind_ok in H as (k & Hk & H). apply commit_again in H as (Hc & Hp & Ho).
  cbn in Hp, Ho. apply fromJSON_toJSON; [done| |].
  - rewrite Hp. apply PartitionKey.parse_ok in Hk as (_ & i & ? & ?). by eapply PartitionKey.parse_made.
  - rewrite Ho. by eapply opsFromJSON_built.
Qed.


End roundtrip.

(** a commit that writes the lockfile *)
Definition sampleKey : PartitionKey.t :=
  PartitionKey.Mk "config--lockfile--upstream_extensions" PartitionKey.PkLockfile.

Definition sampleOp : Op.t :=
  Op.Put (Op.MkPut (Intent.InLockfile Intent.KLockfileWrite) (RecordKey.Mk "upstream_extensions.json")
    (Op.Inline "e30=") "{}" (Some Op.PutAbsent) (Some FileAccess.Private)).

Definition sampleProps : CommitProps :=
  MkProps (Some (VNum 1)) sampleKey (Some (VStr "")) (Some (VStr "txn-1"))
    (Some (VObj [("host", VStr "h"); ("pid", VNum 7); ("instance", VStr "i")])) None (Some (VNum (-4)))
    (Some (VStr "user:ada")) (Some (VNum 2)) (Some (VStr "2026-02-28T09:30:00.125Z")) [sampleOp].



(** February 30 and a second 60 are refused *)
Example unreal_instants :
  (realInstant "2026-02-30T00:00:00Z", realInstant "2024-02-29T23:59:59Z",
   realInstant "2026-01-01T00:00:60Z", ISO_INSTANT "2026-01-01T00:00:00.Z") = (false, true, false, false).
Proof. vm_compute. reflexivity. Qed.

End Commit.
