(* ===== verification/IntentKeyPaths.v ===== *)
(** * Which record keys an intent may write

    [src/src/domain/datastore_v3/intent_key_paths.ts]: a commit is authorised by
    its intents, so each op's key must belong to the aggregate its intent names.
    [bindKey] decides it from the layout of the repository.

    The theorem shows that the layout keeps aggregates apart: a key that is
    bound by its name or id is bound to one aggregate only. *)

From Stdlib Require Import Ascii.
From S2P Require Import Prelude JsString ModelType PartitionKey DataMetadata Intent CommitOps Commit.
Local Open Scope nat_scope.

(** ** Helpers on text *)

(** [s.endsWith(suffix)] *)
Definition endsWith (s suffix : string) : bool :=
  (String.length suffix <=? String.length s) &&
  bool_decide (str_drop (String.length s - String.length suffix) s = suffix).

(** [s.slice(0, -n)] *)
Definition sliceEnd (n : nat) (s : string) : string := str_take (String.length s - n) s.

Module IntentKeyPaths.
Import Intent.

Inductive IntentOpKind := OpPut | OpTombstone.

#[global] Instance IntentOpKind_eq_dec : EqDecision IntentOpKind.
Proof. solve_decision. Defined.

Inductive KeyBindingRefusal := KeyOutsideAggregate | OpKindNotAllowed | DefinitionTypeUnknown.

Inductive KeyBinding :=
| Bound (fileId fileName : option string) (type : option ModelType.t)
| Refused (reason : KeyBindingRefusal).

Definition BOTH : list IntentOpKind := [OpPut; OpTombstone].
Definition PUT : list IntentOpKind := [OpPut].
Definition TOMBSTONE : list IntentOpKind := [OpTombstone].

Definition OP_KINDS (k : IntentKind) : list IntentOpKind :=
  match k with
  | KDataSave | KDataAppend => PUT
  | KDataDelete | KDataGc => BOTH
  | KDataRename => PUT
  | KOutputSave => PUT
  | KOutputDelete => TOMBSTONE
  | KEvaluatedDefinitionSave => PUT
  | KEvaluatedDefinitionDelete => TOMBSTONE
  | KGrantCreate | KGrantRevoke | KGroupCreate | KGroupUpdate | KTokenCreate | KTokenRevoke
  | KTokenRotate | KWorkerTokenCreate | KWorkerTokenRevoke => PUT
  | KWorkerDelete => BOTH
  | KRunCreate | KRunUpdate => PUT
  | KRunDelete => TOMBSTONE
  | KRunSnapshotSave => PUT
  | KRunSnapshotDelete => TOMBSTONE
  | KRunStartSave => PUT
  | KRunStartDelete => TOMBSTONE
  | KDefinitionCreate | KDefinitionEdit => BOTH
  | KDefinitionDelete => TOMBSTONE
  | KEvaluatedWorkflowSave => PUT
  | KEvaluatedWorkflowDelete => TOMBSTONE
  | KDefinitionRenameTo => PUT
  | KDefinitionRenameFrom => TOMBSTONE
  | KAutoDefinitionSave => PUT
  | KAutoDefinitionDelete => TOMBSTONE
  | KLockfileWrite => PUT
  end.

Definition opKindAllowed (intent : Intent.t) (opKind : IntentOpKind) : bool :=
  bool_decide (opKind ∈ OP_KINDS (kind intent)).

Definition LOCKFILE_RECORD_KEY : string := "config/upstream_extensions.json".

(** [^[0-9a-f]{64}\.yaml$] *)
Definition STEP_START_FILE_PATTERN (file : string) : bool :=
  bool_decide (String.length file = 69) && all_chars PartitionKey.isLowerHex (str_take 64 file) &&
  bool_decide (str_drop 64 file = ".yaml").

(** [segments[i] === s] *)
Definition segIs (segments : list string) (i : nat) (s : string) : bool :=
  bool_decide (segments !! i = Some s).

(** [segments[segments.length - n]] *)
Definition fromEnd (segments : list string) (n : nat) : option string :=
  if n <=? length segments then segments !! (length segments - n) else None.

Definition typeUnder (segments : list string) (from to : nat) : option ModelType.t :=
  if to <=? from then None
  else
    let spelled := join "/" (take (to - from) (drop from segments)) in
    match ModelType.create spelled with
    | Throw _ => None
    | Ok type => if bool_decide (ModelType.normalized type = spelled) then Some type else None
    end.

Record FileNaming := MkNaming {
  ids : option (list string);
  n_names : option (list string);
  anyName : bool;
}.

Definition typedFile (segments : list string) (root : string) (expectedType : option string)
    (naming : FileNaming) : option KeyBinding :=
  if (length segments <? 3) || negb (segIs segments 0 root) then None
  else
    match typeUnder segments 1 (length segments - 1) with
    | None => Some (Refused DefinitionTypeUnknown)
    | Some type =>
        if match expectedType with
           | Some expected => negb (bool_decide (ModelType.normalized type = expected))
           | None => false
           end
        then None
        else
          match fromEnd segments 1 with
          | None => None
          | Some file =>
              if negb (endsWith file ".yaml") then None
              else
                let stem := sliceEnd 5 file in
                if PartitionKey.UUID stem then
                  match ids naming with
                  | None => Some (Bound (Some stem) None (Some type))
                  | Some l =>
                      if bool_decide (stem ∈ l) then Some (Bound None None (Some type)) else None
                  end
                else if match n_names naming with
                        | Some l => bool_decide (stem ∈ l)
                        | None => false
                        end
                then Some (Bound None None (Some type))
                else if anyName naming then Some (Bound None (Some stem) (Some type)) else None
          end
    end.

Definition namedFile (file prefix : string) (names : list string) : option KeyBinding :=
  if negb (startsWith file prefix) || negb (endsWith file ".yaml") then None
  else
    let stem := str_drop (String.length prefix) (sliceEnd 5 file) in
    if PartitionKey.UUID stem then Some (Bound (Some stem) None None)
    else if bool_decide (stem ∈ names) then Some (Bound None None None) else None.

Inductive DataPart := OnlyLatest | OnlyVersion.

#[global] Instance DataPart_eq_dec : EqDecision DataPart.
Proof. solve_decision. Defined.

(** [^[1-9][0-9]*$] *)
Definition positiveDigits (s : string) : bool :=
  match s with
  | EmptyString => false
  | String c s => in_range 49 57 c && all_chars isDigit s
  end.

(** the loop that compares the segments of the type *)
Fixpoint typeSegmentsAt (segments : list string) (i : nat) (typeSegments : list string) : bool :=
  match typeSegments with
  | [] => true
  | s :: rest => segIs segments i s && typeSegmentsAt segments (S i) rest
  end.

Definition dataKey (model : ModelRef) (segments : list string) (names : option (list string))
    (version : option Z) (only : option DataPart) : option KeyBinding :=
  if negb (segIs segments 0 "data") then None
  else
    let typeSegments := splitOn "/" (mr_type model) in
    let idIndex := 1 + length typeSegments in
    if negb (typeSegmentsAt segments 1 typeSegments) then None
    else if negb (segIs segments idIndex (mr_id model)) then None
    else
      match drop (idIndex + 1) segments with
      | [] => None
      | name :: below =>
          if match names with Some l => negb (bool_decide (name ∈ l)) | None => false end then None
          else
            match below with
            | [last] =>
                if bool_decide (last = "latest") then
                  if bool_decide (only = Some OnlyVersion) then None else Some (Bound None None None)
                else None
            | [versionSegment; file] =>
                if bool_decide (only = Some OnlyLatest) then None
                else if negb (bool_decide (file = "raw")) && negb (bool_decide (file = "metadata.yaml"))
                then None
                else if negb (positiveDigits versionSegment) then None
                else if match version with
                        | Some v => negb (digits_value 0 versionSegment =? v)%Z
                        | None => false
                        end
                then None
                else Some (Bound None None None)
            | _ => None
            end
      end.

(** [^(.+)-(\d{4}-\d{2}-\d{2}T\d{2}-\d{2}-\d{2}-\d{3}Z)\.yaml$], after the first group *)
Definition stampShape : list Commit.isoClass :=
  let d := Commit.Digit in
  let e := Commit.Exactly in
  [e "-"%char; d; d; d; d; e "-"%char; d; d; e "-"%char; d; d; e "T"%char; d; d; e "-"%char; d; d;
   e "-"%char; d; d; e "-"%char; d; d; d; e "Z"%char; e "."%char; e "y"%char; e "a"%char; e "m"%char;
   e "l"%char].

Definition STAMP_LENGTH : nat := 30.

(** the first group of [OUTPUT_FILE] *)
Definition OUTPUT_FILE (file : string) : option string :=
  let id := sliceEnd STAMP_LENGTH file in
  let rest := str_drop (String.length id) file in
  if bool_decide (id = "") || includesChar (ascii_of_nat 10) id || includesChar (ascii_of_nat 13) id
  then None
  else if bool_decide (Commit.matchClasses stampShape rest = Some "") then Some id else None.

Definition isOutputFileOf (file modelId : string) : bool :=
  bool_decide (OUTPUT_FILE file = Some modelId).

Definition definitionKey (definition : DefinitionRef) (segments names : list string)
    : option KeyBinding :=
  if negb (segIs segments 0 "config") then None
  else
    match dr_kind definition with
    | PartitionKey.DkModel =>
        typedFile (drop 1 segments) "models" None (MkNaming None (Some names) false)
    | PartitionKey.DkVault => typedFile (drop 1 segments) "vaults" None (MkNaming None None false)
    | PartitionKey.DkWorkflow =>
        match segments with
        | [_; second; file] =>
            if bool_decide (second = "workflows") then namedFile file "workflow-" names else None
        | _ => None
        end
    end.

(** a file of the given segments exactly *)
Definition boundIf (c : bool) : option KeyBinding := if c then Some (Bound None None None) else None.

Definition outputKey (model : ModelRef) (segments : list string) : option KeyBinding :=
  boundIf ((4 <=? length segments) && segIs segments 0 "outputs" &&
    bool_decide ((ModelType.normalized <$> typeUnder segments 1 (length segments - 2)) =
                 Some (mr_type model)) &&
    match fromEnd segments 1 with Some file => isOutputFileOf file (mr_id model) | None => false end).

Definition bindSegments (intent : Intent.t) (segments : list string) : option KeyBinding :=
  match intent with
  | InData _ model name version => dataKey model segments (Some [name]) (Some version) None
  | InDataOpt _ model name version =>
      dataKey model segments (Some [name]) version
        (Some (match version with None => OnlyLatest | Some _ => OnlyVersion end))
  | InRename _ model name to => dataKey model segments (Some [name; to]) None None
  | InOutput _ model _ => outputKey model segments
  | InModel (KEvaluatedDefinitionSave | KEvaluatedDefinitionDelete) model =>
      typedFile segments "definitions-evaluated" (Some (mr_type model))
        (MkNaming (Some [mr_id model]) None true)
  | InModel _ model => dataKey model segments None None None
  | InRun (KRunStartSave | KRunStartDelete) run =>
      boundIf ((length segments =? 5) && segIs segments 0 "workflow-runs" &&
        segIs segments 1 (rr_workflowId run) && segIs segments 2 "starts" &&
        segIs segments 3 (rr_runId run) &&
        match segments !! 4 with Some file => STEP_START_FILE_PATTERN file | None => false end)
  | InRun (KRunSnapshotSave | KRunSnapshotDelete) run =>
      boundIf ((length segments =? 4) && segIs segments 0 "workflows-evaluated" &&
        segIs segments 1 "runs" && segIs segments 2 (rr_runId run) &&
        segIs segments 3 "evaluated-workflow.yaml")
  | InRun _ run =>
      boundIf ((length segments =? 3) && segIs segments 0 "workflow-runs" &&
        segIs segments 1 (rr_workflowId run) &&
        segIs segments 2 ("workflow-run-" +:+ rr_runId run +:+ ".yaml"))
  | InDefinition (KEvaluatedWorkflowSave | KEvaluatedWorkflowDelete) definition =>
      match segments with
      | [first; file] =>
          if bool_decide (first = "workflows-evaluated")
          then namedFile file "workflow-" [dr_name definition] else None
      | _ => None
      end
  | InDefinition _ definition => definitionKey definition segments [dr_name definition]
  | InRenameTo _ definition from => definitionKey definition segments [dr_name definition; from]
  | InRenameFrom _ definition to => definitionKey definition segments [dr_name definition; to]
  | InAuto _ id => typedFile segments "auto-definitions" None (MkNaming (Some [id]) None true)
  | InLockfile _ => boundIf (bool_decide (join "/" segments = LOCKFILE_RECORD_KEY))
  end.

Definition bindKey (intent : Intent.t) (opKind : IntentOpKind) (key : RecordKey.t) : KeyBinding :=
  if negb (opKindAllowed intent opKind) then Refused OpKindNotAllowed
  else default (Refused KeyOutsideAggregate) (bindSegments intent (splitOn "/" (RecordKey.value key))).

Inductive ModelRecordKind := MrData | MrModel.

Definition isBound (b : option KeyBinding) : bool :=
  match b with Some (Bound _ _ _) => true | _ => false end.

Definition modelRecordKind (model : ModelRef) (key : RecordKey.t) : option ModelRecordKind :=
  let segments := splitOn "/" (RecordKey.value key) in
  if bool_decide (is_Some (dataKey model segments None None None)) then Some MrData
  else if isBound (bindSegments (InOutput KOutputSave model "") segments) then Some MrModel
  else if isBound (bindSegments (InModel KEvaluatedDefinitionSave model) segments) then Some MrModel
  else None.

Example bind_data : 
  isBound (bindSegments (InData KDataSave (MkModelRef "aws/ec2" PartitionKey.sampleUuid) "state" 3)
    (splitOn "/" ("data/aws/ec2/" +:+ PartitionKey.sampleUuid +:+ "/state/3/raw"))) = true.
Proof. vm_compute. reflexivity. Qed.

Example bind_output : 
  isBound (bindSegments (InOutput KOutputSave (MkModelRef "aws/ec2" PartitionKey.sampleUuid) "o")
    (splitOn "/" ("outputs/aws/ec2/sync/" +:+ PartitionKey.sampleUuid +:+ "-2026-01-02T03-04-05-678Z.yaml"))) = true.
Proof. vm_compute. reflexivity. Qed.

(** ** The aggregate a key names *)

Inductive Owner :=
| OwModel (model : ModelRef)
| OwRun (run : RunRef)
| OwConfig (kind : PartitionKey.DefinitionKind) (name : string)
| OwAuto (id : string)
| OwLockfile.

Definition intentOwner (i : Intent.t) : Owner :=
  match i with
  | InModel _ m | InData _ m _ _ | InDataOpt _ m _ _ | InRename _ m _ _ | InOutput _ m _ => OwModel m
  | InRun _ run => OwRun run
  | InDefinition _ d | InRenameTo _ d _ | InRenameFrom _ d _ => OwConfig (dr_kind d) (dr_name d)
  | InAuto _ id => OwAuto id
  | InLockfile _ => OwLockfile
  end.

Definition ownerPartition (w : Owner) : result PartitionKey.t :=
  match w with
  | OwModel m => modelPartition m
  | OwRun run => PartitionKey.partitionOf (PartitionKey.AgRun (rr_workflowId run) (rr_runId run))
  | OwConfig kind name => PartitionKey.partitionOf (PartitionKey.AgConfig kind name)
  | OwAuto id => PartitionKey.partitionOf (PartitionKey.AgDefinition id)
  | OwLockfile => PartitionKey.partitionOf PartitionKey.AgLockfile
  end.

Lemma intentPartition_owner i : intentPartition i = ownerPartition (intentOwner i).
Proof. by destruct i. Qed.

(** the name of a file without its extension *)
Definition stemOf (segments : list string) : string := sliceEnd 5 (default "" (fromEnd segments 1)).

(** the type between the first segment and the last [n] *)
Definition typeBefore (segments : list string) (n : nat) : string :=
  join "/" (take (length segments - n - 1) (drop 1 segments)).

(** reading the aggregate off the key alone *)
Definition keyOwner (segments : list string) : option Owner :=
  let n := length segments in
  if segIs segments 0 "data" then
    let below := if bool_decide (fromEnd segments 1 = Some "latest") then 3 else 4 in
    OwModel ∘ MkModelRef (typeBefore segments below) <$> fromEnd segments below
  else if segIs segments 0 "outputs" then
    OwModel ∘ MkModelRef (typeBefore segments 2) <$> (fromEnd segments 1 ≫= OUTPUT_FILE)
  else if segIs segments 0 "definitions-evaluated" then
    Some (OwModel (MkModelRef (typeBefore segments 1) (stemOf segments)))
  else if segIs segments 0 "workflow-runs" then
    match segments with
    | [_; workflowId; file] => Some (OwRun (MkRunRef workflowId (sliceEnd 5 (str_drop 13 file))))
    | [_; workflowId; _; runId; _] => Some (OwRun (MkRunRef workflowId runId))
    | _ => None
    end
  else if segIs segments 0 "workflows-evaluated" then
    Some (OwConfig PartitionKey.DkWorkflow (str_drop 9 (stemOf segments)))
  else if segIs segments 0 "auto-definitions" then Some (OwAuto (stemOf segments))
  else if segIs segments 1 "models" then Some (OwConfig PartitionKey.DkModel (stemOf segments))
  else if segIs segments 1 "workflows" then
    Some (OwConfig PartitionKey.DkWorkflow (str_drop 9 (stemOf segments)))
  else Some OwLockfile.

(** an intent that names the one aggregate its key belongs to: a rename names
    two, and the snapshot of a run is kept under the run's id alone *)
Definition namesOneOwner (i : Intent.t) : bool :=
  match i with
  | InRenameTo _ _ _ | InRenameFrom _ _ _ => false
  | InRun (KRunSnapshotSave | KRunSnapshotDelete) _ => false
  | _ => true
  end.

Lemma join_splitOn s : join "/" (splitOn "/" s) = s.
Proof.
  induction s as [|c s IH]; [done|]. cbn [splitOn].
  destruct (splitOn "/" s) as [|w ws] eqn:E; [by destruct s; cbn in E; [|destruct (splitOn "/" s)]|].
  destruct (Ascii.eqb "/" c) eqn:Ec.
  - apply ascii_eqb_true in Ec as <-. change (String "/" (join "/" (w :: ws)) = String "/" s). by rewrite IH.
  - rewrite <-IH. by destruct ws.
Qed.

Lemma typeSegmentsAt_spec segments i ts :
  typeSegmentsAt segments i ts = true → take (length ts) (drop i segments) = ts.
Proof.
  revert i. induction ts as [|t ts IH]; intros i; [done|]. cbn [typeSegmentsAt length].
  rewrite andb_true_iff. unfold segIs. rewrite bool_decide_eq_true. intros [Ht Hts%IH].
  rewrite (drop_S _ _ _ Ht). cbn. by f_equal.
Qed.

Lemma fromEnd_app {n} (l r : list string) : length r = n → 1 ≤ n → fromEnd (l ++ r) n = head r.
Proof.
  intros Hr Hn. unfold fromEnd. rewrite length_app. rewrite (proj2 (Nat.leb_le _ _)) by lia.
  rewrite lookup_app_r by lia. replace (length l + length r - n - length l) with 0 by lia.
  by destruct r.
Qed.

(** what a bound data key looks like *)
Lemma dataKey_shape m segments names version only b :
  dataKey m segments names version only = Some b →
  ∃ name below, segments = ("data" :: splitOn "/" (mr_type m)) ++ mr_id m :: name :: below ∧
    (below = ["latest"] ∨ ∃ v file, below = [v; file] ∧ file ≠ "latest").
Proof.
  unfold dataKey. destruct (segIs segments 0 "data") eqn:E0; [|done]. cbn [negb].
  set (ts := splitOn "/" (mr_type m)).
  destruct (typeSegmentsAt segments 1 ts) eqn:Et; [|done].
  destruct (segIs segments (1 + length ts) (mr_id m)) eqn:Ei; [|done]. cbn [negb].
  apply bool_decide_eq_true in E0, Ei. apply typeSegmentsAt_spec in Et.
  destruct (drop (1 + length ts + 1) segments) as [|name below] eqn:Ed; [done|].
  destruct (match names with Some l => negb (bool_decide (name ∈ l)) | None => false end); [done|].
  intros H. exists name, below. split.
  - rewrite <-(take_drop (1 + length ts) segments) at 1. f_equal.
    + destruct segments as [|s segments]; [done|]. cbn [lookup list_lookup] in E0. injection E0 as ->.
      cbn [take plus drop] in *. rewrite drop_0 in Et. cbn [app]. f_equal. exact Et.
    + rewrite (drop_S _ _ _ Ei). f_equal. by replace (S (1 + length ts)) with (1 + length ts + 1) by lia.
  - destruct below as [|x [|y [|]]]; try done.
    + left. destruct (bool_decide (x = "latest")) eqn:Ex; [|done]. by apply bool_decide_eq_true in Ex as ->.
    + right. exists x, y. split; [done|]. intros ->. destruct (bool_decide (only = _)); done.
Qed.

Lemma dataKey_owner m segments names version only b :
  dataKey m segments names version only = Some b → keyOwner segments = Some (OwModel m).
Proof.
  intros (name & below & -> & Hb)%dataKey_shape. unfold keyOwner. cbn [segIs].
  set (ts := splitOn "/" (mr_type m)).
  change (segIs ((("data" :: ts) ++ mr_id m :: name :: below)) 0 "data") with true. cbv iota.
  assert (∀ n, length below + 2 = n → typeBefore (("data" :: ts) ++ mr_id m :: name :: below) n = mr_type m)
    as Ht.
  { intros n Hn. unfold typeBefore. rewrite length_app. cbn [length].
    replace (S (length ts) + S (S (length below)) - n - 1) with (length ts) by lia.
    cbn [drop app]. rewrite drop_0, take_app_length. apply join_splitOn. }
  assert (∀ k, k = length below → bool_decide (fromEnd (("data" :: ts) ++ mr_id m :: name :: below) 1 =
    Some "latest") = bool_decide (last below = Some "latest")) as Hlast.
  { intros k _. destruct Hb as [->|(v & f & -> & _)].
    - change (mr_id m :: name :: ["latest"]) with ([mr_id m; name] ++ ["latest"]). rewrite app_assoc.
      by rewrite fromEnd_app.
    - change (mr_id m :: name :: [v; f]) with ([mr_id m; name; v] ++ [f]). rewrite app_assoc.
      by rewrite fromEnd_app. }
  rewrite (Hlast _ eq_refl). destruct Hb as [->|(v & f & -> & Hf)].
  - cbn [last]. rewrite bool_decide_eq_true_2 by done. rewrite (Ht 3 eq_refl), fromEnd_app by (cbn; lia || done).
    by destruct m.
  - cbn [last]. rewrite bool_decide_eq_false_2 by congruence.
    rewrite (Ht 4 eq_refl), fromEnd_app by (cbn; lia || done). by destruct m.
Qed.

Lemma segIs_eq segments i s : segIs segments i s = true ↔ segments !! i = Some s.
Proof. unfold segIs. apply bool_decide_eq_true. Qed.

Lemma segIs_ne segments i s s' : segments !! i = Some s → s ≠ s' → segIs segments i s' = false.
Proof. intros H Hne. unfold segIs. rewrite H. apply bool_decide_eq_false. congruence. Qed.

(** decides the tests of [keyOwner] from the first two segments *)
Ltac eval_segs :=
  repeat match goal with
  | H : ?segments !! ?i = Some ?s |- context [segIs ?segments ?i ?s'] =>
      first [ rewrite (proj2 (segIs_eq segments i s') H)
            | rewrite (segIs_ne segments i s s' H) by discriminate ]
  end.

Lemma typeUnder_spec segments n type :
  typeUnder segments 1 (length segments - n) = Some type → ModelType.normalized type = typeBefore segments n.
Proof.
  unfold typeUnder, typeBefore. destruct (_ <=? 1); [done|]. cbv zeta.
  destruct (ModelType.create _) as [ty|]; [|done].
  destruct (bool_decide _) eqn:E; [|done]. apply bool_decide_eq_true in E. by intros [= <-].
Qed.

Lemma typedFile_bound segments root expected naming type :
  typedFile segments root expected naming = Some (Bound None None type) →
  segments !! 0 = Some root ∧ 3 ≤ length segments ∧ (∀ e, expected = Some e → typeBefore segments 1 = e) ∧
  (stemOf segments ∈ default [] (ids naming) ∨ stemOf segments ∈ default [] (n_names naming)).
Proof.
  unfold typedFile. destruct (length segments <? 3) eqn:El; [done|]. cbn [orb].
  destruct (segIs segments 0 root) eqn:E0; [|done]. cbn [negb].
  destruct (typeUnder _ _ _) as [ty|] eqn:Et; [|done]. apply typeUnder_spec in Et.
  apply Nat.ltb_ge in El. apply segIs_eq in E0.
  destruct (match expected with Some _ => _ | None => _ end) eqn:Ee; [done|].
  unfold stemOf. destruct (fromEnd segments 1) as [file|]; [|done]. cbn [default from_option].
  destruct (endsWith file ".yaml"); [|done]. cbn [negb].
  change (id file) with file. intros H. split_and!; [done|lia| |].
  - intros e ->. apply negb_false_iff, bool_decide_eq_true in Ee. congruence.
  - destruct (PartitionKey.UUID _).
    + destruct (ids naming) as [l|]; [|done]. case_bool_decide; [by left|done].
    + destruct (n_names naming) as [l|]; [|by destruct (anyName naming)].
      destruct (bool_decide _) eqn:En; [|by destruct (anyName naming)].
      right. by apply bool_decide_eq_true in En.
Qed.

Lemma namedFile_bound file prefix names type :
  namedFile file prefix names = Some (Bound None None type) →
  str_drop (String.length prefix) (sliceEnd 5 file) ∈ names.
Proof.
  unfold namedFile. destruct (_ || _); [done|]. cbv zeta. destruct (PartitionKey.UUID _); [done|].
  destruct (bool_decide _) eqn:E; [|done]. intros _. by apply bool_decide_eq_true in E.
Qed.

Lemma stemOf_last segments file : fromEnd segments 1 = Some file → stemOf segments = sliceEnd 5 file.
Proof. intros H. unfold stemOf. by rewrite H. Qed.

Lemma stemOf_drop segments : 2 ≤ length segments → stemOf (drop 1 segments) = stemOf segments.
Proof.
  intros Hl. unfold stemOf, fromEnd. rewrite length_drop, lookup_drop.
  rewrite !(proj2 (Nat.leb_le _ _)) by lia.
  by replace (1 + (length segments - 1 - 1)) with (length segments - 1) by lia.
Qed.

Lemma boundIf_true c b : boundIf c = Some b → c = true.
Proof. by destruct c. Qed.

Lemma outputKey_owner m segments b : outputKey m segments = Some b → keyOwner segments = Some (OwModel m).
Proof.
  unfold outputKey. intros H%boundIf_true. rewrite !andb_true_iff in H. destruct H as [[[_ H0] Ht] Hf].
  apply segIs_eq in H0. apply bool_decide_eq_true in Ht. apply fmap_Some in Ht as (ty & Hty & Hm).
  apply typeUnder_spec in Hty. unfold keyOwner. eval_segs. cbv iota.
  destruct (fromEnd segments 1) as [file|]; [|done]. apply bool_decide_eq_true in Hf.
  cbn [mbind option_bind]. rewrite Hf. cbn. rewrite <-Hty, <-Hm. by destruct m.
Qed.

Lemma sliceEnd_app s x : sliceEnd (String.length x) (s +:+ x) = s.
Proof.
  unfold sliceEnd. rewrite str_length_app.
  replace (String.length s + String.length x - String.length x) with (String.length s) by lia.
  apply str_take_app.
Qed.

Lemma runFile_id id : sliceEnd 5 (str_drop 13 ("workflow-run-" +:+ id +:+ ".yaml")) = id.
Proof. exact (sliceEnd_app id ".yaml"). Qed.

Lemma runKey_owner run segments b k :
  bindSegments (InRun k run) segments = Some b → namesOneOwner (InRun k run) = true →
  keyOwner segments = Some (OwRun run).
Proof.
  assert (∀ c, boundIf ((length segments =? 3) && segIs segments 0 "workflow-runs" &&
        segIs segments 1 (rr_workflowId run) &&
        segIs segments 2 ("workflow-run-" +:+ rr_runId run +:+ ".yaml")) = Some c →
      keyOwner segments = Some (OwRun run)) as H3.
  { intros c H%boundIf_true. rewrite !andb_true_iff, !segIs_eq in H. destruct H as [[[Hl H0] H1] H2].
    apply Nat.eqb_eq in Hl. destruct segments as [|a [|w [|f [|]]]]; try done.
    assert (f = "workflow-run-" +:+ rr_runId run +:+ ".yaml") as Hf by (by injection H2).
    injection H1 as ->. unfold keyOwner. eval_segs. cbv iota.
    rewrite Hf, runFile_id. by destruct run. }
  assert (∀ c, boundIf ((length segments =? 5) && segIs segments 0 "workflow-runs" &&
        segIs segments 1 (rr_workflowId run) && segIs segments 2 "starts" &&
        segIs segments 3 (rr_runId run) &&
        match segments !! 4 with Some file => STEP_START_FILE_PATTERN file | None => false end) = Some c →
      keyOwner segments = Some (OwRun run)) as H5.
  { intros c H%boundIf_true. rewrite !andb_true_iff, !segIs_eq in H. destruct H as [[[[[Hl H0] H1] _] H2] _].
    apply Nat.eqb_eq in Hl. destruct segments as [|a [|w [|x [|f [|y [|]]]]]]; try done.
    injection H1 as ->. injection H2 as ->. unfold keyOwner. eval_segs. cbv iota. by destruct run. }
  destruct k; cbn [bindSegments namesOneOwner]; intros H Hn; first [discriminate Hn | by eapply H3 | by eapply H5].
Qed.

(** the name of a definition is the stem of its file *)
Lemma definitionKey_owner d segments type :
  definitionKey d segments [dr_name d] = Some (Bound None None type) →
  keyOwner segments = Some (OwConfig (dr_kind d) (dr_name d)).
Proof.
  unfold definitionKey. destruct (segIs segments 0 "config") eqn:E0; [|done]. cbn [negb].
  apply segIs_eq in E0. destruct (dr_kind d) eqn:Ek.
  - intros (H1 & Hl & _ & Hs)%typedFile_bound. cbn [ids n_names default from_option id] in Hs.
    rewrite lookup_drop in H1. rewrite length_drop in Hl. rewrite stemOf_drop in Hs by lia.
    destruct Hs as [[]%elem_of_nil|Hs%list_elem_of_singleton].
    unfold keyOwner. change (1 + 0) with 1 in H1. eval_segs. cbv iota. by rewrite Hs.
  - destruct segments as [|a [|second [|file [|]]]]; try done.
    destruct (bool_decide (second = "workflows")) eqn:E; [|done]. apply bool_decide_eq_true in E as ->.
    intros Hn%namedFile_bound. apply list_elem_of_singleton in Hn.
    assert ([a; "workflows"; file] !! 1 = Some "workflows") as H1 by done.
    unfold keyOwner. eval_segs. cbv iota. rewrite (stemOf_last _ file) by done.
    change (String.length "workflow-") with 9 in Hn. by rewrite Hn.
  - intros (_ & _ & _ & [[]%elem_of_nil|[]%elem_of_nil])%typedFile_bound.
Qed.

(** an evaluated workflow is of a workflow *)
Definition evaluatesWorkflow (i : Intent.t) : Prop :=
  match i with
  | InDefinition (KEvaluatedWorkflowSave | KEvaluatedWorkflowDelete) d => dr_kind d = PartitionKey.DkWorkflow
  | _ => True
  end.

Lemma readDefinition_workflow v k d :
  readDefinition v k = Ok d → k ∈ [KEvaluatedWorkflowSave; KEvaluatedWorkflowDelete] →
  dr_kind d = PartitionKey.DkWorkflow.
Proof.
  unfold readDefinition. intros (ref & _ & H)%result_bind_ok Hk. apply result_bind_ok in H as (_ & _ & H).
  destruct (definitionKindOf _) as [dk|]; [|done]. apply result_bind_ok in H as ([] & Ht & H).
  apply throw_if_ok in Ht. rewrite (bool_decide_eq_true_2 _ Hk) in Ht. cbn [andb] in Ht.
  apply negb_false_iff, bool_decide_eq_true in Ht. apply result_bind_ok in H as (n & _ & [= <-]). done.
Qed.

Lemma createIntent_evaluates v i : createIntent v = Ok i → evaluatesWorkflow i.
Proof.
  intros (json & k & p & -> & _ & Hb & _)%createIntent_ok.
  destruct (SHAPES k); cbn [build] in Hb;
    repeat (let x := fresh in let E := fresh in apply result_bind_ok in Hb as (x & E & Hb));
    try (by injection Hb as <-).
  - destruct (assoc_get "version" json); [apply result_bind_ok in Hb as (x & _ & [= <-])|injection Hb as <-]; done.
  - injection Hb as <-. cbn [evaluatesWorkflow].
    destruct k; try done; (eapply readDefinition_workflow; [done|set_solver]).
Qed.

Lemma bound_owner i key segments type :
  segments = splitOn "/" key → evaluatesWorkflow i → namesOneOwner i = true → bindSegments i segments = Some (Bound None None type) →
  keyOwner segments = Some (intentOwner i).
Proof.
  intros Hkey He Hn. destruct i as [k m|k m n v|k m n v|k m n t|k m o|k run|k d|k d f|k d t|k aid|k]; cbn [intentOwner].
  - assert (∀ type, typedFile segments "definitions-evaluated" (Some (mr_type m))
        (MkNaming (Some [mr_id m]) None true) = Some (Bound None None type) →
        keyOwner segments = Some (OwModel m)) as Hev.
    { intros ty (H0 & _ & Ht & Hs)%typedFile_bound. cbn [ids n_names default from_option id] in Hs.
      destruct Hs as [Hs%list_elem_of_singleton|[]%elem_of_nil]. unfold keyOwner. eval_segs. cbv iota.
      rewrite Hs, (Ht _ eq_refl). by destruct m. }
    destruct k; cbn [bindSegments]; first [apply dataKey_owner | apply Hev].
  - apply dataKey_owner.
  - apply dataKey_owner.
  - apply dataKey_owner.
  - apply outputKey_owner.
  - intros H. by eapply runKey_owner.
  - assert (∀ type, dr_kind d = PartitionKey.DkWorkflow → match segments with
        | [first; file] => if bool_decide (first = "workflows-evaluated")
            then namedFile file "workflow-" [dr_name d] else None
        | _ => None end = Some (Bound None None type) →
        keyOwner segments = Some (OwConfig (dr_kind d) (dr_name d))) as Hev.
    { intros ty Hd. destruct segments as [|first [|file [|]]]; try done.
      destruct (bool_decide (first = _)) eqn:E; [|done]. apply bool_decide_eq_true in E as ->.
      intros Hnm%namedFile_bound. apply list_elem_of_singleton in Hnm.
      assert (["workflows-evaluated"; file] !! 0 = Some "workflows-evaluated") as H0 by done.
      unfold keyOwner. eval_segs. cbv iota. rewrite (stemOf_last _ file) by done.
      change (String.length "workflow-") with 9 in Hnm. by rewrite Hnm, Hd. }
    destruct k; cbn [bindSegments]; first [apply definitionKey_owner | by apply Hev].
  - done.
  - done.
  - cbn [bindSegments]. intros (H0 & _ & _ & Hs)%typedFile_bound.
    cbn [ids n_names default from_option id] in Hs.
    destruct Hs as [Hs%list_elem_of_singleton|[]%elem_of_nil].
    unfold keyOwner. eval_segs. cbv iota. by rewrite Hs.
  - cbn [bindSegments]. intros H%boundIf_true. apply bool_decide_eq_true in H.
    rewrite Hkey, join_splitOn in H. rewrite Hkey, H. vm_compute. reflexivity.
Qed.

(** The layout keeps aggregates apart: when two intents both bind a key,
    neither by an id the layout cannot tie to it, the intents are of one
    aggregate and so of one partition. A data key, an output, a run's record or
    starts, a definition, an evaluated workflow, an auto-definition and the
    lockfile each name their owner; in particular no data intent reaches the
    file of another behavior, a grant or a token. Renames, which name two
    definitions, and run snapshots, kept under the run's id alone, are left to
    the check of ownership. *)
Lemma bound_keys_have_one_owner (i j : Intent.t) (vi vj : JsValue) (oi oj : IntentOpKind)
    (key : RecordKey.t) (ti tj : option ModelType.t) :
  createIntent vi = Ok i → createIntent vj = Ok j →
  namesOneOwner i = true → namesOneOwner j = true →
  bindKey i oi key = Bound None None ti → bindKey j oj key = Bound None None tj →
  intentOwner i = intentOwner j ∧ intentPartition i = intentPartition j.
Proof.
  intros Hi%createIntent_evaluates Hj%createIntent_evaluates Ni Nj.
  assert (∀ x o t, evaluatesWorkflow x → namesOneOwner x = true → bindKey x o key = Bound None None t →
    keyOwner (splitOn "/" (RecordKey.value key)) = Some (intentOwner x)) as Ho.
  { intros x o t He Hn. unfold bindKey. destruct (opKindAllowed x o); [|done]. cbn [negb].
    destruct (bindSegments x _) as [b|] eqn:Hb; [|done]. intros E. cbn in E. change (id b) with b in E. subst b.
    by eapply bound_owner. }
  intros Bi%Ho Bj%Ho; [|done..]. rewrite Bi in Bj. injection Bj as E.
  split; [done|]. by rewrite !intentPartition_owner, E.
Qed.

Definition sampleData (kind name : string) : JsValue :=
  VObj [("kind", VStr kind);
        ("model", VObj [("type", VStr "aws/ec2"); ("id", VStr PartitionKey.sampleUuid)]);
        ("name", VStr name); ("version", VNum 3)].

Lemma bound_keys_have_one_owner_witness :
  let key := RecordKey.Mk ("data/aws/ec2/" +:+ PartitionKey.sampleUuid +:+ "/state/3/raw") in
  ∃ i j, createIntent (sampleData "data.save" "state") = Ok i ∧
    createIntent (sampleData "data.delete" "state") = Ok j ∧
    bindKey i OpPut key = Bound None None None ∧ bindKey j OpTombstone key = Bound None None None ∧
    intentOwner i = intentOwner j ∧ intentPartition i = intentPartition j.
Proof.
  intros key. eexists _, _. split; [vm_compute; reflexivity|]. split; [vm_compute; reflexivity|].
  split; [vm_compute; reflexivity|]. split; [vm_compute; reflexivity|].
  apply (bound_keys_have_one_owner _ _ (sampleData "data.save" "state") (sampleData "data.delete" "state")
    OpPut OpTombstone key None None); vm_compute; reflexivity.
Defined.

End IntentKeyPaths.
