(* ===== verification/Partition.v ===== *)
(** * Partitions of the commit log

    [src/src/domain/datastore_v3/partition.ts]: the aggregate a commit is
    applied to. A partition keeps the digest of each record, and for each data
    name the versions that are live, those that were removed and the highest
    number ever recorded, so that a version number never names two contents. A
    commit is checked and applied as a whole: its changes are staged in
    overlays and written only when every op has passed.

    The class is a record; a method that mutates the object returns the object
    it leaves with its result, which is a value or a thrown error. Maps and
    sets whose order is not observed are [gmap] and [gset]. [priorTxn] is the
    lookup the caller gives to [restore]. *)

From Stdlib Require Import Ascii.
From S2P Require Import Prelude JsString VersionRanges PartitionKey DataMetadata Intent CommitOps Commit.
Local Open Scope Z_scope.

Module Partition.

(** ** Errors *)

Inductive CommitRejection :=
| PartitionMismatch | SeqGap | StaleFence | StaleLease | LeaseLost | Unfenced | ExpectFailed
| VersionLive | VersionReused | RetryExpired.

#[global] Instance CommitRejection_eq_dec : EqDecision CommitRejection.
Proof. solve_decision. Defined.

(** what is thrown: a [CommitRejectedError], or a plain [Error] *)
Inductive Thrown :=
| Rejected (reason : CommitRejection) (message : string) (key : option RecordKey.t)
| Failed (message : string).

(** the result of code that may throw one of these *)
Inductive exc (A : Type) := Done (a : A) | Raise (e : Thrown).
Arguments Done {A} _.
Arguments Raise {A} _.

#[global] Instance exc_ret : MRet exc := @Done.
#[global] Instance exc_bind : MBind exc := λ A B f m,
  match m with Done a => f a | Raise e => Raise e end.

Lemma exc_bind_done {A B} (m : exc A) (f : A → exc B) b :
  (m ≫= f) = Done b ↔ ∃ a, m = Done a ∧ f a = Done b.
Proof. destruct m; cbv [mbind exc_bind]; naive_solver. Qed.

Definition of_result {A} (r : result A) : exc A :=
  match r with Ok a => Done a | Throw msg => Raise (Failed msg) end.

Definition raise_if (c : bool) (e : Thrown) : exc () := if c then Raise e else Done tt.

Lemma raise_if_done c e u : raise_if c e = Done u ↔ c = false.
Proof. unfold raise_if. destruct c, u; naive_solver. Qed.

(** ** State *)

Record DataName := MkName {
  live : gset Z;
  highWater : Z;
  removed : list (Z * Z);
}.

Record t := Mk {
  key : PartitionKey.t;
  seq : Z;
  highestFence : option Z;
  leaseFence : option Z;
  leaseHolder : option string;
  txnIds : gset string;
  priorTxn : string → bool;
  records : gmap string string;
  names : gmap string DataName;
}.

#[global] Instance t_eta : Eta t := λ p,
  Mk (key p) (seq p) (highestFence p) (leaseFence p) (leaseHolder p) (txnIds p) (priorTxn p)
     (records p) (names p).

Definition empty (key : PartitionKey.t) : t :=
  Mk key 0 None None None ∅ (λ _, false) ∅ ∅.

Definition newName : DataName := MkName ∅ 0 VersionRanges.EMPTY.

(** ** Queries *)

Definition hasTxn (p : t) (txnId : string) : bool :=
  bool_decide (txnId ∈ txnIds p) || priorTxn p txnId.

Definition txnIdCount (p : t) : nat := Datatypes.length (elements (txnIds p)).

Definition record (p : t) (k : RecordKey.t) : option string := records p !! RecordKey.value k.

Definition recordKeys (p : t) : list string := js_sort codeUnitCompare (map_to_list (records p)).*1.

Definition dataNames (p : t) : list string := js_sort codeUnitCompare (map_to_list (names p)).*1.

Definition versionCompare (a b : Z) : Z := a - b.

Definition versions (p : t) (name : string) : list Z :=
  js_sort versionCompare (elements (default ∅ (live <$> names p !! name))).

(** [maxOf] of a set, [undefined] when it is empty *)
Definition maxOf (s : gset Z) : option Z :=
  set_fold (λ v acc, Some (match acc with None => v | Some m => Z.max m v end)) None s.

Definition latest (p : t) (name : string) : option Z :=
  maxOf (default ∅ (live <$> names p !! name)).

Definition highWaterOf (p : t) (name : string) : Z := default 0 (highWater <$> names p !! name).

Definition removedVersion (p : t) (name : string) (version : Z) : bool :=
  default false ((λ e, VersionRanges.has (removed e) version) <$> names p !! name).

(** ** Applying a commit *)

Definition nameVersion (name : string) (version : Z) : string := pretty version +:+ ":" +:+ name.

(** the overlays; in [s_records], [None] stands for a record removed *)
Record Staged := MkStaged {
  s_records : gmap string (option string);
  s_names : gmap string DataName;
  s_leaseFence : option Z;
  s_leaseHolder : option string;
  appended : gset string;
}.

#[global] Instance Staged_eta : Eta Staged := λ s,
  MkStaged (s_records s) (s_names s) (s_leaseFence s) (s_leaseHolder s) (appended s).

Definition current (p : t) (s : Staged) (k : string) : option string :=
  match s_records s !! k with
  | Some staged => staged
  | None => records p !! k
  end.

(** the staged entry of a name, copied from the partition the first time *)
Definition dataName (p : t) (s : Staged) (name : string) : DataName :=
  match s_names s !! name with
  | Some entry => entry
  | None => default newName (names p !! name)
  end.

Definition setName (s : Staged) (name : string) (entry : DataName) : Staged :=
  s <| s_names := <[name := entry]> (s_names s) |>.

Definition expectFailed (p : t) (k : RecordKey.t) (expected : string) : Thrown :=
  Rejected ExpectFailed
    ("Record " +:+ RecordKey.value k +:+ " in partition " +:+ PartitionKey.value (key p) +:+
     " is not " +:+ expected) (Some k).

Definition raiseFence (p : t) (highest : option Z) (fence : Z) : exc Z :=
  match highest with
  | Some h =>
      if fence <? h then
        Raise (Rejected StaleFence
          ("Fence " +:+ pretty fence +:+ " is below partition " +:+ PartitionKey.value (key p) +:+
           "'s highest fence " +:+ pretty h) None)
      else Done fence
  | None => Done fence
  end.

Definition stagePut (p : t) (observed : bool) (s : Staged) (op : Op.PutOp) : exc Staged :=
  let s := match Op.put_intent op with
           | Intent.InData Intent.KDataAppend _ name version =>
               s <| appended := {[nameVersion name version]} ∪ appended s |>
           | _ => s
           end in
  let k := RecordKey.value (Op.put_key op) in
  let existing := current p s k in
  _ ← raise_if (negb observed && bool_decide (Op.put_expect op = Some Op.PutAbsent) &&
                negb (bool_decide (existing = None)))
        (expectFailed p (Op.put_key op) "absent");
  _ ← match Op.put_expect op with
      | Some (Op.PutSha sha256) =>
          raise_if (negb observed && negb (bool_decide (existing = Some sha256)))
            (expectFailed p (Op.put_key op) ("sha256 " +:+ sha256))
      | _ => Done tt
      end;
  Done (s <| s_records := <[k := Some (Op.put_sha256 op)]> (s_records s) |>).

(** the version a tombstone's intent removes *)
Definition removedByIntent (intent : Intent.t) : option (string * Z) :=
  match intent with
  | Intent.InDataOpt (Intent.KDataDelete | Intent.KDataGc) _ name (Some version) =>
      Some (name, version)
  | _ => None
  end.

Definition stageTombstone (p : t) (observed : bool) (s : Staged) (op : Op.TombstoneOp) : exc Staged :=
  let k := RecordKey.value (Op.tomb_key op) in
  _ ← raise_if (negb observed && bool_decide (Op.tomb_expect op = Some Op.TombstonePresent) &&
                bool_decide (current p s k = None))
        (expectFailed p (Op.tomb_key op) "present");
  _ ← match Op.tomb_expect op with
      | Some (Op.TombstoneSha sha256) =>
          raise_if (negb observed && negb (bool_decide (current p s k = Some sha256)))
            (expectFailed p (Op.tomb_key op) ("sha256 " +:+ sha256))
      | _ => Done tt
      end;
  let s := s <| s_records := <[k := None]> (s_records s) |> in
  match removedByIntent (Op.tomb_intent op) with
  | Some (name, version) =>
      if bool_decide (is_Some (s_names s !! name)) || bool_decide (is_Some (names p !! name)) then
        let entry := dataName p s name in
        if bool_decide (version ∈ live entry) then
          removed' ← of_result (VersionRanges.add (removed entry) version);
          Done (setName s name (MkName (live entry ∖ {[version]}) (highWater entry) removed'))
        else Done (setName s name entry)
      else Done s
  | None => Done s
  end.

(** [appended.delete(nameVersion)]: whether it was there, and the set without it *)
Definition consume (s : Staged) (name : string) (version : Z) : bool * Staged :=
  (bool_decide (nameVersion name version ∈ appended s),
   s <| appended := appended s ∖ {[nameVersion name version]} |>).

Definition stageDataVersion (p : t) (replay observed : bool) (s : Staged) (op : Op.DataVersionOp)
    : exc Staged :=
  let name := DataMetadata.name (Op.metadata op) in
  let version := DataMetadata.version (Op.metadata op) in
  let entry := dataName p s name in
  let liveNow := bool_decide (version ∈ live entry) in
  s ← (if negb observed && liveNow then
         let '(was, s) := consume s name version in
         if negb was then
           Raise (Rejected VersionLive
             ("Data " +:+ name +:+ " version " +:+ pretty version +:+
              " is already live; only an append re-records it") None)
         else Done s
       else Done s);
  s ← (if negb observed && negb replay && negb liveNow &&
          VersionRanges.has (removed entry) version then
         let '(was, s) := consume s name version in
         if negb was then
           Raise (Rejected VersionReused
             ("Data " +:+ name +:+ " version " +:+ pretty version +:+
              " was removed; it is never recorded again") None)
         else Done s
       else Done s);
  Done (setName s name
    (MkName ({[version]} ∪ live entry) (Z.max (highWater entry) version)
       (VersionRanges.delete (removed entry) version))).

Definition stageLease (p : t) (s : Staged) (op : Op.LeaseOp) : exc Staged :=
  _ ← match s_leaseFence s with
      | Some f =>
          raise_if (Op.fence op <? f)
            (Rejected StaleLease
              ("Lease fence " +:+ pretty (Op.fence op) +:+ " is below partition " +:+
               PartitionKey.value (key p) +:+ "'s lease fence " +:+ pretty f) None)
      | None => Done tt
      end;
  Done (s <| s_leaseFence := Some (Op.fence op) |> <| s_leaseHolder := Some (Op.holder op) |>).

Definition stageOp (p : t) (replay observed : bool) (s : Staged) (op : Op.t) : exc Staged :=
  match op with
  | Op.Put op => stagePut p observed s op
  | Op.Tombstone op => stageTombstone p observed s op
  | Op.DataVersion op => stageDataVersion p replay observed s op
  | Op.Lease op => stageLease p s op
  end.

Fixpoint stageOps (p : t) (replay observed : bool) (s : Staged) (ops : list Op.t) : exc Staged :=
  match ops with
  | [] => Done s
  | op :: ops => s' ← stageOp p replay observed s op; stageOps p replay observed s' ops
  end.

(** the loop that writes the staged records *)
Definition writeRecords (staged : gmap string (option string)) (base : gmap string string)
    : gmap string string :=
  map_fold (λ k state acc, match state with None => delete k acc | Some s => <[k := s]> acc end)
    base staged.

(** the loop that writes the staged names *)
Definition writeNames (staged base : gmap string DataName) : gmap string DataName :=
  map_fold (λ name entry acc, <[name := entry]> acc) base staged.

Inductive AppendResult := Appended (seq : Z) | Duplicate.

(** the checks before any op *)
Definition checkSeq (p : t) (c : Commit.t) (observed : bool) : exc () :=
  if observed then
    raise_if (Commit.seq c <=? seq p)
      (Rejected SeqGap ("Partition " +:+ PartitionKey.value (key p) +:+ " is at seq " +:+
         pretty (seq p) +:+ "; it accepts only a later seq, not " +:+ pretty (Commit.seq c)) None)
  else
    raise_if (negb (Commit.seq c =? seq p + 1))
      (Rejected SeqGap ("Partition " +:+ PartitionKey.value (key p) +:+ " is at seq " +:+
         pretty (seq p) +:+ "; it accepts only " +:+ pretty (seq p + 1) +:+ ", not " +:+
         pretty (Commit.seq c)) None).

Definition checkFence (p : t) (c : Commit.t) : exc (option Z) :=
  match Commit.fence c with
  | Some f => f' ← raiseFence p (highestFence p) f; Done (Some f')
  | None =>
      match highestFence p with
      | Some f =>
          Raise (Rejected Unfenced ("Partition " +:+ PartitionKey.value (key p) +:+
            " has seen fence " +:+ pretty f +:+ "; a commit without a fence is refused") None)
      | None => Done None
      end
  end.

Definition initialStage (p : t) : Staged := MkStaged ∅ ∅ (leaseFence p) (leaseHolder p) ∅.

Definition apply (p : t) (c : Commit.t) (replay observed : bool) : t * exc AppendResult :=
  if negb (PartitionKey.equals (Commit.partition c) (key p)) then
    (p, Raise (Rejected PartitionMismatch ("Commit for " +:+ PartitionKey.value (Commit.partition c) +:+
          " sent to partition " +:+ PartitionKey.value (key p)) None))
  else if hasTxn p (Commit.txnId c) then (p, Done Duplicate)
  else
    match (_ ← checkSeq p c observed; checkFence p c) with
    | Raise e => (p, Raise e)
    | Done fence =>
        match stageOps p replay observed (initialStage p) (Commit.ops c) with
        | Raise e => (p, Raise e)
        | Done s =>
            (Mk (key p) (Commit.seq c) fence (s_leaseFence s) (s_leaseHolder s)
               ({[Commit.txnId c]} ∪ txnIds p) (priorTxn p)
               (writeRecords (s_records s) (records p)) (writeNames (s_names s) (names p)),
             Done (Appended (Commit.seq c)))
        end
    end.

Definition append (p : t) (c : Commit.t) (replay : bool) : t * exc AppendResult :=
  apply p c replay false.

Definition appendObserved (p : t) (c : Commit.t) (replay : bool) : t * exc AppendResult :=
  apply p c replay true.

(** ** Keeping the versions a truncation dropped *)

(** one turn of the loop of [retainDroppedVersions] *)
Definition retainVersion (entry : DataName) (version : Z) : exc (DataName * bool) :=
  let hw := Z.max (highWater entry) version in
  let raised := highWater entry <? version in
  if negb (bool_decide (version ∈ live entry)) && negb (VersionRanges.has (removed entry) version) then
    removed' ← of_result (VersionRanges.add (removed entry) version);
    Done (MkName (live entry) hw removed', true)
  else Done (MkName (live entry) hw (removed entry), raised).

Fixpoint retainDroppedVersions (p : t) (name : string) (versions : list Z) (changed : bool)
    : t * exc bool :=
  match versions with
  | [] => (p, Done changed)
  | version :: versions =>
      let entry := default newName (names p !! name) in
      match retainVersion entry version with
      | Done (entry', c) =>
          retainDroppedVersions (p <| names := <[name := entry']> (names p) |>) name versions
            (changed || c)
      | Raise e =>
          (p <| names := <[name := MkName (live entry) (Z.max (highWater entry) version)
                                     (removed entry)]> (names p) |>, Raise e)
      end
  end.

(** one turn of the loop of [retainVersionsOf] *)
Definition retainName (entry theirs : DataName) : exc (DataName * bool) :=
  let hw := Z.max (highWater entry) (highWater theirs) in
  let raised := highWater entry <? highWater theirs in
  united ← of_result (VersionRanges.union (removed entry) (removed theirs));
  let removed' := foldl VersionRanges.delete united (elements (live entry)) in
  if negb (VersionRanges.equals removed' (removed entry))
  then Done (MkName (live entry) hw removed', true)
  else Done (MkName (live entry) hw (removed entry), raised).

Fixpoint retainNames (p : t) (theirs : list (string * DataName)) (changed : bool) : t * exc bool :=
  match theirs with
  | [] => (p, Done changed)
  | (name, other) :: theirs =>
      let entry := default newName (names p !! name) in
      match retainName entry other with
      | Done (entry', c) =>
          retainNames (p <| names := <[name := entry']> (names p) |>) theirs (changed || c)
      | Raise e =>
          (p <| names := <[name := MkName (live entry) (Z.max (highWater entry) (highWater other))
                                     (removed entry)]> (names p) |>, Raise e)
      end
  end.

Definition retainVersionsOf (p later : t) : t * exc bool :=
  retainNames p (map_to_list (names later)) false.

(** ** Snapshots *)

Definition byName {V} (a b : string * V) : Z := byCodeUnit a.1 b.1.

Definition rangesToJSON (r : list (Z * Z)) : JsValue :=
  VArr ((λ p : Z * Z, VArr [VNum p.1; VNum p.2]) <$> r).

Definition nameToJSON (kv : string * DataName) : JsValue :=
  VObj ([("name", VStr kv.1);
         ("live", VArr (VNum <$> js_sort versionCompare (elements (live kv.2))));
         ("highWater", VNum (highWater kv.2))] ++
        (if VersionRanges.isEmpty (removed kv.2) then []
         else [("removed", rangesToJSON (removed kv.2))])).

Definition snapshotFields (p : t) : list (string * JsValue) :=
  [("v", VNum 1); ("partition", VStr (PartitionKey.value (key p))); ("seq", VNum (seq p))] ++
  optField "highestFence" VNum (highestFence p) ++
  optField "leaseFence" VNum (leaseFence p) ++
  optField "leaseHolder" VStr (leaseHolder p) ++
  [("records", VArr ((λ kv : string * string, VArr [VStr kv.1; VStr kv.2]) <$>
                     js_sort byName (map_to_list (records p))));
   ("names", VArr (nameToJSON <$> js_sort byName (map_to_list (names p))))].

Definition snapshot (p : t) : JsValue := VObj (snapshotFields p).

(** the marks of each name; no [removed] is an empty one *)
Definition dataNameMarks (p : t) : list (string * Z * list (Z * Z)) :=
  (λ kv, (kv.1, highWater kv.2, removed kv.2)) <$> js_sort byName (map_to_list (names p)).

(** *** Restoring one *)

Definition fail {A} (k : PartitionKey.t) (detail : string) : result A :=
  Throw ("Invalid snapshot of partition " +:+ PartitionKey.value k +:+ ": " +:+ detail).

(** [try { check } catch { fail(message) }] *)
Definition orFail {A} (k : PartitionKey.t) (r : result A) : result A :=
  match r with Ok a => Ok a | Throw msg => fail k msg end.

Definition restoreRecord (k : PartitionKey.t) (entry : JsValue) : result (string * string) :=
  match entry with
  | VArr [VStr name; sha] =>
      match isSha256Hex (Some sha) with
      | Some sha256 =>
          rk ← orFail k (RecordKey.create name);
          Ok (RecordKey.value rk, sha256)
      | None => fail k "a record is not a [key, sha256] pair"
      end
  | _ => fail k "a record is not a [key, sha256] pair"
  end.

Fixpoint restoreRecords (k : PartitionKey.t) (l : list JsValue) (acc : gmap string string)
    : result (gmap string string) :=
  match l with
  | [] => Ok acc
  | v :: l =>
      '(name, sha256) ← restoreRecord k v;
      if bool_decide (is_Some (acc !! name)) then fail k ("record " +:+ name +:+ " appears twice")
      else restoreRecords k l (<[name := sha256]> acc)
  end.

(** the own properties of an object or array *)
Definition entryFields (v : JsValue) : option (list (string * JsValue)) :=
  match v with
  | VObj l => Some l
  | VArr l => Some (imap (λ i x, (pretty i, x)) l)
  | _ => None
  end.

Definition liveVersion (hw : Z) (v : JsValue) : option Z :=
  match v with
  | VNum z => if isSafeInteger z && (1 <=? z) && (z <=? hw) then Some z else None
  | _ => None
  end.

Definition liveVersions (hw : Z) (v : option JsValue) : option (list Z) :=
  match v with
  | Some (VArr l) =>
      vs ← mapM (liveVersion hw) l;
      if bool_decide (NoDup vs) then Some vs else None
  | _ => None
  end.

Definition rangeOf (v : JsValue) : option (list JsValue) :=
  match v with VArr l => Some l | _ => None end.

Definition numberOf (v : JsValue) : option Z := match v with VNum z => Some z | _ => None end.

(** [VersionRanges.of(removed)] on arrays of unknown values *)
Definition rangesOf (l : list (list JsValue)) : result (list (Z * Z)) :=
  match mapM (mapM numberOf) l with
  | Some ranges => VersionRanges.of_ ranges
  | None =>
      match List.find (λ r, bool_decide ((mapM numberOf r ≫= VersionRanges.validRange) = None)) l with
      | Some r => Throw ("[" +:+ js_toString (VArr r) +:+ "] is not a range of positive versions")
      | None => Throw ""
      end
  end.

Definition restoreRemoved (k : PartitionKey.t) (name : string) (hw : Z) (live : list Z)
    (v : option JsValue) : result (list (Z * Z)) :=
  match v with
  | None => Ok VersionRanges.EMPTY
  | Some v =>
      match (match v with VArr l => mapM rangeOf l | _ => None end) with
      | None => fail k ("data " +:+ name +:+ "'s removed versions are not ranges")
      | Some l =>
          r ← match rangesOf l with
              | Ok r => Ok r
              | Throw msg => fail k ("data " +:+ name +:+ ": " +:+ msg)
              end;
          if (hw <? VersionRanges.max r) || existsb (VersionRanges.has r) live then
            fail k ("data " +:+ name +:+
                    "'s removed versions pass its high-water mark or include a live version")
          else Ok r
      end
  end.

Definition restoreName (k : PartitionKey.t) (acc : gmap string DataName) (v : JsValue)
    : result (string * DataName) :=
  match entryFields v with
  | None => fail k "a data name is not an object"
  | Some fields =>
      match unknownField ["name"; "live"; "highWater"; "removed"] fields with
      | Some field => fail k ("a data name has the unknown field '" +:+ field +:+ "'")
      | None =>
          match assoc_get "name" fields with
          | Some (VStr name) =>
              if bool_decide (is_Some (acc !! name)) then
                fail k "a data name is missing or appears twice"
              else
                match BlobRef.integerFrom 1 (assoc_get "highWater" fields) with
                | None =>
                    fail k ("data " +:+ name +:+ "'s high-water mark is not a positive integer")
                | Some hw =>
                    match liveVersions hw (assoc_get "live" fields) with
                    | None =>
                        fail k ("data " +:+ name +:+ "'s live versions are not distinct positive " +:+
                                "integers up to its high-water mark")
                    | Some live =>
                        r ← restoreRemoved k name hw live (assoc_get "removed" fields);
                        Ok (name, MkName (list_to_set live) hw r)
                    end
                end
          | _ => fail k "a data name is missing or appears twice"
          end
      end
  end.

Fixpoint restoreNames (k : PartitionKey.t) (l : list JsValue) (acc : gmap string DataName)
    : result (gmap string DataName) :=
  match l with
  | [] => Ok acc
  | v :: l =>
      '(name, entry) ← restoreName k acc v;
      restoreNames k l (<[name := entry]> acc)
  end.

Definition restoreHolder (k : PartitionKey.t) (v : option JsValue) : result (option string) :=
  match v with
  | None => Ok None
  | Some (VStr s) =>
      if bool_decide (s = "") then fail k "leaseHolder is not a non-empty string" else Ok (Some s)
  | Some _ => fail k "leaseHolder is not a non-empty string"
  end.

Definition snapshotKeys : list string :=
  ["v"; "partition"; "seq"; "highestFence"; "leaseFence"; "leaseHolder"; "records"; "names"].

Definition restore (k : PartitionKey.t) (value : JsValue) (priorTxn : string → bool) : result t :=
  match value with
  | VObj json =>
      match unknownField snapshotKeys json with
      | Some field => fail k ("unknown field '" +:+ field +:+ "'")
      | None =>
          _ ← match assoc_get "v" json with
              | Some (VNum 1) => Ok tt
              | v => fail k ("unsupported version " +:+ js_show v)
              end;
          _ ← match assoc_get "partition" json with
              | Some (VStr s) =>
                  if bool_decide (s = PartitionKey.value k) then Ok tt
                  else fail k ("it is a snapshot of " +:+ s)
              | v => fail k ("it is a snapshot of " +:+ js_show v)
              end;
          seq ← match BlobRef.integerFrom 0 (assoc_get "seq" json) with
                | Some z => Ok z
                | None => fail k "seq is not a non-negative integer"
                end;
          highestFence ← orFail k (Commit.optional (assoc_get "highestFence" json) Op.requireFence);
          leaseFence ← orFail k (Commit.optional (assoc_get "leaseFence" json) Op.requireFence);
          leaseHolder ← restoreHolder k (assoc_get "leaseHolder" json);
          _ ← (if bool_decide (leaseHolder ≠ None) && bool_decide (leaseFence = None)
               then fail k "it names a lease holder but no lease fence" else Ok tt);
          match assoc_get "records" json with
          | Some (VArr rs) =>
              records ← restoreRecords k rs ∅;
              match assoc_get "names" json with
              | Some (VArr ns) =>
                  names ← restoreNames k ns ∅;
                  Ok (Mk k seq highestFence leaseFence leaseHolder ∅ priorTxn records names)
              | _ => fail k "names is not an array"
              end
          | _ => fail k "records is not an array"
          end
      end
  | _ => fail k "not an object"
  end.

End Partition.
