(* ===== verification/PartitionProps.v ===== *)
(** * Properties of partitions

    The theorems on [Partition]: staging is transparent (a commit has the
    effect of its ops applied one after the other, or none), every operation
    keeps the partition well formed, a version number is never recorded twice,
    sequence numbers and fences only grow, and a snapshot is restored as it
    was. *)

From Stdlib Require Import Ascii.
From S2P Require Import Prelude JsString VersionRanges PartitionKey DataMetadata Intent.
From S2P Require Import CommitOps Commit Partition.
Local Open Scope Z_scope.

Module PartitionProps.
Import Partition.

(** ** A reference without staging

    The same commit applied one op after the other to the partition itself.
    [app] are the versions an append put of the commit lets through. *)

Definition refPut (observed : bool) (p : t) (app : gset string) (op : Op.PutOp)
    : exc (t * gset string) :=
  let app := match Op.put_intent op with
             | Intent.InData Intent.KDataAppend _ name version =>
                 {[nameVersion name version]} ∪ app
             | _ => app
             end in
  let k := RecordKey.value (Op.put_key op) in
  _ ← raise_if (negb observed && bool_decide (Op.put_expect op = Some Op.PutAbsent) &&
                negb (bool_decide (records p !! k = None)))
        (expectFailed p (Op.put_key op) "absent");
  _ ← match Op.put_expect op with
      | Some (Op.PutSha sha256) =>
          raise_if (negb observed && negb (bool_decide (records p !! k = Some sha256)))
            (expectFailed p (Op.put_key op) ("sha256 " +:+ sha256))
      | _ => Done tt
      end;
  Done (p <| records := <[k := Op.put_sha256 op]> (records p) |>, app).

Definition refTombstone (observed : bool) (p : t) (app : gset string) (op : Op.TombstoneOp)
    : exc (t * gset string) :=
  let k := RecordKey.value (Op.tomb_key op) in
  _ ← raise_if (negb observed && bool_decide (Op.tomb_expect op = Some Op.TombstonePresent) &&
                bool_decide (records p !! k = None))
        (expectFailed p (Op.tomb_key op) "present");
  _ ← match Op.tomb_expect op with
      | Some (Op.TombstoneSha sha256) =>
          raise_if (negb observed && negb (bool_decide (records p !! k = Some sha256)))
            (expectFailed p (Op.tomb_key op) ("sha256 " +:+ sha256))
      | _ => Done tt
      end;
  let p := p <| records := delete k (records p) |> in
  match removedByIntent (Op.tomb_intent op) with
  | Some (name, version) =>
      match names p !! name with
      | Some entry =>
          if bool_decide (version ∈ live entry) then
            removed' ← of_result (VersionRanges.add (removed entry) version);
            Done (p <| names := <[name := MkName (live entry ∖ {[version]}) (highWater entry) removed']>
                                  (names p) |>, app)
          else Done (p, app)
      | None => Done (p, app)
      end
  | None => Done (p, app)
  end.

(** whether the version may be recorded: it is new, or an append says so *)
Definition refuses (replay observed : bool) (entry : DataName) (version : Z) : option CommitRejection :=
  if observed then None
  else if bool_decide (version ∈ live entry) then Some VersionLive
  else if negb replay && VersionRanges.has (removed entry) version then Some VersionReused
  else None.

Definition refDataVersion (replay observed : bool) (p : t) (app : gset string) (op : Op.DataVersionOp)
    : exc (t * gset string) :=
  let name := DataMetadata.name (Op.metadata op) in
  let version := DataMetadata.version (Op.metadata op) in
  let entry := default newName (names p !! name) in
  let p' := p <| names := <[name := MkName ({[version]} ∪ live entry) (Z.max (highWater entry) version)
                                      (VersionRanges.delete (removed entry) version)]> (names p) |> in
  match refuses replay observed entry version with
  | None => Done (p', app)
  | Some reason =>
      if bool_decide (nameVersion name version ∈ app)
      then Done (p', app ∖ {[nameVersion name version]})
      else Raise (Rejected reason
        ("Data " +:+ name +:+ " version " +:+ pretty version +:+
         match reason with
         | VersionLive => " is already live; only an append re-records it"
         | _ => " was removed; it is never recorded again"
         end) None)
  end.

Definition refLease (p : t) (app : gset string) (op : Op.LeaseOp) : exc (t * gset string) :=
  _ ← match leaseFence p with
      | Some f =>
          raise_if (Op.fence op <? f)
            (Rejected StaleLease
              ("Lease fence " +:+ pretty (Op.fence op) +:+ " is below partition " +:+
               PartitionKey.value (key p) +:+ "'s lease fence " +:+ pretty f) None)
      | None => Done tt
      end;
  Done (p <| leaseFence := Some (Op.fence op) |> <| leaseHolder := Some (Op.holder op) |>, app).

Definition refOp (replay observed : bool) (p : t) (app : gset string) (op : Op.t)
    : exc (t * gset string) :=
  match op with
  | Op.Put op => refPut observed p app op
  | Op.Tombstone op => refTombstone observed p app op
  | Op.DataVersion op => refDataVersion replay observed p app op
  | Op.Lease op => refLease p app op
  end.

Fixpoint refOps (replay observed : bool) (p : t) (app : gset string) (ops : list Op.t)
    : exc (t * gset string) :=
  match ops with
  | [] => Done (p, app)
  | op :: ops => pa ← refOp replay observed p app op; refOps replay observed pa.1 pa.2 ops
  end.

Definition applyReference (p : t) (c : Commit.t) (replay observed : bool) : t * exc AppendResult :=
  if negb (PartitionKey.equals (Commit.partition c) (key p)) then
    (p, Raise (Rejected PartitionMismatch ("Commit for " +:+ PartitionKey.value (Commit.partition c) +:+
          " sent to partition " +:+ PartitionKey.value (key p)) None))
  else if hasTxn p (Commit.txnId c) then (p, Done Duplicate)
  else
    match (_ ← checkSeq p c observed; fence ← checkFence p c;
           pa ← refOps replay observed p ∅ (Commit.ops c); Done (fence, pa.1)) with
    | Raise e => (p, Raise e)
    | Done (fence, p') =>
        (p' <| seq := Commit.seq c |> <| highestFence := fence |>
            <| txnIds := {[Commit.txnId c]} ∪ txnIds p' |>, Done (Appended (Commit.seq c)))
    end.

(** *** The staged changes, written *)

Lemma writeRecords_lookup staged base k :
  writeRecords staged base !! k =
  match staged !! k with Some state => state | None => base !! k end.
Proof.
  unfold writeRecords. revert k.
  apply (map_fold_weak_ind (λ acc m, ∀ k, acc !! k =
    match m !! k with Some state => state | None => base !! k end)).
  - intros k. by rewrite lookup_empty.
  - intros i state m acc Hi IH k. destruct (decide (i = k)) as [->|Hne].
    + rewrite lookup_insert_eq. destruct state; [by rewrite lookup_insert_eq|by rewrite lookup_delete_eq].
    + rewrite lookup_insert_ne by done.
      destruct state; [rewrite lookup_insert_ne by done|rewrite lookup_delete_ne by done]; apply IH.
Qed.

Lemma writeNames_lookup staged base name :
  writeNames staged base !! name =
  match staged !! name with Some entry => Some entry | None => base !! name end.
Proof.
  unfold writeNames. revert name.
  apply (map_fold_weak_ind (λ acc m, ∀ k, acc !! k =
    match m !! k with Some e => Some e | None => base !! k end)).
  - intros k. by rewrite lookup_empty.
  - intros i e m acc Hi IH k. destruct (decide (i = k)) as [->|Hne].
    + by rewrite !lookup_insert_eq.
    + rewrite !lookup_insert_ne by done. apply IH.
Qed.

Definition written (p : t) (s : Staged) : t :=
  p <| records := writeRecords (s_records s) (records p) |>
    <| names := writeNames (s_names s) (names p) |>
    <| leaseFence := s_leaseFence s |> <| leaseHolder := s_leaseHolder s |>.

Lemma written_initial p : written p (initialStage p) = p.
Proof.
  destruct p. unfold written. cbn. f_equal.
Qed.

Lemma written_record p s k : records (written p s) !! k = current p s k.
Proof. apply writeRecords_lookup. Qed.

Lemma written_name p s name : default newName (names (written p s) !! name) = dataName p s name.
Proof.
  unfold dataName. cbn. rewrite writeNames_lookup. by destruct (s_names s !! name).
Qed.

Lemma writeRecords_insert staged base k state :
  writeRecords (<[k := state]> staged) base =
  match state with
  | Some sha => <[k := sha]> (writeRecords staged base)
  | None => delete k (writeRecords staged base)
  end.
Proof.
  apply map_eq. intros i. rewrite writeRecords_lookup. destruct (decide (i = k)) as [->|Hne].
  - rewrite lookup_insert_eq. destruct state; [by rewrite lookup_insert_eq|by rewrite lookup_delete_eq].
  - rewrite lookup_insert_ne by done.
    destruct state; [rewrite lookup_insert_ne by done|rewrite lookup_delete_ne by done];
      by rewrite writeRecords_lookup.
Qed.

Lemma writeNames_insert staged base name entry :
  writeNames (<[name := entry]> staged) base = <[name := entry]> (writeNames staged base).
Proof.
  apply map_eq. intros i. rewrite writeNames_lookup. destruct (decide (i = name)) as [->|Hne].
  - by rewrite !lookup_insert_eq.
  - rewrite !lookup_insert_ne by done. by rewrite writeNames_lookup.
Qed.

Lemma written_setName p s name entry :
  written p (setName s name entry) =
  written p s <| names := <[name := entry]> (names (written p s)) |>.
Proof. unfold written. cbn. by rewrite writeNames_insert. Qed.

(** what a staged state stands for *)
Definition view (p : t) (e : exc Staged) : exc (t * gset string) :=
  match e with Done s => Done (written p s, appended s) | Raise e => Raise e end.

Lemma stagePut_view p observed s op :
  view p (stagePut p observed s op) = refPut observed (written p s) (appended s) op.
Proof.
  unfold stagePut, refPut. cbv zeta.
  set (s' := match Op.put_intent op with Intent.InData Intent.KDataAppend _ _ _ => _ | _ => s end).
  assert (written p s' = written p s ∧ s_records s' = s_records s ∧
    appended s' = match Op.put_intent op with
             | Intent.InData Intent.KDataAppend _ name version =>
                 {[nameVersion name version]} ∪ appended s
             | _ => appended s
             end) as (Ew & Er & <-).
  { unfold s'. destruct (Op.put_intent op); try done. by destruct kind. }
  clearbody s'. rewrite <-Ew. rewrite !written_record.
  destruct (raise_if (negb observed && _ && _) _) as [[]|]; [|done]. cbn [mbind exc_bind].
  assert (written p (s' <| s_records := <[RecordKey.value (Op.put_key op) := Some (Op.put_sha256 op)]>
      (s_records s') |>) =
    written p s' <| records := <[RecordKey.value (Op.put_key op) := Op.put_sha256 op]>
      (records (written p s')) |>) as E.
  { unfold written. cbn. by rewrite writeRecords_insert. }
  destruct (Op.put_expect op) as [[|sha]|]; cbn [mbind exc_bind view]; rewrite ?E; try done.
  destruct (raise_if _ _) as [[]|]; cbn [mbind exc_bind view]; [by rewrite E|done].
Qed.

Lemma stageTombstone_view p observed s op :
  view p (stageTombstone p observed s op) = refTombstone observed (written p s) (appended s) op.
Proof.
  unfold stageTombstone, refTombstone. cbv zeta. rewrite !written_record.
  destruct (raise_if (negb observed && _ && _) _) as [[]|]; [|done]. cbn [mbind exc_bind].
  set (k := RecordKey.value (Op.tomb_key op)).
  set (s1 := s <| s_records := <[k := None]> (s_records s) |>).
  assert (written p s <| records := delete k (records (written p s)) |> = written p s1) as ->.
  { unfold s1, written. cbn. by rewrite writeRecords_insert. }
  change (appended s) with (appended s1). clearbody s1.
  assert (view p (match removedByIntent (Op.tomb_intent op) with
    | Some (name, version) =>
        if bool_decide (is_Some (s_names s1 !! name)) || bool_decide (is_Some (names p !! name)) then
          if bool_decide (version ∈ live (dataName p s1 name)) then
            of_result (VersionRanges.add (removed (dataName p s1 name)) version) ≫= λ removed',
            Done (setName s1 name (MkName (live (dataName p s1 name) ∖ {[version]})
              (highWater (dataName p s1 name)) removed'))
          else Done (setName s1 name (dataName p s1 name))
        else Done s1
    | None => Done s1 end) =
    match removedByIntent (Op.tomb_intent op) with
    | Some (name, version) =>
        match names (written p s1) !! name with
        | Some entry =>
            if bool_decide (version ∈ live entry) then
              of_result (VersionRanges.add (removed entry) version) ≫= λ removed',
              Done (written p s1 <| names := <[name := MkName (live entry ∖ {[version]})
                (highWater entry) removed']> (names (written p s1)) |>, appended s1)
            else Done (written p s1, appended s1)
        | None => Done (written p s1, appended s1)
        end
    | None => Done (written p s1, appended s1) end) as E.
  { destruct (removedByIntent _) as [[name version]|]; [|done].
    pose proof (written_name p s1 name) as Hn.
    assert (names (written p s1) !! name =
      if bool_decide (is_Some (s_names s1 !! name)) || bool_decide (is_Some (names p !! name))
      then Some (dataName p s1 name) else None) as Hl.
    { cbn. rewrite writeNames_lookup. unfold dataName.
      destruct (s_names s1 !! name) eqn:E1; [by rewrite bool_decide_eq_true_2 by eauto|].
      rewrite bool_decide_eq_false_2 by (by intros []).
      destruct (names p !! name) eqn:E2; [by rewrite bool_decide_eq_true_2 by eauto|].
      by rewrite bool_decide_eq_false_2 by (by intros []). }
    rewrite Hl. destruct (_ || _) eqn:Hb; [|done].
    destruct (bool_decide (version ∈ live _)) eqn:Hv.
    - destruct (of_result _) as [r|]; [|done]. cbn [mbind exc_bind view]. by rewrite written_setName.
    - cbn [view]. rewrite written_setName. do 2 f_equal.
      transitivity (written p s1 <| names := names (written p s1) |>); [|done]. unfold set_field.
      rewrite insert_id by done. done. }
  destruct (Op.tomb_expect op) as [[|sha]|]; cbn [mbind exc_bind]; [exact E| |exact E].
  destruct (raise_if _ _) as [[]|]; cbn [mbind exc_bind view]; [exact E|done].
Qed.

Lemma stageDataVersion_view p replay observed s op :
  view p (stageDataVersion p replay observed s op) =
  refDataVersion replay observed (written p s) (appended s) op.
Proof.
  unfold stageDataVersion, refDataVersion, refuses, consume. cbv zeta. rewrite written_name.
  set (name := DataMetadata.name _). set (version := DataMetadata.version _).
  set (entry := dataName p s name).
  set (e' := MkName ({[version]} ∪ live entry) (Z.max (highWater entry) version)
               (VersionRanges.delete (removed entry) version)).
  destruct observed; cbn [negb andb mbind exc_bind view]; [by rewrite written_setName|].
  destruct (bool_decide (version ∈ live entry)); cbn [negb andb mbind exc_bind].
  - destruct (bool_decide (nameVersion name version ∈ appended s)); [|done].
    cbn [negb]. rewrite andb_false_r. cbn [andb view mbind exc_bind]. by rewrite written_setName.
  - destruct replay; cbn [negb andb mbind exc_bind view]; [by rewrite written_setName|].
    destruct (VersionRanges.has (removed entry) version); cbn [view mbind exc_bind];
      [|by rewrite written_setName].
    destruct (bool_decide (nameVersion name version ∈ appended s)); [|done]. 
    cbn [negb view mbind exc_bind]. by rewrite written_setName.
Qed.

Lemma stageLease_view p s op : view p (stageLease p s op) = refLease (written p s) (appended s) op.
Proof.
  unfold stageLease, refLease. change (leaseFence (written p s)) with (s_leaseFence s).
  change (key (written p s)) with (key p).
  destruct (s_leaseFence s); [|done]. by destruct (raise_if _ _) as [[]|].
Qed.

Lemma stageOps_view p replay observed s ops :
  view p (stageOps p replay observed s ops) = refOps replay observed (written p s) (appended s) ops.
Proof.
  revert s. induction ops as [|op ops IH]; intros s; [done|]. cbn [stageOps refOps].
  assert (view p (stageOp p replay observed s op) =
    refOp replay observed (written p s) (appended s) op) as <-.
  { destruct op; [apply stagePut_view|apply stageTombstone_view|apply stageDataVersion_view|
      apply stageLease_view]. }
  destruct (stageOp p replay observed s op) as [s'|e]; [|done]. cbn [view mbind exc_bind fst snd].
  apply IH.
Qed.

(** The ops leave alone what the commit itself sets. *)
Lemma refOp_frame replay observed p app op pa :
  refOp replay observed p app op = Done pa →
  key pa.1 = key p ∧ seq pa.1 = seq p ∧ highestFence pa.1 = highestFence p ∧
  txnIds pa.1 = txnIds p ∧ priorTxn pa.1 = priorTxn p.
Proof.
  destruct op as [op|op|op|op]; cbn [refOp].
  - unfold refPut. cbv zeta. intros (_ & _ & H)%exc_bind_done. apply exc_bind_done in H as (_ & _ & H).
    by injection H as <-.
  - unfold refTombstone. cbv zeta. intros (_ & _ & H)%exc_bind_done.
    apply exc_bind_done in H as (_ & _ & H).
    destruct (removedByIntent _) as [[name version]|]; [|by injection H as <-].
    destruct (names _ !! name) as [e|]; [|by injection H as <-].
    destruct (bool_decide _); [|by injection H as <-].
    apply exc_bind_done in H as (r & _ & H). by injection H as <-.
  - unfold refDataVersion. cbv zeta. destruct (refuses _ _ _ _); [|by intros [= <-]].
    destruct (bool_decide _); [|done]. by intros [= <-].
  - unfold refLease. intros (_ & _ & H)%exc_bind_done. by injection H as <-.
Qed.

Lemma refOps_frame replay observed p app ops pa :
  refOps replay observed p app ops = Done pa →
  key pa.1 = key p ∧ seq pa.1 = seq p ∧ highestFence pa.1 = highestFence p ∧
  txnIds pa.1 = txnIds p ∧ priorTxn pa.1 = priorTxn p.
Proof.
  revert p app. induction ops as [|op ops IH]; intros p app; cbn [refOps]; [by intros [= <-]|].
  intros (pa' & H1%refOp_frame & H2%IH)%exc_bind_done.
  destruct H1 as (? & ? & ? & ? & ?), H2 as (? & ? & ? & ? & ?). split_and!; by etransitivity.
Qed.

Lemma apply_reference p c replay observed :
  apply p c replay observed = applyReference p c replay observed.
Proof.
  unfold apply, applyReference. destruct (negb _); [done|]. destruct (hasTxn _ _); [done|].
  destruct (checkSeq p c observed) as [[]|]; [|done]. cbn [mbind exc_bind].
  destruct (checkFence p c) as [fence|]; [|done]. cbn [mbind exc_bind].
  pose proof (stageOps_view p replay observed (initialStage p) (Commit.ops c)) as H.
  rewrite written_initial in H. change (appended (initialStage p)) with (∅ : gset string) in H.
  rewrite <-H. destruct (stageOps _ _ _ _ _) as [s|e]; done.
Qed.

(** C17: staging is transparent: applying a commit, in any mode, gives the
    state and the result of applying its ops one after the other directly to
    the partition and then setting the sequence number, the fence and the
    transaction; a commit refused at any op leaves the partition as it was. *)
Theorem staging_is_transparent (p : t) (c : Commit.t) (replay observed : bool) :
  apply p c replay observed = applyReference p c replay observed ∧
  (∀ p' e, apply p c replay observed = (p', Raise e) → p' = p) ∧
  (∀ p', apply p c replay observed = (p', Done Duplicate) → p' = p).
Proof.
  split; [apply apply_reference|]. unfold apply.
  split; intros p'; repeat case_match; naive_solver.
Qed.

(** ** Well-formed partitions *)

(** versions an array of ranges is indexed for *)
Definition MAX_TRACKED : Z := 2 ^ 30.

Definition isVersionNo (v : Z) : Prop := 1 ≤ v ≤ MAX_TRACKED.

(** the marks of a name: the live and the removed versions are apart and none
    is above the high-water mark *)
Record marksOk (e : DataName) : Prop := {
  marks_live v : v ∈ live e → 1 ≤ v ≤ highWater e;
  marks_canonical : VersionRanges.canonical (removed e);
  marks_removed v : VersionRanges.mem v (removed e) → v ≤ highWater e;
  marks_apart v : v ∈ live e → ¬ VersionRanges.mem v (removed e);
  marks_bound : 0 ≤ highWater e ≤ MAX_TRACKED;
}.

Definition nameOk (e : DataName) : Prop := marksOk e ∧ 1 ≤ highWater e.

Lemma newName_ok : marksOk newName.
Proof.
  split; cbn; [set_solver|repeat constructor| |set_solver|unfold MAX_TRACKED; lia].
  intros v []%VersionRanges.mem_nil.
Qed.

Lemma marks_indexable e : marksOk e → VersionRanges.indexable (removed e).
Proof.
  intros H. eapply VersionRanges.bounded_indexable; [apply H|apply H|]. apply H.
Qed.

Lemma marks_has e v : marksOk e → VersionRanges.has (removed e) v = true ↔ VersionRanges.mem v (removed e).
Proof. intros H. apply VersionRanges.has_mem; [apply H|by apply marks_indexable]. Qed.

Lemma tracked_safe v : isVersionNo v → 1 ≤ v ≤ MAX_SAFE_INTEGER.
Proof. unfold isVersionNo, MAX_TRACKED, MAX_SAFE_INTEGER. lia. Qed.

(** recording a version *)
Lemma record_marks e v :
  marksOk e → isVersionNo v →
  nameOk (MkName ({[v]} ∪ live e) (Z.max (highWater e) v) (VersionRanges.delete (removed e) v)).
Proof.
  intros H Hv. unfold isVersionNo in Hv.
  destruct (VersionRanges.delete_spec (removed e) v) as [Hc Hm]; [apply H|by apply marks_indexable|].
  split; [|cbn; lia]. split; cbn.
  - intros w [->%elem_of_singleton|Hw%(marks_live _ H)]%elem_of_union; lia.
  - done.
  - intros w [Hw%(marks_removed _ H) _]%Hm. lia.
  - intros w Hw [Hr ?]%Hm. apply elem_of_union in Hw as [->%elem_of_singleton|Hw]; [done|].
    by eapply (marks_apart _ H).
  - pose proof (marks_bound _ H). lia.
Qed.

(** removing a live version *)
Lemma remove_marks e v :
  marksOk e → v ∈ live e →
  ∃ r, VersionRanges.add (removed e) v = Ok r ∧
    (∀ w, VersionRanges.mem w r ↔ w = v ∨ VersionRanges.mem w (removed e)) ∧
    nameOk (MkName (live e ∖ {[v]}) (highWater e) r).
Proof.
  intros H Hv. pose proof (marks_live _ H v Hv). pose proof (marks_bound _ H).
  destruct (VersionRanges.add_spec (removed e) v) as (r & Hr & Hc & Hm);
    [apply H|by apply marks_indexable|apply tracked_safe; unfold isVersionNo; lia|].
  exists r. split; [done|]. split; [done|]. split; [|cbn; lia]. split; cbn.
  - intros w [Hw _]%elem_of_difference. by apply (marks_live _ H).
  - done.
  - intros w [->|Hw]%Hm; [lia|]. by apply (marks_removed _ H).
  - intros w [Hw Hne]%elem_of_difference [->|Hr']%Hm; [set_solver|]. by eapply (marks_apart _ H).
  - done.
Qed.

(** keeping a version that was dropped *)
Lemma retain_marks e v :
  marksOk e → isVersionNo v →
  ∃ e' c, retainVersion e v = Done (e', c) ∧ nameOk e' ∧ live e' = live e ∧
    (∀ w, VersionRanges.mem w (removed e') ↔
      VersionRanges.mem w (removed e) ∨ (w = v ∧ v ∉ live e)).
Proof.
  intros H Hv. unfold retainVersion. unfold isVersionNo in Hv. pose proof (marks_bound _ H).
  destruct (negb _ && negb _) eqn:E.
  - split_bools. destruct (VersionRanges.add_spec (removed e) v) as (r & Hr & Hc & Hm);
      [apply H|by apply marks_indexable|by apply tracked_safe|].
    rewrite Hr. cbn. eexists _, _. split; [done|]. split; [split; [split|]|]; cbn; try done; try lia.
    + intros w Hw%(marks_live _ H). lia.
    + intros w [->|Hw%(marks_removed _ H)]%Hm; lia.
    + intros w Hw [->|?]%Hm; [done|]. by eapply (marks_apart _ H).
    + split; [done|]. intros w. rewrite Hm. naive_solver.
  - eexists _, _. split; [done|]. split; [split; [split|]|]; cbn; try lia.
    + intros w Hw%(marks_live _ H). lia.
    + apply (marks_canonical _ H).
    + intros w Hw%(marks_removed _ H). lia.
    + apply (marks_apart _ H).
    + split; [done|]. intros w. split; [tauto|]. intros [?|[-> Hn]]; [done|].
      apply andb_false_iff in E as [E|E]; split_bools; [done|]. by apply marks_has.
Qed.

(** keeping the marks of a later state *)
Lemma delete_all_spec r l :
  VersionRanges.canonical r → VersionRanges.indexable r → (∀ v, VersionRanges.mem v r → v ≤ MAX_TRACKED) →
  VersionRanges.canonical (foldl VersionRanges.delete r l) ∧
  ∀ v, VersionRanges.mem v (foldl VersionRanges.delete r l) ↔ VersionRanges.mem v r ∧ v ∉ l.
Proof.
  revert r. induction l as [|x l IH]; intros r Hc Hi Hb; cbn [foldl].
  - split; [done|]. intros v. set_solver.
  - destruct (VersionRanges.delete_spec r x Hc Hi) as [Hc' Hm'].
    destruct (IH (VersionRanges.delete r x)) as [Hc'' Hm''].
    + done.
    + eapply VersionRanges.bounded_indexable; [done|intros v [? _]%Hm'; by apply Hb|].
      unfold MAX_TRACKED. lia.
    + intros v [? _]%Hm'. by apply Hb.
    + split; [done|]. intros v. rewrite Hm'', Hm', not_elem_of_cons. tauto.
Qed.

Lemma retain_name_marks e o :
  marksOk e → nameOk o →
  ∃ e' c, retainName e o = Done (e', c) ∧ nameOk e' ∧ live e' = live e ∧
    (∀ w, VersionRanges.mem w (removed e') ↔
      (VersionRanges.mem w (removed e) ∨ VersionRanges.mem w (removed o)) ∧ w ∉ live e).
Proof.
  intros H [Ho Ho1]. unfold retainName. pose proof (marks_bound _ H). pose proof (marks_bound _ Ho).
  destruct (VersionRanges.union_spec (removed e) (removed o)) as (u & Hu & Huc & Hum);
    [apply H|apply Ho|]. rewrite Hu. cbn [of_result mbind exc_bind].
  assert (∀ v, VersionRanges.mem v u → v ≤ Z.max (highWater e) (highWater o)) as Hub.
  { intros v [Hv%(marks_removed _ H)|Hv%(marks_removed _ Ho)]%Hum; lia. }
  destruct (delete_all_spec u (elements (live e))) as [Hdc Hdm].
  { done. }
  { eapply VersionRanges.bounded_indexable; [done|exact Hub|]. unfold MAX_TRACKED in *. lia. }
  { intros v Hv%Hub. lia. }
  setoid_rewrite elem_of_elements in Hdm.
  destruct (VersionRanges.equals _ (removed e)) eqn:E; cbn [negb].
  - apply VersionRanges.equals_eq in E. eexists _, _. split; [done|].
    split; [split; [split|]|]; cbn; try lia.
    + intros w Hw%(marks_live _ H). lia.
    + apply (marks_canonical _ H).
    + intros w Hw%(marks_removed _ H). lia.
    + apply (marks_apart _ H).
    + split; [done|]. intros w. rewrite <-E at 1. by rewrite Hdm, Hum.
  - eexists _, _. split; [done|]. split; [split; [split|]|]; cbn; try lia; try done.
    + intros w Hw%(marks_live _ H). lia.
    + intros w [Hw%Hub _]%Hdm. lia.
    + intros w Hw [_ ?]%Hdm. done.
    + split; [done|]. intros w. by rewrite Hdm, Hum.
Qed.

Definition fenceOk (f : Z) : Prop := 0 ≤ f ≤ MAX_SAFE_INTEGER.

Definition recordOk (k sha : string) : Prop :=
  RecordKey.create k = Ok (RecordKey.Mk k) ∧ isSha256Hex (Some (VStr sha)) = Some sha.

Record wf (p : t) : Prop := {
  wf_names name e : names p !! name = Some e → nameOk e;
  wf_records k sha : records p !! k = Some sha → recordOk k sha;
  wf_seq : 0 ≤ seq p ≤ MAX_SAFE_INTEGER;
  wf_highest f : highestFence p = Some f → fenceOk f;
  wf_leaseFence f : leaseFence p = Some f → fenceOk f;
  wf_holder h : leaseHolder p = Some h → h ≠ "" ∧ is_Some (leaseFence p);
}.

(** what the factories check of an op, and versions that are tracked *)
Definition opOk (op : Op.t) : Prop :=
  match op with
  | Op.Put op => recordOk (RecordKey.value (Op.put_key op)) (Op.put_sha256 op)
  | Op.Tombstone _ => True
  | Op.DataVersion op => isVersionNo (DataMetadata.version (Op.metadata op))
  | Op.Lease op => Op.holder op ≠ "" ∧ fenceOk (Op.fence op)
  end.

Definition commitOk (c : Commit.t) : Prop :=
  (∀ op, op ∈ Commit.ops c → opOk op) ∧ 1 ≤ Commit.seq c ≤ MAX_SAFE_INTEGER ∧
  ∀ f, Commit.fence c = Some f → fenceOk f.

Lemma name_marks p name : wf p → marksOk (default newName (names p !! name)).
Proof.
  intros H. destruct (names p !! name) as [e|] eqn:E; [apply (wf_names _ H _ _ E)|apply newName_ok].
Qed.

Lemma wf_set_name p name e : wf p → nameOk e → wf (p <| names := <[name := e]> (names p) |>).
Proof.
  intros H He. split; cbn; try apply H.
  intros n e'. rewrite lookup_insert_Some. intros [[_ <-]|[_ ?]]; [done|]. by eapply (wf_names _ H).
Qed.

Lemma wf_set_records p rs :
  wf p → (∀ k sha, rs !! k = Some sha → recordOk k sha) → wf (p <| records := rs |>).
Proof. intros H Hr. split; cbn; [apply H|done|apply H..]. Qed.

Lemma wf_delete_record p k : wf p → wf (p <| records := delete k (records p) |>).
Proof.
  intros H. apply wf_set_records; [done|]. intros i sha [_ ?]%lookup_delete_Some.
  by eapply (wf_records _ H).
Qed.

Lemma removed_intent_wf p name version (app : gset string) :
  wf p →
  ∀ pa, match names p !! name return exc (t * gset string) with
      | Some entry =>
          if bool_decide (version ∈ live entry) then
            of_result (VersionRanges.add (removed entry) version) ≫= λ removed',
            Done (p <| names := <[name := MkName (live entry ∖ {[version]}) (highWater entry) removed']>
                                  (names p) |>, app)
          else Done (p, app)
      | None => Done (p, app)
      end = Done pa → wf pa.1.
Proof.
  intros H pa. destruct (names p !! name) as [e|] eqn:E; [|by intros [= <-]].
  case_bool_decide as Hv; [|by intros [= <-]].
  destruct (remove_marks e version) as (r & -> & _ & Hok); [apply (wf_names _ H _ _ E)|done|].
  cbn. intros [= <-]. by apply wf_set_name.
Qed.

Lemma refOp_wf replay observed p app op pa :
  wf p → opOk op → refOp replay observed p app op = Done pa → wf pa.1.
Proof.
  intros H Hop. destruct op as [op|op|op|op]; cbn [refOp].
  - unfold refPut. cbv zeta. intros (_ & _ & HH)%exc_bind_done. apply exc_bind_done in HH as (_ & _ & HH).
    injection HH as <-. apply wf_set_records; [done|]. intros k sha.
    rewrite lookup_insert_Some. intros [[<- <-]|[_ ?]]; [done|]. by eapply (wf_records _ H).
  - unfold refTombstone. cbv zeta. intros (_ & _ & HH)%exc_bind_done.
    apply exc_bind_done in HH as (_ & _ & HH).
    assert (wf (p <| records := delete (RecordKey.value (Op.tomb_key op)) (records p) |>)) as H'
      by (by apply wf_delete_record).
    destruct (removedByIntent _) as [[name version]|]; [|by injection HH as <-].
    by eapply removed_intent_wf.
  - unfold refDataVersion. cbv zeta. intros HH.
    assert (wf (p <| names := <[DataMetadata.name (Op.metadata op) := MkName
      ({[DataMetadata.version (Op.metadata op)]} ∪ live (default newName (names p !! DataMetadata.name (Op.metadata op))))
      (Z.max (highWater (default newName (names p !! DataMetadata.name (Op.metadata op)))) (DataMetadata.version (Op.metadata op)))
      (VersionRanges.delete (removed (default newName (names p !! DataMetadata.name (Op.metadata op)))) (DataMetadata.version (Op.metadata op)))]> (names p) |>)).
    { apply wf_set_name; [done|]. apply record_marks; [by apply name_marks|done]. }
    destruct (refuses _ _ _ _); [|by injection HH as <-].
    destruct (bool_decide _); [|done]. by injection HH as <-.
  - unfold refLease. intros (_ & _ & HH)%exc_bind_done. injection HH as <-. destruct Hop.
    split; cbn; [apply H..| |].
    + by intros ? [= <-].
    + intros ? [= <-]. eauto.
Qed.

Lemma refOps_wf replay observed p app ops pa :
  wf p → (∀ op, op ∈ ops → opOk op) → refOps replay observed p app ops = Done pa → wf pa.1.
Proof.
  revert p app. induction ops as [|op ops IH]; intros p app H Hop; cbn [refOps]; [by intros [= <-]|].
  intros (pa' & H1 & H2)%exc_bind_done. eapply IH; [|set_solver|exact H2].
  eapply refOp_wf; [exact H| |exact H1]. set_solver.
Qed.

Lemma checkFence_ok p c f : checkFence p c = Done f → f = Commit.fence c.
Proof.
  unfold checkFence. destruct (Commit.fence c) as [g|].
  - intros (f' & Hf & [= <-])%exc_bind_done. unfold raiseFence in Hf.
    destruct (highestFence p); [|by simplify_eq]. case_bools; by simplify_eq.
  - destruct (highestFence p); [done|by intros [= <-]].
Qed.

(** the two ways [apply] can end *)
Lemma apply_cases p c replay observed :
  (∃ pa, apply p c replay observed =
     (pa.1 <| seq := Commit.seq c |> <| highestFence := Commit.fence c |>
           <| txnIds := {[Commit.txnId c]} ∪ txnIds p |>, Done (Appended (Commit.seq c))) ∧
     PartitionKey.value (Commit.partition c) = PartitionKey.value (key p) ∧
     hasTxn p (Commit.txnId c) = false ∧ checkSeq p c observed = Done tt ∧
     checkFence p c = Done (Commit.fence c) ∧
     refOps replay observed p ∅ (Commit.ops c) = Done pa) ∨
  (∃ r, apply p c replay observed = (p, r) ∧ ∀ n, r ≠ Done (Appended n)).
Proof.
  rewrite apply_reference. unfold applyReference.
  destruct (negb _) eqn:Hk; [right; by eexists|].
  destruct (hasTxn _ _) eqn:Ht; [right; by eexists|].
  destruct (checkSeq p c observed) as [[]|] eqn:Hs; [|right; by eexists]. cbn [mbind exc_bind].
  destruct (checkFence p c) as [f|] eqn:Hf; [|right; by eexists]. cbn [mbind exc_bind].
  pose proof (checkFence_ok _ _ _ Hf) as ->.
  destruct (refOps _ _ _ _ _) as [pa|] eqn:Ho; [|right; by eexists]. cbn [mbind exc_bind].
  left. exists pa. apply refOps_frame in Ho as Hframe. destruct Hframe as (_ & _ & _ & Htx & _).
  rewrite Htx. split_and!; try done. apply negb_false_iff in Hk. unfold PartitionKey.equals in Hk.
  by split_bools.
Qed.

Lemma apply_wf p c replay observed : wf p → commitOk c → wf (apply p c replay observed).1.
Proof.
  intros H (Hop & Hs & Hf). destruct (apply_cases p c replay observed)
    as [(pa & -> & _ & _ & _ & _ & Ho)|(r & -> & _)]; [|done].
  apply refOps_wf in Ho as [? ? ? ? ? ?]; [|done..]. split; cbn; try done. lia.
Qed.

Lemma retainDropped_wf p name vs b :
  wf p → Forall isVersionNo vs → wf (retainDroppedVersions p name vs b).1 ∧
  ∃ c, (retainDroppedVersions p name vs b).2 = Done c.
Proof.
  intros H Hvs. revert p b H. induction Hvs as [|v vs Hv Hvs IH]; intros p b H;
    cbn [retainDroppedVersions]; [by eauto|].
  destruct (retain_marks (default newName (names p !! name)) v) as (e' & c & -> & Hok & _);
    [by apply name_marks|done|]. apply IH. by apply wf_set_name.
Qed.

Lemma retainNames_wf p l b :
  wf p → (∀ n e, (n, e) ∈ l → nameOk e) → wf (retainNames p l b).1 ∧
  ∃ c, (retainNames p l b).2 = Done c.
Proof.
  revert p b. induction l as [|[n o] l IH]; intros p b H Hl; cbn [retainNames]; [by eauto|].
  destruct (retain_name_marks (default newName (names p !! n)) o) as (e' & c & -> & Hok & _);
    [by apply name_marks|eapply Hl, list_elem_of_here|].
  apply IH; [by apply wf_set_name|]. intros n' e'' ?. by eapply Hl, list_elem_of_further.
Qed.

Lemma retainVersionsOf_wf p later :
  wf p → wf later → wf (retainVersionsOf p later).1 ∧ ∃ c, (retainVersionsOf p later).2 = Done c.
Proof.
  intros H Hl. apply retainNames_wf; [done|]. intros n e He%elem_of_map_to_list.
  by eapply (wf_names _ Hl).
Qed.

(** ** Snapshots *)

Lemma of_canonical r : VersionRanges.canonical r → VersionRanges.of_ (VersionRanges.asArrays r) = Ok r.
Proof.
  intros Hc. destruct (VersionRanges.of_arrays_spec r) as (r' & Hr & Hc' & Hm); [apply Hc|].
  rewrite Hr. f_equal. by apply VersionRanges.canonical_ext.
Qed.

Lemma mem_max r : VersionRanges.canonical r → r ≠ [] → VersionRanges.mem (VersionRanges.max r) r.
Proof.
  intros [Hok _] Hne. unfold VersionRanges.max. destruct (last r) as [[a b]|] eqn:E.
  - apply last_Some in E as [l ->]. rewrite Forall_app, Forall_singleton in Hok.
    destruct Hok as [_ [Hab _]]. exists (a, b). split; [set_solver|]. cbn in *. lia.
  - by apply last_None in E.
Qed.

Lemma max_upper r v :
  VersionRanges.canonical r → VersionRanges.mem v r → v ≤ VersionRanges.max r.
Proof.
  intros Hc (p & Hp & Hv). unfold VersionRanges.max. destruct (last r) as [[a b]|] eqn:E.
  - apply last_Some in E as [l ->]. apply VersionRanges.canonical_snoc in Hc as (_ & [Hab _] & Hap).
    apply elem_of_app in Hp as [Hp| ->%list_elem_of_singleton]; [|cbn in *; lia].
    specialize (Hap p Hp). unfold VersionRanges.apart in Hap. cbn in *. lia.
  - apply last_None in E as ->. by apply elem_of_nil in Hp.
Qed.

(** mapping back what was mapped *)
Lemma mapM_fmap_Some {A B C} (f : A → B) (g : B → option C) (h : A → C) l :
  (∀ x, x ∈ l → g (f x) = Some (h x)) → mapM g (f <$> l) = Some (h <$> l).
Proof.
  intros H. apply mapM_Some. induction l as [|x l IH]; [constructor|].
  constructor; [apply H, list_elem_of_here|]. apply IH. intros y Hy. by apply H, list_elem_of_further.
Qed.

Lemma rangesOf_toJSON r :
  VersionRanges.canonical r →
  ∃ l, rangesToJSON r = VArr l ∧ mapM rangeOf l = Some ((λ p : Z * Z, [VNum p.1; VNum p.2]) <$> r) ∧
    rangesOf ((λ p : Z * Z, [VNum p.1; VNum p.2]) <$> r) = Ok r.
Proof.
  intros Hc. eexists. split; [done|]. split.
  - by apply mapM_fmap_Some.
  - unfold rangesOf. rewrite (mapM_fmap_Some _ _ (λ p : Z * Z, [p.1; p.2])) by done.
    by apply of_canonical.
Qed.

#[local] Instance versionCompare_comparator : Comparator versionCompare.
Proof. apply (cmp_sub_comparator id). Qed.

#[local] Instance byName_comparator {V} : Comparator (byName (V := V)).
Proof. apply (cmp_on_comparator fst byCodeUnit). apply _. Qed.

Lemma liveVersions_toJSON hw (s : gset Z) :
  (∀ v, v ∈ s → 1 ≤ v ≤ hw) → hw ≤ MAX_TRACKED →
  liveVersions hw (Some (VArr (VNum <$> js_sort versionCompare (elements s)))) =
  Some (js_sort versionCompare (elements s)).
Proof.
  intros Hs Hb. unfold liveVersions.
  rewrite (mapM_fmap_Some _ _ id).
  - rewrite list_fmap_id. cbn [mbind option_bind].
    rewrite bool_decide_eq_true_2; [done|]. rewrite js_sort_perm. apply NoDup_elements.
  - intros v Hv%elem_of_js_sort%elem_of_elements%Hs. cbn.
    unfold isSafeInteger. unfold MAX_TRACKED, MAX_SAFE_INTEGER in *.
    by rewrite !(proj2 (Z.leb_le _ _)) by lia.
Qed.

Lemma restoreRemoved_toJSON k name e :
  nameOk e →
  restoreRemoved k name (highWater e) (js_sort versionCompare (elements (live e)))
    (assoc_get "removed" (if VersionRanges.isEmpty (removed e) then []
                          else [("removed", rangesToJSON (removed e))])) = Ok (removed e).
Proof.
  intros [H _]. unfold restoreRemoved. destruct (VersionRanges.isEmpty (removed e)) eqn:E.
  { cbn. by destruct (removed e). }
  change (assoc_get "removed" _) with (Some (rangesToJSON (removed e))).
  destruct (rangesOf_toJSON (removed e)) as (l & Hl & Hm & Hr); [apply H|]. rewrite Hl, Hm, Hr.
  cbn [mbind result_bind].
  assert (removed e ≠ []) as Hne by (by intros Hn; rewrite Hn in E).
  rewrite (proj2 (Z.ltb_ge _ _)); [|by apply (marks_removed _ H), mem_max; [apply H|]].
  assert (existsb (VersionRanges.has (removed e)) (js_sort versionCompare (elements (live e))) = false) as ->.
  { apply existsb_false_elem_of. intros v Hv%elem_of_js_sort%elem_of_elements.
    apply not_true_iff_false. rewrite marks_has by done. by apply (marks_apart _ H). }
  done.
Qed.

Lemma restoreName_toJSON k acc name e :
  nameOk e → acc !! name = None → restoreName k acc (nameToJSON (name, e)) = Ok (name, e).
Proof.
  intros Hok Ha. unfold restoreName, nameToJSON. cbn [entryFields].
  assert (unknownField ["name"; "live"; "highWater"; "removed"]
    ([("name", VStr (name, e).1);
      ("live", VArr (VNum <$> js_sort versionCompare (elements (live (name, e).2))));
      ("highWater", VNum (highWater (name, e).2))] ++
     (if VersionRanges.isEmpty (removed (name, e).2) then []
      else [("removed", rangesToJSON (removed (name, e).2))])) = None) as ->.
  { apply unknownField_app; [reflexivity|]. cbn [snd]. destruct (VersionRanges.isEmpty (removed e)); reflexivity. }
  rewrite !assoc_get_app. cbn [assoc_get fst snd]. eval_keys.
  rewrite bool_decide_eq_false_2 by (rewrite Ha; by intros []).
  destruct Hok as [H H1]. pose proof (marks_bound _ H).
  assert (BlobRef.integerFrom 1 (Some (VNum (highWater e))) = Some (highWater e)) as ->.
  { cbn. unfold isSafeInteger, MAX_TRACKED, MAX_SAFE_INTEGER in *.
    by rewrite !(proj2 (Z.leb_le _ _)) by lia. }
  rewrite liveVersions_toJSON; [|apply (marks_live _ H)|lia].
  rewrite restoreRemoved_toJSON by done. cbn. do 2 f_equal. destruct e as [lv hw rm]. cbn. f_equal.
  apply set_eq. intros v. by rewrite elem_of_list_to_set, elem_of_js_sort, elem_of_elements.
Qed.

Lemma restoreNames_toJSON k l acc :
  NoDup l.*1 → (∀ n e, (n, e) ∈ l → nameOk e ∧ acc !! n = None) →
  restoreNames k (nameToJSON <$> l) acc = Ok (list_to_map l ∪ acc).
Proof.
  revert acc. induction l as [|[n e] l IH]; intros acc Hnd Hl.
  { cbn. by rewrite map_empty_union. }
  cbn in Hnd. apply NoDup_cons in Hnd as [Hn Hnd].
  destruct (Hl n e (list_elem_of_here _ _)) as [Hok Hacc].
  change (nameToJSON <$> (n, e) :: l) with (nameToJSON (n, e) :: (nameToJSON <$> l)).
  cbn [restoreNames]. rewrite restoreName_toJSON by done. cbn [mbind result_bind].
  rewrite IH; [|done|].
  - cbn. rewrite <-insert_union_r by (by apply not_elem_of_list_to_map_1). by rewrite insert_union_l.
  - intros n' e' Hin. destruct (Hl n' e') as [? ?]; [by apply list_elem_of_further|]. split; [done|].
    rewrite lookup_insert_ne; [done|]. intros ->. apply Hn. apply list_elem_of_fmap. by exists (n', e').
Qed.

Lemma restoreRecords_toJSON k l acc :
  NoDup l.*1 → (∀ n s, (n, s) ∈ l → recordOk n s ∧ acc !! n = None) →
  restoreRecords k ((λ kv : string * string, VArr [VStr kv.1; VStr kv.2]) <$> l) acc =
  Ok (list_to_map l ∪ acc).
Proof.
  revert acc. induction l as [|[n s] l IH]; intros acc Hnd Hl.
  { cbn. by rewrite map_empty_union. }
  cbn in Hnd. apply NoDup_cons in Hnd as [Hn Hnd].
  destruct (Hl n s (list_elem_of_here _ _)) as [[Hk Hs] Hacc].
  cbn [fmap list_fmap fst snd restoreRecords restoreRecord]. rewrite Hs, Hk.
  cbn [orFail mbind result_bind RecordKey.value].
  rewrite bool_decide_eq_false_2 by (rewrite Hacc; by intros []).
  rewrite IH; [|done|].
  - cbn. rewrite <-insert_union_r by (by apply not_elem_of_list_to_map_1). by rewrite insert_union_l.
  - intros n' e' Hin. destruct (Hl n' e') as [? ?]; [by apply list_elem_of_further|]. split; [done|].
    rewrite lookup_insert_ne; [done|]. intros ->. apply Hn. apply list_elem_of_fmap. by exists (n', e').
Qed.

(** a map is the list of its entries in any order *)
Lemma sorted_entries_map {V} (m : gmap string V) (f : (string * V) → (string * V) → Z) :
  NoDup (js_sort f (map_to_list m)).*1 ∧ list_to_map (js_sort f (map_to_list m)) ∪ ∅ = m ∧
  (∀ n e, (n, e) ∈ js_sort f (map_to_list m) → m !! n = Some e).
Proof.
  assert (NoDup (js_sort f (map_to_list m)).*1) as Hnd.
  { rewrite js_sort_perm. apply NoDup_fst_map_to_list. }
  split_and!; [done| |].
  - rewrite map_union_empty. rewrite (list_to_map_proper _ (map_to_list m)); [apply list_to_map_to_list|done|].
    apply js_sort_perm.
  - intros n e Hin%elem_of_js_sort. by apply elem_of_map_to_list.
Qed.

Lemma optional_fence f :
  (∀ z, f = Some z → fenceOk z) → Commit.optional (VNum <$> f) Op.requireFence = Ok f.
Proof.
  destruct f as [z|]; [|done]. intros H. specialize (H z eq_refl). unfold fenceOk in H. cbn.
  unfold Op.requireFence. cbn. unfold isSafeInteger.
  by rewrite !(proj2 (Z.leb_le _ _)) by (unfold MAX_SAFE_INTEGER in *; lia).
Qed.

Lemma restore_snapshot p prior :
  wf p → restore (key p) (snapshot p) prior = Ok (p <| txnIds := ∅ |> <| priorTxn := prior |>).
Proof.
  intros H. unfold restore, snapshot.
  assert (unknownField snapshotKeys (snapshotFields p) = None) as ->.
  { unfold snapshotFields. repeat apply unknownField_app;
      first [reflexivity | apply unknownField_optField, (bool_decide_unpack _); vm_compute; exact I]. }
  unfold snapshotFields. rewrite !assoc_get_app, !assoc_get_optField. cbn [assoc_get]. eval_keys.
  cbn [mbind result_bind]. rewrite bool_decide_eq_true_2 by done. cbn [mbind result_bind].
  assert (BlobRef.integerFrom 0 (Some (VNum (seq p))) = Some (seq p)) as ->.
  { cbn. pose proof (wf_seq _ H). unfold isSafeInteger.
    by rewrite !(proj2 (Z.leb_le _ _)) by (unfold MAX_SAFE_INTEGER in *; lia). }
  cbn [mbind result_bind].
  destruct (sorted_entries_map (records p) byName) as (Hr1 & Hr2 & Hr3).
  destruct (sorted_entries_map (names p) byName) as (Hn1 & Hn2 & Hn3).
  destruct p as [k sq hf lf lh tx pt rs ns]. cbn [key seq highestFence leaseFence leaseHolder
    txnIds priorTxn records names] in *.
  assert (Commit.optional (VNum <$> hf) Op.requireFence = Ok hf) as Hhf
    by (apply optional_fence, (wf_highest _ H)).
  assert (Commit.optional (VNum <$> lf) Op.requireFence = Ok lf) as Hlf
    by (apply optional_fence, (wf_leaseFence _ H)).
  pose proof (wf_holder _ H) as Hh. cbn in Hh.
  transitivity (records ← restoreRecords k ((λ kv : string * string, VArr [VStr kv.1; VStr kv.2]) <$>
      js_sort byName (map_to_list rs)) ∅;
    names ← restoreNames k (nameToJSON <$> js_sort byName (map_to_list ns)) ∅;
    Ok (Mk k sq hf lf lh ∅ prior records names)).
  { destruct hf as [hf|], lf as [lf|], lh as [lh|]; cbn [fmap option_fmap option_map] in *;
      rewrite ?Hhf, ?Hlf; cbn [orFail mbind result_bind Commit.optional restoreHolder];
      try (destruct (Hh lh eq_refl) as [Hne [? ?]]; try done;
           rewrite (bool_decide_eq_false_2 (lh = "")) by done); reflexivity. }
  rewrite restoreRecords_toJSON; [|done|].
  2: { intros n s Hin%Hr3. split; [by apply (wf_records _ H)|apply lookup_empty]. }
  rewrite Hr2. cbn [mbind result_bind]. rewrite restoreNames_toJSON; [|done|].
  2: { intros n e Hin%Hn3. split; [by eapply (wf_names _ H)|apply lookup_empty]. }
  by rewrite Hn2.
Qed.

(** ** Restoring checks what it reads *)

Lemma orFail_ok {A} k (r : result A) a : orFail k r = Ok a ↔ r = Ok a.
Proof. unfold orFail, fail. destruct r; naive_solver. Qed.

Lemma restoreRecord_ok k v n s : restoreRecord k v = Ok (n, s) → recordOk n s.
Proof.
  unfold restoreRecord. repeat (case_match; try done). subst.
  intros (rk & Hk%orFail_ok & [= <- <-])%result_bind_ok. split.
  - rewrite (RecordKey.create_value _ _ Hk). rewrite Hk. f_equal. destruct rk. cbn.
    by apply RecordKey.create_value in Hk as <-.
  - by eapply isSha256Hex_again.
Qed.

Lemma restoreRecords_ok k l acc m :
  restoreRecords k l acc = Ok m → (∀ n s, acc !! n = Some s → recordOk n s) →
  ∀ n s, m !! n = Some s → recordOk n s.
Proof.
  revert acc. induction l as [|v l IH]; intros acc; cbn [restoreRecords]; [by intros [= <-]|].
  intros ([n s] & Hr%restoreRecord_ok & H)%result_bind_ok Ha. destruct (bool_decide _); [done|].
  eapply IH; [exact H|]. intros n' s'. rewrite lookup_insert_Some.
  intros [[<- <-]|[_ ?]]; auto.
Qed.

Lemma liveVersions_ok hw v l :
  liveVersions hw v = Some l → ∀ z, z ∈ l → 1 ≤ z ≤ hw.
Proof.
  unfold liveVersions. destruct v as [[| | | |vs|]|]; try done.
  intros (l' & Hm & H)%bind_Some. case_bools; [|done]. injection H as ->. clear -Hm.
  apply mapM_Some in Hm. induction Hm as [|x y l' k Hx Hm IH]; intros z Hz; [by apply elem_of_nil in Hz|].
  apply elem_of_cons in Hz as [->|Hz]; [|by apply IH].
  unfold liveVersion in Hx. destruct x; try done. case_bools; simplify_eq. split_bools. lia.
Qed.

Lemma rangesOf_ok l r : rangesOf l = Ok r → VersionRanges.canonical r.
Proof.
  unfold rangesOf. destruct (mapM (mapM numberOf) l) as [rs|]; [|by case_match].
  intros H. unfold VersionRanges.of_ in H. apply result_bind_ok in H as (c & Hc & H).
  apply VersionRanges.checkRanges_Ok in Hc as [<- Hok].
  destruct (VersionRanges.of_arrays_spec c Hok) as (r' & Hr' & Hcr & _).
  unfold VersionRanges.of_ in Hr'. apply result_bind_ok in Hr' as (c' & Hc' & Hr').
  assert (VersionRanges.checkRanges (VersionRanges.asArrays c) = Ok c) as Hcc
    by (by apply VersionRanges.checkRanges_Ok).
  rewrite Hcc in Hc'. injection Hc' as <-. rewrite H in Hr'. by injection Hr' as ->.
Qed.

Lemma restoreRemoved_ok k name hw lv v r :
  restoreRemoved k name hw lv v = Ok r → 0 ≤ hw ≤ MAX_TRACKED →
  VersionRanges.canonical r ∧ (∀ z, VersionRanges.mem z r → z ≤ hw) ∧
  (∀ z, z ∈ lv → ¬ VersionRanges.mem z r).
Proof.
  unfold restoreRemoved. intros H Hhw. destruct v as [v|].
  2: { injection H as <-. split; [repeat constructor|].
       split; [intros z []%VersionRanges.mem_nil|intros z _ []%VersionRanges.mem_nil]. }
  destruct (match v with VArr l => _ | _ => _ end) as [l|]; [|done].
  apply result_bind_ok in H as (r' & Hr & H).
  destruct (rangesOf l) as [r''|] eqn:E; [|done]. injection Hr as ->. apply rangesOf_ok in E.
  destruct (_ || _) eqn:Eb; [done|]. injection H as ->. split_bools. split; [done|].
  assert (∀ z, VersionRanges.mem z r → z ≤ hw) as Hm.
  { intros z Hz%max_upper; [lia|done]. }
  split; [done|]. intros z Hz Hmem.
  match goal with H : existsb _ _ = false |- _ => rewrite existsb_false_elem_of in H; specialize (H z Hz) end.
  apply VersionRanges.has_mem in Hmem; [congruence|done|].
  eapply VersionRanges.bounded_indexable; [done|exact Hm|]. unfold MAX_TRACKED in Hhw. lia.
Qed.

Lemma restoreName_ok k acc v n e :
  restoreName k acc v = Ok (n, e) → highWater e ≤ MAX_TRACKED → nameOk e.
Proof.
  unfold restoreName. destruct (entryFields v) as [fields|]; [|done].
  destruct (unknownField _ _); [done|]. destruct (assoc_get "name" fields) as [[| | |name| |]|]; try done.
  destruct (bool_decide _); [done|].
  destruct (BlobRef.integerFrom 1 _) as [hw|] eqn:Eh; [|done].
  destruct (liveVersions hw _) as [lv|] eqn:El; [|done].
  intros (r & Hr & [= <- <-])%result_bind_ok Hb. cbn in Hb.
  assert (1 ≤ hw).
  { unfold BlobRef.integerFrom in Eh. destruct (assoc_get "highWater" fields) as [[]|]; try done.
    case_bools; simplify_eq. split_bools. lia. }
  apply restoreRemoved_ok in Hr as (Hc & Hm & Ha); [|lia]. split; [|done].
  split; cbn.
  - intros z Hz%elem_of_list_to_set. by eapply liveVersions_ok.
  - done.
  - done.
  - intros z Hz%elem_of_list_to_set. by apply Ha.
  - lia.
Qed.

Lemma restoreNames_ok k l acc m :
  restoreNames k l acc = Ok m → (∀ n e, acc !! n = Some e → highWater e ≤ MAX_TRACKED → nameOk e) →
  ∀ n e, m !! n = Some e → highWater e ≤ MAX_TRACKED → nameOk e.
Proof.
  revert acc. induction l as [|v l IH]; intros acc; cbn [restoreNames]; [by intros [= <-]|].
  intros ([n e] & Hr & H)%result_bind_ok Ha. eapply IH; [exact H|].
  intros n' e'. rewrite lookup_insert_Some. intros [[<- <-]|[_ ?]]; [by eapply restoreName_ok|].
  by apply (Ha n').
Qed.

Lemma optional_fence_ok v f :
  Commit.optional v Op.requireFence = Ok f → ∀ z, f = Some z → fenceOk z.
Proof.
  unfold Commit.optional. destruct v as [v|]; [|by intros [= <-]].
  intros (g & Hg & [= <-])%result_bind_ok z [= <-]. unfold Op.requireFence, BlobRef.integerFrom in Hg.
  destruct v as [| |z| | |]; try done. destruct (isSafeInteger z && (0 <=? z)) eqn:E; [|done].
  injection Hg as ->.
  unfold isSafeInteger in E. split_bools. unfold fenceOk. lia.
Qed.

Lemma restore_wf k v prior p :
  restore k v prior = Ok p → (∀ n e, names p !! n = Some e → highWater e ≤ MAX_TRACKED) → wf p.
Proof.
  unfold restore. destruct v as [| | | | |json]; try done. destruct (unknownField _ json); [done|].
  intros (_ & _ & H)%result_bind_ok. apply result_bind_ok in H as (_ & _ & H).
  apply result_bind_ok in H as (sq & Hs & H).
  apply result_bind_ok in H as (hf & Hhf%orFail_ok & H).
  apply result_bind_ok in H as (lf & Hlf%orFail_ok & H).
  apply result_bind_ok in H as (lh & Hlh & H). apply result_bind_ok in H as ([] & Hx & H).
  destruct (assoc_get "records" json) as [[| | | |rs|]|]; try done.
  apply result_bind_ok in H as (records' & Hr & H).
  destruct (assoc_get "names" json) as [[| | | |ns|]|]; try done.
  apply result_bind_ok in H as (names' & Hn & [= <-]). cbn. intros Hb. split; cbn.
  - intros n e He. eapply restoreNames_ok; [exact Hn| |exact He|by eapply Hb]. intros ? ?. by rewrite lookup_empty.
  - eapply restoreRecords_ok; [exact Hr|]. intros ? ?. by rewrite lookup_empty.
  - unfold BlobRef.integerFrom in Hs. destruct (assoc_get "seq" json) as [[| |z| | |]|]; try done.
    destruct (isSafeInteger z && (0 <=? z)) eqn:E; [|done]. injection Hs as ->.
    unfold isSafeInteger in E. split_bools. lia.
  - by eapply optional_fence_ok.
  - by eapply optional_fence_ok.
  - intros h ->. split.
    + unfold restoreHolder in Hlh. destruct (assoc_get "leaseHolder" json) as [[| | |s| |]|]; try done.
      destruct (bool_decide (s = "")) eqn:E; [done|]. injection Hlh as ->. by split_bools.
    + destruct lf; [by eexists|]. by vm_compute in Hx.
Qed.

(** ** Reachable partitions *)

(** everything that makes or changes a partition *)
Inductive reachable : t → Prop :=
| reach_empty k : reachable (empty k)
| reach_append p c replay : reachable p → commitOk c → reachable (append p c replay).1
| reach_observed p c replay : reachable p → commitOk c → reachable (appendObserved p c replay).1
| reach_dropped p name versions :
    reachable p → Forall isVersionNo versions →
    reachable (retainDroppedVersions p name versions false).1
| reach_retained p later :
    reachable p → reachable later → reachable (retainVersionsOf p later).1
| reach_restored k v prior p :
    restore k v prior = Ok p → (∀ n e, names p !! n = Some e → highWater e ≤ MAX_TRACKED) →
    reachable p.

Lemma empty_wf k : wf (empty k).
Proof. by split; cbn; unfold MAX_SAFE_INTEGER. Qed.

Lemma reachable_wf p : reachable p → wf p.
Proof.
  induction 1; [apply empty_wf|by apply apply_wf|by apply apply_wf|by apply retainDropped_wf|
    by apply retainVersionsOf_wf|by eapply restore_wf].
Qed.

(** C13: the invariant of a partition, whatever is done to it: for each data
    name the live and the removed versions are disjoint, positive and at or
    below the high-water mark, so the next number above the mark is neither;
    the removed versions are kept in canonical form; a lease holder has a
    fence. The methods that keep dropped versions never throw. *)
Theorem partition_invariant (p : t) :
  reachable p →
  (∀ name e, names p !! name = Some e →
     (∀ v, v ∈ live e → 1 ≤ v ≤ highWater e ∧ VersionRanges.has (removed e) v = false) ∧
     (∀ v, VersionRanges.has (removed e) v = true → 1 ≤ v ≤ highWater e) ∧
     VersionRanges.canonical (removed e)) ∧
  (is_Some (leaseHolder p) → is_Some (leaseFence p)) ∧
  (∀ name versions, Forall isVersionNo versions →
     ∃ c, (retainDroppedVersions p name versions false).2 = Done c) ∧
  (∀ later, reachable later → ∃ c, (retainVersionsOf p later).2 = Done c).
Proof.
  intros H%reachable_wf. split_and!.
  - intros name e He. destruct (wf_names _ H _ _ He) as [Hm _]. split_and!; [| |apply Hm].
    + intros v Hv. split; [by apply (marks_live _ Hm)|]. apply not_true_iff_false.
      rewrite marks_has by done. by apply (marks_apart _ Hm).
    + intros v Hv. apply marks_has in Hv; [|done]. split; [|by apply (marks_removed _ Hm)].
      destruct Hv as (q & Hq & Hv). destruct (marks_canonical _ Hm) as [Hok _].
      rewrite Forall_forall in Hok. destruct (Hok q Hq). lia.
  - intros [h Hh]. by apply (wf_holder _ H h).
  - intros name versions Hv. by apply retainDropped_wf.
  - intros later Hl%reachable_wf. by apply retainVersionsOf_wf.
Qed.

(** ** Versions already used *)

Definition used (p : t) (name : string) (v : Z) : Prop :=
  ∃ e, names p !! name = Some e ∧ (v ∈ live e ∨ VersionRanges.mem v (removed e)).

(** the versions an op records *)
Definition recorded (op : Op.t) : list (string * Z) :=
  match op with
  | Op.DataVersion d => [(DataMetadata.name (Op.metadata d), DataMetadata.version (Op.metadata d))]
  | _ => []
  end.

Definition isAppend (op : Op.t) : bool :=
  match op with
  | Op.Put p => match Op.put_intent p with Intent.InData Intent.KDataAppend _ _ _ => true | _ => false end
  | _ => false
  end.

Lemma used_high_water p name v : wf p → used p name v → v ≤ highWaterOf p name.
Proof.
  intros H (e & He & Hv). unfold highWaterOf. rewrite He. cbn.
  destruct (wf_names _ H _ _ He) as [Hm _].
  destruct Hv as [Hv%(marks_live _ Hm)|Hv%(marks_removed _ Hm)]; lia.
Qed.

Lemma used_insert p name e n v :
  used (p <| names := <[name := e]> (names p) |>) n v ↔
  (n = name ∧ (v ∈ live e ∨ VersionRanges.mem v (removed e))) ∨ (n ≠ name ∧ used p n v).
Proof.
  unfold used. cbn. split.
  - intros (e' & He & Hv). apply lookup_insert_Some in He as [[<- <-]|[Hne He]]; [by left|].
    right. split; [congruence|eauto].
  - intros [[-> Hv]|[Hne (e' & He & Hv)]].
    + exists e. by rewrite lookup_insert_eq.
    + exists e'. rewrite lookup_insert_ne; [done|congruence].
Qed.

(** whether the entry lets the version through *)
Lemma refuses_used p name v :
  wf p → refuses false false (default newName (names p !! name)) v = None ↔ ¬ used p name v.
Proof.
  intros H. unfold refuses, used. pose proof (name_marks p name H) as Hm.
  destruct (names p !! name) as [e|] eqn:E.
  - change (default newName (Some e)) with e in *. cbn [negb andb].
    case_bool_decide as Hl.
    + split; [done|]. intros Hn. exfalso. apply Hn. eauto.
    + destruct (VersionRanges.has (removed e) v) eqn:Eh; split; try done.
      * intros Hn. exfalso. apply Hn. exists e. split; [done|]. right. by apply marks_has.
      * intros _ (e' & [= <-] & [?|Hr]); [done|]. apply marks_has in Hr; [congruence|done].
  - split; [|done]. intros _ (e' & ? & _). done.
Qed.

(** removing a version keeps it in use *)
Lemma used_removed p name version (app : gset string) :
  wf p →
  ∀ pa, match names p !! name return exc (t * gset string) with
      | Some entry =>
          if bool_decide (version ∈ live entry) then
            of_result (VersionRanges.add (removed entry) version) ≫= λ removed',
            Done (p <| names := <[name := MkName (live entry ∖ {[version]}) (highWater entry) removed']>
                                  (names p) |>, app)
          else Done (p, app)
      | None => Done (p, app)
      end = Done pa → pa.2 = app ∧ ∀ n v, used pa.1 n v ↔ used p n v.
Proof.
  intros H pa HH. destruct (names p !! name) as [e|] eqn:He; [|by injection HH as <-].
  case_bool_decide as Hv; [|by injection HH as <-].
  destruct (remove_marks e version) as (r & Hr & Hm & _); [apply (wf_names _ H _ _ He)|done|].
  rewrite Hr in HH. injection HH as <-. split; [done|]. intros n v.
  change (used (p <| names := <[name := MkName (live e ∖ {[version]}) (highWater e) r]> (names p) |>) n v
    ↔ used p n v).
  rewrite used_insert. cbn [live removed]. rewrite Hm. unfold used.
  destruct (decide (n = name)) as [->|Hne]; [|naive_solver].
  rewrite He. split.
  - intros [[_ Hv']|[? _]]; [|done]. exists e. split; [done|].
    destruct Hv' as [?|[->|?]]; [left; set_solver|by left|by right].
  - intros (e' & [= <-] & Hv'). left. split; [done|]. destruct Hv'; [|tauto].
    destruct (decide (v = version)) as [->|]; [tauto|]. left. set_solver.
Qed.

(** what a single op does to the versions in use *)
Lemma refOp_used p op pa :
  wf p → opOk op → isAppend op = false → refOp false false p ∅ op = Done pa →
  pa.2 = ∅ ∧ (∀ n v, (n, v) ∈ recorded op → ¬ used p n v) ∧
  ∀ n v, used pa.1 n v ↔ used p n v ∨ (n, v) ∈ recorded op.
Proof.
  intros H Hop Ha. destruct op as [op|op|op|op]; cbn [refOp recorded].
  - unfold refPut. cbv zeta. intros (_ & _ & HH)%exc_bind_done. apply exc_bind_done in HH as (_ & _ & HH).
    injection HH as <-. cbn in Ha. split_and!.
    + cbn. destruct (Op.put_intent op) as [|k| | | | | | | | |]; try done. by destruct k.
    + intros n v []%elem_of_nil.
    + intros n v. cbn. rewrite elem_of_nil. unfold used. cbn. tauto.
  - unfold refTombstone. cbv zeta. intros (_ & _ & HH)%exc_bind_done.
    apply exc_bind_done in HH as (_ & _ & HH).
    assert (pa.2 = ∅ ∧ ∀ n v, used pa.1 n v ↔ used p n v) as [E Hu].
    { assert (wf (p <| records := delete (RecordKey.value (Op.tomb_key op)) (records p) |>)) as H'
        by (by apply wf_delete_record).
      destruct (removedByIntent _) as [[name version]|]; [|by injection HH as <-].
      by apply (used_removed _ _ _ _ H') in HH. }
    split_and!; [done|intros n v []%elem_of_nil|]. intros n v. rewrite Hu, elem_of_nil. tauto.
  - unfold refDataVersion. cbv zeta.
    set (name := DataMetadata.name _). set (version := DataMetadata.version _).
    destruct (refuses _ _ _ _) eqn:Hr.
    { rewrite bool_decide_eq_false_2 by set_solver. done. }
    apply refuses_used in Hr as Hn; [|done]. intros [= <-]. split_and!; [done| |].
    + intros n v [= -> ->]%list_elem_of_singleton. done.
    + intros n v.
      set (e' := MkName ({[version]} ∪ live (default newName (names p !! name)))
        (Z.max (highWater (default newName (names p !! name))) version)
        (VersionRanges.delete (removed (default newName (names p !! name))) version)).
      change (used (p <| names := <[name := e']> (names p) |>) n v ↔
        used p n v ∨ (n, v) ∈ [(name, version)]).
      rewrite used_insert, list_elem_of_singleton. unfold e'. clear e'.
      pose proof (name_marks p name H) as Hm.
      destruct (VersionRanges.delete_spec (removed (default newName (names p !! name))) version) as [_ Hd];
        [apply Hm|by apply marks_indexable|]. cbn. rewrite Hd.
      destruct (decide (n = name)) as [->|Hne].
      * unfold used in *. destruct (names p !! name) as [e|]; cbn in *.
        -- split.
           ++ intros [[_ [[->%elem_of_singleton|?]%elem_of_union|[? _]]]|[? _]]; eauto; done.
           ++ intros [(e' & [= <-] & Hv)|[= ->]]; left; (split; [done|]); [|set_solver].
              destruct (decide (v = version)); [subst; left; set_solver|]. set_solver.
        -- split.
           ++ intros [[_ [[->%elem_of_singleton|?]%elem_of_union|[?%VersionRanges.mem_nil _]]]|[? _]];
                [by right|set_solver|done|done].
           ++ intros [(? & ? & _)|[= ->]]; [done|]. left. set_solver.
      * split; [intros [[? _]|[_ ?]]; [done|by left]|]. intros [?|[= ? ?]]; [by right|done].
  - unfold refLease. intros (_ & _ & HH)%exc_bind_done. injection HH as <-.
    split_and!; [done|intros n v []%elem_of_nil|]. intros n v. cbn. rewrite elem_of_nil.
    unfold used. cbn. tauto.
Qed.

Lemma refOps_used p ops pa :
  wf p → (∀ op, op ∈ ops → opOk op ∧ isAppend op = false) →
  refOps false false p ∅ ops = Done pa →
  NoDup (ops ≫= recorded) ∧ (∀ n v, (n, v) ∈ ops ≫= recorded → ¬ used p n v) ∧
  ∀ n v, used pa.1 n v ↔ used p n v ∨ (n, v) ∈ ops ≫= recorded.
Proof.
  revert p. induction ops as [|op ops IH]; intros p H Hop; cbn [refOps].
  - intros [= <-]. cbn. split_and!; [by apply NoDup_nil_2|set_solver|set_solver].
  - intros (pa' & H1 & H2)%exc_bind_done. destruct (Hop op (list_elem_of_here _ _)) as [Ho Ha].
    destruct (refOp_used _ _ _ H Ho Ha H1) as (E & Hf & Hu). rewrite E in H2.
    destruct (IH pa'.1) as (Hnd & Hf' & Hu'); [by eapply refOp_wf| |done|].
    { intros op' ?. by apply Hop, list_elem_of_further. }
    change ((op :: ops) ≫= recorded) with (recorded op ++ (ops ≫= recorded)). split_and!.
    + apply NoDup_app. split_and!; [destruct op; cbn; auto using NoDup_nil_2, NoDup_singleton| |done].
      intros [n v] Hin Hin'. apply (Hf' n v Hin'), Hu. by right.
    + intros n v [Hin|Hin]%elem_of_app; [by apply Hf|]. intros Hused. apply (Hf' n v Hin), Hu. by left.
    + intros n v. rewrite Hu', Hu, elem_of_app. tauto.
Qed.

(** a log of commits each of which was appended *)
Inductive log : t → list Commit.t → t → Prop :=
| log_nil p : log p [] p
| log_cons p c p' cs p'' :
    append p c false = (p', Done (Appended (Commit.seq c))) → log p' cs p'' → log p (c :: cs) p''.

Definition plainCommit (c : Commit.t) : Prop :=
  commitOk c ∧ ∀ op, op ∈ Commit.ops c → isAppend op = false.

Lemma append_used p c p' :
  wf p → plainCommit c → append p c false = (p', Done (Appended (Commit.seq c))) →
  wf p' ∧ NoDup (Commit.ops c ≫= recorded) ∧
  (∀ n v, (n, v) ∈ Commit.ops c ≫= recorded → ¬ used p n v) ∧
  ∀ n v, used p' n v ↔ used p n v ∨ (n, v) ∈ Commit.ops c ≫= recorded.
Proof.
  intros H [Hc Ha] E. split.
  { assert (p' = (append p c false).1) as -> by (by rewrite E). by apply apply_wf. }
  unfold append in E. destruct (apply_cases p c false false)
    as [(pa & E' & _ & _ & _ & _ & Ho)|(r & E' & Hr)]; rewrite E in E'.
  - injection E' as ->. destruct (refOps_used p (Commit.ops c) pa) as (? & ? & Hu); [done| |done|].
    { intros op Hop. split; [by apply Hc|by apply Ha]. }
    split_and!; [done..|]. intros n v. rewrite <-Hu. unfold used. done.
  - injection E' as -> <-. by destruct (Hr (Commit.seq c)).
Qed.

Lemma log_used p cs p' :
  log p cs p' → wf p → Forall plainCommit cs →
  NoDup (cs ≫= λ c, Commit.ops c ≫= recorded) ∧
  (∀ n v, (n, v) ∈ cs ≫= (λ c, Commit.ops c ≫= recorded) → ¬ used p n v) ∧
  ∀ n v, used p' n v ↔ used p n v ∨ (n, v) ∈ cs ≫= (λ c, Commit.ops c ≫= recorded).
Proof.
  induction 1 as [p|p c p1 cs p2 E Hl IH]; intros Hwf Hall.
  - cbn. split_and!; [by apply NoDup_nil_2|set_solver|set_solver].
  - apply Forall_cons in Hall as [Hc Hall].
    destruct (append_used _ _ _ Hwf Hc E) as (Hwf1 & Hnd1 & Hf1 & Hu1).
    destruct (IH Hwf1 Hall) as (Hnd & Hf & Hu).
    change ((c :: cs) ≫= λ c, Commit.ops c ≫= recorded) with
      ((Commit.ops c ≫= recorded) ++ (cs ≫= λ c, Commit.ops c ≫= recorded)). split_and!.
    + apply NoDup_app. split_and!; [done| |done]. intros [n v] Hin Hin'.
      apply (Hf n v Hin'), Hu1. by right.
    + intros n v [Hin|Hin]%elem_of_app; [by apply Hf1|]. intros Hused. apply (Hf n v Hin), Hu1. by left.
    + intros n v. rewrite Hu, Hu1, elem_of_app. tauto.
Qed.


(** ** Sequence numbers, fences and transactions *)

Definition fenceLe (a b : option Z) : Prop :=
  match a with None => True | Some x => ∃ y, b = Some y ∧ x ≤ y end.

Lemma fenceLe_refl a : fenceLe a a.
Proof. destruct a; cbn; eauto with lia. Qed.

Lemma fenceLe_trans a b c : fenceLe a b → fenceLe b c → fenceLe a c.
Proof.
  destruct a as [x|]; [|done]. cbn. intros (y & -> & ?) (z & -> & ?). eauto with lia.
Qed.

Lemma refOp_lease replay observed p app op pa :
  refOp replay observed p app op = Done pa → fenceLe (leaseFence p) (leaseFence pa.1).
Proof.
  destruct op as [op|op|op|op]; cbn [refOp].
  - unfold refPut. cbv zeta. intros (_ & _ & H)%exc_bind_done. apply exc_bind_done in H as (_ & _ & H).
    injection H as <-. apply fenceLe_refl.
  - unfold refTombstone. cbv zeta. intros (_ & _ & H)%exc_bind_done.
    apply exc_bind_done in H as (_ & _ & H).
    destruct (removedByIntent _) as [[name version]|]; [|injection H as <-; apply fenceLe_refl].
    destruct (names _ !! name) as [e|]; [|injection H as <-; apply fenceLe_refl].
    destruct (bool_decide _); [|injection H as <-; apply fenceLe_refl].
    apply exc_bind_done in H as (r & _ & H). injection H as <-. apply fenceLe_refl.
  - unfold refDataVersion. cbv zeta. destruct (refuses _ _ _ _); [|intros [= <-]; apply fenceLe_refl].
    destruct (bool_decide _); [|done]. intros [= <-]. apply fenceLe_refl.
  - unfold refLease. intros ([] & Hf & H)%exc_bind_done. injection H as <-. cbn.
    destruct (leaseFence p) as [f|]; [|done]. apply raise_if_done in Hf. split_bools. cbn. eauto.
Qed.

Lemma refOps_lease replay observed p app ops pa :
  refOps replay observed p app ops = Done pa → fenceLe (leaseFence p) (leaseFence pa.1).
Proof.
  revert p app. induction ops as [|op ops IH]; intros p app; cbn [refOps].
  - intros [= <-]. apply fenceLe_refl.
  - intros (pa' & H1%refOp_lease & H2%IH)%exc_bind_done. by eapply fenceLe_trans.
Qed.

Lemma checkFence_le p c : checkFence p c = Done (Commit.fence c) → fenceLe (highestFence p) (Commit.fence c).
Proof.
  unfold checkFence, raiseFence. destruct (Commit.fence c) as [f|], (highestFence p) as [h|]; try done.
  case_bools; [done|]. split_bools. intros _. cbn. eauto.
Qed.

Lemma checkSeq_done p c observed :
  checkSeq p c observed = Done tt ↔
  if observed then seq p < Commit.seq c else Commit.seq c = seq p + 1.
Proof.
  unfold checkSeq. destruct observed; rewrite raise_if_done.
  - by rewrite Z.leb_gt.
  - by rewrite negb_false_iff, Z.eqb_eq.
Qed.

(** An appended commit moves the partition forward and lands once: the
    sequence number grows (by one, for a writer), neither the fence nor the
    lease fence ever goes down, and sending the same commit again is a no-op
    that reports a duplicate, whatever the mode. *)
Lemma appended_commits_move_forward (p p' : t) (c : Commit.t) (replay observed : bool) (n : Z) :
  apply p c replay observed = (p', Done (Appended n)) →
  n = Commit.seq c ∧ seq p' = n ∧ seq p < seq p' ∧ (observed = false → seq p' = seq p + 1) ∧
  fenceLe (highestFence p) (highestFence p') ∧ fenceLe (leaseFence p) (leaseFence p') ∧
  hasTxn p (Commit.txnId c) = false ∧
  ∀ replay' observed', apply p' c replay' observed' = (p', Done Duplicate).
Proof.
  intros E. destruct (apply_cases p c replay observed)
    as [(pa & E' & Hk & Ht & Hs & Hf & Ho)|(r & E' & Hr)]; rewrite E in E'.
  2: { injection E' as _ <-. by destruct (Hr n). }
  injection E' as -> ->. apply checkSeq_done in Hs.
  destruct (refOps_frame _ _ _ _ _ _ Ho) as (Hkey & _ & _ & _ & _). split_and!; cbn; try done.
  - destruct observed; lia.
  - by intros ->.
  - by apply checkFence_le.
  - by eapply refOps_lease.
  - intros replay' observed'. unfold apply. cbn [key set_field]. rewrite Hkey.
    unfold PartitionKey.equals. rewrite Hk, bool_decide_eq_true_2 by done. cbn [negb].
    unfold hasTxn. cbn [txnIds set_field]. rewrite bool_decide_eq_true_2 by set_solver. done.
Qed.

(** ** Which commits are accepted *)

(** no expectation on a record, no lease *)
Definition unconditional (op : Op.t) : bool :=
  match op with
  | Op.Put p => bool_decide (Op.put_expect p = None)
  | Op.Tombstone p => bool_decide (Op.tomb_expect p = None)
  | Op.DataVersion _ => true
  | Op.Lease _ => false
  end.

Lemma refOp_accepts p op :
  wf p → opOk op → unconditional op = true →
  (∀ n v, (n, v) ∈ recorded op → ¬ used p n v) → ∃ pa, refOp false false p ∅ op = Done pa.
Proof.
  intros H Hop Hu Hr. destruct op as [op|op|op|op]; cbn [refOp]; cbn in Hu; split_bools.
  - unfold refPut. rewrite Hu. cbn [mbind exc_bind]. rewrite bool_decide_eq_false_2 by done. cbn. eauto.
  - unfold refTombstone. cbv zeta. rewrite Hu. rewrite (bool_decide_eq_false_2 (None = _)) by done.
    cbn [negb andb raise_if mbind exc_bind].
    destruct (removedByIntent _) as [[name version]|]; [|eauto].
    cbn [names set_field]. destruct (names p !! name) as [e|] eqn:E; [|eauto].
    case_bool_decide; [|eauto].
    destruct (remove_marks e version) as (r & -> & _); [apply (wf_names _ H _ _ E)|done|]. cbn. eauto.
  - unfold refDataVersion. cbv zeta.
    rewrite (proj2 (refuses_used p _ _ H)) by (apply Hr, list_elem_of_here). eauto.
  - done.
Qed.

Lemma refOps_accepts p ops :
  wf p → (∀ op, op ∈ ops → opOk op ∧ isAppend op = false ∧ unconditional op = true) →
  NoDup (ops ≫= recorded) → (∀ n v, (n, v) ∈ ops ≫= recorded → ¬ used p n v) →
  ∃ pa, refOps false false p ∅ ops = Done pa.
Proof.
  revert p. induction ops as [|op ops IH]; intros p H Hop Hnd Hr; cbn [refOps]; [eauto|].
  change ((op :: ops) ≫= recorded) with (recorded op ++ (ops ≫= recorded)) in *.
  apply NoDup_app in Hnd as (_ & Hd & Hnd). destruct (Hop op (list_elem_of_here _ _)) as (Ho & Ha & Hu).
  destruct (refOp_accepts p op) as [pa E]; [done..| |].
  { intros n v Hin. apply Hr, elem_of_app. by left. }
  rewrite E. cbn [mbind exc_bind].
  destruct (refOp_used _ _ _ H Ho Ha E) as (E2 & _ & Hused). rewrite E2.
  apply IH; [by eapply refOp_wf| |done|].
  - intros op' Hin. by apply Hop, list_elem_of_further.
  - intros n v Hin [Hin'|Hin']%Hused; [|by eapply (Hd (n, v))].
    eapply Hr; [|done]. apply elem_of_app. by right.
Qed.

Lemma checkFence_done p c :
  fenceLe (highestFence p) (Commit.fence c) → checkFence p c = Done (Commit.fence c).
Proof.
  unfold checkFence, raiseFence. destruct (highestFence p) as [h|]; cbn.
  - intros (f & -> & Hle). by rewrite (proj2 (Z.ltb_ge _ _)) by done.
  - by destruct (Commit.fence c).
Qed.


(** ** Which errors *)

Definition rejectedFor (e : Thrown) (reasons : list CommitRejection) : Prop :=
  ∃ reason msg k, e = Rejected reason msg k ∧ reason ∈ reasons.

Lemma exc_bind_raise {A B} (m : exc A) (f : A → exc B) e :
  (m ≫= f) = Raise e ↔ m = Raise e ∨ ∃ a, m = Done a ∧ f a = Raise e.
Proof. destruct m; cbv [mbind exc_bind]; naive_solver. Qed.

Lemma raise_if_raise c e0 e : raise_if c e0 = Raise e ↔ c = true ∧ e0 = e.
Proof. unfold raise_if. destruct c; naive_solver. Qed.

(** the errors an op can end in *)
Definition opErrors (replay observed : bool) : list CommitRejection :=
  if observed then [StaleLease]
  else [ExpectFailed; StaleLease; VersionLive] ++ if replay then [] else [VersionReused].

Lemma expectFailed_error replay observed p k expected (b : bool) e :
  raise_if (negb observed && b) (expectFailed p k expected) = Raise e →
  rejectedFor e (opErrors replay observed).
Proof.
  intros [Hb <-]%raise_if_raise. split_bools. subst observed. eexists _, _, _. split; [done|].
  unfold opErrors. set_solver.
Qed.

(** removing a version never fails *)
Lemma removed_intent_done p name version (app : gset string) e :
  wf p →
  match names p !! name return exc (t * gset string) with
  | Some entry =>
      if bool_decide (version ∈ live entry) then
        of_result (VersionRanges.add (removed entry) version) ≫= λ removed',
        Done (p <| names := <[name := MkName (live entry ∖ {[version]}) (highWater entry) removed']>
                              (names p) |>, app)
      else Done (p, app)
  | None => Done (p, app)
  end ≠ Raise e.
Proof.
  intros H. destruct (names p !! name) as [en|] eqn:E; [|done]. case_bool_decide; [|done].
  by destruct (remove_marks en version) as (r & -> & _); [apply (wf_names _ H _ _ E)|done|].
Qed.

Lemma refOp_errors replay observed p app op e :
  wf p → refOp replay observed p app op = Raise e → rejectedFor e (opErrors replay observed).
Proof.
  intros H. destruct op as [op|op|op|op]; cbn [refOp].
  - unfold refPut. cbv zeta. rewrite <-andb_assoc.
    intros [HH|([] & _ & HH)]%exc_bind_raise; [by eapply expectFailed_error|].
    apply exc_bind_raise in HH as [HH|([] & _ & HH)]; [|done].
    destruct (Op.put_expect op) as [[|sha]|]; [done| |done]. by eapply expectFailed_error.
  - unfold refTombstone. cbv zeta. rewrite <-andb_assoc.
    intros [HH|([] & _ & HH)]%exc_bind_raise; [by eapply expectFailed_error|].
    apply exc_bind_raise in HH as [HH|([] & _ & HH)].
    + destruct (Op.tomb_expect op) as [[|sha]|]; [done| |done]. by eapply expectFailed_error.
    + exfalso. apply (wf_delete_record _ (RecordKey.value (Op.tomb_key op))) in H.
      destruct (removedByIntent _) as [[name version]|]; [|done].
      by eapply removed_intent_done in HH.
  - unfold refDataVersion. cbv zeta. destruct (refuses _ _ _ _) as [reason|] eqn:Hr; [|done].
    case_bool_decide; [done|]. intros [= <-]. eexists reason, _, _. split; [done|].
    unfold refuses in Hr. unfold opErrors. destruct observed; [done|].
    destruct (bool_decide _); [injection Hr as <-; set_solver|]. destruct replay; [done|].
    destruct (_ && _); [|done]. injection Hr as <-. set_solver.
  - unfold refLease. intros [HH|([] & _ & HH)]%exc_bind_raise; [|done].
    destruct (leaseFence p); [|done]. apply raise_if_raise in HH as [_ <-].
    eexists _, _, _. split; [done|]. unfold opErrors. destruct observed; set_solver.
Qed.

Lemma refOps_errors replay observed p app ops e :
  wf p → (∀ op, op ∈ ops → opOk op) → refOps replay observed p app ops = Raise e →
  rejectedFor e (opErrors replay observed).
Proof.
  revert p app. induction ops as [|op ops IH]; intros p app H Hop; cbn [refOps]; [done|].
  intros [HH|(pa & H1 & H2)]%exc_bind_raise; [by eapply refOp_errors|].
  eapply IH; [| |exact H2].
  - eapply refOp_wf; [exact H|apply Hop, list_elem_of_here|exact H1].
  - intros op' ?. by apply Hop, list_elem_of_further.
Qed.

(** Every way a commit can fail: on a reachable partition the only error
    is a rejection of the commit, for one of the reasons the mode allows. A
    follower copying a log never judges expectations or versions, and the
    rejections for a lost lease or an expired retry are never raised here. *)
Lemma only_rejections (p p' : t) (c : Commit.t) (replay observed : bool) (e : Thrown) :
  reachable p → commitOk c → apply p c replay observed = (p', Raise e) →
  p' = p ∧ rejectedFor e ([PartitionMismatch; SeqGap; StaleFence; Unfenced] ++ opErrors replay observed).
Proof.
  intros H%reachable_wf (Hop & _) E. rewrite apply_reference in E. unfold applyReference in E.
  assert (∀ r l, rejectedFor e r → r ⊆ l → rejectedFor e l) as Hmono.
  { intros r l (rs & m & k & He & Hin) Hsub. exists rs, m, k. set_solver. }
  destruct (negb _).
  { injection E as <- <-. split; [done|]. eexists _, _, _. split; [done|]. set_solver. }
  destruct (hasTxn _ _); [done|].
  destruct (checkSeq p c observed) as [[]|e'] eqn:Hs; cbn [mbind exc_bind] in E.
  2: { injection E as <- <-. split; [done|]. unfold checkSeq in Hs.
       destruct observed; apply raise_if_raise in Hs as [_ <-]; eexists _, _, _; (split; [done|]); set_solver. }
  destruct (checkFence p c) as [f|e'] eqn:Hf; cbn [mbind exc_bind] in E.
  2: { injection E as <- <-. split; [done|]. unfold checkFence, raiseFence in Hf.
       destruct (Commit.fence c), (highestFence p); try done; [case_bools; try done|];
         injection Hf as <-; eexists _, _, _; (split; [done|]); set_solver. }
  destruct (refOps _ _ _ _ _) as [pa|e'] eqn:Ho; cbn [mbind exc_bind] in E; [done|].
  injection E as <- <-. split; [done|]. eapply Hmono; [by eapply refOps_errors|set_solver].
Qed.

(** A snapshot loses nothing but the transactions it leaves out on
    purpose: restoring the snapshot of a well-formed partition gives the same
    partition, with the lookup of earlier transactions in place of the set. *)
Lemma snapshot_roundtrip (p : t) (prior : string → bool) :
  wf p →
  restore (key p) (snapshot p) prior = Ok (p <| txnIds := ∅ |> <| priorTxn := prior |>) ∧
  ∀ p', restore (key p) (snapshot p) prior = Ok p' → snapshot p' = snapshot p.
Proof.
  intros H. pose proof (restore_snapshot p prior H) as E. split; [exact E|].
  intros p' Hp'. rewrite E in Hp'. by injection Hp' as <-.
Qed.

(** ** A small log *)

Definition sampleKey : PartitionKey.t :=
  PartitionKey.Mk ("model--aws%2Fec2--" +:+ PartitionKey.sampleUuid)
    (PartitionKey.PkModel "aws/ec2" PartitionKey.sampleUuid).

Definition sampleModel : Intent.ModelRef := Intent.MkModelRef "aws/ec2" PartitionKey.sampleUuid.

Definition sampleSha : string := "0123456789abcdef0123456789abcdef0123456789abcdef0123456789abcdef".

Definition sampleMetadata (version : Z) : DataMetadata.t :=
  DataMetadata.Mk "state" PartitionKey.sampleUuid version "application/json" "infinite"
    (DataMetadata.GcVersions 5) false [("type", "state")]
    (DataMetadata.MkOwnerDefinition None "manual" "cli" None None None None None None)
    "2026-01-01T00:00:00Z" None None None None.

Definition samplePut (version : Z) : Op.t :=
  Op.Put (Op.MkPut (Intent.InData Intent.KDataSave sampleModel "state" version)
    (RecordKey.Mk ("state/" +:+ pretty version)) (Op.Inline "e30=") sampleSha None None).

Definition sampleVersion (version : Z) : Op.t :=
  Op.DataVersion (Op.MkDataVersion (RecordKey.Mk ("state/" +:+ pretty version)) (sampleMetadata version)).

Definition sampleDelete (version : Z) : Op.t :=
  Op.Tombstone (Op.MkTombstone (Intent.InDataOpt Intent.KDataDelete sampleModel "state" (Some version))
    (RecordKey.Mk ("state/" +:+ pretty version)) None).

Definition sampleCommit (seq : Z) (ops : list Op.t) : Commit.t :=
  Commit.Mk seq sampleKey "" ("txn-" +:+ pretty seq) (Commit.MkWriter "h" 1 "i") None None None
    (Some 1) "2026-01-01T00:00:00Z" ops.

(** versions 1 and 2 are written, then 1 is deleted *)
Definition commit1 : Commit.t :=
  sampleCommit 1 [samplePut 1; sampleVersion 1; samplePut 2; sampleVersion 2].
Definition commit2 : Commit.t := sampleCommit 2 [sampleDelete 1; samplePut 3; sampleVersion 3].

Definition state1 : t := (append (empty sampleKey) commit1 false).1.
Definition state2 : t := (append state1 commit2 false).1.

Lemma commitOk_sample seq ops :
  1 ≤ seq ≤ 100 → Forall opOk ops → commitOk (sampleCommit seq ops).
Proof.
  intros Hs Hops. split_and!; cbn; [|lia|unfold MAX_SAFE_INTEGER; lia|].
  - by rewrite Forall_forall in Hops.
  - intros f [= <-]. unfold fenceOk, MAX_SAFE_INTEGER. lia.
Qed.

Lemma commit1_ok : plainCommit commit1.
Proof.
  split.
  - apply commitOk_sample; [lia|].
    repeat constructor; cbn; unfold isVersionNo, MAX_TRACKED, recordOk; try lia; vm_compute; reflexivity.
  - intros op Hop. unfold commit1 in Hop. cbn in Hop.
    repeat (apply elem_of_cons in Hop as [->|Hop]; [reflexivity|]). by apply elem_of_nil in Hop.
Qed.

Lemma commit2_ok : plainCommit commit2.
Proof.
  split.
  - apply commitOk_sample; [lia|].
    repeat constructor; cbn; unfold isVersionNo, MAX_TRACKED, recordOk; try lia; vm_compute; reflexivity.
  - intros op Hop. unfold commit2 in Hop. cbn in Hop.
    repeat (apply elem_of_cons in Hop as [->|Hop]; [reflexivity|]). by apply elem_of_nil in Hop.
Qed.

Lemma state2_reachable : reachable state2.
Proof.
  apply (reach_append state1 commit2 false); [|apply commit2_ok].
  apply (reach_append (empty sampleKey) commit1 false); [apply reach_empty|apply commit1_ok].
Qed.

(** version 1 was removed and version 3 is the latest *)
Example sample_log :
  (versions state2 "state", latest state2 "state", highWaterOf state2 "state",
   removedVersion state2 "state" 1, recordKeys state2) =
  ([2; 3], Some 3, 3, true, ["state/2"; "state/3"]).
Proof. vm_compute. reflexivity. Qed.

Lemma partition_invariant_witness :
  reachable state2 ∧ ∀ e, names state2 !! "state" = Some e →
    VersionRanges.canonical (removed e).
Proof.
  split; [exact state2_reachable|]. intros e He.
  destruct (partition_invariant state2 state2_reachable) as [H _].
  exact (proj2 (proj2 (H "state" e He))).
Defined.


Lemma appended_commits_move_forward_witness :
  apply state1 commit2 false false = (state2, Done (Appended 2)) ∧ seq state1 < seq state2 ∧
  apply state2 commit2 true true = (state2, Done Duplicate).
Proof.
  assert (apply state1 commit2 false false = (state2, Done (Appended 2))) as E
    by (vm_compute; reflexivity).
  destruct (appended_commits_move_forward state1 state2 commit2 false false 2 E)
    as (_ & _ & Hs & _ & _ & _ & _ & Hd).
  split; [exact E|]. split; [exact Hs|]. exact (Hd true true).
Defined.


Lemma only_rejections_witness :
  ∃ e, apply state2 commit1 false false = (state2, Done Duplicate) ∧
    apply state2 (sampleCommit 3 [sampleVersion 1]) false false = (state2, Raise e) ∧
    rejectedFor e ([PartitionMismatch; SeqGap; StaleFence; Unfenced] ++ opErrors false false).
Proof.
  eexists. split; [vm_compute; reflexivity|].
  assert (apply state2 (sampleCommit 3 [sampleVersion 1]) false false =
    (state2, Raise (Rejected VersionReused
      "Data state version 1 was removed; it is never recorded again" None))) as E
    by (vm_compute; reflexivity).
  split; [exact E|].
  refine (proj2 (only_rejections state2 state2 _ false false _ state2_reachable _ E)).
  apply commitOk_sample; [lia|]. repeat constructor; vm_compute; congruence.
Defined.

Lemma snapshot_roundtrip_witness :
  wf state2 ∧ restore sampleKey (snapshot state2) (λ _, true) =
    Ok (state2 <| txnIds := ∅ |> <| priorTxn := λ _, true |>).
Proof.
  split; [exact (reachable_wf _ state2_reachable)|].
  exact (proj1 (snapshot_roundtrip state2 (λ _, true) (reachable_wf _ state2_reachable))).
Defined.

End PartitionProps.
