(* ===== verification/ProcessLiveness.v ===== *)
(** * Whether a recorded process still runs

    [src/src/domain/datastore_v3/process_liveness.ts]: a lease record names the
    process that holds it; another process judges whether it is gone from what
    its own kernel tells. What the kernel tells of a pid is the parameter
    [probe] of the local process. *)

From Stdlib Require Import Ascii.
From S2P Require Import Prelude JsString.

Module ProcessLiveness.

Definition MAX_IDENTITY_FIELD_LENGTH : nat := 1024.

Record ProcessIdentity := MkIdentity {
  host : string;
  bootId : option string;
  startTime : option string;
}.

#[global] Instance ProcessIdentity_eq_dec : EqDecision ProcessIdentity.
Proof. solve_decision. Defined.

Record ProcessProbe := MkProbe {
  present : bool;
  zombie : bool;
  p_startTime : option string;
}.

Inductive ProcessVerdict := Gone | Alive | Unknown.

#[global] Instance ProcessVerdict_eq_dec : EqDecision ProcessVerdict.
Proof. solve_decision. Defined.

Record RecordedProcess := MkRecorded {
  r_pid : Z;
  process : option ProcessIdentity;
  notThisProcess : bool;
}.

Record LocalProcess := MkLocal {
  l_pid : Z;
  identity : ProcessIdentity;
  probe : Z → ProcessProbe;
  bootIdRequired : bool;
  pidNamespaces : option bool;
}.

(** the identity is missing, or from another host, namespace or boot *)
Definition unjudgeable (recorded : option ProcessIdentity) (local : LocalProcess) : bool :=
  match recorded with
  | None => true
  | Some r =>
      if negb (bool_decide (host r = host (identity local))) then true
      else if negb (bool_decide (bootId r = bootId (identity local))) then true
      else bootIdRequired local && bool_decide (bootId r = None)
  end.

(** two start times that prove two processes *)
Definition startTimesDiffer (recorded probed : option string) : bool :=
  match recorded, probed with
  | Some r, Some p => negb (bool_decide (r = p))
  | _, _ => false
  end.

Definition judgeRecordedProcess (recorded : RecordedProcess) (local : LocalProcess)
    : ProcessVerdict :=
  if unjudgeable (process recorded) local then Unknown
  else
    let started := process recorded ≫= startTime in
    if bool_decide (r_pid recorded = l_pid local) then
      if notThisProcess recorded || startTimesDiffer started (startTime (identity local))
      then Gone else Alive
    else
      let pr := probe local (r_pid recorded) in
      if negb (present pr) || zombie pr then Gone
      else if startTimesDiffer started (p_startTime pr) then Gone else Alive.

(** [host.slice(host.lastIndexOf("#") + 1)], or [undefined] when there is none *)
Fixpoint pidNamespaceOf (h : string) : option string :=
  match h with
  | EmptyString => None
  | String c rest =>
      match pidNamespaceOf rest with
      | Some ns => Some ns
      | None => if Ascii.eqb c "#" then Some rest else None
      end
  end.

Definition sameKernel (recorded : ProcessIdentity) (local : LocalProcess) : bool :=
  let here := identity local in
  match bootId recorded, bootId here with
  | Some b, Some b' =>
      if negb (bool_decide (b = b')) then false
      else
        let namespace := pidNamespaceOf (host recorded) in
        let ours := pidNamespaceOf (host here) in
        if negb (bool_decide (namespace = None)) || negb (bool_decide (ours = None))
        then bool_decide (namespace = ours)
        else bool_decide (pidNamespaces local = Some false) || bool_decide (host recorded = host here)
  | _, _ =>
      if negb (bool_decide (host recorded = host here)) then false
      else if negb (bool_decide (bootId recorded = bootId here)) then false
      else negb (bootIdRequired local)
  end.

(** ** Reading an identity *)

Definition isField (value : option JsValue) : option string :=
  match value with
  | Some (VStr s) =>
      if negb (bool_decide (s = "")) &&
         bool_decide (String.length s ≤ MAX_IDENTITY_FIELD_LENGTH)
      then Some s else None
  | _ => None
  end.

Definition optionalField (value : option JsValue) : option (option string) :=
  match value with
  | None => Some None
  | Some v => s ← isField (Some v); Some (Some s)
  end.

Definition parseProcessIdentity (value : option JsValue) : option ProcessIdentity :=
  match value with
  | Some (VObj l) =>
      host ← isField (assoc_get "host" l);
      bootId ← optionalField (assoc_get "bootId" l);
      startTime ← optionalField (assoc_get "startTime" l);
      Some (MkIdentity host bootId startTime)
  | _ => None
  end.

Definition identityToJSON (i : ProcessIdentity) : JsValue :=
  VObj ([("host", VStr (host i))] ++ optField "bootId" VStr (bootId i) ++
        optField "startTime" VStr (startTime i)).

(** A process is called gone only on proof: the record is from this very
    host and boot, and its pid is free, a zombie, or belongs to a process that
    started at another time; a record under this process's own pid is gone when
    a token says it is another's or the start times differ. A process on another
    host or boot is never called gone. *)
Lemma gone_is_proved (recorded : RecordedProcess) (local : LocalProcess) :
  judgeRecordedProcess recorded local = Gone ↔
  ∃ i, process recorded = Some i ∧ host i = host (identity local) ∧
    bootId i = bootId (identity local) ∧
    (bootIdRequired local = true → bootId i ≠ None) ∧
    if decide (r_pid recorded = l_pid local) then
      notThisProcess recorded = true ∨
      ∃ a b, startTime i = Some a ∧ startTime (identity local) = Some b ∧ a ≠ b
    else
      present (probe local (r_pid recorded)) = false ∨ zombie (probe local (r_pid recorded)) = true ∨
      ∃ a b, startTime i = Some a ∧ p_startTime (probe local (r_pid recorded)) = Some b ∧ a ≠ b.
Proof.
  assert (∀ a b, startTimesDiffer a b = true ↔ ∃ x y, a = Some x ∧ b = Some y ∧ x ≠ y) as Hd.
  { intros [a|] [b|]; cbn; try (split; [done|by intros (? & ? & ? & ? & ?)]).
    rewrite negb_true_iff, bool_decide_eq_false. naive_solver. }
  unfold judgeRecordedProcess. destruct (process recorded) as [i|]; cbn [unjudgeable mbind option_bind].
  2: { split; [done|]. by intros (? & ? & _). }
  assert (unjudgeable (Some i) local = false ↔ host i = host (identity local) ∧
    bootId i = bootId (identity local) ∧ (bootIdRequired local = true → bootId i ≠ None)) as Hu.
  { cbn. repeat case_bool_decide; cbn; destruct (bootIdRequired local); cbn; naive_solver. }
  unfold unjudgeable in Hu. destruct (if negb _ then true else _) eqn:E.
  { split; [done|]. intros (j & [= <-] & H1 & H2 & H3 & _). discriminate (proj2 Hu (conj H1 (conj H2 H3))). }
  destruct (proj1 Hu eq_refl) as (H1 & H2 & H3).
  destruct (decide (r_pid recorded = l_pid local)) as [Hp|Hp];
    [rewrite bool_decide_eq_true_2 by done|rewrite bool_decide_eq_false_2 by done].
  - destruct (_ || _) eqn:Eg.
    + split; [intros _|done]. exists i. split_and!; [done..|].
      apply orb_true_iff in Eg as [?|?]; [by left|right]. by apply Hd.
    + split; [done|]. apply orb_false_iff in Eg as [E1 E2].
      intros (j & [= <-] & _ & _ & _ & [?|?%Hd]); congruence.
  - destruct (negb _ || _) eqn:Eg.
    + split; [intros _|done]. exists i. split_and!; [done..|].
      apply orb_true_iff in Eg as [?%negb_true_iff|?]; [by left|by right; left].
    + apply orb_false_iff in Eg as [E1%negb_false_iff E2].
      destruct (startTimesDiffer _ _) eqn:Es.
      * split; [intros _|done]. exists i. split_and!; [done..|]. right; right. by apply Hd.
      * split; [done|]. intros (j & [= <-] & _ & _ & _ & [?|[?|?%Hd]]); congruence.
Qed.

(** a written identity is read back *)
Lemma parseProcessIdentity_toJSON i :
  isField (Some (VStr (host i))) = Some (host i) →
  optionalField (VStr <$> bootId i) = Some (bootId i) →
  optionalField (VStr <$> startTime i) = Some (startTime i) →
  parseProcessIdentity (Some (identityToJSON i)) = Some i.
Proof.
  intros Hh Hb Hs. unfold parseProcessIdentity, identityToJSON.
  rewrite !assoc_get_app, !assoc_get_optField. cbn [assoc_get]. eval_keys. rewrite Hh.
  destruct i as [h [b|] [s|]]; cbn [bootId startTime host fmap option_fmap option_map mbind option_bind] in *;
    rewrite ?Hb; cbn [mbind option_bind]; rewrite ?Hs; reflexivity.
Qed.

End ProcessLiveness.
