(* ===== verification/WriterLease.v ===== *)
(** * The writer lease

    [src/src/domain/datastore_v3/writer_lease.ts]: a datastore takes one
    writer at a time. A writer takes the lease by creating the record of the
    next fence in a shared object store, keeps it with a heartbeat, and finds
    out that it was fenced by looking for a higher one. Several processes do
    this at once, so each operation is a program whose steps are the calls to
    the store, the clock and the nonce source; the store interleaves the steps
    of all programs. A call to the store may fail.

    An object's bytes are kept as the value they decode to, and an instant
    that [toISOString] writes and [Date.parse] reads as its milliseconds. *)

From Stdlib Require Import Ascii.
From S2P Require Import Prelude JsString DataMetadata ProcessLiveness.
Local Open Scope Z_scope.

Module WriterLease.
Import ProcessLiveness.

Definition WRITER_LEASE_PREFIX : string := "writer/".
Definition WRITER_LEASE_CLOCK_SKEW_MS : Z := 10000.

(** ** Keys *)

Definition FENCE_DIGITS : nat := 12.
Definition MAX_FENCE : Z := 10 ^ 12 - 1.

Fixpoint zeros (n : nat) : string := match n with O => "" | S n => String "0" (zeros n) end.

(** [s.padStart(n, "0")] *)
Definition padStart (n : nat) (s : string) : string := zeros (n - String.length s)%nat +:+ s.

Definition requireFence (fence : Z) : result () :=
  throw_if (negb (isSafeInteger fence) || (fence <? 1) || (MAX_FENCE <? fence))
    ("A writer fence must be an integer from 1: " +:+ pretty fence).

Definition padFence (fence : Z) : result string :=
  _ ← requireFence fence;
  Ok (padStart FENCE_DIGITS (pretty fence)).

Inductive KeyKind := KFence | KHeartbeat | KReleased.

#[global] Instance KeyKind_eq_dec : EqDecision KeyKind.
Proof. solve_decision. Defined.

Definition KeyKind_toString (k : KeyKind) : string :=
  match k with KFence => "fence" | KHeartbeat => "heartbeat" | KReleased => "released" end.

Definition keyOf (kind : KeyKind) (fence : Z) : result string :=
  digits ← padFence fence;
  Ok (WRITER_LEASE_PREFIX +:+ KeyKind_toString kind +:+ "-" +:+ digits).

Definition fenceKey (fence : Z) : result string := keyOf KFence fence.
Definition heartbeatKey (fence : Z) : result string := keyOf KHeartbeat fence.
Definition releasedKey (fence : Z) : result string := keyOf KReleased fence.

(** [^writer/(fence|heartbeat|released)-(\d{12})$] *)
Fixpoint matchKind (kinds : list KeyKind) (key : string) : option (KeyKind * string) :=
  match kinds with
  | [] => None
  | k :: kinds =>
      let prefix := WRITER_LEASE_PREFIX +:+ KeyKind_toString k +:+ "-" in
      if startsWith key prefix then Some (k, str_drop (String.length prefix) key)
      else matchKind kinds key
  end.

Definition parseWriterLeaseKey (key : string) : option (KeyKind * Z) :=
  '(kind, digits) ← matchKind [KFence; KHeartbeat; KReleased] key;
  if bool_decide (String.length digits = FENCE_DIGITS) && all_chars isDigit digits then
    let fence := digits_value 0 digits in
    if (fence <? 1) || (MAX_FENCE <? fence) then None else Some (kind, fence)
  else None.

(** ** Records *)

Record WriterLeaseHolder := MkHolder {
  holder : string;
  hostname : string;
  pid : Z;
  h_process : option ProcessIdentity;
}.

Record FenceRecord := MkRecord {
  fr_holder : WriterLeaseHolder;
  fr_fence : Z;
  nonce : string;
  ttlMs : Z;
  acquiredAt : Z;
}.

Record WriterLeaseRecords := MkRecords {
  fence : option Z;
  record : option FenceRecord;
  renewedAt : option Z;
  released : bool;
}.

Inductive ExpiredReason := RReleased | RProcessGone | RTtl | RUnreadable.

Inductive WriterLeaseVerdict :=
| Free
| Held (holderUnknown : bool)
| Expired (reason : ExpiredReason).

Definition judgeWriterLease (records : WriterLeaseRecords) (now : Z)
    (judgeHolder : FenceRecord → ProcessVerdict) (ttl : Z) (clockSkewMs : option Z)
    : WriterLeaseVerdict :=
  match fence records with
  | None => Free
  | Some _ =>
      if released records then Expired RReleased
      else
        let skew := default WRITER_LEASE_CLOCK_SKEW_MS clockSkewMs in
        match record records with
        | None =>
            match renewedAt records with
            | Some r => if now - r <=? ttl + skew then Held true else Expired RUnreadable
            | None => Expired RUnreadable
            end
        | Some r =>
            if bool_decide (judgeHolder r = Gone) then Expired RProcessGone
            else
              let renewed := Z.max (acquiredAt r) (default 0 (renewedAt records)) in
              if ttlMs r + skew <? now - renewed then Expired RTtl else Held false
        end
  end.

Inductive WriterLeaseState := LHeld | LExpired | LReleased.

Record WriterLeaseInspection := MkInspection {
  i_fence : option Z;
  i_record : option FenceRecord;
  i_renewedAt : option Z;
  state : WriterLeaseState;
}.

Definition inspectionOf (records : WriterLeaseRecords) (state : WriterLeaseState)
    : WriterLeaseInspection :=
  MkInspection (fence records) (record records)
    ((λ r, Z.max (acquiredAt r) (default 0 (renewedAt records))) <$> record records) state.

Definition isHeld (v : WriterLeaseVerdict) : bool := match v with Held _ => true | _ => false end.

(** what is written under a fence's keys *)
Definition recordToJSON (r : FenceRecord) : JsValue :=
  VObj ([("holder", VStr (holder (fr_holder r))); ("hostname", VStr (hostname (fr_holder r)));
         ("pid", VNum (pid (fr_holder r)))] ++
        optField "process" identityToJSON (h_process (fr_holder r)) ++
        [("fence", VNum (fr_fence r)); ("nonce", VStr (nonce r)); ("ttlMs", VNum (ttlMs r));
         ("acquiredAt", VNum (acquiredAt r))]).

Definition heartbeatToJSON (fence : Z) (nonce : string) (renewedAt : Z) : JsValue :=
  VObj [("fence", VNum fence); ("nonce", VStr nonce); ("renewedAt", VNum renewedAt)].

Definition releaseToJSON (fence releasedAt : Z) (by_ : string) : JsValue :=
  VObj [("fence", VNum fence); ("releasedAt", VNum releasedAt); ("by", VStr by_)].

Definition decode (data : option JsValue) : option (list (string * JsValue)) :=
  match data with Some (VObj l) => Some l | _ => None end.

Definition safeNumber (v : option JsValue) : option Z :=
  match v with Some (VNum z) => if isSafeInteger z then Some z else None | _ => None end.

Definition parseFenceRecord (data : option JsValue) (fence : Z) : option FenceRecord :=
  value ← decode data;
  if bool_decide (DataMetadata.readNumber "fence" value = Some fence) then
    holder ← field_string "holder" value;
    hostname ← field_string "hostname" value;
    pid ← safeNumber (assoc_get "pid" value);
    nonce ← field_string "nonce" value;
    ttlMs ← safeNumber (assoc_get "ttlMs" value);
    acquiredAt ← DataMetadata.readNumber "acquiredAt" value;
    Some (MkRecord (MkHolder holder hostname pid (parseProcessIdentity (assoc_get "process" value)))
            fence nonce ttlMs acquiredAt)
  else None.

Definition parseHeartbeat (data : option JsValue) (fence : Z) (nonce : option string) : option Z :=
  value ← decode data;
  if bool_decide (DataMetadata.readNumber "fence" value = Some fence) &&
     match nonce with
     | Some n => bool_decide (field_string "nonce" value = Some n)
     | None => true
     end
  then DataMetadata.readNumber "renewedAt" value
  else None.

(** ** Programs on the store *)

Inductive WriterFencedReason := TakenOver | FReleased | Published | CopyRestoring.

Record WriterFencedError := MkFenced {
  fe_fence : option Z;
  currentFence : option Z;
  fe_reason : WriterFencedReason;
}.

Inductive LeaseError :=
| EFenced (e : WriterFencedError)
| EBusy (inspection : WriterLeaseInspection) (waitedMs : Z)
| EPlain (msg : string)
| EStore
(** the bound on attempts ran out, which the source does not have *)
| EFuel.

Inductive outcome (A : Type) := Val (a : A) | Err (e : LeaseError).
Arguments Val {A} _.
Arguments Err {A} _.

(** A program is the next call and what follows each answer; [None] answers a
    call to the store that failed. *)
Inductive prog (A : Type) : Type :=
| Ret (a : A)
| DoList (k : option (list string) → prog A)
| DoGet (key : string) (k : option (option JsValue) → prog A)
| DoPut (key : string) (v : JsValue) (k : option () → prog A)
| DoPutIfAbsent (key : string) (v : JsValue) (k : option bool → prog A)
| DoDelete (key : string) (k : option () → prog A)
| DoNow (k : Z → prog A)
| DoNonce (k : string → prog A)
| DoDelay (ms : Z) (k : prog A).
Arguments Ret {A} _.
Arguments DoList {A} _.
Arguments DoGet {A} _ _.
Arguments DoPut {A} _ _ _.
Arguments DoPutIfAbsent {A} _ _ _.
Arguments DoDelete {A} _ _.
Arguments DoNow {A} _.
Arguments DoNonce {A} _.
Arguments DoDelay {A} _ _.

Fixpoint bind {A B} (p : prog A) (f : A → prog B) : prog B :=
  match p with
  | Ret a => f a
  | DoList k => DoList (λ r, bind (k r) f)
  | DoGet key k => DoGet key (λ r, bind (k r) f)
  | DoPut key v k => DoPut key v (λ r, bind (k r) f)
  | DoPutIfAbsent key v k => DoPutIfAbsent key v (λ r, bind (k r) f)
  | DoDelete key k => DoDelete key (λ r, bind (k r) f)
  | DoNow k => DoNow (λ r, bind (k r) f)
  | DoNonce k => DoNonce (λ r, bind (k r) f)
  | DoDelay ms k => DoDelay ms (bind k f)
  end.

#[global] Instance prog_ret : MRet prog := @Ret.
#[global] Instance prog_bind : MBind prog := λ A B f p, bind p f.

(** what the processes are given *)
Record WriterLeaseOptions := MkOptions {
  o_holder : WriterLeaseHolder;
  o_ttlMs : Z;
  o_judgeHolder : FenceRecord → ProcessVerdict;
  o_clockSkewMs : option Z;
  o_retryMs : option Z;
  o_maxRetryMs : option Z;
}.

Record WriterLeaseHold := MkHold {
  h_record : FenceRecord;
  lost : option WriterFencedError;
  h_released : bool;
}.

#[global] Instance WriterLeaseHold_eta : Eta WriterLeaseHold := λ h,
  MkHold (h_record h) (lost h) (h_released h).

Definition holdFence (h : WriterLeaseHold) : Z := fr_fence (h_record h).

(** *** Reading *)

(** the loops over the listed keys: the highest fence and the fences released *)
Definition scanKeys (keys : list string) : option Z * list Z :=
  foldl (λ '(best, rel) key,
    match parseWriterLeaseKey key with
    | Some (KFence, f) => (Some (match best with Some b => Z.max b f | None => f end), rel)
    | Some (KReleased, f) => (best, f :: rel)
    | _ => (best, rel)
    end) (None, []) keys.

Definition readWriterLeaseRecords : prog (outcome WriterLeaseRecords) :=
  DoList (λ r, match r with
  | None => Ret (Err EStore)
  | Some keys =>
      let '(best, rel) := scanKeys keys in
      match best with
      | None => Ret (Val (MkRecords None None None false))
      | Some f =>
          match fenceKey f, heartbeatKey f with
          | Ok fk, Ok hk =>
              DoGet fk (λ r, match r with
              | None => Ret (Err EStore)
              | Some data =>
                  let rec := parseFenceRecord data f in
                  DoGet hk (λ r, match r with
                  | None => Ret (Err EStore)
                  | Some hb =>
                      Ret (Val (MkRecords (Some f) rec (parseHeartbeat hb f (nonce <$> rec))
                                  (bool_decide (f ∈ rel))))
                  end)
              end)
          | Throw msg, _ | _, Throw msg => Ret (Err (EPlain msg))
          end
      end
  end).

(** *** A hold *)

Definition check (h : WriterLeaseHold) : prog (WriterLeaseHold * outcome (option WriterFencedError)) :=
  DoList (λ r, match r with
  | None => Ret (h, Err EStore)
  | Some keys =>
      let '(best, rel) := scanKeys keys in
      let highest := match best with Some b => Z.max (holdFence h) b | None => holdFence h end in
      let h :=
        if holdFence h <? highest then
          h <| lost := Some (MkFenced (Some (holdFence h)) (Some highest) TakenOver) |>
        else if bool_decide (holdFence h ∈ rel) then
          h <| lost := Some (MkFenced (Some (holdFence h)) None FReleased) |>
        else h in
      Ret (h, Val (lost h))
  end).

Definition renew (h : WriterLeaseHold) : prog (WriterLeaseHold * outcome bool) :=
  match lost h with
  | Some _ => Ret (h, Val false)
  | None =>
      '(h, r) ← check h;
      match r with
      | Err e => Ret (h, Err e)
      | Val (Some _) => Ret (h, Val false)
      | Val None =>
          match heartbeatKey (holdFence h) with
          | Throw msg => Ret (h, Err (EPlain msg))
          | Ok key =>
              DoNow (λ now,
                DoPut key (heartbeatToJSON (holdFence h) (nonce (h_record h)) now) (λ r,
                  match r with
                  | None => Ret (h, Err EStore)
                  | Some _ => Ret (h, Val true)
                  end))
          end
      end
  end.

Definition assertCurrent (h : WriterLeaseHold) : prog (WriterLeaseHold * outcome ()) :=
  match lost h with
  | Some e => Ret (h, Err (EFenced e))
  | None =>
      '(h, r) ← check h;
      match r with
      | Err e => Ret (h, Err e)
      | Val (Some e) => Ret (h, Err (EFenced e))
      | Val None => Ret (h, Val tt)
      end
  end.

(** the last step of [release] *)
Definition deleteHeartbeat (h : WriterLeaseHold) : prog (WriterLeaseHold * outcome ()) :=
  match heartbeatKey (holdFence h) with
  | Throw msg => Ret (h, Err (EPlain msg))
  | Ok key =>
      DoDelete key (λ r, match r with None => Ret (h, Err EStore) | Some _ => Ret (h, Val tt) end)
  end.

Definition release (h : WriterLeaseHold) : prog (WriterLeaseHold * outcome ()) :=
  if h_released h then Ret (h, Val tt)
  else
    let h := h <| h_released := true |> in
    match lost h with
    | Some _ => deleteHeartbeat h
    | None =>
        match releasedKey (holdFence h) with
        | Throw msg => Ret (h, Err (EPlain msg))
        | Ok key =>
            DoNow (λ now,
              DoPutIfAbsent key (releaseToJSON (holdFence h) now "holder") (λ r,
                match r with
                | None => Ret (h, Err EStore)
                | Some _ =>
                    deleteHeartbeat
                      (h <| lost := Some (MkFenced (Some (holdFence h)) None FReleased) |>)
                end))
        end
    end.

(** *** Taking and giving up the lease *)

Section lease.
Context (o : WriterLeaseOptions).

(** the loop that deletes the records of fences below the one before *)
Fixpoint pruneKeys (fence : Z) (keys : list string) : prog () :=
  match keys with
  | [] => Ret tt
  | key :: keys =>
      match parseWriterLeaseKey key with
      | Some (_, f) =>
          if f <? fence - 1 then DoDelete key (λ _, pruneKeys fence keys) else pruneKeys fence keys
      | None => pruneKeys fence keys
      end
  end.

Definition prune (fence : Z) : prog (outcome ()) :=
  DoList (λ r, match r with
  | None => Ret (Err EStore)
  | Some keys => _ ← pruneKeys fence keys; Ret (Val tt)
  end).

Definition take (fence : Z) : prog (outcome (option WriterLeaseHold)) :=
  DoNonce (λ nonce, DoNow (λ now,
    let record := MkRecord (o_holder o) fence nonce (o_ttlMs o) now in
    match fenceKey fence with
    | Throw msg => Ret (Err (EPlain msg))
    | Ok key =>
        DoPutIfAbsent key (recordToJSON record) (λ r, match r with
        | None => Ret (Err EStore)
        | Some false => Ret (Val None)
        | Some true =>
            '(hold, r) ← renew (MkHold record None false);
            match r with
            | Err e => '(_, _) ← release hold; Ret (Err e)
            | Val false =>
                '(_, r) ← release hold;
                match r with Err e => Ret (Err e) | Val _ => Ret (Val None) end
            | Val true =>
                r ← prune fence;
                match r with Err e => Ret (Err e) | Val _ => Ret (Val (Some hold)) end
            end
        end)
    end)).

Definition judge (records : WriterLeaseRecords) (now : Z) : WriterLeaseVerdict :=
  judgeWriterLease records now (o_judgeHolder o) (o_ttlMs o) (o_clockSkewMs o).

(** waiting before the next turn of the loop of [acquire] *)
Definition waitOr (records : WriterLeaseRecords) (maxWaitMs started retry : Z)
    (again : Z → prog (outcome WriterLeaseHold)) : prog (outcome WriterLeaseHold) :=
  DoNow (λ now,
    let waited := now - started in
    if maxWaitMs <=? waited then Ret (Err (EBusy (inspectionOf records LHeld) waited))
    else DoDelay (Z.min retry (maxWaitMs - waited))
           (again (Z.min (retry * 2) (default 2000 (o_maxRetryMs o))))).

(** the loop of [acquire]; [fuel] bounds its turns *)
Fixpoint acquireLoop (fuel : nat) (maxWaitMs floor started retry : Z)
    : prog (outcome WriterLeaseHold) :=
  match fuel with
  | O => Ret (Err EFuel)
  | S fuel =>
      r ← readWriterLeaseRecords;
      match r with
      | Err e => Ret (Err e)
      | Val records =>
          DoNow (λ now,
            if isHeld (judge records now) then
              waitOr records maxWaitMs started retry (acquireLoop fuel maxWaitMs floor started)
            else
              t ← take (Z.max (default 0 (fence records)) floor + 1);
              match t with
              | Err e => Ret (Err e)
              | Val (Some hold) => Ret (Val hold)
              | Val None =>
                  r ← readWriterLeaseRecords;
                  match r with
                  | Err e => Ret (Err e)
                  | Val records =>
                      waitOr records maxWaitMs started retry (acquireLoop fuel maxWaitMs floor started)
                  end
              end)
      end
  end.

Definition acquire (fuel : nat) (maxWaitMs : Z) (floor : option Z) : prog (outcome WriterLeaseHold) :=
  DoNow (λ started,
    acquireLoop fuel maxWaitMs (default 0 floor) started (default 250 (o_retryMs o))).

Definition inspect : prog (outcome (option WriterLeaseInspection)) :=
  r ← readWriterLeaseRecords;
  match r with
  | Err e => Ret (Err e)
  | Val records =>
      match fence records with
      | None => Ret (Val None)
      | Some _ =>
          DoNow (λ now, Ret (Val (Some (inspectionOf records
            match judge records now with
            | Held _ => LHeld
            | Expired RReleased => LReleased
            | _ => LExpired
            end))))
      end
  end.

Definition forceRelease (n : string) : prog (outcome bool) :=
  r ← readWriterLeaseRecords;
  match r with
  | Err e => Ret (Err e)
  | Val records =>
      match fence records with
      | Some f =>
          if bool_decide ((nonce <$> record records) = Some n) then
            match releasedKey f with
            | Throw msg => Ret (Err (EPlain msg))
            | Ok key =>
                DoNow (λ now, DoPutIfAbsent key (releaseToJSON f now "force") (λ r,
                  match r with None => Ret (Err EStore) | Some _ => Ret (Val true) end))
            end
          else Ret (Val false)
      | None => Ret (Val false)
      end
  end.

Definition advance (hold : WriterLeaseHold)
    : prog (WriterLeaseHold * outcome (option WriterLeaseHold)) :=
  '(hold, r) ← assertCurrent hold;
  match r with
  | Err (EFenced _) => Ret (hold, Val None)
  | Err e => Ret (hold, Err e)
  | Val _ =>
      next ← take (holdFence hold + 1);
      match next with
      | Err e => Ret (hold, Err e)
      | Val next => '(hold, _) ← release hold; Ret (hold, Val next)
      end
  end.

End lease.

End WriterLease.
