(* ===== verification/WriterLeaseProps.v ===== *)
(** * Properties of the writer lease

    Keys are canonical; a hold that checks itself finds out whether it was
    fenced; and, for any number of processes running the lease's operations
    at once on one store, whose calls interleave and may fail with or without
    effect, at most one process is ever given a hold of a fence and the highest
    fence never goes back. *)

From Stdlib Require Import Ascii.
From S2P Require Import Prelude JsString ProcessLiveness WriterLease.
Local Open Scope Z_scope.

Module WriterLeaseProps.
Import ProcessLiveness WriterLease.

(** ** Keys *)

Definition fenceRange (f : Z) : Prop := 1 ≤ f ≤ MAX_FENCE.

Lemma requireFence_ok f u : requireFence f = Ok u ↔ fenceRange f.
Proof.
  unfold requireFence, fenceRange. rewrite throw_if_ok, !orb_false_iff, negb_false_iff.
  rewrite Z.ltb_ge, Z.ltb_ge. unfold isSafeInteger. rewrite andb_true_iff, !Z.leb_le.
  unfold MAX_FENCE, MAX_SAFE_INTEGER. lia.
Qed.

Lemma length_zeros n : String.length (zeros n) = n.
Proof. induction n; cbn; by f_equal. Qed.

Lemma zeros_digits n s : all_chars isDigit (zeros n +:+ s) = all_chars isDigit s.
Proof. by induction n. Qed.

Lemma zeros_value n s : digits_value 0 (zeros n +:+ s) = digits_value 0 s.
Proof. by induction n. Qed.

Lemma padFence_ok f d :
  padFence f = Ok d ↔
  fenceRange f ∧ String.length d = FENCE_DIGITS ∧ all_chars isDigit d = true ∧ digits_value 0 d = f.
Proof.
  assert (fenceRange f → let d := padStart FENCE_DIGITS (pretty f) in
    String.length d = FENCE_DIGITS ∧ all_chars isDigit d = true ∧ digits_value 0 d = f) as Hpad.
  { unfold fenceRange. intros Hf. cbv zeta. unfold padStart.
    destruct (pretty_Z_digits f) as (Hv & Hd & _); [lia|].
    rewrite str_length_app, length_zeros, zeros_digits, zeros_value.
    assert (String.length (pretty f) ≤ FENCE_DIGITS)%nat.
    { apply pretty_Z_length; [unfold FENCE_DIGITS; lia|]. unfold MAX_FENCE, FENCE_DIGITS in *. lia. }
    split_and!; [lia|done..]. }
  unfold padFence. rewrite result_bind_ok. setoid_rewrite requireFence_ok. split.
  - intros ([] & Hf & [= <-]). split; [done|]. by apply Hpad.
  - intros (Hf & Hl & Hd & Hv). exists tt. split; [done|]. f_equal.
    destruct (Hpad Hf) as (Hl' & Hd' & Hv'). apply digits_value_inj; congruence.
Qed.

Lemma keyOf_ok k f s :
  keyOf k f = Ok s ↔
  ∃ d, s = WRITER_LEASE_PREFIX +:+ KeyKind_toString k +:+ "-" +:+ d ∧
    fenceRange f ∧ String.length d = FENCE_DIGITS ∧ all_chars isDigit d = true ∧ digits_value 0 d = f.
Proof.
  unfold keyOf. rewrite result_bind_ok. setoid_rewrite padFence_ok. split.
  - intros (d & H & [= <-]). eauto.
  - intros (d & -> & H). eauto.
Qed.

Lemma keyOf_total k f : fenceRange f → ∃ s, keyOf k f = Ok s.
Proof.
  intros Hf. unfold keyOf, padFence. rewrite (proj2 (requireFence_ok f tt) Hf). cbn. eauto.
Qed.

Lemma matchKind_spec key k d :
  matchKind [KFence; KHeartbeat; KReleased] key = Some (k, d) ↔
  key = WRITER_LEASE_PREFIX +:+ KeyKind_toString k +:+ "-" +:+ d.
Proof.
  split.
  - cbn [matchKind]. repeat (match goal with |- context [startsWith key ?p] =>
      destruct (startsWith key p) eqn:?; [intros [= <- <-];
        match goal with H : startsWith _ _ = true |- _ => apply startsWith_spec in H as [r ->] end; done|] end).
    done.
  - intros ->. by destruct k, d.
Qed.

Lemma parse_key_spec key k f : parseWriterLeaseKey key = Some (k, f) ↔ keyOf k f = Ok key.
Proof.
  unfold parseWriterLeaseKey. rewrite keyOf_ok. split.
  - intros ([k' d] & Hm%matchKind_spec & H)%bind_Some. case_bools; try done. simplify_eq. split_bools.
    exists d. split_and!; try done; unfold fenceRange; lia.
  - intros (d & Hk & Hf & Hl & Hd & Hv). apply bind_Some. exists (k, d).
    split; [by apply matchKind_spec|]. rewrite Hl, Hd, Hv. rewrite bool_decide_eq_true_2 by done. cbn.
    unfold fenceRange in Hf. by rewrite !(proj2 (Z.ltb_ge _ _)) by lia.
Qed.

Lemma key_starts key k f : parseWriterLeaseKey key = Some (k, f) → startsWith key WRITER_LEASE_PREFIX = true.
Proof. rewrite parse_key_spec, keyOf_ok. intros (d & -> & _). apply startsWith_app. Qed.

(** A key of the lease is read back as the kind and the fence it was
    written for, every fence in range has one, and no other text is taken for
    a key: a text that parses is the one key of what it parses to. *)
Lemma lease_keys_are_canonical (key : string) (kind : KeyKind) (fence : Z) :
  (parseWriterLeaseKey key = Some (kind, fence) ↔ keyOf kind fence = Ok key) ∧
  (is_ok (keyOf kind fence) = true ↔ 1 ≤ fence ≤ MAX_FENCE) ∧
  (keyOf kind fence = Ok key → startsWith key WRITER_LEASE_PREFIX = true).
Proof.
  split_and!.
  - apply parse_key_spec.
  - split.
    + destruct (keyOf kind fence) as [s|] eqn:E; [|done]. by apply keyOf_ok in E as (d & _ & ? & _).
    + intros Hf. by destruct (keyOf_total kind fence Hf) as [s ->].
  - intros H%parse_key_spec. by eapply key_starts.
Qed.

(** ** The scan of the listed keys *)

Lemma scan_fold keys best rel :
  foldl (λ '(best, rel) key,
    match parseWriterLeaseKey key with
    | Some (KFence, f) => (Some (match best with Some b => Z.max b f | None => f end), rel)
    | Some (KReleased, f) => (best, f :: rel)
    | _ => (best, rel)
    end) (best, rel) keys =
  (match (scanKeys keys).1 with
   | Some m => Some (match best with Some b => Z.max b m | None => m end)
   | None => best
   end, (scanKeys keys).2 ++ rel).
Proof.
  unfold scanKeys. revert best rel. induction keys as [|key keys IH]; intros best rel; [done|].
  cbn [foldl]. destruct (parseWriterLeaseKey key) as [[[] f]|].
  - rewrite IH, (IH (Some f) []). cbn [fst snd]. rewrite app_nil_r.
    destruct (foldl _ (None, []) keys) as [[m|] rel']; cbn; destruct best; try done.
    by rewrite Z.max_assoc.
  - apply IH.
  - rewrite IH, (IH None [f]). cbn [fst snd].
    destruct (foldl _ (None, []) keys) as [[m|] rel']; cbn; by rewrite <-app_assoc.
  - apply IH.
Qed.

Lemma scan_cons key keys :
  scanKeys (key :: keys) =
  match parseWriterLeaseKey key with
  | Some (KFence, f) =>
      (Some (match (scanKeys keys).1 with Some m => Z.max f m | None => f end), (scanKeys keys).2)
  | Some (KReleased, f) => ((scanKeys keys).1, (scanKeys keys).2 ++ [f])
  | _ => scanKeys keys
  end.
Proof.
  unfold scanKeys at 1. cbn [foldl]. destruct (parseWriterLeaseKey key) as [[[] f]|]; try done.
  - rewrite scan_fold, app_nil_r. by destruct (scanKeys keys) as [[m|] rel].
  - rewrite scan_fold. by destruct (scanKeys keys) as [[m|] rel].
Qed.

(** the highest fence among the keys, and the released ones *)
Lemma scan_spec keys :
  match (scanKeys keys).1 with
  | Some m => (∃ key, key ∈ keys ∧ parseWriterLeaseKey key = Some (KFence, m)) ∧
      ∀ key f, key ∈ keys → parseWriterLeaseKey key = Some (KFence, f) → f ≤ m
  | None => ∀ key f, key ∈ keys → parseWriterLeaseKey key ≠ Some (KFence, f)
  end ∧
  ∀ f, f ∈ (scanKeys keys).2 ↔ ∃ key, key ∈ keys ∧ parseWriterLeaseKey key = Some (KReleased, f).
Proof.
  induction keys as [|key keys [IH1 IH2]].
  - split; [intros ? ? []%elem_of_nil|]. intros f. cbn. rewrite elem_of_nil.
    split; [done|]. by intros (? & []%elem_of_nil & _).
  - assert (∀ P : string → Prop, (∃ k, k ∈ key :: keys ∧ P k) ↔ P key ∨ ∃ k, k ∈ keys ∧ P k) as Hex.
    { intros P. split; [intros (k & [->|?]%elem_of_cons & ?); eauto|].
      intros [?|(k & ? & ?)]; eexists; (split; [|done]); apply elem_of_cons; auto. }
    assert (∀ P : string → Prop, (∀ k, k ∈ key :: keys → P k) ↔ P key ∧ ∀ k, k ∈ keys → P k) as Hall.
    { intros P. setoid_rewrite elem_of_cons. naive_solver. }
    rewrite scan_cons. destruct (parseWriterLeaseKey key) as [[[] g]|] eqn:E; cbn [fst snd].
    + split; [|intros f; rewrite IH2, Hex, E; naive_solver].
      destruct (scanKeys keys).1 as [m|].
      * destruct IH1 as [(k0 & Hk0 & Hm) Hmax]. split.
        -- rewrite Hex, E. destruct (Z.max_spec g m) as [[? ->]|[? ->]]; eauto.
        -- intros k f Hk Hf. apply elem_of_cons in Hk as [->|Hk].
           ++ rewrite E in Hf. injection Hf as ->. lia.
           ++ specialize (Hmax k f Hk Hf). lia.
      * split; [rewrite Hex, E; by left|]. intros k f Hk Hf. apply elem_of_cons in Hk as [->|Hk].
        -- rewrite E in Hf. by injection Hf as ->.
        -- by destruct (IH1 k f Hk).
    + split; [|intros f; rewrite IH2, Hex, E; naive_solver].
      destruct (scanKeys keys).1 as [m|].
      * destruct IH1 as [H1 H2]. split; [rewrite Hex; by right|].
        intros k f [->|Hk]%elem_of_cons Hf; [congruence|eauto].
      * intros k f [->|Hk]%elem_of_cons; [congruence|eauto].
    + split.
      * destruct (scanKeys keys).1 as [m|].
        -- destruct IH1 as [H1 H2]. split; [rewrite Hex; by right|].
           intros k f [->|Hk]%elem_of_cons Hf; [congruence|eauto].
        -- intros k f [->|Hk]%elem_of_cons; [congruence|eauto].
      * intros f. rewrite elem_of_app, IH2, list_elem_of_singleton, Hex, E. naive_solver.
    + split; [|intros f; rewrite IH2, Hex, E; naive_solver].
      destruct (scanKeys keys).1 as [m|].
      * destruct IH1 as [H1 H2]. split; [rewrite Hex; by right|].
        intros k f [->|Hk]%elem_of_cons Hf; [congruence|eauto].
      * intros k f [->|Hk]%elem_of_cons; [congruence|eauto].
Qed.

(** ** Processes on one store *)

Notation store := (gmap string JsValue).

(** [store.list(prefix)] *)
Definition listKeys (st : store) : list string :=
  List.filter (λ k, startsWith k WRITER_LEASE_PREFIX) (map_to_list st).*1.

(** One call of a process. Each call to the store is atomic; it may fail, and
    a call that failed may or may not have taken effect. The clock and the
    nonces are arbitrary. *)
Inductive procStep {A} : store → prog A → store → prog A → Prop :=
| ps_list st k : procStep st (DoList k) st (k (Some (listKeys st)))
| ps_list_fail st k : procStep st (DoList k) st (k None)
| ps_get st key k : procStep st (DoGet key k) st (k (Some (st !! key)))
| ps_get_fail st key k : procStep st (DoGet key k) st (k None)
| ps_put st key v k : procStep st (DoPut key v k) (<[key := v]> st) (k (Some tt))
| ps_put_fail st key v k : procStep st (DoPut key v k) st (k None)
| ps_put_unknown st key v k : procStep st (DoPut key v k) (<[key := v]> st) (k None)
| ps_create st key v k :
    st !! key = None → procStep st (DoPutIfAbsent key v k) (<[key := v]> st) (k (Some true))
| ps_exists st key v k :
    is_Some (st !! key) → procStep st (DoPutIfAbsent key v k) st (k (Some false))
| ps_create_fail st key v k : procStep st (DoPutIfAbsent key v k) st (k None)
| ps_create_unknown st key v k :
    st !! key = None → procStep st (DoPutIfAbsent key v k) (<[key := v]> st) (k None)
| ps_delete st key k : procStep st (DoDelete key k) (delete key st) (k (Some tt))
| ps_delete_fail st key k : procStep st (DoDelete key k) st (k None)
| ps_delete_unknown st key k : procStep st (DoDelete key k) (delete key st) (k None)
| ps_now st k t : procStep st (DoNow k) st (k t)
| ps_nonce st k n : procStep st (DoNonce k) st (k n)
| ps_delay st ms k : procStep st (DoDelay ms k) st k.

(** a store and the processes that use it; any of them makes the next call *)
Inductive step {A} : store * list (prog A) → store * list (prog A) → Prop :=
| step_proc st ps i p st' p' :
    ps !! i = Some p → procStep st p st' p' → step (st, ps) (st', <[i := p']> ps).

(** what a process does with a hold *)
Inductive Command := CRenew | CAssert | CRelease | CAdvance | CForceRelease (n : string) | CInspect.

(** a process: it acquires the lease, then uses it; the result is the fences
    of the holds it was given *)
Fixpoint session (o : WriterLeaseOptions) (cmds : list Command) (h : WriterLeaseHold) (acc : list Z)
    : prog (list Z) :=
  match cmds with
  | [] => Ret acc
  | CRenew :: cmds => '(h, _) ← renew h; session o cmds h acc
  | CAssert :: cmds => '(h, _) ← assertCurrent h; session o cmds h acc
  | CRelease :: cmds => '(h, _) ← release h; session o cmds h acc
  | CAdvance :: cmds =>
      '(h, r) ← advance o h;
      match r with
      | Val (Some h') => session o cmds h' (holdFence h' :: acc)
      | _ => session o cmds h acc
      end
  | CForceRelease n :: cmds => _ ← forceRelease n; session o cmds h acc
  | CInspect :: cmds => _ ← inspect o; session o cmds h acc
  end.

Definition process (o : WriterLeaseOptions) (fuel : nat) (maxWaitMs : Z) (floor : option Z)
    (cmds : list Command) : prog (list Z) :=
  r ← acquire o fuel maxWaitMs floor;
  match r with
  | Err _ => Ret []
  | Val h => session o cmds h [holdFence h]
  end.

(** ** Fences in a store *)

Definition hasFence (st : store) (f : Z) : Prop :=
  ∃ key, keyOf KFence f = Ok key ∧ is_Some (st !! key).

Lemma elem_of_listKeys st key :
  key ∈ listKeys st ↔ is_Some (st !! key) ∧ startsWith key WRITER_LEASE_PREFIX = true.
Proof.
  unfold listKeys. rewrite elem_of_bfilter, list_elem_of_fmap. split.
  - intros [([k v] & -> & H%elem_of_map_to_list) ?]. eauto.
  - intros [[v Hv] ?]. split; [|done]. exists (key, v). split; [done|]. by apply elem_of_map_to_list.
Qed.

Lemma scan_listKeys_above st f :
  match (scanKeys (listKeys st)).1 with Some m => m ≤ f | None => True end →
  ∀ g, hasFence st g → g ≤ f.
Proof.
  intros Hm g (key & Hk & Hs). apply parse_key_spec in Hk.
  assert (key ∈ listKeys st) as Hin by (apply elem_of_listKeys; eauto using key_starts).
  pose proof (proj1 (scan_spec (listKeys st))) as Hsp.
  destruct (scanKeys (listKeys st)).1 as [m|].
  - destruct Hsp as [_ Hmax]. specialize (Hmax _ _ Hin Hk). lia.
  - by destruct (Hsp _ _ Hin Hk).
Qed.

Lemma hasFence_insert st key v g :
  hasFence (<[key := v]> st) g ↔ parseWriterLeaseKey key = Some (KFence, g) ∨ hasFence st g.
Proof.
  unfold hasFence. rewrite parse_key_spec. split.
  - intros (k & Hk & [w Hw]). apply lookup_insert_Some in Hw as [[-> _]|[_ ?]]; eauto.
  - intros [Hk|(k & Hk & Hs)]; [exists key|exists k]; (split; [done|]).
    + rewrite lookup_insert_eq. eauto.
    + destruct (decide (key = k)) as [->|]; [rewrite lookup_insert_eq; eauto|].
      by rewrite lookup_insert_ne.
Qed.

Lemma hasFence_delete st key g :
  hasFence (delete key st) g ↔ hasFence st g ∧ parseWriterLeaseKey key ≠ Some (KFence, g).
Proof.
  unfold hasFence. rewrite parse_key_spec. split.
  - intros (k & Hk & [w Hw]). apply lookup_delete_Some in Hw as [Hne Hw]. split; [eauto|].
    intros E. rewrite E in Hk. by simplify_eq.
  - intros [(k & Hk & Hs) Hne]. exists k. split; [done|]. rewrite lookup_delete_ne; [done|].
    intros ->. done.
Qed.

(** ** What a process knows

    [lb] is a fence the process created, so that one as high exists; [pending]
    is a fence it created and has not checked since; [confirmed] are those for
    which its check found no higher one. *)

Record ghost := MkGhost { lb : Z; pending : option Z; confirmed : gset Z }.

Definition created (g : ghost) (f : Z) : ghost := MkGhost (Z.max (lb g) f) (Some f) (confirmed g).

Definition g_created (g : ghost) (key : string) : ghost :=
  match parseWriterLeaseKey key with Some (KFence, f) => created g f | _ => g end.

Definition g_list (g : ghost) (keys : list string) : ghost :=
  match pending g with
  | Some f =>
      MkGhost (lb g) None
        (if match (scanKeys keys).1 with Some m => m <=? f | None => true end
         then {[f]} ∪ confirmed g else confirmed g)
  | None => g
  end.

(** [p] deletes no fence it does not know to be below another, overwrites
    none, and ends in [Q] *)
Fixpoint okProg {A} (Q : A → ghost → Prop) (g : ghost) (p : prog A) : Prop :=
  match p with
  | Ret a => Q a g
  | DoList k => okProg Q g (k None) ∧ ∀ keys, okProg Q (g_list g keys) (k (Some keys))
  | DoGet _ k => ∀ r, okProg Q g (k r)
  | DoPut key _ k =>
      (∀ f, parseWriterLeaseKey key ≠ Some (KFence, f)) ∧ ∀ r, okProg Q g (k r)
  | DoPutIfAbsent key _ k =>
      okProg Q g (k None) ∧ okProg Q g (k (Some false)) ∧ okProg Q (g_created g key) (k (Some true))
  | DoDelete key k =>
      (∀ f, parseWriterLeaseKey key = Some (KFence, f) → f < lb g) ∧ ∀ r, okProg Q g (k r)
  | DoNow k => ∀ t, okProg Q g (k t)
  | DoNonce k => ∀ n, okProg Q g (k n)
  | DoDelay _ k => okProg Q g k
  end.

Lemma okProg_bind {A B} (Q : A → ghost → Prop) (R : B → ghost → Prop) p f g :
  okProg Q g p → (∀ a g', Q a g' → okProg R g' (f a)) → okProg R g (p ≫= f).
Proof.
  intros Hp Hf. cbv [mbind prog_bind]. revert g Hp.
  induction p as [a|k IH|key k IH|key v k IH|key v k IH|key k IH|k IH|k IH|ms k IH]; cbn [bind okProg];
    intros g Hp.
  - by apply Hf.
  - destruct Hp as [H1 H2]. split; [by apply IH|]. intros keys. by apply IH.
  - intros r. by apply IH.
  - destruct Hp as [H1 H2]. split; [done|]. intros r. by apply IH.
  - destruct Hp as (H1 & H2 & H3). split_and!; by apply IH.
  - destruct Hp as [H1 H2]. split; [done|]. intros r. by apply IH.
  - intros r. by apply IH.
  - intros r. by apply IH.
  - by apply IH.
Qed.

Lemma okProg_mono {A} (Q R : A → ghost → Prop) p g :
  okProg Q g p → (∀ a g', Q a g' → R a g') → okProg R g p.
Proof.
  intros Hp Hf. revert g Hp.
  induction p as [a|k IH|key k IH|key v k IH|key v k IH|key k IH|k IH|k IH|ms k IH]; cbn [okProg];
    intros g Hp.
  - by apply Hf.
  - destruct Hp as [H1 H2]. split; [by apply IH|]. intros keys. by apply IH.
  - intros r. by apply IH.
  - destruct Hp as [H1 H2]. split; [done|]. intros r. by apply IH.
  - destruct Hp as (H1 & H2 & H3). split_and!; by apply IH.
  - destruct Hp as [H1 H2]. split; [done|]. intros r. by apply IH.
  - intros r. by apply IH.
  - intros r. by apply IH.
  - by apply IH.
Qed.

(** knowledge only grows, but for the fence to check *)
Definition grows (g g' : ghost) : Prop := lb g ≤ lb g' ∧ confirmed g ⊆ confirmed g'.

#[global] Instance grows_preorder : PreOrder grows.
Proof.
  split; [by intros g|]. intros g1 g2 g3 [? ?] [? ?]. split; [lia|]. by etrans.
Qed.

Lemma grows_list g keys : grows g (g_list g keys).
Proof.
  unfold g_list. destruct (pending g) as [f|]; [|done]. split; [done|]. cbn.
  destruct (match _ with Some m => m <=? f | None => true end); [|done]. by apply union_subseteq_r.
Qed.

Lemma grows_created g key : grows g (g_created g key).
Proof.
  unfold g_created. destruct (parseWriterLeaseKey key) as [[[] f]|]; try done.
  split; cbn; [lia|done].
Qed.

(** a key of another kind is not a fence *)
Lemma not_fence_key k f key g :
  keyOf k f = Ok key → k ≠ KFence → parseWriterLeaseKey key ≠ Some (KFence, g).
Proof. intros Hk%parse_key_spec Hne. rewrite Hk. congruence. Qed.

Lemma g_created_other g k f key : keyOf k f = Ok key → k ≠ KFence → g_created g key = g.
Proof. intros Hk%parse_key_spec Hne. unfold g_created. rewrite Hk. by destruct k. Qed.

Lemma g_created_fence g f key : keyOf KFence f = Ok key → g_created g key = created g f.
Proof. intros Hk%parse_key_spec. unfold g_created. by rewrite Hk. Qed.

(** ** The programs *)

Lemma ok_read g : okProg (λ _ g', grows g g') g readWriterLeaseRecords.
Proof.
  unfold readWriterLeaseRecords. cbn [okProg]. split; [done|]. intros keys.
  pose proof (grows_list g keys) as Hg. destruct (scanKeys keys) as [[f|] rel]; [|done].
  destruct (fenceKey f) as [fk|], (heartbeatKey f) as [hk|]; try done.
  cbn [okProg]. intros [data|]; [|done]. cbn [okProg]. by intros [hb|].
Qed.

(** a check that finds nothing confirms the fence just created *)
Lemma ok_check g h :
  okProg (λ '(h', r) g', grows g g' ∧ h_record h' = h_record h ∧
    (pending g = Some (holdFence h) → r = Val None → holdFence h ∈ confirmed g')) g (check h).
Proof.
  unfold check. cbn [okProg]. split; [done|]. intros keys.
  destruct (scanKeys keys) as [best rel] eqn:Hscan. cbn [okProg]. split_and!.
  - apply grows_list.
  - destruct (_ <? _); [done|]. by destruct (bool_decide _).
  - intros Hp. unfold g_list. rewrite Hp, Hscan. cbn [confirmed fst].
    destruct (holdFence h <? _) eqn:E; [done|]. apply Z.ltb_ge in E.
    replace (match best with Some m => m <=? holdFence h | None => true end) with true
      by (destruct best; [symmetry; apply Z.leb_le; lia|done]).
    intros _. apply elem_of_union_l. by apply elem_of_singleton.
Qed.

Lemma ok_renew g h :
  okProg (λ '(h', r) g', grows g g' ∧ h_record h' = h_record h ∧
    (pending g = Some (holdFence h) → r = Val true → holdFence h ∈ confirmed g')) g (renew h).
Proof.
  unfold renew. destruct (lost h); [done|].
  eapply okProg_bind; [apply ok_check|]. intros [h' r] g' (Hg & Hr & Hc).
  destruct r as [[e|]|e]; [done| |done].
  destruct (heartbeatKey (holdFence h')) as [key|] eqn:Hk; [|done].
  cbn [okProg]. intros t. split; [intros f; by eapply not_fence_key|]. intros [[]|]; [|done].
  cbn [okProg]. auto.
Qed.

Lemma ok_assertCurrent g h :
  okProg (λ '(h', _) g', grows g g' ∧ h_record h' = h_record h) g (assertCurrent h).
Proof.
  unfold assertCurrent. destruct (lost h); [done|].
  eapply okProg_bind; [apply ok_check|]. intros [h' r] g' (Hg & Hr & _).
  by destruct r as [[e|]|e].
Qed.

Lemma ok_deleteHeartbeat g h :
  okProg (λ '(h', _) g', g' = g ∧ h_record h' = h_record h) g (deleteHeartbeat h).
Proof.
  unfold deleteHeartbeat. destruct (heartbeatKey (holdFence h)) as [key|] eqn:Hk; [|done].
  cbn [okProg]. split; [|by intros [[]|]]. intros f Hf. by destruct (not_fence_key _ _ _ f Hk).
Qed.

Lemma ok_release g h :
  okProg (λ '(h', _) g', g' = g ∧ h_record h' = h_record h) g (release h).
Proof.
  unfold release. destruct (h_released h); [done|].
  match goal with |- context [lost ?h0] => destruct (lost h0); [apply (ok_deleteHeartbeat g h0)|] end.
  match goal with |- context [releasedKey (holdFence ?h0)] =>
    destruct (releasedKey (holdFence h0)) as [key|] eqn:Hk; [|done] end.
  cbn [okProg]. intros t. rewrite (g_created_other g _ _ key Hk) by done.
  split; [done|]. split;
    match goal with |- context [deleteHeartbeat ?h0] => apply (ok_deleteHeartbeat g h0) end.
Qed.

Lemma ok_pruneKeys g f keys : f ≤ lb g → okProg (λ _ g', g' = g) g (pruneKeys f keys).
Proof.
  intros Hf. induction keys as [|key keys IH]; [done|]. cbn [pruneKeys].
  destruct (parseWriterLeaseKey key) as [[k f0]|] eqn:E; [|done].
  destruct (f0 <? f - 1) eqn:E'; [|done]. apply Z.ltb_lt in E'.
  cbn [okProg]. split; [|done]. intros f1. rewrite E. intros [= _ <-]. lia.
Qed.

Lemma ok_prune g f : f ≤ lb g → okProg (λ _ g', grows g g') g (prune f).
Proof.
  intros Hf. unfold prune. cbn [okProg]. split; [done|]. intros keys.
  pose proof (grows_list g keys) as Hg. eapply okProg_bind; [apply ok_pruneKeys|].
  - by destruct Hg; lia.
  - intros _ g' ->. done.
Qed.

(** a hold is given for a fence that was created and then found the highest *)
Lemma ok_take o g f :
  okProg (λ r g', grows g g' ∧ ∀ h, r = Val (Some h) → holdFence h ∈ confirmed g') g (take o f).
Proof.
  unfold take. cbn [okProg]. intros n t.
  destruct (fenceKey f) as [key|] eqn:Hk; [|done]. cbn [okProg].
  split; [done|]. split; [done|]. pose proof (grows_created g key) as Hg1.
  rewrite (g_created_fence g f key Hk) in *.
  eapply okProg_bind; [apply ok_renew|]. intros [h r] g2 (Hg2 & Hr & Hc). cbn [h_record] in Hr.
  assert (holdFence h = f) as Hh by (unfold holdFence; by rewrite Hr).
  assert (grows g g2) by by etrans. destruct r as [[]|e].
  - eapply okProg_bind; [apply ok_prune|].
    + destruct Hg2 as [Hlb _]. cbn in Hlb. lia.
    + intros r g3 Hg3. assert (grows g g3) by by etrans. destruct r as [[]|e]; [|done].
      cbn [okProg]. split; [done|]. intros h0 [= <-]. destruct Hg3 as [_ Hsub]. apply Hsub.
      rewrite Hh. by apply Hc.
  - eapply okProg_bind; [apply ok_release|]. intros [h' r] g3 [-> _]. by destruct r.
  - eapply okProg_bind; [apply ok_release|]. intros [h' r] g3 [-> _]. done.
Qed.

(** a result that is a hold is a hold of a confirmed fence *)
Definition givesHold (r : outcome WriterLeaseHold) (g : ghost) : Prop :=
  ∀ h, r = Val h → holdFence h ∈ confirmed g.

Lemma ok_waitOr o records maxWaitMs started retry again g :
  (∀ retry, okProg givesHold g (again retry)) →
  okProg givesHold g (waitOr o records maxWaitMs started retry again).
Proof.
  intros Hk. unfold waitOr. cbn [okProg]. intros now.
  destruct (maxWaitMs <=? now - started); [done|]. apply Hk.
Qed.

Lemma ok_acquireLoop o fuel maxWaitMs floor started retry g :
  okProg givesHold g (acquireLoop o fuel maxWaitMs floor started retry).
Proof.
  revert retry g. induction fuel as [|fuel IH]; intros retry g; [done|]. cbn [acquireLoop].
  eapply okProg_bind; [apply ok_read|]. intros [records|e] g1 _; [|done]. cbn [okProg]. intros now.
  destruct (isHeld (judge o records now)); [by apply ok_waitOr|].
  eapply okProg_bind; [apply ok_take|]. intros [[h|]|e] g2 [_ Hh]; [|..|done].
  - intros h' [= <-]. by apply Hh.
  - eapply okProg_bind; [apply ok_read|]. intros [records'|e] g3 _; [|done]. by apply ok_waitOr.
Qed.

Lemma ok_advance o g h :
  okProg (λ '(_, r) g', grows g g' ∧ ∀ h', r = Val (Some h') → holdFence h' ∈ confirmed g') g
    (advance o h).
Proof.
  unfold advance. eapply okProg_bind; [apply ok_assertCurrent|].
  intros [h1 r] g1 [Hg1 _]. destruct r as [[]|[]]; try done.
  eapply okProg_bind; [apply ok_take|]. intros r g2 [Hg2 Hh]. assert (grows g g2) by by etrans.
  destruct r as [next|e]; [|done].
  eapply okProg_bind; [apply ok_release|]. intros [h2 r] g3 [-> _]. cbn [okProg].
  split; [done|]. intros h' [= ->]. by apply Hh.
Qed.

Lemma ok_forceRelease g n : okProg (λ _ g', grows g g') g (forceRelease n).
Proof.
  unfold forceRelease. eapply okProg_bind; [apply ok_read|]. intros [records|e] g1 Hg; [|done].
  destruct (fence records) as [f|]; [|done]. destruct (bool_decide _); [|done].
  destruct (releasedKey f) as [key|] eqn:Hk; [|done]. cbn [okProg]. intros now.
  rewrite (g_created_other g1 _ _ key Hk) by done. done.
Qed.

Lemma ok_inspect o g : okProg (λ _ g', grows g g') g (inspect o).
Proof.
  unfold inspect. eapply okProg_bind; [apply ok_read|]. intros [records|e] g1 Hg; [|done].
  destruct (fence records); [by intros now|done].
Qed.

(** every fence a process returns was confirmed *)
Definition allConfirmed (l : list Z) (g : ghost) : Prop := Forall (.∈ confirmed g) l.

Lemma allConfirmed_grows l g g' : grows g g' → allConfirmed l g → allConfirmed l g'.
Proof. intros [_ Hs] H. eapply Forall_impl; [exact H|]. intros f. apply Hs. Qed.

Lemma ok_session o cmds h acc g :
  allConfirmed acc g → okProg allConfirmed g (session o cmds h acc).
Proof.
  revert h acc g. induction cmds as [|c cmds IH]; intros h acc g Hacc; [done|].
  destruct c; cbn [session]; (eapply okProg_bind;
    [first [apply ok_renew | apply ok_assertCurrent | apply ok_release | apply ok_advance
           | apply ok_forceRelease | apply ok_inspect]|]).
  - intros [h' r] g' (Hg & _). apply IH. exact (allConfirmed_grows _ _ _ Hg Hacc).
  - intros [h' r] g' (Hg & _). apply IH. exact (allConfirmed_grows _ _ _ Hg Hacc).
  - intros [h' r] g' [-> _]. by apply IH.
  - intros [h' r] g' [Hg Hh]. destruct r as [[h1|]|e]; 
      [|apply IH; exact (allConfirmed_grows _ _ _ Hg Hacc)..].
    apply IH. constructor; [by apply Hh|]. exact (allConfirmed_grows _ _ _ Hg Hacc).
  - intros r g' Hg. apply IH. exact (allConfirmed_grows _ _ _ Hg Hacc).
  - intros r g' Hg. apply IH. exact (allConfirmed_grows _ _ _ Hg Hacc).
Qed.

Lemma ok_process o fuel maxWaitMs floor cmds g :
  okProg allConfirmed g (process o fuel maxWaitMs floor cmds).
Proof.
  unfold process, acquire. eapply okProg_bind; [intros started; apply ok_acquireLoop|].
  intros [h|e] g' Hh; [|by constructor]. apply ok_session. constructor; [by apply Hh|constructor].
Qed.

(** ** All processes together *)

(** every fence of [st] is still in [st'], or a higher one is *)
Definition advanced (st st' : store) : Prop := ∀ f, hasFence st f → ∃ g, hasFence st' g ∧ f ≤ g.

#[global] Instance advanced_preorder : PreOrder advanced.
Proof.
  split; [intros st f Hf; exists f; split; [done|lia]|].
  intros s1 s2 s3 H12 H23 f (g & Hg & ?)%H12. destruct (H23 g Hg) as (h & ? & ?).
  exists h. split; [done|lia].
Qed.

Definition above (st : store) (f : Z) : Prop := ∃ g, hasFence st g ∧ f < g.

Definition knows (g : ghost) (f : Z) : Prop := pending g = Some f ∨ f ∈ confirmed g.

Lemma above_advanced st st' f : advanced st st' → above st f → above st' f.
Proof. intros Ha (g & (h & ? & ?)%Ha & ?). exists h. split; [done|lia]. Qed.

Lemma advanced_insert st key v : advanced st (<[key := v]> st).
Proof. intros f Hf. exists f. rewrite hasFence_insert. split; [by right|lia]. Qed.

Lemma hasFence_range st f : hasFence st f → 1 ≤ f ≤ MAX_FENCE.
Proof. intros (key & Hk & _). by apply keyOf_ok in Hk as (d & _ & ? & _). Qed.

Record ghostInv (st : store) (gs : nat → ghost) : Prop := {
  gi_lb : ∀ i, 0 < lb (gs i) → ∃ f, hasFence st f ∧ lb (gs i) ≤ f;
  gi_knows : ∀ i f, knows (gs i) f → hasFence st f ∨ above st f;
  gi_pending : ∀ i j f, i ≠ j → pending (gs i) = Some f → knows (gs j) f → above st f;
  gi_confirmed : ∀ i j f, i ≠ j → f ∈ confirmed (gs i) → f ∈ confirmed (gs j) → False;
}.

Lemma ghostInv_advanced st st' gs : advanced st st' → ghostInv st gs → ghostInv st' gs.
Proof.
  intros Ha [H1 H2 H3 H4]. split.
  - intros i (f & (g & ? & ?)%Ha & ?)%H1. exists g. split; [done|lia].
  - intros i f [(g & Hg & ?)%Ha|?]%H2; [|right; by eapply above_advanced].
    destruct (decide (f = g)) as [->|]; [by left|]. right. exists g. split; [done|lia].
  - intros i j f Hij Hp Hk. eapply above_advanced; [done|]. by eapply H3.
  - done.
Qed.

(** the key of a fence below one a process created can go *)
Lemma advanced_delete st gs i key :
  ghostInv st gs → (∀ f, parseWriterLeaseKey key = Some (KFence, f) → f < lb (gs i)) →
  advanced st (delete key st).
Proof.
  intros Hi Hk f Hf. destruct (decide (parseWriterLeaseKey key = Some (KFence, f))) as [E|E].
  - specialize (Hk f E). pose proof (hasFence_range _ _ Hf).
    destruct (gi_lb _ _ Hi i) as (g & Hg & ?); [lia|]. exists g. split; [|lia].
    apply hasFence_delete. split; [done|]. rewrite E. intros [= ->]. lia.
  - exists f. split; [by apply hasFence_delete|lia].
Qed.

Definition gupdate (gs : nat → ghost) (i : nat) (g : ghost) : nat → ghost :=
  λ j, if decide (j = i) then g else gs j.

Lemma gupdate_eq gs i g : gupdate gs i g i = g.
Proof. unfold gupdate. by rewrite decide_True. Qed.

Lemma gupdate_ne gs i j g : j ≠ i → gupdate gs i g j = gs j.
Proof. intros ?. unfold gupdate. by rewrite decide_False. Qed.

Lemma ghostInv_create st gs i f key v :
  parseWriterLeaseKey key = Some (KFence, f) → st !! key = None → ghostInv st gs →
  ghostInv (<[key := v]> st) (gupdate gs i (created (gs i) f)).
Proof.
  intros Hk Hn Hi. pose proof (advanced_insert st key v) as Ha.
  assert (∀ j, knows (gs j) f → above (<[key := v]> st) f) as Hold.
  { intros j Hj. eapply above_advanced; [done|].
    destruct (gi_knows _ _ Hi j f Hj) as [(k & Hk' & [w Hw])|?]; [|done].
    apply parse_key_spec in Hk. rewrite Hk in Hk'. injection Hk' as <-. congruence. }
  assert (hasFence (<[key := v]> st) f) as Hf by (apply hasFence_insert; by left).
  apply (ghostInv_advanced _ _ _ Ha) in Hi as [H1 H2 H3 H4]. split.
  - intros j. destruct (decide (j = i)) as [->|Hj]; [|rewrite gupdate_ne by done; apply H1].
    rewrite gupdate_eq. cbn. intros Hlb. destruct (decide (lb (gs i) ≤ f)).
    + exists f. split; [done|lia].
    + destruct (H1 i) as (g & ? & ?).
      { apply hasFence_range in Hf. lia. }
      exists g. split; [done|lia].
  - intros j f'. destruct (decide (j = i)) as [->|Hj]; [|rewrite gupdate_ne by done; apply H2].
    rewrite gupdate_eq. intros [[= <-]|Hc]; [by left|]. apply (H2 i f'). by right.
  - intros j1 j2 f' Hne. destruct (decide (j1 = i)) as [->|H1i].
    + rewrite gupdate_eq, gupdate_ne by done. intros [= <-]. apply Hold.
    + rewrite (gupdate_ne _ _ j1) by done. intros Hp.
      destruct (decide (j2 = i)) as [->|H2i]; [|rewrite gupdate_ne by done; by apply (H3 j1)].
      rewrite gupdate_eq. intros [[= <-]|Hc]; [apply (Hold j1); by left|].
      apply (H3 j1 i); [done..|by right].
  - intros j1 j2 f' Hne. unfold gupdate. repeat case_decide; subst; cbn; try done; eauto.
Qed.

(** a fence found the highest is known to no other process *)
Lemma ghostInv_list st gs i :
  ghostInv st gs → ghostInv st (gupdate gs i (g_list (gs i) (listKeys st))).
Proof.
  intros [H1 H2 H3 H4]. unfold g_list. destruct (pending (gs i)) as [f|] eqn:Hp; cycle 1.
  { split; unfold gupdate; intros *; repeat case_decide; subst; eauto. }
  set (b := match _ with Some m => m <=? f | None => true end).
  assert (b = true → ∀ j, j ≠ i → ¬ knows (gs j) f) as Hb.
  { intros Hb j Hj Hk. destruct (H3 i j f (not_eq_sym Hj) Hp Hk) as (g & Hg & Hlt).
    assert (g ≤ f); [|lia]. apply (scan_listKeys_above st f); [|done]. unfold b in Hb.
    destruct (scanKeys (listKeys st)).1; [by apply Z.leb_le|done]. }
  assert (∀ f', f' ∈ (if b then {[f]} ∪ confirmed (gs i) else confirmed (gs i)) →
    (f' = f ∧ b = true) ∨ f' ∈ confirmed (gs i)) as Hin.
  { intros f'. destruct b; [|by right]. rewrite elem_of_union, elem_of_singleton. tauto. }
  split.
  - intros j. destruct (decide (j = i)) as [->|Hj]; [rewrite gupdate_eq|rewrite gupdate_ne by done];
      apply H1.
  - intros j f'. destruct (decide (j = i)) as [->|Hj]; [|rewrite gupdate_ne by done; apply H2].
    rewrite gupdate_eq. intros [?|[[-> _]|?]%Hin]; [done|apply (H2 i); by left|apply (H2 i); by right].
  - intros j1 j2 f' Hne. destruct (decide (j1 = i)) as [->|Hj1]; [by rewrite gupdate_eq|].
    rewrite (gupdate_ne _ _ j1) by done. intros Hp1.
    destruct (decide (j2 = i)) as [->|Hj2]; [|rewrite gupdate_ne by done; by apply (H3 j1)].
    rewrite gupdate_eq. intros [?|[[-> Hbt]|Hc]%Hin]; [done| |apply (H3 j1 i); [done..|by right]].
    destruct (Hb Hbt j1 Hj1). by left.
  - intros j1 j2 f' Hne. destruct (decide (j1 = i)) as [->|Hj1].
    + rewrite gupdate_eq, gupdate_ne by done.
      intros [[-> Hbt]|Hc]%Hin Hc2; [destruct (Hb Hbt j2 (not_eq_sym Hne)); by right|].
      by apply (H4 i j2 f').
    + rewrite (gupdate_ne _ _ j1) by done. destruct (decide (j2 = i)) as [->|Hj2].
      * rewrite gupdate_eq. intros Hc1 [[-> Hbt]|Hc]%Hin; [destruct (Hb Hbt j1 Hj1); by right|].
        by apply (H4 j1 i f').
      * rewrite gupdate_ne by done. by apply H4.
Qed.

(** *** The invariant of a run *)

Definition poolInv {A} (Q : A → ghost → Prop) (st : store) (ps : list (prog A)) : Prop :=
  ∃ gs, ghostInv st gs ∧ ∀ i p, ps !! i = Some p → okProg Q (gs i) p.

Lemma pool_update {A} (Q : A → ghost → Prop) gs i g (ps : list (prog A)) p :
  (∀ i p, ps !! i = Some p → okProg Q (gs i) p) → okProg Q g p →
  ∀ j q, <[i := p]> ps !! j = Some q → okProg Q (gupdate gs i g j) q.
Proof.
  intros Hps Hp j q Hj. destruct (decide (j = i)) as [->|Hne].
  - rewrite gupdate_eq. apply list_lookup_insert_Some in Hj as [(_ & <- & _)|[? _]]; done.
  - rewrite gupdate_ne by done. rewrite list_lookup_insert_ne in Hj by done. by apply Hps.
Qed.

Lemma gupdate_same gs i st : ghostInv st gs → ghostInv st (gupdate gs i (gs i)).
Proof. intros [H1 H2 H3 H4]. split; unfold gupdate; intros *; repeat case_decide; subst; eauto. Qed.

(** a call of process [i] moves the fences on, keeps the ghosts' invariant and
    leaves a program that is as good *)
Lemma procStep_inv {A} (Q : A → ghost → Prop) st gs i (p : prog A) st' p' :
  procStep st p st' p' → ghostInv st gs → okProg Q (gs i) p →
  advanced st st' ∧ ∃ g, ghostInv st' (gupdate gs i g) ∧ okProg Q g p'.
Proof.
  intros Hs Hi Hp.
  assert (∀ st2 q, advanced st st2 → okProg Q (gs i) q →
    advanced st st2 ∧ ∃ g, ghostInv st2 (gupdate gs i g) ∧ okProg Q g q) as Hsame.
  { intros st2 q Ha Hq. split; [done|]. exists (gs i). split; [|done].
    apply gupdate_same. by eapply ghostInv_advanced. }
  destruct Hs as [st k|st k|st key k|st key k|st key v k|st key v k|st key v k|st key v k Hn|st key v k Hs
    |st key v k|st key v k Hn|st key k|st key k|st key k|st k t|st k n|st ms k]; cbn [okProg] in Hp.
  - destruct Hp as [_ Hp]. split; [done|]. eexists. split; [by apply ghostInv_list|apply Hp].
  - by apply Hsame; [|apply Hp].
  - by apply Hsame; [|apply Hp].
  - by apply Hsame; [|apply Hp].
  - apply Hsame; [apply advanced_insert|apply Hp].
  - by apply Hsame; [|apply Hp].
  - apply Hsame; [apply advanced_insert|apply Hp].
  - destruct Hp as (_ & _ & Hp). split; [apply advanced_insert|]. exists (g_created (gs i) key).
    split; [|done]. revert Hp. unfold g_created.
    destruct (parseWriterLeaseKey key) as [[[] f]|] eqn:E; intros _;
      [by apply ghostInv_create|apply gupdate_same, (ghostInv_advanced st); [apply advanced_insert|done]..].
  - by apply Hsame; [|apply Hp].
  - by apply Hsame; [|apply Hp].
  - apply Hsame; [apply advanced_insert|apply Hp].
  - destruct Hp as [Hk Hp]. apply Hsame; [by eapply advanced_delete|apply Hp].
  - by apply Hsame; [|apply Hp].
  - destruct Hp as [Hk Hp]. apply Hsame; [by eapply advanced_delete|apply Hp].
  - by apply Hsame; [|apply Hp].
  - by apply Hsame; [|apply Hp].
  - by apply Hsame.
Qed.

Lemma pool_inv {A} (Q : A → ghost → Prop) c c' :
  rtc (step (A := A)) c c' → poolInv Q c.1 c.2 → poolInv Q c'.1 c'.2 ∧ advanced c.1 c'.1.
Proof.
  induction 1 as [|c1 c2 c3 Hs _ IH]; intros Hi; [done|].
  destruct Hs as [st ps i p st' p' Hps Hs]. destruct Hi as (gs & Hi & Hok). cbn [fst snd] in *.
  destruct (procStep_inv Q _ gs i _ _ _ Hs Hi (Hok i p Hps)) as (Ha & g & Hi' & Hp').
  destruct IH as [Hend Ha']; [|split; [done|by etrans]].
  exists (gupdate gs i g). split; [done|]. by apply pool_update.
Qed.

(** what a process is started with *)
Record Start := MkStart {
  s_options : WriterLeaseOptions;
  s_fuel : nat;
  s_maxWaitMs : Z;
  s_floor : option Z;
  s_cmds : list Command;
}.

Definition start (s : Start) : prog (list Z) :=
  process (s_options s) (s_fuel s) (s_maxWaitMs s) (s_floor s) (s_cmds s).

(** ** Running one process

    With no other process at work and no failing call, a program runs to its
    end: the clock moves only while it waits, and nonces are numbered. *)

Record env := MkEnv { e_store : store; e_now : Z; e_nonces : nat }.

Fixpoint run {A} (e : env) (p : prog A) : env * A :=
  match p with
  | Ret a => (e, a)
  | DoList k => run e (k (Some (listKeys (e_store e))))
  | DoGet key k => run e (k (Some (e_store e !! key)))
  | DoPut key v k => run (MkEnv (<[key := v]> (e_store e)) (e_now e) (e_nonces e)) (k (Some tt))
  | DoPutIfAbsent key v k =>
      match e_store e !! key with
      | Some _ => run e (k (Some false))
      | None => run (MkEnv (<[key := v]> (e_store e)) (e_now e) (e_nonces e)) (k (Some true))
      end
  | DoDelete key k => run (MkEnv (delete key (e_store e)) (e_now e) (e_nonces e)) (k (Some tt))
  | DoNow k => run e (k (e_now e))
  | DoNonce k => run (MkEnv (e_store e) (e_now e) (S (e_nonces e))) (k (pretty (e_nonces e)))
  | DoDelay ms k => run (MkEnv (e_store e) (e_now e + Z.max 0 ms) (e_nonces e)) k
  end.

Lemma run_bind {A B} e (p : prog A) (f : A → prog B) :
  run e (p ≫= f) = run (run e p).1 (f (run e p).2).
Proof.
  cbv [mbind prog_bind]. revert e.
  induction p as [a|k IH|key k IH|key v k IH|key v k IH|key k IH|k IH|k IH|ms k IH];
    intros e; cbn [bind run]; try done; try apply IH.
  destruct (e_store e !! key); apply IH.
Qed.

(** such a run is one of the interleavings *)
Lemma run_steps {A} e (ps : list (prog A)) i p :
  ps !! i = Some p →
  rtc step (e_store e, ps) (e_store (run e p).1, <[i := Ret (run e p).2]> ps).
Proof.
  revert e ps. induction p as [a|k IH|key k IH|key v k IH|key v k IH|key k IH|k IH|k IH|ms k IH];
    intros e ps Hi; cbn [run]; match type of Hi with _ = Some ?p1 => set (p0 := p1) in * end.
  { by rewrite list_insert_id. }
  all: assert (∀ q, <[i := q]> ps !! i = Some q) as Hq
    by (intros q; apply list_lookup_insert_eq; by eapply lookup_lt_Some).
  all: assert (∀ e' q, procStep (e_store e) p0 (e_store e') q →
    rtc step (e_store e', <[i := q]> ps) (e_store (run e' q).1, <[i := Ret (run e' q).2]> (<[i := q]> ps)) →
    rtc step (e_store e, ps) (e_store (run e' q).1, <[i := Ret (run e' q).2]> ps)) as Hstep
    by (intros e' q Hs Hr; eapply rtc_l; [by eapply step_proc|]; by rewrite list_insert_insert_eq in Hr).
  - apply Hstep; [constructor|by apply IH].
  - apply Hstep; [constructor|by apply IH].
  - apply (Hstep (MkEnv _ _ _)); [constructor|by apply IH].
  - destruct (e_store e !! key) as [w|] eqn:Ek.
    + apply Hstep; [by constructor|by apply IH].
    + apply (Hstep (MkEnv _ _ _)); [by constructor|by apply IH].
  - apply (Hstep (MkEnv _ _ _)); [constructor|by apply IH].
  - apply Hstep; [constructor|by apply IH].
  - apply (Hstep (MkEnv _ _ _)); [constructor|by apply IH].
  - apply (Hstep (MkEnv _ _ _)); [constructor|by apply IH].
Qed.

(** C2: any number of processes run the lease's operations at once on one
    store, from any state of it: each takes the lease with its own options,
    wait and floor, then renews, asserts, releases, advances, force-releases
    and inspects in any order. However their calls interleave, whatever the
    clocks say and whichever calls fail, with or without effect, two processes
    are never given a hold of the same fence, and the highest fence in the
    store never goes back. *)
Theorem one_writer_per_fence (st : store) (starts : list Start) (st' : store) (ps : list (prog (list Z)))
    (i j : nat) (fi fj : list Z) (f : Z) :
  rtc step (st, start <$> starts) (st', ps) →
  (∀ f, hasFence st f → ∃ g, hasFence st' g ∧ f ≤ g) ∧
  (i ≠ j → ps !! i = Some (Ret fi) → ps !! j = Some (Ret fj) → f ∈ fi → f ∈ fj → False).
Proof.
  intros Hr. destruct (pool_inv allConfirmed _ _ Hr) as [(gs & Hi & Hok) Ha].
  - exists (λ _, MkGhost 0 None ∅). split.
    + split; unfold knows; cbn; try done; set_solver.
    + cbn. intros k p (s & -> & _)%list_lookup_fmap_Some. apply ok_process.
  - split; [exact Ha|]. intros Hij Hpi Hpj Hfi Hfj. apply Hok in Hpi, Hpj.
    cbn [okProg] in Hpi, Hpj. unfold allConfirmed in *. rewrite Forall_forall in Hpi, Hpj.
    by apply (gi_confirmed _ _ Hi i j f Hij); [apply Hpi|apply Hpj].
Qed.

Definition sampleOptions (name : string) : WriterLeaseOptions :=
  MkOptions (MkHolder name "host" 7 None) 30000 (λ _, Unknown) None None None.

Definition sampleA : Start := MkStart (sampleOptions "a") 3 1000 None [CRenew; CAdvance; CRelease].
Definition sampleB : Start := MkStart (sampleOptions "b") 3 1000 (Some 7) [CAssert].

Definition sampleEnd : env := (run (run (MkEnv ∅ 0 0) (start sampleA)).1 (start sampleB)).1.

Lemma sample_run :
  rtc step (∅, start <$> [sampleA; sampleB]) (e_store sampleEnd, [Ret [2; 1]; Ret [8]]).
Proof.
  etrans; [apply (run_steps (MkEnv ∅ 0 0) _ 0); reflexivity|].
  replace (run (MkEnv ∅ 0 0) (start sampleA)).2 with [2; 1] by (vm_compute; reflexivity).
  etrans; [apply (run_steps _ _ 1); reflexivity|].
  fold sampleEnd. replace (run _ _).2 with [8] by (vm_compute; reflexivity). done.
Qed.

Lemma one_writer_per_fence_witness :
  (∀ f, hasFence ∅ f → ∃ g, hasFence (e_store sampleEnd) g ∧ f ≤ g) ∧ (8 ∈ [2; 1] → 8 ∈ [8] → False).
Proof.
  destruct (one_writer_per_fence _ _ _ _ 0%nat 1%nat [2; 1] [8] 8 sample_run) as [Hf Hd].
  split; [exact Hf|]. apply Hd; [discriminate|reflexivity|reflexivity].
Defined.

End WriterLeaseProps.
