(* ===== verification/WriterLeaseRuns.v ===== *)
(** * Runs of the writer lease

    One process at work on the store: what it reads, when it is given the
    lease, what it leaves there, and that waiting for it ends. *)

From S2P Require Import Prelude JsString DataMetadata ProcessLiveness WriterLease WriterLeaseProps.
Local Open Scope Z_scope.

Module WriterLeaseRuns.
Import ProcessLiveness WriterLease WriterLeaseProps.

(** ** What the store says *)

Definition lookupKey (st : store) (kind : KeyKind) (f : Z) : option JsValue :=
  match keyOf kind f with Ok key => st !! key | Throw _ => None end.

(** the records a reader that is not disturbed finds *)
Definition recordsOf (st : store) : WriterLeaseRecords :=
  let '(best, rel) := scanKeys (listKeys st) in
  match best with
  | None => MkRecords None None None false
  | Some f =>
      let rec := parseFenceRecord (lookupKey st KFence f) f in
      MkRecords (Some f) rec (parseHeartbeat (lookupKey st KHeartbeat f) f (nonce <$> rec))
        (bool_decide (f ∈ rel))
  end.

Lemma hasFence_lookup st f : hasFence st f ↔ is_Some (lookupKey st KFence f).
Proof.
  unfold hasFence, lookupKey. destruct (keyOf KFence f) as [key|].
  - split; [by intros (k & [= <-] & ?)|eauto].
  - split; [by intros (k & ? & _)|by intros [? ?]].
Qed.

(** the best of the scan is the highest fence in the store *)
Lemma scan_best st :
  match (scanKeys (listKeys st)).1 with
  | Some m => hasFence st m ∧ ∀ f, hasFence st f → f ≤ m
  | None => ∀ f, ¬ hasFence st f
  end.
Proof.
  pose proof (proj1 (scan_spec (listKeys st))) as Hs.
  destruct (scanKeys (listKeys st)).1 as [m|] eqn:E.
  - destruct Hs as [(key & Hin & Hp%parse_key_spec) _]. apply elem_of_listKeys in Hin as [? _].
    split; [by exists key|]. apply scan_listKeys_above. by rewrite E.
  - intros f (key & Hk%parse_key_spec & Hs'). apply (Hs key f); [|done].
    apply elem_of_listKeys. eauto using key_starts.
Qed.

Lemma scan_highest st m :
  hasFence st m → (∀ f, hasFence st f → f ≤ m) → (scanKeys (listKeys st)).1 = Some m.
Proof.
  intros Hm Hmax. pose proof (scan_best st) as Hs. destruct (scanKeys (listKeys st)).1 as [m'|].
  - destruct Hs as [H1 H2]. f_equal. specialize (H2 m Hm). specialize (Hmax m' H1). lia.
  - by destruct (Hs m).
Qed.

Lemma scan_released st f :
  f ∈ (scanKeys (listKeys st)).2 ↔ is_Some (lookupKey st KReleased f).
Proof.
  rewrite (proj2 (scan_spec (listKeys st)) f). unfold lookupKey. split.
  - intros (key & [Hs _]%elem_of_listKeys & Hp%parse_key_spec). by rewrite Hp.
  - destruct (keyOf KReleased f) as [key|] eqn:E; [|by intros [? ?]]. intros Hs. exists key.
    apply parse_key_spec in E. rewrite elem_of_listKeys. eauto using key_starts.
Qed.

Lemma run_read e : run e readWriterLeaseRecords = (e, Val (recordsOf (e_store e))).
Proof.
  unfold readWriterLeaseRecords, recordsOf, lookupKey. cbn [run].
  pose proof (scan_best (e_store e)) as Hs. destruct (scanKeys (listKeys (e_store e))) as [[f|] rel]; [|done].
  destruct Hs as [Hf%hasFence_range _]. unfold fenceKey, heartbeatKey.
  destruct (keyOf_total KFence f Hf) as [fk ->]. destruct (keyOf_total KHeartbeat f Hf) as [hk ->]. done.
Qed.

Lemma fence_recordsOf st : fence (recordsOf st) = (scanKeys (listKeys st)).1.
Proof. unfold recordsOf. by destruct (scanKeys (listKeys st)) as [[f|] rel]. Qed.

(** ** What a hold finds *)

(** a hold stays as long as its fence is the highest and is not released *)
Lemma run_check_current e h :
  (∀ f, hasFence (e_store e) f → f ≤ holdFence h) → lookupKey (e_store e) KReleased (holdFence h) = None →
  run e (check h) = (e, (h, Val (lost h))).
Proof.
  intros Hmax Hrel. unfold check. cbn [run].
  pose proof (scan_best (e_store e)) as Hb. pose proof (scan_released (e_store e) (holdFence h)) as Hr.
  destruct (scanKeys (listKeys (e_store e))) as [best rel]. cbn [fst snd] in *.
  replace (holdFence h <? _) with false.
  - rewrite bool_decide_eq_false_2; [done|]. rewrite Hr, Hrel. by intros [? ?].
  - symmetry. apply Z.ltb_ge. destruct best as [m|]; [|lia]. destruct Hb as [?%Hmax _]. lia.
Qed.

Lemma run_check_fenced e h m :
  hasFence (e_store e) m → (∀ f, hasFence (e_store e) f → f ≤ m) → holdFence h < m →
  let lost := MkFenced (Some (holdFence h)) (Some m) TakenOver in
  run e (check h) = (e, (MkHold (h_record h) (Some lost) (h_released h), Val (Some lost))).
Proof.
  intros Hm Hmax Hlt. unfold check. cbn [run]. pose proof (scan_highest _ _ Hm Hmax) as Hs.
  destruct (scanKeys (listKeys (e_store e))) as [best rel]. cbn [fst] in Hs. subst best.
  rewrite Z.max_r by lia. rewrite (proj2 (Z.ltb_lt _ _)) by lia. done.
Qed.

Lemma run_renew_current e h key :
  (∀ f, hasFence (e_store e) f → f ≤ holdFence h) → lookupKey (e_store e) KReleased (holdFence h) = None →
  lost h = None → heartbeatKey (holdFence h) = Ok key →
  run e (renew h) =
  (MkEnv (<[key := heartbeatToJSON (holdFence h) (nonce (h_record h)) (e_now e)]> (e_store e)) (e_now e)
     (e_nonces e), (h, Val true)).
Proof.
  intros Hmax Hrel Hlost Hk. unfold renew. rewrite Hlost, run_bind, run_check_current by done.
  rewrite Hlost. cbn [fst snd]. by rewrite Hk.
Qed.

(** ** Pruning *)

Definition prunable (f : Z) (key : string) : bool :=
  match parseWriterLeaseKey key with Some (_, f0) => f0 <? f - 1 | None => false end.

Lemma run_pruneKeys f keys e :
  ∃ st', run e (pruneKeys f keys) = (MkEnv st' (e_now e) (e_nonces e), tt) ∧
    ∀ key, st' !! key = if prunable f key && bool_decide (key ∈ keys) then None else e_store e !! key.
Proof.
  revert e. induction keys as [|key keys IH]; intros e.
  - exists (e_store e). split; [by destruct e|]. intros key.
    by rewrite bool_decide_eq_false_2, andb_false_r by apply not_elem_of_nil.
  - assert (∀ e0, e_now e0 = e_now e → e_nonces e0 = e_nonces e →
      (∀ k, e_store e0 !! k = if prunable f key && bool_decide (k = key) then None else e_store e !! k) →
      ∃ st', run e0 (pruneKeys f keys) = (MkEnv st' (e_now e) (e_nonces e), tt) ∧
        ∀ k, st' !! k = if prunable f k && bool_decide (k ∈ key :: keys) then None else e_store e !! k)
      as Hrest.
    { intros e0 Hn Hc Hs. destruct (IH e0) as (st' & Hrun & Hst'). exists st'.
      rewrite Hrun, Hn, Hc. split; [done|]. intros k. rewrite Hst', Hs.
      destruct (decide (k = key)) as [->|Hne].
      - rewrite !(bool_decide_eq_true_2 (key = key)) by done.
        rewrite (bool_decide_eq_true_2 (key ∈ key :: keys)) by apply list_elem_of_here.
        rewrite !andb_true_r. by destruct (prunable f key), (bool_decide (key ∈ keys)).
      - rewrite (bool_decide_eq_false_2 (k = key)), andb_false_r by done.
        rewrite (bool_decide_ext (k ∈ key :: keys) (k ∈ keys)); [done|].
        rewrite elem_of_cons. tauto. }
    cbn [pruneKeys]. pose proof Hrest as Hskip. unfold prunable in Hrest at 1.
    destruct (parseWriterLeaseKey key) as [[kd f0]|] eqn:E;
      [|apply Hrest; try done; by intros k].
    destruct (f0 <? f - 1) eqn:E'; [|apply Hrest; try done; by intros k].
    cbn [run]. apply Hrest; [done..|]. intros k. cbn [e_store].
    destruct (decide (k = key)) as [->|Hne].
    + rewrite lookup_delete_eq. by rewrite bool_decide_eq_true_2.
    + rewrite lookup_delete_ne by done. by rewrite bool_decide_eq_false_2.
Qed.

Lemma run_prune f e :
  ∃ st', run e (prune f) = (MkEnv st' (e_now e) (e_nonces e), Val tt) ∧
    ∀ key, st' !! key = if prunable f key then None else e_store e !! key.
Proof.
  unfold prune. cbn [run]. rewrite run_bind.
  destruct (run_pruneKeys f (listKeys (e_store e)) e) as (st' & -> & Hst'). cbn [fst snd run].
  exists st'. split; [done|]. intros key. rewrite Hst'. destruct (prunable f key) eqn:Hp; [|done].
  cbn [andb]. destruct (bool_decide (key ∈ listKeys (e_store e))) eqn:Hin; [done|].
  apply bool_decide_eq_false in Hin. rewrite elem_of_listKeys in Hin.
  unfold prunable in Hp. destruct (parseWriterLeaseKey key) as [[kd f0]|] eqn:E; [|done].
  apply key_starts in E. destruct (e_store e !! key); [|done]. destruct Hin; eauto.
Qed.

(** ** Taking the lease *)

(** a holder whose record can be read back *)
Definition validIdentity (i : ProcessIdentity) : Prop :=
  isField (Some (VStr (host i))) = Some (host i) ∧
  optionalField (VStr <$> bootId i) = Some (bootId i) ∧
  optionalField (VStr <$> startTime i) = Some (startTime i).

Definition validHolder (h : WriterLeaseHolder) : Prop :=
  isSafeInteger (pid h) = true ∧ ∀ i, h_process h = Some i → validIdentity i.

Lemma parseFenceRecord_toJSON r :
  validHolder (fr_holder r) → isSafeInteger (ttlMs r) = true →
  parseFenceRecord (Some (recordToJSON r)) (fr_fence r) = Some r.
Proof.
  destruct r as [[h hn p i] f n t a]. cbn [fr_holder fr_fence ttlMs]. intros [Hp Hi] Ht.
  unfold parseFenceRecord, recordToJSON, decode, DataMetadata.readNumber, field_string.
  cbn [mbind option_bind fr_holder fr_fence ttlMs holder hostname pid h_process nonce acquiredAt].
  rewrite !assoc_get_app, !assoc_get_optField. cbn [assoc_get]. eval_keys.
  assert (parseProcessIdentity (identityToJSON <$> i) = i) as Hproc.
  { destruct i as [i|]; [|done]. destruct (Hi i eq_refl) as (? & ? & ?).
    by apply parseProcessIdentity_toJSON. }
  rewrite bool_decide_eq_true_2 by (by destruct i). unfold safeNumber. cbn [pid] in Hp.
  destruct i as [i|]; cbn [fmap option_fmap option_map] in *;
    cbn [mbind option_bind]; rewrite Hp; cbn [mbind option_bind]; rewrite Ht; cbn [mbind option_bind];
    by rewrite Hproc.
Qed.

(** the store a writer leaves after it took [f] at [now] with a nonce *)
Definition takenStore (o : WriterLeaseOptions) (st : store) (f now : Z) (n : string) (st' : store) : Prop :=
  ∀ key, st' !! key =
    if prunable f key then None
    else match parseWriterLeaseKey key with
         | Some (KFence, f') => if f' =? f then Some (recordToJSON (MkRecord (o_holder o) f n (o_ttlMs o) now))
                                else st !! key
         | Some (KHeartbeat, f') => if f' =? f then Some (heartbeatToJSON f n now) else st !! key
         | _ => st !! key
         end.

Lemma lookupKey_eq st k f key : keyOf k f = Ok key → lookupKey st k f = st !! key.
Proof. intros Hk. unfold lookupKey. by rewrite Hk. Qed.

Lemma run_take o e f :
  fenceRange f → (∀ g, hasFence (e_store e) g → g < f) → lookupKey (e_store e) KReleased f = None →
  let n := pretty (e_nonces e) in
  ∃ st', run e (take o f) =
    (MkEnv st' (e_now e) (S (e_nonces e)),
     Val (Some (MkHold (MkRecord (o_holder o) f n (o_ttlMs o) (e_now e)) None false))) ∧
    takenStore o (e_store e) f (e_now e) n st'.
Proof.
  intros Hf Hhi Hrel n. unfold take. cbn [run e_now]. unfold fenceKey.
  destruct (keyOf_total KFence f Hf) as [fk Hfk]. rewrite Hfk. cbn [run e_store].
  assert (e_store e !! fk = None) as Hnone.
  { destruct (e_store e !! fk) eqn:E; [|done]. assert (f < f); [|lia]. apply Hhi. exists fk. eauto. }
  rewrite Hnone. fold n. set (rec := MkRecord (o_holder o) f n (o_ttlMs o) (e_now e)). cbn [e_now e_nonces].
  set (e1 := MkEnv (<[fk := recordToJSON rec]> (e_store e)) (e_now e) (S (e_nonces e))).
  set (h := MkHold rec None false). rewrite run_bind.
  destruct (keyOf_total KHeartbeat f Hf) as [hk Hhk].
  rewrite (run_renew_current e1 h hk); [|..|done|exact Hhk].
  2: { intros g [Hp|Hg]%hasFence_insert; [|apply Hhi in Hg; cbn; lia].
    apply parse_key_spec in Hfk. rewrite Hfk in Hp. injection Hp as <-. cbn. lia. }
  2: { cbn [holdFence h_record h rec fr_fence e_store e1].
    destruct (keyOf_total KReleased f Hf) as [rk Hrk]. rewrite (lookupKey_eq _ _ _ _ Hrk) in Hrel.
    change (holdFence h) with f. rewrite (lookupKey_eq _ _ _ _ Hrk), lookup_insert_ne; [done|]. intros ->.
    apply parse_key_spec in Hrk, Hfk. congruence. }
  cbn [fst snd]. rewrite run_bind.
  match goal with |- context [run ?e2 (prune f)] =>
    destruct (run_prune f e2) as (st' & -> & Hst') end.
  exists st'. split; [done|]. intros key. rewrite Hst'. destruct (prunable f key); [done|].
  cbn [e_store e_now e1]. apply parse_key_spec in Hhk, Hfk.
  destruct (decide (key = hk)) as [->|Hne1].
  { rewrite lookup_insert_eq, Hhk. by rewrite Z.eqb_refl. }
  rewrite lookup_insert_ne by done. destruct (decide (key = fk)) as [->|Hne2].
  { rewrite lookup_insert_eq, Hfk. by rewrite Z.eqb_refl. }
  rewrite lookup_insert_ne by done.
  destruct (parseWriterLeaseKey key) as [[[] f']|] eqn:E; try done; destruct (Z.eqb_spec f' f) as [->|]; try done;
    apply parse_key_spec in E, Hhk, Hfk; congruence.
Qed.

Lemma takenStore_lookup o st f now n st' k f' :
  takenStore o st f now n st' → fenceRange f' →
  lookupKey st' k f' =
    if f' <? f - 1 then None
    else match k with
         | KFence => if f' =? f then Some (recordToJSON (MkRecord (o_holder o) f n (o_ttlMs o) now))
                     else lookupKey st k f'
         | KHeartbeat => if f' =? f then Some (heartbeatToJSON f n now) else lookupKey st k f'
         | KReleased => lookupKey st k f'
         end.
Proof.
  intros Ht Hf'. destruct (keyOf_total k f' Hf') as [key Hk]. rewrite !(lookupKey_eq _ _ _ _ Hk), Ht.
  unfold prunable. apply parse_key_spec in Hk. rewrite Hk. by destruct k.
Qed.

Lemma takenStore_fences o st f now n st' :
  takenStore o st f now n st' → fenceRange f → (∀ g, hasFence st g → g < f) →
  ∀ g, hasFence st' g ↔ g = f ∨ (hasFence st g ∧ g = f - 1).
Proof.
  intros Ht Hf Hhi g. split.
  - intros Hg. pose proof (hasFence_range _ _ Hg) as Hr. apply hasFence_lookup in Hg.
    rewrite (takenStore_lookup _ _ _ _ _ _ _ _ Ht Hr) in Hg.
    destruct (Z.ltb_spec g (f - 1)); [by destruct Hg|].
    destruct (Z.eqb_spec g f) as [Heq|Hne]; [by left|]. right. apply hasFence_lookup in Hg. split; [done|].
    apply Hhi in Hg. lia.
  - intros [->|[Hg ->]]; apply hasFence_lookup.
    + rewrite (takenStore_lookup _ _ _ _ _ _ _ _ Ht Hf).
      rewrite (proj2 (Z.ltb_ge _ _)) by lia. rewrite Z.eqb_refl. eauto.
    + rewrite (takenStore_lookup _ _ _ _ _ _ _ _ Ht) by (by eapply hasFence_range).
      rewrite (proj2 (Z.ltb_ge _ _)) by lia. rewrite (proj2 (Z.eqb_neq _ _)) by lia.
      by apply hasFence_lookup.
Qed.

Lemma parseHeartbeat_toJSON f n t : parseHeartbeat (Some (heartbeatToJSON f n t)) f (Some n) = Some t.
Proof.
  unfold parseHeartbeat, heartbeatToJSON, decode, DataMetadata.readNumber, field_string.
  cbn [mbind option_bind assoc_get]. eval_keys. cbn [mbind option_bind].
  by rewrite !bool_decide_eq_true_2.
Qed.

(** the records after a take: the taker's, renewed at that moment *)
Lemma takenStore_records o st f now n st' :
  takenStore o st f now n st' → fenceRange f → (∀ g, hasFence st g → g < f) →
  lookupKey st KReleased f = None → validHolder (o_holder o) → isSafeInteger (o_ttlMs o) = true →
  recordsOf st' = MkRecords (Some f) (Some (MkRecord (o_holder o) f n (o_ttlMs o) now)) (Some now) false.
Proof.
  intros Ht Hf Hhi Hrel Hv Httl. pose proof (takenStore_fences _ _ _ _ _ _ Ht Hf Hhi) as Hfs.
  assert ((scanKeys (listKeys st')).1 = Some f) as Hb.
  { apply scan_highest; [apply Hfs; by left|]. intros g [->|[_ ->]]%Hfs; lia. }
  pose proof (scan_released st' f) as Hr. unfold recordsOf.
  destruct (scanKeys (listKeys st')) as [best rel]. cbn [fst snd] in *. subst best.
  assert (f ∉ rel) as Hnr.
  { rewrite Hr, (takenStore_lookup _ _ _ _ _ _ _ _ Ht Hf), Hrel. destruct (f <? f - 1); by intros [? ?]. }
  rewrite !(takenStore_lookup _ _ _ _ _ _ _ _ Ht Hf), (proj2 (Z.ltb_ge f (f - 1))) by lia.
  rewrite Z.eqb_refl.
  pose proof (parseFenceRecord_toJSON (MkRecord (o_holder o) f n (o_ttlMs o) now) Hv Httl) as Hp.
  cbn [fr_fence] in Hp. rewrite Hp.
  cbn [fmap option_fmap option_map nonce]. rewrite parseHeartbeat_toJSON.
  by rewrite bool_decide_eq_false_2.
Qed.

(** the fence [acquire] takes *)
Definition nextFence (st : store) (floor : option Z) : Z :=
  Z.max (default 0 (fence (recordsOf st))) (default 0 floor) + 1.

Lemma nextFence_above st floor g : hasFence st g → g < nextFence st floor.
Proof.
  intros Hg. unfold nextFence. rewrite fence_recordsOf. pose proof (scan_best st) as Hs.
  destruct (scanKeys (listKeys st)).1 as [m|]; cbn [default from_option id]; [|by destruct (Hs g)].
  destruct Hs as [_ Hmax]. apply Hmax in Hg. unfold id. lia.
Qed.

Lemma nextFence_pos st floor : 1 ≤ nextFence st floor.
Proof.
  unfold nextFence. rewrite fence_recordsOf. pose proof (scan_best st) as Hs.
  destruct (scanKeys (listKeys st)).1 as [m|]; cbn [default from_option]; [|lia].
  destruct Hs as [?%hasFence_range _]. unfold id. lia.
Qed.

Lemma run_acquire_free o e fuel maxWaitMs floor :
  isHeld (judge o (recordsOf (e_store e)) (e_now e)) = false →
  let next := nextFence (e_store e) floor in
  next ≤ MAX_FENCE → lookupKey (e_store e) KReleased next = None →
  ∃ st', run e (acquire o (S fuel) maxWaitMs floor) =
    (MkEnv st' (e_now e) (S (e_nonces e)),
     Val (MkHold (MkRecord (o_holder o) next (pretty (e_nonces e)) (o_ttlMs o) (e_now e)) None false)) ∧
    takenStore o (e_store e) next (e_now e) (pretty (e_nonces e)) st'.
Proof.
  intros Hheld next Hmax Hrel. unfold acquire. cbn [run acquireLoop]. rewrite run_bind, run_read.
  cbn [fst snd run]. rewrite Hheld. fold (nextFence (e_store e) floor). fold next. rewrite run_bind.
  destruct (run_take o e next) as (st' & -> & Ht).
  - split; [apply nextFence_pos|done].
  - intros g. apply nextFence_above.
  - done.
  - by exists st'.
Qed.

(** C18: when the lease is free, released, expired or its holder's process
    gone, and nobody interferes, [acquire] is given it at once, whatever it
    was prepared to wait: the hold is of the fence after the highest one and
    the floor, that fence and the one before are the only ones left, the
    record reads back, every other process sees the lease held until the
    heartbeat is older than the TTL and the skew, the new hold asserts, and a
    hold of an earlier fence finds out that it was taken over, and by which
    fence. *)
Theorem free_lease_is_acquired (o : WriterLeaseOptions) (e : env) (fuel : nat) (maxWaitMs : Z)
    (floor : option Z) (next : Z) :
  next = nextFence (e_store e) floor →
  isHeld (judge o (recordsOf (e_store e)) (e_now e)) = false →
  next ≤ MAX_FENCE → lookupKey (e_store e) KReleased next = None →
  validHolder (o_holder o) → isSafeInteger (o_ttlMs o) = true →
  ∃ st' hold,
    run e (acquire o (S fuel) maxWaitMs floor) = (MkEnv st' (e_now e) (S (e_nonces e)), Val hold) ∧
    holdFence hold = next ∧
    (∀ f, hasFence st' f ↔ f = next ∨ (hasFence (e_store e) f ∧ f = next - 1)) ∧
    record (recordsOf st') = Some (h_record hold) ∧
    (∀ o' now', o_judgeHolder o' (h_record hold) ≠ Gone →
       isHeld (judge o' (recordsOf st') now') = true ↔
       now' - e_now e ≤ o_ttlMs o + default WRITER_LEASE_CLOCK_SKEW_MS (o_clockSkewMs o')) ∧
    (∀ e', e_store e' = st' → run e' (assertCurrent hold) = (e', (hold, Val tt))) ∧
    (∀ e' h, e_store e' = st' → lost h = None → holdFence h < next →
       (run e' (assertCurrent h)).2.2 =
       Err (EFenced (MkFenced (Some (holdFence h)) (Some next) TakenOver))).
Proof.
  intros -> Hheld Hmax Hrel Hv Httl. set (next := nextFence (e_store e) floor) in *.
  destruct (run_acquire_free o e fuel maxWaitMs floor Hheld Hmax Hrel) as (st' & Hrun & Ht).
  assert (fenceRange next) as Hf by (split; [apply nextFence_pos|done]).
  pose proof (nextFence_above (e_store e) floor) as Hhi. fold next in Hhi.
  pose proof (takenStore_fences _ _ _ _ _ _ Ht Hf Hhi) as Hfs.
  pose proof (takenStore_records _ _ _ _ _ _ Ht Hf Hhi Hrel Hv Httl) as Hrec.
  eexists st', _. split; [exact Hrun|]. split_and!; [done|done|by rewrite Hrec|..].
  - intros o' now' Hg. unfold judge, judgeWriterLease. rewrite Hrec. cbn [fence released record renewedAt].
    rewrite bool_decide_eq_false_2 by done. cbn [acquiredAt ttlMs].
    set (limit := o_ttlMs o + _). change (default 0 (Some (e_now e))) with (e_now e). rewrite Z.max_id.
    destruct (Z.ltb_spec limit (now' - e_now e)); cbn [isHeld]; split; try done; lia.
  - intros e' He'. unfold assertCurrent. cbn [lost]. rewrite run_bind, run_check_current; [done|..].
    + rewrite He'. intros g [->|[_ ->]]%Hfs; unfold holdFence; cbn [h_record fr_fence]; lia.
    + rewrite He'. change (lookupKey st' KReleased next = None).
      rewrite (takenStore_lookup _ _ _ _ _ _ _ _ Ht Hf), Hrel. by destruct (_ <? _).
  - intros e' h He' Hlost Hlt. unfold assertCurrent. rewrite Hlost, run_bind, (run_check_fenced e' h next); [done|..].
    + rewrite He'. apply Hfs. by left.
    + rewrite He'. intros g [->|[_ ->]]%Hfs; lia.
    + done.
Qed.

Lemma free_lease_is_acquired_witness :
  ∃ st' hold,
    run (MkEnv (e_store sampleEnd) 60000 9) (acquire (sampleOptions "c") 1 0 (Some 3)) =
      (MkEnv st' 60000 10, Val hold) ∧ holdFence hold = 9.
Proof.
  destruct (free_lease_is_acquired (sampleOptions "c") (MkEnv (e_store sampleEnd) 60000 9) 0 0 (Some 3) 9)
    as (st' & hold & Hr & Hf & _).
  - vm_compute. reflexivity.
  - vm_compute. reflexivity.
  - vm_compute. discriminate.
  - vm_compute. reflexivity.
  - split; [reflexivity|]. intros i Hi. discriminate Hi.
  - reflexivity.
  - exists st', hold. split; [exact Hr|exact Hf].
Defined.

(** ** Waiting ends *)

(** [p] never waits, and ends in [Q] *)
Fixpoint direct {A} (Q : A → Prop) (p : prog A) : Prop :=
  match p with
  | Ret a => Q a
  | DoList k => ∀ r, direct Q (k r)
  | DoGet _ k => ∀ r, direct Q (k r)
  | DoPut _ _ k => ∀ r, direct Q (k r)
  | DoPutIfAbsent _ _ k => ∀ r, direct Q (k r)
  | DoDelete _ k => ∀ r, direct Q (k r)
  | DoNow k => ∀ t, direct Q (k t)
  | DoNonce k => ∀ n, direct Q (k n)
  | DoDelay _ _ => False
  end.

Lemma direct_bind {A B} (Q : A → Prop) (R : B → Prop) p f :
  direct Q p → (∀ a, Q a → direct R (f a)) → direct R (p ≫= f).
Proof.
  intros Hp Hf. cbv [mbind prog_bind]. revert Hp.
  induction p as [a|k IH|key k IH|key v k IH|key v k IH|key k IH|k IH|k IH|ms k IH]; cbn [bind direct];
    intros Hp; [by apply Hf|intros r; by apply IH..|done].
Qed.

(** the clock stands still during such a program *)
Lemma run_direct {A} (Q : A → Prop) p e :
  direct Q p → e_now (run e p).1 = e_now e ∧ Q (run e p).2.
Proof.
  revert e. induction p as [a|k IH|key k IH|key v k IH|key v k IH|key k IH|k IH|k IH|ms k IH];
    intros e Hp; cbn [run direct] in *; [done|..|done];
    try (destruct (e_store e !! key)); first [by apply IH | by apply (IH _ (MkEnv _ _ _))].
Qed.

(** neither a busy error nor an end of the fuel *)
Definition plainEnd {A} (r : outcome A) : Prop :=
  match r with Err EFuel | Err (EBusy _ _) => False | _ => True end.

Lemma direct_read : direct plainEnd readWriterLeaseRecords.
Proof.
  unfold readWriterLeaseRecords. cbn [direct]. intros [keys|]; [|done].
  destruct (scanKeys keys) as [[f|] rel]; [|done].
  destruct (fenceKey f), (heartbeatKey f); try done. cbn [direct]. intros [d|]; [|done].
  cbn [direct]. by intros [hb|].
Qed.

Lemma direct_check h : direct (plainEnd ∘ snd) (check h).
Proof.
  unfold check. cbn [direct]. intros [keys|]; [|done]. by destruct (scanKeys keys).
Qed.

Lemma direct_renew h : direct (plainEnd ∘ snd) (renew h).
Proof.
  unfold renew. destruct (lost h); [done|]. eapply direct_bind; [apply direct_check|].
  intros [h' [[e|]|e]] Hr; cbn in Hr; [done| |done].
  destruct (heartbeatKey (holdFence h')); [|done]. cbn [direct]. intros t. by intros [[]|].
Qed.

Lemma direct_deleteHeartbeat h : direct (plainEnd ∘ snd) (deleteHeartbeat h).
Proof.
  unfold deleteHeartbeat. destruct (heartbeatKey _); [|done]. cbn [direct]. by intros [[]|].
Qed.

Lemma direct_release h : direct (plainEnd ∘ snd) (release h).
Proof.
  unfold release. destruct (h_released h); [done|].
  match goal with |- context [lost ?h0] => destruct (lost h0); [apply direct_deleteHeartbeat|] end.
  match goal with |- context [releasedKey ?f] => destruct (releasedKey f); [|done] end.
  cbn [direct]. intros t. intros [b|]; [apply direct_deleteHeartbeat|done].
Qed.

Lemma direct_prune f : direct plainEnd (prune f).
Proof.
  unfold prune. cbn [direct]. intros [keys|]; [|done].
  apply (direct_bind (λ _, True)); [|done]. induction keys as [|key keys IH]; [done|]. cbn [pruneKeys].
  destruct (parseWriterLeaseKey key) as [[k f']|]; [|done]. destruct (f' <? f - 1); [by intros r|done].
Qed.

Lemma direct_take o f : direct plainEnd (take o f).
Proof.
  unfold take. cbn [direct]. intros n t. destruct (fenceKey f); [|done]. cbn [direct].
  intros [[]|]; [|done..]. eapply direct_bind; [apply direct_renew|].
  intros [h [[]|e]] Hr; cbn in Hr.
  - eapply direct_bind; [apply direct_prune|]. by intros [[]|e].
  - eapply direct_bind; [apply direct_release|]. by intros [h' [[]|e]].
  - eapply direct_bind; [apply direct_release|]. by intros [h' r'] _.
Qed.

Section waiting.
Context (o : WriterLeaseOptions) (maxWaitMs floor started r0 : Z).
Hypothesis (Hr0 : 0 < r0) (Hmaxr : r0 ≤ default 2000 (o_maxRetryMs o)).

(** what is left to wait bounds the turns left *)
Definition enoughFuel (fuel : nat) (now : Z) : Prop :=
  maxWaitMs - (now - started) ≤ Z.of_nat fuel * r0 ∧ now - started ≤ Z.max 0 maxWaitMs.

(** the loop ended; a busy error came when the wait was over *)
Definition waitEnded (r : outcome WriterLeaseHold) : Prop :=
  match r with Err EFuel => False | Err (EBusy _ waited) => waited = Z.max 0 maxWaitMs | _ => True end.

Lemma waitOr_ends records retry again fuel e :
  0 ≤ e_now e - started → r0 ≤ retry → enoughFuel fuel (e_now e) →
  (∀ e' retry' fuel', fuel = S fuel' → 0 ≤ e_now e' - started → r0 ≤ retry' → enoughFuel fuel' (e_now e') →
     waitEnded (run e' (again retry')).2) →
  waitEnded (run e (waitOr o records maxWaitMs started retry again)).2.
Proof.
  intros H0 Hret [Hf Hw] Hagain. unfold waitOr. cbn [run].
  destruct (Z.leb_spec maxWaitMs (e_now e - started)); [cbn; lia|]. cbn [run].
  destruct fuel as [|fuel]; [lia|]. rewrite Nat2Z.inj_succ in Hf.
  destruct (Z.min_spec retry (maxWaitMs - (e_now e - started))) as [[? Hm]|[? Hm]]; rewrite Hm;
    apply (Hagain _ _ fuel); unfold enoughFuel; cbn [e_now]; try done; lia.
Qed.

Lemma acquireLoop_ends fuel retry e :
  0 ≤ e_now e - started → r0 ≤ retry → enoughFuel fuel (e_now e) →
  waitEnded (run e (acquireLoop o (S fuel) maxWaitMs floor started retry)).2.
Proof.
  revert retry e. induction fuel as [fuel IH] using lt_wf_ind. intros retry e H0 Hret Hf.
  assert (∀ records e', e_now e' = e_now e →
    waitEnded (run e' (waitOr o records maxWaitMs started retry
      (acquireLoop o fuel maxWaitMs floor started))).2) as Hwait.
  { intros records e' He'. apply (waitOr_ends _ _ _ fuel); rewrite ?He'; [done..|].
    intros e2 retry' fuel' -> H0' Hret' Hf'. apply IH; [lia|done..]. }
  cbn [acquireLoop]. rewrite run_bind, run_read. cbn [fst snd run].
  destruct (isHeld _); [by apply Hwait|]. rewrite run_bind.
  match goal with |- context [take o ?f] => pose proof (run_direct _ _ e (direct_take o f)) as [Hn Hr] end.
  destruct (run e (take o _)) as [e1 r]. cbn [fst snd] in *.
  destruct r as [[h|]|err]; [done| |by destruct err].
  rewrite run_bind, run_read. cbn [fst snd]. by apply Hwait.
Qed.

End waiting.

(** [acquire] does not wait for ever. With delays that pass, and a retry
    delay and a cap on it that are positive, one more turn than the wait holds
    shortest delays is enough for the loop to end; and when it gives up because
    the lease stays held, it has waited exactly as long as it was allowed to. *)
Lemma waiting_ends (o : WriterLeaseOptions) (e : env) (fuel : nat) (maxWaitMs : Z) (floor : option Z)
    (shortest : Z) :
  shortest = Z.min (default 250 (o_retryMs o)) (default 2000 (o_maxRetryMs o)) →
  0 < shortest → maxWaitMs ≤ Z.of_nat fuel * shortest →
  match (run e (acquire o (S fuel) maxWaitMs floor)).2 with
  | Err EFuel => False
  | Err (EBusy _ waited) => waited = Z.max 0 maxWaitMs
  | _ => True
  end.
Proof.
  intros -> Hpos Hfuel. unfold acquire. cbn [run].
  eapply (acquireLoop_ends o maxWaitMs (default 0 floor) (e_now e) _ Hpos); [lia..|].
  unfold enoughFuel. lia.
Qed.

(** another process holds the lease and does not give it up *)
Lemma waiting_ends_witness :
  let e := MkEnv (e_store sampleEnd) 0 9 in
  (run e (acquire (sampleOptions "c") 5 1000 None)).2 ≠ Err EFuel ∧
  (run e (acquire (sampleOptions "c") 5 1000 None)).2 =
    Err (EBusy (inspectionOf (recordsOf (e_store sampleEnd)) LHeld) 1000).
Proof.
  intros e.
  pose proof (waiting_ends (sampleOptions "c") e 4 1000 None 250 eq_refl ltac:(lia) ltac:(lia)) as H.
  split; [|vm_compute; reflexivity]. intros Hr. rewrite Hr in H. exact H.
Defined.

End WriterLeaseRuns.
