(* ===== verification/AccessNames.v ===== *)
(** * Principals, subjects, clients, actions and resource selectors

    The value objects of [src/src/domain/access]: [principal.ts],
    [subject.ts], [client.ts], [action.ts], [effect.ts] and
    [resource_selector.ts]. Each is written [kind:rest] and parsed back; the
    theorems give the exact language every parser accepts, that printing
    inverts it, and what a selector pattern matches. *)

From Stdlib Require Import Ascii.
From S2P Require Import Prelude JsString ModelType.

(** ** Enumerations

    A [z.enum] is a type whose values have distinct names; [safeParse] finds
    the value of a name. *)

Class Enum (T : Type) := {
  enum_options : list T;
  enum_name : T → string;
}.

Class EnumLaws (T : Type) `{Enum T} : Prop := {
  enum_complete (x : T) : x ∈ enum_options;
  enum_name_inj (x y : T) : enum_name x = enum_name y → x = y;
}.

#[global] Arguments enum_name : simpl never.
#[global] Arguments enum_options : simpl never.

Definition safeParse {T} `{Enum T} (name : string) : option T :=
  List.find (λ x, bool_decide (enum_name x = name)) enum_options.

Lemma safeParse_Some {T} `{EnumLaws T} (name : string) (x : T) :
  safeParse name = Some x ↔ enum_name x = name.
Proof.
  unfold safeParse. split.
  - intros [_ ?]%find_Some_elem_of. by split_bools.
  - intros <-. destruct (List.find _ _) as [y|] eqn:E.
    + apply find_Some_elem_of in E as [_ E]. split_bools. f_equal.
      by apply enum_name_inj.
    + rewrite find_None_elem_of in E. specialize (E x (enum_complete x)).
      by split_bools.
Qed.

(** [value.indexOf(":")] and the slices before and after it *)
Definition splitColon (value : string) : option (string * string) :=
  match indexOf ":" value with
  | None => None
  | Some colonIndex => Some (str_take colonIndex value, str_drop (S colonIndex) value)
  end.

Lemma splitColon_Some value k r :
  splitColon value = Some (k, r) ↔ value = k +:+ ":" +:+ r ∧ includesChar ":" k = false.
Proof.
  unfold splitColon. split.
  - destruct (indexOf ":" value) as [n|] eqn:E; [|done]. intros [= <- <-].
    apply indexOf_split in E as (? & ? & ?). done.
  - intros [-> Hk]. change (":" +:+ r) with (String ":" r).
    rewrite indexOf_app by done. by rewrite str_take_app, str_drop_app.
Qed.

Module Principal.

Inductive PrincipalKind : Type := user | worker | service.

#[global] Instance PrincipalKind_eq_dec : EqDecision PrincipalKind.
Proof. solve_decision. Defined.

#[global] Instance PrincipalKind_enum : Enum PrincipalKind := {
  enum_options := [user; worker; service];
  enum_name k :=
    match k with user => "user" | worker => "worker" | service => "service" end;
}.

#[global] Instance PrincipalKind_laws : EnumLaws PrincipalKind.
Proof. split; [intros []; set_solver|by intros [] []]. Qed.

Record t : Type := Mk { kind : PrincipalKind; id : string }.

#[global] Instance t_eq_dec : EqDecision t.
Proof. solve_decision. Defined.

Definition SERVICE_PRINCIPAL_IDS : list string := ["scheduler"; "webhook"].

Definition isServicePrincipalId (id : string) : bool :=
  bool_decide (id ∈ SERVICE_PRINCIPAL_IDS).

Definition SERVICE_PRINCIPAL_CHOICES : string :=
  join " or " ((λ id, quoted ("service:" +:+ id)) <$> SERVICE_PRINCIPAL_IDS).

Definition describeAlternatives (items : list string) : string :=
  let qs := quoted <$> items in
  join ", " (removelast qs) +:+ " or " +:+ default "undefined" (last qs).

Definition parsePrincipalOfKinds (value : string) (kinds : list PrincipalKind) : result t :=
  match splitColon value with
  | None =>
      Throw ("Invalid principal " +:+ quoted value +:+ ": expected " +:+
             describeAlternatives ((λ k, enum_name k +:+ ":<id>") <$> kinds))
  | Some (kind, id) =>
      _ ← throw_if (bool_decide (id = ""))
            ("Invalid principal " +:+ quoted value +:+ ": id cannot be empty");
      let invalidKind :=
        Throw ("Invalid principal kind " +:+ quoted kind +:+ ": expected " +:+
               describeAlternatives (enum_name <$> kinds)) in
      match safeParse kind with
      | None => invalidKind
      | Some k =>
          if negb (bool_decide (k ∈ kinds)) then invalidKind
          else
            _ ← throw_if (bool_decide (k = service) && negb (isServicePrincipalId id))
                  ("Invalid principal " +:+ quoted value +:+ ": expected " +:+
                   SERVICE_PRINCIPAL_CHOICES);
            Ok (Mk k id)
      end
  end.

Definition parsePrincipal (value : string) : result t :=
  parsePrincipalOfKinds value enum_options.

Definition principalToString (principal : t) : string :=
  enum_name (kind principal) +:+ ":" +:+ id principal.

(** what the parser accepts beside the shape *)
Definition valid (p : t) : Prop := id p ≠ "" ∧ (kind p = service → id p ∈ SERVICE_PRINCIPAL_IDS).

Lemma principalKind_no_colon (k : PrincipalKind) : includesChar ":" (enum_name k) = false.
Proof. by destruct k. Qed.

Lemma parsePrincipalOfKinds_Ok value kinds p :
  parsePrincipalOfKinds value kinds = Ok p ↔
  value = principalToString p ∧ valid p ∧ kind p ∈ kinds.
Proof.
  unfold parsePrincipalOfKinds, principalToString, valid, isServicePrincipalId. split.
  - destruct (splitColon value) as [[k i]|] eqn:E; [|done].
    apply splitColon_Some in E as [-> _].
    intros (_ & Hid%throw_if_ok & H)%result_bind_ok.
    destruct (safeParse k) as [k'|] eqn:Hk; [|done]. apply safeParse_Some in Hk as <-.
    case_bools; [done|]. apply result_bind_ok in H as (_ & Hs%throw_if_ok & [= <-]).
    split_bools. simpl. split_and!; [done..| |done]. intros ->.
    rewrite bool_decide_eq_true_2 in Hs by done. simpl in Hs. by split_bools.
  - intros (-> & [Hid Hs] & Hin). destruct p as [k i]; cbn [kind id] in *.
    rewrite (proj2 (splitColon_Some _ (enum_name k) i)) by (auto using principalKind_no_colon).
    rewrite (bool_decide_eq_false_2 (i = "")) by done. simpl.
    rewrite (proj2 (safeParse_Some (enum_name k) k)) by done.
    rewrite (bool_decide_eq_true_2 (k ∈ kinds)) by done. simpl.
    destruct (decide (k = service)) as [->|]; [|by rewrite bool_decide_eq_false_2].
    by rewrite !bool_decide_eq_true_2 by auto.
Qed.

Lemma parsePrincipal_Ok (value : string) (p : t) :
  parsePrincipal value = Ok p ↔ value = principalToString p ∧ valid p.
Proof.
  unfold parsePrincipal. rewrite parsePrincipalOfKinds_Ok.
  pose proof (enum_complete (kind p)). tauto.
Qed.

Lemma principalToString_inj p q :
  principalToString p = principalToString q → p = q.
Proof.
  unfold principalToString. intros E.
  assert (splitColon (enum_name (kind p) +:+ ":" +:+ id p) =
          Some (enum_name (kind p), id p)) as Hp
    by (apply splitColon_Some; auto using principalKind_no_colon).
  rewrite E, (proj2 (splitColon_Some _ (enum_name (kind q)) (id q))) in Hp
    by auto using principalKind_no_colon.
  injection Hp as Hk Hi. apply enum_name_inj in Hk. destruct p, q; simpl in *; congruence.
Qed.

End Principal.

Module Subject.

Inductive SubjectKind : Type := user | group | idp_group | collective | service.

#[global] Instance SubjectKind_eq_dec : EqDecision SubjectKind.
Proof. solve_decision. Defined.

#[global] Instance SubjectKind_enum : Enum SubjectKind := {
  enum_options := [user; group; idp_group; collective; service];
  enum_name k :=
    match k with
    | user => "user" | group => "group" | idp_group => "idp-group"
    | collective => "collective" | service => "service"
    end;
}.

#[global] Instance SubjectKind_laws : EnumLaws SubjectKind.
Proof. split; [intros []; set_solver|by intros [] []]. Qed.

Record t : Type := Mk { kind : SubjectKind; name : string }.

#[global] Instance t_eq_dec : EqDecision t.
Proof. solve_decision. Defined.

Definition describeAlternatives (items : list string) : string :=
  let qs := quoted <$> items in
  join ", " (removelast qs) +:+ ", or " +:+ default "undefined" (last qs).

Definition parseSubject (value : string) : result t :=
  match splitColon value with
  | None =>
      Throw ("Invalid subject " +:+ quoted value +:+ ": expected " +:+
             describeAlternatives ((λ k : SubjectKind, enum_name k +:+ ":<name>") <$> enum_options))
  | Some (kind, name) =>
      _ ← throw_if (bool_decide (name = ""))
            ("Invalid subject " +:+ quoted value +:+ ": name cannot be empty");
      match safeParse kind with
      | None =>
          Throw ("Invalid subject kind " +:+ quoted kind +:+ ": expected " +:+
                 describeAlternatives ((λ k : SubjectKind, enum_name k) <$> enum_options))
      | Some k =>
          _ ← throw_if (bool_decide (k = service) && negb (Principal.isServicePrincipalId name))
                ("Invalid subject " +:+ quoted value +:+ ": expected " +:+
                 Principal.SERVICE_PRINCIPAL_CHOICES);
          Ok (Mk k name)
      end
  end.

Definition subjectToString (subject : t) : string :=
  enum_name (kind subject) +:+ ":" +:+ name subject.

Definition valid (s : t) : Prop :=
  name s ≠ "" ∧ (kind s = service → name s ∈ Principal.SERVICE_PRINCIPAL_IDS).

Lemma subjectKind_no_colon (k : SubjectKind) : includesChar ":" (enum_name k) = false.
Proof. by destruct k. Qed.

Lemma subjectToString_inj p q : subjectToString p = subjectToString q → p = q.
Proof.
  unfold subjectToString. intros E.
  assert (splitColon (enum_name (kind p) +:+ ":" +:+ name p) =
          Some (enum_name (kind p), name p)) as Hp
    by (apply splitColon_Some; auto using subjectKind_no_colon).
  rewrite E, (proj2 (splitColon_Some _ (enum_name (kind q)) (name q))) in Hp
    by auto using subjectKind_no_colon.
  injection Hp as Hk Hi. apply enum_name_inj in Hk. destruct p, q; simpl in *; congruence.
Qed.

Lemma parseSubject_Ok (value : string) (s : t) :
  parseSubject value = Ok s ↔ value = subjectToString s ∧ valid s.
Proof.
  unfold parseSubject, subjectToString, valid, Principal.isServicePrincipalId. split.
  - destruct (splitColon value) as [[k i]|] eqn:E; [|done].
    apply splitColon_Some in E as [-> _].
    intros (_ & Hid%throw_if_ok & H)%result_bind_ok.
    destruct (safeParse k) as [k'|] eqn:Hk; [|done]. apply safeParse_Some in Hk as <-.
    apply result_bind_ok in H as (_ & Hs%throw_if_ok & [= <-]).
    split_bools. simpl. split_and!; [done..|]. intros ->.
    rewrite bool_decide_eq_true_2 in Hs by done. simpl in Hs. by split_bools.
  - intros (-> & [Hid Hs]). destruct s as [k i]; cbn [kind name] in *.
    rewrite (proj2 (splitColon_Some _ (enum_name k) i)) by (auto using subjectKind_no_colon).
    rewrite (bool_decide_eq_false_2 (i = "")) by done. simpl.
    rewrite (proj2 (safeParse_Some (enum_name k) k)) by done.
    destruct (decide (k = service)) as [->|]; [|by rewrite bool_decide_eq_false_2].
    by rewrite !bool_decide_eq_true_2 by auto.
Qed.

End Subject.

(** [parsePrincipal] and [parseSubject] accept exactly the printed forms of
    the valid values (a known kind, a non-empty name and, for a service, one of
    the known service ids), return the value that was printed, and distinct
    values are printed apart. *)
Lemma principals_and_subjects_roundtrip :
  (∀ value p, Principal.parsePrincipal value = Ok p ↔
              value = Principal.principalToString p ∧ Principal.valid p) ∧
  (∀ value s, Subject.parseSubject value = Ok s ↔
              value = Subject.subjectToString s ∧ Subject.valid s) ∧
  (∀ p q, Principal.principalToString p = Principal.principalToString q → p = q) ∧
  (∀ s t, Subject.subjectToString s = Subject.subjectToString t → s = t).
Proof.
  split_and!.
  - apply Principal.parsePrincipal_Ok.
  - apply Subject.parseSubject_Ok.
  - apply Principal.principalToString_inj.
  - apply Subject.subjectToString_inj.
Qed.

Module Client.

Inductive ClientKind : Type := direct | integration.

#[global] Instance ClientKind_eq_dec : EqDecision ClientKind.
Proof. solve_decision. Defined.

Definition kindName (k : ClientKind) : string :=
  match k with direct => "direct" | integration => "integration" end.

Definition CLIENT_KINDS : list ClientKind := [direct; integration].

Definition DIRECT_CLIENT_IDS : list string := ["cli"; "dashboard"; "token"].

Record t : Type := Mk { kind : ClientKind; id : string }.

Definition isIdStart (c : ascii) : bool := isLowerAZ c || isDigit c.
Definition isIdPart (c : ascii) : bool := isIdStart c || Ascii.eqb c "-".

(** [/^[a-z0-9][a-z0-9-]{0,62}$/] *)
Definition INTEGRATION_ID_PATTERN (id : string) : bool :=
  match id with
  | EmptyString => false
  | String c rest => isIdStart c && all_chars isIdPart rest && (String.length rest <=? 62)
  end.

Definition parseClient (value : string) : result t :=
  match splitColon value with
  | None => Throw ("Invalid client " +:+ quoted value +:+ ": expected <kind>:<id>")
  | Some (kind, id) =>
      if bool_decide (kind = "direct") then
        if negb (bool_decide (id ∈ DIRECT_CLIENT_IDS)) then
          Throw ("Invalid client " +:+ quoted value +:+ ": expected a direct id of " +:+
                 join ", " DIRECT_CLIENT_IDS)
        else Ok (Mk direct id)
      else if bool_decide (kind = "integration") then
        if negb (INTEGRATION_ID_PATTERN id) then
          Throw ("Invalid client " +:+ quoted value +:+
                 ": an integration id is lowercase letters, digits and hyphens")
        else Ok (Mk integration id)
      else
        Throw ("Invalid client kind " +:+ quoted kind +:+ ": expected " +:+
               join " or " (kindName <$> CLIENT_KINDS))
  end.

Definition clientToString (client : t) : string :=
  kindName (kind client) +:+ ":" +:+ id client.

Definition ABSENT_CLIENT_CONDITION_VALUE : string := "direct:".

Definition clientConditionValue (client : option string) : string :=
  default ABSENT_CLIENT_CONDITION_VALUE client.

Inductive ClientLiteralFinding : Type :=
| never_matches (message : string)
| not_a_boundary (message : string).

Definition not_a_security_boundary : string :=
  ": a client labels how a token was issued, not what presents it, so a copied token still reads the same; a direct id is not a security boundary".

Definition clientPrefixFinding (literal : string) : option ClientLiteralFinding :=
  let direct :=
    existsb (λ kind, startsWith (kindName kind +:+ ":") literal) CLIENT_KINDS ||
    existsb (λ id, startsWith ("direct:" +:+ id) literal) DIRECT_CLIENT_IDS in
  let rest := str_drop (String.length "integration:") literal in
  let integration :=
    startsWith literal "integration:" &&
    (bool_decide (rest = "") || INTEGRATION_ID_PATTERN rest) in
  if negb direct && negb integration then
    Some (never_matches ("client is required to start with " +:+ JSON_stringify literal +:+
                         ", which no token can hold"))
  else if (String.length ABSENT_CLIENT_CONDITION_VALUE <? String.length literal) &&
          startsWith literal ABSENT_CLIENT_CONDITION_VALUE then
    Some (not_a_boundary ("client is required to start with " +:+ literal +:+
                          not_a_security_boundary))
  else None.

Definition clientLiteralFinding (literal : string) : option ClientLiteralFinding :=
  if bool_decide (literal = ABSENT_CLIENT_CONDITION_VALUE) then None
  else
    match parseClient literal with
    | Throw message =>
        Some (never_matches ("client is compared with " +:+ JSON_stringify literal +:+
                             ", which no token can hold: " +:+ message))
    | Ok parsed =>
        if bool_decide (kind parsed = direct) then
          Some (not_a_boundary ("client is compared with " +:+ literal +:+
                                not_a_security_boundary))
        else None
    end.

Definition valid (c : t) : Prop :=
  match kind c with
  | direct => id c ∈ DIRECT_CLIENT_IDS
  | integration => INTEGRATION_ID_PATTERN (id c) = true
  end.

Lemma kindName_no_colon k : includesChar ":" (kindName k) = false.
Proof. by destruct k. Qed.

Lemma parseClient_Ok (value : string) (c : t) :
  parseClient value = Ok c ↔ value = clientToString c ∧ valid c.
Proof.
  unfold parseClient, clientToString, valid. split.
  - destruct (splitColon value) as [[k i]|] eqn:E; [|done].
    apply splitColon_Some in E as [-> _].
    repeat case_bool_decide; subst; simpl; try done.
    + intros [= <-]. simpl. done.
    + destruct (INTEGRATION_ID_PATTERN i) eqn:?; simpl; [|done]. by intros [= <-].
  - intros [-> Hv]. destruct c as [k i]; cbn [kind id] in *.
    rewrite (proj2 (splitColon_Some _ (kindName k) i)) by (auto using kindName_no_colon).
    destruct k; cbn [kindName]; rewrite ?Hv; [|done].
    by rewrite !bool_decide_eq_true_2.
Qed.

(** the values a condition can see for [client] *)
Definition holdable (value : string) : Prop :=
  value = ABSENT_CLIENT_CONDITION_VALUE ∨ ∃ c, valid c ∧ value = clientToString c.

(** A condition literal is reported as never matching exactly when no
    token can hold it, that is when it is neither the value of an absent client
    nor the printed form of a valid one. *)
Lemma clientLiteralFinding_never_matches (literal : string) :
  (∃ message, clientLiteralFinding literal = Some (never_matches message)) ↔ ¬ holdable literal.
Proof.
  unfold clientLiteralFinding, holdable. case_bool_decide as E; [naive_solver|].
  destruct (parseClient literal) as [c|msg] eqn:Hp.
  - apply parseClient_Ok in Hp as [? ?].
    split; [by case_bool_decide; intros [? [=]]|naive_solver].
  - split; [|by eauto]. intros _ [|(c & Hv & ->)]; [done|].
    rewrite (proj2 (parseClient_Ok _ c)) in Hp by done. done.
Qed.

End Client.

Module Action.

Inductive t : Type := run | read | write | approve | signal | tag | admin.

#[global] Instance t_eq_dec : EqDecision t.
Proof. solve_decision. Defined.

#[global] Instance t_enum : Enum t := {
  enum_options := [run; read; write; approve; signal; tag; admin];
  enum_name a :=
    match a with
    | run => "run" | read => "read" | write => "write" | approve => "approve"
    | signal => "signal" | tag => "tag" | admin => "admin"
    end;
}.

#[global] Instance t_laws : EnumLaws t.
Proof. split; [intros []; set_solver|by intros [] []]. Qed.

Definition ACTION_LIST : string := join ", " ((λ a : t, enum_name a) <$> enum_options).

End Action.

Module Effect.

Inductive t : Type := allow | deny.

#[global] Instance t_eq_dec : EqDecision t.
Proof. solve_decision. Defined.

End Effect.

Module ResourceSelector.

Inductive ResourceKind : Type := workflow | model | data | access | vault.

#[global] Instance ResourceKind_eq_dec : EqDecision ResourceKind.
Proof. solve_decision. Defined.

#[global] Instance ResourceKind_enum : Enum ResourceKind := {
  enum_options := [workflow; model; data; access; vault];
  enum_name k :=
    match k with
    | workflow => "workflow" | model => "model" | data => "data"
    | access => "access" | vault => "vault"
    end;
}.

#[global] Instance ResourceKind_laws : EnumLaws ResourceKind.
Proof. split; [intros []; set_solver|by intros [] []]. Qed.

Record t : Type := Mk { kind : ResourceKind; pattern : string }.

#[global] Instance t_eq_dec : EqDecision t.
Proof. solve_decision. Defined.

(** [terminology/behavior_aliases.ts]: behavior is a synonym of model *)
Definition canonicalResourceKind (kind : string) : string :=
  if bool_decide (kind = "behavior") then "model" else kind.

Definition parseResourceSelector (value : string) : result t :=
  match splitColon value with
  | None =>
      Throw ("Invalid resource selector " +:+ quoted value +:+ ": expected " +:+
             quoted "<kind>:<pattern>" +:+ " (e.g. " +:+ quoted "workflow:@acme/*" +:+ ")")
  | Some (kind0, pattern) =>
      let kind := canonicalResourceKind kind0 in
      _ ← throw_if (bool_decide (pattern = ""))
            ("Invalid resource selector " +:+ quoted value +:+ ": pattern cannot be empty");
      match safeParse kind with
      | None =>
          Throw ("Invalid resource kind " +:+ quoted kind +:+ ": expected " +:+
                 quoted "workflow" +:+ ", " +:+ quoted "behavior" +:+ ", " +:+
                 quoted "data" +:+ ", " +:+ quoted "access" +:+ ", or " +:+ quoted "vault")
      | Some parsed =>
          _ ← throw_if
                match indexOf "*" pattern with
                | None => false
                | Some starIndex =>
                    negb (bool_decide (Z.of_nat starIndex = Z.of_nat (String.length pattern) - 1)%Z)
                end
                ("Invalid resource selector " +:+ quoted value +:+
                 ": wildcard * is only supported at the end of a pattern");
          Ok (Mk parsed pattern)
      end
  end.

Definition resourceSelectorToString (selector : t) : string :=
  enum_name (kind selector) +:+ ":" +:+ pattern selector.

Definition canonicalResourceSelectorString (value : string) : string :=
  match parseResourceSelector value with
  | Ok selector => resourceSelectorToString selector
  | Throw _ => value
  end.

Definition resourceSelectorMatches (selector : t) (resourceName : string) : bool :=
  if bool_decide (pattern selector = "*") then true
  else if endsWithChar "*" (pattern selector) then
    startsWith resourceName (dropLast (pattern selector))
  else bool_decide (pattern selector = resourceName).

Definition namesTypePath (pattern : string) : bool :=
  let body := stripAtSlash (stripTrailingStar pattern) in
  includesChar "/" body || includesPair ":" ":" body.

(** [/(\/|\.|::|\s)$/] *)
Fixpoint TRAILING_TYPE_SEPARATOR (s : string) : bool :=
  match s with
  | EmptyString => false
  | String c EmptyString => isSlash c || Ascii.eqb c "." || isSpace c
  | String c ((String d EmptyString) as s') =>
      (Ascii.eqb c ":" && Ascii.eqb d ":") || TRAILING_TYPE_SEPARATOR s'
  | String _ s' => TRAILING_TYPE_SEPARATOR s'
  end.

Definition canonicalTypePattern (pattern : string) : option string :=
  if bool_decide (pattern = "*") then Some "*"
  else
    let wildcard := endsWithChar "*" pattern in
    let prefix := if wildcard then dropLast pattern else pattern in
    match ModelType.create prefix with
    | Throw _ => None
    | Ok mt =>
        let normalized := ModelType.normalized mt in
        if negb wildcard then Some normalized
        else if TRAILING_TYPE_SEPARATOR prefix then Some (normalized +:+ "/*")
        else Some (normalized +:+ "*")
    end.

Definition typePatternMatchesIgnoringAt (canonicalPattern modelType : string) : bool :=
  if bool_decide (canonicalPattern = "*") then true
  else
    let wildcard := endsWithChar "*" canonicalPattern in
    let prefix :=
      stripAtSlash (if wildcard then dropLast canonicalPattern else canonicalPattern) in
    if negb (includesChar "/" prefix) then
      resourceSelectorMatches (Mk model canonicalPattern) modelType
    else
      match ModelType.normalizeModelTypeName modelType with
      | None => false
      | Some type => if wildcard then startsWith type prefix else bool_decide (type = prefix)
      end.

(** a pattern whose only wildcard is its last character *)
Definition wellFormedPattern (p : string) : Prop :=
  p ≠ "" ∧ (includesChar "*" p = false ∨ ∃ q, p = q +:+ "*" ∧ includesChar "*" q = false).

Lemma starAtEnd_iff p :
  match indexOf "*" p with
  | None => false
  | Some i => negb (bool_decide (Z.of_nat i = Z.of_nat (String.length p) - 1)%Z)
  end = false ↔
  includesChar "*" p = false ∨ ∃ q, p = q +:+ "*" ∧ includesChar "*" q = false.
Proof.
  unfold includesChar at 1. destruct (indexOf "*" p) as [i|] eqn:E; [|naive_solver].
  pose proof E as (Hp & Hq & Hi)%indexOf_split. split.
  - intros Hb. split_bools. right. exists (str_take i p). split; [|done].
    rewrite Hp at 1. f_equal. f_equal.
    pose proof (f_equal String.length Hp) as Hl. rewrite str_length_app in Hl.
    rewrite str_length_take in Hl by lia. cbn [String.length] in Hl.
    destruct (str_drop (S i) p); [done|]. simpl in Hl. lia.
  - intros [H|(q & -> & Hq')].
    + done.
    + rewrite indexOf_app in E by done. injection E as <-.
      rewrite bool_decide_eq_true_2; [done|]. rewrite str_length_app. simpl. lia.
Qed.

Definition valid (s : t) : Prop := wellFormedPattern (pattern s).

Lemma resourceKind_no_colon (k : ResourceKind) : includesChar ":" (enum_name k) = false.
Proof. by destruct k. Qed.

Lemma canonicalResourceKind_name k (kd : ResourceKind) :
  canonicalResourceKind k = enum_name kd ↔
  k = enum_name kd ∨ (kd = model ∧ k = "behavior").
Proof.
  unfold canonicalResourceKind. case_bool_decide as E; [subst; by destruct kd; naive_solver|].
  naive_solver.
Qed.

Lemma parseResourceSelector_Ok (value : string) (s : t) :
  parseResourceSelector value = Ok s ↔
  valid s ∧ (value = resourceSelectorToString s ∨
             (kind s = model ∧ value = "behavior:" +:+ pattern s)).
Proof.
  unfold parseResourceSelector, resourceSelectorToString, valid, wellFormedPattern. split.
  - destruct (splitColon value) as [[k p]|] eqn:E; [|done].
    apply splitColon_Some in E as [-> _].
    intros (_ & Hp%throw_if_ok & H)%result_bind_ok. split_bools.
    destruct (safeParse _) as [k'|] eqn:Hk; [|done].
    apply safeParse_Some in Hk. symmetry in Hk. apply canonicalResourceKind_name in Hk.
    apply result_bind_ok in H as (_ & Hs%throw_if_ok & [= <-]).
    apply starAtEnd_iff in Hs. simpl. naive_solver.
  - destruct s as [kd p]; cbn [kind pattern].
    intros [[Hp Hs%starAtEnd_iff] Hv].
    assert (∃ k, splitColon value = Some (k, p) ∧ canonicalResourceKind k = enum_name kd)
      as (k & -> & ->).
    { destruct Hv as [->|[-> ->]].
      - exists (enum_name kd). rewrite splitColon_Some, canonicalResourceKind_name.
        auto using resourceKind_no_colon.
      - exists "behavior". by rewrite splitColon_Some. }
    rewrite (bool_decide_eq_false_2 (p = "")) by done. simpl.
    rewrite (proj2 (safeParse_Some (enum_name kd) kd)) by done. by rewrite Hs.
Qed.

Lemma canonicalResourceSelectorString_idempotent value :
  canonicalResourceSelectorString (canonicalResourceSelectorString value) =
  canonicalResourceSelectorString value.
Proof.
  unfold canonicalResourceSelectorString at 2 3.
  destruct (parseResourceSelector value) as [s|] eqn:E.
  - unfold canonicalResourceSelectorString.
    apply parseResourceSelector_Ok in E as [Hv _].
    by rewrite (proj2 (parseResourceSelector_Ok _ s)) by auto.
  - unfold canonicalResourceSelectorString. by rewrite E.
Qed.

(** [parseResourceSelector] accepts exactly [kind:pattern] with a kind of
    the enumeration, [behavior] standing for [model], and a non-empty pattern
    whose only wildcard is its last character; the result is that selector,
    so canonicalizing a spelling settles it. *)
Lemma parseResourceSelector_language (value : string) (s : t) :
  (parseResourceSelector value = Ok s ↔
   valid s ∧ (value = resourceSelectorToString s ∨
              (kind s = model ∧ value = "behavior:" +:+ pattern s))) ∧
  canonicalResourceSelectorString (canonicalResourceSelectorString value) =
  canonicalResourceSelectorString value.
Proof. split; [apply parseResourceSelector_Ok|apply canonicalResourceSelectorString_idempotent]. Qed.

(** A selector accepted by the parser matches exactly the names its
    pattern covers: the name itself, or every extension of the text before a
    final star. *)
Lemma resourceSelectorMatches_covers (s : t) (name : string) :
  resourceSelectorMatches s name = true ↔
  if endsWithChar "*" (pattern s) then ∃ q r, pattern s = q +:+ "*" ∧ name = q +:+ r
  else pattern s = name.
Proof.
  unfold resourceSelectorMatches. destruct s as [k p]; cbn [pattern]. case_bool_decide as E.
  - subst. simpl. split; [|done]. intros _. by exists "", name.
  - destruct (endsWithChar "*" p) eqn:Hs; [|by rewrite bool_decide_eq_true].
    apply endsWithChar_spec in Hs as [q ->]. rewrite dropLast_snoc, startsWith_spec. split.
    + intros [r ->]. by exists q, r.
    + intros (q' & r & Hq & ->). exists r. f_equal.
      by rewrite <-(dropLast_snoc q "*"), Hq, dropLast_snoc.
Qed.

End ResourceSelector.
