(* ===== verification/AccessGrants.v ===== *)
(** * Grants and groups

    The stored access records: [grant_source.ts], [grant_methods.ts] and the
    vault verbs of [access_resources.ts] under [src/src/domain/access], and the
    two models of [src/src/domain/models/access] whose methods read and write
    them, [grant_model.ts] and [group_model.ts]. A model's store is the latest
    content of its one resource; a method returns the new store and whether it
    wrote, or throws and leaves the store as it was. *)

From S2P Require Import Prelude JsString ModelType AccessNames.

Module GrantSource.

Definition FIXED_SOURCES : list string := ["method"; "config"].

Definition PREFIXED_SOURCES : list string := ["file:"; "extension:"].

(** [GrantSourceSchema] *)
Definition isGrantSource (value : string) : bool :=
  negb (bool_decide (value = "")) &&
  (bool_decide (value ∈ FIXED_SOURCES) ||
   (existsb (λ prefix, startsWith value prefix) PREFIXED_SOURCES &&
    negb (existsb (λ prefix, bool_decide (value = prefix)) PREFIXED_SOURCES))).

Definition parseGrantSource (value : string) : result string :=
  if isGrantSource value then Ok value
  else
    Throw ("Invalid grant source " +:+ quoted value +:+ ": must be " +:+
           quoted "method" +:+ ", " +:+ quoted "config" +:+ ", " +:+
           quoted "file:<filename>" +:+ ", or " +:+ quoted "extension:<name>").

Definition isFileSource (source : string) : bool := startsWith source "file:".

Definition parseFileSourceFilename (source : string) : result string :=
  if negb (isFileSource source) then
    Throw ("Cannot parse filename from non-file source " +:+ quoted source)
  else Ok (str_drop (String.length "file:") source).

Definition GRANTS_DIR_SOURCE_PREFIX : string := "grants-dir/".

Definition grantsDirSourceName (basename : string) : string :=
  GRANTS_DIR_SOURCE_PREFIX +:+ basename.

Definition isGrantsDirSourceName (filename : string) : bool :=
  startsWith filename GRANTS_DIR_SOURCE_PREFIX.

Lemma file_source_roundtrip (filename : string) :
  parseFileSourceFilename ("file:" +:+ filename) = Ok filename.
Proof. unfold parseFileSourceFilename, isFileSource. by rewrite startsWith_app. Qed.

Lemma dir_source_is_grant_source (basename : string) :
  isGrantSource ("file:" +:+ grantsDirSourceName basename) = true.
Proof. done. Qed.

End GrantSource.

Module GrantMethods.

Definition VAULT_METHODS : list string :=
  ["get"; "describe"; "inspect"; "list-keys"; "read-secret"; "audit-trail";
   "search"; "put"; "delete"; "annotate"; "create"; "edit"; "migrate"].

Definition isVaultMethod (value : string) : bool := bool_decide (value ∈ VAULT_METHODS).

Definition findGrantMethodIssues
    (resource : ResourceSelector.t) (methods : option (list string)) : list string :=
  let methods := default [] methods in
  let kind := ResourceSelector.kind resource in
  match methods with
  | [] => []
  | _ =>
      if bool_decide (kind = ResourceSelector.workflow) ||
         bool_decide (kind = ResourceSelector.data) then
        ["methods has no effect on a " +:+ enum_name kind +:+ " grant: " +:+ enum_name kind +:+
         " requests name no method, so a methods-scoped allow matches nothing and a deny applies to every request; remove methods"]
      else if negb (bool_decide (kind = ResourceSelector.vault)) then []
      else
        (λ method, "'" +:+ method +:+ "' is not a vault verb (one of " +:+
                   join ", " VAULT_METHODS +:+ "), so no vault request matches it")
        <$> List.filter (λ method, negb (isVaultMethod method)) methods
  end.

Lemma findGrantMethodIssues_none resource methods :
  findGrantMethodIssues resource methods = [] ↔
  default [] methods = [] ∨
  match ResourceSelector.kind resource with
  | ResourceSelector.workflow | ResourceSelector.data => False
  | ResourceSelector.vault => ∀ m, m ∈ default [] methods → m ∈ VAULT_METHODS
  | _ => True
  end.
Proof.
  unfold findGrantMethodIssues. generalize (default [] methods) as l. intros l.
  destruct (decide (l = [])) as [->|Hl]; [naive_solver|].
  assert (∀ {B} (x y : B), match l with [] => x | _ => y end = y) as Em by by destruct l.
  rewrite Em. destruct (ResourceSelector.kind resource); try naive_solver.
  rewrite ?bool_decide_eq_true_2, ?bool_decide_eq_false_2 by done. cbn [orb negb]. split.
  - intros E%fmap_nil_inv. right. intros x Hx. destruct (isVaultMethod x) eqn:Hv.
    { unfold isVaultMethod in Hv. by split_bools. }
    assert (x ∈ List.filter (λ method, negb (isVaultMethod method)) l) as Hin.
    { apply elem_of_bfilter. by rewrite Hv. }
    rewrite E in Hin. set_solver.
  - intros [?|Hall]; [done|]. destruct (List.filter _ l) as [|x r] eqn:E; [done|].
    assert (x ∈ List.filter (λ method, negb (isVaultMethod method)) l) as Hin
      by (rewrite E; set_solver).
    apply elem_of_bfilter in Hin as [Hx Hv]. unfold isVaultMethod in Hv.
    rewrite bool_decide_eq_true_2 in Hv; [done|]. by apply Hall.
Qed.

End GrantMethods.

Module Grant.

Inductive GrantState : Type := active | revoked.

#[global] Instance GrantState_eq_dec : EqDecision GrantState.
Proof. solve_decision. Defined.

Record t : Type := Mk {
  id : string;
  subject : Subject.t;
  effect : Effect.t;
  actions : list Action.t;
  resource : ResourceSelector.t;
  condition : option string;
  methods : option (list string);
  state : GrantState;
  source : string;
  createdBy : Principal.t;
  createdAt : Z;
}.

#[global] Instance t_eta : Eta t := λ r,
  Mk (id r) (subject r) (effect r) (actions r) (resource r) (condition r) (methods r)
     (state r) (source r) (createdBy r) (createdAt r).

#[global] Instance t_eq_dec : EqDecision t.
Proof. solve_decision. Defined.

(** [if (grant.condition)]: an empty string is falsy *)
Definition truthyCondition (g : t) : option string :=
  match condition g with
  | Some c => if bool_decide (c = "") then None else Some c
  | None => None
  end.

Record CreateArgs : Type := MkArgs {
  a_subject : string;
  a_effect : Effect.t;
  a_actions : list Action.t;
  a_resourceKind : string;
  a_resourcePattern : string;
  a_condition : option string;
  a_methods : option (list string);
  a_source : string;
  a_createdBy : string;
}.

(** what [infrastructure/cel] and [grant_spelling.ts] report of a condition *)
Class ConditionChecks := {
  validateGrantCondition :
    string → ResourceSelector.ResourceKind → list Action.t → Effect.t → option string;
  readConditionTypeIssue : string → ResourceSelector.ResourceKind → option string;
  conditionSpellingIssues : Effect.t → ResourceSelector.t → option string → list string;
}.

Section operations.
Context `{ConditionChecks}.

Definition bulleted (messages : list string) : string :=
  foldr (λ message rest, newline +:+ "  - " +:+ message +:+ rest) "" messages.

Definition checkGrantCreateInputs (inputs : CreateArgs) : result (Subject.t * ResourceSelector.t) :=
  subject ← Subject.parseSubject (a_subject inputs);
  resource ← ResourceSelector.parseResourceSelector
    (a_resourceKind inputs +:+ ":" +:+ a_resourcePattern inputs);
  _ ← match a_condition inputs with
      | Some condition =>
          if bool_decide (condition = "") then Ok tt
          else
            match validateGrantCondition condition (ResourceSelector.kind resource)
                    (a_actions inputs) (a_effect inputs) with
            | Some error => Throw ("Invalid grant condition: " +:+ error)
            | None =>
                match readConditionTypeIssue condition (ResourceSelector.kind resource) with
                | Some typeIssue => Throw ("Invalid grant condition: " +:+ typeIssue)
                | None => Ok tt
                end
            end
      | None => Ok tt
      end;
  let literals := conditionSpellingIssues (a_effect inputs) resource (a_condition inputs) in
  _ ← throw_if (negb (bool_decide (literals = [])))
        ("Invalid grant condition:" +:+ bulleted literals);
  let methodIssues := GrantMethods.findGrantMethodIssues resource (a_methods inputs) in
  _ ← throw_if (negb (bool_decide (methodIssues = [])))
        ("Invalid grant methods:" +:+ bulleted methodIssues);
  Ok (subject, resource).

Definition create (definitionName uuid : string) (now : Z) (args : CreateArgs)
    (store : option t) : result (option t * bool) :=
  match store with
  | Some _ => Throw ("Grant '" +:+ definitionName +:+ "' already exists — revoke it first")
  | None =>
      '(subject, resource) ← checkGrantCreateInputs args;
      createdBy ← Principal.parsePrincipal (a_createdBy args);
      let grant :=
        Mk uuid subject (a_effect args) (a_actions args) resource (a_condition args)
           (a_methods args) active (a_source args) createdBy now in
      Ok (Some grant, true)
  end.

Definition revoke (definitionName : string) (store : option t) : result (option t * bool) :=
  match store with
  | None => Throw ("Grant '" +:+ definitionName +:+ "' does not exist")
  | Some grant =>
      if bool_decide (state grant = revoked) then Ok (store, false)
      else Ok (Some (grant <| state := revoked |>), true)
  end.

(** [list] reads the grant and returns no handle either way *)
Definition list_ (store : option t) : result (option t * bool) := Ok (store, false).

(** one call of a method of the model *)
Inductive step (name : string) : option t → option t → Prop :=
| step_create uuid now args s s' w :
    create name uuid now args s = Ok (s', w) → step name s s'
| step_revoke s s' w : revoke name s = Ok (s', w) → step name s s'
| step_list s s' w : list_ s = Ok (s', w) → step name s s'.

(** a stored grant names parsed parts and a method list its kind can use *)
Definition wf (g : t) : Prop :=
  Subject.valid (subject g) ∧ ResourceSelector.valid (resource g) ∧
  Principal.valid (createdBy g) ∧
  GrantMethods.findGrantMethodIssues (resource g) (methods g) = [].

Definition store_wf (s : option t) : Prop := match s with Some g => wf g | None => True end.

(** everything but the state *)
Definition sameGrant (g g' : t) : Prop := g' = g <| state := state g' |>.

Lemma create_wf name uuid now args s' w :
  create name uuid now args None = Ok (s', w) →
  ∃ g, s' = Some g ∧ w = true ∧ wf g ∧ state g = active ∧ id g = uuid.
Proof.
  unfold create. intros ([subj res] & Hc & (cb & Hcb & [= <- <-])%result_bind_ok)%result_bind_ok.
  eexists. split; [done|]. split; [done|]. split; [|done].
  unfold checkGrantCreateInputs in Hc.
  apply result_bind_ok in Hc as (subj' & Hs & Hc).
  apply result_bind_ok in Hc as (res' & Hr & Hc).
  apply result_bind_ok in Hc as (_ & _ & Hc).
  apply result_bind_ok in Hc as (_ & _ & Hc).
  apply result_bind_ok in Hc as (_ & Hm%throw_if_ok & [= -> ->]).
  split_bools. unfold wf; simpl. split_and!; [| | |done].
  - by apply Subject.parseSubject_Ok in Hs as [_ ?].
  - by apply ResourceSelector.parseResourceSelector_Ok in Hr as [? _].
  - by apply Principal.parsePrincipal_Ok in Hcb as [_ ?].
Qed.

Lemma step_inv name s s' :
  step name s s' →
  (s = None ∧ s' = None) ∨
  (s = None ∧ ∃ g, s' = Some g ∧ wf g ∧ state g = active) ∨
  (∃ g g', s = Some g ∧ s' = Some g' ∧ sameGrant g g' ∧ (state g' = state g ∨ state g' = revoked)).
Proof.
  intros [uuid now args s0 s1 w Hs|s0 s1 w Hs|s0 s1 w Hs].
  - destruct s0 as [g|]; [done|]. apply create_wf in Hs. naive_solver.
  - unfold revoke in Hs. destruct s0 as [g|]; [|done]. right; right.
    case_bool_decide; simplify_eq; eexists _, _; (split; [done|]); (split; [done|]).
    + destruct g; unfold sameGrant; simpl; auto.
    + unfold sameGrant; simpl; auto.
  - injection Hs as <- _. destruct s0 as [g|]; [right; right|by left]. exists g, g. destruct g; unfold sameGrant; simpl; auto.
Qed.

(** Over any sequence of calls the stored grant stays well-formed, once
    created it is never replaced (only its state changes), and once revoked it
    stays revoked. *)
Lemma grant_lifecycle (name : string) (s s' : option t) :
  rtc (step name) s s' → store_wf s →
  store_wf s' ∧
  (∀ g, s = Some g → ∃ g', s' = Some g' ∧ sameGrant g g' ∧
                           (state g = revoked → state g' = revoked)).
Proof.
  induction 1 as [s|s s1 s' Hstep _ IH]; intros Hwf.
  - split; [done|]. intros g ->. exists g. by destruct g.
  - apply step_inv in Hstep as [[-> ->]|[(-> & g & -> & Hg & Hst)|(g & g1 & -> & -> & Hsame & Hst)]].
    + destruct (IH I) as [? _]. by split.
    + destruct (IH Hg) as [? _]. by split.
    + assert (wf g1) as Hg1 by (rewrite Hsame; done).
      destruct (IH Hg1) as [Hw Hall]. split; [done|]. intros g0 [= <-].
      destruct (Hall g1 eq_refl) as (g' & -> & Hsame' & Hrev). exists g'. split; [done|].
      split; [unfold sameGrant in *; rewrite Hsame', Hsame; done|]. intros E. apply Hrev.
      destruct Hst; congruence.
Qed.

End operations.

#[local] Definition noChecks : ConditionChecks :=
  Build_ConditionChecks (λ _ _ _ _, None) (λ _ _, None) (λ _ _ _, []).

Definition sampleArgs : CreateArgs :=
  MkArgs "user:adam" Effect.allow [Action.run] "workflow" "@acme/*" None None "method" "user:root".

Definition sampleGrant : t :=
  Mk "g1" (Subject.Mk Subject.user "adam") Effect.allow [Action.run]
     (ResourceSelector.Mk ResourceSelector.workflow "@acme/*") None None active "method"
     (Principal.Mk Principal.user "root") 0.

Lemma grant_lifecycle_witness :
  store_wf (Some (sampleGrant <| state := revoked |>)).
Proof.
  assert (@create noChecks "g" "g1" 0 sampleArgs None = Ok (Some sampleGrant, true)) as H1
    by (vm_compute; reflexivity).
  assert (revoke "g" (Some sampleGrant) = Ok (Some (sampleGrant <| state := revoked |>), true)) as H2
    by reflexivity.
  refine (proj1 (@grant_lifecycle noChecks "g" None _ _ I)).
  eapply rtc_l; [exact (@step_create noChecks "g" _ _ _ _ _ _ H1)|].
  eapply rtc_l; [exact (@step_revoke noChecks "g" _ _ _ H2)|]. apply rtc_refl.
Defined.

End Grant.

Module Group.

Record t : Type := Mk {
  name : string;
  members : list Principal.t;
  createdBy : Principal.t;
  createdAt : Z;
}.

#[global] Instance t_eta : Eta t := λ r, Mk (name r) (members r) (createdBy r) (createdAt r).

Definition create (definitionName createdByArg : string) (now : Z) (store : option t)
    : result (option t * bool) :=
  match store with
  | Some _ => Throw ("Group '" +:+ definitionName +:+ "' already exists")
  | None =>
      createdBy ← Principal.parsePrincipal createdByArg;
      Ok (Some (Mk definitionName [] createdBy now), true)
  end.

Definition doesNotExist (definitionName : string) : string :=
  "Group '" +:+ definitionName +:+ "' does not exist — create it first".

Definition addMember (definitionName principalArg : string) (store : option t)
    : result (option t * bool) :=
  match store with
  | None => Throw (doesNotExist definitionName)
  | Some group =>
      principal ← Principal.parsePrincipal principalArg;
      let principalStr := Principal.principalToString principal in
      let alreadyMember :=
        existsb (λ m, bool_decide (Principal.principalToString m = principalStr)) (members group) in
      if alreadyMember then Ok (store, false)
      else Ok (Some (group <| members := members group ++ [principal] |>), true)
  end.

Definition removeMember (definitionName principalArg : string) (store : option t)
    : result (option t * bool) :=
  match store with
  | None => Throw (doesNotExist definitionName)
  | Some group =>
      principal ← Principal.parsePrincipal principalArg;
      let principalStr := Principal.principalToString principal in
      let filtered :=
        List.filter (λ m, negb (bool_decide (Principal.principalToString m = principalStr)))
          (members group) in
      if bool_decide (length filtered = length (members group)) then Ok (store, false)
      else Ok (Some (group <| members := filtered |>), true)
  end.

Definition list_ (store : option t) : result (option t * bool) := Ok (store, false).

Definition members_ (definitionName : string) (store : option t) : result (option t * bool) :=
  match store with
  | None => Throw ("Group '" +:+ definitionName +:+ "' does not exist")
  | Some _ => Ok (store, false)
  end.

(** the membership of a group as a set of principals *)
Definition memberSet (s : option t) (p : Principal.t) : Prop :=
  match s with Some g => p ∈ members g | None => False end.

Definition wf (s : option t) : Prop :=
  match s with
  | Some g => NoDup (members g) ∧ ∀ p, p ∈ members g → Principal.valid p
  | None => True
  end.

Lemma principalToString_eqb m p :
  bool_decide (Principal.principalToString m = Principal.principalToString p) = bool_decide (m = p).
Proof.
  apply bool_decide_ext. split; [apply Principal.principalToString_inj|by intros ->].
Qed.

(** [addMember] and [removeMember] are insertion into and deletion from a
    set of valid principals: the list keeps no duplicates, membership changes
    for the named principal only, a call that changes nothing writes nothing,
    and the only failures are a missing group and a malformed principal. *)
Lemma group_membership_refines_set (dn arg : string) (s : option t) :
  wf s →
  match Principal.parsePrincipal arg, s with
  | Ok p, Some _ =>
      (∃ s' w, addMember dn arg s = Ok (s', w) ∧ wf s' ∧
         (∀ q, memberSet s' q ↔ q = p ∨ memberSet s q) ∧ (w = false ↔ memberSet s p)) ∧
      (∃ s' w, removeMember dn arg s = Ok (s', w) ∧ wf s' ∧
         (∀ q, memberSet s' q ↔ q ≠ p ∧ memberSet s q) ∧ (w = false ↔ ¬ memberSet s p))
  | _, _ => is_ok (addMember dn arg s) = false ∧ is_ok (removeMember dn arg s) = false
  end.
Proof.
  intros Hwf. destruct s as [g|]; [|by destruct (Principal.parsePrincipal arg)].
  unfold addMember, removeMember. destruct (Principal.parsePrincipal arg) as [p|] eqn:Hp; [|done].
  apply Principal.parsePrincipal_Ok in Hp as [_ Hv]. destruct Hwf as [Hnd Hall].
  simpl. split.
  - destruct (existsb _ _) eqn:E.
    + eexists _, _. split; [done|]. apply existsb_elem_of in E as (m & Hm & E).
      rewrite principalToString_eqb in E. split_bools. subst m. simpl. naive_solver.
    + eexists _, _. split; [done|]. rewrite existsb_false_elem_of in E.
      assert (p ∉ members g) as Hni.
      { intros Hin. specialize (E p Hin). rewrite bool_decide_eq_true_2 in E; done. }
      simpl. split_and!; [|set_solver|set_solver|done].
      apply NoDup_app. split_and!; [done|set_solver|apply NoDup_singleton].
  - case_bool_decide as E.
    + apply bfilter_length_eq in E. eexists _, _. split; [done|]. split; [done|].
      assert (p ∉ members g) as Hni.
      { rewrite <-E. rewrite elem_of_bfilter, principalToString_eqb, bool_decide_eq_true_2; naive_solver. }
      simpl. naive_solver.
    + eexists _, _. split; [done|]. simpl. split_and!.
      * by apply bfilter_NoDup.
      * intros q. rewrite elem_of_bfilter. naive_solver.
      * intros q. rewrite elem_of_bfilter, principalToString_eqb, negb_true_iff, bool_decide_eq_false.
        naive_solver.
      * split; [done|]. intros Hni. exfalso. apply E. f_equal. apply bfilter_all.
        intros x Hx. rewrite principalToString_eqb, bool_decide_eq_false_2; [done|]. naive_solver.
Qed.

Definition adam : Principal.t := Principal.Mk Principal.user "adam".

Lemma group_membership_refines_set_witness :
  wf (Some (Mk "ops" [adam] adam 0)) ∧
  ∃ s' w, removeMember "ops" "user:adam" (Some (Mk "ops" [adam] adam 0)) = Ok (s', w) ∧ wf s'.
Proof.
  assert (wf (Some (Mk "ops" [adam] adam 0))) as Hwf.
  { split; [apply NoDup_singleton|]. intros p ->%list_elem_of_singleton. by split. }
  split; [done|].
  pose proof (group_membership_refines_set "ops" "user:adam" _ Hwf) as H.
  destruct (Principal.parsePrincipal "user:adam") as [p|] eqn:E; [|by vm_compute in E].
  destruct H as [_ (s' & w & H1 & H2 & _)]. by exists s', w.
Defined.

End Group.
