(* ===== verification/AccessDecision.v ===== *)
(** * The access decision

    [src/src/domain/access]: the policy snapshot ([policy_snapshot.ts]), the
    resources and decisions of [access_decision_service.ts],
    [access_resources.ts] and [control_plane_records.ts], the grant-based
    decision service ([grant_based_access_decision_service.ts]) and
    [admission.ts]. The evaluator of grant conditions is a field of the
    snapshot, as in the source, so every theorem holds for all of them. *)

From S2P Require Import Prelude JsString ModelType AccessNames AccessGrants.

Record PrincipalContext : Type := MkContext {
  sub : string;
  ctx_groups : list string;
  ctx_collectives : list string;
}.

Module PolicySnapshot.

(** what one evaluation of a condition gives: a boolean, a
    [MissingConditionFieldError], or another exception *)
Inductive EvalResult : Type :=
| EvalBool (b : bool)
| EvalMissing (fields : list string)
| EvalError.

Notation ConditionEvaluator :=
  (string → ResourceSelector.ResourceKind → gmap string JsValue → PrincipalContext → EvalResult).

Inductive ConditionOutcome : Type :=
| match_ | no_match | missing_field | pending | undecided | error.

#[global] Instance ConditionOutcome_eq_dec : EqDecision ConditionOutcome.
Proof. solve_decision. Defined.

Record t : Type := Mk {
  grantsBySubject : gmap string (list Grant.t);
  groupsByPrincipal : gmap string (list string);
  evaluator : ConditionEvaluator;
  grantKinds : list ResourceSelector.ResourceKind;
}.

Definition alwaysFalse : ConditionEvaluator := λ _ _ _ _, EvalBool false.

Definition indexGrants (grants : list Grant.t) : gmap string (list Grant.t) :=
  foldl (λ m grant, multimap_add (Subject.subjectToString (Grant.subject grant)) grant m) ∅ grants.

Definition indexGroup (m : gmap string (list string)) (group : Group.t) : gmap string (list string) :=
  foldl (λ m member, multimap_add (Principal.principalToString member) (Group.name group) m)
    m (Group.members group).

Definition construct (grants : list Grant.t) (groups : list Group.t)
    (evaluateCondition : option ConditionEvaluator) : t :=
  Mk (indexGrants grants) (foldl indexGroup ∅ groups)
     (default alwaysFalse evaluateCondition)
     (set_of ((λ g, ResourceSelector.kind (Grant.resource g)) <$> grants)).

Definition grantsForSubjects (s : t) (subjects : list string) : list Grant.t :=
  foldl (λ result subject,
    match grantsBySubject s !! subject with
    | Some grants => result ++ grants
    | None => result
    end) [] subjects.

Definition hasGrantOfKind (s : t) (kind : ResourceSelector.ResourceKind) : bool :=
  bool_decide (kind ∈ grantKinds s).

Definition groupsForPrincipal (s : t) (principalKey : string) : list string :=
  default [] (groupsByPrincipal s !! principalKey).

Definition evaluateConditionOutcome (s : t) (condition : string)
    (resourceKind : ResourceSelector.ResourceKind) (resourceFields : gmap string JsValue)
    (principalContext : PrincipalContext) (pendingFields : option (list string))
    : ConditionOutcome :=
  match evaluator s condition resourceKind resourceFields principalContext with
  | EvalBool result => if result then match_ else no_match
  | EvalMissing fields =>
      match pendingFields with
      | Some ps => if forallb (λ f, bool_decide (f ∈ ps)) fields then pending else missing_field
      | None => missing_field
      end
  | EvalError => error
  end.

Definition evaluateCondition (s : t) (condition : string)
    (resourceKind : ResourceSelector.ResourceKind) (resourceFields : gmap string JsValue)
    (principalContext : PrincipalContext) : bool :=
  bool_decide
    (evaluateConditionOutcome s condition resourceKind resourceFields principalContext None = match_).

Definition empty : t := construct [] [] None.

(** ** The indexes are filters of the input *)

Lemma lookup_indexGrants grants key :
  default [] (indexGrants grants !! key) =
  List.filter (λ g, bool_decide (Subject.subjectToString (Grant.subject g) = key)) grants.
Proof.
  unfold indexGrants.
  assert (∀ l m, default [] (foldl (λ m grant, multimap_add (Subject.subjectToString (Grant.subject grant)) grant m) m l !! key)
    = default [] (m !! key) ++
      List.filter (λ g, bool_decide (Subject.subjectToString (Grant.subject g) = key)) l) as H.
  { induction l as [|g l IH]; intros m; simpl; [by rewrite app_nil_r|].
    rewrite IH, multimap_add_lookup. case_bool_decide; simpl.
    - by rewrite <-app_assoc.
    - by rewrite app_nil_r. }
  by rewrite H, lookup_empty.
Qed.

Lemma grantsForSubjects_eq s subjects :
  grantsForSubjects s subjects = mjoin ((λ k, default [] (grantsBySubject s !! k)) <$> subjects).
Proof.
  unfold grantsForSubjects.
  assert (∀ r, foldl (λ result subject, match grantsBySubject s !! subject with
      | Some grants => result ++ grants | None => result end) r subjects
    = r ++ mjoin ((λ k, default [] (grantsBySubject s !! k)) <$> subjects)) as H; [|by rewrite H].
  induction subjects as [|k ks IH]; intros r; simpl; [by rewrite app_nil_r|].
  rewrite IH. destruct (_ !! k); simpl; by rewrite <-?app_assoc.
Qed.

Lemma elem_of_grantsForSubjects grants groups ev subjects g :
  g ∈ grantsForSubjects (construct grants groups ev) subjects ↔
  g ∈ grants ∧ Subject.subjectToString (Grant.subject g) ∈ subjects.
Proof.
  rewrite grantsForSubjects_eq, list_elem_of_join. setoid_rewrite list_elem_of_fmap.
  simpl. setoid_rewrite lookup_indexGrants. split.
  - intros (l & Hg & k & -> & Hk). rewrite elem_of_bfilter in Hg. destruct Hg as [? ?].
    split_bools. by subst.
  - intros [Hg Hk]. eexists; split; [|by eexists]. apply elem_of_bfilter.
    by rewrite bool_decide_eq_true_2.
Qed.

Lemma indexGroup_lookup group m key :
  default [] (indexGroup m group !! key) =
  default [] (m !! key) ++
  ((λ _, Group.name group) <$> List.filter (λ p, bool_decide (Principal.principalToString p = key)) (Group.members group)).
Proof.
  unfold indexGroup. revert m. generalize (Group.members group) as ps.
  induction ps as [|p ps IH]; intros m; simpl; [by rewrite app_nil_r|].
  rewrite IH, multimap_add_lookup. case_bool_decide; simpl.
  - by rewrite <-app_assoc.
  - by rewrite app_nil_r.
Qed.

Lemma elem_of_groupsForPrincipal grants groups ev p n :
  n ∈ groupsForPrincipal (construct grants groups ev) (Principal.principalToString p) ↔
  ∃ group, group ∈ groups ∧ Group.name group = n ∧ p ∈ Group.members group.
Proof.
  unfold groupsForPrincipal. simpl.
  assert (∀ m, n ∈ default [] (foldl indexGroup m groups !! Principal.principalToString p) ↔
     n ∈ default [] (m !! Principal.principalToString p) ∨
     ∃ group, group ∈ groups ∧ Group.name group = n ∧ p ∈ Group.members group) as H.
  { induction groups as [|gr grs IH]; intros m; simpl; [set_solver|].
    rewrite IH, indexGroup_lookup, elem_of_app, list_elem_of_fmap. setoid_rewrite elem_of_bfilter.
    setoid_rewrite Group.principalToString_eqb. setoid_rewrite bool_decide_eq_true. set_solver. }
  rewrite H, lookup_empty. set_solver.
Qed.

End PolicySnapshot.

Module AccessResource.

Record t : Type := Mk {
  kind : ResourceSelector.ResourceKind;
  name : string;
  fields : gmap string JsValue;
  scopeKind : bool;
  anyMethod : bool;
  pending : option (list string);
}.

#[global] Instance t_eta : Eta t := λ r,
  Mk (kind r) (name r) (fields r) (scopeKind r) (anyMethod r) (pending r).

Definition kindResource (kind : ResourceSelector.ResourceKind) : t :=
  Mk kind "*" {["name" := VStr "*"]} true false None.

Definition tagsValue (tags : option (list (string * string))) : JsValue :=
  VObj ((λ '(k, v), (k, VStr v)) <$> default [] tags).

Definition controlPlaneRecordResource (type recordName : string)
    (tags : option (list (string * string))) : result t :=
  match ModelType.normalizeModelTypeName type with
  | None => Throw "Behavior type cannot be empty"
  | Some name =>
      Ok (Mk ResourceSelector.access name
            (<["name" := VStr recordName]> (<["modelType" := VStr name]>
              {["tags" := tagsValue tags]})) false false None)
  end.

Definition isControlPlaneRecordResource (resource : t) : bool :=
  bool_decide (kind resource = ResourceSelector.access) &&
  bool_decide (name resource ∈ ModelType.CONTROL_PLANE_MODEL_TYPES).

Definition RUN_CONDITION_FIELD : string := "run".

(** [runConditionValue], whose value is the object of the initiator and the
    [serveDriven] flag *)
Definition runConditionValue (initiatedBy : option string) (serveDriven : bool) : option JsValue :=
  match initiatedBy with
  | None => None
  | Some who =>
      match Principal.parsePrincipal who with
      | Throw _ => None
      | Ok p =>
          let kind := enum_name (Principal.kind p) in
          let id := Principal.id p in
          Some (VObj
            [("initiator", VObj [("kind", VStr kind); ("id", VStr id);
                ("sub", VStr (if bool_decide (kind = "user") then id else ""))]);
             ("serveDriven", VBool serveDriven)])
      end
  end.

Definition withRunCondition (resource : t) (initiatedBy : option string) (serveDriven : bool) : t :=
  let decided := resource <| pending := None |> in
  match runConditionValue initiatedBy serveDriven with
  | None => decided
  | Some value => decided <| fields := <[RUN_CONDITION_FIELD := value]> (fields resource) |>
  end.

Definition withRunPending (resource : t) : t :=
  resource <| pending := Some [RUN_CONDITION_FIELD] |>.

Definition explainedForAction (resource : t) (action : Action.t) : t :=
  if bool_decide (action = Action.approve) &&
     bool_decide (kind resource = ResourceSelector.workflow) &&
     negb (bool_decide (is_Some (fields resource !! RUN_CONDITION_FIELD)))
  then withRunPending resource
  else resource.

(** [modelTypeFields]; [kind] is [model] or [data] *)
Definition modelTypeFields (name type : string) (tags : option (list (string * string)))
    (kind : ResourceSelector.ResourceKind) : gmap string JsValue :=
  <["tags" := tagsValue tags]>
    (if bool_decide (kind = ResourceSelector.model)
     then <["modelType" := VStr type]> {["name" := VStr name]}
     else <["ns" := VStr (default "" (ModelType.getUserNamespace type))]> {["name" := VStr name]}).

Definition modelAccessResource (type : ModelType.t) (definitionName : string)
    (tags : option (list (string * string))) (kind : ResourceSelector.ResourceKind) : result t :=
  if ModelType.isControlPlaneModelType (ModelType.normalized type) then
    controlPlaneRecordResource (ModelType.normalized type) definitionName tags
  else
    Ok (Mk kind definitionName
          (modelTypeFields definitionName (ModelType.normalized type) tags kind) false false None).

Definition workflowAccessResource (name : string) (tags : option (list (string * string))) : t :=
  Mk ResourceSelector.workflow name
     (<["name" := VStr name]> {["tags" := tagsValue tags]}) false false None.

Definition unresolvedAccessResource (kind : ResourceSelector.ResourceKind) (idOrName : string) : t :=
  let fields : gmap string JsValue := {["name" := VStr idOrName]} in
  let fields := if negb (bool_decide (kind = ResourceSelector.access))
                then <["tags" := VObj []]> fields else fields in
  let fields := if bool_decide (kind = ResourceSelector.data)
                then <["ns" := VStr ""]> fields else fields in
  Mk kind idOrName fields false false None.

Definition vaultKindResource (name : string) (key methodName : option string) : t :=
  let fields : gmap string JsValue := {["name" := VStr name]} in
  let fields := match key with Some k => <["key" := VStr k]> fields | None => fields end in
  let fields := match methodName with Some m => <["methodName" := VStr m]> fields | None => fields end in
  Mk ResourceSelector.vault name fields false false None.

Definition tagsChanged (before after : option (gmap string string)) : bool :=
  let a := default ∅ before in
  let b := default ∅ after in
  if negb (bool_decide (size a = size b)) then true
  else
    existsb (λ '(key, v), negb (bool_decide (b !! key = Some v))) (map_to_list a).

Lemma tagsChanged_spec before after :
  tagsChanged before after = false ↔ default ∅ before = default ∅ after.
Proof.
  unfold tagsChanged. generalize (default ∅ before), (default ∅ after). intros a b.
  case_bool_decide as Hs; simpl; [|naive_solver]. rewrite existsb_false_elem_of. split.
  - intros H. assert (a ⊆ b) as Hsub.
    { apply map_subseteq_spec. intros k v Hk.
      specialize (H (k, v)). rewrite elem_of_map_to_list in H. specialize (H Hk).
      by split_bools. }
    by apply map_subseteq_size_eq; [|lia].
  - intros -> [k v] Hk%elem_of_map_to_list. by rewrite bool_decide_eq_true_2.
Qed.

(** a control-plane model is owned by the access kind, in any spelling of its
    type, and its records are recognized as such *)
Lemma modelAccessResource_control_plane type n tags kind :
  ModelType.isControlPlaneModelType (ModelType.normalized type) = true →
  ∃ r, modelAccessResource type n tags kind = Ok r ∧ isControlPlaneRecordResource r = true.
Proof.
  unfold modelAccessResource. intros H. rewrite H. unfold ModelType.isControlPlaneModelType in H.
  unfold controlPlaneRecordResource.
  destruct (ModelType.normalizeModelTypeName _) as [nm|]; [|done].
  eexists. split; [done|]. unfold isControlPlaneRecordResource. simpl.
  exact H.
Qed.

End AccessResource.

Module DecisionService.
Import PolicySnapshot.

Record AccessPrincipal : Type := MkPrincipal {
  principal : Principal.t;
  collectives : list string;
  groups : list string;
  client : option string;
}.

Record AccessDecision : Type := MkDecision {
  effect : Effect.t;
  grantId : string;
  subject : Subject.t;
  condition : option string;
  impliedBy : option Action.t;
  dependsOn : option (list string);
}.

Definition MAX_AGGREGATE_CONDITIONS : Z := 100.

Definition resolveSubjects (accessPrincipal : AccessPrincipal) (localGroups : list string)
    : list string :=
  [Principal.principalToString (principal accessPrincipal)] ++
  ((λ g, "group:" +:+ g) <$> localGroups) ++
  ((λ g, "idp-group:" +:+ g) <$> groups accessPrincipal) ++
  ((λ c, "collective:" +:+ c) <$> collectives accessPrincipal).

Definition fieldString (fields : gmap string JsValue) (key : string) : option string :=
  match fields !! key with Some (VStr s) => Some s | _ => None end.

Definition canonicalPatternOf (grant : Grant.t) : option string :=
  ResourceSelector.canonicalTypePattern (ResourceSelector.pattern (Grant.resource grant)).

Definition grantMatchesResource (grant : Grant.t) (resource : AccessResource.t) : bool :=
  let kind := AccessResource.kind resource in
  if negb (bool_decide (ResourceSelector.kind (Grant.resource grant) = kind)) then false
  else if ResourceSelector.resourceSelectorMatches (Grant.resource grant)
            (AccessResource.name resource) then true
  else
    match fieldString (AccessResource.fields resource) "modelType" with
    | None => false
    | Some modelType =>
        if bool_decide (kind = ResourceSelector.model) &&
           ResourceSelector.resourceSelectorMatches (Grant.resource grant) modelType then true
        else if bool_decide (Grant.effect grant = Effect.deny) &&
                (bool_decide (kind = ResourceSelector.model) ||
                 AccessResource.isControlPlaneRecordResource resource) then
          match canonicalPatternOf grant with
          | None => false
          | Some canonical =>
              if ResourceSelector.namesTypePath (ResourceSelector.pattern (Grant.resource grant))
              then ResourceSelector.typePatternMatchesIgnoringAt canonical modelType
              else ResourceSelector.resourceSelectorMatches
                     (ResourceSelector.Mk kind canonical) modelType
          end
        else false
    end.

(** the options of the service, each with the default [true] *)
Record Implications : Type := MkImplications {
  i_approve : bool;
  i_signal : bool;
  i_tag : bool;
}.

Definition implicationsOf (runImpliesApprove runImpliesSignal writeImpliesTag : option bool)
    : Implications :=
  MkImplications (default true runImpliesApprove) (default true runImpliesSignal)
    (default true writeImpliesTag).

Definition IMPLYING_ACTION (action : Action.t) : option Action.t :=
  match action with
  | Action.approve => Some Action.run
  | Action.signal => Some Action.run
  | Action.tag => Some Action.write
  | _ => None
  end.

Definition IMPLIED_ACTIONS : list Action.t := [Action.approve; Action.signal; Action.tag].

Definition implied (i : Implications) (action : Action.t) : bool :=
  match action with
  | Action.approve => i_approve i
  | Action.signal => i_signal i
  | Action.tag => i_tag i
  | _ => false
  end.

Inductive ActionMatch : Type := direct | implying (action : Action.t).

Definition grantMatchesAction (grant : Grant.t) (action : Action.t) (implications : Implications)
    : option ActionMatch :=
  if bool_decide (action ∈ Grant.actions grant) then Some direct
  else
    match IMPLYING_ACTION action with
    | None => None
    | Some implying_ =>
        if negb (bool_decide (implying_ ∈ Grant.actions grant)) then None
        else if bool_decide (Grant.effect grant = Effect.deny) || implied implications action
        then Some (implying implying_) else None
    end.

Definition grantMatchesMethods (grant : Grant.t) (resource : AccessResource.t) : bool :=
  match Grant.methods grant with
  | None | Some [] => true
  | Some methods =>
      match fieldString (AccessResource.fields resource) "methodName" with
      | None => bool_decide (Grant.effect grant = Effect.deny) || AccessResource.anyMethod resource
      | Some methodName => bool_decide (methodName ∈ methods)
      end
  end.

Definition buildPrincipalContext (accessPrincipal : AccessPrincipal) (localGroups : list string)
    : PrincipalContext :=
  MkContext (Principal.id (principal accessPrincipal)) localGroups (collectives accessPrincipal).

(** [{ name: resource.name, ...resource.fields, client }] *)
Definition conditionFields (resource : AccessResource.t) (client : option string)
    : gmap string JsValue :=
  <["client" := VStr (Client.clientConditionValue client)]>
    (AccessResource.fields resource ∪ {["name" := VStr (AccessResource.name resource)]}).

Definition evaluateGrant (grant : Grant.t) (snapshot : PolicySnapshot.t)
    (resource : AccessResource.t) (principalContext : PrincipalContext) (client : option string)
    : ConditionOutcome :=
  match Grant.truthyCondition grant with
  | None => match_
  | Some condition =>
      let outcome :=
        evaluateConditionOutcome snapshot condition (AccessResource.kind resource)
          (conditionFields resource client) principalContext (AccessResource.pending resource) in
      if bool_decide (outcome = missing_field) && AccessResource.scopeKind resource
      then undecided else outcome
  end.

Definition toDecision (grant : Grant.t) (match_ : ActionMatch) (dependsOn : option (list string))
    : AccessDecision :=
  MkDecision (Grant.effect grant) (Grant.id grant) (Grant.subject grant) (Grant.condition grant)
    (match match_ with implying a => Some a | direct => None end) dependsOn.

Definition SERVICE_TRIGGER_DEFAULT_GRANT_ID : string := "builtin:service-trigger-default".

Definition serviceTriggerDefault (accessPrincipal : AccessPrincipal) (action : Action.t)
    (resource : AccessResource.t) : option AccessDecision :=
  if negb (bool_decide (Principal.kind (principal accessPrincipal) = Principal.service)) ||
     negb (bool_decide (action = Action.run)) ||
     negb (bool_decide (AccessResource.kind resource = ResourceSelector.workflow))
  then None
  else
    Some (MkDecision Effect.allow SERVICE_TRIGGER_DEFAULT_GRANT_ID
            (Subject.Mk Subject.service (Principal.id (principal accessPrincipal))) None None None).

Definition budgetExceededSubject (accessPrincipal : AccessPrincipal) : Subject.t :=
  Subject.Mk
    (if bool_decide (Principal.kind (principal accessPrincipal) = Principal.service)
     then Subject.service else Subject.user)
    (Principal.id (principal accessPrincipal)).

Definition budgetExceeded (accessPrincipal : AccessPrincipal) : AccessDecision :=
  MkDecision Effect.deny "aggregate-budget-exceeded" (budgetExceededSubject accessPrincipal)
    None None None.

(** the service: the snapshot it decides against and its options *)
Record t : Type := Mk {
  snapshot : PolicySnapshot.t;
  implications : Implications;
}.

Definition actionsCoveredBy (s : t) (grant : Grant.t) : list (Action.t * option Action.t) :=
  ((λ action, (action, None)) <$> Grant.actions grant) ++
  omap (λ action,
    match grantMatchesAction grant action (implications s) with
    | Some (implying a) => Some (action, Some a)
    | _ => None
    end) IMPLIED_ACTIONS.

(** the local variables [localGroups], [candidates] and [principalContext] *)
Definition localGroupsOf (s : t) (p : AccessPrincipal) : list string :=
  groupsForPrincipal (snapshot s) (Principal.principalToString (principal p)).

Definition candidatesOf (s : t) (p : AccessPrincipal) : list Grant.t :=
  grantsForSubjects (snapshot s) (resolveSubjects p (localGroupsOf s p)).

Definition contextOf (s : t) (p : AccessPrincipal) : PrincipalContext :=
  buildPrincipalContext p (localGroupsOf s p).

(** the three guards every candidate passes *)
Definition matchGrant (s : t) (action : Action.t) (resource : AccessResource.t) (grant : Grant.t)
    : option (Grant.t * ActionMatch) :=
  if negb (grantMatchesResource grant resource) then None
  else
    match grantMatchesAction grant action (implications s) with
    | None => None
    | Some m => if negb (grantMatchesMethods grant resource) then None else Some (grant, m)
    end.

Fixpoint collectMatches (s : t) (action : Action.t) (resource : AccessResource.t)
    (candidates : list Grant.t) (denies allows : list (Grant.t * ActionMatch))
    : list (Grant.t * ActionMatch) * list (Grant.t * ActionMatch) :=
  match candidates with
  | [] => (denies, allows)
  | grant :: rest =>
      match matchGrant s action resource grant with
      | None => collectMatches s action resource rest denies allows
      | Some gm =>
          if bool_decide (Grant.effect grant = Effect.deny)
          then collectMatches s action resource rest (denies ++ [gm]) allows
          else collectMatches s action resource rest denies (allows ++ [gm])
      end
  end.

Definition hasCondition (grant : Grant.t) : bool :=
  match Grant.truthyCondition grant with Some _ => true | None => false end.

(** the deny loop: a decision, or the counter and [denyUndecided] after it *)
Fixpoint denyLoop (s : t) (p : AccessPrincipal) (resource : AccessResource.t)
    (denies : list (Grant.t * ActionMatch)) (conditionsEvaluated : Z) (denyUndecided : bool)
    : AccessDecision + (Z * bool) :=
  match denies with
  | [] => inr (conditionsEvaluated, denyUndecided)
  | (grant, m) :: rest =>
      let conditionsEvaluated :=
        if hasCondition grant then (conditionsEvaluated + 1)%Z else conditionsEvaluated in
      if hasCondition grant && (MAX_AGGREGATE_CONDITIONS <? conditionsEvaluated)%Z
      then inl (budgetExceeded p)
      else
        let outcome := evaluateGrant grant (snapshot s) resource (contextOf s p) (client p) in
        if bool_decide (outcome = match_) || bool_decide (outcome = missing_field) ||
           bool_decide (outcome = error)
        then inl (toDecision grant m None)
        else
          denyLoop s p resource rest conditionsEvaluated
            (denyUndecided || bool_decide (outcome = undecided))
  end.

(** the allow loop: a decision, or [pendingAllow] after it *)
Fixpoint allowLoop (s : t) (p : AccessPrincipal) (resource : AccessResource.t)
    (allows : list (Grant.t * ActionMatch)) (conditionsEvaluated : Z)
    (pendingAllow : option AccessDecision) : AccessDecision + option AccessDecision :=
  match allows with
  | [] => inr pendingAllow
  | (grant, m) :: rest =>
      let conditionsEvaluated :=
        if hasCondition grant then (conditionsEvaluated + 1)%Z else conditionsEvaluated in
      if hasCondition grant && (MAX_AGGREGATE_CONDITIONS <? conditionsEvaluated)%Z
      then inl (budgetExceeded p)
      else
        let outcome := evaluateGrant grant (snapshot s) resource (contextOf s p) (client p) in
        if bool_decide (outcome = match_) then inl (toDecision grant m None)
        else
          allowLoop s p resource rest conditionsEvaluated
            (if bool_decide (outcome = pending) then
               match pendingAllow with
               | Some d => Some d
               | None => Some (toDecision grant m (AccessResource.pending resource))
               end
             else pendingAllow)
  end.

(** any action on a control-plane record is decided as admin *)
Definition effectiveAction (action : Action.t) (resource : AccessResource.t) : Action.t :=
  if AccessResource.isControlPlaneRecordResource resource then Action.admin else action.

Definition decide_ (s : t) (p : AccessPrincipal) (action : Action.t) (resource : AccessResource.t)
    : option AccessDecision :=
  let action := effectiveAction action resource in
  let '(denies, allows) := collectMatches s action resource (candidatesOf s p) [] [] in
  match denyLoop s p resource denies 0 false with
  | inl decision => Some decision
  | inr (conditionsEvaluated, denyUndecided) =>
      match allowLoop s p resource allows conditionsEvaluated None with
      | inl decision => Some decision
      | inr (Some pendingAllow) => Some pendingAllow
      | inr None => if denyUndecided then None else serviceTriggerDefault p action resource
      end
  end.

(** the accumulators of [explain] *)
Record Explained : Type := MkExplained {
  denyDecisions : list AccessDecision;
  allowDecisions : list AccessDecision;
  pendingAllows : list AccessDecision;
  pendingDenies : list AccessDecision;
  denyUndecided : bool;
}.

#[global] Instance Explained_eta : Eta Explained := λ r,
  MkExplained (denyDecisions r) (allowDecisions r) (pendingAllows r) (pendingDenies r) (denyUndecided r).

Definition explainGrant (resource : AccessResource.t) (grant : Grant.t) (m : ActionMatch)
    (outcome : ConditionOutcome) (acc : Explained) : Explained :=
  let isDeny := bool_decide (Grant.effect grant = Effect.deny) in
  let acc := if bool_decide (outcome = undecided) && isDeny
             then acc <| denyUndecided := true |> else acc in
  let acc :=
    if bool_decide (outcome = pending) then
      let decision := toDecision grant m (AccessResource.pending resource) in
      if isDeny then acc <| pendingDenies := pendingDenies acc ++ [decision] |>
      else acc <| pendingAllows := pendingAllows acc ++ [decision] |>
    else acc in
  if bool_decide (outcome = match_) ||
     ((bool_decide (outcome = missing_field) || bool_decide (outcome = error)) && isDeny) then
    if isDeny then acc <| denyDecisions := denyDecisions acc ++ [toDecision grant m None] |>
    else acc <| allowDecisions := allowDecisions acc ++ [toDecision grant m None] |>
  else acc.

Fixpoint explainLoop (s : t) (p : AccessPrincipal) (action : Action.t) (resource : AccessResource.t)
    (candidates : list Grant.t) (conditionsEvaluated : Z) (acc : Explained) : Explained :=
  match candidates with
  | [] => acc
  | grant :: rest =>
      match matchGrant s action resource grant with
      | None => explainLoop s p action resource rest conditionsEvaluated acc
      | Some (_, m) =>
          let conditionsEvaluated :=
            if hasCondition grant then (conditionsEvaluated + 1)%Z else conditionsEvaluated in
          if hasCondition grant && (MAX_AGGREGATE_CONDITIONS <? conditionsEvaluated)%Z
          then acc <| denyUndecided := true |>
          else
            explainLoop s p action resource rest conditionsEvaluated
              (explainGrant resource grant m
                 (evaluateGrant grant (snapshot s) resource (contextOf s p) (client p)) acc)
      end
  end.

Definition explain (s : t) (p : AccessPrincipal) (action : Action.t) (resource : AccessResource.t)
    : list AccessDecision :=
  let action := effectiveAction action resource in
  let acc := explainLoop s p action resource (candidatesOf s p) 0 (MkExplained [] [] [] [] false) in
  let all := denyDecisions acc ++ allowDecisions acc ++ pendingAllows acc ++ pendingDenies acc in
  match all, denyUndecided acc, serviceTriggerDefault p action resource with
  | [], false, Some builtin => [builtin]
  | _, _, _ => all
  end.

Fixpoint decideAllLoop (s : t) (p : AccessPrincipal) (action : Action.t)
    (kind : ResourceSelector.ResourceKind) (candidates : list Grant.t) : option AccessDecision :=
  match candidates with
  | [] => None
  | grant :: rest =>
      if negb (bool_decide (Grant.effect grant = Effect.deny)) ||
         negb (bool_decide (ResourceSelector.kind (Grant.resource grant) = kind))
      then decideAllLoop s p action kind rest
      else
        match grantMatchesAction grant action (implications s) with
        | None => decideAllLoop s p action kind rest
        | Some m =>
            let settled :=
              match Grant.truthyCondition grant with
              | None => false
              | Some condition =>
                  bool_decide
                    (evaluateConditionOutcome (snapshot s) condition kind
                       {["client" := VStr (Client.clientConditionValue (client p))]}
                       (contextOf s p) None = no_match)
              end in
            if settled then decideAllLoop s p action kind rest
            else Some (toDecision grant m None)
        end
  end.

Definition decideAll (s : t) (p : AccessPrincipal) (action : Action.t)
    (kind : ResourceSelector.ResourceKind) : option AccessDecision :=
  match decideAllLoop s p action kind (candidatesOf s p) with
  | Some decision => Some decision
  | None =>
      decide_ s p action
        (AccessResource.Mk kind "*" {["name" := VStr "*"]} false false None)
  end.

Definition hasAnyGrantForKind (s : t) (p : AccessPrincipal) (action : Action.t)
    (kind : ResourceSelector.ResourceKind) : bool :=
  existsb (λ grant,
    bool_decide (Grant.effect grant = Effect.allow) &&
    bool_decide (ResourceSelector.kind (Grant.resource grant) = kind) &&
    match grantMatchesAction grant action (implications s) with Some _ => true | None => false end)
    (candidatesOf s p).

(** ** What the loops compute *)

Notation outcomeOf s p resource grant :=
  (evaluateGrant grant (snapshot s) resource (contextOf s p) (client p)).

(** the candidates that pass the guards, in order *)
Definition matched (s : t) (action : Action.t) (resource : AccessResource.t)
    (candidates : list Grant.t) : list (Grant.t * ActionMatch) :=
  omap (matchGrant s action resource) candidates.

Lemma matched_cons s action resource g cs :
  matched s action resource (g :: cs) =
  match matchGrant s action resource g with
  | Some gm => gm :: matched s action resource cs
  | None => matched s action resource cs
  end.
Proof. done. Qed.

Definition isDeny (gm : Grant.t * ActionMatch) : bool :=
  bool_decide (Grant.effect gm.1 = Effect.deny).

Definition denyMatches s action resource candidates :=
  List.filter isDeny (matched s action resource candidates).

Definition allowMatches s action resource candidates :=
  List.filter (λ gm, negb (isDeny gm)) (matched s action resource candidates).

(** the outcomes on which a deny refuses *)
Definition refusing (o : ConditionOutcome) : bool :=
  bool_decide (o = match_) || bool_decide (o = missing_field) || bool_decide (o = error).

(** how many conditions a list of grants charges to the budget *)
Definition conditions (l : list (Grant.t * ActionMatch)) : Z :=
  Z.of_nat (length (List.filter (λ gm, hasCondition gm.1) l)).

Lemma matchGrant_grant s action resource g g' m :
  matchGrant s action resource g = Some (g', m) → g' = g.
Proof. unfold matchGrant. repeat case_match; naive_solver. Qed.

Lemma collectMatches_spec s action resource cs denies allows :
  collectMatches s action resource cs denies allows =
  (denies ++ denyMatches s action resource cs, allows ++ allowMatches s action resource cs).
Proof.
  unfold denyMatches, allowMatches, matched. revert denies allows.
  induction cs as [|g cs IH]; intros denies allows; simpl; [by rewrite !app_nil_r|].
  destruct (matchGrant s action resource g) as [[g' m]|] eqn:E; [|apply IH].
  apply matchGrant_grant in E as ->. simpl. unfold isDeny; simpl.
  case_bool_decide; rewrite IH, <-app_assoc; simpl; done.
Qed.

Lemma conditions_cons gm l :
  conditions (gm :: l) = ((if hasCondition gm.1 then 1 else 0) + conditions l)%Z.
Proof. unfold conditions. simpl. destruct (hasCondition gm.1); simpl; lia. Qed.

Lemma conditions_nonneg l : (0 ≤ conditions l)%Z.
Proof. unfold conditions. lia. Qed.

Lemma denyLoop_inr s p resource denies n u n' u' :
  denyLoop s p resource denies n u = inr (n', u') ↔
  Forall (λ gm, refusing (outcomeOf s p resource gm.1) = false) denies ∧
  n' = (n + conditions denies)%Z ∧
  (conditions denies = 0 ∨ n + conditions denies ≤ MAX_AGGREGATE_CONDITIONS)%Z ∧
  u' = u || existsb (λ gm, bool_decide (outcomeOf s p resource gm.1 = undecided)) denies.
Proof.
  revert n u. induction denies as [|[g m] l IH]; intros n u; simpl.
  { rewrite orb_false_r. unfold conditions; simpl. rewrite Z.add_0_r. split; [|naive_solver].
    intros [= <- <-]. split_and!; auto. }
  rewrite conditions_cons, Forall_cons. simpl. fold (refusing (outcomeOf s p resource g)).
  pose proof (conditions_nonneg l) as Hc.
  destruct (hasCondition g); cbn [andb].
  - destruct (Z.ltb_spec MAX_AGGREGATE_CONDITIONS (n + 1)) as [Hlt|Hle].
    + split; [done|]. intros (_ & _ & Hb & _). lia.
    + destruct (refusing _); [split; [discriminate|by intros ([? _] & _)]|]. rewrite IH, orb_assoc.
      split; [intros (H1 & H2 & H3 & H4)|intros ([H0 H1] & H2 & H3 & H4)];
        split_and!; try done; lia.
  - destruct (refusing _); [split; [discriminate|by intros ([? _] & _)]|]. rewrite IH, orb_assoc, !Z.add_0_l. naive_solver.
Qed.

Lemma denyLoop_inl s p resource denies n u d :
  denyLoop s p resource denies n u = inl d →
  d = budgetExceeded p ∨
  ∃ g m, (g, m) ∈ denies ∧ refusing (outcomeOf s p resource g) = true ∧ d = toDecision g m None.
Proof.
  revert n u. induction denies as [|[g m] l IH]; intros n u; simpl; [done|].
  fold (refusing (outcomeOf s p resource g)). case_match; [intros [= <-]; by left|].
  destruct (refusing _) eqn:Hr.
  - intros [= <-]. right. exists g, m. set_solver.
  - intros [?|(g' & m' & ? & ?)]%IH; [by left|]. right. exists g', m'. set_solver.
Qed.

Lemma allowLoop_inl s p resource allows n po d :
  allowLoop s p resource allows n po = inl d →
  d = budgetExceeded p ∨
  ∃ g m, (g, m) ∈ allows ∧ outcomeOf s p resource g = match_ ∧ d = toDecision g m None.
Proof.
  revert n po. induction allows as [|[g m] l IH]; intros n po; simpl; [done|].
  case_match; [intros [= <-]; by left|]. case_bool_decide.
  - intros [= <-]. right. exists g, m. set_solver.
  - intros [?|(g' & m' & ? & ?)]%IH; [by left|]. right. exists g', m'. set_solver.
Qed.

(** the decision of the first allow that waits on pending fields *)
Definition firstPending s p resource (allows : list (Grant.t * ActionMatch)) : option AccessDecision :=
  (λ gm, toDecision gm.1 gm.2 (AccessResource.pending resource)) <$>
  List.find (λ gm, bool_decide (outcomeOf s p resource gm.1 = pending)) allows.

Lemma allowLoop_inr s p resource allows n po po' :
  allowLoop s p resource allows n po = inr po' →
  Forall (λ gm, outcomeOf s p resource gm.1 ≠ match_) allows ∧
  po' = match po with Some d => Some d | None => firstPending s p resource allows end.
Proof.
  revert n po. induction allows as [|[g m] l IH]; intros n po; simpl.
  { intros [= <-]. split; [done|]. by destruct po. }
  case_match; [done|]. case_bool_decide as Hm; [done|]. intros [Hall ->]%IH.
  split; [by constructor|]. unfold firstPending. simpl.
  case_bool_decide; destruct po; done.
Qed.

Lemma allowLoop_budget s p resource allows n n' po r :
  (n' ≤ n)%Z → allowLoop s p resource allows n po = r → r ≠ inl (budgetExceeded p) →
  allowLoop s p resource allows n' po = r.
Proof.
  revert n n' po. induction allows as [|[g m] l IH]; intros n n' po Hn; simpl; [done|].
  destruct (hasCondition g); cbn [andb].
  - destruct (Z.ltb_spec MAX_AGGREGATE_CONDITIONS (n + 1)) as [|Hle]; [by intros <-|].
    destruct (Z.ltb_spec MAX_AGGREGATE_CONDITIONS (n' + 1)) as [|_]; [lia|].
    case_bool_decide; [done|]. apply IH. lia.
  - case_bool_decide; [done|]. by apply IH.
Qed.

(** the loops read the snapshot only through the outcomes *)
Lemma loops_ext s s' p resource :
  (∀ g, outcomeOf s p resource g = outcomeOf s' p resource g) →
  (∀ l n u, denyLoop s p resource l n u = denyLoop s' p resource l n u) ∧
  (∀ l n po, allowLoop s p resource l n po = allowLoop s' p resource l n po).
Proof.
  intros Ho. split; induction l as [|[g m] l IH]; intros; simpl; [done| |done|];
    rewrite Ho; repeat (case_match; try done); apply IH.
Qed.

Lemma decide_eq s p action resource :
  decide_ s p action resource =
  let a := effectiveAction action resource in
  match denyLoop s p resource (denyMatches s a resource (candidatesOf s p)) 0 false with
  | inl d => Some d
  | inr (n, u) =>
      match allowLoop s p resource (allowMatches s a resource (candidatesOf s p)) n None with
      | inl d => Some d
      | inr (Some d) => Some d
      | inr None => if u then None else serviceTriggerDefault p a resource
      end
  end.
Proof. unfold decide_. by rewrite collectMatches_spec. Qed.

Lemma elem_of_denyMatches s action resource cs gm :
  gm ∈ denyMatches s action resource cs ↔
  gm ∈ matched s action resource cs ∧ Grant.effect gm.1 = Effect.deny.
Proof. unfold denyMatches. rewrite elem_of_bfilter. unfold isDeny. by rewrite bool_decide_eq_true. Qed.

Lemma elem_of_allowMatches s action resource cs gm :
  gm ∈ allowMatches s action resource cs ↔
  gm ∈ matched s action resource cs ∧ Grant.effect gm.1 = Effect.allow.
Proof.
  unfold allowMatches. rewrite elem_of_bfilter. unfold isDeny. rewrite negb_true_iff, bool_decide_eq_false.
  destruct (Grant.effect gm.1); naive_solver.
Qed.

(** ** The contract of [decide] *)

Section contract.
Context (s : t) (p : AccessPrincipal) (action : Action.t) (resource : AccessResource.t).

(** a candidate that passes the guards, with its outcome *)
Definition applies (g : Grant.t) (m : ActionMatch) (e : Effect.t) (o : ConditionOutcome) : Prop :=
  (g, m) ∈ matched s (effectiveAction action resource) resource (candidatesOf s p) ∧
  Grant.effect g = e ∧ outcomeOf s p resource g = o.

Definition noDenyRefuses : Prop :=
  ∀ g m o, applies g m Effect.deny o → refusing o = false.

Definition withinDenyBudget : Prop :=
  (conditions (denyMatches s (effectiveAction action resource) resource (candidatesOf s p))
   ≤ MAX_AGGREGATE_CONDITIONS)%Z.

Inductive justified : option AccessDecision → Prop :=
| by_deny g m o :
    applies g m Effect.deny o → refusing o = true → justified (Some (toDecision g m None))
| by_budget : justified (Some (budgetExceeded p))
| by_allow g m :
    noDenyRefuses → withinDenyBudget → applies g m Effect.allow match_ →
    justified (Some (toDecision g m None))
| by_pending g m :
    noDenyRefuses → withinDenyBudget → applies g m Effect.allow pending →
    (∀ g' m', ¬ applies g' m' Effect.allow match_) →
    justified (Some (toDecision g m (AccessResource.pending resource)))
| by_default d :
    noDenyRefuses → withinDenyBudget →
    (∀ g m, ¬ applies g m Effect.deny undecided) →
    (∀ g m o, applies g m Effect.allow o → o ≠ match_ ∧ o ≠ pending) →
    serviceTriggerDefault p (effectiveAction action resource) resource = d →
    justified d
| by_nothing :
    noDenyRefuses → (∃ g m, applies g m Effect.deny undecided) →
    (∀ g m o, applies g m Effect.allow o → o ≠ match_ ∧ o ≠ pending) →
    justified None.

Lemma decide_justified : justified (decide_ s p action resource).
Proof.
  rewrite decide_eq. set (a := effectiveAction action resource). simpl.
  destruct (denyLoop _ _ _ _ _ _) as [d|[n u]] eqn:Hd.
  { apply denyLoop_inl in Hd as [->|(g & m & Hin & Hr & ->)]; [constructor|].
    apply elem_of_denyMatches in Hin as [? ?]. by eapply by_deny. }
  apply denyLoop_inr in Hd as (Hall & -> & Hb & ->).
  assert (noDenyRefuses) as Hno.
  { intros g m o (Hg & He & <-). rewrite Forall_forall in Hall. apply (Hall (g, m)).
    by apply elem_of_denyMatches. }
  assert (withinDenyBudget) as Hbud.
  { unfold withinDenyBudget. fold a. unfold MAX_AGGREGATE_CONDITIONS in *. lia. }
  destruct (allowLoop _ _ _ _ _ _) as [d|po] eqn:Ha.
  { apply allowLoop_inl in Ha as [->|(g & m & Hin & Ho & ->)]; [constructor|].
    apply elem_of_allowMatches in Hin as [? ?]. by apply by_allow. }
  apply allowLoop_inr in Ha as [Hnm ->]. rewrite Forall_forall in Hnm.
  assert (∀ g m, ¬ applies g m Effect.allow match_) as Hnomatch.
  { intros g m (Hg & He & Ho). apply (Hnm (g, m)); [by apply elem_of_allowMatches|done]. }
  unfold firstPending. destruct (List.find _ _) as [[g m]|] eqn:Hf; simpl.
  { apply find_Some_elem_of in Hf as [Hin Ho]. apply elem_of_allowMatches in Hin as [? ?].
    split_bools. by apply by_pending. }
  rewrite find_None_elem_of in Hf.
  assert (∀ g m o, applies g m Effect.allow o → o ≠ match_ ∧ o ≠ pending) as Hnone.
  { intros g m o (Hg & He & <-). split; [intros Ho; by apply (Hnomatch g m)|].
    specialize (Hf (g, m)). rewrite elem_of_allowMatches in Hf. simpl in Hf.
    specialize (Hf (conj Hg He)). by split_bools. }
  destruct (existsb _ _) eqn:Hu; simpl.
  - apply existsb_elem_of in Hu as ([g m] & Hin & Ho). apply elem_of_denyMatches in Hin as [? ?].
    split_bools. apply by_nothing; [done| |done]. by exists g, m.
  - apply by_default; try done. intros g m (Hg & He & Ho).
    rewrite existsb_false_elem_of in Hu. specialize (Hu (g, m)).
    rewrite elem_of_denyMatches in Hu. simpl in Hu. specialize (Hu (conj Hg He)). by split_bools.
Qed.

End contract.

Lemma serviceTriggerDefault_allow p action resource d :
  serviceTriggerDefault p action resource = Some d → effect d = Effect.allow.
Proof. unfold serviceTriggerDefault. case_match; naive_solver. Qed.


(** C10: an allow has a reason. When [decide] allows, no deny that applies
    refuses and the denies stay within the condition budget, and the decision
    is that of an allow grant whose condition holds, of one waiting only on the
    pending fields the resource declares, or the built-in service trigger
    default, which needs every deny decided. *)
Theorem allow_is_justified (s : t) (p : AccessPrincipal) (action : Action.t)
    (resource : AccessResource.t) (d : AccessDecision) :
  decide_ s p action resource = Some d → effect d = Effect.allow →
  noDenyRefuses s p action resource ∧ withinDenyBudget s p action resource ∧
  ((∃ g m, applies s p action resource g m Effect.allow match_ ∧ d = toDecision g m None) ∨
   (∃ g m, applies s p action resource g m Effect.allow pending ∧
           d = toDecision g m (AccessResource.pending resource)) ∨
   (serviceTriggerDefault p (effectiveAction action resource) resource = Some d ∧
    ∀ g m, ¬ applies s p action resource g m Effect.deny undecided)).
Proof.
  intros Hd He.
  destruct (decide_justified s p action resource) as [g m o (_ & Hg & _) _| | g m|g m|d'|];
    simplify_eq; try done.
  - simpl in He. congruence.
  - split_and!; [done..|]. left. by exists g, m.
  - split_and!; [done..|]. right; left. by exists g, m.
  - split_and!; [done..|]. right; right. done.
Qed.

(** ** Adding a deny *)

Lemma denyMatches_app s action resource l1 l2 :
  denyMatches s action resource (l1 ++ l2) =
  denyMatches s action resource l1 ++ denyMatches s action resource l2.
Proof. unfold denyMatches, matched. by rewrite omap_app, List.filter_app. Qed.

Lemma allowMatches_app s action resource l1 l2 :
  allowMatches s action resource (l1 ++ l2) =
  allowMatches s action resource l1 ++ allowMatches s action resource l2.
Proof. unfold allowMatches, matched. by rewrite omap_app, List.filter_app. Qed.

Lemma allowMatches_deny s action resource g :
  Grant.effect g = Effect.deny → allowMatches s action resource [g] = [].
Proof.
  intros He. unfold allowMatches, matched. simpl.
  destruct (matchGrant s action resource g) as [[g' m]|] eqn:E; simpl; [|done].
  apply matchGrant_grant in E as ->. unfold isDeny; simpl. by rewrite bool_decide_eq_true_2.
Qed.

(** the same candidates, with more denies among them *)
Definition moreDenies (l l' : list Grant.t) : Prop :=
  ∀ s action resource,
    denyMatches s action resource l `sublist_of` denyMatches s action resource l' ∧
    allowMatches s action resource l = allowMatches s action resource l'.

Lemma moreDenies_refl l : moreDenies l l.
Proof. by intros s action resource. Qed.

Lemma moreDenies_app l1 l1' l2 l2' :
  moreDenies l1 l1' → moreDenies l2 l2' → moreDenies (l1 ++ l2) (l1' ++ l2').
Proof.
  intros H1 H2 s action resource. destruct (H1 s action resource), (H2 s action resource).
  rewrite !denyMatches_app, !allowMatches_app. split; [by apply sublist_app|by f_equal].
Qed.

Lemma moreDenies_insert l1 g l2 :
  Grant.effect g = Effect.deny → moreDenies (l1 ++ l2) (l1 ++ g :: l2).
Proof.
  intros He. apply moreDenies_app; [apply moreDenies_refl|].
  change l2 with ([] ++ l2) at 1. change (g :: l2) with ([g] ++ l2).
  apply moreDenies_app; [|apply moreDenies_refl].
  intros s action resource. split; [apply sublist_nil_l|]. by rewrite allowMatches_deny.
Qed.

Lemma moreDenies_candidates gs1 g gs2 grps ev subjects :
  Grant.effect g = Effect.deny →
  moreDenies (grantsForSubjects (construct (gs1 ++ gs2) grps ev) subjects)
             (grantsForSubjects (construct (gs1 ++ g :: gs2) grps ev) subjects).
Proof.
  intros He. rewrite !grantsForSubjects_eq.
  induction subjects as [|k ks IH]; simpl; [apply moreDenies_refl|].
  apply moreDenies_app; [|done]. rewrite !lookup_indexGrants, !List.filter_app. simpl.
  case_bool_decide; [by apply moreDenies_insert|apply moreDenies_refl].
Qed.

Lemma conditions_sublist l l' : l `sublist_of` l' → (conditions l ≤ conditions l')%Z.
Proof. induction 1 as [|? ? ? _ IH|? ? ? _ IH]; rewrite ?conditions_cons; try case_match; lia. Qed.

Lemma denyLoop_sublist s p resource l l' n' u' :
  l `sublist_of` l' → denyLoop s p resource l' 0 false = inr (n', u') →
  ∃ n u, denyLoop s p resource l 0 false = inr (n, u) ∧ (n ≤ n')%Z ∧ (u = true → u' = true).
Proof.
  intros Hsub (Hall & -> & Hb & ->)%denyLoop_inr. pose proof (conditions_sublist _ _ Hsub).
  pose proof (conditions_nonneg l).
  eexists _, _. split.
  { apply denyLoop_inr. split_and!; [|done| |done].
    - rewrite Forall_forall in *. eauto using elem_of_sublist.
    - lia. }
  split; [lia|]. simpl. rewrite !existsb_elem_of. intros (x & Hx & Ho).
  exists x. split; [|done]. by eapply elem_of_sublist.
Qed.

(** C24: a deny never widens access. Adding a deny grant anywhere in the policy
    leaves every remaining allow as it was: a request allowed with the extra
    deny was allowed, by the same decision, without it. *)
Theorem adding_a_deny_never_widens (gs1 gs2 : list Grant.t) (g : Grant.t) (grps : list Group.t)
    (ev : option ConditionEvaluator) (i : Implications) (p : AccessPrincipal) (action : Action.t)
    (resource : AccessResource.t) (d : AccessDecision) :
  Grant.effect g = Effect.deny →
  decide_ (Mk (construct (gs1 ++ g :: gs2) grps ev) i) p action resource = Some d →
  effect d = Effect.allow →
  decide_ (Mk (construct (gs1 ++ gs2) grps ev) i) p action resource = Some d.
Proof.
  intros Hg. rewrite !decide_eq. cbn zeta. set (a := effectiveAction action resource).
  set (s' := Mk (construct (gs1 ++ g :: gs2) grps ev) i).
  set (s := Mk (construct (gs1 ++ gs2) grps ev) i).
  destruct (moreDenies_candidates gs1 g gs2 grps ev (resolveSubjects p (localGroupsOf s p)) Hg
              s' a resource) as [Hd Ha].
  change (denyMatches s' a resource (candidatesOf s p) `sublist_of`
          denyMatches s' a resource (candidatesOf s' p)) in Hd.
  change (allowMatches s' a resource (candidatesOf s p) =
          allowMatches s' a resource (candidatesOf s' p)) in Ha.
  change (allowMatches s a resource (candidatesOf s p)) with (allowMatches s' a resource (candidatesOf s p)).
  change (denyMatches s a resource (candidatesOf s p)) with (denyMatches s' a resource (candidatesOf s p)).
  rewrite Ha. clear Ha. destruct (denyLoop s' _ _ _ _ _) as [d'|[n' u']] eqn:Hdl.
  { intros [= ->] He. exfalso. apply denyLoop_inl in Hdl as [->|(g' & m' & Hin & _ & ->)]; [done|].
    apply elem_of_denyMatches in Hin as [_ Hin]. simpl in *. congruence. }
  destruct (denyLoop_sublist _ _ _ _ _ _ _ Hd Hdl) as (n & u & Hl & Hn & Hu).
  destruct (loops_ext s s' p resource (λ g, eq_refl)) as [Ed Ea]. rewrite Ed, Hl.
  intros E He.
  destruct (allowLoop s' p resource _ n' None) as [d'|po] eqn:Hal.
  - rewrite Ea, (allowLoop_budget _ _ _ _ _ _ _ _ Hn Hal) by naive_solver. done.
  - rewrite Ea, (allowLoop_budget _ _ _ _ _ _ _ _ Hn Hal) by done. destruct po; [done|].
    destruct u', u; naive_solver.
Qed.

(** ** Control-plane records *)

(** an action decided as admin is allowed by a grant that lists admin itself *)
Lemma admin_allowed s p action resource d :
  effectiveAction action resource = Action.admin →
  decide_ s p action resource = Some d → effect d = Effect.allow →
  ∃ g, g ∈ candidatesOf s p ∧ Grant.effect g = Effect.allow ∧ Action.admin ∈ Grant.actions g ∧
       grantMatchesResource g resource = true ∧ grantId d = Grant.id g.
Proof.
  intros Ha Hd He.
  assert (∀ g m o, applies s p action resource g m Effect.allow o →
    g ∈ candidatesOf s p ∧ Grant.effect g = Effect.allow ∧ Action.admin ∈ Grant.actions g ∧
    grantMatchesResource g resource = true) as Hap.
  { intros g m o (Hin & Hge & _). apply list_elem_of_omap in Hin as (g' & Hc & Hm).
    pose proof (matchGrant_grant _ _ _ _ _ _ Hm) as ->. split; [done|]. split; [done|].
    unfold matchGrant in Hm. rewrite Ha in Hm.
    destruct (grantMatchesResource _ _); [|done]. split; [|done].
    unfold grantMatchesAction in Hm. case_bool_decide; done. }
  destruct (decide_justified s p action resource) as [g m o (_ & Hg & _) _| | g m|g m|d' ? ? ? ? Hdef|];
    simplify_eq; try done.
  - simpl in He. congruence.
  - exists g. destruct (Hap g m match_) as (?&?&?&?); done.
  - exists g. destruct (Hap g m pending) as (?&?&?&?); done.
  - rewrite Ha in Hdef. unfold serviceTriggerDefault in Hdef.
    rewrite (bool_decide_eq_false_2 (Action.admin = _)), orb_true_r in Hdef by done. done.
Qed.

(** a decision that is no deny leaves no deny that refuses *)
Lemma decide_not_refused s p action resource :
  (∀ d, decide_ s p action resource = Some d → effect d = Effect.allow) →
  noDenyRefuses s p action resource.
Proof.
  intros H.
  destruct (decide_justified s p action resource) as [g m o (_ & Hg & _) _| | g m|g m|d'|]; try done.
  - specialize (H _ eq_refl). simpl in H. congruence.
  - by specialize (H _ eq_refl).
Qed.

(** C23: only an admin grant opens a control-plane record. When any action on a
    control-plane record is allowed, an allow grant of the principal that lists
    the admin action itself matched it; run and write imply nothing there and
    the service trigger default never applies. *)
Theorem control_plane_needs_admin (s : t) (p : AccessPrincipal) (action : Action.t)
    (resource : AccessResource.t) (d : AccessDecision) :
  AccessResource.isControlPlaneRecordResource resource = true →
  decide_ s p action resource = Some d → effect d = Effect.allow →
  ∃ g, g ∈ candidatesOf s p ∧ Grant.effect g = Effect.allow ∧ Action.admin ∈ Grant.actions g ∧
       grantMatchesResource g resource = true ∧ grantId d = Grant.id g.
Proof.
  intros Hcp. apply admin_allowed. unfold effectiveAction. by rewrite Hcp.
Qed.

(** ** Whole-kind decisions *)

(** a condition decided on some fields is decided alike on more of them *)
Definition EvaluatorMonotone (ev : ConditionEvaluator) : Prop :=
  ∀ condition kind fields fields' context b,
    fields ⊆ fields' → ev condition kind fields context = EvalBool b →
    ev condition kind fields' context = EvalBool b.

Lemma decideAllLoop_none s p action kind cs :
  decideAllLoop s p action kind cs = None →
  ∀ g m, g ∈ cs → Grant.effect g = Effect.deny → ResourceSelector.kind (Grant.resource g) = kind →
    grantMatchesAction g action (implications s) = Some m →
    ∃ condition, Grant.truthyCondition g = Some condition ∧
      evaluator (snapshot s) condition kind
        {["client" := VStr (Client.clientConditionValue (client p))]} (contextOf s p) = EvalBool false.
Proof.
  induction cs as [|c cs IH]; simpl; [set_solver|]. intros H g m Hin He Hk Hm.
  apply elem_of_cons in Hin as [<-|Hin].
  - rewrite He, Hk, !bool_decide_eq_true_2 in H by done. simpl in H. rewrite Hm in H.
    destruct (Grant.truthyCondition g) as [condition|]; [|done]. exists condition. split; [done|].
    case_bool_decide as Ho; [|done]. unfold evaluateConditionOutcome in Ho.
    repeat case_match; naive_solver.
  - apply (IH) with m; try done. repeat case_match; naive_solver.
Qed.


(** ** Explanations *)

Section explain_agreement.
Context (s : t) (p : AccessPrincipal) (resource : AccessResource.t).

Definition decisionsOf (dependsOn : option (list string)) (f : Grant.t * ActionMatch → bool)
    (l : list (Grant.t * ActionMatch)) : list AccessDecision :=
  (λ gm, toDecision gm.1 gm.2 dependsOn) <$> List.filter f l.

Notation outcome gm := (outcomeOf s p resource gm.1).

Definition explained (ms : list (Grant.t * ActionMatch)) : Explained :=
  MkExplained
    (decisionsOf None (λ gm, isDeny gm && refusing (outcome gm)) ms)
    (decisionsOf None (λ gm, negb (isDeny gm) && bool_decide (outcome gm = match_)) ms)
    (decisionsOf (AccessResource.pending resource)
       (λ gm, negb (isDeny gm) && bool_decide (outcome gm = pending)) ms)
    (decisionsOf (AccessResource.pending resource)
       (λ gm, isDeny gm && bool_decide (outcome gm = pending)) ms)
    (existsb (λ gm, isDeny gm && bool_decide (outcome gm = undecided)) ms).

Definition appendExplained (a b : Explained) : Explained :=
  MkExplained (denyDecisions a ++ denyDecisions b) (allowDecisions a ++ allowDecisions b)
    (pendingAllows a ++ pendingAllows b) (pendingDenies a ++ pendingDenies b)
    (denyUndecided a || denyUndecided b).

Lemma explainGrant_append gm ms acc :
  appendExplained (explainGrant resource gm.1 gm.2 (outcome gm) acc) (explained ms) =
  appendExplained acc (explained (gm :: ms)).
Proof.
  destruct gm as [g m]. unfold explainGrant, appendExplained, explained, decisionsOf. simpl.
  assert (∀ m', isDeny (g, m') = bool_decide (Grant.effect g = Effect.deny)) as E by done.
  rewrite !E. destruct (bool_decide (Grant.effect g = Effect.deny)), (outcomeOf s p resource g);
    simpl; f_equal; rewrite <-?app_assoc, ?orb_true_r, ?orb_false_r; done.
Qed.

Lemma explainLoop_eq action cs n acc :
  (conditions (matched s action resource cs) = 0 ∨
   n + conditions (matched s action resource cs) ≤ MAX_AGGREGATE_CONDITIONS)%Z →
  explainLoop s p action resource cs n acc =
  appendExplained acc (explained (matched s action resource cs)).
Proof.
  revert n acc. induction cs as [|g cs IH]; intros n acc.
  { intros _. unfold appendExplained, explained, decisionsOf; simpl.
    rewrite !app_nil_r, orb_false_r. by destruct acc. }
  cbn [explainLoop]. rewrite matched_cons.
  destruct (matchGrant s action resource g) as [[g' m]|] eqn:E; [|apply IH].
  apply matchGrant_grant in E as ->. rewrite conditions_cons. cbn [fst].
  pose proof (conditions_nonneg (matched s action resource cs)). intros Hb.
  destruct (hasCondition g); cbn [andb].
  - rewrite (proj2 (Z.ltb_ge _ _)) by lia. rewrite IH by lia. apply (explainGrant_append (g, m)).
  - rewrite IH by lia. apply (explainGrant_append (g, m)).
Qed.

Lemma denyLoop_first denies n u :
  (conditions denies = 0 ∨ n + conditions denies ≤ MAX_AGGREGATE_CONDITIONS)%Z →
  denyLoop s p resource denies n u =
  match List.find (λ gm, refusing (outcome gm)) denies with
  | Some gm => inl (toDecision gm.1 gm.2 None)
  | None =>
      inr (n + conditions denies, u || existsb (λ gm, bool_decide (outcome gm = undecided)) denies)%Z
  end.
Proof.
  intros Hb. destruct (List.find _ _) as [gm|] eqn:Hf.
  - revert n u Hb Hf. induction denies as [|[g m] l IH]; intros n u Hb; simpl; [done|].
    fold (refusing (outcomeOf s p resource g)). rewrite conditions_cons in Hb. cbn [fst] in Hb.
    pose proof (conditions_nonneg l).
    destruct (hasCondition g); cbn [andb]; rewrite ?(proj2 (Z.ltb_ge _ _)) by lia;
      (destruct (refusing _); [by intros [= <-]|apply IH; lia]).
  - apply denyLoop_inr. split_and!; try done. rewrite Forall_forall. by rewrite find_None_elem_of in Hf.
Qed.

Lemma allowLoop_first allows n po :
  (conditions allows = 0 ∨ n + conditions allows ≤ MAX_AGGREGATE_CONDITIONS)%Z →
  allowLoop s p resource allows n po =
  match List.find (λ gm, bool_decide (outcome gm = match_)) allows with
  | Some gm => inl (toDecision gm.1 gm.2 None)
  | None => inr match po with Some d => Some d | None => firstPending s p resource allows end
  end.
Proof.
  revert n po. unfold firstPending.
  induction allows as [|[g m] l IH]; intros n po Hb; simpl; [by destruct po|].
  rewrite conditions_cons in Hb. cbn [fst] in Hb. pose proof (conditions_nonneg l).
  destruct (hasCondition g); cbn [andb]; rewrite ?(proj2 (Z.ltb_ge _ _)) by lia;
    (case_bool_decide; [done|]); (rewrite IH by lia);
    repeat case_match; simpl in *; naive_solver.
Qed.

Lemma conditions_split (f : Grant.t * ActionMatch → bool) l :
  (conditions (List.filter f l) + conditions (List.filter (λ x, negb (f x)) l) = conditions l)%Z.
Proof.
  induction l as [|x l IH]; simpl; [done|].
  destruct (f x); simpl; rewrite !conditions_cons; lia.
Qed.

End explain_agreement.

Lemma find_filter {A} (f g : A → bool) l :
  List.find f (List.filter g l) = head (List.filter (λ x, g x && f x) l).
Proof. induction l as [|x l IH]; simpl; [done|]. destruct (g x), (f x) eqn:?; simpl; rewrite ?Heqb; done. Qed.

Lemma existsb_filter {A} (f g : A → bool) l :
  existsb f (List.filter g l) = existsb (λ x, g x && f x) l.
Proof. induction l as [|x l IH]; simpl; [done|]. destruct (g x); simpl; by rewrite IH. Qed.

Lemma head_fmap {A B} (f : A → B) l : head (f <$> l) = f <$> head l.
Proof. by destruct l. Qed.

(** a decision [explain] lists as waiting on pending fields *)
Definition isPendingDeny (d : AccessDecision) : bool :=
  bool_decide (effect d = Effect.deny) && bool_decide (dependsOn d ≠ None).

Lemma isPendingDeny_None g m : isPendingDeny (toDecision g m None) = false.
Proof. unfold isPendingDeny. simpl. apply andb_false_r. Qed.

Lemma isPendingDeny_default p action resource d :
  serviceTriggerDefault p action resource = Some d → isPendingDeny d = false.
Proof. intros H%serviceTriggerDefault_allow. unfold isPendingDeny. by rewrite H. Qed.

Lemma evaluateGrant_pending g snap resource context cl :
  evaluateGrant g snap resource context cl = pending → AccessResource.pending resource ≠ None.
Proof.
  unfold evaluateGrant, evaluateConditionOutcome. intros H E. rewrite E in H.
  repeat case_match; simplify_eq.
Qed.

(** [explain] agrees with [decide]. While the matching grants stay within
    the condition budget, an empty explanation means no decision, and
    otherwise its first entry is the decision; an explanation that starts with a
    deny still waiting on pending fields leaves only the built-in default or
    nothing. *)
Lemma explain_agrees_with_decide (s : t) (p : AccessPrincipal) (action : Action.t)
    (resource : AccessResource.t) :
  (conditions (matched s (effectiveAction action resource) resource (candidatesOf s p))
   ≤ MAX_AGGREGATE_CONDITIONS)%Z →
  match explain s p action resource with
  | [] => decide_ s p action resource = None
  | d :: _ =>
      if isPendingDeny d then
        decide_ s p action resource = None ∨
        decide_ s p action resource =
          serviceTriggerDefault p (effectiveAction action resource) resource
      else decide_ s p action resource = Some d
  end.
Proof.
  intros Hb. rewrite decide_eq. unfold explain. cbn zeta.
  set (a := effectiveAction action resource) in *.
  rewrite (explainLoop_eq s p resource) by lia.
  pose proof (conditions_split isDeny (matched s a resource (candidatesOf s p))) as Hsplit.
  fold (denyMatches s a resource (candidatesOf s p)) in Hsplit.
  fold (allowMatches s a resource (candidatesOf s p)) in Hsplit.
  pose proof (conditions_nonneg (denyMatches s a resource (candidatesOf s p))).
  pose proof (conditions_nonneg (allowMatches s a resource (candidatesOf s p))).
  rewrite denyLoop_first by lia.
  rewrite (find_filter _ isDeny _ : List.find _ (denyMatches s a resource (candidatesOf s p)) = _).
  unfold appendExplained, explained, decisionsOf.
  cbn [denyDecisions allowDecisions pendingAllows pendingDenies denyUndecided app orb].
  destruct (List.filter (λ x, isDeny x && refusing _) _) as [|gm l] eqn:Hd; cbn [fmap list_fmap head app].
  2: { by rewrite isPendingDeny_None. }
  rewrite allowLoop_first by lia. unfold firstPending, allowMatches, denyMatches.
  rewrite !find_filter, existsb_filter.
  destruct (List.filter (λ x, negb (isDeny x) && bool_decide (_ = match_)) _) as [|gm l] eqn:Ha;
    cbn [fmap list_fmap head app].
  2: { by rewrite isPendingDeny_None. }
  destruct (List.filter (λ x, negb (isDeny x) && bool_decide (_ = pending)) _) as [|gm l] eqn:Hpa;
    cbn [fmap list_fmap option_fmap option_map head app].
  2: { assert (isDeny gm = false) as Hgm.
       { assert (gm ∈ gm :: l) as Hin by set_solver. rewrite <-Hpa, elem_of_bfilter in Hin.
         destruct Hin as [_ ?]. by split_bools. }
       unfold isPendingDeny. simpl. unfold isDeny in Hgm. by rewrite Hgm. }
  destruct (List.filter (λ x, isDeny x && bool_decide (_ = pending)) _) as [|gm l] eqn:Hpd;
    cbn [fmap list_fmap head app].
  - destruct (existsb _ _); [done|]. by destruct (serviceTriggerDefault p a resource) as [d|] eqn:Hdef;
      [rewrite (isPendingDeny_default _ _ _ _ Hdef)|].
  - assert (isDeny gm = true ∧ AccessResource.pending resource ≠ None) as [Hgm Hp].
    { assert (gm ∈ gm :: l) as Hin by set_solver. rewrite <-Hpd, elem_of_bfilter in Hin.
      destruct Hin as [_ ?]. split_bools. by split; [|eapply evaluateGrant_pending]. }
    unfold isPendingDeny. cbn [effect dependsOn toDecision]. unfold isDeny in Hgm.
    rewrite Hgm, (bool_decide_eq_true_2 _ Hp). simpl. destruct (existsb _ _); auto.
Qed.

(** ** A concrete policy *)

Definition alice : AccessPrincipal :=
  MkPrincipal (Principal.Mk Principal.user "alice") [] [] None.

Definition root_ : Principal.t := Principal.Mk Principal.user "root".

Definition allowOps : Grant.t :=
  Grant.Mk "g-allow" (Subject.Mk Subject.group "ops") Effect.allow [Action.run; Action.admin]
    (ResourceSelector.Mk ResourceSelector.workflow "@acme/*") None None Grant.active "method" root_ 0.

Definition denyProd : Grant.t :=
  Grant.Mk "g-deny" (Subject.Mk Subject.user "alice") Effect.deny [Action.run]
    (ResourceSelector.Mk ResourceSelector.workflow "@acme/prod*") (Some "tags.frozen") None
    Grant.active "method" root_ 0.

Definition allowAccess : Grant.t :=
  Grant.Mk "g-access" (Subject.Mk Subject.user "alice") Effect.allow [Action.admin]
    (ResourceSelector.Mk ResourceSelector.access "swamp/*") None None Grant.active "method" root_ 0.

Definition ops : Group.t := Group.Mk "ops" [Principal.Mk Principal.user "alice"] root_ 0.

(** holds of any resource that declares its tags *)
Definition tagsEvaluator : ConditionEvaluator := λ _ _ fields _,
  match fields !! "tags" with Some _ => EvalBool true | None => EvalMissing ["tags"] end.

Definition policy : PolicySnapshot.t :=
  construct [allowOps; denyProd; allowAccess] [ops] (Some tagsEvaluator).

Definition service_ : t := Mk policy (implicationsOf None None None).

Definition deploy (name : string) : AccessResource.t :=
  AccessResource.workflowAccessResource name None.

Example alice_may_run_dev :
  grantId <$> decide_ service_ alice Action.run (deploy "@acme/dev") = Some "g-allow".
Proof. vm_compute. reflexivity. Qed.

Example alice_may_not_approve_prod :
  (effect <$> decide_ service_ alice Action.approve (deploy "@acme/prod-1") = Some Effect.deny) ∧
  (grantId <$> explain service_ alice Action.approve (deploy "@acme/prod-1") = ["g-deny"; "g-allow"]).
Proof. vm_compute. split; reflexivity. Qed.


Lemma allow_is_justified_witness :
  noDenyRefuses service_ alice Action.signal (deploy "@acme/dev").
Proof.
  refine (proj1 (allow_is_justified service_ alice Action.signal (deploy "@acme/dev") _ _ _));
    vm_compute; reflexivity.
Defined.

Lemma adding_a_deny_never_widens_witness :
  grantId <$> decide_ (Mk (construct ([allowOps] ++ [allowAccess]) [ops] (Some tagsEvaluator))
    (implicationsOf None None None)) alice Action.run (deploy "@acme/dev") = Some "g-allow".
Proof.
  rewrite (adding_a_deny_never_widens [allowOps] [allowAccess] denyProd [ops] (Some tagsEvaluator)
             (implicationsOf None None None) alice Action.run (deploy "@acme/dev")
             (toDecision allowOps direct None)); vm_compute; reflexivity.
Defined.

Definition grantRecord : AccessResource.t :=
  AccessResource.Mk ResourceSelector.access "swamp/grant"
    {["modelType" := VStr "swamp/grant"]} false false None.

Lemma control_plane_needs_admin_witness :
  ∃ g, g ∈ candidatesOf service_ alice ∧ Grant.effect g = Effect.allow ∧
       Action.admin ∈ Grant.actions g ∧ grantMatchesResource g grantRecord = true ∧
       "g-access" = Grant.id g.
Proof.
  apply (control_plane_needs_admin service_ alice Action.read grantRecord
           (toDecision allowAccess direct None)); vm_compute; reflexivity.
Defined.

Definition runAll : Grant.t :=
  Grant.Mk "all" (Subject.Mk Subject.user "alice") Effect.allow [Action.run]
    (ResourceSelector.Mk ResourceSelector.workflow "*") None None Grant.active "method" root_ 0.


Lemma explain_agrees_with_decide_witness :
  match explain service_ alice Action.run (deploy "@acme/prod-1") with
  | d :: _ => decide_ service_ alice Action.run (deploy "@acme/prod-1") = Some d
  | [] => False
  end.
Proof.
  pose proof (explain_agrees_with_decide service_ alice Action.run (deploy "@acme/prod-1")
    ltac:(apply Z.leb_le; vm_compute; reflexivity)) as H.
  destruct (explain _ _ _ _) as [|d l] eqn:E; [by vm_compute in E|].
  destruct (isPendingDeny d) eqn:Hp; [|done]. exfalso.
  vm_compute in E. injection E as <- _. by vm_compute in Hp.
Defined.

End DecisionService.

Module Admission.

Record AdmissionResult : Type := MkResult { admitted : bool; reason : string }.

Definition checkAdmission (userSub : string)
    (collectives allowedCollectives allowedUsers : list string) : AdmissionResult :=
  if bool_decide (userSub ∈ allowedUsers) then
    MkResult true "user is in the allowed-users list"
  else if bool_decide (length allowedCollectives = 0) && bool_decide (length allowedUsers = 0) then
    MkResult true "no admission restrictions configured"
  else
    let refused :=
      MkResult false
        (if bool_decide (0 < length allowedCollectives) then
           "user is not a member of any allowed collective (" +:+
           join ", " allowedCollectives +:+ ")"
         else "user is not in the allowed-users list") in
    match List.find (λ c, bool_decide (c ∈ allowedCollectives)) collectives with
    | Some matchingCollective =>
        if bool_decide (matchingCollective = "") then refused
        else MkResult true ("user is a member of allowed collective '" +:+ matchingCollective +:+ "'")
    | None => refused
    end.

(** With no restriction configured everyone is admitted; otherwise, with
    every allowed collective named by a non-empty string, exactly the listed
    users and the members of an allowed collective are. *)
Lemma admission_spec (userSub : string)
    (collectives allowedCollectives allowedUsers : list string) :
  "" ∉ allowedCollectives →
  admitted (checkAdmission userSub collectives allowedCollectives allowedUsers) = true ↔
  (allowedCollectives = [] ∧ allowedUsers = []) ∨ userSub ∈ allowedUsers ∨
  ∃ c, c ∈ collectives ∧ c ∈ allowedCollectives.
Proof.
  intros Hne. unfold checkAdmission. case_bool_decide as Hu; [naive_solver|].
  destruct (decide (allowedCollectives = [] ∧ allowedUsers = [])) as [[-> ->]|Hr]; [naive_solver|].
  rewrite (proj2 (andb_false_iff _ _)); cycle 1.
  { rewrite !bool_decide_eq_false. destruct allowedCollectives, allowedUsers; simpl; naive_solver. }
  destruct (List.find _ _) as [c|] eqn:Hf.
  - apply find_Some_elem_of in Hf as [Hc Hin]. split_bools.
    rewrite bool_decide_eq_false_2 by congruence. simpl. naive_solver.
  - simpl. rewrite find_None_elem_of in Hf. split; [done|].
    intros [?|[?|(c & Hc & Hin)]]; [done..|]. specialize (Hf c Hc). by split_bools.
Qed.

Lemma admission_spec_witness :
  admitted (checkAdmission "u1" ["acme"; "beta"] ["beta"] []) = true.
Proof.
  apply (admission_spec "u1" ["acme"; "beta"] ["beta"] []); [|right; right; exists "beta"];
    set_solver.
Defined.

End Admission.
