(* ===== verification/CommitAuthorization.v ===== *)
(** * The authorization of forwarded commits

    [src/src/domain/datastore_v3/commit_authorization.ts]: a server takes
    commits a client built, trusts nothing in them and refuses the whole commit
    at the first op it cannot allow. Every op's key must be bound to its intent
    and owned by its partition, and the caller must hold each access the op
    requires. The lookups of aggregates are the ports of the source, a record of
    functions here; the caller's authority is the one the server builds from the
    decision service ([decideForCaller] of [src/src/serve/handlers/shared.ts]
    and [#writeAuthority] of [src/src/serve/datastore_api.ts]). *)

From Stdlib Require Import Ascii.
From S2P Require Import Prelude JsString JsonText ModelType PartitionKey DataMetadata Intent CommitOps.
From S2P Require Import Commit IntentKeyPaths AccessNames AccessGrants AccessDecision.
Local Open Scope nat_scope.

Module CommitAuthorization.
Import IntentKeyPaths.

(** ** Outcomes *)

Inductive CommitRefusalReason :=
| RBinding (r : KeyBindingRefusal)
| RLeaseOp
| RIntentPartitionMismatch
| RDataVersionUnpaired
| RDefinitionTypeMismatch
| RKeyOwnedElsewhere
| RForbidden
| RContentRefused
| RRunInitiatorMismatch.

Record CommitRefusal := MkRefusal {
  reason : CommitRefusalReason;
  opIndex : nat;
  message : string;
}.

Inductive CommitAuthorization := Authorized | Refusal (r : CommitRefusal).

Definition refuse (reason : CommitRefusalReason) (opIndex : nat) (message : string)
    : CommitAuthorization := Refusal (MkRefusal reason opIndex message).

(** ** Ports *)

Notation Tags := (list (string * string)).

Record DefinitionLookup := MkLookup {
  l_type : ModelType.t;
  l_name : string;
  l_tags : option Tags;
}.

Record ResolvedWorkflow := MkWorkflow { w_name : string; w_tags : option Tags }.

Record KeyOwnership := MkOwnership { owner : string; present : bool }.

Record AggregateResourceResolver := MkResolver {
  model : Intent.ModelRef → option DefinitionLookup;
  definitionTags : PartitionKey.DefinitionKind → string → option ModelType.t → option Tags;
  workflow : string → option ResolvedWorkflow;
  keyOwner : string → option KeyOwnership;
  isRestrictedType : ModelType.t → bool;
  runRecordGuarded : string → string → bool;
}.

(** [allows(action, resource, every)] *)
Notation CallerAuthority := (Action.t → AccessResource.t → bool → bool).

Record RequiredAccess := MkRequired {
  action : Action.t;
  resource : AccessResource.t;
  every : bool;
}.

(** a put or a tombstone *)
Record WriteOp := MkWrite {
  intent : Intent.t;
  opKind : IntentOpKind;
  key : RecordKey.t;
}.

Definition writeOf (op : Op.t) : option WriteOp :=
  match op with
  | Op.Put p => Some (MkWrite (Op.put_intent p) OpPut (Op.put_key p))
  | Op.Tombstone p => Some (MkWrite (Op.tomb_intent p) OpTombstone (Op.tomb_key p))
  | _ => None
  end.

Definition CONTENT_CHECKED_PUTS : list Intent.IntentKind :=
  [Intent.KDefinitionCreate; Intent.KDefinitionEdit; Intent.KDefinitionRenameTo;
   Intent.KEvaluatedWorkflowSave; Intent.KEvaluatedDefinitionSave; Intent.KAutoDefinitionSave;
   Intent.KRunSnapshotSave; Intent.KRunStartSave; Intent.KRunCreate; Intent.KRunUpdate;
   Intent.KDataSave; Intent.KDataAppend; Intent.KDataDelete; Intent.KDataGc; Intent.KDataRename].

Definition isContentChecked (op : Op.t) : option Op.PutOp :=
  match op with
  | Op.Put p => if bool_decide (Intent.kind (Op.put_intent p) ∈ CONTENT_CHECKED_PUTS) then Some p else None
  | _ => None
  end.

Record ContentRefusal := MkContentRefusal { c_message : string; initiatorMismatch : bool }.

(** [ContentAuthority | deferred], the first as its [check] *)
Notation CommitContentCheck := (option (Op.PutOp → list Op.t → option ContentRefusal)).

Definition ADMIN_RESOURCE : AccessResource.t :=
  AccessResource.Mk ResourceSelector.access "*" ∅ false false None.

Definition adminAccess : RequiredAccess := MkRequired Action.admin ADMIN_RESOURCE false.

(** ** Bindings *)

Definition isBehaviorDefinition (i : Intent.t) : bool :=
  match i with
  | Intent.InDefinition _ d | Intent.InRenameTo _ d _ | Intent.InRenameFrom _ d _ =>
      bool_decide (Intent.dr_kind d = PartitionKey.DkModel)
  | _ => false
  end.

(** whether a put of the commit writes the version that is recorded *)
Definition pairsWithPut (op : Op.DataVersionOp) (ops : list Op.t) : bool :=
  let metadata := Op.metadata op in
  let segments := splitOn "/"%char (RecordKey.value (Op.dv_key op)) in
  if negb (bool_decide (fromEnd segments 1 = Some "metadata.yaml")) ||
     negb (bool_decide (fromEnd segments 3 = Some (DataMetadata.name metadata))) ||
     negb (bool_decide (fromEnd segments 2 = Some (pretty (DataMetadata.version metadata))))
  then false
  else
    existsb (λ other,
      match other with
      | Op.Put p =>
          if negb (RecordKey.equals (Op.put_key p) (Op.dv_key op)) then false
          else
            match Op.put_intent p with
            | Intent.InData _ _ name version =>
                bool_decide (name = DataMetadata.name metadata) &&
                (version =? DataMetadata.version metadata)%Z
            | Intent.InRename _ _ name to =>
                bool_decide (to = DataMetadata.name metadata) || bool_decide (name = DataMetadata.name metadata)
            | _ => false
            end
      | _ => false
      end) ops.

Definition opKindText (k : IntentOpKind) : string :=
  match k with OpPut => "put" | OpTombstone => "tombstone" end.

(** the first loop of [checkCommitBindings] *)
Fixpoint checkBindings (partition : PartitionKey.t) (index : nat) (ops : list Op.t)
    (definitionType : option string) : result CommitAuthorization :=
  match ops with
  | [] => Ok Authorized
  | op :: rest =>
      match op, writeOf op with
      | Op.Lease _, _ => Ok (refuse RLeaseOp index "A forwarded commit cannot carry a lease op")
      | _, None => checkBindings partition (S index) rest definitionType
      | _, Some w =>
          target ← Intent.intentPartition (intent w);
          if negb (PartitionKey.equals target partition) then
            Ok (refuse RIntentPartitionMismatch index
                  ("Op " +:+ pretty index +:+ "'s intent belongs to another partition"))
          else
            match bindKey (intent w) (opKind w) (key w) with
            | Refused r =>
                Ok (refuse (RBinding r) index
                      ("Op " +:+ pretty index +:+ " (" +:+
                       Intent.IntentKind_toString (Intent.kind (intent w)) +:+ " " +:+
                       opKindText (opKind w) +:+ ") cannot write " +:+ RecordKey.value (key w)))
            | Bound _ _ type =>
                match (if isBehaviorDefinition (intent w) then type else None) with
                | Some type =>
                    let definitionType := default (ModelType.normalized type) definitionType in
                    if negb (bool_decide (ModelType.normalized type = definitionType)) then
                      Ok (refuse RDefinitionTypeMismatch index
                            ("Op " +:+ pretty index +:+ " names behavior type " +:+
                             ModelType.normalized type +:+ ", not " +:+ definitionType))
                    else checkBindings partition (S index) rest (Some definitionType)
                | None => checkBindings partition (S index) rest definitionType
                end
            end
      end
  end.

(** the second loop *)
Fixpoint checkPairs (all : list Op.t) (index : nat) (ops : list Op.t) : CommitAuthorization :=
  match ops with
  | [] => Authorized
  | Op.DataVersion op :: rest =>
      if negb (pairsWithPut op all) then
        refuse RDataVersionUnpaired index
          ("Op " +:+ pretty index +:+ " records a data version no put in the commit writes")
      else checkPairs all (S index) rest
  | _ :: rest => checkPairs all (S index) rest
  end.

Definition checkCommitBindings (partition : PartitionKey.t) (ops : list Op.t)
    : result CommitAuthorization :=
  bindings ← checkBindings partition 0 ops None;
  match bindings with
  | Refusal r => Ok (Refusal r)
  | Authorized => Ok (checkPairs ops 0 ops)
  end.

(** ** Required accesses *)

Section access.
Context (resolver : AggregateResourceResolver).

Definition configPartition (kind : PartitionKey.DefinitionKind) (name : string) : string :=
  match PartitionKey.partitionOf (PartitionKey.AgConfig kind name) with
  | Ok k => PartitionKey.value k
  | Throw _ => ""
  end.

Definition controlPlaneResourceOf (m : Intent.ModelRef) : result AccessResource.t :=
  let lookup := model resolver m in
  AccessResource.controlPlaneRecordResource (Intent.mr_type m)
    (default (Intent.mr_id m) (l_name <$> lookup)) (lookup ≫= l_tags).

Definition unresolvedModelResource (type : ModelType.t) (id : string)
    (kind : ResourceSelector.ResourceKind) : AccessResource.t :=
  AccessResource.Mk kind id
    (AccessResource.modelTypeFields id (ModelType.normalized type) (Some []) kind) false false None.

(** the resource of a model, found or not *)
Definition modelResource (type : ModelType.t) (m : Intent.ModelRef) (kind : ResourceSelector.ResourceKind)
    : result AccessResource.t :=
  match model resolver m with
  | None => Ok (unresolvedModelResource type (Intent.mr_id m) kind)
  | Some lookup => AccessResource.modelAccessResource (l_type lookup) (l_name lookup) (l_tags lookup) kind
  end.

(** the resource of a run's workflow *)
Definition runResource (workflowId : string) : AccessResource.t :=
  match workflow resolver workflowId with
  | None => AccessResource.unresolvedAccessResource ResourceSelector.workflow workflowId
  | Some w => AccessResource.workflowAccessResource (w_name w) (Some (default [] (w_tags w)))
  end.

Definition readOfDefinition (r : AccessResource.t) : AccessResource.t :=
  if bool_decide (AccessResource.kind r = ResourceSelector.vault)
  then AccessResource.vaultKindResource (AccessResource.name r) None (Some "describe")
  else r.

Definition vaultDefinitionMethod (i : Intent.t) : string :=
  match Intent.kind i with
  | Intent.KDefinitionCreate => "create"
  | Intent.KDefinitionDelete => "delete"
  | _ => "edit"
  end.

Definition bindingType (b : KeyBinding) : option ModelType.t :=
  match b with Bound _ _ type => type | Refused _ => None end.

Definition definitionAccessOf (op : WriteOp) (definition : Intent.DefinitionRef) : RequiredAccess :=
  let keyType := bindingType (bindKey (intent op) (opKind op) (key op)) in
  let name := Intent.dr_name definition in
  let tags := definitionTags resolver (Intent.dr_kind definition) name
                (if bool_decide (Intent.dr_kind definition = PartitionKey.DkModel) then keyType else None) in
  match Intent.dr_kind definition with
  | PartitionKey.DkWorkflow =>
      MkRequired Action.write (AccessResource.workflowAccessResource name (Some (default [] tags))) false
  | PartitionKey.DkVault =>
      MkRequired Action.write
        (AccessResource.vaultKindResource name None (Some (vaultDefinitionMethod (intent op)))) false
  | PartitionKey.DkModel =>
      match keyType with
      | None => adminAccess
      | Some type =>
          if ModelType.isControlPlaneModelType (ModelType.normalized type) || isRestrictedType resolver type
          then adminAccess
          else
            MkRequired Action.write
              (AccessResource.Mk ResourceSelector.model name
                 (AccessResource.modelTypeFields name (ModelType.normalized type) tags ResourceSelector.model)
                 false false None) false
      end
  end.

Definition modelWriteAccessOf (i : Intent.t) (m : Intent.ModelRef) (type : ModelType.t)
    : result RequiredAccess :=
  match Intent.kind i with
  | Intent.KDataSave | Intent.KDataAppend | Intent.KOutputSave =>
      r ← modelResource type m ResourceSelector.model;
      Ok (MkRequired Action.run (r <| AccessResource.anyMethod := true |>) false)
  | Intent.KEvaluatedDefinitionSave =>
      r ← modelResource type m ResourceSelector.model; Ok (MkRequired Action.run r false)
  | Intent.KDataDelete | Intent.KDataRename =>
      r ← modelResource type m ResourceSelector.data; Ok (MkRequired Action.write r false)
  | Intent.KDataGc =>
      Ok (MkRequired Action.write
            (AccessResource.Mk ResourceSelector.data "*" {["name" := VStr "*"]} false false None) true)
  | _ => r ← modelResource type m ResourceSelector.model; Ok (MkRequired Action.write r false)
  end.

Definition isControlPlaneIntent (i : Intent.t) (type : ModelType.t) : bool :=
  bool_decide (is_Some (Intent.CONTROL_PLANE_INTENT_TYPES (Intent.kind i))) ||
  ModelType.isControlPlaneModelType (ModelType.normalized type).

Definition isRunRemoval (i : Intent.t) : bool :=
  match Intent.kind i with
  | Intent.KRunDelete | Intent.KRunSnapshotDelete | Intent.KRunStartDelete => true
  | _ => false
  end.

Definition writeAccessOf (op : WriteOp) : result RequiredAccess :=
  match intent op with
  | Intent.InModel _ m | Intent.InData _ m _ _ | Intent.InDataOpt _ m _ _ | Intent.InRename _ m _ _
  | Intent.InOutput _ m _ =>
      type ← ModelType.create (Intent.mr_type m);
      if isControlPlaneIntent (intent op) type then
        r ← controlPlaneResourceOf m; Ok (MkRequired Action.admin r false)
      else if isRestrictedType resolver type then Ok adminAccess
      else modelWriteAccessOf (intent op) m type
  | Intent.InRun _ run =>
      let removal := isRunRemoval (intent op) in
      let guarded := removal && runRecordGuarded resolver (Intent.rr_workflowId run) (Intent.rr_runId run) in
      Ok (MkRequired (if guarded then Action.admin else if removal then Action.write else Action.run)
            (runResource (Intent.rr_workflowId run)) false)
  | Intent.InDefinition _ d | Intent.InRenameTo _ d _ | Intent.InRenameFrom _ d _ =>
      if bool_decide (Intent.dr_kind d = PartitionKey.DkVault) && bool_decide (opKind op = OpTombstone) &&
         negb (bool_decide (Intent.kind (intent op) = Intent.KDefinitionRenameFrom))
      then Ok adminAccess
      else
        let write := definitionAccessOf op d in
        Ok (if bool_decide (Intent.kind (intent op) = Intent.KEvaluatedWorkflowSave) &&
               bool_decide (action write = Action.write)
            then MkRequired Action.run (resource write) false
            else write)
  | Intent.InAuto _ id =>
      match bindingType (bindKey (intent op) (opKind op) (key op)) with
      | None => Ok adminAccess
      | Some type =>
          if ModelType.isControlPlaneModelType (ModelType.normalized type) || isRestrictedType resolver type
          then Ok adminAccess
          else
            Ok (MkRequired
                  (if bool_decide (Intent.kind (intent op) = Intent.KAutoDefinitionDelete)
                   then Action.write else Action.run)
                  (unresolvedModelResource type id ResourceSelector.model) false)
      end
  | Intent.InLockfile _ => Ok adminAccess
  end.

Definition writeAccessesOf (op : WriteOp) : result (list RequiredAccess) :=
  required ← writeAccessOf op;
  match intent op with
  | Intent.InRenameTo _ d other | Intent.InRenameFrom _ d other =>
      Ok [required; definitionAccessOf op (Intent.MkDefinitionRef (Intent.dr_kind d) other)]
  | _ => Ok [required]
  end.

Definition ownsKey (op : WriteOp) (partition : PartitionKey.t) : bool :=
  match keyOwner resolver (RecordKey.value (key op)) with
  | None => true
  | Some ownership =>
      if bool_decide (owner ownership = PartitionKey.value partition) then true
      else
        match intent op with
        | Intent.InRenameTo _ d other | Intent.InRenameFrom _ d other =>
            bool_decide (owner ownership = configPartition (Intent.dr_kind d) other)
        | _ => bool_decide (opKind op = OpPut) && negb (present ownership)
        end
  end.

Definition vaultRenameLanded (op : WriteOp) : bool :=
  match intent op with
  | Intent.InRenameFrom _ d to =>
      if negb (bool_decide (Intent.dr_kind d = PartitionKey.DkVault)) then true
      else
        match keyOwner resolver (RecordKey.value (key op)) with
        | Some ownership =>
            present ownership && bool_decide (owner ownership = configPartition PartitionKey.DkVault to)
        | None => false
        end
  | _ => true
  end.

End access.

(** ** The decision on a commit *)

Definition resourceToJSON (r : AccessResource.t) : JsValue :=
  VObj ([("kind", VStr (enum_name (AccessResource.kind r))); ("name", VStr (AccessResource.name r));
         ("fields", VObj (map_to_list (AccessResource.fields r)))] ++
        (if AccessResource.scopeKind r then [("scopeKind", VBool true)] else []) ++
        (if AccessResource.anyMethod r then [("anyMethod", VBool true)] else []) ++
        optField "pending" (λ l, VArr (VStr <$> l)) (AccessResource.pending r)).

(** [JSON.stringify(required)]; the fields of a resource are taken in the order
    of the map *)
Definition memoKey (required : RequiredAccess) : string :=
  json_text (VObj ([("action", VStr (enum_name (action required)));
                    ("resource", resourceToJSON (resource required))] ++
                   (if every required then [("every", VBool true)] else []))).

Section authorize.
Context (partition : PartitionKey.t) (resolver : AggregateResourceResolver) (authority : CallerAuthority).

(** the loop over the accesses of one op: a decision is asked for once *)
Fixpoint checkAccesses (index : nat) (op : WriteOp) (required : list RequiredAccess)
    (decided : gmap string bool) : CommitAuthorization * gmap string bool :=
  match required with
  | [] => (Authorized, decided)
  | r :: rest =>
      let memo := memoKey r in
      let '(allowed, decided) :=
        match decided !! memo with
        | Some allowed => (allowed, decided)
        | None =>
            let allowed := authority (action r) (resource r) (every r) in
            (allowed, <[memo := allowed]> decided)
        end in
      if negb allowed then
        (refuse RForbidden index
           ("Not authorized to " +:+ enum_name (action r) +:+ " " +:+
            enum_name (AccessResource.kind (resource r)) +:+ ":" +:+ AccessResource.name (resource r) +:+
            " (" +:+ Intent.IntentKind_toString (Intent.kind (intent op)) +:+ ")"), decided)
      else checkAccesses index op rest decided
  end.

Fixpoint authorizeOps (index : nat) (ops : list Op.t) (decided : gmap string bool)
    : result CommitAuthorization :=
  match ops with
  | [] => Ok Authorized
  | op :: rest =>
      match writeOf op with
      | None => authorizeOps (S index) rest decided
      | Some w =>
          if negb (ownsKey resolver w partition) then
            Ok (refuse RKeyOwnedElsewhere index
                  ("Op " +:+ pretty index +:+ "'s key " +:+ RecordKey.value (key w) +:+
                   " belongs to another aggregate"))
          else
            required ← writeAccessesOf resolver w;
            match checkAccesses index w required decided with
            | (Refusal r, _) => Ok (Refusal r)
            | (Authorized, decided) =>
                if negb (vaultRenameLanded resolver w) then
                  Ok (refuse RForbidden index
                        ("Op " +:+ pretty index +:+ " removes a vault config whose rename has not landed"))
                else authorizeOps (S index) rest decided
            end
      end
  end.

Fixpoint checkContent (check : Op.PutOp → list Op.t → option ContentRefusal) (all : list Op.t)
    (index : nat) (ops : list Op.t) : CommitAuthorization :=
  match ops with
  | [] => Authorized
  | op :: rest =>
      match isContentChecked op with
      | None => checkContent check all (S index) rest
      | Some p =>
          match check p all with
          | Some refusal =>
              refuse (if initiatorMismatch refusal then RRunInitiatorMismatch else RContentRefused)
                index (c_message refusal)
          | None => checkContent check all (S index) rest
          end
      end
  end.

Definition authorizeCommit (ops : list Op.t) (content : CommitContentCheck) : result CommitAuthorization :=
  bindings ← checkCommitBindings partition ops;
  match bindings with
  | Refusal r => Ok (Refusal r)
  | Authorized =>
      decided ← authorizeOps 0 ops ∅;
      match decided, content with
      | Refusal r, _ => Ok (Refusal r)
      | Authorized, None => Ok Authorized
      | Authorized, Some check => Ok (checkContent check ops 0 ops)
      end
  end.

End authorize.

(** ** Reading *)

Section reading.
Context (resolver : AggregateResourceResolver).

Definition isDataIntent (i : Intent.t) : bool :=
  startsWith (Intent.IntentKind_toString (Intent.kind i)) "data.".

(** the read of a definition, from the access a write of it needs *)
Definition readOfWrite (write : RequiredAccess) : RequiredAccess :=
  if bool_decide (action write = Action.admin) then write
  else MkRequired Action.read (readOfDefinition (resource write)) false.

(** the read of an auto-definition whose key names this type *)
Definition autoReadAccess (type : option ModelType.t) (id : string) : RequiredAccess :=
  match type with
  | None => adminAccess
  | Some type =>
      if ModelType.isControlPlaneModelType (ModelType.normalized type) then adminAccess
      else MkRequired Action.read (unresolvedModelResource type id ResourceSelector.model) false
  end.

Definition readAccessOf (op : Op.t) : result (option RequiredAccess) :=
  match writeOf op with
  | None => Ok None
  | Some w =>
      match intent w with
      | Intent.InModel _ m | Intent.InData _ m _ _ | Intent.InDataOpt _ m _ _ | Intent.InRename _ m _ _
      | Intent.InOutput _ m _ =>
          type ← ModelType.create (Intent.mr_type m);
          if isControlPlaneIntent (intent w) type then
            r ← controlPlaneResourceOf resolver m; Ok (Some (MkRequired Action.admin r false))
          else
            r ← modelResource resolver type m
                  (if isDataIntent (intent w) then ResourceSelector.data else ResourceSelector.model);
            Ok (Some (MkRequired Action.read r false))
      | Intent.InRun _ run =>
          Ok (Some (MkRequired Action.read (runResource resolver (Intent.rr_workflowId run)) false))
      | Intent.InDefinition _ d | Intent.InRenameTo _ d _ | Intent.InRenameFrom _ d _ =>
          Ok (Some (readOfWrite (definitionAccessOf resolver w d)))
      | Intent.InAuto _ id =>
          Ok (Some (autoReadAccess (bindingType (bindKey (intent w) (opKind w) (key w))) id))
      | Intent.InLockfile _ => Ok None
      end
  end.

Definition definitionRecordReadAccessOf (name : string) (k : RecordKey.t) : RequiredAccess :=
  let definition := Intent.MkDefinitionRef PartitionKey.DkModel name in
  readOfWrite (definitionAccessOf resolver
    (MkWrite (Intent.InDefinition Intent.KDefinitionEdit definition) OpPut k) definition).

Definition partitionReadAccessOf (partition : PartitionKey.t) : result (list RequiredAccess) :=
  match PartitionKey.identity partition with
  | PartitionKey.PkModel t id =>
      let m := Intent.MkModelRef t id in
      type ← ModelType.create t;
      if ModelType.isControlPlaneModelType (ModelType.normalized type) then
        r ← controlPlaneResourceOf resolver m; Ok [MkRequired Action.admin r false]
      else
        d ← modelResource resolver type m ResourceSelector.data;
        r ← modelResource resolver type m ResourceSelector.model;
        Ok [MkRequired Action.read d false; MkRequired Action.read r false]
  | PartitionKey.PkRun workflowId _ =>
      Ok [MkRequired Action.read (runResource resolver workflowId) false]
  | PartitionKey.PkConfig PartitionKey.DkWorkflow name =>
      Ok [MkRequired Action.read
            (AccessResource.workflowAccessResource name
               (Some (default [] (definitionTags resolver PartitionKey.DkWorkflow name None)))) false]
  | PartitionKey.PkConfig PartitionKey.DkVault name =>
      Ok [MkRequired Action.read (AccessResource.vaultKindResource name None (Some "describe")) false]
  | PartitionKey.PkConfig PartitionKey.DkModel name =>
      Ok [MkRequired Action.read
            (AccessResource.Mk ResourceSelector.model name {["name" := VStr name]} false false None) false]
  | PartitionKey.PkDefinition _ => Ok [adminAccess]
  | PartitionKey.PkLockfile => Ok []
  end.

Definition baseRecordReadAccessOf (partition : PartitionKey.t) (k : RecordKey.t)
    : result (list RequiredAccess) :=
  match PartitionKey.identity partition with
  | PartitionKey.PkModel t id =>
      let m := Intent.MkModelRef t id in
      type ← ModelType.create t;
      if ModelType.isControlPlaneModelType (ModelType.normalized type) then
        r ← controlPlaneResourceOf resolver m; Ok [MkRequired Action.admin r false]
      else
        match modelRecordKind m k with
        | None => l ← partitionReadAccessOf partition; Ok (adminAccess :: l)
        | Some kind =>
            r ← modelResource resolver type m
                  (match kind with MrData => ResourceSelector.data | MrModel => ResourceSelector.model end);
            Ok [MkRequired Action.read r false]
        end
  | PartitionKey.PkRun workflowId _ =>
      Ok [MkRequired Action.read (runResource resolver workflowId) false]
  | PartitionKey.PkConfig kind name =>
      let definition := Intent.MkDefinitionRef kind name in
      let file := default "" (last (splitOn "/"%char (RecordKey.value k))) in
      let stem := if endsWith file ".yaml" then sliceEnd 5 file else "" in
      Ok [readOfWrite (definitionAccessOf resolver
            (MkWrite (Intent.InRenameTo Intent.KDefinitionRenameTo definition stem) OpPut k) definition)]
  | PartitionKey.PkDefinition id =>
      Ok [autoReadAccess (bindingType (bindKey (Intent.InAuto Intent.KAutoDefinitionSave id) OpPut k)) id]
  | PartitionKey.PkLockfile => Ok []
  end.

Definition baseDataReadAccessOf (partition : PartitionKey.t) : result (list RequiredAccess) :=
  match PartitionKey.identity partition with
  | PartitionKey.PkModel t id =>
      let m := Intent.MkModelRef t id in
      type ← ModelType.create t;
      if ModelType.isControlPlaneModelType (ModelType.normalized type) then
        r ← controlPlaneResourceOf resolver m; Ok [MkRequired Action.admin r false]
      else
        r ← modelResource resolver type m ResourceSelector.data; Ok [MkRequired Action.read r false]
  | _ => l ← partitionReadAccessOf partition; Ok (adminAccess :: l)
  end.

Definition partitionWriteAccessOf (partition : PartitionKey.t) : result RequiredAccess :=
  match PartitionKey.identity partition with
  | PartitionKey.PkModel t id =>
      let m := Intent.MkModelRef t id in
      type ← ModelType.create t;
      if ModelType.isControlPlaneModelType (ModelType.normalized type) then
        r ← controlPlaneResourceOf resolver m; Ok (MkRequired Action.admin r false)
      else if isRestrictedType resolver type then Ok adminAccess
      else
        r ← modelResource resolver type m ResourceSelector.model;
        Ok (MkRequired Action.run (r <| AccessResource.anyMethod := true |>) false)
  | PartitionKey.PkRun workflowId _ =>
      Ok (MkRequired Action.run (runResource resolver workflowId) false)
  | PartitionKey.PkConfig PartitionKey.DkWorkflow name =>
      Ok (MkRequired Action.write
            (AccessResource.workflowAccessResource name
               (Some (default [] (definitionTags resolver PartitionKey.DkWorkflow name None)))) false)
  | PartitionKey.PkConfig PartitionKey.DkVault name =>
      Ok (MkRequired Action.write
            (AccessResource.vaultKindResource name None None <| AccessResource.anyMethod := true |>) false)
  | PartitionKey.PkConfig PartitionKey.DkModel _ | PartitionKey.PkDefinition _
  | PartitionKey.PkLockfile => Ok adminAccess
  end.

End reading.

(** ** The authority of a caller of the server *)

Inductive AccessOutcome := OutcomeAllowed | OutcomeNotConfigured | OutcomeNoPrincipal | OutcomeRefused.

(** [decideForCaller]; [authNone] is the mode without authentication, and the
    service is missing when access is not configured *)
Definition decideForCaller (authNone : bool) (service : option DecisionService.t)
    (caller : option DecisionService.AccessPrincipal) (action : Action.t) (resource : AccessResource.t)
    (every : bool) : AccessOutcome :=
  if authNone then OutcomeAllowed
  else
    match service with
    | None => OutcomeNotConfigured
    | Some service =>
        match caller with
        | None => OutcomeNoPrincipal
        | Some p =>
            let decision := if every then DecisionService.decideAll service p action (AccessResource.kind resource)
                            else DecisionService.decide_ service p action resource in
            match decision with
            | Some d =>
                if bool_decide (DecisionService.effect d = Effect.allow) then OutcomeAllowed
                else OutcomeRefused
            | None =>
                match DecisionService.decide_ service p Action.admin ADMIN_RESOURCE with
                | Some d =>
                    if bool_decide (DecisionService.effect d = Effect.allow) then OutcomeAllowed
                    else OutcomeRefused
                | None => OutcomeRefused
                end
            end
        end
    end.

Definition writeAuthority (authNone : bool) (service : option DecisionService.t)
    (caller : option DecisionService.AccessPrincipal) : CallerAuthority := λ action resource every,
  let resource :=
    if every then AccessResource.Mk (AccessResource.kind resource) "*" {["name" := VStr "*"]} false false None
    else resource in
  match decideForCaller authNone service caller action resource every with
  | OutcomeAllowed => true
  | _ => false
  end.

End CommitAuthorization.
