(* ===== verification/CommitAuthorizationProps.v ===== *)
(** * Properties of the authorization of commits

    The decision on a forwarded commit is the conjunction of what each op needs,
    whatever order and memory the loops use; with the authority the server
    builds from the policy, nobody writes a control-plane record without an
    admin grant; and a compacted record is never read more loosely than the op
    that wrote it. *)

From Stdlib Require Import Ascii.
From S2P Require Import Prelude JsString JsonText ModelType PartitionKey DataMetadata Intent CommitOps.
From S2P Require Import Commit IntentKeyPaths AccessNames AccessGrants AccessDecision CommitAuthorization.
Local Open Scope nat_scope.

Module CommitAuthorizationProps.
Import IntentKeyPaths CommitAuthorization.

Lemma forall_cons {A} (P : A → Prop) x l :
  (∀ y, y ∈ x :: l → P y) ↔ P x ∧ ∀ y, y ∈ l → P y.
Proof.
  setoid_rewrite elem_of_cons. split; [auto|]. by intros [? ?] y [->|?]; auto.
Qed.

(** ** The memory of decisions *)

Lemma flag_inj (a b : bool) (k : string) (x y : list (string * JsValue)) :
  (if a then [(k, VBool true)] else []) ++ x = (if b then [(k, VBool true)] else []) ++ y →
  (∀ v, (k, v) ∉ x) → (∀ v, (k, v) ∉ y) → a = b ∧ x = y.
Proof.
  intros E Hx Hy. destruct a, b; cbn in E; try done.
  - by injection E.
  - subst y. by destruct (Hy (VBool true)); left.
  - subst x. by destruct (Hx (VBool true)); left.
Qed.

Lemma resourceToJSON_inj a b : resourceToJSON a = resourceToJSON b → a = b.
Proof.
  destruct a as [k n f s m p], b as [k' n' f' s' m' p']. unfold resourceToJSON.
  cbn [AccessResource.kind AccessResource.name AccessResource.fields AccessResource.scopeKind
       AccessResource.anyMethod AccessResource.pending].
  intros [= Hk -> Hf E]. apply enum_name_inj in Hk as ->.
  assert (f = f') as -> by (apply map_to_list_inj; by rewrite Hf).
  apply flag_inj in E as [-> E].
  - apply flag_inj in E as [-> E].
    + assert (p = p') as ->; [|done]. destruct p as [l|], p' as [l'|]; cbn in E; try done.
      injection E as E. f_equal. apply (list_fmap_eq_inj VStr) in E; [done|]. by intros ?? [= ->].
    + intros v. destruct p; cbn; [|by apply not_elem_of_nil]. by intros [= ?]%list_elem_of_singleton.
    + intros v. destruct p'; cbn; [|by apply not_elem_of_nil]. by intros [= ?]%list_elem_of_singleton.
  - intros v. destruct m, p; cbn; rewrite ?elem_of_cons, elem_of_nil; naive_solver.
  - intros v. destruct m', p'; cbn; rewrite ?elem_of_cons, elem_of_nil; naive_solver.
Qed.

Lemma memoKey_inj a b : memoKey a = memoKey b → a = b.
Proof.
  unfold memoKey. intros E%JsonText.json_text_inj. destruct a as [a r e], b as [a' r' e'].
  cbn [action resource every] in E. revert E. generalize (resourceToJSON_inj r r').
  generalize (resourceToJSON r) (resourceToJSON r'). intros x y Hr [= Ha Hxy He].
  apply enum_name_inj in Ha as ->. rewrite (Hr Hxy). by destruct e, e'.
Qed.

Section memo.
Context (authority : CallerAuthority).

Definition allowedBy (r : RequiredAccess) : bool := authority (action r) (resource r) (every r).

Definition remembers (decided : gmap string bool) : Prop :=
  ∀ r b, decided !! memoKey r = Some b → b = allowedBy r.

Lemma checkAccesses_spec index op required decided :
  remembers decided →
  remembers (checkAccesses authority index op required decided).2 ∧
  ((checkAccesses authority index op required decided).1 = Authorized ↔
   ∀ r, r ∈ required → allowedBy r = true).
Proof.
  revert decided. induction required as [|r required IH]; intros decided Hd.
  - split; [done|]. split; [|done]. by intros _ r ?%elem_of_nil.
  - cbn [checkAccesses].
    assert (∃ d', remembers d' ∧ match decided !! memoKey r with
      | Some allowed => (allowed, decided)
      | None => (authority (action r) (resource r) (every r),
                 <[memoKey r := authority (action r) (resource r) (every r)]> decided)
      end = (allowedBy r, d')) as (d' & Hd' & ->).
    { destruct (decided !! memoKey r) as [b|] eqn:E; eexists; (split; [|]); [..|reflexivity].
      - exact Hd.
      - by rewrite (Hd _ _ E).
      - intros r' b'. destruct (decide (memoKey r = memoKey r')) as [Hk|Hk].
        + rewrite Hk, lookup_insert_eq. apply memoKey_inj in Hk as ->. by intros [= <-].
        + rewrite lookup_insert_ne by done. apply Hd. }
    destruct (allowedBy r) eqn:Ha; cbn [negb].
    + destruct (IH d' Hd') as [IH1 IH2]. split; [done|]. rewrite IH2. setoid_rewrite elem_of_cons.
      split; [by intros H x [->|?]; auto|auto].
    + split; [done|]. split; [done|]. intros H. rewrite (H r) in Ha by apply list_elem_of_here. done.
Qed.

End memo.

(** ** What an authorized commit is *)

Section exact.
Context (partition : PartitionKey.t) (resolver : AggregateResourceResolver) (authority : CallerAuthority).

(** the op is no lease, and a write is of this partition and bound to its key *)
Definition opBound (op : Op.t) : Prop :=
  (∀ l, op ≠ Op.Lease l) ∧
  ∀ w, writeOf op = Some w →
    (∃ target, Intent.intentPartition (intent w) = Ok target ∧ PartitionKey.equals target partition = true) ∧
    ∃ fileId fileName type, bindKey (intent w) (opKind w) (key w) = Bound fileId fileName type.

(** the type of behavior a definition's key names *)
Definition definitionTypeOf (op : Op.t) : option string :=
  w ← writeOf op;
  if isBehaviorDefinition (intent w)
  then ModelType.normalized <$> bindingType (bindKey (intent w) (opKind w) (key w)) else None.

Definition oneDefinitionType (ops : list Op.t) (known : option string) : Prop :=
  ∃ type, (∀ t, known = Some t → t = type) ∧ ∀ op t, op ∈ ops → definitionTypeOf op = Some t → t = type.

(** the caller may make the write *)
Definition opAllowed (op : Op.t) : Prop :=
  ∀ w, writeOf op = Some w →
    ownsKey resolver w partition = true ∧
    (∃ required, writeAccessesOf resolver w = Ok required ∧ ∀ r, r ∈ required → allowedBy authority r = true) ∧
    vaultRenameLanded resolver w = true.

Lemma oneDefinitionType_skip op ops known :
  definitionTypeOf op = None → oneDefinitionType (op :: ops) known ↔ oneDefinitionType ops known.
Proof.
  intros Hd. unfold oneDefinitionType. setoid_rewrite elem_of_cons. split; intros (T & Hk & HT); exists T.
  - split; [done|]. intros o t Ho. apply HT. by right.
  - split; [done|]. intros o t [->|Ho]; [by rewrite Hd|by apply HT].
Qed.

Lemma oneDefinitionType_known op ops known t :
  definitionTypeOf op = Some t →
  oneDefinitionType (op :: ops) known ↔
  t = default t known ∧ oneDefinitionType ops (Some (default t known)).
Proof.
  intros Hd. unfold oneDefinitionType. setoid_rewrite elem_of_cons. split.
  - intros (T & Hk & HT). assert (t = T) as -> by (apply (HT op); auto).
    assert (default T known = T) as -> by (destruct known as [k|]; [apply (Hk k eq_refl)|done]).
    split; [done|]. exists T. split; [by intros ? [= <-]|]. intros o t Ho. apply HT. by right.
  - intros (Ht & T & Hk & HT). specialize (Hk _ eq_refl). exists T. split.
    + intros k ->. cbn in Hk. done.
    + intros o u [->|Ho]; [|by apply HT]. rewrite Hd. intros [= <-]. by rewrite Ht.
Qed.

(** the step of the first loop on a write *)
Lemma checkBindings_write index op ops known w :
  writeOf op = Some w →
  checkBindings partition index (op :: ops) known = Ok Authorized ↔
  (∃ target, Intent.intentPartition (intent w) = Ok target ∧ PartitionKey.equals target partition = true) ∧
  (∃ fileId fileName type, bindKey (intent w) (opKind w) (key w) = Bound fileId fileName type) ∧
  match definitionTypeOf op with
  | Some t => t = default t known ∧ checkBindings partition (S index) ops (Some (default t known)) = Ok Authorized
  | None => checkBindings partition (S index) ops known = Ok Authorized
  end.
Proof.
  intros Hw. unfold definitionTypeOf. rewrite Hw. cbn [mbind option_bind].
  destruct op; cbn [writeOf] in Hw; try discriminate Hw; cbn [checkBindings writeOf]; injection Hw as Hw; rewrite Hw; clear Hw.
  all: destruct (Intent.intentPartition (intent w)) as [target|] eqn:Ht; cbn [mbind result_bind];
    [|split; [done|by intros [(? & ? & ?) _]]].
  all: destruct (PartitionKey.equals target partition) eqn:He; cbn [negb];
    [|split; [done|by intros [(? & [= <-] & ?) _]; congruence]].
  all: destruct (bindKey (intent w) (opKind w) (key w)) as [fid fname type|] eqn:Hb; cbn [bindingType];
    [|split; [done|by intros (_ & (? & ? & ? & ?) & _)]].
  all: destruct (isBehaviorDefinition (intent w)), type as [type|]; cbn;
    try (case_bool_decide; cbn [negb]); naive_solver.
Qed.

Lemma checkBindings_spec index ops known :
  checkBindings partition index ops known = Ok Authorized ↔
  (∀ op, op ∈ ops → opBound op) ∧ oneDefinitionType ops known.
Proof.
  revert index known. induction ops as [|op ops IH]; intros index known.
  { split; [|done]. intros _. split; [by intros op ?%elem_of_nil|].
    exists (default "" known). split; [by intros t ->|]. by intros op t ?%elem_of_nil. }
  rewrite forall_cons. destruct (writeOf op) as [w|] eqn:Hw.
  - rewrite (checkBindings_write _ _ _ _ w Hw).
    assert (opBound op ↔
      (∃ target, Intent.intentPartition (intent w) = Ok target ∧ PartitionKey.equals target partition = true) ∧
      ∃ fileId fileName type, bindKey (intent w) (opKind w) (key w) = Bound fileId fileName type) as ->.
    { unfold opBound. rewrite Hw. split; [intros [_ H]; by apply H|].
      intros H. split; [by intros l ->|]. by intros ? [= <-]. }
    destruct (definitionTypeOf op) as [t|] eqn:Hd; rewrite IH.
    + rewrite (oneDefinitionType_known _ _ _ _ Hd). tauto.
    + rewrite (oneDefinitionType_skip _ _ _ Hd). tauto.
  - assert (definitionTypeOf op = None) as Hd by (unfold definitionTypeOf; by rewrite Hw).
    rewrite (oneDefinitionType_skip _ _ _ Hd).
    destruct op as [p|p|p|l]; try discriminate Hw; cbn [checkBindings writeOf].
    + rewrite IH. assert (opBound (Op.DataVersion p)) by done. tauto.
    + split; [done|]. by intros [[[Hl _] _] _]; destruct (Hl l).
Qed.

Lemma checkPairs_spec all index ops :
  checkPairs all index ops = Authorized ↔ ∀ d, Op.DataVersion d ∈ ops → pairsWithPut d all = true.
Proof.
  revert index. induction ops as [|op ops IH]; intros index.
  - split; [|done]. by intros _ d ?%elem_of_nil.
  - setoid_rewrite elem_of_cons.
    destruct op as [p|p|d|l]; cbn [checkPairs]; [rewrite IH; naive_solver..| |rewrite IH; naive_solver].
    destruct (pairsWithPut d all) eqn:E; cbn [negb].
    + rewrite IH. split; [|auto]. by intros H d' [[= ->]|?]; auto.
    + split; [done|]. intros H. rewrite (H d) in E by auto. done.
Qed.

Lemma authorizeOps_spec index ops decided :
  remembers authority decided →
  authorizeOps partition resolver authority index ops decided = Ok Authorized ↔
  ∀ op, op ∈ ops → opAllowed op.
Proof.
  revert index decided. induction ops as [|op ops IH]; intros index decided Hd.
  { split; [|done]. by intros _ op ?%elem_of_nil. }
  rewrite forall_cons. cbn [authorizeOps]. unfold opAllowed at 1.
  destruct (writeOf op) as [w|]; [|by rewrite (IH _ _ Hd); naive_solver].
  transitivity ((ownsKey resolver w partition = true ∧
    (∃ required, writeAccessesOf resolver w = Ok required ∧ ∀ r, r ∈ required → allowedBy authority r = true) ∧
    vaultRenameLanded resolver w = true) ∧ ∀ op, op ∈ ops → opAllowed op); [|naive_solver].
  destruct (ownsKey resolver w partition); cbn [negb]; [|naive_solver].
  destruct (writeAccessesOf resolver w) as [required|]; cbn [mbind result_bind]; [|naive_solver].
  destruct (checkAccesses_spec authority index w required decided Hd) as [Hr Hc].
  destruct (checkAccesses authority index w required decided) as [[|r] decided']; cbn [fst snd] in Hr, Hc.
  - assert (∀ r, r ∈ required → allowedBy authority r = true) by (by apply Hc).
    destruct (vaultRenameLanded resolver w); cbn [negb]; [|naive_solver].
    rewrite (IH _ _ Hr). naive_solver.
  - split; [done|]. intros [(_ & (? & [= <-] & H) & _) _]. by apply Hc in H.
Qed.

Lemma checkContent_spec check all index ops :
  checkContent check all index ops = Authorized ↔
  ∀ op p, op ∈ ops → isContentChecked op = Some p → check p all = None.
Proof.
  revert index. induction ops as [|op ops IH]; intros index; cbn [checkContent].
  { split; [|done]. by intros _ op p ?%elem_of_nil. }
  setoid_rewrite elem_of_cons.
  destruct (isContentChecked op) as [p|] eqn:Ho; [destruct (check p all) eqn:Hp|].
  - split; [done|]. intros H. rewrite (H op p) in Hp; auto. done.
  - rewrite IH. split; [|eauto]. intros H o q [->|?]; [|eauto]. congruence.
  - rewrite IH. split; [|eauto]. intros H o q [->|?]; [|eauto]. congruence.
Qed.

End exact.

(** C32: a forwarded commit is authorized exactly when every op of it is: it
    carries no lease, every write is meant for this partition and bound to its
    key, the behavior definitions it names are all of one type, every data
    version it records is written by a put of the commit, every write's key
    belongs to the partition and the caller holds each access the write
    requires, a removed vault config has landed under its new name, and the
    content check (when it is not deferred) accepts every put it covers. The
    order of the loops, the refusal that comes first and the memory of earlier
    decisions change nothing: two accesses share a remembered decision only when
    they are the same access. *)
Theorem authorization_is_exact partition resolver authority ops content :
  authorizeCommit partition resolver authority ops content = Ok Authorized ↔
  (∀ op, op ∈ ops → opBound partition op) ∧
  oneDefinitionType ops None ∧
  (∀ d, Op.DataVersion d ∈ ops → pairsWithPut d ops = true) ∧
  (∀ op, op ∈ ops → opAllowed partition resolver authority op) ∧
  (∀ check op p, content = Some check → op ∈ ops → isContentChecked op = Some p → check p ops = None).
Proof.
  rewrite <-(authorizeOps_spec partition resolver authority 0 ops ∅) by (intros r b; by rewrite lookup_empty).
  rewrite <-(checkPairs_spec ops 0 ops). pose proof (checkBindings_spec partition 0 ops None) as Hb.
  unfold authorizeCommit, checkCommitBindings.
  destruct (checkBindings partition 0 ops None) as [[|r]|]; cbn [mbind result_bind].
  2, 3: split; [done|]; intros (H1 & H2 & _); by destruct Hb as [_ Hb]; specialize (Hb (conj H1 H2)).
  destruct Hb as [[Hb1 Hb2] _]; [done|].
  destruct (checkPairs ops 0 ops) as [|r]; [|naive_solver].
  destruct (authorizeOps partition resolver authority 0 ops ∅) as [[|r]|]; cbn [mbind result_bind]; [|naive_solver..].
  destruct content as [check|]; [|naive_solver].
  transitivity (checkContent check ops 0 ops = Authorized).
  { split; [by intros [= ?]|by intros ->]. }
  rewrite (checkContent_spec check ops 0 ops). naive_solver.
Qed.

(** ** Control-plane records *)

(** only the intents of a model's data reach the data tree *)
Lemma bound_under_data i segments fileId fileName type :
  bindSegments i segments = Some (Bound fileId fileName type) → segments !! 0 = Some "data" →
  ∃ m, intentOwner i = OwModel m ∧ IntentKeyPaths.keyOwner segments = Some (OwModel m).
Proof.
  intros Hb H0.
  assert (∀ root, root ≠ "data" → segIs segments 0 root = false) as Hne.
  { intros root Hr. eapply segIs_ne; [done|congruence]. }
  assert (∀ root e n, root ≠ "data" → typedFile segments root e n = None) as Htyped.
  { intros root e n Hr. unfold typedFile. by rewrite (Hne root Hr), orb_true_r. }
  assert (∀ d names, definitionKey d segments names = None) as Hdef.
  { intros d names. unfold definitionKey. by rewrite (Hne "config"). }
  assert (∀ m names v o b, dataKey m segments names v o = Some b → intentOwner i = OwModel m →
    ∃ m, intentOwner i = OwModel m ∧ IntentKeyPaths.keyOwner segments = Some (OwModel m)) as Hdata.
  { intros m names v o b Hk%dataKey_owner Hi. by exists m. }
  destruct i as [k m|k m n v|k m n v|k m n t|k m o|k run|k d|k d f|k d t|k aid|k]; cbn [bindSegments] in Hb.
  - destruct k; first [by rewrite Htyped in Hb | by eapply Hdata].
  - by eapply Hdata.
  - by eapply Hdata.
  - by eapply Hdata.
  - unfold outputKey in Hb. by rewrite (Hne "outputs"), andb_false_r in Hb.
  - destruct k; by rewrite ?(Hne "workflow-runs"), ?(Hne "workflows-evaluated"), andb_false_r in Hb.
  - destruct k; first [by rewrite Hdef in Hb | idtac].
    all: destruct segments as [|x [|file [|]]]; try done; injection H0 as ->; by rewrite bool_decide_eq_false_2 in Hb.
  - by rewrite Hdef in Hb.
  - by rewrite Hdef in Hb.
  - by rewrite Htyped in Hb.
  - apply boundIf_true, bool_decide_eq_true in Hb. destruct segments as [|x segments]; [done|]. injection H0 as ->.
    destruct segments; discriminate Hb.
Qed.

Lemma authorized_op partition resolver authority ops content op :
  authorizeCommit partition resolver authority ops content = Ok Authorized → op ∈ ops →
  opBound partition op ∧ opAllowed partition resolver authority op.
Proof.
  unfold authorizeCommit, checkCommitBindings. intros (o & Hc & H)%result_bind_ok Hop.
  apply result_bind_ok in Hc as (o' & Hb & Hc). destruct o' as [|r]; [|by injection Hc as <-].
  destruct o as [|r]; [|done]. apply result_bind_ok in H as (o & Ha & H). destruct o as [|r]; [|done].
  apply checkBindings_spec in Hb as [Hb _]. rewrite authorizeOps_spec in Ha; [by auto|].
  intros r b. by rewrite lookup_empty.
Qed.

Lemma opBound_segments partition op w :
  opBound partition op → writeOf op = Some w →
  ∃ fileId fileName type,
    bindSegments (intent w) (splitOn "/"%char (RecordKey.value (key w))) = Some (Bound fileId fileName type).
Proof.
  intros [_ H] (_ & f & n & t & Hb)%H. exists f, n, t. unfold bindKey in Hb.
  destruct (opKindAllowed _ _); [|done]. cbn [negb] in Hb.
  destruct (bindSegments _ _) as [b|]; [|done]. cbn in Hb. by subst b.
Qed.

(** the access a write of a model's record requires *)
Lemma writeAccessesOf_model resolver w m :
  intentOwner (intent w) = OwModel m →
  writeAccessesOf resolver w =
    (required ← (type ← ModelType.create (Intent.mr_type m);
       if isControlPlaneIntent (intent w) type then
         r ← controlPlaneResourceOf resolver m; Ok (MkRequired Action.admin r false)
       else if isRestrictedType resolver type then Ok adminAccess
       else modelWriteAccessOf resolver (intent w) m type);
     Ok [required]).
Proof.
  unfold writeAccessesOf, writeAccessOf. destruct (intent w); cbn [intentOwner]; intros [= <-]; done.
Qed.

(** what it takes to be allowed as an admin *)
Lemma admin_authority service p r :
  writeAuthority false (Some service) (Some p) Action.admin r false = true →
  DecisionService.noDenyRefuses service p Action.admin r ∧
  ∃ g, g ∈ DecisionService.candidatesOf service p ∧ Grant.effect g = Effect.allow ∧
    Action.admin ∈ Grant.actions g ∧
    (DecisionService.grantMatchesResource g r = true ∨
     DecisionService.grantMatchesResource g ADMIN_RESOURCE = true).
Proof.
  unfold writeAuthority, decideForCaller. intros H.
  assert (∀ r, DecisionService.effectiveAction Action.admin r = Action.admin) as Ha.
  { intros x. unfold DecisionService.effectiveAction. by destruct (AccessResource.isControlPlaneRecordResource x). }
  destruct (DecisionService.decide_ service p Action.admin r) as [d|] eqn:Hd.
  - destruct (bool_decide _) eqn:He; [|done]. apply bool_decide_eq_true in He. split.
    + apply DecisionService.decide_not_refused. by rewrite Hd; intros ? [= <-].
    + destruct (DecisionService.admin_allowed _ _ _ _ _ (Ha r) Hd He) as (g & ? & ? & ? & ? & _).
      exists g. auto.
  - split; [apply DecisionService.decide_not_refused; by rewrite Hd|].
    destruct (DecisionService.decide_ service p Action.admin ADMIN_RESOURCE) as [d|] eqn:Hd'; [|done].
    destruct (bool_decide _) eqn:He; [|done]. apply bool_decide_eq_true in He.
    destruct (DecisionService.admin_allowed _ _ _ _ _ (Ha ADMIN_RESOURCE) Hd' He) as (g & ? & ? & ? & ? & _).
    exists g. auto.
Qed.

(** Nobody writes policy without being an admin of it. When a server that
    authenticates its callers authorizes a commit, every op of it on a key of
    the data tree of a control-plane record (a grant, a group, a token, a
    worker), whatever intent the client declared for it, was made by a caller
    with an allow grant that lists the admin action itself and selects that
    record or the whole of access, and no deny refuses the caller that record. *)
Lemma control_plane_commits_need_admin (partition : PartitionKey.t)
    (resolver : AggregateResourceResolver) (service : DecisionService.t)
    (p : DecisionService.AccessPrincipal) (ops : list Op.t) (content : CommitContentCheck) (op : Op.t)
    (w : WriteOp) (m : Intent.ModelRef) (b : KeyBinding) (type : ModelType.t) :
  authorizeCommit partition resolver (writeAuthority false (Some service) (Some p)) ops content = Ok Authorized →
  op ∈ ops → writeOf op = Some w →
  dataKey m (splitOn "/"%char (RecordKey.value (key w))) None None None = Some b →
  ModelType.create (Intent.mr_type m) = Ok type →
  ModelType.isControlPlaneModelType (ModelType.normalized type) = true →
  ∃ r, controlPlaneResourceOf resolver m = Ok r ∧
    DecisionService.noDenyRefuses service p Action.admin r ∧
    ∃ g, g ∈ DecisionService.candidatesOf service p ∧ Grant.effect g = Effect.allow ∧
      Action.admin ∈ Grant.actions g ∧
      (DecisionService.grantMatchesResource g r = true ∨
       DecisionService.grantMatchesResource g ADMIN_RESOURCE = true).
Proof.
  intros Hok Hop Hw Hk Ht Hcp. apply (authorized_op _ _ _ _ _ _ Hok) in Hop as [Hb Ha].
  destruct (opBound_segments _ _ _ Hb Hw) as (f & n & t & Hbs).
  destruct (bound_under_data _ _ _ _ _ Hbs) as (m' & Hi & Ho).
  { destruct (dataKey_shape _ _ _ _ _ _ Hk) as (? & ? & -> & _). done. }
  apply dataKey_owner in Hk. rewrite Hk in Ho. injection Ho as <-.
  destruct (Ha w Hw) as (_ & (required & Hr & Hall) & _).
  rewrite (writeAccessesOf_model _ _ _ Hi), Ht in Hr. cbn [mbind result_bind] in Hr.
  unfold isControlPlaneIntent in Hr. rewrite Hcp, orb_true_r in Hr.
  destruct (controlPlaneResourceOf resolver m) as [r|]; [|done]. injection Hr as <-.
  exists r. split; [done|]. apply admin_authority.
  exact (Hall _ (list_elem_of_here _ _)).
Qed.

Definition noAggregates : AggregateResourceResolver :=
  MkResolver (λ _, None) (λ _ _ _, None) (λ _, None) (λ _, None) (λ _, false) (λ _ _, false).

Definition grantModel : Intent.ModelRef := Intent.MkModelRef "swamp/grant" PartitionKey.sampleUuid.

Definition grantPartition : PartitionKey.t :=
  match Intent.modelPartition grantModel with
  | Ok k => k
  | Throw _ => PartitionKey.Mk "" PartitionKey.PkLockfile
  end.

(** a write of a grant's record that says it saves data *)
Definition grantWrite : Op.t :=
  Op.Put (Op.MkPut (Intent.InData Intent.KDataSave grantModel "state" 1)
    (RecordKey.Mk ("data/swamp/grant/" +:+ PartitionKey.sampleUuid +:+ "/state/1/raw"))
    (Op.Inline "e30=") "" None None).

Lemma control_plane_commits_need_admin_witness :
  ∃ r, controlPlaneResourceOf noAggregates grantModel = Ok r ∧
    DecisionService.noDenyRefuses DecisionService.service_ DecisionService.alice Action.admin r ∧
    ∃ g, g ∈ DecisionService.candidatesOf DecisionService.service_ DecisionService.alice ∧
      Grant.effect g = Effect.allow ∧ Action.admin ∈ Grant.actions g ∧
      (DecisionService.grantMatchesResource g r = true ∨
       DecisionService.grantMatchesResource g ADMIN_RESOURCE = true).
Proof.
  apply (control_plane_commits_need_admin grantPartition noAggregates DecisionService.service_
    DecisionService.alice [grantWrite] None grantWrite
    (MkWrite (Intent.InData Intent.KDataSave grantModel "state" 1) OpPut
      (RecordKey.Mk ("data/swamp/grant/" +:+ PartitionKey.sampleUuid +:+ "/state/1/raw")))
    grantModel (Bound None None None) (ModelType.Mk "swamp/grant" "swamp/grant")).
  - vm_compute. reflexivity.
  - left.
  - reflexivity.
  - vm_compute. reflexivity.
  - vm_compute. reflexivity.
  - vm_compute. reflexivity.
Defined.

(** without the grant the same commit is refused at its op *)
Example grant_write_refused :
  (λ o, match o with Refusal r => Some (reason r, opIndex r) | Authorized => None end) <$>
    try_option (authorizeCommit grantPartition noAggregates
      (writeAuthority false (Some DecisionService.service_) None) [grantWrite] None) =
  Some (Some (RForbidden, 0)).
Proof. vm_compute. reflexivity. Qed.

(** ** Reading what was compacted *)

Definition identityOf (o : Owner) : PartitionKey.PartitionIdentity :=
  match o with
  | OwModel m => PartitionKey.PkModel (Intent.mr_type m) (Intent.mr_id m)
  | OwRun run => PartitionKey.PkRun (Intent.rr_workflowId run) (Intent.rr_runId run)
  | OwConfig kind name => PartitionKey.PkConfig kind name
  | OwAuto id => PartitionKey.PkDefinition id
  | OwLockfile => PartitionKey.PkLockfile
  end.

(** the spelling an accepted intent has *)
Definition canonicalOwner (o : Owner) : Prop :=
  match o with
  | OwModel m =>
      (∃ mt, ModelType.create (Intent.mr_type m) = Ok mt ∧ ModelType.normalized mt = Intent.mr_type m) ∧
      toLowerCase (Intent.mr_id m) = Intent.mr_id m
  | OwRun run =>
      toLowerCase (Intent.rr_workflowId run) = Intent.rr_workflowId run ∧
      toLowerCase (Intent.rr_runId run) = Intent.rr_runId run
  | OwAuto id => toLowerCase id = id
  | OwConfig _ _ | OwLockfile => True
  end.

Lemma fromIdentity_identity i p : PartitionKey.fromIdentity i = Ok p → PartitionKey.identity p = i.
Proof. by intros (_ & _ & [= <-])%result_bind_ok. Qed.

Lemma canonicalUuid_lower id label u :
  toLowerCase id = id → PartitionKey.canonicalUuid id label = Ok u → u = id.
Proof. unfold PartitionKey.canonicalUuid. intros -> (_ & _ & [= <-])%result_bind_ok. done. Qed.

Lemma ownerPartition_identity o p :
  canonicalOwner o → ownerPartition o = Ok p → PartitionKey.identity p = identityOf o.
Proof.
  destruct o as [m|run|kind name|id|]; cbn [canonicalOwner ownerPartition identityOf].
  - intros [(mt & Ht & Hn) Hl]. unfold Intent.modelPartition. rewrite Ht. cbn [mbind result_bind].
    intros (u & ->%canonicalUuid_lower & H)%result_bind_ok; [|done]. rewrite Hn in H.
    by apply fromIdentity_identity.
  - intros [Hw Hr] (u & ->%canonicalUuid_lower & H)%result_bind_ok; [|done].
    apply result_bind_ok in H as (u & ->%canonicalUuid_lower & H); [|done]. by apply fromIdentity_identity.
  - intros _ (_ & _ & H)%result_bind_ok. by apply fromIdentity_identity.
  - intros Hl (u & ->%canonicalUuid_lower & H)%result_bind_ok; [|done]. by apply fromIdentity_identity.
  - intros _. apply fromIdentity_identity.
Qed.

Lemma readId_lower v label s : Intent.readId v label = Ok s → toLowerCase s = s.
Proof. intros (r & _ & [= <-])%result_bind_ok. apply Intent.toLowerCase_twice. Qed.

Lemma readModel_canonical v k m : Intent.readModel v k = Ok m → canonicalOwner (OwModel m).
Proof.
  intros H. split; [by apply Intent.readModel_ok in H as [? _]|].
  unfold Intent.readModel in H. repeat (apply result_bind_ok in H as (? & _ & H)).
  destruct (ModelType.create _); [|done]. do 2 (apply result_bind_ok in H as (? & _ & H)).
  apply result_bind_ok in H as (id & Hid & [= <-]). by eapply readId_lower.
Qed.

Lemma createIntent_canonical v i : Intent.createIntent v = Ok i → canonicalOwner (intentOwner i).
Proof.
  intros (json & k & p & -> & _ & Hb & _)%Intent.createIntent_ok.
  destruct (Intent.SHAPES k); cbn [Intent.build] in Hb;
    repeat (let x := fresh in let E := fresh in apply result_bind_ok in Hb as (x & E & Hb)).
  all: try (destruct (assoc_get "version" json); [apply result_bind_ok in Hb as (? & _ & [= <-])|injection Hb as <-]).
  all: try (injection Hb as <-); cbn [intentOwner]; try done; try (by eapply readModel_canonical).
  all: cbn [canonicalOwner Intent.rr_workflowId Intent.rr_runId]; try split; by eapply readId_lower.
Qed.

(** an accepted intent about a control-plane record has a model of such a type *)
Lemma createIntent_control v i m type :
  Intent.createIntent v = Ok i → intentOwner i = OwModel m → ModelType.create (Intent.mr_type m) = Ok type →
  isControlPlaneIntent i type = ModelType.isControlPlaneModelType (ModelType.normalized type).
Proof.
  intros H Ho Ht. pose proof (createIntent_canonical _ _ H) as Hc. rewrite Ho in Hc.
  destruct Hc as [(mt & Ht' & Hn) _]. rewrite Ht in Ht'. injection Ht' as <-.
  apply Intent.createIntent_ok in H as (json & k & p & -> & _ & Hb & _).
  destruct (Intent.build_kind _ _ _ Hb) as [Hk Hsh]. unfold isControlPlaneIntent. rewrite Hk.
  destruct (Intent.CONTROL_PLANE_INTENT_TYPES k) as [required|] eqn:Hr; [|done].
  rewrite bool_decide_eq_true_2 by done. cbn [orb]. symmetry. rewrite Hn.
  assert (Intent.model i = Some m) as Hm by (destruct i; cbn [intentOwner Intent.model] in *; congruence).
  apply (Intent.build_model _ _ _ _ Hb) in Hm.
  destruct (Intent.readModel_ok _ _ _ Hm) as [_ Hreq]. unfold ModelType.isControlPlaneModelType.
  rewrite (Hreq _ Hr). apply bool_decide_eq_true. destruct k; try done; injection Hr as <-; set_solver.
Qed.

Lemma dataKey_unfiltered m segments names version only b :
  dataKey m segments names version only = Some b → is_Some (dataKey m segments None None None).
Proof.
  unfold dataKey. repeat case_match; try done; naive_solver.
Qed.

Lemma dataKey_root m segments names version only :
  segments !! 0 ≠ Some "data" → dataKey m segments names version only = None.
Proof. intros H. unfold dataKey, segIs. by rewrite bool_decide_eq_false_2. Qed.

(** the record kind is read off the key alone *)
Lemma modelRecordKind_bound i m k fileId fileName type :
  Intent.shape i = Intent.SHAPES (Intent.kind i) → intentOwner i = OwModel m →
  Intent.CONTROL_PLANE_INTENT_TYPES (Intent.kind i) = None →
  bindSegments i (splitOn "/"%char (RecordKey.value k)) = Some (Bound fileId fileName type) →
  modelRecordKind m k = Some (if isDataIntent i then MrData else MrModel).
Proof.
  unfold modelRecordKind. generalize (splitOn "/"%char (RecordKey.value k)). intros segments Hs Ho Hc Hb.
  assert (∀ root, segIs segments 0 root = true → root ≠ "data" →
    bool_decide (is_Some (dataKey m segments None None None)) = false) as Hnd.
  { intros root H0%segIs_eq Hr. apply bool_decide_eq_false. rewrite dataKey_root; [by intros []|congruence]. }
  destruct i as [kd m'|kd m' n v|kd m' n v|kd m' n t|kd m' o| | | | | |]; try done;
    cbn [intentOwner] in Ho; injection Ho as ->; cbn [Intent.kind] in *; destruct kd; try done;
    cbn [bindSegments] in Hb.
  all: try (rewrite bool_decide_eq_true_2 by (by eapply dataKey_unfiltered); done).
  3, 4: cbn [bindSegments]; rewrite Hb; unfold outputKey in Hb; pose proof (boundIf_true _ _ Hb) as Hk; split_bools;
    by rewrite (Hnd "outputs") by done.
  all: assert (segIs segments 0 "definitions-evaluated" = true) as E
    by (unfold typedFile in Hb; by destruct (segIs segments 0 _); [|rewrite orb_true_r in Hb]).
  all: rewrite (Hnd _ E) by done; cbn [bindSegments]; rewrite Hb; unfold outputKey;
    apply segIs_eq in E; by rewrite (segIs_ne _ _ _ "outputs" E), andb_false_r by done.
Qed.

(** the read of a model's record *)
Lemma readAccessOf_model resolver op w m :
  writeOf op = Some w → intentOwner (intent w) = OwModel m →
  readAccessOf resolver op =
    (type ← ModelType.create (Intent.mr_type m);
     if isControlPlaneIntent (intent w) type then
       r ← controlPlaneResourceOf resolver m; Ok (Some (MkRequired Action.admin r false))
     else
       r ← modelResource resolver type m
             (if isDataIntent (intent w) then ResourceSelector.data else ResourceSelector.model);
       Ok (Some (MkRequired Action.read r false))).
Proof.
  intros Hw. unfold readAccessOf. rewrite Hw. destruct (intent w); cbn [intentOwner]; intros [= <-]; done.
Qed.

(** the type a definition's key names does not depend on the names that bind it *)
Lemma definitionKey_type d segments names fileId fileName type :
  definitionKey d segments names = Some (Bound fileId fileName type) →
  Intent.dr_kind d = PartitionKey.DkModel →
  ∃ file, fromEnd segments 1 = Some file ∧ endsWith file ".yaml" = true ∧
    ∀ names', sliceEnd 5 file ∈ names' →
      ∃ fileId' fileName', definitionKey d segments names' = Some (Bound fileId' fileName' type).
Proof.
  unfold definitionKey. intros H Hk. rewrite Hk in *. destruct (segIs segments 0 "config"); [|done].
  cbn [negb] in *. unfold typedFile in *. cbn [ids n_names anyName] in *.
  destruct (length (drop 1 segments) <? 3) eqn:El; [done|]. cbn [orb] in *.
  apply Nat.ltb_ge in El. rewrite length_drop in El.
  destruct (segIs (drop 1 segments) 0 "models"); [|done]. cbn [negb] in *.
  destruct (typeUnder _ _ _) as [ty|]; [|done].
  assert (fromEnd (drop 1 segments) 1 = fromEnd segments 1) as Hf.
  { unfold fromEnd. rewrite length_drop, lookup_drop, !(proj2 (Nat.leb_le _ _)) by lia. f_equal. lia. }
  rewrite Hf in *. destruct (fromEnd segments 1) as [file|]; [|done]. exists file. split; [done|].
  destruct (endsWith file ".yaml"); [|done]. cbn [negb] in *. split; [done|]. intros names' Hin.
  destruct (PartitionKey.UUID _); [by injection H as <- <- <-; eauto|].
  rewrite (bool_decide_eq_true_2 (_ ∈ names')) by done.
  destruct (bool_decide _); [by injection H as <- <- <-; eauto|done].
Qed.

Lemma fromEnd_last (l : list string) : fromEnd l 1 = last l.
Proof.
  unfold fromEnd. rewrite last_lookup. destruct l as [|x l]; [done|]. cbn [length].
  rewrite (proj2 (Nat.leb_le _ _)) by lia. f_equal. lia.
Qed.

(** the read of a definition does not depend on the intent and the op that wrote it *)
Lemma definition_read resolver d w w' :
  (Intent.dr_kind d = PartitionKey.DkModel →
   bindingType (bindKey (intent w) (opKind w) (key w)) = bindingType (bindKey (intent w') (opKind w') (key w'))) →
  readOfWrite (definitionAccessOf resolver w d) = readOfWrite (definitionAccessOf resolver w' d).
Proof.
  unfold definitionAccessOf. destruct (Intent.dr_kind d) eqn:Ek; intros Ht; [|done..].
  by rewrite (Ht eq_refl).
Qed.

(** ** The base reads at least what the op asked for *)

Section base.
Context (resolver : AggregateResourceResolver) (partition : PartitionKey.t) (op : Op.t) (w : WriteOp).
Context (Hw : writeOf op = Some w).

Definition boundWrite : Prop :=
  ∃ fileId fileName type,
    bindSegments (intent w) (splitOn "/"%char (RecordKey.value (key w))) = Some (Bound fileId fileName type).

Lemma base_model v m req :
  Intent.createIntent v = Ok (intent w) → intentOwner (intent w) = OwModel m →
  PartitionKey.identity partition = identityOf (OwModel m) → boundWrite →
  readAccessOf resolver op = Ok (Some req) →
  ∃ l, baseRecordReadAccessOf resolver partition (key w) = Ok l ∧ req ∈ l.
Proof.
  intros Hc Ho Hi (f & n & t & Hb). rewrite (readAccessOf_model _ _ _ _ Hw Ho).
  intros (type & Ht & H)%result_bind_ok. unfold baseRecordReadAccessOf. rewrite Hi. cbn [identityOf].
  assert (Intent.MkModelRef (Intent.mr_type m) (Intent.mr_id m) = m) as -> by (by destruct m).
  rewrite Ht. cbn [mbind result_bind]. pose proof (createIntent_control _ _ _ _ Hc Ho Ht) as Hcp.
  rewrite <-Hcp. destruct (isControlPlaneIntent (intent w) type) eqn:Hci.
  - apply result_bind_ok in H as (r & -> & [= <-]). eexists. split; [done|left].
  - apply Intent.createIntent_ok in Hc as (json & k & p & -> & _ & Hbd & _).
    destruct (Intent.build_kind _ _ _ Hbd) as [<- Hsh].
    erewrite modelRecordKind_bound; [|exact Hsh|exact Ho| |exact Hb].
    2: { unfold isControlPlaneIntent in Hci. apply orb_false_iff in Hci as [Hci _].
         apply bool_decide_eq_false in Hci. by destruct (Intent.CONTROL_PLANE_INTENT_TYPES _); [destruct Hci|]. }
    apply result_bind_ok in H as (r & Hr & [= <-]).
    destruct (isDataIntent (intent w)); rewrite Hr; (eexists; split; [done|left]).
Qed.

Lemma base_definition d req :
  evaluatesWorkflow (intent w) → intentOwner (intent w) = OwConfig (Intent.dr_kind d) (Intent.dr_name d) →
  PartitionKey.identity partition = identityOf (intentOwner (intent w)) → boundWrite →
  bindKey (intent w) (opKind w) (key w) = default (Refused KeyOutsideAggregate)
    (bindSegments (intent w) (splitOn "/"%char (RecordKey.value (key w)))) →
  req = readOfWrite (definitionAccessOf resolver w d) →
  ∃ l, baseRecordReadAccessOf resolver partition (key w) = Ok l ∧ req ∈ l.
Proof.
  intros He Ho Hi (f & n & t & Hb) Hbk ->. unfold baseRecordReadAccessOf. rewrite Hi, Ho. cbn [identityOf].
  assert (Intent.MkDefinitionRef (Intent.dr_kind d) (Intent.dr_name d) = d) as -> by (by destruct d).
  eexists. split; [done|]. apply list_elem_of_singleton. apply definition_read. intros Hk.
  rewrite Hbk, Hb. cbn [intent opKind key default from_option bindingType id].
  assert (∃ names d', Intent.dr_kind d' = PartitionKey.DkModel ∧
    definitionKey d' (splitOn "/"%char (RecordKey.value (key w))) names = Some (Bound f n t)) as (names & d' & Hk' & Hd).
  { destruct (intent w) as [| | | | | |kd d'|kd d' x|kd d' x| |]; try done; cbn [intentOwner] in Ho;
      injection Ho as Hk1 Hk2; rewrite Hk in Hk1; cbn [bindSegments evaluatesWorkflow] in *.
    - destruct kd; first [by eauto | congruence].
    - eauto.
    - eauto. }
  destruct (definitionKey_type _ _ _ _ _ _ Hd Hk') as (file & Hf & Hy & Hrebind).
  rewrite fromEnd_last in Hf. rewrite Hf. cbn [default from_option id]. rewrite Hy.
  destruct (Hrebind [Intent.dr_name d; sliceEnd 5 file]) as (f' & n' & Hd'); [right; left|].
  assert (definitionKey d = definitionKey d') as Hdd by (unfold definitionKey; by rewrite Hk, Hk').
  unfold bindKey. cbn [negb opKindAllowed bindSegments]. by rewrite Hdd, Hd'.
Qed.

Lemma base_auto k id req :
  intent w = Intent.InAuto k id → PartitionKey.identity partition = PartitionKey.PkDefinition id →
  bindKey (intent w) (opKind w) (key w) = default (Refused KeyOutsideAggregate)
    (bindSegments (intent w) (splitOn "/"%char (RecordKey.value (key w)))) →
  readAccessOf resolver op = Ok (Some req) →
  ∃ l, baseRecordReadAccessOf resolver partition (key w) = Ok l ∧ req ∈ l.
Proof.
  intros Hi Hp Hb. unfold readAccessOf, baseRecordReadAccessOf. rewrite Hw, Hp, Hb, Hi.
  intros [= <-]. eexists. split; [done|left].
Qed.

End base.

(** The base of a partition is never read more loosely than its log. A record
    that was compacted is decided from its partition and its key alone; for
    every write the server accepts, the accesses it then asks for are there and
    include the access a reader of the write itself needs. *)
Lemma base_reads_cover_the_log (resolver : AggregateResourceResolver) (partition : PartitionKey.t)
    (op : Op.t) (w : WriteOp) (v : JsValue) (fileId fileName : option string) (type : option ModelType.t)
    (req : RequiredAccess) :
  writeOf op = Some w → Intent.createIntent v = Ok (intent w) →
  Intent.intentPartition (intent w) = Ok partition →
  bindKey (intent w) (opKind w) (key w) = Bound fileId fileName type →
  readAccessOf resolver op = Ok (Some req) →
  ∃ required, baseRecordReadAccessOf resolver partition (key w) = Ok required ∧ req ∈ required.
Proof.
  intros Hw Hc Hp Hb Hr.
  rewrite intentPartition_owner in Hp.
  apply (ownerPartition_identity _ _ (createIntent_canonical _ _ Hc)) in Hp.
  assert (bindKey (intent w) (opKind w) (key w) = default (Refused KeyOutsideAggregate)
    (bindSegments (intent w) (splitOn "/"%char (RecordKey.value (key w))))) as Hbk.
  { unfold bindKey in Hb |- *. by destruct (opKindAllowed _ _). }
  assert (boundWrite w) as Hbw.
  { rewrite Hbk in Hb. destruct (bindSegments _ _) as [b|] eqn:E; [|done]. cbn in Hb. subst b. by eexists _, _, _. }
  destruct (intentOwner (intent w)) as [m|run|kind name|id|] eqn:Ho; cbn [identityOf] in Hp.
  - by eapply base_model.
  - unfold readAccessOf, baseRecordReadAccessOf in *. rewrite Hw in Hr. rewrite Hp.
    destruct (intent w); try done; injection Ho as ->. injection Hr as <-. eexists. split; [done|left].
  - eapply (base_definition _ _ _ (Intent.MkDefinitionRef kind name)); try done.
    + by eapply createIntent_evaluates.
    + by rewrite Ho.
    + unfold readAccessOf in Hr. rewrite Hw in Hr. clear Hc Hb Hbk Hbw.
      destruct (intent w) as [| | | | | |kd d|kd d x|kd d x| |]; try done; destruct d; cbn in Ho; by simplify_eq.
  - assert (∃ k, intent w = Intent.InAuto k id) as [k Hi].
    { clear -Ho. destruct (intent w); try done. injection Ho as ->. by eexists. }
    by eapply base_auto.
  - unfold readAccessOf in Hr. rewrite Hw in Hr. by destruct (intent w).
Qed.

Lemma base_reads_cover_the_log_witness :
  ∃ required, baseRecordReadAccessOf noAggregates grantPartition
      (RecordKey.Mk ("data/swamp/grant/" +:+ PartitionKey.sampleUuid +:+ "/state/1/raw")) = Ok required ∧
    MkRequired Action.admin
      (AccessResource.Mk ResourceSelector.access "swamp/grant"
         (<["name" := VStr PartitionKey.sampleUuid]> (<["modelType" := VStr "swamp/grant"]>
            {["tags" := VObj []]})) false false None) false ∈ required.
Proof.
  apply (base_reads_cover_the_log noAggregates grantPartition grantWrite
    (MkWrite (Intent.InData Intent.KDataSave grantModel "state" 1) OpPut
      (RecordKey.Mk ("data/swamp/grant/" +:+ PartitionKey.sampleUuid +:+ "/state/1/raw")))
    (VObj [("kind", VStr "data.save");
           ("model", VObj [("type", VStr "swamp/grant"); ("id", VStr PartitionKey.sampleUuid)]);
           ("name", VStr "state"); ("version", VNum 1)]) None None None).
  - reflexivity.
  - vm_compute. reflexivity.
  - vm_compute. reflexivity.
  - vm_compute. reflexivity.
  - vm_compute. reflexivity.
Defined.

End CommitAuthorizationProps.
