(* ===== verification/Credentials.v ===== *)
(** * Credentials: enrollment tokens and server tokens

    [src/src/domain/crypto/timing_safe_equal.ts] and the two token models,
    [src/src/domain/models/worker/enrollment_token_model.ts] and
    [src/src/domain/models/access/server_token_model.ts]. The vault is outside
    the models: reading a secret is the argument [vaultGet] of the methods that
    call it, and a method that stores one returns the triple it puts there. The
    secrets generated at mint time and the digest of a secret are arguments
    too. Times are instants in milliseconds. *)

From Stdlib Require Import Ascii.
From S2P Require Import Prelude JsString ModelType AccessNames.

Module TimingSafe.

(** [TextEncoder.encode] of the code units below 256 *)
Fixpoint encode (s : string) : list Z :=
  match s with
  | EmptyString => []
  | String c s =>
      if (code c <? 128)%Z then code c :: encode s
      else Z.lor 192 (Z.shiftr (code c) 6) :: Z.lor 128 (Z.land (code c) 63) :: encode s
  end.

Definition byteAt (bytes : list Z) (i : nat) : Z := default 0%Z (bytes !! i).

(** [for (let i = 0; i < length; i++) diff |= …] *)
Fixpoint compareLoop (a b : list Z) (fuel i : nat) (diff : Z) : Z :=
  match fuel with
  | O => diff
  | S fuel =>
      compareLoop a b fuel (S i)
        (Z.lor diff
           (Z.lxor (byteAt a (i mod Nat.max (length a) 1)) (byteAt b (i mod Nat.max (length b) 1))))
  end.

Definition timingSafeEqual (a b : string) : bool :=
  let aBytes := encode a in
  let bBytes := encode b in
  let diff := Z.lxor (Z.of_nat (length aBytes)) (Z.of_nat (length bBytes)) in
  let length := Nat.max (length aBytes) (length bBytes) in
  (compareLoop aBytes bBytes length 0 diff =? 0)%Z.

Lemma compareLoop_zero a b fuel i diff :
  compareLoop a b fuel i diff = 0%Z ↔
  diff = 0%Z ∧ ∀ k, i ≤ k < i + fuel →
    byteAt a (k mod Nat.max (length a) 1) = byteAt b (k mod Nat.max (length b) 1).
Proof.
  revert i diff. induction fuel as [|fuel IH]; intros i diff; simpl.
  { split; [|naive_solver]. intros ->. split; [done|lia]. }
  rewrite IH, Z.lor_eq_0_iff, Z.lxor_eq_0_iff. split.
  - intros [[-> E] H]. split; [done|]. intros k Hk.
    destruct (decide (k = i)) as [->|]; [done|]. apply H. lia.
  - intros [-> H]. split; [split; [done|apply H; lia]|]. intros k Hk. apply H. lia.
Qed.

Lemma code_bounds c : (0 ≤ code c < 256)%Z.
Proof. unfold code. pose proof (nat_ascii_bounded c). lia. Qed.

Lemma code_inj c d : code c = code d → c = d.
Proof.
  unfold code. intros E%Nat2Z.inj. by rewrite <-(ascii_nat_embedding c), E, ascii_nat_embedding.
Qed.

Lemma encode_high c :
  (128 ≤ code c)%Z →
  Z.lor 192 (Z.shiftr (code c) 6) = (192 + code c / 64)%Z ∧
  Z.lor 128 (Z.land (code c) 63) = (128 + code c mod 64)%Z.
Proof.
  intros _. rewrite Z.shiftr_div_pow2 by lia. change 63%Z with (Z.ones 6).
  rewrite Z.land_ones by lia. change (2 ^ 6)%Z with 64%Z.
  assert (∀ h m : Z, Z.land h m = 0 → Z.lor h m = h + m)%Z as Hor.
  { intros h m Hz. rewrite <-Z.lxor_lor by done. by rewrite Z.add_nocarry_lxor. }
  pose proof (code_bounds c) as Hc.
  assert (0 ≤ code c / 64 < 4)%Z as H1 by (split; [apply Z.div_pos; lia|apply Z.div_lt_upper_bound; lia]).
  assert (0 ≤ code c mod 64 < 64)%Z as H2 by (apply Z.mod_pos_bound; lia).
  split; apply Hor.
  - assert (code c / 64 = 0 ∨ code c / 64 = 1 ∨ code c / 64 = 2 ∨ code c / 64 = 3)%Z
      as [->|[->|[->| ->]]] by lia; done.
  - apply Z.bits_inj'. intros n Hn. rewrite Z.land_spec, Z.bits_0.
    destruct (decide (n = 7)%Z) as [->|Hne].
    + rewrite (Z.bits_above_log2 (code c mod 64)), andb_false_r; [done|lia|].
      destruct (decide (code c mod 64 = 0)%Z) as [->|]; [done|].
      apply Z.log2_lt_pow2; [lia|]. lia.
    + change 128%Z with (2 ^ 7)%Z. rewrite Z.pow2_bits_false by lia. done.
Qed.

Lemma encode_inj a b : encode a = encode b → a = b.
Proof.
  revert b. induction a as [|c a IH]; intros [|d b]; simpl; [done|case_match; done..|].
  pose proof (code_bounds c). pose proof (code_bounds d).
  destruct (Z.ltb_spec (code c) 128) as [Hc|Hc], (Z.ltb_spec (code d) 128) as [Hd|Hd].
  - intros [= E1 E2]. f_equal; [by apply code_inj|by apply IH].
  - destruct (encode_high d Hd) as [-> _]. intros [= E1 _].
    assert (0 ≤ code d / 64)%Z by (apply Z.div_pos; lia). lia.
  - destruct (encode_high c Hc) as [-> _]. intros [= E1 _].
    assert (0 ≤ code c / 64)%Z by (apply Z.div_pos; lia). lia.
  - destruct (encode_high c Hc) as [-> ->], (encode_high d Hd) as [-> ->]. intros [= E1 E2 E3].
    f_equal; [|by apply IH]. apply code_inj.
    rewrite (Z.div_mod (code c) 64), (Z.div_mod (code d) 64) by lia. lia.
Qed.

Lemma timingSafeEqual_eq a b : timingSafeEqual a b = true ↔ a = b.
Proof.
  unfold timingSafeEqual. rewrite Z.eqb_eq, compareLoop_zero, Z.lxor_eq_0_iff, Nat2Z.inj_iff. split.
  - intros [Hlen H]. apply encode_inj. apply list_eq. intros i.
    destruct (decide (i < length (encode a))) as [Hi|Hi].
    + specialize (H i). rewrite Hlen, Nat.max_id in H. specialize (H ltac:(lia)).
      rewrite !Nat.mod_small in H by lia. unfold byteAt in H.
      destruct (lookup_lt_is_Some_2 (encode a) i Hi) as [x Hx].
      destruct (lookup_lt_is_Some_2 (encode b) i ltac:(lia)) as [y Hy].
      rewrite Hx, Hy in *. simpl in H. congruence.
    + rewrite !lookup_ge_None_2 by lia. done.
  - intros ->. done.
Qed.

(** The constant-time comparison decides equality: it accepts a presented
    credential exactly when it is the expected one, for credentials of any and
    of different lengths. *)
Lemma timingSafeEqual_decides_equality (a b : string) : timingSafeEqual a b = true ↔ a = b.
Proof. apply timingSafeEqual_eq. Qed.

End TimingSafe.

Module EnrollmentToken.

Inductive TokenState : Type := unused | enrolled | expired | revoked.

#[global] Instance TokenState_eq_dec : EqDecision TokenState.
Proof. solve_decision. Defined.

Record Binding : Type := MkBinding { machineId : string; enrolledAt : Z }.

(** [None] is the literal [unlimited] *)
Notation MaxEnrollments := (option Z).

Record t : Type := Mk {
  name : string;
  state : TokenState;
  createdAt : Z;
  expiresAt : Z;
  vaultName : string;
  secretKey : string;
  maxEnrollments : MaxEnrollments;
  bindings : list Binding;
  revokedAt : option Z;
}.

#[global] Instance t_eta : Eta t := λ r,
  Mk (name r) (state r) (createdAt r) (expiresAt r) (vaultName r) (secretKey r)
     (maxEnrollments r) (bindings r) (revokedAt r).

(** the stored form, with the deprecated fields *)
Record Stored : Type := MkStored {
  token : t;
  boundMachineId : option string;
  legacyEnrolledAt : option Z;
}.

Definition stored (token : t) : Stored := MkStored token None None.

(** the transform of [EnrollmentTokenSchema] *)
Definition parse (raw : Stored) : t :=
  match boundMachineId raw with
  | Some id =>
      if negb (bool_decide (id = "")) && bool_decide (length (bindings (token raw)) = 0) then
        token raw <| bindings :=
          [MkBinding id (default (createdAt (token raw)) (legacyEnrolledAt raw))] |>
      else token raw
  | None => token raw
  end.

Definition tokenSecretKey (tokenName : string) : string := "worker-token-" +:+ tokenName.

Definition readToken (definitionName : string) (store : option Stored) : result t :=
  match store with
  | None => Throw ("Enrollment token '" +:+ definitionName +:+ "' does not exist — mint it first")
  | Some raw => Ok (parse raw)
  end.

Definition isExpired (token : t) (nowMs : Z) : bool := (expiresAt token <=? nowMs)%Z.

Inductive BindingCutoffCause : Type := cut_revoked | cut_reminted | cut_deleted.

(** [None] keeps the worker *)
Definition enrollmentTokenBindingVerdict (token : option t) (boundCreatedAt : Z)
    : option BindingCutoffCause :=
  match token with
  | None => Some cut_deleted
  | Some token =>
      if bool_decide (state token = revoked) then Some cut_revoked
      else if (boundCreatedAt <? createdAt token)%Z then Some cut_reminted
      else None
  end.

(** the new store, and what the vault is told to put *)
Definition mint (definitionName plaintext : string) (durationMs : Z) (vaultName : string)
    (maxEnrollments : MaxEnrollments) (now : Z) (store : option Stored)
    : result (option Stored * (string * string * string)) :=
  let proceed :=
    let secretKey := tokenSecretKey definitionName in
    Ok (Some (stored (Mk definitionName unused now (now + durationMs)%Z vaultName secretKey
                        maxEnrollments [] None)),
        (vaultName, secretKey, plaintext)) in
  match store with
  | None => proceed
  | Some existing =>
      let parsed := parse existing in
      if negb (bool_decide (state parsed = revoked)) && negb (bool_decide (state parsed = expired)) &&
         negb (isExpired parsed now) then
        Throw ("Enrollment token '" +:+ definitionName +:+
               "' already exists — revoke it or wait for expiry before re-minting")
      else proceed
  end.

Definition redeem (vaultGet : string → string → result string) (name_ presentedToken machineId_ : string)
    (now : Z) (store : option Stored) : result (option Stored * bool) :=
  token ← readToken name_ store;
  _ ← throw_if (bool_decide (state token = revoked))
        ("Enrollment token '" +:+ name_ +:+ "' has been revoked");
  _ ← throw_if (bool_decide (state token = expired) || isExpired token now)
        ("Enrollment token '" +:+ name_ +:+ "' has expired");
  secret ← vaultGet (vaultName token) (secretKey token);
  _ ← throw_if (negb (TimingSafe.timingSafeEqual secret presentedToken))
        ("Enrollment token '" +:+ name_ +:+ "' does not match");
  if existsb (λ b, bool_decide (machineId b = machineId_)) (bindings token) then Ok (store, false)
  else
    _ ← throw_if
          match maxEnrollments token with
          | None => false
          | Some max => (max <=? Z.of_nat (length (bindings token)))%Z
          end
          ("Enrollment token '" +:+ name_ +:+ "': enrollment allowance exhausted");
    Ok (Some (stored (token <| state := enrolled |>
                        <| bindings := bindings token ++ [MkBinding machineId_ now] |>)), true).

Definition pruneBindings (definitionName : string) (machineIds : list string)
    (store : option Stored) : result (option Stored * bool) :=
  token ← readToken definitionName store;
  _ ← throw_if (bool_decide (state token = unused))
        ("Enrollment token '" +:+ definitionName +:+ "' is unused — nothing to prune");
  let remaining :=
    List.filter (λ b, negb (bool_decide (machineId b ∈ machineIds))) (bindings token) in
  if bool_decide (length remaining = length (bindings token)) then Ok (store, false)
  else Ok (Some (stored (token <| bindings := remaining |>)), true).

Definition revoke (definitionName : string) (now : Z) (store : option Stored)
    : result (option Stored * bool) :=
  token ← readToken definitionName store;
  if bool_decide (state token = revoked) then Ok (store, false)
  else Ok (Some (stored (token <| state := revoked |> <| revokedAt := Some now |>)), true).

Definition expire (definitionName : string) (store : option Stored) : result (option Stored * bool) :=
  token ← readToken definitionName store;
  if bool_decide (state token = expired) || bool_decide (state token = revoked)
  then Ok (store, false)
  else Ok (Some (stored (token <| state := expired |>)), true).

(** ** The bindings of a token *)

Definition machines (token : t) : list string := machineId <$> bindings token.

(** each machine is bound once, and no more machines than the token allows *)
Record wf (token : t) : Prop := {
  wf_nodup : NoDup (machines token);
  wf_max : match maxEnrollments token with
           | None => True
           | Some max => (1 ≤ max ∧ Z.of_nat (length (bindings token)) ≤ max)%Z
           end;
}.

Definition store_wf (store : option Stored) : Prop :=
  match store with Some raw => wf (parse raw) | None => True end.

Lemma parse_stored token : parse (stored token) = token.
Proof. done. Qed.

Inductive step (name : string) : option Stored → option Stored → Prop :=
| step_mint plaintext durationMs vault max now s s' p :
    match max with None => True | Some n => (1 ≤ n)%Z end →
    mint name plaintext durationMs vault max now s = Ok (s', p) → step name s s'
| step_redeem vaultGet presented machine now s s' w :
    redeem vaultGet name presented machine now s = Ok (s', w) → step name s s'
| step_prune ids s s' w : pruneBindings name ids s = Ok (s', w) → step name s s'
| step_revoke now s s' w : revoke name now s = Ok (s', w) → step name s s'
| step_expire s s' w : expire name s = Ok (s', w) → step name s s'.

Lemma redeem_ok vaultGet nm presented machine now s s' w :
  redeem vaultGet nm presented machine now s = Ok (s', w) →
  ∃ raw, s = Some raw ∧
    let token := parse raw in
    state token ≠ revoked ∧ state token ≠ expired ∧ (now < expiresAt token)%Z ∧
    vaultGet (vaultName token) (secretKey token) = Ok presented ∧
    ((machine ∈ machines token ∧ s' = s ∧ w = false) ∨
     (machine ∉ machines token ∧ w = true ∧
      match maxEnrollments token with
      | None => True | Some max => (Z.of_nat (length (bindings token)) < max)%Z end ∧
      s' = Some (stored (token <| state := enrolled |>
             <| bindings := bindings token ++ [MkBinding machine now] |>)))).
Proof.
  unfold redeem. intros (token & Ht & H)%result_bind_ok.
  destruct s as [raw|]; [|done]. injection Ht as <-. exists raw. split; [done|]. cbn zeta.
  set (token := parse raw) in *.
  apply result_bind_ok in H as (_ & Hrev%throw_if_ok & H).
  apply result_bind_ok in H as (_ & Hexp%throw_if_ok & H).
  apply result_bind_ok in H as (secret & Hget & H).
  apply result_bind_ok in H as (_ & Hsec%throw_if_ok & H).
  unfold isExpired in Hexp. split_bools. apply TimingSafe.timingSafeEqual_eq in Hsec as ->.
  split_and!; [done..|].
  destruct (existsb _ _) eqn:E.
  - left. simplify_eq. apply existsb_elem_of in E as (b & Hb & E). split_bools. split; [|done].
    apply list_elem_of_fmap. by exists b.
  - right. apply result_bind_ok in H as (_ & Hmax%throw_if_ok & [= <- <-]). split_and!; try done.
    + intros (b & -> & Hb)%list_elem_of_fmap. rewrite existsb_false_elem_of in E.
      specialize (E b Hb). by split_bools.
    + destruct (maxEnrollments token); [|done]. by split_bools.
Qed.

Lemma wf_same_bindings token token' :
  bindings token' = bindings token → maxEnrollments token' = maxEnrollments token →
  wf token → wf token'.
Proof. intros E1 E2 [H1 H2]. split; unfold machines in *; by rewrite ?E1, ?E2. Qed.

Lemma step_wf name s s' : step name s s' → store_wf s → store_wf s'.
Proof.
  intros Hs Hwf. destruct Hs as [pt d v mx now s s' p Hmx H|vg pr mc now s s' w H
    |ids s s' w H|now s s' w H|s s' w H].
  - assert (s' = Some (stored (Mk name unused now (now + d) v (tokenSecretKey name) mx [] None))) as ->.
    { unfold mint in H. repeat case_match; naive_solver. }
    split; simpl; [constructor|]. destruct mx; [lia|done].
  - apply redeem_ok in H as (raw & -> & _ & _ & _ & _ & [(_ & -> & _)|(Hni & _ & Hlt & ->)]); [done|].
    destruct Hwf as [Hnd Hmax]. split; simpl.
    + unfold machines in *. simpl. rewrite fmap_app. apply NoDup_app.
      split_and!; [done|set_solver|apply NoDup_singleton].
    + destruct (maxEnrollments _); [|done]. rewrite length_app. simpl. lia.
  - apply result_bind_ok in H as (token & Ht & (_ & _ & H)%result_bind_ok).
    destruct s as [raw|]; [|done]. injection Ht as <-. destruct Hwf as [Hnd Hmax].
    cbn zeta in H. case_bool_decide; simplify_eq; [by split|]. split; simpl.
    + by apply bfilter_fmap_NoDup.
    + destruct (maxEnrollments _); [|done].
      pose proof (bfilter_length_le (λ b, negb (bool_decide (machineId b ∈ ids))) (bindings (parse raw))).
      lia.
  - apply result_bind_ok in H as (token & Ht & H).
    destruct s as [raw|]; [|done]. injection Ht as <-.
    case_bool_decide; simplify_eq; [done|]. by eapply wf_same_bindings; [..|exact Hwf].
  - apply result_bind_ok in H as (token & Ht & H).
    destruct s as [raw|]; [|done]. injection Ht as <-.
    case_match; simplify_eq; [done|]. by eapply wf_same_bindings; [..|exact Hwf].
Qed.

(** An enrollment token never admits more machines than it allows. Over any
    sequence of calls from an empty store each machine is bound at most once
    and the bindings stay within the allowance. *)
Lemma bindings_stay_within_allowance (name : string) (s : option Stored) :
  rtc (step name) None s → store_wf s.
Proof.
  intros H. assert (∀ a b, rtc (step name) a b → store_wf a → store_wf b) as Hind.
  { induction 1; eauto using step_wf. }
  by eapply Hind.
Qed.

(** C28: redeeming succeeds exactly for a live token, the secret in the vault and
    a machine already bound or one the allowance still has room for; a bound
    machine writes nothing and a new one is appended. *)
Theorem redeem_admits_exactly (vaultGet : string → string → result string)
    (nm presented machine : string) (now : Z) (raw : Stored) :
  let token := parse raw in
  is_ok (redeem vaultGet nm presented machine now (Some raw)) = true ↔
  state token ≠ revoked ∧ state token ≠ expired ∧ (now < expiresAt token)%Z ∧
  vaultGet (vaultName token) (secretKey token) = Ok presented ∧
  (machine ∈ machines token ∨
   match maxEnrollments token with
   | None => True
   | Some max => (Z.of_nat (length (bindings token)) < max)%Z
   end).
Proof.
  intros token. split.
  - destruct (redeem _ _ _ _ _ _) as [[s' w]|] eqn:H; [intros _|done].
    apply redeem_ok in H as (raw' & [= <-] & ? & ? & ? & ? & Hb). split_and!; try done.
    destruct Hb as [[? _]|(_ & _ & ? & _)]; [by left|by right].
  - intros (Hr & He & Hx & Hv & Hm). unfold redeem, readToken, isExpired. cbn [mbind result_bind].
    fold token. rewrite (bool_decide_eq_false_2 _ Hr), (bool_decide_eq_false_2 _ He).
    rewrite (proj2 (Z.leb_gt _ _) Hx). cbn. rewrite Hv. cbn.
    rewrite (proj2 (TimingSafe.timingSafeEqual_eq presented presented)) by done. cbn.
    destruct (existsb _ _) eqn:E; [done|]. destruct Hm as [Hin|Hmax].
    + apply list_elem_of_fmap in Hin as (b & -> & Hb). rewrite existsb_false_elem_of in E.
      specialize (E b Hb). by split_bools.
    + destruct (maxEnrollments token) as [mx|]; [|done].
      by rewrite (proj2 (Z.leb_gt _ _) Hmax).
Qed.

Definition sampleVault (plaintext : string) : string → string → result string :=
  λ v k, if bool_decide (v = "main" ∧ k = "worker-token-w") then Ok plaintext else Throw "no secret".

Definition minted : option Stored :=
  Some (stored (Mk "w" unused 0 1000 "main" "worker-token-w" (Some 1%Z) [] None)).

Example mint_then_redeem_then_reauth :
  mint "w" "s3cret" 1000 "main" (Some 1%Z) 0 None = Ok (minted, ("main", "worker-token-w", "s3cret")) ∧
  ∃ s', redeem (sampleVault "s3cret") "w" "s3cret" "m1" 5 minted = Ok (s', true) ∧
        redeem (sampleVault "s3cret") "w" "s3cret" "m1" 900 s' = Ok (s', false) ∧
        is_ok (redeem (sampleVault "s3cret") "w" "s3cret" "m2" 900 s') = false ∧
        is_ok (redeem (sampleVault "s3cret") "w" "s3cret" "m1" 1000 s') = false.
Proof. split; [done|]. eexists. split; [done|]. split_and!; done. Qed.

Lemma bindings_stay_within_allowance_witness :
  ∃ s, rtc (step "w") None s ∧ store_wf s ∧ s ≠ None.
Proof.
  exists minted.
  assert (rtc (step "w") None minted) as H.
  { eapply rtc_l; [|apply rtc_refl].
    by apply (step_mint "w" "s3cret" 1000 "main" (Some 1%Z) 0 None minted
                ("main", "worker-token-w", "s3cret")). }
  split; [done|]. split; [|done]. exact (bindings_stay_within_allowance "w" minted H).
Defined.

End EnrollmentToken.

Module ServerToken.

Inductive ServerTokenState : Type := active | expired | revoked.

#[global] Instance ServerTokenState_eq_dec : EqDecision ServerTokenState.
Proof. solve_decision. Defined.

Record OAuthIdentity : Type := MkIdentity { email : string; username : option string }.

Record t : Type := Mk {
  name : string;
  state : ServerTokenState;
  principalId : string;
  principalEmail : string;
  oauthIdentity : option OAuthIdentity;
  client : option string;
  collectives : list string;
  groups : list string;
  createdAt : Z;
  expiresAt : Z;
  lastUsedAt : option Z;
  vaultName : string;
  secretKey : string;
  secretFingerprint : option string;
  revokedAt : option Z;
}.

#[global] Instance t_eta : Eta t := λ r,
  Mk (name r) (state r) (principalId r) (principalEmail r) (oauthIdentity r) (client r)
     (collectives r) (groups r) (createdAt r) (expiresAt r) (lastUsedAt r) (vaultName r)
     (secretKey r) (secretFingerprint r) (revokedAt r).

Definition DEFAULT_DURATION_MS : Z := 30 * 24 * 60 * 60 * 1000.

Definition serverTokenSecretKey (tokenName : string) : string := "server-token-" +:+ tokenName.

Definition isExpired (token : t) (nowMs : Z) : bool := (expiresAt token <=? nowMs)%Z.

(** [service_principal.ts]: a service principal never holds a credential *)
Definition parseCredentialPrincipal (value : string) : result Principal.t :=
  _ ← throw_if (startsWith value "service:")
        ("Principal " +:+ quoted value +:+
         " is a built-in service principal and cannot hold a credential");
  Principal.parsePrincipalOfKinds value [Principal.user; Principal.worker].

Definition isServicePrincipal (p : Principal.t) : bool :=
  bool_decide (Principal.kind p = Principal.service).

Definition assertAuthenticatablePrincipal (p : Principal.t) : result () :=
  throw_if (isServicePrincipal p)
    ("Principal " +:+ quoted (Principal.principalToString p) +:+
     " is a built-in service principal and cannot hold a credential").

Definition validateServerToken (token : t) (name_ presentedToken : string) (nowMs : Z)
    (expectedSecret : option string) : result string :=
  match indexOf "." presentedToken with
  | None => Throw "Invalid token format: expected <name>.<secret>"
  | Some dotIndex =>
      _ ← throw_if (bool_decide (state token = revoked))
            ("Server token '" +:+ name_ +:+ "' has been revoked");
      _ ← throw_if (bool_decide (state token = expired) || isExpired token nowMs)
            ("Server token '" +:+ name_ +:+ "' has expired");
      let presentedName := str_take dotIndex presentedToken in
      _ ← throw_if (negb (bool_decide (presentedName = name_)))
            ("Server token name mismatch: expected '" +:+ name_ +:+ "'");
      let presentedSecret := str_drop (S dotIndex) presentedToken in
      _ ← throw_if
            match expectedSecret with
            | Some secret => negb (TimingSafe.timingSafeEqual secret presentedSecret)
            | None => false
            end
            ("Server token '" +:+ name_ +:+ "' does not match");
      Ok presentedSecret
  end.

Section operations.
(** the hexadecimal SHA-256 of a secret *)
Context (serverTokenSecretFingerprint : string → string).

Definition verifyServerTokenSecret (token : t) (secret : string) : result () :=
  match secretFingerprint token with
  | None => Ok tt
  | Some fingerprint =>
      throw_if
        (negb (TimingSafe.timingSafeEqual fingerprint (serverTokenSecretFingerprint secret)))
        ("Server token '" +:+ name token +:+
         "' is inconsistent: its record and its secret come from different mints — rotate it")
  end.

Definition readToken (definitionName : string) (store : option t) : result t :=
  match store with
  | None => Throw ("Server token '" +:+ definitionName +:+ "' does not exist — mint it first")
  | Some token => Ok token
  end.

Record MintArgs : Type := MkMint {
  m_principalId : string;
  m_principalEmail : string;
  m_collectives : list string;
  m_groups : list string;
  m_vaultName : string;
  m_durationMs : option Z;
}.

Definition mint (definitionName plaintext : string) (args : MintArgs) (now : Z) (store : option t)
    : result (option t * (string * string * string)) :=
  _ ← parseCredentialPrincipal (m_principalId args);
  _ ← match store with
      | None => Ok tt
      | Some parsed =>
          throw_if
            (negb (bool_decide (state parsed = revoked)) &&
             negb (bool_decide (state parsed = expired)) && negb (isExpired parsed now))
            ("Server token '" +:+ definitionName +:+
             "' already exists — revoke it or wait for expiry before re-minting")
      end;
  let secretKey := serverTokenSecretKey definitionName in
  let durationMs := default DEFAULT_DURATION_MS (m_durationMs args) in
  Ok (Some (Mk definitionName active (m_principalId args) (m_principalEmail args) None
              (Some "direct:token") (m_collectives args) (m_groups args) now (now + durationMs)%Z
              None (m_vaultName args) secretKey
              (Some (serverTokenSecretFingerprint plaintext)) None),
      (m_vaultName args, secretKey, plaintext)).

Definition redeem (vaultGet : string → string → result string) (name_ presentedToken : string)
    (now now' : Z) (store : option t) : result (option t * bool) :=
  token ← readToken name_ store;
  _ ← validateServerToken token name_ presentedToken now None;
  secret ← vaultGet (vaultName token) (secretKey token);
  _ ← validateServerToken token name_ presentedToken now (Some secret);
  _ ← verifyServerTokenSecret token secret;
  Ok (Some (token <| lastUsedAt := Some now' |>), true).

Definition rotate (definitionName plaintext : string) (durationMs : option Z)
    (vaultNameArg : option string) (now : Z) (store : option t)
    : result (option t * (string * string * string)) :=
  existing ← readToken definitionName store;
  let secretKey := serverTokenSecretKey definitionName in
  let vaultName_ := default (vaultName existing) vaultNameArg in
  let durationMs := default DEFAULT_DURATION_MS durationMs in
  Ok (Some (Mk definitionName active (principalId existing) (principalEmail existing)
              (oauthIdentity existing) (client existing) (collectives existing) (groups existing)
              now (now + durationMs)%Z None vaultName_ secretKey
              (Some (serverTokenSecretFingerprint plaintext)) None),
      (vaultName_, secretKey, plaintext)).

Definition revoke (definitionName : string) (now : Z) (store : option t) : result (option t * bool) :=
  token ← readToken definitionName store;
  if bool_decide (state token = revoked) then Ok (store, false)
  else Ok (Some (token <| state := revoked |> <| revokedAt := Some now |>), true).

Definition updateCollectives (definitionName : string) (collectives_ groups_ : list string) (now : Z)
    (store : option t) : result (option t * bool) :=
  token ← readToken definitionName store;
  if negb (bool_decide (state token = active)) then Ok (store, false)
  else if isExpired token now then Ok (store, false)
  else Ok (Some (token <| collectives := collectives_ |> <| groups := groups_ |>), true).

Definition expire (definitionName : string) (store : option t) : result (option t * bool) :=
  token ← readToken definitionName store;
  if bool_decide (state token = expired) || bool_decide (state token = revoked)
  then Ok (store, false)
  else Ok (Some (token <| state := expired |>), true).

(** what a token store accepts: the live record, the vault secret and the
    fingerprint of the mint agree *)
Definition accepts (vaultGet : string → string → result string) (name_ presented : string) (now : Z)
    (token : t) : Prop :=
  ∃ secret, state token = active ∧ (now < expiresAt token)%Z ∧
    vaultGet (vaultName token) (secretKey token) = Ok secret ∧
    presented = name_ +:+ "." +:+ secret ∧ includesChar "." name_ = false ∧
    match secretFingerprint token with
    | None => True
    | Some fingerprint => fingerprint = serverTokenSecretFingerprint secret
    end.

Lemma validateServerToken_ok token name_ presented now expected secret :
  validateServerToken token name_ presented now expected = Ok secret ↔
  state token = active ∧ (now < expiresAt token)%Z ∧ presented = name_ +:+ "." +:+ secret ∧
  includesChar "." name_ = false ∧
  match expected with None => True | Some e => e = secret end.
Proof.
  unfold validateServerToken, isExpired. split.
  - destruct (indexOf "." presented) as [i|] eqn:Hi; [|done].
    intros (_ & Hr%throw_if_ok & (_ & He%throw_if_ok & (_ & Hn%throw_if_ok &
      (_ & Hs%throw_if_ok & [= <-])%result_bind_ok)%result_bind_ok)%result_bind_ok)%result_bind_ok.
    split_bools. apply indexOf_split in Hi as (Hp & Hc & _). subst name_.
    split_and!; [by destruct (state token)|done|done|done|].
    destruct expected; [|done]. split_bools. by apply TimingSafe.timingSafeEqual_eq in Hs.
  - intros (Hst & Hx & -> & Hn & Hexp). change (name_ +:+ "." +:+ secret) with (name_ +:+ String "." secret).
    rewrite indexOf_app by done. rewrite Hst. rewrite (proj2 (Z.leb_gt _ _) Hx).
    rewrite str_take_app, str_drop_app. cbn.
    rewrite (bool_decide_eq_true_2 (name_ = name_)) by done. cbn.
    destruct expected as [e|]; [|done]. subst e.
    by rewrite (proj2 (TimingSafe.timingSafeEqual_eq secret secret)).
Qed.

Lemma redeem_accepts vaultGet name_ presented now now' token :
  is_ok (redeem vaultGet name_ presented now now' (Some token)) = true ↔
  accepts vaultGet name_ presented now token.
Proof.
  unfold redeem, readToken, accepts, verifyServerTokenSecret. cbn [mbind result_bind]. split.
  - destruct (validateServerToken token name_ presented now None) as [s0|] eqn:H0; [|done].
    cbn. destruct (vaultGet _ _) as [secret|] eqn:Hv; [|done]. cbn.
    destruct (validateServerToken token name_ presented now (Some secret)) as [s1|] eqn:H1; [|done].
    apply validateServerToken_ok in H1 as (Hst & Hx & Hp & Hn & ->). cbn. intros Hok.
    exists s1. split_and!; try done. destruct (secretFingerprint token) as [fp|]; [|done].
    destruct (TimingSafe.timingSafeEqual fp _) eqn:E; [|by cbn in Hok].
    by apply TimingSafe.timingSafeEqual_eq.
  - intros (secret & Hst & Hx & Hv & Hp & Hn & Hfp).
    rewrite (proj2 (validateServerToken_ok _ _ _ _ None secret)) by done. cbn. rewrite Hv. cbn.
    rewrite (proj2 (validateServerToken_ok _ _ _ _ (Some secret) secret)) by done. cbn.
    destruct (secretFingerprint token) as [fp|]; [|done]. subst fp.
    by rewrite (proj2 (TimingSafe.timingSafeEqual_eq _ _)).
Qed.

(** Rotating a server token retires the old secret. After a rotation whose
    secret the vault holds, a token string is accepted exactly when it is the
    name and the new secret before the new expiry; the principal, its
    memberships and its client stay as they were. *)
Lemma rotate_retires_old_secret (vaultGet : string → string → result string)
    (name_ plaintext presented : string) (durationMs : option Z) (vault : option string)
    (now later later' : Z) (old : t) (token : t) (put : string * string * string) :
  rotate name_ plaintext durationMs vault now (Some old) = Ok (Some token, put) →
  vaultGet put.1.1 put.1.2 = Ok put.2 →
  includesChar "." name_ = false →
  (principalId token = principalId old ∧ collectives token = collectives old ∧
   groups token = groups old ∧ client token = client old) ∧
  (is_ok (redeem vaultGet name_ presented later later' (Some token)) = true ↔
   presented = name_ +:+ "." +:+ plaintext ∧
   (later < now + default DEFAULT_DURATION_MS durationMs)%Z).
Proof.
  unfold rotate, readToken. cbn [mbind result_bind]. intros [= <- <-] Hv Hn. simpl in Hv.
  split; [done|]. rewrite redeem_accepts. unfold accepts. simpl. rewrite Hv. split.
  - intros (secret & _ & Hx & [= <-] & -> & _ & _). done.
  - intros [-> Hx]. by exists plaintext.
Qed.

End operations.

Definition sampleOld : t :=
  Mk "ci" revoked "user:adam" "a@b" None None ["acme"] [] 0 10 None "main" "server-token-ci" None (Some 5%Z).

Lemma rotate_retires_old_secret_witness :
  is_ok (redeem (λ s, "h" +:+ s) (λ _ _, Ok "new") "ci" "ci.new" 1 1
    (Some (Mk "ci" active "user:adam" "a@b" None None ["acme"] [] 0 100 None "main"
             "server-token-ci" (Some "hnew") None))) = true.
Proof.
  refine (proj2 (proj2 (rotate_retires_old_secret (λ s, "h" +:+ s) (λ _ _, Ok "new") "ci" "new" "ci.new"
    (Some 100%Z) None 0 1 1 sampleOld _ ("main", "server-token-ci", "new") _ _ _)) _).
  - reflexivity.
  - reflexivity.
  - reflexivity.
  - split; [reflexivity|simpl; lia].
Defined.

End ServerToken.
