(* ===== verification/WorkerRecords.v ===== *)
(** * Worker bookkeeping records

    [src/src/domain/models/worker]: step leases ([step_lease_model.ts]), queued
    dispatches ([pending_dispatch_model.ts]), worker state ([worker_model.ts])
    and the reaping of ended records ([bookkeeping_retention.ts]). Leases and
    dispatches live in one instance each, a map from data name to latest
    content. Both are records that end once; the class [Ending] states what
    that means and the retention theorem is proved against it. *)

From S2P Require Import Prelude JsString ModelType AccessNames Credentials.

(** ** Records that end once

    A record of type [R] is live until a transition ends it. The laws: an ended
    record is never rewritten, and one that ended says when. *)

Class Ending (R : Type) := {
  ended : R → bool;
  ending_time : R → option Z;
  transition : R → R → Prop;
}.

Class EndingLaws (R : Type) `{Ending R} : Prop := {
  ended_final (r r' : R) : transition r r' → ended r = true → r' = r;
  ended_when (r r' : R) : transition r r' → ended r = false → ended r' = true →
    ∃ at_, ending_time r' = Some at_;
}.

Module StepLease.

Inductive LeaseState : Type := active | completed | failed | expired.

#[global] Instance LeaseState_eq_dec : EqDecision LeaseState.
Proof. solve_decision. Defined.

Definition stateName (s : LeaseState) : string :=
  match s with
  | active => "active" | completed => "completed" | failed => "failed" | expired => "expired"
  end.

Definition TERMINAL_LEASE_STATES : list LeaseState := [completed; failed; expired].

Record Args : Type := MkArgs {
  leaseId : string;
  dispatchId : string;
  workerName : string;
  modelType : string;
  modelId : string;
  methodName : string;
  workflowName : option string;
  workflowRunId : option string;
  jobName : option string;
  stepName : option string;
}.

Record t : Type := Mk {
  args : Args;
  state : LeaseState;
  hasWrites : bool;
  createdAt : Z;
  endedAt : option Z;
  error : option string;
}.

#[global] Instance t_eta : Eta t := λ r,
  Mk (args r) (state r) (hasWrites r) (createdAt r) (endedAt r) (error r).

Definition leaseDataName (leaseId : string) : string := "lease-" +:+ leaseId.

Notation Store := (gmap string t).

Definition parseStoredLease (leaseId : string) (raw : option t) : result t :=
  match raw with
  | None => Throw ("Step lease '" +:+ leaseId +:+ "' does not exist")
  | Some lease => Ok lease
  end.

Definition readLease (store : Store) (leaseId : string) : result t :=
  parseStoredLease leaseId (store !! leaseDataName leaseId).

Definition startLease (args : Args) (existing : option t) (now : Z) : result t :=
  match existing with
  | Some _ => Throw ("Step lease '" +:+ leaseId args +:+ "' already exists")
  | None => Ok (Mk args active false now None None)
  end.

Definition recordLeaseWrites (leaseId : string) (lease : t) : result (option t) :=
  if negb (bool_decide (state lease = active)) then
    Throw ("Step lease '" +:+ leaseId +:+ "' is " +:+ stateName (state lease) +:+
           "; only active leases record writes")
  else if hasWrites lease then Ok None
  else Ok (Some (lease <| hasWrites := true |>)).

Definition endedLease (leaseId : string) (lease : t) (state_ : LeaseState) (error_ : option string)
    (now : Z) : result t :=
  if negb (bool_decide (state lease = active)) then
    Throw ("Step lease '" +:+ leaseId +:+ "' is already " +:+ stateName (state lease))
  else
    let lease := lease <| state := state_ |> <| endedAt := Some now |> in
    Ok match error_ with Some e => lease <| error := Some e |> | None => lease end.

Definition acquire (args : Args) (now : Z) (store : Store) : result Store :=
  lease ← startLease args (store !! leaseDataName (leaseId args)) now;
  Ok (<[leaseDataName (leaseId args) := lease]> store).

Definition markWrites (leaseId : string) (store : Store) : result Store :=
  lease ← readLease store leaseId;
  marked ← recordLeaseWrites leaseId lease;
  match marked with
  | None => Ok store
  | Some marked => Ok (<[leaseDataName leaseId := marked]> store)
  end.

Definition endLease (state_ : LeaseState) (leaseId : string) (error_ : option string) (now : Z)
    (store : Store) : result Store :=
  lease ← readLease store leaseId;
  ended ← endedLease leaseId lease state_ error_ now;
  Ok (<[leaseDataName leaseId := ended]> store).

(** a change of one stored lease *)
Inductive lease_step : t → t → Prop :=
| writes id lease lease' : recordLeaseWrites id lease = Ok (Some lease') → lease_step lease lease'
| ends id lease lease' state_ error_ now :
    state_ ∈ TERMINAL_LEASE_STATES →
    endedLease id lease state_ error_ now = Ok lease' → lease_step lease lease'.

#[global] Instance lease_ending : Ending t := {
  ended lease := bool_decide (state lease ∈ TERMINAL_LEASE_STATES);
  ending_time := endedAt;
  transition := lease_step;
}.

#[global] Instance lease_ending_laws : EndingLaws t.
Proof.
  split.
  - intros r r' Hs He. simpl in He. split_bools.
    assert (state r ≠ active) as Hne by (intros E; rewrite E in He; set_solver).
    destruct Hs as [id r r' H|id r r' st er now _ H];
      unfold recordLeaseWrites, endedLease in H; by rewrite bool_decide_eq_false_2 in H.
  - intros r r' Hs He He'. simpl in *.
    destruct Hs as [id r r' H|id r r' st er now _ H].
    + unfold recordLeaseWrites in H. repeat case_match; simplify_eq. simpl in He'. congruence.
    + unfold endedLease in H. repeat case_match; simplify_eq; by eexists.
Qed.

(** one call of a method of the model *)
Inductive step : Store → Store → Prop :=
| step_acquire args now s s' : acquire args now s = Ok s' → step s s'
| step_mark id s s' : markWrites id s = Ok s' → step s s'
| step_end state_ id error_ now s s' :
    state_ ∈ TERMINAL_LEASE_STATES → endLease state_ id error_ now s = Ok s' → step s s'.

(** [l'] is a later form of [l]: the same dispatch, writes kept, final once ended *)
Definition later (l l' : t) : Prop :=
  args l' = args l ∧ createdAt l' = createdAt l ∧
  (hasWrites l = true → hasWrites l' = true) ∧ (state l ≠ active → l' = l).

Lemma later_refl l : later l l.
Proof. done. Qed.

Lemma later_trans l1 l2 l3 : later l1 l2 → later l2 l3 → later l1 l3.
Proof.
  intros (A1 & C1 & W1 & F1) (A2 & C2 & W2 & F2). split_and!; [congruence..|naive_solver|].
  intros H. rewrite <-(F1 H). apply F2. by rewrite (F1 H).
Qed.

Lemma lease_step_later l l' : lease_step l l' → later l l'.
Proof.
  intros Hs. destruct Hs as [id l l' H|id l l' st er now _ H].
  - unfold recordLeaseWrites in H. case_bool_decide; simpl in H; [|done].
    case_match; simplify_eq. by split_and!.
  - unfold endedLease in H. case_bool_decide; simpl in H; [|done].
    destruct er; simplify_eq; by split_and!.
Qed.

Lemma step_later s s' k l : step s s' → s !! k = Some l → ∃ l', s' !! k = Some l' ∧ later l l'.
Proof.
  intros Hs Hk.
  assert (∀ name l0 l1, s !! name = Some l0 → lease_step l0 l1 →
    ∃ l', <[name := l1]> s !! k = Some l' ∧ later l l') as Hins.
  { intros name l0 l1 Hn Hl. destruct (decide (name = k)) as [->|Hne].
    - simplify_eq. rewrite lookup_insert_eq. eauto using lease_step_later.
    - rewrite lookup_insert_ne by done. eauto using later_refl. }
  destruct Hs as [a now s s' H|id s s' H|st id er now s s' Hst H].
  - apply result_bind_ok in H as (lease & Hl & [= <-]). unfold startLease in Hl.
    destruct (s !! leaseDataName (leaseId a)) eqn:E; [done|].
    rewrite lookup_insert_ne by congruence. eauto using later_refl.
  - apply result_bind_ok in H as (lease & Hl & (marked & Hm & H)%result_bind_ok).
    unfold readLease in Hl. destruct (s !! leaseDataName id) eqn:E; [|done]. simplify_eq/=.
    destruct marked; simplify_eq; [|eauto using later_refl]. eapply Hins; [done|]. by econstructor.
  - apply result_bind_ok in H as (lease & Hl & (e & Hm & [= <-])%result_bind_ok).
    unfold readLease in Hl. destruct (s !! leaseDataName id) eqn:E; [|done]. simplify_eq/=.
    eapply Hins; [done|]. by eapply ends.
Qed.

(** A step lease only moves forward. Over any sequence of calls a stored
    lease keeps its dispatch and creation time, never forgets a durable write,
    and once ended is never rewritten or removed. *)
Lemma lease_moves_forward (s s' : Store) (k : string) (l : t) :
  rtc step s s' → s !! k = Some l → ∃ l', s' !! k = Some l' ∧ later l l'.
Proof.
  intros H. revert l. induction H as [s|s s1 s' Hs _ IH]; intros l Hk; [eauto using later_refl|].
  destruct (step_later _ _ _ _ Hs Hk) as (l1 & H1 & Hl1).
  destruct (IH _ H1) as (l2 & H2 & Hl2). eauto using later_trans.
Qed.

Definition sampleArgs : Args := MkArgs "1" "d" "w" "m" "i" "run" None None None None.

Definition sample (state_ : LeaseState) (w : bool) (e : option Z) : t :=
  Mk sampleArgs state_ w 0 e None.

Lemma lease_moves_forward_witness :
  ∃ l', ({["lease-1" := sample failed true (Some 9%Z)]} : Store) !! "lease-1" = Some l' ∧
        later (sample active true None) l'.
Proof.
  apply (lease_moves_forward {["lease-1" := sample active true None]}); [|reflexivity].
  eapply rtc_l; [|apply rtc_refl].
  apply (step_end failed "1" None 9); [set_solver|]. vm_compute. reflexivity.
Defined.

End StepLease.

Module PendingDispatch.

Inductive PendingDispatchState : Type := waiting | dispatched | timed_out | cancelled | orphaned.

#[global] Instance PendingDispatchState_eq_dec : EqDecision PendingDispatchState.
Proof. solve_decision. Defined.

Definition TERMINAL_PENDING_DISPATCH_STATES : list PendingDispatchState :=
  [dispatched; timed_out; cancelled; orphaned].

Record Args : Type := MkArgs {
  queueId : string;
  target : option string;
  labels : option (gmap string string);
  platform : option string;
  workflowName : option string;
  jobName : option string;
  stepName : option string;
  modelType : string;
  methodName : string;
  queuedAt : Z;
}.

Record t : Type := Mk {
  args : Args;
  state : PendingDispatchState;
  dispatchId : option string;
  endedAt : option Z;
}.

#[global] Instance t_eta : Eta t := λ r, Mk (args r) (state r) (dispatchId r) (endedAt r).

(** [PendingDispatchEnd] *)
Inductive End_ : Type :=
| end_dispatched (dispatchId : string) (endedAt : Z)
| end_timed_out (endedAt : Z)
| end_cancelled (endedAt : Z)
| end_orphaned (endedAt : Z).

Definition pendingDataName (queueId : string) : string := "pending-" +:+ queueId.

Notation Store := (gmap string t).

Definition parseStoredPendingDispatch (queueId : string) (raw : option t) : result t :=
  match raw with
  | None => Throw ("Pending dispatch '" +:+ queueId +:+ "' does not exist")
  | Some record => Ok record
  end.

Definition startPendingDispatch (args : Args) (existing : option t) : result t :=
  match existing with
  | Some _ => Throw ("Pending dispatch '" +:+ queueId args +:+ "' already exists")
  | None => Ok (Mk args waiting None None)
  end.

(** [{ ...record, ...end }] *)
Definition applyEnd (record : t) (end_ : End_) : t :=
  match end_ with
  | end_dispatched id at_ => record <| state := dispatched |> <| dispatchId := Some id |> <| endedAt := Some at_ |>
  | end_timed_out at_ => record <| state := timed_out |> <| endedAt := Some at_ |>
  | end_cancelled at_ => record <| state := cancelled |> <| endedAt := Some at_ |>
  | end_orphaned at_ => record <| state := orphaned |> <| endedAt := Some at_ |>
  end.

Definition endedPendingDispatch (record : t) (end_ : End_) : option t :=
  if bool_decide (state record ∈ TERMINAL_PENDING_DISPATCH_STATES) then None
  else Some (applyEnd record end_).

Definition enqueue (args : Args) (store : Store) : result Store :=
  record ← startPendingDispatch args (store !! pendingDataName (queueId args));
  Ok (<[pendingDataName (queueId args) := record]> store).

Definition writeEnded (queueId : string) (end_ : End_) (store : Store) : result Store :=
  record ← parseStoredPendingDispatch queueId (store !! pendingDataName queueId);
  match endedPendingDispatch record end_ with
  | None => Ok store
  | Some updated => Ok (<[pendingDataName queueId := updated]> store)
  end.

Definition markDispatched (queueId dispatchId : string) (endedAt : Z) (store : Store) : result Store :=
  writeEnded queueId (end_dispatched dispatchId endedAt) store.

Inductive dispatch_step : t → t → Prop :=
| dispatch_ends record record' end_ :
    endedPendingDispatch record end_ = Some record' → dispatch_step record record'.

#[global] Instance dispatch_ending : Ending t := {
  ended record := bool_decide (state record ∈ TERMINAL_PENDING_DISPATCH_STATES);
  ending_time := endedAt;
  transition := dispatch_step;
}.

#[global] Instance dispatch_ending_laws : EndingLaws t.
Proof.
  split; intros r r' [r0 r0' e H]; unfold endedPendingDispatch in H; simpl.
  - intros He. by rewrite He in H.
  - intros _ _. case_match; simplify_eq. destruct e; by eexists.
Qed.

(** A queued dispatch ends once. Ending a waiting record succeeds with the
    given outcome; every later end, of whatever outcome, leaves the store as it
    is, so the first outcome stays recorded. *)
Lemma dispatch_ends_once (store : Store) (queueId : string) (record : t) (e1 e2 : End_) :
  store !! pendingDataName queueId = Some record → state record = waiting →
  ∃ store', writeEnded queueId e1 store = Ok store' ∧
            store' !! pendingDataName queueId = Some (applyEnd record e1) ∧
            writeEnded queueId e2 store' = Ok store'.
Proof.
  intros Hk Hw. unfold writeEnded at 1. rewrite Hk. simpl. unfold endedPendingDispatch at 1.
  rewrite Hw, bool_decide_eq_false_2 by set_solver. eexists. split; [done|].
  rewrite lookup_insert_eq. split; [done|].
  unfold writeEnded, endedPendingDispatch. rewrite lookup_insert_eq. simpl.
  rewrite bool_decide_eq_true_2; [done|]. destruct e1; simpl; set_solver.
Qed.

Definition sample : t :=
  Mk (MkArgs "q" None None None None None None "m" "run" 0) waiting None None.

Lemma dispatch_ends_once_witness :
  ∃ store', writeEnded "q" (end_timed_out 5) {["pending-q" := sample]} = Ok store' ∧
            store' !! "pending-q" = Some (applyEnd sample (end_timed_out 5)) ∧
            writeEnded "q" (end_dispatched "d" 6) store' = Ok store'.
Proof. apply (dispatch_ends_once {["pending-q" := sample]} "q" sample); reflexivity. Defined.

End PendingDispatch.

Module Worker.

Inductive WorkerStatus : Type := idle | busy | disconnected | unverified | draining.

#[global] Instance WorkerStatus_eq_dec : EqDecision WorkerStatus.
Proof. solve_decision. Defined.

Record t : Type := Mk {
  name : string;
  instanceUuid : string;
  tokenName : string;
  status : WorkerStatus;
  labels : gmap string string;
  platform : string;
  arch : string;
  swampVersion : string;
  protocolVersion : Z;
  enrolledAt : Z;
  tokenCreatedAt : option Z;
  lastSeenAt : Z;
  disconnectedAt : option Z;
  capacity : Z;
  activeDispatchIds : list string;
  currentDispatchId : option (option string);
  verifyFailureReason : option string;
}.

#[global] Instance t_eta : Eta t := λ r,
  Mk (name r) (instanceUuid r) (tokenName r) (status r) (labels r) (platform r) (arch r)
     (swampVersion r) (protocolVersion r) (enrolledAt r) (tokenCreatedAt r) (lastSeenAt r)
     (disconnectedAt r) (capacity r) (activeDispatchIds r) (currentDispatchId r)
     (verifyFailureReason r).

Definition parseStoredWorkerState (definitionName : string) (raw : option t) : result t :=
  match raw with
  | None => Throw ("Worker '" +:+ definitionName +:+ "' has no recorded state — enroll first")
  | Some state => Ok state
  end.

Definition workerDefinitionName (workerName : string) : string := "worker-" +:+ workerName.

Record EnrollArgs : Type := MkEnroll {
  e_instanceUuid : string;
  e_tokenName : string;
  e_workerName : option string;
  e_labels : gmap string string;
  e_platform : string;
  e_arch : string;
  e_swampVersion : string;
  e_protocolVersion : Z;
  e_capacity : Z;
  e_status : option WorkerStatus;
  e_tokenCreatedAt : option Z;
}.

Definition enroll (args : EnrollArgs) (now : Z) : t :=
  Mk (default (e_tokenName args) (e_workerName args)) (e_instanceUuid args) (e_tokenName args)
     (default idle (e_status args)) (e_labels args) (e_platform args) (e_arch args)
     (e_swampVersion args) (e_protocolVersion args) now (e_tokenCreatedAt args) now None
     (e_capacity args) [] None None.

Record SetStatusArgs : Type := MkSet {
  s_status : WorkerStatus;
  s_activeDispatchIds : option (list string);
  s_verifyFailureReason : option string;
  s_tokenCreatedAt : option Z;
}.

Definition nextWorkerState (current : t) (args : SetStatusArgs) (now : Z) : t :=
  let dispatchIds := default (activeDispatchIds current) (s_activeDispatchIds args) in
  let next :=
    current <| status := s_status args |> <| lastSeenAt := now |>
      <| activeDispatchIds :=
           if bool_decide (s_status args = idle) || bool_decide (s_status args = disconnected)
           then [] else dispatchIds |> in
  let next := if bool_decide (s_status args = disconnected)
              then next <| disconnectedAt := Some now |> else next in
  let next := match s_tokenCreatedAt args with
              | Some at_ => next <| tokenCreatedAt := Some at_ |>
              | None => next
              end in
  next <| verifyFailureReason :=
    if bool_decide (s_status args = unverified) then s_verifyFailureReason args else None |>.

Definition setStatus (definitionName : string) (args : SetStatusArgs) (now : Z) (store : option t)
    : result (option t) :=
  current ← parseStoredWorkerState definitionName store;
  Ok (Some (nextWorkerState current args now)).

(** an idle or disconnected worker holds no dispatch; only an unverified one
    carries a failure reason *)
Definition wf (w : t) : Prop :=
  (status w = idle ∨ status w = disconnected → activeDispatchIds w = []) ∧
  (status w ≠ unverified → verifyFailureReason w = None).

Lemma enroll_wf args now : wf (enroll args now).
Proof. done. Qed.

Lemma nextWorkerState_wf current args now : wf (nextWorkerState current args now).
Proof.
  unfold nextWorkerState, wf. destruct (s_status args) eqn:E; simpl; repeat case_match; simpl in *;
    rewrite ?E; naive_solver.
Qed.

End Worker.

(** ** Reaping *)

Module Retention.

Definition endedLongEnoughAgo (endedAt : option Z) (gracePeriodMs nowMs : Z) : bool :=
  match endedAt with
  | None => false
  | Some endedMs => (gracePeriodMs <=? nowMs - endedMs)%Z
  end.

(** an unparsable record is [None] *)
Definition isReapableLease (attrs : option StepLease.t) (gracePeriodMs nowMs : Z) : bool :=
  match attrs with
  | None => false
  | Some lease =>
      if negb (bool_decide (StepLease.state lease ∈ StepLease.TERMINAL_LEASE_STATES)) then false
      else endedLongEnoughAgo (StepLease.endedAt lease) gracePeriodMs nowMs
  end.

Definition isReapableDispatch (attrs : option PendingDispatch.t) (gracePeriodMs nowMs : Z) : bool :=
  match attrs with
  | None => false
  | Some record =>
      if negb (bool_decide (PendingDispatch.state record ∈
                            PendingDispatch.TERMINAL_PENDING_DISPATCH_STATES)) then false
      else endedLongEnoughAgo (PendingDispatch.endedAt record) gracePeriodMs nowMs
  end.

Definition enrollmentTokenEndedMs (token : EnrollmentToken.t) (nowMs : Z) : option Z :=
  let expiresMs := EnrollmentToken.expiresAt token in
  let revokedMs :=
    if bool_decide (EnrollmentToken.state token = EnrollmentToken.revoked)
    then EnrollmentToken.revokedAt token else None in
  let ends := List.filter (λ ms, (ms <=? nowMs)%Z)
                (expiresMs :: match revokedMs with Some ms => [ms] | None => [] end) in
  match ends with
  | [] => None
  | x :: rest => Some (foldl Z.min x rest)
  end.

Definition isReapableEnrollmentToken (attrs : option EnrollmentToken.Stored)
    (gracePeriodMs nowMs : Z) : bool :=
  match attrs with
  | None => false
  | Some raw =>
      match enrollmentTokenEndedMs (EnrollmentToken.parse raw) nowMs with
      | None => false
      | Some endedMs => (gracePeriodMs <=? nowMs - endedMs)%Z
      end
  end.

(** the reaping rule of a record that ends once *)
Definition reapable {R} `{Ending R} (record : R) (gracePeriodMs nowMs : Z) : bool :=
  ended record && endedLongEnoughAgo (ending_time record) gracePeriodMs nowMs.

Lemma isReapableLease_reapable lease grace now :
  isReapableLease (Some lease) grace now = reapable lease grace now.
Proof. unfold isReapableLease, reapable. simpl. by case_bool_decide. Qed.

Lemma isReapableDispatch_reapable record grace now :
  isReapableDispatch (Some record) grace now = reapable record grace now.
Proof. unfold isReapableDispatch, reapable. simpl. by case_bool_decide. Qed.

Lemma reapable_final {R} `{EndingLaws R} (r r' : R) grace now :
  reapable r grace now = true → rtc transition r r' → r' = r.
Proof.
  unfold reapable. intros [He _]%andb_true_iff. induction 1 as [|r r1 r' Hs _ IH]; [done|].
  rewrite (ended_final _ _ Hs He) in *. by apply IH.
Qed.

(** Nothing live is reaped. A lease or a queued dispatch is reapable only
    when it has ended at least the grace period ago, reapability is kept as time
    passes, and a reapable record can never change again. *)
Lemma reaping_is_safe (grace now now' : Z) :
  (now ≤ now')%Z →
  (∀ lease, isReapableLease (Some lease) grace now = true →
     StepLease.state lease ≠ StepLease.active ∧
     (∃ at_, StepLease.endedAt lease = Some at_ ∧ (at_ + grace ≤ now)%Z) ∧
     isReapableLease (Some lease) grace now' = true ∧
     ∀ lease', rtc StepLease.lease_step lease lease' → lease' = lease) ∧
  (∀ record, isReapableDispatch (Some record) grace now = true →
     PendingDispatch.state record ≠ PendingDispatch.waiting ∧
     (∃ at_, PendingDispatch.endedAt record = Some at_ ∧ (at_ + grace ≤ now)%Z) ∧
     isReapableDispatch (Some record) grace now' = true ∧
     ∀ record', rtc PendingDispatch.dispatch_step record record' → record' = record).
Proof.
  intros Hnow.
  assert (∀ e, endedLongEnoughAgo e grace now = true →
    (∃ at_, e = Some at_ ∧ (at_ + grace ≤ now)%Z) ∧ endedLongEnoughAgo e grace now' = true) as Hlong.
  { intros [e|]; simpl; [|done]. rewrite !Z.leb_le. intros. split; [exists e; split; [done|lia]|lia]. }
  split.
  - intros r Hr. rewrite isReapableLease_reapable in *. pose proof (reapable_final r) as Hfin.
    pose proof Hr as [He Hl]%andb_true_iff. apply Hlong in Hl as [Hat Hl']. simpl in He. split_bools.
    split_and!; [intros E; rewrite E in He; set_solver|done| |intros r' Hs; by apply (Hfin r' grace now)].
    rewrite ?isReapableLease_reapable. apply andb_true_iff. split; [|done]. simpl.
    by apply bool_decide_eq_true.
  - intros r Hr. rewrite isReapableDispatch_reapable in *. pose proof (reapable_final r) as Hfin.
    pose proof Hr as [He Hl]%andb_true_iff. apply Hlong in Hl as [Hat Hl']. simpl in He. split_bools.
    split_and!; [intros E; rewrite E in He; set_solver|done| |intros r' Hs; by apply (Hfin r' grace now)].
    rewrite ?isReapableDispatch_reapable. apply andb_true_iff. split; [|done]. simpl.
    by apply bool_decide_eq_true.
Qed.

Lemma reaping_is_safe_witness :
  isReapableLease (Some (StepLease.sample StepLease.failed true (Some 9%Z))) 10 100 = true.
Proof.
  refine (proj1 (proj2 (proj2 (proj1 (reaping_is_safe 10 50 100 ltac:(lia))
    (StepLease.sample StepLease.failed true (Some 9%Z)) _)))). reflexivity.
Defined.

(** a reapable enrollment token admits nobody at any later time *)
Lemma reapable_token_rejects (raw : EnrollmentToken.Stored) grace now now' vaultGet nm presented machine :
  isReapableEnrollmentToken (Some raw) grace now = true → (now ≤ now')%Z →
  is_ok (EnrollmentToken.redeem vaultGet nm presented machine now' (Some raw)) = false.
Proof.
  unfold isReapableEnrollmentToken, enrollmentTokenEndedMs. intros H Hnow.
  destruct (EnrollmentToken.redeem _ _ _ _ _ _) as [[s' w]|] eqn:E; [exfalso|done].
  apply EnrollmentToken.redeem_ok in E as (raw' & [= <-] & Hr & _ & Hx & _).
  rewrite bool_decide_eq_false_2 in H by done. simpl in H.
  destruct (Z.leb_spec (EnrollmentToken.expiresAt (EnrollmentToken.parse raw)) now) as [Hle|]; [|done].
  lia.
Qed.

End Retention.
