(* ===== verification/TopologicalSort.v ===== *)
(** * Topological sorting of jobs and steps

    [src/src/domain/workflows/topological_sort_service.ts]: the levels a
    workflow's jobs, and a job's steps, run in. [String.prototype.localeCompare]
    is the parameter [localeCompare]; that it is a comparator is assumed only
    where the order inside a level is at stake. The main loop and the
    depth-first search take fuel; [sort_decides_acyclicity] shows that the number
    of nodes is enough for both. *)

From S2P Require Import Prelude JsString.

Module TopologicalSort.

Record Group : Type := MkGroup { key : string; index : Z }.

Record GraphNode : Type := MkNode {
  name : string;
  weight : Z;
  dependencies : list string;
  group : option Group;
}.

(** the result, or one of the two errors the service throws *)
Inductive SortResult : Type :=
| Levels (levels : list (list string))
| CyclicDependencyError (cycle : list string)
| DuplicateNodeNameError (duplicates : list string)
| OutOfFuel.

(** ** Duplicate names *)

Fixpoint findDuplicates (nodes : list GraphNode) (seen duplicates : list string) : list string :=
  match nodes with
  | [] => duplicates
  | node :: rest =>
      findDuplicates rest (set_add (name node) seen)
        (if bool_decide (name node ∈ seen) then set_add (name node) duplicates else duplicates)
  end.

(** ** In-degrees and dependents *)

Notation Graph := (gmap string Z * gmap string (list string))%type.

Definition inDegreeOf (inDegree : gmap string Z) (n : string) : Z := default 0%Z (inDegree !! n).
Definition dependentsOf (dependents : gmap string (list string)) (n : string) : list string :=
  default [] (dependents !! n).

Definition initGraph (nodes : list GraphNode) : Graph :=
  foldl (λ '(inDegree, dependents) node,
    (<[name node := 0%Z]> inDegree, <[name node := []]> dependents)) (∅, ∅) nodes.

Definition nodeMapOf (nodes : list GraphNode) : gmap string GraphNode :=
  foldl (λ m node, <[name node := node]> m) ∅ nodes.

Definition addEdge (nodeMap : gmap string GraphNode) (node : GraphNode) (g : Graph) (dep : string)
    : Graph :=
  let '(inDegree, dependents) := g in
  match nodeMap !! dep with
  | Some _ =>
      (<[name node := (inDegreeOf inDegree (name node) + 1)%Z]> inDegree,
       <[dep := dependentsOf dependents dep ++ [name node]]> dependents)
  | None => g
  end.

Definition addNode (nodeMap : gmap string GraphNode) (g : Graph) (node : GraphNode) : Graph :=
  foldl (addEdge nodeMap node) g (dependencies node).

Definition buildGraph (nodes : list GraphNode) : Graph :=
  foldl (addNode (nodeMapOf nodes)) (initGraph nodes) nodes.

(** ** The cycle of an unsortable graph *)

Inductive DfsResult : Type := Found (cycle : list string) | NotFound | DfsOutOfFuel.

Fixpoint indexOfName (n : string) (l : list string) : nat :=
  match l with
  | [] => 0
  | x :: l => if bool_decide (x = n) then 0 else S (indexOfName n l)
  end.

Fixpoint dfs (nodeMap : gmap string GraphNode) (fuel : nat) (visiting path : list string)
    (n : string) : DfsResult :=
  match fuel with
  | O => DfsOutOfFuel
  | S fuel =>
      if bool_decide (n ∈ visiting) then Found (drop (indexOfName n path) path ++ [n])
      else
        match nodeMap !! n with
        | None => NotFound
        | Some node =>
            (fix loop (deps : list string) : DfsResult :=
               match deps with
               | [] => NotFound
               | dep :: deps =>
                   match nodeMap !! dep with
                   | None => loop deps
                   | Some _ =>
                       match dfs nodeMap fuel (set_add n visiting) (path ++ [n]) dep with
                       | NotFound => loop deps
                       | r => r
                       end
                   end
               end) (dependencies node)
        end
  end.

Fixpoint findCycleFrom (nodeMap : gmap string GraphNode) (fuel : nat) (unprocessed : list GraphNode)
    : DfsResult :=
  match unprocessed with
  | [] => NotFound
  | node :: rest =>
      match dfs nodeMap fuel [] [] (name node) with
      | NotFound => findCycleFrom nodeMap fuel rest
      | r => r
      end
  end.

Definition findCycle (nodes : list GraphNode) (processed : gset string) : DfsResult :=
  let unprocessed := List.filter (λ n, negb (bool_decide (name n ∈ processed))) nodes in
  match findCycleFrom (nodeMapOf unprocessed) (S (length unprocessed)) unprocessed with
  | NotFound => Found (name <$> unprocessed)
  | r => r
  end.

Section sort.
Context (localeCompare : string → string → Z).

Definition sortKey (n : GraphNode) : string :=
  match group n with Some g => key g | None => name n end.

Definition sortIndex (n : GraphNode) : Z :=
  match group n with Some g => index g | None => 0 end.

Definition compareNodes (a b : GraphNode) : Z :=
  if negb (weight a =? weight b)%Z then (weight a - weight b)%Z
  else
    let byKey := localeCompare (sortKey a) (sortKey b) in
    if negb (byKey =? 0)%Z then byKey
    else
      let byIndex := (sortIndex a - sortIndex b)%Z in
      if negb (byIndex =? 0)%Z then byIndex
      else localeCompare (name a) (name b).

Definition available (nodes : list GraphNode) (processed : gset string) (inDegree : gmap string Z)
    : list GraphNode :=
  List.filter (λ node, negb (bool_decide (name node ∈ processed)) &&
                       bool_decide (inDegree !! name node = Some 0%Z)) nodes.

(** [for (const node of available) …] *)
Definition processNode (dependents : gmap string (list string))
    (st : gset string * gmap string Z) (node : GraphNode) : gset string * gmap string Z :=
  let '(processed, inDegree) := st in
  (processed ∪ {[name node]},
   foldl (λ inDegree dependent,
     <[dependent := (inDegreeOf inDegree dependent - 1)%Z]> inDegree)
     inDegree (dependentsOf dependents (name node))).

Fixpoint sortLoop (nodes : list GraphNode) (dependents : gmap string (list string)) (fuel : nat)
    (processed : gset string) (inDegree : gmap string Z) (levels : list (list string)) : SortResult :=
  if negb (size processed <? length nodes) then Levels levels
  else
    match fuel with
    | O => OutOfFuel
    | S fuel =>
        match available nodes processed inDegree with
        | [] =>
            match findCycle nodes processed with
            | Found cycle => CyclicDependencyError cycle
            | NotFound | DfsOutOfFuel => OutOfFuel
            end
        | av =>
            let sorted := js_sort compareNodes av in
            let '(processed, inDegree) :=
              foldl (processNode dependents) (processed, inDegree) sorted in
            sortLoop nodes dependents fuel processed inDegree (levels ++ [name <$> sorted])
        end
    end.

Definition sort (nodes : list GraphNode) : SortResult :=
  match findDuplicates nodes [] [] with
  | [] =>
      let '(inDegree, dependents) := buildGraph nodes in
      sortLoop nodes dependents (length nodes) ∅ inDegree []
  | duplicates => DuplicateNodeNameError (js_sort codeUnitCompare duplicates)
  end.

Definition flatten (levels : list (list string)) : list string := mjoin levels.

End sort.

Definition node (n : string) (deps : list string) : GraphNode := MkNode n 0 deps None.

Example diamond :
  sort codeUnitCompare [node "d" ["b"; "c"]; node "b" ["a"]; node "c" ["a"; "x"]; node "a" []] =
  Levels [["a"]; ["b"; "c"]; ["d"]].
Proof. vm_compute. reflexivity. Qed.

Example triangle :
  sort codeUnitCompare [node "z" []; node "a" ["b"; "z"]; node "b" ["c"]; node "c" ["a"]] =
  CyclicDependencyError ["a"; "b"; "c"; "a"].
Proof. vm_compute. reflexivity. Qed.

(** ** Names and the node map *)

Notation names nodes := (name <$> nodes).

Lemma findDuplicates_nil nodes seen duplicates :
  findDuplicates nodes seen duplicates = [] ↔
  duplicates = [] ∧ NoDup (names nodes) ∧ ∀ x, x ∈ names nodes → x ∉ seen.
Proof.
  revert seen duplicates. induction nodes as [|n nodes IH]; intros seen duplicates; simpl.
  { split; [|naive_solver]. intros ->. split_and!; [done|constructor|set_solver]. }
  rewrite IH, NoDup_cons. case_bool_decide as Hs.
  - split; [|set_solver]. intros (E & _). exfalso.
    assert (name n ∈ set_add (name n) duplicates) by (apply elem_of_set_add; by left).
    rewrite E in *. set_solver.
  - setoid_rewrite elem_of_set_add. set_solver.
Qed.

Lemma nodeMapOf_spec nodes d n :
  nodeMapOf nodes !! d = Some n → n ∈ nodes ∧ name n = d.
Proof.
  unfold nodeMapOf.
  assert (∀ m : gmap string GraphNode, foldl (λ m node, <[name node := node]> m) m nodes !! d = Some n →
    (n ∈ nodes ∧ name n = d) ∨ m !! d = Some n) as H.
  { induction nodes as [|x l IH]; intros m; simpl; [auto|].
    intros [?|Hm]%IH; [set_solver|]. destruct (decide (name x = d)) as [<-|].
    - rewrite lookup_insert_eq in Hm. simplify_eq. set_solver.
    - rewrite lookup_insert_ne in Hm by done. auto. }
  intros [?|Hm]%H; [done|]. by rewrite lookup_empty in Hm.
Qed.

Lemma nodeMapOf_is_Some nodes d : is_Some (nodeMapOf nodes !! d) ↔ d ∈ names nodes.
Proof.
  split.
  - intros [n [Hn <-]%nodeMapOf_spec]. by apply list_elem_of_fmap_2.
  - unfold nodeMapOf.
    assert (∀ m : gmap string GraphNode, d ∈ names nodes ∨ is_Some (m !! d) →
      is_Some (foldl (λ m node, <[name node := node]> m) m nodes !! d)) as H; [|auto].
    induction nodes as [|x l IH]; intros m; simpl; [set_solver|].
    intros Hd. apply IH. destruct (decide (name x = d)) as [<-|].
    + right. rewrite lookup_insert_eq. by eexists.
    + rewrite lookup_insert_ne by done. set_solver.
Qed.

Lemma nodeMapOf_None nodes d : nodeMapOf nodes !! d = None ↔ d ∉ names nodes.
Proof. by rewrite <-nodeMapOf_is_Some, <-eq_None_not_Some. Qed.

(** ** Counting *)

Definition occ (x : string) (l : list string) : Z :=
  Z.of_nat (length (List.filter (λ y, bool_decide (y = x)) l)).

Definition countKnown (ns : list string) (l : list string) : Z :=
  Z.of_nat (length (List.filter (λ d, bool_decide (d ∈ ns)) l)).

Lemma occ_cons x y l : occ x (y :: l) = ((if bool_decide (y = x) then 1 else 0) + occ x l)%Z.
Proof. unfold occ. simpl. case_bool_decide; simpl; lia. Qed.

Lemma occ_app x l1 l2 : occ x (l1 ++ l2) = (occ x l1 + occ x l2)%Z.
Proof. unfold occ. rewrite List.filter_app, length_app. lia. Qed.

Lemma occ_snoc x l y : occ x (l ++ [y]) = (occ x l + if bool_decide (x = y) then 1 else 0)%Z.
Proof.
  rewrite occ_app, occ_cons. rewrite (bool_decide_ext (y = x) (x = y)) by (split; congruence).
  unfold occ at 2. simpl. case_bool_decide; lia.
Qed.

Lemma countKnown_cons ns y l :
  countKnown ns (y :: l) = ((if bool_decide (y ∈ ns) then 1 else 0) + countKnown ns l)%Z.
Proof. unfold countKnown. simpl. case_bool_decide; simpl; lia. Qed.

(** the dependencies of a node that are not processed yet *)
Definition remaining (nodes : list GraphNode) (processed : gset string) (n : GraphNode) : Z :=
  Z.of_nat (length (List.filter (λ d, bool_decide (d ∈ names nodes) &&
                                      negb (bool_decide (d ∈ processed))) (dependencies n))).

Lemma remaining_empty nodes n : remaining nodes ∅ n = countKnown (names nodes) (dependencies n).
Proof.
  unfold remaining, countKnown. do 2 f_equal. induction (dependencies n) as [|d l IH]; simpl; [done|].
  rewrite (bool_decide_eq_false_2 (d ∈ ∅)) by set_solver. rewrite andb_true_r. by rewrite IH.
Qed.

Lemma remaining_add nodes processed n a :
  a ∈ names nodes → a ∉ processed →
  remaining nodes (processed ∪ {[a]}) n = (remaining nodes processed n - occ a (dependencies n))%Z.
Proof.
  intros Ha Hp. unfold remaining, occ. induction (dependencies n) as [|d l IH]; simpl; [done|].
  destruct (decide (d = a)) as [->|Hne].
  - rewrite (bool_decide_eq_true_2 (a ∈ names nodes)), (bool_decide_eq_true_2 (a ∈ _ ∪ _)),
      (bool_decide_eq_false_2 (a ∈ processed)), (bool_decide_eq_true_2 (a = a)) by set_solver.
    simpl. lia.
  - rewrite (bool_decide_eq_false_2 (d = a)) by done.
    rewrite (bool_decide_ext (d ∈ processed ∪ {[a]}) (d ∈ processed)) by set_solver.
    case_match; simpl; lia.
Qed.

Lemma remaining_zero nodes processed n :
  remaining nodes processed n = 0%Z ↔
  ∀ d, d ∈ dependencies n → d ∈ names nodes → d ∈ processed.
Proof.
  unfold remaining. split.
  - intros H d Hd Hn. destruct (decide (d ∈ processed)) as [|Hp]; [done|exfalso].
    assert (d ∈ List.filter (λ d, bool_decide (d ∈ names nodes) && negb (bool_decide (d ∈ processed)))
      (dependencies n)) as Hin.
    { apply elem_of_bfilter. by rewrite bool_decide_eq_true_2, bool_decide_eq_false_2. }
    destruct (List.filter _ _); [set_solver|simpl in H; lia].
  - intros H. destruct (List.filter _ _) as [|d l] eqn:E; [done|exfalso].
    assert (d ∈ d :: l) as Hin by set_solver. rewrite <-E, elem_of_bfilter in Hin.
    destruct Hin as [Hd Hb]. split_bools. auto.
Qed.

(** ** The graph the service builds *)

Lemma addEdges_spec nodes node deps g :
  let g' := foldl (addEdge (nodeMapOf nodes) node) g deps in
  (∀ k, inDegreeOf g'.1 k = inDegreeOf g.1 k +
     if bool_decide (k = name node) then countKnown (names nodes) deps else 0)%Z ∧
  (∀ k d, d ∈ names nodes → occ k (dependentsOf g'.2 d) = occ k (dependentsOf g.2 d) +
     if bool_decide (k = name node) then occ d deps else 0)%Z ∧
  (∀ k, is_Some (g.1 !! k) → is_Some (g'.1 !! k)).
Proof.
  revert g. induction deps as [|d deps IH]; intros [deg dpt]; simpl.
  { split_and!; intros; try done; case_bool_decide; simpl; unfold countKnown, occ; simpl; lia. }
  destruct (IH (addEdge (nodeMapOf nodes) node (deg, dpt) d)) as (IH1 & IH2 & IH3). clear IH.
  cbn zeta in *. setoid_rewrite IH1. clear IH1. unfold addEdge in *.
  destruct (nodeMapOf nodes !! d) as [x|] eqn:Hd; simpl in *.
  - assert (d ∈ names nodes) as Hin by (apply nodeMapOf_is_Some; eauto). split_and!.
    + intros k. rewrite countKnown_cons, (bool_decide_eq_true_2 (d ∈ names nodes)) by done. unfold inDegreeOf at 1.
      case_bool_decide as Hk; [subst k; rewrite lookup_insert_eq; simpl; lia|].
      rewrite lookup_insert_ne by done. unfold inDegreeOf. lia.
    + intros k d' Hd'. rewrite IH2 by done. rewrite occ_cons. unfold dependentsOf at 1.
      destruct (decide (d = d')) as [<-|Hne].
      * rewrite lookup_insert_eq. simpl. rewrite occ_snoc.
        rewrite (bool_decide_eq_true_2 (d = d)) by done. case_bool_decide; lia.
      * rewrite lookup_insert_ne by done. rewrite (bool_decide_eq_false_2 (d = d')) by done.
        fold (dependentsOf dpt d'). case_bool_decide; lia.
    + intros k Hk. apply IH3. destruct (decide (name node = k)) as [<-|].
      * rewrite lookup_insert_eq. by eexists.
      * by rewrite lookup_insert_ne.
  - apply nodeMapOf_None in Hd. split_and!; [| |done].
    + intros k. rewrite countKnown_cons, (bool_decide_eq_false_2 (d ∈ names nodes)) by done. case_bool_decide; lia.
    + intros k d' Hd'. rewrite IH2, occ_cons by done. rewrite (bool_decide_eq_false_2 (d = d')) by set_solver. case_bool_decide; lia.
Qed.

Lemma addNodes_spec nodes l g :
  NoDup (names l) →
  let g' := foldl (addNode (nodeMapOf nodes)) g l in
  (∀ n, n ∈ l → inDegreeOf g'.1 (name n) =
     inDegreeOf g.1 (name n) + countKnown (names nodes) (dependencies n))%Z ∧
  (∀ n d, n ∈ l → d ∈ names nodes → occ (name n) (dependentsOf g'.2 d) =
     occ (name n) (dependentsOf g.2 d) + occ d (dependencies n))%Z ∧
  (∀ k, k ∉ names l → inDegreeOf g'.1 k = inDegreeOf g.1 k ∧
     ∀ d, d ∈ names nodes → occ k (dependentsOf g'.2 d) = occ k (dependentsOf g.2 d)) ∧
  (∀ k, is_Some (g.1 !! k) → is_Some (g'.1 !! k)).
Proof.
  cbn zeta. revert g. induction l as [|x l IH]; intros g; simpl.
  { intros _. split_and!; try done; set_solver. }
  intros [Hni Hnd]%NoDup_cons.
  destruct (IH (addNode (nodeMapOf nodes) g x) Hnd) as (IH1 & IH2 & IH3 & IH4). clear IH.
  destruct (addEdges_spec nodes x (dependencies x) g) as (E1 & E2 & E3).
  fold (addNode (nodeMapOf nodes) g x) in E1, E2, E3.
  assert (∀ n, n ∈ l → name n ≠ name x) as Hne.
  { intros n Hn E. apply Hni. rewrite <-E. by apply list_elem_of_fmap_2. }
  split_and!.
  - intros n [->|Hn]%elem_of_cons.
    + rewrite (proj1 (IH3 _ Hni)), E1, bool_decide_eq_true_2 by done. done.
    + rewrite IH1, E1, bool_decide_eq_false_2 by auto. lia.
  - intros n d [->|Hn]%elem_of_cons Hd.
    + rewrite (proj2 (IH3 _ Hni)), E2, bool_decide_eq_true_2 by done. done.
    + rewrite IH2, E2, bool_decide_eq_false_2 by auto. lia.
  - intros k [Hkx Hkl]%not_elem_of_cons. destruct (IH3 k Hkl) as [-> H3]. split.
    + rewrite E1, bool_decide_eq_false_2 by done. lia.
    + intros d Hd. rewrite H3, E2, bool_decide_eq_false_2 by done. lia.
  - auto.
Qed.

Lemma initGraph_spec nodes :
  (∀ k, inDegreeOf (initGraph nodes).1 k = 0%Z ∧ dependentsOf (initGraph nodes).2 k = []) ∧
  (∀ k, k ∈ names nodes → is_Some ((initGraph nodes).1 !! k)).
Proof.
  unfold initGraph.
  assert (∀ l (g : Graph), (∀ k, inDegreeOf g.1 k = 0%Z ∧ dependentsOf g.2 k = []) →
    let g' := foldl (λ '(inDegree, dependents) node,
      (<[name node := 0%Z]> inDegree, <[name node := []]> dependents)) g l in
    (∀ k, inDegreeOf g'.1 k = 0%Z ∧ dependentsOf g'.2 k = []) ∧
    (∀ k, k ∈ names l ∨ is_Some (g.1 !! k) → is_Some (g'.1 !! k))) as H.
  { induction l as [|x l IH]; intros [deg dpt] Hg; simpl; [split; [done|set_solver]|].
    destruct (IH (<[name x := 0%Z]> deg, <[name x := []]> dpt)) as [IH1 IH2].
    { intros k. simpl. unfold inDegreeOf, dependentsOf. destruct (decide (name x = k)) as [<-|].
      - by rewrite !lookup_insert_eq.
      - rewrite !lookup_insert_ne by done. apply Hg. }
    split; [done|]. intros k Hk. apply IH2. simpl. destruct (decide (name x = k)) as [<-|].
    - right. rewrite lookup_insert_eq. by eexists.
    - rewrite lookup_insert_ne by done. set_solver. }
  destruct (H nodes (∅, ∅)) as [H1 H2]; [done|]. split; [done|]. auto.
Qed.

(** what the loop knows of the graph: every node's in-degree is the number of
    its unprocessed dependencies, and [dependents] is the converse relation *)
Definition degreesOk (nodes : list GraphNode) (processed : gset string) (inDegree : gmap string Z) : Prop :=
  ∀ n, n ∈ nodes → inDegree !! name n = Some (remaining nodes processed n).

Definition dependentsOk (nodes : list GraphNode) (dependents : gmap string (list string)) : Prop :=
  ∀ n a, n ∈ nodes → a ∈ names nodes →
    occ (name n) (dependentsOf dependents a) = occ a (dependencies n).

Lemma is_Some_inDegreeOf (m : gmap string Z) k z :
  is_Some (m !! k) → inDegreeOf m k = z → m !! k = Some z.
Proof. unfold inDegreeOf. intros [x ->]. simpl. by intros ->. Qed.

Lemma buildGraph_ok nodes :
  NoDup (names nodes) →
  degreesOk nodes ∅ (buildGraph nodes).1 ∧ dependentsOk nodes (buildGraph nodes).2.
Proof.
  intros Hnd. destruct (addNodes_spec nodes nodes (initGraph nodes) Hnd) as (H1 & H2 & _ & H4).
  fold (buildGraph nodes) in *. destruct (initGraph_spec nodes) as [Hi Hs]. split.
  - intros n Hn. apply is_Some_inDegreeOf.
    + apply H4, Hs. by apply list_elem_of_fmap_2.
    + rewrite H1, (proj1 (Hi _)), remaining_empty by done. lia.
  - intros n a Hn Ha. rewrite H2, (proj2 (Hi _)) by done. unfold occ at 1. simpl. lia.
Qed.

(** ** Processing a level *)

Lemma decrement_spec l (deg : gmap string Z) :
  let deg' := foldl (λ inDegree dependent,
     <[dependent := (inDegreeOf inDegree dependent - 1)%Z]> inDegree) deg l in
  (∀ k, inDegreeOf deg' k = inDegreeOf deg k - occ k l)%Z ∧
  (∀ k, is_Some (deg !! k) → is_Some (deg' !! k)).
Proof.
  cbn zeta. revert deg. induction l as [|x l IH]; intros deg; simpl.
  { split; [|done]. intros k. unfold occ. simpl. lia. }
  destruct (IH (<[x := (inDegreeOf deg x - 1)%Z]> deg)) as [IH1 IH2]. split.
  - intros k. rewrite IH1, occ_cons. unfold inDegreeOf at 1. case_bool_decide as E.
    + subst. rewrite lookup_insert_eq. simpl. lia.
    + rewrite lookup_insert_ne by done. fold (inDegreeOf deg k). lia.
  - intros k Hk. apply IH2. destruct (decide (x = k)) as [<-|].
    + rewrite lookup_insert_eq. by eexists.
    + by rewrite lookup_insert_ne.
Qed.

Lemma processNode_ok nodes dependents processed deg a :
  dependentsOk nodes dependents → degreesOk nodes processed deg →
  a ∈ nodes → name a ∉ processed →
  degreesOk nodes (processed ∪ {[name a]}) (processNode dependents (processed, deg) a).2.
Proof.
  intros Hdep Hdeg Ha Hp n Hn. simpl.
  destruct (decrement_spec (dependentsOf dependents (name a)) deg) as [H1 H2].
  assert (name a ∈ names nodes) by by apply list_elem_of_fmap_2.
  apply is_Some_inDegreeOf.
  - apply H2. rewrite (Hdeg n Hn). by eexists.
  - rewrite H1, Hdep, remaining_add by done. unfold inDegreeOf. by rewrite (Hdeg n Hn).
Qed.

Lemma processLevel_ok nodes dependents l processed deg :
  dependentsOk nodes dependents → degreesOk nodes processed deg →
  (∀ a, a ∈ l → a ∈ nodes ∧ name a ∉ processed) → NoDup (names l) →
  let st := foldl (processNode dependents) (processed, deg) l in
  st.1 = processed ∪ list_to_set (names l) ∧ degreesOk nodes st.1 st.2.
Proof.
  intros Hdep. cbn zeta. revert processed deg. induction l as [|a l IH]; intros processed deg Hdeg Hl Hnd.
  { simpl. split; [set_solver|done]. }
  apply NoDup_cons in Hnd as [Hni Hnd]. destruct (Hl a) as [Ha Hp]; [set_solver|].
  cbn [foldl].
  change (processNode dependents (processed, deg) a)
    with (processed ∪ {[name a]}, (processNode dependents (processed, deg) a).2).
  destruct (IH (processed ∪ {[name a]}) (processNode dependents (processed, deg) a).2) as [E1 E2].
  - by apply processNode_ok.
  - intros b Hb. destruct (Hl b) as [Hb1 Hb2]; [set_solver|]. split; [done|].
    assert (name b ∈ names l) by by apply list_elem_of_fmap_2. set_solver.
  - done.
  - split; [|exact E2]. rewrite E1. set_solver.
Qed.

(** ** Cycles *)

(** [b] is a dependency of the node named [a] *)
Definition edge (nodes : list GraphNode) (a b : string) : Prop :=
  ∃ n, n ∈ nodes ∧ name n = a ∧ b ∈ dependencies n.

Definition chain (E : string → string → Prop) (l : list string) : Prop :=
  ∀ i a b, l !! i = Some a → l !! S i = Some b → E a b.

(** a closed walk along dependencies *)
Definition isCycle (nodes : list GraphNode) (c : list string) : Prop :=
  ∃ x mid, c = x :: mid ++ [x] ∧ chain (edge nodes) c.

Lemma chain_snoc E l x :
  chain E l → (∀ a, last l = Some a → E a x) → chain E (l ++ [x]).
Proof.
  intros Hl Hx i a b Ha Hb. rewrite lookup_app in Hb. destruct (l !! S i) as [b'|] eqn:Hb'.
  - simplify_eq. rewrite lookup_app_l in Ha by (apply lookup_lt_Some in Hb'; lia). by eapply Hl.
  - apply lookup_ge_None in Hb'. apply list_lookup_singleton_Some in Hb as [Hi ->].
    apply Hx. rewrite last_lookup. rewrite lookup_app_l in Ha by lia.
    by replace (pred (length l)) with i by lia.
Qed.

Lemma chain_drop E l i : chain E l → chain E (drop i l).
Proof.
  intros Hl j a b Ha Hb. rewrite lookup_drop in Ha, Hb.
  eapply (Hl (i + j)); [done|]. by rewrite Nat.add_succ_r in Hb.
Qed.

Lemma last_drop_lt {A} (l : list A) i : i < length l → last (drop i l) = last l.
Proof. intros. rewrite !last_lookup, lookup_drop, length_drop. f_equal. lia. Qed.

Lemma indexOfName_drop n l : n ∈ l → ∃ r, drop (indexOfName n l) l = n :: r.
Proof.
  induction l as [|x l IH]; [set_solver|]. simpl. case_bool_decide as E.
  - subst. by exists l.
  - intros [?|Hn]%elem_of_cons; [congruence|]. by apply IH.
Qed.

Section dfs.
Context (nm : gmap string GraphNode).

Definition mapEdge (a b : string) : Prop :=
  ∃ n, nm !! a = Some n ∧ b ∈ dependencies n.

(** every node of the map depends on another one of it *)
Hypothesis Hdead : ∀ a n, nm !! a = Some n → ∃ b, b ∈ dependencies n ∧ is_Some (nm !! b).

Lemma dfs_finds fuel visiting path n :
  (∀ x, x ∈ visiting ↔ x ∈ path) → NoDup path → (∀ x, x ∈ path → is_Some (nm !! x)) →
  chain mapEdge path → (∀ a, last path = Some a → mapEdge a n) → is_Some (nm !! n) →
  size nm < fuel + length path →
  ∃ x mid, dfs nm fuel visiting path n = Found (x :: mid ++ [x]) ∧ chain mapEdge (x :: mid ++ [x]).
Proof.
  revert visiting path n. induction fuel as [|fuel IH]; intros visiting path n Hv Hnd Hin Hch Hlast Hn Hsz.
  { exfalso. assert (length path ≤ size nm); [|simpl in Hsz; lia].
    assert (length path = size (list_to_set path : gset string)) as ->
      by (by rewrite size_list_to_set).
    rewrite <-(size_dom (D := gset string)). apply subseteq_size.
    intros x Hx. apply elem_of_dom, Hin. set_solver. }
  simpl. case_bool_decide as Hvis.
  - apply Hv in Hvis. destruct (indexOfName_drop n path Hvis) as [r Hr].
    exists n, r. rewrite Hr. split; [done|].
    change (n :: r ++ [n]) with ((n :: r) ++ [n]). rewrite <-Hr.
    apply chain_snoc; [by apply chain_drop|]. intros a Ha. apply Hlast.
    rewrite last_drop_lt in Ha; [done|]. apply (f_equal length) in Hr. rewrite length_drop in Hr. simpl in Hr. lia.
  - destruct Hn as [node Hn]. rewrite Hn.
    assert (∀ deps, (∀ b, b ∈ deps → b ∈ dependencies node) →
      (∃ b, b ∈ deps ∧ is_Some (nm !! b)) →
      ∃ x mid,
        (fix loop (deps : list string) : DfsResult :=
           match deps with
           | [] => NotFound
           | dep :: deps =>
               match nm !! dep with
               | None => loop deps
               | Some _ =>
                   match dfs nm fuel (set_add n visiting) (path ++ [n]) dep with
                   | NotFound => loop deps
                   | r => r
                   end
               end
           end) deps = Found (x :: mid ++ [x]) ∧ chain mapEdge (x :: mid ++ [x])) as Hloop.
    { induction deps as [|dep deps IHd]; intros Hsub (b & Hb & Hbs); [by apply not_elem_of_nil in Hb|].
      destruct (nm !! dep) as [depNode|] eqn:Hdep.
      - destruct (IH (set_add n visiting) (path ++ [n]) dep) as (x & mid & -> & Hc);
          [..|by exists x, mid].
        + intros x. rewrite elem_of_set_add, elem_of_app, list_elem_of_singleton, Hv. tauto.
        + apply NoDup_app. split_and!; [done| |apply NoDup_singleton].
          intros x Hx ->%list_elem_of_singleton. by apply Hvis, Hv.
        + intros x [Hx| ->%list_elem_of_singleton]%elem_of_app; [by apply Hin|by eexists].
        + by apply chain_snoc.
        + intros a. rewrite last_snoc. intros [= <-]. exists node. split; [done|]. apply Hsub. by left.
        + by eexists.
        + rewrite length_app. simpl. lia.
      - apply IHd; [intros b' ?; apply Hsub; by right|]. exists b. split; [|done].
        apply elem_of_cons in Hb as [->|]; [|done]. rewrite Hdep in Hbs. by destruct Hbs. }
    apply Hloop; [done|]. by eapply Hdead.
Qed.
End dfs.

Lemma isCycle_successor nodes c a :
  isCycle nodes c → a ∈ c → ∃ b, b ∈ c ∧ edge nodes a b.
Proof.
  intros (x & mid & -> & Hch) [i Hi]%list_elem_of_lookup.
  destruct (decide (S i < length (x :: mid ++ [x]))) as [Hlt|Hge].
  - destruct (lookup_lt_is_Some_2 _ _ Hlt) as [b Hb]. exists b. split; [|by eapply Hch].
    by eapply list_elem_of_lookup_2.
  - assert (a = x) as ->.
    { apply lookup_lt_Some in Hi as Hl. simpl in *. rewrite length_app in *. simpl in *.
      replace i with (S (length mid)) in Hi by lia. simpl in Hi.
      rewrite lookup_app_r, Nat.sub_diag in Hi by lia. by simplify_eq/=. }
    destruct (lookup_lt_is_Some_2 (x :: mid ++ [x]) 1) as [b Hb].
    { simpl. rewrite length_app. simpl. lia. }
    exists b. split; [by eapply list_elem_of_lookup_2|]. by eapply (Hch 0).
Qed.

(** ** The loop *)

Section loop.
Context (localeCompare : string → string → Z) (nodes : list GraphNode).
Context (Hnodup : NoDup (names nodes)).

(** every dependency that names a node is in an earlier level *)
Definition ordered (levels : list (list string)) : Prop :=
  ∀ i level n d, levels !! i = Some level → n ∈ nodes → name n ∈ level →
    d ∈ dependencies n → d ∈ names nodes → d ∈ mjoin (take i levels).

(** a level lists some of the nodes in the order of [compareNodes] *)
Definition levelSorted (level : list string) : Prop :=
  ∃ l, (∀ n, n ∈ l → n ∈ nodes) ∧ NoDup (names l) ∧
       level = name <$> js_sort (compareNodes localeCompare) l.

Record loopInv (processed : gset string) (deg : gmap string Z) (levels : list (list string)) : Prop := {
  inv_degrees : degreesOk nodes processed deg;
  inv_processed : processed = list_to_set (mjoin levels);
  inv_nodup : NoDup (mjoin levels);
  inv_names : ∀ x, x ∈ mjoin levels → x ∈ names nodes;
  inv_ordered : ordered levels;
  inv_sorted : Forall levelSorted levels;
}.

Lemma elem_of_available processed deg a :
  degreesOk nodes processed deg →
  a ∈ available nodes processed deg ↔ a ∈ nodes ∧ name a ∉ processed ∧ remaining nodes processed a = 0%Z.
Proof.
  intros Hdeg. unfold available. rewrite elem_of_bfilter, andb_true_iff, negb_true_iff,
    bool_decide_eq_false, bool_decide_eq_true. split.
  - intros (Ha & Hp & Hz). rewrite (Hdeg a Ha) in Hz. by simplify_eq.
  - intros (Ha & Hp & Hz). by rewrite (Hdeg a Ha), Hz.
Qed.

Lemma ordered_snoc levels level :
  ordered levels →
  (∀ n d, n ∈ nodes → name n ∈ level → d ∈ dependencies n → d ∈ names nodes → d ∈ mjoin levels) →
  ordered (levels ++ [level]).
Proof.
  intros Ho Hl i lv n d Hi Hn Hin Hd Hk. rewrite lookup_app in Hi. destruct (levels !! i) eqn:E.
  - simplify_eq. rewrite take_app_le by (apply lookup_lt_Some in E; lia). by eapply Ho.
  - apply list_lookup_singleton_Some in Hi as [Hi ->]. apply lookup_ge_None in E.
    rewrite take_app_le, take_ge by lia. by eapply Hl.
Qed.

Lemma loopInv_init deg : degreesOk nodes ∅ deg → loopInv ∅ deg [].
Proof.
  intros Hdeg. split; simpl; [done|done|apply NoDup_nil_2| | |constructor].
  - intros x Hx. by apply not_elem_of_nil in Hx.
  - intros i ? ? ? Hi. by rewrite lookup_nil in Hi.
Qed.

Lemma loopInv_step processed deg levels dependents :
  dependentsOk nodes dependents → loopInv processed deg levels →
  let sorted := js_sort (compareNodes localeCompare) (available nodes processed deg) in
  let st := foldl (processNode dependents) (processed, deg) sorted in
  loopInv st.1 st.2 (levels ++ [name <$> sorted]).
Proof.
  intros Hdep [Hdeg -> Hnd Hsub Hord Hsrt] sorted st.
  set (av := available nodes (list_to_set (mjoin levels)) deg) in *.
  assert (Hav : ∀ a, a ∈ sorted ↔ a ∈ av) by (intros; apply elem_of_js_sort).
  assert (Hndav : NoDup (names av)) by by apply bfilter_fmap_NoDup.
  assert (Hnds : NoDup (names sorted)) by (unfold sorted; by rewrite js_sort_perm).
  destruct (processLevel_ok nodes dependents sorted (list_to_set (mjoin levels)) deg) as [E1 E2];
    [done..| |done|].
  { intros a Ha%Hav. apply elem_of_available in Ha as (? & ? & _); done. }
  fold st in E1, E2. split.
  - done.
  - rewrite E1, join_app. simpl. rewrite app_nil_r. set_solver.
  - rewrite join_app. simpl. rewrite app_nil_r. apply NoDup_app. split_and!; [done| |done].
    intros x Hx (a & -> & Ha%Hav)%list_elem_of_fmap.
    apply elem_of_available in Ha as (_ & Hp & _); [|done]. apply Hp. by apply elem_of_list_to_set.
  - intros x. rewrite join_app. simpl. rewrite app_nil_r. intros [Hx|Hx]%elem_of_app; [by apply Hsub|].
    apply list_elem_of_fmap in Hx as (a & -> & Ha%Hav).
    apply elem_of_available in Ha as (Ha & _); [|done]. by apply list_elem_of_fmap_2.
  - apply ordered_snoc; [done|]. intros n d Hn (a & Ea & Ha%Hav)%list_elem_of_fmap Hd Hk.
    apply elem_of_available in Ha as (Ha & _ & Hz); [|done].
    assert (n = a) as ->.
    { apply list_elem_of_lookup in Hn as [i Hi]. apply list_elem_of_lookup in Ha as [j Hj].
      assert (i = j) as ->; [|congruence].
      eapply (NoDup_lookup (names nodes)); [done| |].
      - rewrite list_lookup_fmap, Hi. done.
      - rewrite list_lookup_fmap, Hj. simpl. by rewrite Ea. }
    rewrite remaining_zero in Hz. specialize (Hz d Hd Hk). by apply elem_of_list_to_set in Hz.
  - apply Forall_app. split; [done|]. constructor; [|constructor]. exists av. split_and!; [|done|done].
    intros n Hn. apply elem_of_available in Hn as (? & _); done.
Qed.

Lemma findCycle_cycle processed deg :
  degreesOk nodes processed deg → available nodes processed deg = [] →
  size processed < length nodes →
  ∃ c, findCycle nodes processed = Found c ∧ isCycle nodes c.
Proof.
  intros Hdeg Hav Hsz. unfold findCycle.
  set (un := List.filter (λ n, negb (bool_decide (name n ∈ processed))) nodes).
  assert (Hun : ∀ n, n ∈ un ↔ n ∈ nodes ∧ name n ∉ processed).
  { intros n. unfold un. by rewrite elem_of_bfilter, negb_true_iff, bool_decide_eq_false. }
  destruct un as [|first rest] eqn:Eun.
  { exfalso. assert (list_to_set (names nodes) ⊆ processed) as Hs%subseteq_size.
    { intros x [n [-> Hn]]%elem_of_list_to_set%list_elem_of_fmap.
      destruct (decide (name n ∈ processed)); [done|]. exfalso.
      apply (not_elem_of_nil n), Hun. done. }
    rewrite size_list_to_set, length_fmap in Hs by done. lia. }
  rewrite <-Eun. assert (Hndun : NoDup (names un)) by by apply bfilter_fmap_NoDup.
  rewrite <-Eun in Hun.
  assert (∃ c, dfs (nodeMapOf un) (S (length un)) [] [] (name first) = Found c ∧ isCycle nodes c)
    as (c & Hc & Hcyc); [|rewrite Eun in *; cbn [findCycleFrom]; rewrite Hc; eauto].
  destruct (dfs_finds (nodeMapOf un)) with (fuel := S (length un)) (visiting := @nil string)
    (path := @nil string) (n := name first) as (x & mid & Hd & Hch).
  - intros a n [Hn <-]%nodeMapOf_spec. apply Hun in Hn as [Hn Hp].
    assert (remaining nodes processed n ≠ 0%Z) as Hz.
    { intros Hz. apply (not_elem_of_nil n). rewrite <-Hav. by apply elem_of_available. }
    destruct (decide (Exists (λ d, d ∈ names nodes ∧ d ∉ processed) (dependencies n))) as [He|He].
    + apply Exists_exists in He as (d & Hd & [n' [-> Hn']]%list_elem_of_fmap & Hdp). exists (name n').
      split; [done|]. apply nodeMapOf_is_Some. apply list_elem_of_fmap_2. by apply Hun.
    + exfalso. apply Hz, remaining_zero. intros d Hd Hk.
      destruct (decide (d ∈ processed)); [done|]. exfalso. apply He, Exists_exists. eauto.
  - done.
  - constructor.
  - intros y Hy. by apply not_elem_of_nil in Hy.
  - intros i a b Ha. by rewrite lookup_nil in Ha.
  - done.
  - apply nodeMapOf_is_Some, list_elem_of_fmap_2. rewrite Eun. by left.
  - simpl. rewrite Nat.add_0_r. assert (size (nodeMapOf un) ≤ length un); [|lia].
    rewrite <-(length_fmap name), <-(size_list_to_set (C := gset string)), <-(size_dom (D := gset string)) by done.
    apply subseteq_size. intros y Hy%elem_of_dom%nodeMapOf_is_Some. by apply elem_of_list_to_set.
  - exists (x :: mid ++ [x]). split; [done|]. exists x, mid. split; [done|].
    intros i a b Ha Hb. destruct (Hch i a b Ha Hb) as (n & [Hn <-]%nodeMapOf_spec & Hdep).
    apply Hun in Hn as [Hn _]. by exists n.
Qed.

Lemma sortLoop_spec dependents fuel processed deg levels :
  dependentsOk nodes dependents → loopInv processed deg levels →
  length nodes ≤ size processed + fuel →
  match sortLoop localeCompare nodes dependents fuel processed deg levels with
  | Levels ls => mjoin ls ≡ₚ names nodes ∧ ordered ls ∧ Forall levelSorted ls
  | CyclicDependencyError c => isCycle nodes c
  | _ => False
  end.
Proof.
  intros Hdep. revert processed deg levels. induction fuel as [|fuel IH]; intros processed deg levels Hinv Hsz.
  all: cbn [sortLoop]; destruct (Nat.ltb_spec (size processed) (length nodes)) as [Hlt|Hge]; cbn [negb].
  - lia.
  - destruct Hinv as [Hdeg -> Hnd Hsub Hord Hsrt]. split_and!; [|done|done].
    apply submseteq_length_Permutation; [by apply NoDup_submseteq|].
    rewrite size_list_to_set in Hge by done. by rewrite length_fmap.
  - destruct (available nodes processed deg) as [|a av] eqn:Hav.
    + destruct (findCycle_cycle processed deg) as (c & -> & Hc); [by destruct Hinv|done..].
    + rewrite <-Hav. pose proof (loopInv_step _ _ _ dependents Hdep Hinv) as Hinv'. cbn zeta in Hinv'.
      destruct (foldl _ _ _) as [processed' deg'] eqn:Hf. simpl in Hinv'. apply IH; [done|].
      assert (size processed < size processed'); [|lia]. apply subset_size.
      pose proof (inv_processed _ _ _ Hinv) as Ep. pose proof (inv_processed _ _ _ Hinv') as Ep'.
      assert (name a ∈ name <$> js_sort (compareNodes localeCompare) (available nodes processed deg)) as Ha.
      { apply list_elem_of_fmap_2, elem_of_js_sort. rewrite Hav. by left. }
      assert (a ∈ available nodes processed deg) as Ha' by (rewrite Hav; by left).
      apply elem_of_available in Ha' as (_ & Hp & _); [|by destruct Hinv].
      rewrite join_app in Ep'. simpl in Ep'. rewrite app_nil_r, list_to_set_app_L, <-Ep in Ep'. set_solver.
  - destruct Hinv as [Hdeg -> Hnd Hsub Hord Hsrt]. split_and!; [|done|done].
    apply submseteq_length_Permutation; [by apply NoDup_submseteq|].
    rewrite size_list_to_set in Hge by done. by rewrite length_fmap.
Qed.

Lemma ordered_acyclic levels c :
  mjoin levels ≡ₚ names nodes → ordered levels → ¬ isCycle nodes c.
Proof.
  intros Hp Ho Hc.
  assert (∀ i a, a ∈ c → a ∉ mjoin (take i levels)) as Hnone.
  { induction i as [|i IH]; intros a Ha; [set_solver|]. intros Hin.
    destruct (decide (i < length levels)) as [Hi|]; cycle 1.
    { apply (IH a Ha). rewrite take_ge in * by lia. done. }
    destruct (lookup_lt_is_Some_2 levels i Hi) as [level Hl].
    rewrite (take_S_r _ _ _ Hl), join_app in Hin. apply elem_of_app in Hin as [|Hin]; [by apply (IH a)|].
    simpl in Hin. rewrite app_nil_r in Hin.
    destruct (isCycle_successor _ _ _ Hc Ha) as (b & Hb & (n & Hn & <- & Hd)).
    apply (IH b Hb). eapply Ho; [done..|].
    destruct (isCycle_successor _ _ _ Hc Hb) as (b' & _ & (n' & Hn' & <- & _)).
    by apply list_elem_of_fmap_2. }
  destruct Hc as (x & mid & -> & Hch). destruct (isCycle_successor nodes (x :: mid ++ [x]) x) as (b & _ & (n & Hn & <- & _)).
  { by exists x, mid. } { by left. }
  apply (Hnone (length levels) (name n)); [by left|]. rewrite firstn_all, Hp. by apply list_elem_of_fmap_2.
Qed.

End loop.

Lemma sort_spec localeCompare nodes :
  match sort localeCompare nodes with
  | Levels ls => NoDup (names nodes) ∧ mjoin ls ≡ₚ names nodes ∧ ordered nodes ls ∧
                 Forall (levelSorted localeCompare nodes) ls
  | CyclicDependencyError c => NoDup (names nodes) ∧ isCycle nodes c
  | DuplicateNodeNameError ds => ¬ NoDup (names nodes)
  | OutOfFuel => False
  end.
Proof.
  unfold sort. destruct (findDuplicates nodes [] []) as [|d ds] eqn:Hd.
  - apply findDuplicates_nil in Hd as (_ & Hnd & _). destruct (buildGraph_ok nodes Hnd) as [H1 H2].
    destruct (buildGraph nodes) as [deg dependents]. simpl in *.
    pose proof (sortLoop_spec localeCompare nodes Hnd dependents (length nodes) ∅ deg [] H2
      (loopInv_init localeCompare nodes deg H1) ltac:(lia)) as H.
    destruct (sortLoop _ _ _ _ _ _ _); done.
  - intros Hnd. assert (findDuplicates nodes [] [] = []) as E; [|by rewrite Hd in E].
    apply findDuplicates_nil. split_and!; [done|done|set_solver].
Qed.



Lemma compareNodes_comparator localeCompare :
  Comparator localeCompare → Comparator (compareNodes localeCompare).
Proof.
  intros Hl.
  assert (Comparator (cmp_lex (λ a b, weight a - weight b)%Z
    (cmp_lex (λ a b, localeCompare (sortKey a) (sortKey b))
      (cmp_lex (λ a b, sortIndex a - sortIndex b)%Z (λ a b, localeCompare (name a) (name b)))))) as [H1 H2].
  { repeat apply cmp_lex_comparator;
      [apply cmp_sub_comparator|by apply (cmp_on_comparator sortKey)|apply cmp_sub_comparator
      |by apply (cmp_on_comparator name)]. }
  assert (∀ a b, compareNodes localeCompare a b = cmp_lex (λ a b, weight a - weight b)%Z
    (cmp_lex (λ a b, localeCompare (sortKey a) (sortKey b))
      (cmp_lex (λ a b, sortIndex a - sortIndex b)%Z (λ a b, localeCompare (name a) (name b)))) a b) as E.
  { intros a b. unfold compareNodes, cmp_lex. destruct (Z.eqb_spec (weight a) (weight b)) as [->|Hne].
    - rewrite Z.sub_diag. simpl. destruct (_ =? 0)%Z; [|done]. by destruct (_ =? 0)%Z.
    - rewrite (proj2 (Z.eqb_neq (weight a - weight b) 0)) by lia. done. }
  split; intros; rewrite !E in *; eauto.
Qed.

(** The iterations of a [forEach] keep their list order. Two nodes of one
    group in one level, of equal weight, come in the order of their indexes,
    provided [localeCompare] is a comparator. *)
Lemma group_members_in_index_order (localeCompare : string → string → Z)
    (nodes : list GraphNode) (levels : list (list string)) (level : list string)
    (a b : GraphNode) (g : string) (i j : nat) (x y : Z) :
  Comparator localeCompare →
  sort localeCompare nodes = Levels levels → level ∈ levels →
  a ∈ nodes → b ∈ nodes → weight a = weight b →
  group a = Some (MkGroup g x) → group b = Some (MkGroup g y) → (x < y)%Z →
  level !! i = Some (name a) → level !! j = Some (name b) → i < j.
Proof.
  intros Hcmp E Hlevel Ha Hb Hw Hga Hgb Hxy Hi Hj. pose proof (sort_spec localeCompare nodes) as H.
  rewrite E in H. destruct H as (Hnd & _ & _ & Hs). rewrite Forall_forall in Hs.
  destruct (Hs level Hlevel) as (l & Hl & Hndl & ->).
  pose proof (compareNodes_comparator localeCompare Hcmp) as Hcn.
  pose proof (js_sort_sorted (compareNodes localeCompare) l) as Hsorted.
  rewrite list_lookup_fmap in Hi, Hj. apply fmap_Some in Hi as (a' & Hi & Ea). apply fmap_Some in Hj as (b' & Hj & Eb).
  assert (∀ n n', n ∈ nodes → n' ∈ nodes → name n = name n' → n = n') as Hinj.
  { intros n n' [k Hk]%list_elem_of_lookup [k' Hk']%list_elem_of_lookup En.
    assert (k = k') as ->; [|congruence].
    eapply (NoDup_lookup (names nodes)); [done| |]; rewrite list_lookup_fmap, ?Hk, ?Hk'; simpl; by rewrite ?En. }
  assert (a = a') as <-.
  { apply Hinj; [done| |done]. apply Hl. rewrite <-elem_of_js_sort. by eapply list_elem_of_lookup_2. }
  assert (b = b') as <-.
  { apply Hinj; [done| |done]. apply Hl. rewrite <-elem_of_js_sort. by eapply list_elem_of_lookup_2. }
  assert (0 < compareNodes localeCompare b a)%Z as Hgt.
  { unfold compareNodes, sortKey, sortIndex. rewrite Hga, Hgb, Hw, Z.eqb_refl. simpl.
    assert (localeCompare g g = 0%Z) as ->.
    { destruct Hcmp as [Han _]. pose proof (Han g g). lia. }
    simpl. rewrite (proj2 (Z.eqb_neq (y - x) 0)) by lia. simpl. lia. }
  destruct (Nat.lt_trichotomy i j) as [|[->|Hlt]]; [done| |].
  - exfalso. assert (a = b) as -> by congruence. rewrite Hga in Hgb. injection Hgb. lia.
  - exfalso. assert (compareNodes localeCompare b a ≤ 0)%Z; [|lia].
    by eapply (sorted_lookup_lt _ _ _ _ _ _ Hsorted Hlt).
Qed.


Lemma group_members_in_index_order_witness : 0 < 1.
Proof.
  pose (it := λ n i, MkNode n 0 [] (Some (MkGroup "deploy" i))).
  apply (group_members_in_index_order codeUnitCompare [it "deploy-b" 10%Z; it "deploy-z" 9%Z]
           [["deploy-z"; "deploy-b"]] ["deploy-z"; "deploy-b"]
           (it "deploy-z" 9%Z) (it "deploy-b" 10%Z) "deploy" 0 1 9 10).
  - apply codeUnitCompare_comparator.
  - vm_compute. reflexivity.
  - by left.
  - right. by left.
  - by left.
  - reflexivity.
  - reflexivity.
  - reflexivity.
  - lia.
  - reflexivity.
  - reflexivity.
Defined.

End TopologicalSort.
