(* ===== verification/Remote.v ===== *)
(** * Remote execution: fan-out plans, rollouts and step scheduling

    [src/src/domain/remote]: which workers a fan-out reaches and how
    ([fan_out.ts], [planFanOut] of [scheduler.ts]), the batches a rollout starts
    them in ([rollout.ts]), and which worker a step is sent to ([scheduler.ts]).
    A whole percentage of a number of lanes is computed on integers: the
    floating-point quotient of integers below 2^53 by 100 has the same floor and
    ceiling. *)

From Stdlib Require Import Ascii.
From S2P Require Import Prelude JsString.

Module FanOut.

(** [/^(\d{1,3})%$/] *)
Definition parsePercent (value : string) : option Z :=
  if endsWithChar "%" value then
    let digits := dropLast value in
    if all_chars isDigit digits && (1 <=? String.length digits) && (String.length digits <=? 3)
    then Some (digits_value 0 digits) else None
  else None.

(** a count or a percentage *)
Inductive Size : Type := Count (n : Z) | Percent (text : string).

Inductive OfflinePolicy : Type := wait | skip | fail.

#[global] Instance OfflinePolicy_eq_dec : EqDecision OfflinePolicy.
Proof. solve_decision. Defined.

Record RolloutPolicy : Type := MkRollout {
  batches : list Size;
  maxFailures : option Size;
}.

Record FanOutPolicy : Type := MkPolicy {
  offline : OfflinePolicy;
  minWorkers : Z;
  rollout : option RolloutPolicy;
}.

Record FanOutSelector : Type := MkSelector {
  labels : option (list (string * string));
  platform : option string;
}.

Inductive FanOutDisposition : Type := dispatch | waiting | skipped | failed | excluded.

#[global] Instance FanOutDisposition_eq_dec : EqDecision FanOutDisposition.
Proof. solve_decision. Defined.

Inductive FanOutReason : Type := disconnected | unverified | draining.

#[global] Instance FanOutReason_eq_dec : EqDecision FanOutReason.
Proof. solve_decision. Defined.

Record FanOutMember : Type := MkMember {
  worker : string;
  instanceUuid : string;
  disposition : FanOutDisposition;
  reason : option FanOutReason;
}.

#[global] Instance FanOutMember_eq_dec : EqDecision FanOutMember.
Proof. solve_decision. Defined.

Inductive FanOutPlan : Type :=
| planned (members : list FanOutMember) (plannedLanes : Z) (maxFailures : option Z)
| refused (live minWorkers : Z).

Definition hasLane (member : FanOutMember) : bool :=
  bool_decide (disposition member = dispatch) || bool_decide (disposition member = waiting).

Definition resolveMaxFailures (budget : option Size) (plannedLanes : Z) : result (option Z) :=
  match budget with
  | None => Ok None
  | Some (Count n) => Ok (Some n)
  | Some (Percent text) =>
      match parsePercent text with
      | None => Throw ("Invalid failure budget '" +:+ text +:+ "'")
      | Some pct => Ok (Some (pct * plannedLanes / 100)%Z)
      end
  end.

End FanOut.

Module Rollout.
Import FanOut.

Record PlannedRollout : Type := MkPlanned {
  p_batches : list (list string);
  p_maxFailures : option Z;
}.

Record RolloutProgress : Type := MkProgress {
  started : gset string;
  settled : gset string;
  failed_ : gset string;
}.

Inductive RolloutDecision : Type :=
| start (batch : nat) (lanes : list string)
| wait_
| halt (held : list string)
| complete.

Definition batchSize (size : Size) (lanes : Z) : result Z :=
  match size with
  | Count n => Ok n
  | Percent text =>
      match parsePercent text with
      | None => Throw ("Invalid batch size '" +:+ text +:+ "'")
      | Some pct => Ok (- ((- (pct * lanes)) / 100))%Z
      end
  end.

Definition named (members : list FanOutMember) (d : FanOutDisposition) : list string :=
  js_sort byCodeUnit
    (worker <$> List.filter (λ member, bool_decide (disposition member = d)) members).

Definition lanesOf (members : list FanOutMember) : list string :=
  named members dispatch ++ named members waiting.

(** [rollout.batches.forEach], with the lanes already given out *)
Fixpoint takeBatches (lanes : list string) (sizes : list Size) (next : nat)
    : result (list (list string)) :=
  match sizes with
  | [] => Ok []
  | size :: rest =>
      if bool_decide (length lanes ≤ next) then takeBatches lanes rest next
      else
        take_ ← (if bool_decide (rest = []) then Ok (Z.of_nat (length lanes - next))
                 else
                   n ← batchSize size (Z.of_nat (length lanes));
                   Ok (Z.min n (Z.of_nat (length lanes - next))));
        if (0 <? take_)%Z then
          batches ← takeBatches lanes rest (next + Z.to_nat take_);
          Ok (take (Z.to_nat take_) (drop next lanes) :: batches)
        else takeBatches lanes rest next
  end.

#[global] Instance Size_eq_dec : EqDecision Size.
Proof. solve_decision. Defined.

Definition planBatches (members : list FanOutMember) (rollout : option (list Size))
    : result (list (list string)) :=
  let lanes := lanesOf members in
  if bool_decide (lanes = []) then Ok []
  else
    match rollout with
    | None => Ok [lanes]
    | Some batches => takeBatches lanes batches 0
    end.

Definition allSettled (progress : RolloutProgress) (batches : list (list string)) : bool :=
  forallb (forallb (λ lane, bool_decide (lane ∈ settled progress))) batches.

(** [batches.findIndex((batch) => batch.some(notStarted))] *)
Fixpoint findCurrent (notStarted : string → bool) (batches : list (list string)) : option nat :=
  match batches with
  | [] => None
  | batch :: rest =>
      if existsb notStarted batch then Some 0 else S <$> findCurrent notStarted rest
  end.

Definition nextBatch (progress : RolloutProgress) (rollout : PlannedRollout) : RolloutDecision :=
  let notStarted lane := negb (bool_decide (lane ∈ started progress)) in
  let overBudget :=
    match p_maxFailures rollout with
    | Some max => (max <? Z.of_nat (size (failed_ progress)))%Z
    | None => false
    end in
  if overBudget then halt (List.filter notStarted (mjoin (p_batches rollout)))
  else
    match findCurrent notStarted (p_batches rollout) with
    | None => if allSettled progress (p_batches rollout) then complete else wait_
    | Some current =>
        if negb (allSettled progress (take current (p_batches rollout))) then wait_
        else start current (List.filter notStarted (default [] (p_batches rollout !! current)))
    end.

(** ** Batches *)

Lemma takeBatches_concat lanes sizes next batches :
  sizes ≠ [] → takeBatches lanes sizes next = Ok batches → mjoin batches = drop next lanes.
Proof.
  revert next batches. induction sizes as [|size rest IH]; intros next batches Hne; simpl; [done|].
  assert (∀ bs, length lanes ≤ next → takeBatches lanes rest next = Ok bs → mjoin bs = drop next lanes) as Hdone.
  { intros bs Hle Hbs. destruct rest; [|by apply IH]. simpl in Hbs. simplify_eq.
    by rewrite drop_ge. }
  case_bool_decide as Hle; [by apply Hdone|]. case_bool_decide as Hr; simpl.
  - subst rest. rewrite (proj2 (Z.ltb_lt _ _)) by lia. simpl. intros [= <-]. simpl.
    rewrite app_nil_r, Nat2Z.id. rewrite take_ge; [done|]. rewrite length_drop. lia.
  - destruct (batchSize _ _) as [n|]; simpl; [|done].
    destruct (Z.ltb_spec 0 (Z.min n (Z.of_nat (length lanes - next)))) as [Hlt|Hz].
    + intros (bs & Hbs & [= <-])%result_bind_ok. simpl. rewrite (IH _ _ Hr Hbs).
      rewrite <-drop_drop. apply take_drop.
    + intros Hbs. by apply IH.
Qed.

Lemma takeBatches_nonempty lanes sizes next batches :
  takeBatches lanes sizes next = Ok batches → Forall (λ b, b ≠ []) batches.
Proof.
  revert next batches. induction sizes as [|size rest IH]; intros next batches; simpl.
  { intros [= <-]. constructor. }
  case_bool_decide; [apply IH|]. intros (n & Hn & H2)%result_bind_ok.
  destruct (Z.ltb_spec 0 n) as [Hlt|]; [|by eapply IH].
  apply result_bind_ok in H2 as (bs & Hbs & [= <-]). constructor; [|by eapply IH].
  intros E%(f_equal length). rewrite length_take, length_drop in E. simpl in E.
  lia.
Qed.

Lemma planBatches_lanes members rollout bs :
  rollout ≠ Some [] → planBatches members rollout = Ok bs →
  mjoin bs = lanesOf members ∧ Forall (λ b, b ≠ []) bs.
Proof.
  unfold planBatches. intros Hne. case_bool_decide as Hl.
  { intros [= <-]. by rewrite Hl. }
  destruct rollout as [sizes|].
  - intros H. split; [by apply takeBatches_concat in H; [|congruence]|by eapply takeBatches_nonempty].
  - intros [= <-]. simpl. rewrite app_nil_r. split; [done|]. by repeat constructor.
Qed.

Lemma elem_of_lanesOf members w :
  w ∈ lanesOf members ↔ ∃ m, m ∈ members ∧ hasLane m = true ∧ worker m = w.
Proof.
  unfold lanesOf, named, hasLane. rewrite elem_of_app, !elem_of_js_sort, !list_elem_of_fmap.
  setoid_rewrite elem_of_bfilter. setoid_rewrite orb_true_iff. setoid_rewrite bool_decide_eq_true. naive_solver.
Qed.

Lemma lanesOf_NoDup members : NoDup (worker <$> members) → NoDup (lanesOf members).
Proof.
  intros Hnd. unfold lanesOf, named. apply NoDup_app.
  split_and!; [rewrite js_sort_perm; by apply bfilter_fmap_NoDup|
              |rewrite js_sort_perm; by apply bfilter_fmap_NoDup].
  intros x Hx Hy. rewrite elem_of_js_sort in Hx, Hy.
  apply list_elem_of_fmap in Hx as (a & -> & Ha). apply list_elem_of_fmap in Hy as (b & E & Hb).
  apply elem_of_bfilter in Ha as [Ha Hda]. apply elem_of_bfilter in Hb as [Hb Hdb]. split_bools.
  apply list_elem_of_lookup in Ha as [i Hi]. apply list_elem_of_lookup in Hb as [j Hj].
  assert (i = j) as ->; [|congruence].
  eapply (NoDup_lookup (worker <$> members)); [done| |]; rewrite list_lookup_fmap, ?Hi, ?Hj; simpl; by rewrite ?E.
Qed.

Lemma lanesOf_length members : length (lanesOf members) = length (List.filter hasLane members).
Proof.
  unfold lanesOf, named. rewrite length_app, !length_js_sort, !length_fmap.
  induction members as [|m ms IH]; simpl; [done|].
  unfold hasLane at 1. destruct (disposition m); simpl; lia.
Qed.

(** The batches of a rollout are a partition of the lanes. The batches
    concatenate to every member with a lane exactly once, dispatched workers
    before waiting ones and each in code-unit order, and none of them is empty,
    for a rollout of at least one batch. *)
Lemma planBatches_partitions (members : list FanOutMember) (rollout : option (list Size))
    (bs : list (list string)) :
  NoDup (worker <$> members) → rollout ≠ Some [] →
  planBatches members rollout = Ok bs →
  mjoin bs = named members dispatch ++ named members waiting ∧
  NoDup (mjoin bs) ∧ Forall (λ b, b ≠ []) bs ∧
  (∀ w, w ∈ mjoin bs ↔ ∃ m, m ∈ members ∧ hasLane m = true ∧ worker m = w).
Proof.
  intros Hnd Hne Hbs. destruct (planBatches_lanes _ _ _ Hne Hbs) as [E Hall]. rewrite E.
  split_and!; [done|by apply lanesOf_NoDup|done|]. intros w. apply elem_of_lanesOf.
Qed.

(** ** Progress *)

Lemma allSettled_true progress batches :
  allSettled progress batches = true ↔ ∀ lane, lane ∈ mjoin batches → lane ∈ settled progress.
Proof.
  unfold allSettled. rewrite forallb_elem_of. setoid_rewrite forallb_elem_of.
  setoid_rewrite bool_decide_eq_true. setoid_rewrite list_elem_of_join. naive_solver.
Qed.

Lemma findCurrent_Some p batches i :
  findCurrent p batches = Some i →
  ∃ batch, batches !! i = Some batch ∧ existsb p batch = true ∧
           ∀ lane, lane ∈ mjoin (take i batches) → p lane = false.
Proof.
  revert i. induction batches as [|b bs IH]; intros i; simpl; [done|].
  destruct (existsb p b) eqn:E.
  - intros [= <-]. exists b. split_and!; [done|done|]. simpl. set_solver.
  - intros (j & Hj & ->)%fmap_Some. destruct (IH j Hj) as (batch & Hb & He & Hall).
    exists batch. split_and!; [done|done|]. intros lane. simpl. rewrite elem_of_app.
    intros [Hl|Hl]; [|by apply Hall]. rewrite existsb_false_elem_of in E. by apply E.
Qed.

Lemma findCurrent_None p batches :
  findCurrent p batches = None ↔ ∀ lane, lane ∈ mjoin batches → p lane = false.
Proof.
  induction batches as [|b bs IH]; simpl; [set_solver|].
  destruct (existsb p b) eqn:E.
  - split; [done|]. intros H. apply existsb_elem_of in E as (x & Hx & E).
    rewrite H in E by set_solver. done.
  - rewrite fmap_None, IH. rewrite existsb_false_elem_of in E. set_solver.
Qed.

(** A rollout is safe and never stalls. A batch is started only when every
    earlier batch has settled and the failures are within the budget, and then
    some of its lanes have not started; a wait means a started lane is still
    running; the rollout halts exactly when the budget is exceeded, holding the
    lanes not started, and completes exactly when every lane settled within it. *)
Lemma rollout_decisions (progress : RolloutProgress) (rollout : PlannedRollout) :
  settled progress ⊆ started progress →
  let withinBudget :=
    match p_maxFailures rollout with
    | Some max => (Z.of_nat (size (failed_ progress)) ≤ max)%Z
    | None => True
    end in
  match nextBatch progress rollout with
  | halt held =>
      ¬ withinBudget ∧
      ∀ lane, lane ∈ held ↔ lane ∈ mjoin (p_batches rollout) ∧ lane ∉ started progress
  | start i lanes =>
      withinBudget ∧ lanes ≠ [] ∧
      (∃ batch, p_batches rollout !! i = Some batch ∧
         ∀ lane, lane ∈ lanes ↔ lane ∈ batch ∧ lane ∉ started progress) ∧
      (∀ lane, lane ∈ mjoin (take i (p_batches rollout)) → lane ∈ settled progress)
  | wait_ =>
      withinBudget ∧
      ∃ lane, lane ∈ mjoin (p_batches rollout) ∧ lane ∈ started progress ∧ lane ∉ settled progress
  | complete =>
      withinBudget ∧ ∀ lane, lane ∈ mjoin (p_batches rollout) → lane ∈ settled progress
  end.
Proof.
  intros Hsub. cbn zeta. unfold nextBatch.
  set (notStarted := λ lane, negb (bool_decide (lane ∈ started progress))).
  assert (Hns : ∀ lane, notStarted lane = true ↔ lane ∉ started progress)
    by (intros; unfold notStarted; by rewrite negb_true_iff, bool_decide_eq_false).
  assert (Hst : ∀ lane, notStarted lane = false ↔ lane ∈ started progress)
    by (intros; unfold notStarted; by rewrite negb_false_iff, bool_decide_eq_true).
  set (within := match p_maxFailures rollout with Some max => _ | None => True end).
  assert (Hover : match p_maxFailures rollout with
    | Some max => (max <? Z.of_nat (size (failed_ progress)))%Z | None => false end = true ↔ ¬ within).
  { unfold within. destruct (p_maxFailures rollout); [|naive_solver]. rewrite Z.ltb_lt. lia. }
  destruct (match p_maxFailures rollout with Some _ => _ | None => false end) eqn:Ho.
  { split; [by apply Hover|]. intros lane. rewrite elem_of_bfilter, Hns. done. }
  assert (within) as Hw.
  { unfold within. destruct (p_maxFailures rollout); [|done]. by split_bools. }
  clear Hover Ho.
  assert (Hrun : ∀ bs, allSettled progress bs = false → (∀ lane, lane ∈ mjoin bs → lane ∈ started progress) →
    ∃ lane, lane ∈ mjoin bs ∧ lane ∈ started progress ∧ lane ∉ settled progress).
  { intros bs Hf Hall. destruct (decide (Exists (λ l, l ∉ settled progress) (mjoin bs))) as [He|He].
    - apply Exists_exists in He as (l & Hl & Hn). eauto.
    - exfalso. apply not_true_iff_false in Hf. apply Hf, allSettled_true. intros l Hl.
      destruct (decide (l ∈ settled progress)); [done|]. exfalso. apply He, Exists_exists. eauto. }
  destruct (findCurrent notStarted (p_batches rollout)) as [i|] eqn:Hc.
  - apply findCurrent_Some in Hc as (batch & Hb & He & Hearlier).
    destruct (allSettled progress (take i (p_batches rollout))) eqn:Hs; cbn [negb].
    + rewrite Hb. simpl. apply existsb_elem_of in He as (x & Hx & Hnx). split_and!; [done| | |].
      * intros E. assert (x ∈ List.filter notStarted batch) as Hin by by apply elem_of_bfilter.
        rewrite E in Hin. set_solver.
      * exists batch. split; [done|]. intros lane. by rewrite elem_of_bfilter, Hns.
      * by apply allSettled_true.
    + split; [done|]. destruct (Hrun _ Hs) as (lane & Hl & Hrest).
      { intros lane Hl. apply Hst. by apply Hearlier. }
      exists lane. split; [|done]. rewrite <-(take_drop i (p_batches rollout)), join_app. set_solver.
  - rewrite findCurrent_None in Hc. destruct (allSettled progress (p_batches rollout)) eqn:Hs.
    + split; [done|]. by apply allSettled_true.
    + split; [done|]. apply Hrun; [done|]. intros lane Hl. apply Hst. by apply Hc.
Qed.

Definition m (w : string) (d : FanOutDisposition) : FanOutMember := MkMember w "uuid" d None.

Example canary :
  planBatches [m "c" dispatch; m "a" waiting; m "b" dispatch; m "x" excluded; m "d" dispatch]
    (Some [Count 1; Percent "50%"; Percent "100%"]) = Ok [["b"]; ["c"; "d"]; ["a"]].
Proof. vm_compute. reflexivity. Qed.

Lemma planBatches_partitions_witness :
  mjoin [["b"]; ["c"; "a"]] = ["b"; "c"; "a"].
Proof.
  refine (proj1 (planBatches_partitions [m "c" dispatch; m "a" waiting; m "b" dispatch]
    (Some [Count 1; Percent "100%"]) [["b"]; ["c"; "a"]] _ _ _)).
  - apply (bool_decide_unpack _). vm_compute. exact I.
  - discriminate.
  - vm_compute. reflexivity.
Defined.

Lemma rollout_decisions_witness :
  ∃ lane, lane ∈ mjoin [["a"]; ["b"]] ∧ lane ∈ ({["a"]} : gset string) ∧ lane ∉ (∅ : gset string).
Proof.
  refine (proj2 (rollout_decisions (MkProgress {["a"]} ∅ ∅) (MkPlanned [["a"]; ["b"]] (Some 0%Z)) _)).
  set_solver.
Defined.

End Rollout.

Module Scheduler.
Import FanOut.

Record StepPlacement : Type := MkPlacement {
  target : option string;
  pl_labels : option (list (string * string));
  pl_platform : option string;
}.

Inductive WorkerStatus : Type := idle | busy | ws_unverified | ws_draining | ws_disconnected.

#[global] Instance WorkerStatus_eq_dec : EqDecision WorkerStatus.
Proof. solve_decision. Defined.

(** the fields [SchedulableWorker] and [PoolWorker] share *)
Record PoolWorker : Type := MkPool {
  name : string;
  uuid : string;
  w_labels : gmap string string;
  w_platform : string;
  arch : string;
  status : WorkerStatus;
  connected : bool;
}.

Record SchedulableWorker : Type := MkWorker {
  pool : PoolWorker;
  capacity : Z;
  activeDispatchIds : list string;
}.

Inductive ScheduleDecision : Type := send (worker : SchedulableWorker) | queue.

Definition describePlacement (placement : StepPlacement) : string :=
  match target placement with
  | Some t => "target '" +:+ t +:+ "'"
  | None =>
      let labelPart :=
        match pl_labels placement with
        | Some ((_ :: _) as ls) =>
            ["labels " +:+ join "," ((λ '(k, v), k +:+ "=" +:+ v) <$> ls)]
        | _ => []
        end in
      let platformPart :=
        match pl_platform placement with
        | Some p => if bool_decide (p = "") then [] else ["platform '" +:+ p +:+ "'"]
        | None => []
        end in
      let parts := join " and " (labelPart ++ platformPart) in
      if bool_decide (parts = "") then "any worker" else parts
  end.

Definition hasPlacement (placement : option StepPlacement) : bool :=
  match placement with
  | None => false
  | Some p =>
      bool_decide (target p ≠ None) ||
      match pl_labels p with Some (_ :: _) => true | _ => false end ||
      bool_decide (pl_platform p ≠ None)
  end.

Definition matchesPlatform (worker : PoolWorker) (required : string) : bool :=
  let parts := splitOn "/" required in
  let platform := default "" (head parts) in
  if negb (bool_decide (platform = "")) && negb (bool_decide (w_platform worker = platform))
  then false
  else
    match parts !! 1 with
    | None => true
    | Some a => bool_decide (arch worker = a)
    end.

Definition matchesLabels (worker : PoolWorker) (required : list (string * string)) : bool :=
  forallb (λ '(key, value), bool_decide (w_labels worker !! key = Some value)) required.

Definition isTarget (worker : PoolWorker) (t : string) : bool :=
  bool_decide (name worker = t) || bool_decide (uuid worker = t).

Definition eligible (placement : StepPlacement) (worker : PoolWorker) : bool :=
  if negb (connected worker) then false
  else
    match target placement with
    | Some t => if bool_decide (status worker = ws_draining) then false else isTarget worker t
    | None =>
        if bool_decide (status worker = ws_unverified) || bool_decide (status worker = ws_draining)
        then false
        else if match pl_labels placement with
                | Some ls => negb (matchesLabels worker ls) | None => false end then false
        else if match pl_platform placement with
                | Some p => negb (matchesPlatform worker p) | None => false end then false
        else true
    end.

Definition eligibleWorkers (placement : StepPlacement) (workers : list SchedulableWorker)
    : list SchedulableWorker :=
  List.filter (λ w, eligible placement (pool w)) workers.

Fixpoint firstUnmetLabel (worker : PoolWorker) (ls : list (string * string)) : option string :=
  match ls with
  | [] => None
  | (key, value) :: rest =>
      if negb (bool_decide (w_labels worker !! key = Some value))
      then Some ("label " +:+ key +:+ "=" +:+ value)
      else firstUnmetLabel worker rest
  end.

Definition unmetPlacement (placement : StepPlacement) (worker : PoolWorker) : option string :=
  match target placement with
  | Some t => if isTarget worker t then None else Some ("target '" +:+ t +:+ "'")
  | None =>
      match firstUnmetLabel worker (default [] (pl_labels placement)) with
      | Some message => Some message
      | None =>
          match pl_platform placement with
          | Some p => if negb (matchesPlatform worker p) then Some ("platform '" +:+ p +:+ "'") else None
          | None => None
          end
      end
  end.

Definition free (w : SchedulableWorker) : Z := (capacity w - Z.of_nat (length (activeDispatchIds w)))%Z.

Section schedule.
Context (localeCompare : string → string → Z).

Definition compareWorkers (a b : SchedulableWorker) : Z :=
  if negb (free a =? free b)%Z then (free b - free a)%Z
  else localeCompare (name (pool a)) (name (pool b)).

Definition schedulable (w : SchedulableWorker) : bool :=
  negb (bool_decide (status (pool w) = ws_unverified)) &&
  (Z.of_nat (length (activeDispatchIds w)) <? capacity w)%Z.

Definition scheduleStep (placement : StepPlacement) (workers : list SchedulableWorker)
    : ScheduleDecision :=
  match js_sort compareWorkers (List.filter schedulable (eligibleWorkers placement workers)) with
  | [] => queue
  | w :: _ => send w
  end.

Lemma compareWorkers_comparator : Comparator localeCompare → Comparator compareWorkers.
Proof.
  intros Hl.
  destruct (cmp_lex_comparator (λ a b, (- free a) - (- free b))%Z
    (λ a b, localeCompare (name (pool a)) (name (pool b)))) as [H1 H2].
  { apply (cmp_sub_comparator (λ w, - free w)%Z). }
  { by apply (cmp_on_comparator (λ w, name (pool w))). }
  assert (∀ a b, compareWorkers a b = cmp_lex (λ a b, (- free a) - (- free b))%Z
    (λ a b, localeCompare (name (pool a)) (name (pool b))) a b) as E.
  { intros a b. unfold compareWorkers, cmp_lex. destruct (Z.eqb_spec (free a) (free b)) as [->|].
    - rewrite (proj2 (Z.eqb_eq (- free b - - free b) 0)) by lia. done.
    - rewrite (proj2 (Z.eqb_neq (- free a - - free b) 0)) by lia. simpl. lia. }
  split; intros; rewrite !E in *; eauto.
Qed.

Lemma labels_met placement (w : PoolWorker) :
  firstUnmetLabel w (default [] (pl_labels placement)) = None ↔
  match pl_labels placement with Some ls => negb (matchesLabels w ls) | None => false end = false.
Proof.
  destruct (pl_labels placement) as [ls|]; simpl; [|done]. rewrite negb_false_iff.
  induction ls as [|[k v] ls IH]; simpl; [done|]. case_bool_decide; simpl; [apply IH|naive_solver].
Qed.

Lemma eligible_iff placement (w : PoolWorker) :
  eligible placement w = true ↔
  connected w = true ∧ unmetPlacement placement w = None ∧ status w ≠ ws_draining ∧
  (target placement = None → status w ≠ ws_unverified).
Proof.
  unfold eligible, unmetPlacement. destruct (connected w); cbn [negb]; [|naive_solver].
  destruct (target placement) as [t|].
  - destruct (isTarget w t), (status w); simpl; naive_solver.
  - pose proof (labels_met placement w) as Hl.
    destruct (firstUnmetLabel _ _); destruct (match pl_labels placement with Some _ => _ | None => _ end).
    + destruct (status w); simpl; naive_solver.
    + naive_solver.
    + naive_solver.
    + destruct (pl_platform placement) as [pf|]; [destruct (matchesPlatform w pf)|];
        destruct (status w); simpl; naive_solver.
Qed.

(** A step is sent to a worker that may take it and has the most room. The
    chosen worker is connected, meets the placement, is not draining or
    unverified and has a free slot, no other such worker has more free slots;
    the step queues exactly when there is no such worker. *)
Lemma scheduleStep_picks_most_free (placement : StepPlacement) (workers : list SchedulableWorker) :
  Comparator localeCompare →
  let takes w := w ∈ workers ∧ connected (pool w) = true ∧ unmetPlacement placement (pool w) = None ∧
    status (pool w) ≠ ws_draining ∧ status (pool w) ≠ ws_unverified ∧ (0 < free w)%Z in
  match scheduleStep placement workers with
  | send w => takes w ∧ ∀ w', takes w' → (free w' ≤ free w)%Z
  | queue => ∀ w, ¬ takes w
  end.
Proof.
  intros Hcmp takes. pose proof (compareWorkers_comparator Hcmp) as Hc.
  assert (Htakes : ∀ w, takes w ↔ w ∈ List.filter schedulable (eligibleWorkers placement workers)).
  { intros w. unfold takes, eligibleWorkers, schedulable. rewrite !elem_of_bfilter, eligible_iff.
    rewrite andb_true_iff, negb_true_iff, bool_decide_eq_false, Z.ltb_lt.
    assert (0 < free w ↔ Z.of_nat (length (activeDispatchIds w)) < capacity w)%Z as -> by (unfold free; lia).
    destruct (status (pool w)); naive_solver. }
  unfold scheduleStep. destruct (js_sort _ _) as [|w rest] eqn:E.
  - apply js_sort_nil_inv in E. intros w Hw%Htakes. rewrite E in Hw. by apply not_elem_of_nil in Hw.
  - apply js_sort_head in E as [Hin Hmin]; [|done]. split; [by apply Htakes|].
    intros w' Hw'%Htakes. specialize (Hmin w' Hw'). unfold compareWorkers in Hmin.
    destruct (Z.eqb_spec (free w) (free w')); simpl in Hmin; lia.
Qed.
End schedule.

Definition byName : string → string → Z := codeUnitCompare.

Definition sampleWorker (n : string) (cap : Z) (active : list string) : SchedulableWorker :=
  MkWorker (MkPool n ("id-" +:+ n) {["os" := "linux"]} "linux" "x86_64" idle true) cap active.

Definition samplePlacement : StepPlacement :=
  MkPlacement None (Some [("os", "linux")]) (Some "linux/x86_64").

Lemma scheduleStep_picks_most_free_witness :
  scheduleStep byName samplePlacement [sampleWorker "a" 1 ["d"]; sampleWorker "b" 2 ["e"]; sampleWorker "c" 4 []]
    = send (sampleWorker "c" 4 []) ∧ (1 ≤ 4)%Z.
Proof.
  split; [vm_compute; reflexivity|].
  pose proof (scheduleStep_picks_most_free byName samplePlacement
    [sampleWorker "a" 1 ["d"]; sampleWorker "b" 2 ["e"]; sampleWorker "c" 4 []]
    codeUnitCompare_comparator) as [_ H].
  apply (H (sampleWorker "b" 2 ["e"])). split_and!; try (vm_compute; congruence).
  - right. by left.
Defined.

(** ** Fan-out plans *)

Definition fanOutMember (worker : PoolWorker) (offline : OfflinePolicy) : FanOutMember :=
  match status worker with
  | ws_unverified => MkMember (name worker) (uuid worker) excluded (Some unverified)
  | ws_draining => MkMember (name worker) (uuid worker) excluded (Some draining)
  | _ =>
      if negb (connected worker) || bool_decide (status worker = ws_disconnected) then
        MkMember (name worker) (uuid worker)
          (match offline with wait => waiting | skip => skipped | fail => failed end)
          (Some disconnected)
      else MkMember (name worker) (uuid worker) dispatch None
  end.

Fixpoint firstRepeated (workers : list PoolWorker) (seen : list string) : option string :=
  match workers with
  | [] => None
  | w :: rest =>
      if bool_decide (name w ∈ seen) then Some (name w) else firstRepeated rest (set_add (name w) seen)
  end.

Definition selected (selector : FanOutSelector) (worker : PoolWorker) : bool :=
  match labels selector with Some ls => matchesLabels worker ls | None => true end &&
  match platform selector with Some p => matchesPlatform worker p | None => true end.

Definition planFanOut (selector : FanOutSelector) (policy : FanOutPolicy) (workers : list PoolWorker)
    : result FanOutPlan :=
  match firstRepeated workers [] with
  | Some n => Throw ("Worker pool lists '" +:+ n +:+ "' more than once")
  | None =>
      let members :=
        (λ w, fanOutMember w (offline policy)) <$>
        js_sort (λ a b, byCodeUnit (name a) (name b)) (List.filter (selected selector) workers) in
      let plannedLanes := Z.of_nat (length (List.filter hasLane members)) in
      if (plannedLanes <? minWorkers policy)%Z then Ok (refused plannedLanes (minWorkers policy))
      else
        max ← resolveMaxFailures
                match rollout policy with Some r => maxFailures r | None => None end plannedLanes;
        Ok (planned members plannedLanes max)
  end.

Lemma firstRepeated_None workers seen :
  firstRepeated workers seen = None ↔
  NoDup (name <$> workers) ∧ ∀ x, x ∈ name <$> workers → x ∉ seen.
Proof.
  revert seen. induction workers as [|w ws IH]; intros seen; simpl.
  { split; [|done]. intros _. split; [apply NoDup_nil_2|set_solver]. }
  case_bool_decide as Hs; [split; [done|set_solver]|].
  rewrite IH, NoDup_cons. setoid_rewrite elem_of_set_add. set_solver.
Qed.

Lemma fanOutMember_worker w o : worker (fanOutMember w o) = name w.
Proof. unfold fanOutMember. repeat case_match; done. Qed.

Lemma planFanOut_planned selector policy workers members lanes max :
  planFanOut selector policy workers = Ok (planned members lanes max) →
  NoDup (worker <$> members) ∧ lanes = Z.of_nat (length (List.filter hasLane members)) ∧
  (minWorkers policy ≤ lanes)%Z.
Proof.
  unfold planFanOut. destruct (firstRepeated workers []) eqn:Hr; [done|].
  apply firstRepeated_None in Hr as [Hnd _]. case_match eqn:Hlt; [done|].
  intros (mx & _ & [= <- <- <-])%result_bind_ok. split_and!; [|done|by split_bools].
  rewrite <-list_fmap_compose.
  assert (∀ l, worker ∘ (λ w, fanOutMember w (offline policy)) <$> l = name <$> l) as ->.
  { intros l. apply list_fmap_ext. intros. simpl. apply fanOutMember_worker. }
  rewrite js_sort_perm. by apply bfilter_fmap_NoDup.
Qed.

(** A fan-out plan and its batches fit. A planned fan-out reaches at least
    the required number of workers, its rollout batches hold exactly its planned
    lanes, each once, and a percentage budget tolerates no more failures than
    that share of the lanes. *)
Lemma fan_out_plan_fits (selector : FanOutSelector) (policy : FanOutPolicy) (workers : list PoolWorker)
    (members : list FanOutMember) (lanes : Z) (max : option Z) (sizes : option (list Size))
    (bs : list (list string)) :
  planFanOut selector policy workers = Ok (planned members lanes max) →
  sizes ≠ Some [] → Rollout.planBatches members sizes = Ok bs →
  (minWorkers policy ≤ lanes)%Z ∧ Z.of_nat (length (mjoin bs)) = lanes ∧ NoDup (mjoin bs) ∧
  (∀ r text pct, rollout policy = Some r → maxFailures r = Some (Percent text) →
     parsePercent text = Some pct → ∃ n, max = Some n ∧ (100 * n ≤ pct * lanes)%Z).
Proof.
  intros Hp Hs Hb. destruct (planFanOut_planned _ _ _ _ _ _ Hp) as (Hnd & Hlanes & Hmin).
  destruct (Rollout.planBatches_lanes _ _ _ Hs Hb) as [E _]. rewrite E. split_and!; [done| | |].
  - rewrite Hlanes. f_equal. apply Rollout.lanesOf_length.
  - by apply Rollout.lanesOf_NoDup.
  - intros r text pct Hr Hmx Hpct. unfold planFanOut in Hp.
    destruct (firstRepeated workers []); [done|]. case_match; [done|].
    rewrite Hr, Hmx in Hp. simpl in Hp. rewrite Hpct in Hp. simpl in Hp. injection Hp as E1 E2 <-.
    eexists. split; [done|]. rewrite E2. pose proof (Z.mul_div_le (pct * lanes) 100). lia.
Qed.

Definition poolWorker (n : string) (s : WorkerStatus) : PoolWorker :=
  MkPool n ("id-" +:+ n) ∅ "linux" "x86_64" s true.

Definition quarter : FanOutPolicy :=
  MkPolicy wait 1 (Some (MkRollout [Count 1; Percent "100%"] (Some (Percent "50%")))).

End Scheduler.
