(* ===== verification/TriggerCondition.v ===== *)
(** * Trigger conditions

    [src/src/domain/workflows/trigger_condition.ts]: the status of a job or a
    step, and the conditions a job or a step is triggered by. What a condition
    is evaluated against is the interface [TriggerEvaluationContext], which job
    runs and workflow runs implement. *)

From Stdlib Require Import Ascii.
From S2P Require Import Prelude JsString.

Module RunStatus.

Inductive t : Type :=
| pending | running | waiting_approval | waiting | waiting_signal
| succeeded | failed | skipped | unknown.

#[global] Instance t_eq_dec : EqDecision t.
Proof. solve_decision. Defined.

Definition isUnfinishedStatus (status : t) : bool :=
  bool_decide (status = pending) || bool_decide (status = running) ||
  bool_decide (status = waiting_approval) || bool_decide (status = waiting) ||
  bool_decide (status = waiting_signal).

Lemma isUnfinishedStatus_false status :
  isUnfinishedStatus status = false ↔
  status = succeeded ∨ status = failed ∨ status = skipped ∨ status = unknown.
Proof. destruct status; vm_compute; naive_solver. Qed.

End RunStatus.

(** what a condition reads *)
Class TriggerEvaluationContext (C : Type) := getStatus : C → string → option RunStatus.t.

Module TriggerCondition.

Inductive Data : Type :=
| always
| succeeded
| failed
| completed
| skipped
| and (conditions : list Data)
| or (conditions : list Data)
| not (condition : Data).

Section Data_ind'.
Context (P : Data → Prop).
Context (Halways : P always) (Hsucceeded : P succeeded) (Hfailed : P failed).
Context (Hcompleted : P completed) (Hskipped : P skipped).
Context (Hand : ∀ l, Forall P l → P (and l)).
Context (Hor : ∀ l, Forall P l → P (or l)).
Context (Hnot : ∀ d, P d → P (not d)).

Fixpoint Data_ind' (d : Data) : P d :=
  let fix go (l : list Data) : Forall P l :=
    match l with [] => Forall_nil_2 P | d :: l => Forall_cons_2 P d l (Data_ind' d) (go l) end in
  match d with
  | always => Halways | succeeded => Hsucceeded | failed => Hfailed
  | completed => Hcompleted | skipped => Hskipped
  | and l => Hand l (go l) | or l => Hor l (go l) | not d => Hnot d (Data_ind' d)
  end.
End Data_ind'.

(** [TriggerConditionSchema]: [and] and [or] take at least two conditions *)
Fixpoint validData (d : Data) : bool :=
  match d with
  | and l => (2 <=? length l) && forallb validData l
  | or l => (2 <=? length l) && forallb validData l
  | not d => validData d
  | _ => true
  end.

(** [fromData], with [None] for the error of the schema *)
Definition fromData (d : Data) : option Data := if validData d then Some d else None.

Fixpoint evaluateData {C} `{TriggerEvaluationContext C} (d : Data) (ctx : C) (ref : string) : bool :=
  match d with
  | always => true
  | succeeded => bool_decide (getStatus ctx ref = Some RunStatus.succeeded)
  | failed => bool_decide (getStatus ctx ref = Some RunStatus.failed)
  | completed =>
      bool_decide (getStatus ctx ref = Some RunStatus.succeeded) ||
      bool_decide (getStatus ctx ref = Some RunStatus.failed)
  | skipped => bool_decide (getStatus ctx ref = Some RunStatus.skipped)
  | and l => forallb (λ c, evaluateData c ctx ref) l
  | or l => existsb (λ c, evaluateData c ctx ref) l
  | not c => negb (evaluateData c ctx ref)
  end.

Definition evaluate {C} `{TriggerEvaluationContext C} (d : Data) (ctx : C) (ref : string) : bool :=
  evaluateData d ctx ref.

(** [JSON.stringify(data)] *)
Definition typed (name rest : string) : string :=
  "{" +:+ quoted "type" +:+ ":" +:+ quoted name +:+ rest +:+ "}".

Fixpoint stringify (d : Data) : string :=
  let fix items (l : list Data) : string :=
    match l with
    | [] => ""
    | [d] => stringify d
    | d :: l => stringify d +:+ "," +:+ items l
    end in
  match d with
  | always => typed "always" ""
  | succeeded => typed "succeeded" ""
  | failed => typed "failed" ""
  | completed => typed "completed" ""
  | skipped => typed "skipped" ""
  | and l => typed "and" ("," +:+ quoted "conditions" +:+ ":[" +:+ items l +:+ "]")
  | or l => typed "or" ("," +:+ quoted "conditions" +:+ ":[" +:+ items l +:+ "]")
  | not c => typed "not" ("," +:+ quoted "condition" +:+ ":" +:+ stringify c)
  end.

Definition equals (a b : Data) : bool := bool_decide (stringify a = stringify b).

Fixpoint items (l : list Data) : string :=
  match l with
  | [] => ""
  | [d] => stringify d
  | d :: l => stringify d +:+ "," +:+ items l
  end.

Lemma stringify_and l :
  stringify (and l) = typed "and" ("," +:+ quoted "conditions" +:+ ":[" +:+ items l +:+ "]").
Proof. reflexivity. Qed.

Lemma stringify_or l :
  stringify (or l) = typed "or" ("," +:+ quoted "conditions" +:+ ":[" +:+ items l +:+ "]").
Proof. reflexivity. Qed.

(** a printed condition starts with a brace *)
Lemma stringify_brace d : ∃ r, stringify d = "{" +:+ r.
Proof. destruct d; eexists; reflexivity. Qed.

Lemma items_inj l x y :
  Forall (λ d, ∀ d' x y, stringify d +:+ x = stringify d' +:+ y → d = d' ∧ x = y) l →
  ∀ l', items l +:+ "]" +:+ x = items l' +:+ "]" +:+ y → l = l' ∧ x = y.
Proof.
  induction 1 as [|d l Hd Hl IH]; intros l'.
  - destruct l' as [|d' l']; [by intros [= ->]|]. intros E. exfalso.
    destruct (stringify_brace d') as [r Hr]. destruct l'; simpl in E; rewrite Hr in E; done.
  - destruct l' as [|d' l'].
    { intros E. exfalso. destruct (stringify_brace d) as [r Hr].
      destruct l; simpl in E; rewrite Hr in E; done. }
    intros E.
    destruct l as [|e l], l' as [|e' l']; cbn [items] in E; rewrite ?str_app_assoc in E;
      apply Hd in E as [-> E]; try done.
    + by injection E as ->.
    + apply (str_app_inj_l ",") in E. destruct (IH (e' :: l') E) as [-> ->]. done.
Qed.

Lemma stringify_inj d d' x y : stringify d +:+ x = stringify d' +:+ y → d = d' ∧ x = y.
Proof.
  revert d' x y. induction d as [| | | | |l IH|l IH|d IH] using Data_ind'; intros d' x y E;
    destruct d' as [| | | | |l'|l'|d']; rewrite ?stringify_and, ?stringify_or in E; try done;
    try (by injection E as ->).
  - unfold typed in E. rewrite !str_app_assoc in E. repeat apply str_app_inj_l in E.
    destruct (items_inj l ("}" +:+ x) ("}" +:+ y) IH l' E) as [-> Exy]. by apply (str_app_inj_l "}") in Exy as ->.
  - unfold typed in E. rewrite !str_app_assoc in E. repeat apply str_app_inj_l in E.
    destruct (items_inj l ("}" +:+ x) ("}" +:+ y) IH l' E) as [-> Exy]. by apply (str_app_inj_l "}") in Exy as ->.
  - cbn [stringify] in E. unfold typed in E. rewrite !str_app_assoc in E.
    repeat apply str_app_inj_l in E. apply IH in E as [-> E]. by apply (str_app_inj_l "}") in E as ->.
Qed.

(** conditions that only look for outcomes *)
Fixpoint positive (d : Data) : bool :=
  match d with
  | always | not _ => false
  | and l => (1 <=? length l) && forallb positive l
  | or l => forallb positive l
  | _ => true
  end.

Lemma positive_outcome {C} `{TriggerEvaluationContext C} d (ctx : C) ref :
  positive d = true → evaluate d ctx ref = true →
  ∃ s, getStatus ctx ref = Some s ∧ s ≠ RunStatus.unknown ∧ RunStatus.isUnfinishedStatus s = false.
Proof.
  unfold evaluate. induction d as [| | | | |l IH|l IH|d IH] using Data_ind'; simpl; try done.
  1-4: intros _ He; rewrite ?orb_true_iff in He; rewrite ?bool_decide_eq_true in He;
       destruct_or?; eexists; (split; [done|]); done.
  - intros [Hl Hp]%andb_true_iff He. destruct l as [|d l]; [done|].
    rewrite Forall_cons in IH. simpl in *. split_bools. naive_solver.
  - intros Hp (d & Hd & He)%existsb_elem_of. rewrite Forall_forall in IH.
    rewrite forallb_elem_of in Hp. eauto.
Qed.

(** Two trigger conditions are equal, as [equals] compares their JSON,
    exactly when they are the same condition; and a condition built from outcome
    tests with [and] and [or] fires only once the referenced job or step has
    finished with a known outcome. *)
Lemma trigger_conditions {C} `{TriggerEvaluationContext C} (a b : Data) (ctx : C) (ref : string) :
  (equals a b = true ↔ a = b) ∧
  (positive a = true → evaluate a ctx ref = true →
   ∃ s, getStatus ctx ref = Some s ∧ s ≠ RunStatus.unknown ∧ RunStatus.isUnfinishedStatus s = false).
Proof.
  split; [|apply positive_outcome]. unfold equals. rewrite bool_decide_eq_true. split; [|by intros ->].
  intros E. apply (stringify_inj a b "" ""). by rewrite !str_app_nil_r.
Qed.

End TriggerCondition.
