(* ===== verification/Workflow.v ===== *)
(** * Workflow definitions

    [src/src/domain/workflows/placement.ts], [step_task.ts], [step.ts],
    [job.ts], [workflow.ts] and [fan_out_job.ts]: the data of a workflow, its
    reads, its stored form ([toData], as the value the expressions of a workflow
    are read from; a field that is [undefined] is left out) and the refusals of
    a job that fans out. The values are the validated ones: of the schemas, the
    checks on names and on fan-out jobs are modelled. *)

From Stdlib Require Import Ascii.
From S2P Require Import Prelude JsString TriggerCondition Remote.

(** a record of strings as a value *)
Definition recordData (l : list (string * string)) : JsValue := VObj ((λ kv, (kv.1, VStr kv.2)) <$> l).

(** ** Placement *)

Module Placement.

Record Fields : Type := MkFields {
  target : option string;
  labels : option (list (string * string));
  platform : option string;
  queueTimeout : option Z;
}.

Record Resolved : Type := MkResolved {
  r_target : option string;
  r_labels : option (list (string * string));
  r_platform : option string;
  queueTimeoutMs : option Z;
}.

#[global] Instance Fields_eq_dec : EqDecision Fields.
Proof. solve_decision. Defined.

(** [child !== undefined ? child : parent] *)
Definition orParent {A} (child parent : option A) : option A :=
  match child with Some a => Some a | None => parent end.

Definition mergePlacementFields (parent child : option Fields) : option Fields :=
  match parent, child with
  | None, child => child
  | parent, None => parent
  | Some p, Some c =>
      Some (MkFields (orParent (target c) (target p)) (orParent (labels c) (labels p))
              (orParent (platform c) (platform p)) (orParent (queueTimeout c) (queueTimeout p)))
  end.

Definition hasLabels (l : option (list (string * string))) : bool :=
  match l with Some (_ :: _) => true | _ => false end.

Definition resolvePlacement (fields : option Fields) : option Resolved :=
  match fields with
  | None => None
  | Some f =>
      if bool_decide (target f = None) && bool_decide (platform f = None) && negb (hasLabels (labels f))
      then None
      else Some (MkResolved (target f) (labels f) (platform f) ((λ q, q * 1000)%Z <$> queueTimeout f))
  end.

Definition resolveAffinityKey (workflowAffinity jobAffinity : option bool) (runId jobName : string)
    : option string :=
  if bool_decide (jobAffinity = Some false) then None
  else if bool_decide (workflowAffinity = Some true) then Some runId
  else if bool_decide (jobAffinity = Some true) then Some (runId +:+ ":" +:+ jobName)
  else None.

Definition fieldsData (f : Fields) : list (string * JsValue) :=
  optField "target" VStr (target f) ++ optField "labels" recordData (labels f) ++
  optField "platform" VStr (platform f) ++ optField "queueTimeout" VNum (queueTimeout f).

End Placement.

(** ** Tasks of steps *)

Module StepTask.

Inductive Severity : Type := low | medium | high.

(** [StepTaskData]; [inputs] and [globalArgs] are a record or an expression *)
Inductive t : Type :=
| model_method (modelIdOrName modelType modelName : option string) (methodName : string)
    (inputs globalArgs : option JsValue)
| workflow (workflowIdOrName : string) (inputs : option JsValue)
| manual_approval (prompt : string) (timeout : option Z)
| assert (expr message : string) (severity : Severity)
| wait_for_signal (timeout : Z) (schema : JsValue) (key : option string) (acceptEarly : option Z).

Definition isModelMethod (task : t) : bool :=
  match task with model_method _ _ _ _ _ _ => true | _ => false end.
Definition isDirectExecution (task : t) : bool :=
  match task with
  | model_method _ (Some modelType) _ _ _ _ => negb (bool_decide (modelType = ""))
  | _ => false
  end.
Definition isWorkflow (task : t) : bool := match task with workflow _ _ => true | _ => false end.
Definition isManualApproval (task : t) : bool :=
  match task with manual_approval _ _ => true | _ => false end.
Definition isAssert (task : t) : bool := match task with assert _ _ _ => true | _ => false end.
Definition isWaitForSignal (task : t) : bool :=
  match task with wait_for_signal _ _ _ _ => true | _ => false end.

Definition severityName (s : Severity) : string :=
  match s with low => "low" | medium => "medium" | high => "high" end.

Definition toData (task : t) : JsValue :=
  VObj match task with
  | model_method idOrName type name method inputs globalArgs =>
      ("type", VStr "model_method") :: optField "modelIdOrName" VStr idOrName ++
      optField "modelType" VStr type ++ optField "modelName" VStr name ++
      [("methodName", VStr method)] ++ optField "inputs" id inputs ++
      optField "globalArgs" id globalArgs
  | workflow idOrName inputs =>
      [("type", VStr "workflow"); ("workflowIdOrName", VStr idOrName)] ++ optField "inputs" id inputs
  | manual_approval prompt timeout =>
      [("type", VStr "manual_approval"); ("prompt", VStr prompt)] ++ optField "timeout" VNum timeout
  | assert expr message severity =>
      [("type", VStr "assert"); ("expr", VStr expr); ("message", VStr message);
       ("severity", VStr (severityName severity))]
  | wait_for_signal timeout schema key acceptEarly =>
      [("type", VStr "wait_for_signal"); ("timeout", VNum timeout); ("schema", schema)] ++
      optField "key" VStr key ++ optField "acceptEarly" VNum acceptEarly
  end.

End StepTask.

(** [condition.toData()] *)
Fixpoint conditionData (c : TriggerCondition.Data) : JsValue :=
  match c with
  | TriggerCondition.always => VObj [("type", VStr "always")]
  | TriggerCondition.succeeded => VObj [("type", VStr "succeeded")]
  | TriggerCondition.failed => VObj [("type", VStr "failed")]
  | TriggerCondition.completed => VObj [("type", VStr "completed")]
  | TriggerCondition.skipped => VObj [("type", VStr "skipped")]
  | TriggerCondition.and l => VObj [("type", VStr "and"); ("conditions", VArr (conditionData <$> l))]
  | TriggerCondition.or l => VObj [("type", VStr "or"); ("conditions", VArr (conditionData <$> l))]
  | TriggerCondition.not c => VObj [("type", VStr "not"); ("condition", conditionData c)]
  end.

(** ** Steps *)

Module Step.

Record Dependency : Type := MkDependency { step : string; condition : TriggerCondition.Data }.

Record ForEach : Type := MkForEach { item : string; in_ : string }.

Record t : Type := Mk {
  name : string;
  description : option string;
  task : StepTask.t;
  forEach : option ForEach;
  dependsOn : list Dependency;
  weight : Z;
  concurrency : option Z;
  dataOutputOverrides : list JsValue;
  allowFailure : bool;
  placementFields : Placement.Fields;
  guard : option string;
  writes : option bool;
}.

Definition getDependencyNames (s : t) : list string := step <$> dependsOn s.

Definition placement (s : t) : option Placement.Resolved :=
  Placement.resolvePlacement (Some (placementFields s)).

Definition isForEach (s : t) : bool := match forEach s with Some _ => true | None => false end.

Definition toData (s : t) : JsValue :=
  VObj (("name", VStr (name s)) :: optField "description" VStr (description s) ++
    [("task", StepTask.toData (task s))] ++
    optField "forEach" (λ f, VObj [("item", VStr (item f)); ("in", VStr (in_ f))]) (forEach s) ++
    [("dependsOn", VArr ((λ d, VObj [("step", VStr (step d)); ("condition", conditionData (condition d))])
                           <$> dependsOn s));
     ("weight", VNum (weight s))] ++
    optField "concurrency" VNum (concurrency s) ++
    match dataOutputOverrides s with [] => [] | l => [("dataOutputOverrides", VArr l)] end ++
    [("allowFailure", VBool (allowFailure s))] ++ Placement.fieldsData (placementFields s) ++
    optField "guard" VStr (guard s) ++ optField "writes" VBool (writes s)).

End Step.

(** ** Jobs *)

Module Job.

Record Dependency : Type := MkDependency { job : string; condition : TriggerCondition.Data }.

(** the word [all], or a policy *)
Inductive FanOutField : Type := all | policy (p : FanOut.FanOutPolicy).

Record t : Type := Mk {
  name : string;
  description : option string;
  steps : list Step.t;
  dependsOn : list Dependency;
  weight : Z;
  concurrency : option Z;
  affinity : option bool;
  writes : option bool;
  fanOut : option FanOutField;
  placementFields : Placement.Fields;
}.

Definition getDependencyNames (j : t) : list string := job <$> dependsOn j.

Definition getStep (name : string) (j : t) : option Step.t :=
  List.find (λ s, bool_decide (Step.name s = name)) (steps j).

(** the defaults of [FanOutPolicySchema] for [all] *)
Definition fanOutPolicy (j : t) : option FanOut.FanOutPolicy :=
  match fanOut j with
  | None => None
  | Some all => Some (FanOut.MkPolicy FanOut.wait 1 None)
  | Some (policy p) => Some p
  end.

Definition sizeData (s : FanOut.Size) : JsValue :=
  match s with FanOut.Count n => VNum n | FanOut.Percent text => VStr text end.

Definition offlineName (o : FanOut.OfflinePolicy) : string :=
  match o with FanOut.wait => "wait" | FanOut.skip => "skip" | FanOut.fail => "fail" end.

Definition fanOutData (f : FanOutField) : JsValue :=
  match f with
  | all => VStr "all"
  | policy p =>
      VObj ([("offline", VStr (offlineName (FanOut.offline p))); ("minWorkers", VNum (FanOut.minWorkers p))] ++
        optField "rollout" (λ r, VObj (("batches", VArr (sizeData <$> FanOut.batches r)) ::
          optField "maxFailures" sizeData (FanOut.maxFailures r))) (FanOut.rollout p))
  end.

Definition toData (j : t) : JsValue :=
  VObj (("name", VStr (name j)) :: optField "description" VStr (description j) ++
    [("steps", VArr (Step.toData <$> steps j));
     ("dependsOn", VArr ((λ d, VObj [("job", VStr (job d)); ("condition", conditionData (condition d))])
                           <$> dependsOn j));
     ("weight", VNum (weight j))] ++
    optField "concurrency" VNum (concurrency j) ++ optField "affinity" VBool (affinity j) ++
    optField "writes" VBool (writes j) ++ optField "fanOut" fanOutData (fanOut j) ++
    Placement.fieldsData (placementFields j)).

End Job.

(** ** Workflows *)

Module Workflow.

Record Trigger : Type := MkTrigger {
  schedule : option string;
  t_inputs : option (list (string * JsValue));
  catchUp : option JsValue;
}.

(** [inputs] is the schema of the inputs, [reports] a report selection *)
Record t : Type := Mk {
  id : string;
  name : string;
  description : option string;
  trigger : option Trigger;
  tags : list (string * string);
  inputs : option (list (string * JsValue));
  jobs : list Job.t;
  version : Z;
  concurrency : option Z;
  reports : option JsValue;
  affinity : option bool;
  writes : option bool;
  placementFields : Placement.Fields;
  autoResume : option bool;
  vaults : option (list string);
}.

#[global] Instance Workflow_eta : Eta t := λ w,
  Mk (id w) (name w) (description w) (trigger w) (tags w) (inputs w) (jobs w) (version w)
     (concurrency w) (reports w) (affinity w) (writes w) (placementFields w) (autoResume w) (vaults w).

Definition isJob (n : string) (j : Job.t) : bool := bool_decide (Job.name j = n).

Definition getJob (n : string) (w : t) : option Job.t := List.find (isJob n) (jobs w).

Definition addJob (j : Job.t) (w : t) : result t :=
  if existsb (isJob (Job.name j)) (jobs w)
  then Throw ("Job with name '" +:+ Job.name j +:+ "' already exists")
  else Ok (w <| jobs := jobs w ++ [j] |>).

Definition workflowDeclaresInputs (schema : option (list (string * JsValue))) : bool :=
  match schema with
  | None => false
  | Some schema =>
      if match assoc_get "properties" schema with Some (VObj (_ :: _)) => true | _ => false end then true
      else match assoc_get "additionalProperties" schema with
           | None | Some (VBool false) => false
           | Some _ => true
           end
  end.

Definition shouldAutoResume (serverDefault : bool) (w : t) : bool :=
  match autoResume w with
  | Some b => b
  | None => serverDefault && negb (workflowDeclaresInputs (inputs w))
  end.

(** [isFilenameSafeName]: [WORKFLOW_NAME_PATTERN] and the length *)
Definition isNameChar (c : ascii) : bool := isLowerAZ c || isDigit c || Ascii.eqb c "-".

Definition isFilenameSafeName (n : string) : bool :=
  match n with
  | String c rest => (isLowerAZ c || isDigit c) && all_chars isNameChar rest && (String.length n <=? 64)
  | EmptyString => false
  end.

Definition triggerData (tr : Trigger) : JsValue :=
  VObj (optField "schedule" VStr (schedule tr) ++ optField "inputs" VObj (t_inputs tr) ++
        optField "catchUp" (λ v, v) (catchUp tr)).

Definition toData (w : t) : JsValue :=
  VObj ([("id", VStr (id w)); ("name", VStr (name w))] ++
    optField "description" VStr (description w) ++ optField "trigger" triggerData (trigger w) ++
    [("tags", recordData (tags w))] ++ optField "inputs" VObj (inputs w) ++
    [("jobs", VArr (Job.toData <$> jobs w)); ("version", VNum (version w))] ++
    optField "concurrency" VNum (concurrency w) ++ optField "reports" (λ v, v) (reports w) ++
    optField "affinity" VBool (affinity w) ++ optField "writes" VBool (writes w) ++
    Placement.fieldsData (placementFields w) ++ optField "autoResume" VBool (autoResume w) ++
    optField "vaults" (λ l, VArr (VStr <$> l)) (vaults w)).

End Workflow.

(** ** Jobs that fan out *)

Module FanOutJob.

Inductive PathPart : Type := Key (k : string) | Index (i : nat).

Record FanOutRefusal : Type := MkRefusal { path : list PathPart; message : string }.

(** [UNSUPPORTED_STEP_KINDS] *)
Definition unsupportedKind (task : StepTask.t) : option string :=
  match task with
  | StepTask.workflow _ _ => Some "a nested workflow"
  | StepTask.manual_approval _ _ => Some "a manual_approval"
  | StepTask.wait_for_signal _ _ _ _ => Some "a wait_for_signal"
  | _ => None
  end.

Definition stepPlacements (s : Step.t) : list string :=
  let f := Step.placementFields s in
  match Placement.target f with Some _ => ["target"] | None => [] end ++
  match Placement.labels f with Some _ => ["labels"] | None => [] end ++
  match Placement.platform f with Some _ => ["platform"] | None => [] end.

Definition stepRefusals (name : string) (jobIndex stepIndex : nat) (s : Step.t) : list FanOutRefusal :=
  let stepAt field := [Key "jobs"; Index jobIndex; Key "steps"; Index stepIndex; Key field] in
  let where_ := "Step '" +:+ Step.name s +:+ "' in fan-out job '" +:+ name +:+ "'" in
  ((λ field, MkRefusal (stepAt field)
      (where_ +:+ " sets " +:+ field +:+ ", but each lane runs on one worker. Remove " +:+ field +:+
       " from the step and set placement on the job.")) <$> stepPlacements s) ++
  (if Step.isForEach s then
     [MkRefusal (stepAt "forEach")
        (where_ +:+ " uses forEach, which fan-out jobs do not support yet. Move the loop into a job without fanOut.")]
   else []) ++
  match Step.task s with
  | StepTask.model_method (Some idOrName) _ _ _ _ _ =>
      [MkRefusal (stepAt "task")
         (where_ +:+ " runs the named definition '" +:+ idOrName +:+
          "', which every lane would share. Use behaviorType and behaviorName so each worker gets its own instance.")]
  | _ => []
  end ++
  match unsupportedKind (Step.task s) with
  | Some kind =>
      [MkRefusal (stepAt "task")
         (where_ +:+ " is " +:+ kind +:+
          " step, which fan-out jobs do not support yet. Move it into a job without fanOut.")]
  | None => []
  end.

Definition jobRefusals (w : Workflow.t) (jobIndex : nat) (j : Job.t) : list FanOutRefusal :=
  match Job.fanOut j with
  | None => []
  | Some _ =>
      let at_ field := [Key "jobs"; Index jobIndex; Key field] in
      let name := Job.name j in
      let selector :=
        Placement.mergePlacementFields (Some (Workflow.placementFields w)) (Some (Job.placementFields j)) in
      match Placement.target (Job.placementFields j) with
      | Some _ =>
          [MkRefusal (at_ "target")
             ("Fan-out job '" +:+ name +:+ "' sets target, which names one worker. Remove target and select the workers with labels or platform.")]
      | None =>
          match selector ≫= Placement.target with
          | Some _ =>
              [MkRefusal [Key "target"]
                 ("The workflow sets target, which fan-out job '" +:+ name +:+ "' would inherit and which names one worker. Remove target from the workflow, or set it on the jobs that need it.")]
          | None => []
          end
      end ++
      (if negb (Placement.hasLabels (selector ≫= Placement.labels)) &&
          bool_decide (selector ≫= Placement.platform = None)
       then [MkRefusal (at_ "fanOut")
               ("Fan-out job '" +:+ name +:+ "' has no labels or platform in effect. Set labels or platform on the job or the workflow; to reach every worker, give them a shared label and select it.")]
       else []) ++
      (if bool_decide (Job.affinity j = Some true) then
         [MkRefusal (at_ "affinity")
            ("Fan-out job '" +:+ name +:+ "' sets affinity: true, but each lane already stays on its own worker. Remove affinity from the job.")]
       else if bool_decide (Workflow.affinity w = Some true) && bool_decide (Job.affinity j ≠ Some false) then
         [MkRefusal [Key "affinity"]
            ("The workflow sets affinity: true, which would pin fan-out job '" +:+ name +:+ "' to one worker. Set affinity: false on job '" +:+ name +:+ "' or remove affinity from the workflow.")]
       else []) ++
      List.concat (imap (stepRefusals name jobIndex) (Job.steps j))
  end.

Definition fanOutJobRefusals (w : Workflow.t) : list FanOutRefusal :=
  List.concat (imap (jobRefusals w) (Workflow.jobs w)).

End FanOutJob.
