(* ===== verification/Schedule.v ===== *)
(** * Schedules: missed fires, catch-up and the watermark

    [src/src/domain/workflows/schedule_catch_up.ts] (module [CatchUp]),
    [src/src/domain/workflows/schedule_state.ts] (module [State]) and, of
    [src/src/libswamp/workflows/scheduled_execution.ts], what the pass at
    startup decides for one schedule and what it writes (module [Pass]).

    The package that reads cron expressions is the class [CronLib]; its laws
    [CronLaws] say what the package documents of [nextRun]: the earliest slot
    after an instant. A [Date] and the text [toISOString] writes for it are the
    instant's milliseconds; [Date.parse] of a tag anyone can set is an argument.
    The loop over slots runs at most [MISSED_FIRE_COUNT_CAP] times, as in the
    source; the bisection halves its interval, so the logarithm of its length is
    enough fuel ([latestAtOrBefore_last]). *)

From S2P Require Import Prelude DataMetadata.
Import DataMetadata.DataMetadata.
Local Open Scope Z_scope.

(** What [schedule_catch_up.ts] uses of the cron package. *)
Class CronLib := {
  Cron : Type;
  newCron : string → result Cron;
  nextRun : Cron → Z → option Z;
}.

(** [nextRun c t] is the earliest slot of [c] after [t], if there is one. *)
Class CronLaws {cron_lib : CronLib} : Prop := {
  nextRun_after c t s : nextRun c t = Some s → t < s;
  nextRun_stable c t u s : nextRun c t = Some s → t ≤ u < s → nextRun c u = Some s;
  nextRun_none c t u : nextRun c t = None → t ≤ u → nextRun c u = None;
}.

Module CatchUp.

Inductive CatchUpPolicy := PolicyNone | PolicyLatest.

#[global] Instance CatchUpPolicy_eq_dec : EqDecision CatchUpPolicy.
Proof. solve_decision. Defined.

Definition CATCH_UP_MAX_DELAY_LIMIT : string := "31d".

Definition CATCH_UP_MAX_DELAY_LIMIT_MS : Z :=
  default 0 (try_option (parseDataDuration CATCH_UP_MAX_DELAY_LIMIT)).

Definition SCHEDULED_FOR_TAG : string := "swamp.trigger.scheduledFor".
Definition CATCH_UP_TAG : string := "swamp.trigger.catchUp".

(** ** Slots that runs recorded *)

Record RunTags := mkRunTags {
  initiatedBy : option string;
  tags : gmap string string;
}.

Section Recorded.
Context (dateParse : string → option Z) (scheduler : string).

Definition latestStep (latest : option Z) (run : RunTags) : option Z :=
  if negb (bool_decide (initiatedBy run = Some scheduler)) then latest
  else match dateParse (default "" (tags run !! SCHEDULED_FOR_TAG)) with
       | None => latest
       | Some slot =>
           match latest with
           | None => Some slot
           | Some l => if l <? slot then Some slot else Some l
           end
       end.

Definition latestRecordedSlot (runs : list RunTags) : option Z := foldl latestStep None runs.

Fixpoint firstRecordedSlot (runs : list RunTags) (notAfter : Z) : option Z :=
  match runs with
  | [] => None
  | run :: rest =>
      match latestRecordedSlot [run] with
      | Some slot => if slot <=? notAfter then Some slot else firstRecordedSlot rest notAfter
      | None => firstRecordedSlot rest notAfter
      end
  end.
End Recorded.

(** ** The policy *)

Definition MISSED_FIRE_COUNT_CAP : nat := 1000.

Definition maxDelayIssue (value : string) : option string :=
  match parseDataDuration value with
  | Throw _ => Some ("'" +:+ value +:+
      "' is not a duration: use a number and a unit (m, h, d or w), e.g. 6h")
  | Ok ms =>
      if ms <=? 0 then Some "maxDelay must be greater than zero"
      else if CATCH_UP_MAX_DELAY_LIMIT_MS <? ms
      then Some ("maxDelay must be at most " +:+ CATCH_UP_MAX_DELAY_LIMIT)
      else None
  end.

Record ScheduleCatchUp := mkScheduleCatchUp {
  policy : CatchUpPolicy;
  maxDelay : option string;
}.

#[global] Instance ScheduleCatchUp_eq_dec : EqDecision ScheduleCatchUp.
Proof. solve_decision. Defined.

(** the issue [superRefine] adds, all of them on the path [maxDelay] *)
Definition ScheduleCatchUpSchema (value : ScheduleCatchUp) : option string :=
  match policy value with
  | PolicyNone =>
      match maxDelay value with
      | Some _ => Some "maxDelay applies only to policy 'latest'"
      | None => None
      end
  | PolicyLatest =>
      match maxDelay value with
      | None => Some "policy 'latest' requires maxDelay, e.g. 6h"
      | Some d => maxDelayIssue d
      end
  end.

(** ** Missed fires *)

Record MissedFires := mkMissedFires {
  missedCount : Z;
  saturated : bool;
  oldestMissed : option Z;
  latestMissed : option Z;
  catchUpFireTime : option Z;
}.

#[global] Instance MissedFires_eq_dec : EqDecision MissedFires.
Proof. solve_decision. Defined.

Definition none : MissedFires := mkMissedFires 0 false None None None.

Definition catchUpTime (latest : option Z) (now : Z) (catchUp : option ScheduleCatchUp) :
    result (option Z) :=
  match latest, catchUp with
  | Some l, Some (mkScheduleCatchUp PolicyLatest (Some d)) =>
      if bool_decide (d = "") then Ok None
      else maxDelayMs ← parseDataDuration d;
           Ok (if now - l <=? maxDelayMs then Some l else None)
  | _, _ => Ok None
  end.

Section Evaluate.
Context {cron_lib : CronLib}.

Definition nextAtOrBefore (cron : Cron) (after now : Z) : option Z :=
  match nextRun cron after with
  | Some next => if next <=? now then Some next else None
  | None => None
  end.

Fixpoint bisect (fuel : nat) (cron : Cron) (now lo hi : Z) : Z :=
  match fuel with
  | O => lo
  | S fuel =>
      if 1 <? hi - lo then
        let mid := lo + (hi - lo) / 2 in
        match nextRun cron mid with
        | Some next => if next <=? now then bisect fuel cron now mid hi else bisect fuel cron now lo mid
        | None => bisect fuel cron now lo mid
        end
      else lo
  end.

Definition latestAtOrBefore (cron : Cron) (floor now : Z) : option Z :=
  nextAtOrBefore cron (bisect (Z.to_nat (Z.log2_up (now - floor))) cron now floor now) now.

(** The loop of [evaluateMissedFires]; [fuel] is what is left of the cap. *)
Fixpoint missedLoop (fuel : nat) (cron : Cron) (now : Z) (count : Z)
    (oldest latest : option Z) (cursor : Z) : Z * option Z * option Z * Z :=
  match fuel with
  | O => (count, oldest, latest, cursor)
  | S fuel =>
      match nextRun cron cursor with
      | None => (count, oldest, latest, cursor)
      | Some next =>
          if now <? next then (count, oldest, latest, cursor)
          else missedLoop fuel cron now (count + 1) (Some (default next oldest)) (Some next) next
      end
  end.

Definition evaluateMissedFires (cronExpression : string) (lastEvaluatedFireTime now : Z)
    (catchUp : option ScheduleCatchUp) : result MissedFires :=
  if now <=? lastEvaluatedFireTime then Ok none
  else
    cron ← newCron cronExpression;
    let '(count, oldest, latest, cursor) :=
      missedLoop MISSED_FIRE_COUNT_CAP cron now 0 None None lastEvaluatedFireTime in
    if count =? 0 then Ok none
    else
      let sat := (count =? Z.of_nat MISSED_FIRE_COUNT_CAP) &&
                 bool_decide (is_Some (nextAtOrBefore cron cursor now)) in
      let latest := if sat then
                      match latestAtOrBefore cron cursor now with Some l => Some l | None => latest end
                    else latest in
      fire ← catchUpTime latest now catchUp;
      Ok (mkMissedFires count sat oldest latest fire).

Definition missedAroundRecordedSlot (cronExpression : string)
    (lastEvaluatedFireTime recorded now : Z) (catchUp : option ScheduleCatchUp) :
    result MissedFires :=
  gap ← evaluateMissedFires cronExpression lastEvaluatedFireTime (recorded - 1) None;
  after ← evaluateMissedFires cronExpression recorded now catchUp;
  let sum := missedCount gap + missedCount after in
  Ok {| missedCount := Z.min sum (Z.of_nat MISSED_FIRE_COUNT_CAP);
        saturated := saturated gap || saturated after || (Z.of_nat MISSED_FIRE_COUNT_CAP <? sum);
        oldestMissed := match oldestMissed gap with Some o => Some o | None => oldestMissed after end;
        latestMissed := match latestMissed after with Some l => Some l | None => latestMissed gap end;
        catchUpFireTime := catchUpFireTime after |}.
End Evaluate.
End CatchUp.

Module State.

Inductive MissedFireReason := ServeDown | Paused | Overlap.

#[global] Instance MissedFireReason_eq_dec : EqDecision MissedFireReason.
Proof. solve_decision. Defined.

Record MissedFire := mkMissedFire {
  fireTime : Z;
  count : Z;
  saturated : option bool;
  reason : MissedFireReason;
  caughtUp : bool;
  detectedAt : Z;
}.

#[global] Instance MissedFire_eq_dec : EqDecision MissedFire.
Proof. solve_decision. Defined.

#[global] Instance MissedFire_eta : Eta MissedFire := λ m,
  mkMissedFire (fireTime m) (count m) (saturated m) (reason m) (caughtUp m) (detectedAt m).

Record ScheduleState := mkScheduleState {
  workflowId : string;
  workflowName : string;
  lastEvaluatedFireTime : Z;
  cronExpression : option string;
  lastMissed : option MissedFire;
}.

#[global] Instance ScheduleState_eq_dec : EqDecision ScheduleState.
Proof. solve_decision. Defined.

Record ScheduleStateAdvance := mkScheduleStateAdvance {
  advLastMissed : option MissedFire;
  advCronExpression : option string;
  advFired : bool;
}.

Definition mergeMissed (current given : option MissedFire) : option MissedFire :=
  match given with
  | None => current
  | Some g =>
      match current with
      | None => Some g
      | Some c =>
          if fireTime g <? fireTime c then Some c
          else if (fireTime c =? fireTime g) && caughtUp c && negb (caughtUp g) then Some c
          else if (fireTime c =? fireTime g) || negb (bool_decide (reason c = reason g)) ||
                  caughtUp c || caughtUp g then Some g
          else
            let sum := count c + count g in
            let sat := bool_decide (saturated c = Some true) || bool_decide (saturated g = Some true) ||
                       (Z.of_nat CatchUp.MISSED_FIRE_COUNT_CAP <? sum) in
            let g := g <| count := Z.min sum (Z.of_nat CatchUp.MISSED_FIRE_COUNT_CAP) |> in
            Some (if sat then g <| saturated := Some true |> else g)
      end
  end.

(** the report that stays once the expression and a started run are known *)
Definition keptMissed (current : option ScheduleState) (at_ : Z) (options : ScheduleStateAdvance) :
    option MissedFire :=
  let kept := current ≫= lastMissed in
  let kept :=
    if bool_decide (is_Some (advCronExpression options)) &&
       negb (bool_decide ((current ≫= cronExpression) = advCronExpression options))
    then None else kept in
  match kept with
  | Some k =>
      if advFired options &&
         ((fireTime k <? at_) || ((fireTime k =? at_) && negb (caughtUp k)))
      then None else Some k
  | None => None
  end.

Definition advanceScheduleState (current : option ScheduleState) (id name : string) (at_ : Z)
    (options : ScheduleStateAdvance) : ScheduleState :=
  let watermark :=
    match current with
    | Some st => if at_ <? lastEvaluatedFireTime st then lastEvaluatedFireTime st else at_
    | None => at_
    end in
  let missed := mergeMissed (keptMissed current at_ options) (advLastMissed options) in
  let expression :=
    match advCronExpression options with Some e => Some e | None => current ≫= cronExpression end in
  {| workflowId := id;
     workflowName := name;
     lastEvaluatedFireTime := watermark;
     cronExpression := if bool_decide (expression = Some "") then None else expression;
     lastMissed := missed |}.
End State.

(** ** The pass at startup, for one schedule *)
Module Pass.
Import State.

Record ScheduleStateWriteOptions := mkWriteOptions {
  wLastMissed : option MissedFire;
  wFired : bool;
  wUnlessSettled : bool;
}.

Record StateWriteRequest := mkRequest {
  reqWorkflowName : string;
  reqFireTime : Z;
  reqOptions : ScheduleStateWriteOptions;
}.

(** the step of the [reduce] in [writeScheduleStateNow]; [true] in the answer
    when the request is skipped *)
Definition applyRequest (id : string) (cronExpression : option string)
    (state : option ScheduleState) (request : StateWriteRequest) : option ScheduleState * bool :=
  match state with
  | Some st =>
      if wUnlessSettled (reqOptions request) &&
         (reqFireTime request <=? lastEvaluatedFireTime st)
      then (Some st, true)
      else (Some (advanceScheduleState (Some st) id (reqWorkflowName request) (reqFireTime request)
             (mkScheduleStateAdvance (wLastMissed (reqOptions request)) cronExpression
                (wFired (reqOptions request)))), false)
  | None =>
      (Some (advanceScheduleState None id (reqWorkflowName request) (reqFireTime request)
             (mkScheduleStateAdvance (wLastMissed (reqOptions request)) cronExpression
                (wFired (reqOptions request)))), false)
  end.

(** the record a batch of queued requests leaves *)
Definition writeBatch (id : string) (cronExpression : option string)
    (state : option ScheduleState) (batch : list StateWriteRequest) : option ScheduleState :=
  foldl (λ st r, (applyRequest id cronExpression st r).1) state batch.

(** [latestMissed] is present: the callers give a report with misses *)
Definition missedFireOf (missed : CatchUp.MissedFires) (latest now : Z) : MissedFire :=
  {| fireTime := latest;
     count := CatchUp.missedCount missed;
     saturated := if CatchUp.saturated missed then Some true else None;
     reason := ServeDown;
     caughtUp := false;
     detectedAt := now |}.

(** the write [recordMissed] queues, if any *)
Definition recordMissed (name : string) (missed : CatchUp.MissedFires) (now : Z)
    (settledThrough : option Z) (unlessSettled : bool) : option StateWriteRequest :=
  let toSettled :=
    match settledThrough, CatchUp.latestMissed missed with
    | Some s, Some l => l <? s
    | Some _, None => true
    | None, _ => false
    end in
  fireTime ← (if toSettled then settledThrough else CatchUp.latestMissed missed);
  Some {| reqWorkflowName := name;
          reqFireTime := fireTime;
          reqOptions := {| wLastMissed := (λ l, missedFireOf missed l now) <$> CatchUp.latestMissed missed;
                           wFired := toSettled;
                           wUnlessSettled := unlessSettled |} |}.

(** What [catchUpSchedule] does for a schedule with no fire of its own since
    startup, when the pass is not aborted: it starts the watermark at [now],
    does nothing, writes a report, or fires a slot. *)
Inductive CatchUpAction :=
| StartAfresh
| NothingMissed
| Report (missed : CatchUp.MissedFires) (settled : option Z) (tooLate : bool)
| Fire (slot : Z) (missed : CatchUp.MissedFires).

Section Decide.
Context {cron_lib : CronLib}.

(** [recorded] is the answer of the run history, read only when there is a
    slot to fire. *)
Definition catchUpSchedule (cronExpression : string) (stored : option ScheduleState)
    (recorded : option Z) (now : Z) (catchUp : option CatchUp.ScheduleCatchUp) :
    result CatchUpAction :=
  match stored with
  | Some st =>
      if negb (bool_decide (State.cronExpression st = Some cronExpression)) then Ok StartAfresh
      else
        let watermark := lastEvaluatedFireTime st in
        missed ← CatchUp.evaluateMissedFires cronExpression watermark now catchUp;
        if CatchUp.missedCount missed =? 0 then Ok NothingMissed
        else
          '(missed, settled) ←
            (match CatchUp.catchUpFireTime missed, recorded with
             | Some _, Some r =>
                 if (watermark <? r) && (r <=? now) then
                   m ← CatchUp.missedAroundRecordedSlot cronExpression watermark r now catchUp;
                   Ok (m, Some r)
                 else Ok (missed, None)
             | _, _ => Ok (missed, None)
             end);
          match CatchUp.catchUpFireTime missed with
          | None =>
              Ok (Report missed settled
                   (bool_decide (CatchUp.policy <$> catchUp = Some CatchUp.PolicyLatest) &&
                    match CatchUp.latestMissed missed with
                    | Some l => match settled with Some s => s <? l | None => true end
                    | None => false
                    end))
          | Some slot => Ok (Fire slot missed)
          end
  | None => Ok StartAfresh
  end.
End Decide.
End Pass.
