(* ===== verification/ScheduleProps.v ===== *)
(** * Schedules: every missed slot is found once, and settled once

    The evaluation of missed fires against the list of all slots of an
    interval, the recorded slots of runs, the reports and the watermark under
    any order of writes, and the decision of the pass at startup. *)

From S2P Require Import Prelude DataMetadata Schedule.
Import DataMetadata.DataMetadata.
Local Open Scope Z_scope.

Module CatchUpProps.
Import CatchUp.

Lemma filter_keeps_all {A} (P : A → Prop) `{!∀ x, Decision (P x)} l :
  Forall P l → filter P l = l.
Proof. induction 1 as [|x l Hx _ IH]; [done|]. by rewrite filter_cons_True, IH. Qed.

(** ** Slots of an interval *)

Section Slots.
Context {cron_lib : CronLib}.

(** an instant is a slot when it is the next run after the one before it *)
Definition slot (c : Cron) (s : Z) : Prop := nextRun c (s - 1) = Some s.

#[global] Instance slot_dec c s : Decision (slot c s).
Proof. unfold slot. apply _. Defined.

(** the slots after [lo] and at or before [hi], in order *)
Definition slotsBetween (c : Cron) (lo hi : Z) : list Z :=
  filter (slot c) (seqZ (lo + 1) (hi - lo)).

(** what [evaluateMissedFires] is to answer, from all the slots *)
Definition missedOf (slots : list Z) (fire : option Z) : MissedFires :=
  {| missedCount := Z.of_nat (length slots `min` MISSED_FIRE_COUNT_CAP);
     saturated := bool_decide (MISSED_FIRE_COUNT_CAP < length slots)%nat;
     oldestMissed := head slots;
     latestMissed := last slots;
     catchUpFireTime := fire |}.

Lemma elem_of_slotsBetween c lo hi s : s ∈ slotsBetween c lo hi ↔ slot c s ∧ lo < s ≤ hi.
Proof. unfold slotsBetween. rewrite list_elem_of_filter, elem_of_seqZ. naive_solver lia. Qed.

Lemma slotsBetween_nil c lo hi : hi ≤ lo → slotsBetween c lo hi = [].
Proof. intros H. unfold slotsBetween. by rewrite seqZ_nil by lia. Qed.

Lemma slotsBetween_app c lo mid hi :
  lo ≤ mid ≤ hi → slotsBetween c lo hi = slotsBetween c lo mid ++ slotsBetween c mid hi.
Proof.
  intros H. unfold slotsBetween. rewrite <-filter_app. f_equal.
  replace (hi - lo) with ((mid - lo) + (hi - mid)) by lia.
  rewrite seqZ_app by lia. do 2 f_equal. lia.
Qed.

Context {cron_laws : CronLaws}.

Lemma slot_nextRun c t s : nextRun c t = Some s → slot c s.
Proof. intros H. pose proof (nextRun_after _ _ _ H). eapply nextRun_stable; [done|lia]. Qed.

Lemma no_slot_before_next c t s u : nextRun c t = Some s → t < u < s → ¬ slot c u.
Proof.
  intros H Hu Hs. unfold slot in Hs. rewrite (nextRun_stable c t (u - 1) s) in Hs by (done || lia).
  simplify_eq. lia.
Qed.

Lemma no_slot_after_none c t u : nextRun c t = None → t < u → ¬ slot c u.
Proof. unfold slot. intros H Hu. by rewrite (nextRun_none c t (u - 1)) by (done || lia). Qed.

Lemma nil_of_no_elem {A} (l : list A) : (∀ x, x ∉ l) → l = [].
Proof. destruct l as [|x l]; [done|]. intros H. destruct (H x). set_solver. Qed.

(** the slots of an interval start with the next run *)
Lemma slotsBetween_step c lo hi :
  slotsBetween c lo hi =
    match nextRun c lo with
    | Some s => if s <=? hi then s :: slotsBetween c s hi else []
    | None => []
    end.
Proof.
  destruct (nextRun c lo) as [s|] eqn:E.
  - pose proof (nextRun_after _ _ _ E). destruct (Z.leb_spec s hi).
    + rewrite (slotsBetween_app c lo (s - 1) hi), (slotsBetween_app c (s - 1) s hi) by lia.
      rewrite (nil_of_no_elem (slotsBetween c lo (s - 1))); simpl.
      * unfold slotsBetween at 1. replace (s - (s - 1)) with 1 by lia.
        replace (s - 1 + 1) with s by lia. rewrite seqZ_cons by lia. simpl.
        rewrite seqZ_nil by lia. rewrite filter_cons_True by by eapply slot_nextRun. done.
      * intros u [Hs Hu]%elem_of_slotsBetween. eapply (no_slot_before_next c lo s u); [done|lia|done].
    + apply nil_of_no_elem. intros u [Hs Hu]%elem_of_slotsBetween.
      eapply (no_slot_before_next c lo s u); [done|lia|done].
  - apply nil_of_no_elem. intros u [Hs Hu]%elem_of_slotsBetween.
    eapply (no_slot_after_none c lo u); [done|lia|done].
Qed.

Lemma nextAtOrBefore_head c after now : nextAtOrBefore c after now = head (slotsBetween c after now).
Proof.
  rewrite slotsBetween_step. unfold nextAtOrBefore. destruct (nextRun c after); [|done].
  by case_match.
Qed.

(** ** The loop *)

Lemma missedLoop_spec f c now count oldest latest cursor :
  let slots := slotsBetween c cursor now in
  missedLoop f c now count oldest latest cursor =
    (count + Z.of_nat (length (take f slots)),
     match oldest with Some o => Some o | None => head (take f slots) end,
     match last (take f slots) with Some l => Some l | None => latest end,
     default cursor (last (take f slots))).
Proof.
  revert count oldest latest cursor.
  induction f as [|f IH]; intros count oldest latest cursor; cbv zeta; simpl missedLoop.
  { simpl. rewrite Z.add_0_r. by destruct oldest. }
  rewrite slotsBetween_step. destruct (nextRun c cursor) as [s|] eqn:E; simpl.
  2:{ rewrite Z.add_0_r. by destruct oldest. }
  rewrite Z.leb_antisym. destruct (now <? s) eqn:Hs; simpl.
  { rewrite Z.add_0_r. by destruct oldest. }
  rewrite IH. cbv zeta. rewrite last_cons.
  replace (count + Z.of_nat (S (length (take f (slotsBetween c s now)))))
    with (count + 1 + Z.of_nat (length (take f (slotsBetween c s now)))) by lia.
  by destruct (last (take f (slotsBetween c s now))), oldest.
Qed.

(** the slots after the last one taken are the rest *)
Lemma slotsBetween_drop c lo hi f :
  slotsBetween c (default lo (last (take f (slotsBetween c lo hi)))) hi =
  drop f (slotsBetween c lo hi).
Proof.
  revert lo. induction f as [|f IH]; intros lo; simpl; [by rewrite drop_0|].
  destruct (slotsBetween c lo hi) as [|s l] eqn:E; simpl.
  { by rewrite E. }
  rewrite slotsBetween_step in E. destruct (nextRun c lo) as [s'|]; [|done].
  destruct (s' <=? hi); simplify_eq. rewrite last_cons, <-IH.
  by destruct (last (take f (slotsBetween c s hi))).
Qed.

(** ** The bisection *)

Lemma bisect_step f c now lo hi :
  bisect (S f) c now lo hi =
    if 1 <? hi - lo then
      let mid := lo + (hi - lo) / 2 in
      match nextAtOrBefore c mid now with
      | Some _ => bisect f c now mid hi
      | None => bisect f c now lo mid
      end
    else lo.
Proof. cbn [bisect]. unfold nextAtOrBefore. cbv zeta. by repeat case_match. Qed.

(** It ends between the last instant with a slot to come and the next one. *)
Lemma bisect_spec f c now lo hi :
  Z.log2_up (hi - lo) ≤ Z.of_nat f → lo ≤ hi ≤ now →
  slotsBetween c lo now ≠ [] → slotsBetween c hi now = [] →
  let r := bisect f c now lo hi in
  lo ≤ r < now ∧ slotsBetween c r now ≠ [] ∧ slotsBetween c (r + 1) now = [].
Proof.
  revert lo hi. induction f as [|f IH]; intros lo hi Hf Hle Hlo Hhi; cbv zeta.
  - assert (hi - lo ≤ 1).
    { destruct (Z.le_gt_cases (hi - lo) 1) as [|H]; [done|].
      pose proof (Z.log2_up_pos (hi - lo) ltac:(lia)). lia. }
    assert (lo ≠ hi) by (intros ->; done). replace hi with (lo + 1) in * by lia. simpl.
    split_and!; done || lia.
  - rewrite bisect_step. destruct (Z.ltb_spec 1 (hi - lo)) as [H1|H1].
    + cbv zeta. set (mid := lo + (hi - lo) / 2).
      assert (Hmid : lo < mid < hi ∧ hi - mid ≤ (hi - lo + 1) / 2 ∧ mid - lo ≤ (hi - lo + 1) / 2).
      { unfold mid. pose proof (Z.div_mod (hi - lo) 2 ltac:(lia)).
        pose proof (Z.mod_pos_bound (hi - lo) 2 ltac:(lia)).
        pose proof (Z.div_mod (hi - lo + 1) 2 ltac:(lia)).
        pose proof (Z.mod_pos_bound (hi - lo + 1) 2 ltac:(lia)). lia. }
      assert (Hlog : ∀ d, 0 < d ≤ (hi - lo + 1) / 2 → Z.log2_up d ≤ Z.of_nat f).
      { intros d Hd. apply Z.log2_up_le_pow2; [lia|].
        apply Z.log2_up_le_pow2 in Hf; [|lia].
        rewrite Nat2Z.inj_succ, Z.pow_succ_r in Hf by lia.
        pose proof (Z.div_mod (hi - lo + 1) 2 ltac:(lia)).
        pose proof (Z.mod_pos_bound (hi - lo + 1) 2 ltac:(lia)). lia. }
      rewrite nextAtOrBefore_head. destruct (slotsBetween c mid now) as [|s l] eqn:Hn; simpl.
      * destruct (IH lo mid) as (? & ? & ?); [apply Hlog; lia|lia|done|done|].
        split_and!; done || lia.
      * destruct (IH mid hi) as (? & ? & ?); [apply Hlog; lia|lia|by rewrite Hn|done|].
        split_and!; done || lia.
    + assert (lo ≠ hi) by (intros ->; done). replace hi with (lo + 1) in * by lia.
      split_and!; done || lia.
Qed.

Lemma latestAtOrBefore_last c floor now :
  slotsBetween c floor now ≠ [] → latestAtOrBefore c floor now = last (slotsBetween c floor now).
Proof.
  intros Hne. assert (floor < now).
  { destruct (Z.lt_ge_cases floor now); [done|]. by rewrite slotsBetween_nil in Hne by lia. }
  unfold latestAtOrBefore.
  destruct (bisect_spec (Z.to_nat (Z.log2_up (now - floor))) c now floor now)
    as (Hr & Hr1 & Hr2); [| |done|by apply slotsBetween_nil|].
  { pose proof (Z.log2_up_nonneg (now - floor)). lia. }
  { lia. }
  set (r := bisect _ _ _ _ _) in *. rewrite nextAtOrBefore_head.
  rewrite (slotsBetween_app c floor r now) by lia.
  rewrite (slotsBetween_app c r (r + 1) now), Hr2, app_nil_r in * by lia.
  rewrite last_app. unfold slotsBetween in *. replace (r + 1 - r) with 1 in * by lia.
  rewrite seqZ_cons in * by lia. simpl in *. rewrite seqZ_nil in * by lia.
  rewrite filter_cons in *. by case_decide.
Qed.

(** ** The evaluation *)

Lemma is_Some_head {A} (l : list A) : is_Some (head l) ↔ l ≠ [].
Proof. destruct l; simpl; split; intros H; [by destruct H|done|done|eauto]. Qed.

Lemma last_app_ne {A} (l k : list A) : k ≠ [] → last (l ++ k) = last k.
Proof. intros H. rewrite last_app. destruct (last k) eqn:E; [done|]. by apply last_None in E. Qed.

(** what one evaluation answers, whatever the cap *)
Lemma evaluate_slots e c lo now cu :
  newCron e = Ok c →
  evaluateMissedFires e lo now cu =
    (fire ← catchUpTime (last (slotsBetween c lo now)) now cu;
     Ok (missedOf (slotsBetween c lo now) fire)).
Proof.
  intros Hc. unfold evaluateMissedFires. destruct (Z.leb_spec now lo) as [Hle|Hlt].
  { rewrite slotsBetween_nil by lia. done. }
  rewrite Hc. cbn [mbind result_bind]. rewrite missedLoop_spec. cbv zeta. unfold missedOf.
  assert (Hcap : (0 < MISSED_FIRE_COUNT_CAP)%nat) by (vm_compute; lia).
  generalize dependent MISSED_FIRE_COUNT_CAP. intros n Hn.
  pose proof (slotsBetween_drop c lo now n) as Hdrop.
  pose proof (latestAtOrBefore_last c (default lo (last (take n (slotsBetween c lo now)))) now) as Hlast.
  rewrite nextAtOrBefore_head, Hdrop. rewrite Hdrop in Hlast. clear Hdrop.
  set (slots := slotsBetween c lo now) in *. clearbody slots.
  rewrite length_take, Nat.min_comm, Z.add_0_l.
  destruct (decide (n < length slots)%nat) as [Hlt'|Hge].
  - rewrite (bool_decide_true (is_Some _)), (bool_decide_true (n < _)%nat); [|done|].
    2:{ apply is_Some_head. intros E%(f_equal length). rewrite length_drop in E. simpl in E. lia. }
    rewrite Nat.min_r by lia. rewrite (proj2 (Z.eqb_neq _ _)), Z.eqb_refl by lia. cbn [andb].
    rewrite Hlast.
    2:{ intros E%(f_equal length). rewrite length_drop in E. simpl in E. lia. }
    assert (El : last slots = last (drop n slots)).
    { rewrite <-(take_drop n slots) at 1. apply last_app_ne.
      intros E%(f_equal length). rewrite length_drop in E. simpl in E. lia. }
    assert (Eh : head (take n slots) = head slots).
    { destruct slots; [by rewrite take_nil|]. destruct n; [lia|done]. }
    rewrite El, Eh. destruct (last (drop n slots)) eqn:E; [done|].
    apply last_None, (f_equal length) in E. rewrite length_drop in E. simpl in E. lia.
  - rewrite (drop_ge slots n), (take_ge slots n) by lia. cbn [head].
    rewrite (bool_decide_false (is_Some None)) by (by intros [? ?]).
    rewrite (bool_decide_false (n < _)%nat) by lia. rewrite andb_false_r, Nat.min_l by lia.
    destruct slots as [|s l]; [done|]. rewrite (proj2 (Z.eqb_neq _ _)) by (simpl; lia).
    by destruct (last (s :: l)).
Qed.

Lemma slots_around c lo recorded now :
  lo < recorded ≤ now →
  filter (.≠ recorded) (slotsBetween c lo now) =
    slotsBetween c lo (recorded - 1) ++ slotsBetween c recorded now.
Proof.
  intros H. rewrite (slotsBetween_app c lo (recorded - 1) now),
    (slotsBetween_app c (recorded - 1) recorded now) by lia.
  rewrite !filter_app, (app_assoc _ _ (filter _ (slotsBetween c recorded now))).
  assert (Hall : ∀ a b, b < recorded ∨ recorded ≤ a →
    filter (.≠ recorded) (slotsBetween c a b) = slotsBetween c a b).
  { intros a b Hab. apply filter_keeps_all. apply Forall_forall.
    intros s [_ Hs]%elem_of_slotsBetween. lia. }
  rewrite (Hall lo), (Hall recorded) by lia. f_equal.
  rewrite (nil_of_no_elem (filter _ (slotsBetween c (recorded - 1) recorded))), app_nil_r; [done|].
  intros s. rewrite list_elem_of_filter, elem_of_slotsBetween. lia.
Qed.

Lemma around_slots e c lo recorded now cu :
  newCron e = Ok c → lo < recorded ≤ now →
  missedAroundRecordedSlot e lo recorded now cu =
    (fire ← catchUpTime (last (slotsBetween c recorded now)) now cu;
     Ok (missedOf (filter (.≠ recorded) (slotsBetween c lo now)) fire)).
Proof.
  intros Hc H. unfold missedAroundRecordedSlot.
  rewrite !(evaluate_slots e c) by done. rewrite slots_around by done.
  set (gap := slotsBetween c lo (recorded - 1)). set (after := slotsBetween c recorded now).
  destruct (catchUpTime (last after) now cu) as [fire|err] eqn:Ef; cycle 1.
  { unfold catchUpTime at 1. cbn [mbind result_bind].
    destruct (last gap); [|done]. done. }
  assert (En : ∀ l, catchUpTime l (recorded - 1) None = Ok None) by (by intros [?|]).
  rewrite En. cbn [mbind result_bind missedOf missedCount saturated oldestMissed latestMissed
    catchUpFireTime]. f_equal. unfold missedOf. rewrite length_app. f_equal.
  - lia.
  - apply eq_true_iff_eq. rewrite !orb_true_iff, !bool_decide_eq_true, Z.ltb_lt. lia.
  - by destruct gap.
  - rewrite last_app. by destruct (last after).
Qed.

(** the policy the schema accepts always decides *)
Lemma accepted_policy_decides cu latest now :
  ScheduleCatchUpSchema cu = None →
  ∃ fire, catchUpTime latest now (Some cu) = Ok fire.
Proof.
  destruct cu as [[|] [d|]]; unfold ScheduleCatchUpSchema; cbn [policy maxDelay]; intros H;
    unfold catchUpTime; destruct latest as [l|]; eauto.
  case_bool_decide; [eauto|]. unfold maxDelayIssue in H.
  destruct (parseDataDuration d); [cbn [mbind result_bind]; eauto|done].
Qed.

(** the slot to fire is the latest missed one, within the delay *)
Lemma catchUpTime_inv latest now cu s :
  catchUpTime latest now cu = Ok (Some s) →
  latest = Some s ∧ ∃ d ms, cu = Some (mkScheduleCatchUp PolicyLatest (Some d)) ∧
    parseDataDuration d = Ok ms ∧ now - s ≤ ms.
Proof.
  unfold catchUpTime. destruct latest as [l|]; [|done].
  destruct cu as [[[|] [d|]]|]; try done. case_bool_decide; [done|].
  destruct (parseDataDuration d) as [ms|] eqn:Ed; cbn [mbind result_bind]; [|done].
  destruct (Z.leb_spec (now - l) ms); [|done]. intros [= ->]. eauto 10.
Qed.

(** C14: The fires missed since the watermark are exactly the slots of the
    schedule after it and up to now: the count is their number, capped, and
    [saturated] tells when it was; the oldest and the latest are the first and
    the last of them, the latest also when the count stopped at the cap and the
    slot was found by bisection. Around a slot that a run recorded, they are the
    slots other than that one, and only those after it can be caught up. *)
Theorem missed_fires_are_the_slots e c lo now cu :
  newCron e = Ok c →
  evaluateMissedFires e lo now cu =
    (fire ← catchUpTime (last (slotsBetween c lo now)) now cu;
     Ok (missedOf (slotsBetween c lo now) fire)) ∧
  ∀ recorded, lo < recorded ≤ now →
    missedAroundRecordedSlot e lo recorded now cu =
      (fire ← catchUpTime (last (slotsBetween c recorded now)) now cu;
       Ok (missedOf (filter (.≠ recorded) (slotsBetween c lo now)) fire)).
Proof. intros Hc. split; [by apply evaluate_slots|]. intros r Hr. by apply around_slots. Qed.
End Slots.

(** ** Recorded slots *)

Section Recorded.
Context (dateParse : string → option Z) (scheduler : string).

(** the slots that runs of the scheduler record *)
Definition recordedSlot (run : RunTags) : option Z :=
  if bool_decide (initiatedBy run = Some scheduler)
  then dateParse (default "" (tags run !! SCHEDULED_FOR_TAG)) else None.

Definition maxSlot (a b : option Z) : option Z := union_with (λ x y, Some (Z.max x y)) a b.

Lemma latestStep_max l run : latestStep dateParse scheduler l run = maxSlot l (recordedSlot run).
Proof.
  unfold latestStep, recordedSlot, maxSlot. case_bool_decide; simpl; [|by destruct l].
  destruct (dateParse _), l as [x|]; simpl; try done.
  destruct (Z.ltb_spec x z); f_equal; lia.
Qed.

(** the walk over runs listed latest slot first finds the latest slot in time *)
Lemma first_is_latest runs notAfter :
  StronglySorted (λ a b, b ≤ a) (omap recordedSlot runs) →
  firstRecordedSlot dateParse scheduler runs notAfter =
    head (filter (λ s, s ≤ notAfter) (omap recordedSlot runs)).
Proof.
  induction runs as [|run runs IH]; simpl; [done|]. intros Hs.
  unfold latestRecordedSlot. simpl. rewrite latestStep_max. unfold maxSlot.
  destruct (recordedSlot run) as [s|] eqn:E; simpl in *; [|by apply IH].
  apply StronglySorted_inv in Hs as [Hs _]. rewrite filter_cons.
  destruct (Z.leb_spec s notAfter); [by rewrite decide_True|].
  rewrite decide_False by lia. by apply IH.
Qed.

(** the latest recorded slot is recorded by a run of the scheduler, and none is later *)
Lemma latestRecordedSlot_spec runs :
  match latestRecordedSlot dateParse scheduler runs with
  | Some s => s ∈ omap recordedSlot runs ∧ ∀ s', s' ∈ omap recordedSlot runs → s' ≤ s
  | None => omap recordedSlot runs = []
  end.
Proof.
  unfold latestRecordedSlot. induction runs as [|run runs IH] using rev_ind; [done|].
  rewrite foldl_app, omap_app. simpl. rewrite latestStep_max. unfold maxSlot.
  destruct (foldl _ None runs) as [l|], (recordedSlot run) as [s|]; simpl in *.
  - destruct IH as [Hl Hmax]. split.
    + destruct (Z.max_spec l s) as [[_ ->]|[_ ->]]; set_solver.
    + intros s' [H|H]%elem_of_app; [specialize (Hmax _ H); lia|].
      apply list_elem_of_singleton in H as ->. lia.
  - by rewrite app_nil_r.
  - rewrite IH. simpl. split; [set_solver|]. intros s' ->%list_elem_of_singleton. lia.
  - by rewrite IH.
Qed.
End Recorded.
End CatchUpProps.

Module StateProps.
Import State.

(** ** Reports under any order of writers *)

(** the report a sequence of writers leaves *)
Definition mergeAll (reports : list MissedFire) : option MissedFire :=
  foldl (λ k g, mergeMissed k (Some g)) None reports.

Definition cap : Z := Z.of_nat CatchUp.MISSED_FIRE_COUNT_CAP.

(** it is for the latest slot reported, and says caught up exactly when some
    writer said so of that slot *)
Definition latest_report (reports : list MissedFire) (m : MissedFire) : Prop :=
  (∃ r, r ∈ reports ∧ fireTime r = fireTime m) ∧
  (∀ r, r ∈ reports → fireTime r ≤ fireTime m) ∧
  (caughtUp m = true ↔ ∃ r, r ∈ reports ∧ fireTime r = fireTime m ∧ caughtUp r = true).

Lemma mergeMissed_fields c g :
  ∃ m, mergeMissed (Some c) (Some g) = Some m ∧
    fireTime m = Z.max (fireTime c) (fireTime g) ∧
    caughtUp m = (if fireTime g <? fireTime c then caughtUp c
                  else if fireTime c <? fireTime g then caughtUp g
                  else caughtUp c || caughtUp g) ∧
    (0 < count c → 0 < count g → 0 < count m) ∧
    (count c ≤ cap → count g ≤ cap → count m ≤ cap).
Proof.
  unfold mergeMissed. assert (Hcap : 0 < cap) by (vm_compute; done). unfold cap in *.
  generalize dependent (Z.of_nat CatchUp.MISSED_FIRE_COUNT_CAP). intros k Hk.
  destruct (Z.ltb_spec (fireTime g) (fireTime c)) as [H1|H1].
  { eexists. split_and!; [done|lia|done|done|done]. }
  destruct (Z.eqb_spec (fireTime c) (fireTime g)) as [H2|H2]; cbn [andb orb].
  - rewrite (proj2 (Z.ltb_ge (fireTime c) (fireTime g))) by lia.
    destruct (caughtUp c) eqn:Ec, (caughtUp g) eqn:Eg; cbn [andb negb orb];
      eexists; split_and!; (done || lia || by rewrite ?Ec, ?Eg).
  - rewrite (proj2 (Z.ltb_lt (fireTime c) (fireTime g))) by lia.
    destruct (negb _ || caughtUp c || caughtUp g) eqn:E.
    { eexists. split_and!; [done|lia|done|done|done]. }
    eexists. split; [done|]. apply orb_false_iff in E as [_ Eg].
    destruct (_ || _ || _); simpl; split_and!; done || lia.
Qed.

Lemma merge_latest_report k reports g :
  latest_report reports k →
  ∃ m, mergeMissed (Some k) (Some g) = Some m ∧ latest_report (reports ++ [g]) m.
Proof.
  intros ((r & Hr & Er) & Hmax & Hcu).
  destruct (mergeMissed_fields k g) as (m & Hm & Ht & Hc & _). exists m. split; [done|].
  assert (Hin : ∀ x, x ∈ reports ++ [g] ↔ x ∈ reports ∨ x = g) by set_solver.
  split_and!.
  - destruct (Z.max_spec (fireTime k) (fireTime g)) as [[_ E]|[_ E]]; rewrite Ht, E.
    + exists g. set_solver.
    + exists r. set_solver.
  - intros x [Hx| ->]%Hin; [specialize (Hmax _ Hx)|]; lia.
  - rewrite Hc, Ht. destruct (Z.ltb_spec (fireTime g) (fireTime k)); [|
      destruct (Z.ltb_spec (fireTime k) (fireTime g))].
    + rewrite Hcu, Z.max_l by lia. split; intros (x & Hx & Ex & Cx); exists x.
      * set_solver.
      * apply Hin in Hx as [Hx| ->]; [done|lia].
    + rewrite Z.max_r by lia. split; [intros Cg; exists g; set_solver|].
      intros (x & [Hx| ->]%Hin & Ex & Cx); [|done]. specialize (Hmax _ Hx). lia.
    + rewrite orb_true_iff, Hcu, Z.max_l by lia. split.
      * intros [(x & Hx & Ex & Cx)|Cg]; [exists x; set_solver|exists g].
        split_and!; [set_solver|lia|done].
      * intros (x & [Hx| ->]%Hin & Ex & Cx); [left|by right]. eauto.
Qed.

Lemma mergeAll_None reports : mergeAll reports = None → reports = [].
Proof.
  destruct reports as [|x l] using rev_ind; [done|]. unfold mergeAll. rewrite foldl_app.
  cbn [foldl]. destruct (foldl _ None l) as [k|]; [|done].
  by destruct (mergeMissed_fields k x) as (? & -> & _).
Qed.

Lemma mergeAll_latest reports m : mergeAll reports = Some m → latest_report reports m.
Proof.
  unfold mergeAll. revert m. induction reports as [|g reports IH] using rev_ind; [done|].
  intros m. rewrite foldl_app. cbn [foldl]. destruct (foldl _ None reports) as [k|] eqn:E.
  - destruct (merge_latest_report k reports g) as (m' & -> & Hm'); [by apply IH|].
    intros [= <-]. done.
  - intros [= <-]. apply mergeAll_None in E as ->.
    split_and!; [exists g; set_solver| |].
    + intros r ->%list_elem_of_singleton. done.
    + split; [exists g; set_solver|]. by intros (r & ->%list_elem_of_singleton & _ & ?).
Qed.

Lemma latest_report_unique l l' m m' :
  l ≡ₚ l' → latest_report l m → latest_report l' m' →
  fireTime m = fireTime m' ∧ caughtUp m = caughtUp m'.
Proof.
  intros Hp ((r & Hr & Er) & Hmax & Hc) ((r' & Hr' & Er') & Hmax' & Hc').
  assert (Hin : ∀ x, x ∈ l ↔ x ∈ l') by (intros x; by rewrite Hp).
  assert (Ht : fireTime m = fireTime m').
  { pose proof (Hmax' r (proj1 (Hin _) Hr)). pose proof (Hmax r' (proj2 (Hin _) Hr')). lia. }
  split; [done|]. apply eq_true_iff_eq. rewrite Hc, Hc'. setoid_rewrite Hin. by rewrite Ht.
Qed.

(** ** Writes of a schedule's record *)

(** one settled slot, as a writer reports it *)
Record Write := mkWrite {
  writeName : string;
  writeAt : Z;
  writeOptions : ScheduleStateAdvance;
}.

Definition advanceAll (id : string) (st : option ScheduleState) (ws : list Write) :
    option ScheduleState :=
  foldl (λ cur w, Some (advanceScheduleState cur id (writeName w) (writeAt w) (writeOptions w))) st ws.

Definition watermarks (st : option ScheduleState) : list Z :=
  option_list (lastEvaluatedFireTime <$> st).

Lemma advance_watermark st id name at_ o :
  lastEvaluatedFireTime (advanceScheduleState st id name at_ o) = foldr Z.max at_ (watermarks st).
Proof.
  unfold advanceScheduleState, watermarks. destruct st as [st|]; simpl; [|done].
  destruct (Z.ltb_spec at_ (lastEvaluatedFireTime st)); lia.
Qed.

(** the watermark is the latest slot of the record and of the writes *)
Lemma advanceAll_watermark id st ws st' :
  advanceAll id st ws = Some st' →
  lastEvaluatedFireTime st' ∈ watermarks st ++ (writeAt <$> ws) ∧
  ∀ t, t ∈ watermarks st ++ (writeAt <$> ws) → t ≤ lastEvaluatedFireTime st'.
Proof.
  unfold advanceAll. revert st'. induction ws as [|w ws IH] using rev_ind; intros st'.
  { simpl. intros ->. unfold watermarks. simpl. split; [set_solver|].
    intros t ->%list_elem_of_singleton. done. }
  rewrite foldl_app, fmap_app, app_assoc. cbn [foldl]. intros [= <-].
  rewrite advance_watermark. destruct (foldl _ st ws) as [k|] eqn:E; simpl.
  - destruct (IH k eq_refl) as [Hin Hmax]. split.
    + destruct (Z.max_spec (lastEvaluatedFireTime k) (writeAt w)) as [[_ ->]|[_ ->]]; set_solver.
    + intros t [Ht| ->%list_elem_of_singleton]%elem_of_app; [specialize (Hmax _ Ht)|]; lia.
  - assert (st = None ∧ ws = []) as [-> ->].
    { clear IH. destruct ws as [|x l] using rev_ind; [done|]. by rewrite foldl_app in E. }
    simpl. split; [set_solver|]. intros t ->%list_elem_of_singleton. done.
Qed.

(** a record on expression [e], or none *)
Definition onExpression (e : string) (st : option ScheduleState) : Prop :=
  ∀ k, st = Some k → cronExpression k = Some e.

(** a write on expression [e] that starts no run *)
Definition reportsOn (e : string) (w : Write) : Prop :=
  advCronExpression (writeOptions w) = Some e ∧ advFired (writeOptions w) = false.

Lemma advance_reports e st id w :
  e ≠ "" → onExpression e st → reportsOn e w →
  let st' := advanceScheduleState st id (writeName w) (writeAt w) (writeOptions w) in
  cronExpression st' = Some e ∧
  lastMissed st' = mergeMissed (st ≫= lastMissed) (advLastMissed (writeOptions w)).
Proof.
  intros He Hst [Hc Hf]. unfold advanceScheduleState, keptMissed. cbv zeta.
  cbn [cronExpression lastMissed]. rewrite Hc, Hf. split.
  { rewrite bool_decide_false; [done|congruence]. }
  destruct st as [k|]; cbn [mbind option_bind andb].
  - rewrite (Hst k eq_refl), (bool_decide_true (Some e = Some e)) by done.
    cbn [negb]. rewrite andb_false_r. by destruct (lastMissed k).
  - by case_match.
Qed.

Definition reportsOf (st : option ScheduleState) (ws : list Write) : list MissedFire :=
  option_list (st ≫= lastMissed) ++ omap (λ w, advLastMissed (writeOptions w)) ws.

Lemma mergeAll_snoc l g : mergeAll (l ++ [g]) = mergeMissed (mergeAll l) (Some g).
Proof. unfold mergeAll. by rewrite foldl_app. Qed.

(** without a started run, the report kept is the merge of all reports *)
Lemma advanceAll_reports e id st ws :
  e ≠ "" → onExpression e st → Forall (reportsOn e) ws →
  onExpression e (advanceAll id st ws) ∧
  advanceAll id st ws ≫= lastMissed = mergeAll (reportsOf st ws).
Proof.
  intros He Hst. induction ws as [|w ws IH] using rev_ind; intros Hall.
  { split; [done|]. unfold reportsOf. simpl. rewrite app_nil_r.
    destruct st as [k|]; [|done]. simpl. by destruct (lastMissed k). }
  apply Forall_app in Hall as [Hall Hw]. rewrite Forall_singleton in Hw. destruct (IH Hall) as [Hon Hm].
  unfold advanceAll in *. rewrite foldl_app. cbn [foldl].
  destruct (advance_reports e _ id w He Hon Hw) as [Hc Hl]. split.
  { intros k [= <-]. done. }
  cbn [mbind option_bind]. cbv zeta in Hl. rewrite Hl, Hm. unfold reportsOf. rewrite omap_app, app_assoc. simpl.
  destruct (advLastMissed (writeOptions w)); simpl; [by rewrite mergeAll_snoc|by rewrite app_nil_r].
Qed.

End StateProps.

Module PassProps.
Import CatchUp CatchUpProps State StateProps Pass.

Section Pass.
Context {cron_lib : CronLib} {cron_laws : CronLaws}.
Context (e : string) (c : Cron) (Hc : newCron e = Ok c).

(** every slot up to [now] is at or before [t] *)
Definition coversSlots (now t : Z) : Prop := ∀ s, slot c s → s ≤ now → s ≤ t.

Lemma covers_nil now t : coversSlots now t → slotsBetween c t now = [].
Proof.
  intros H. apply nil_of_no_elem. intros s [Hs Hb]%elem_of_slotsBetween.
  specialize (H s Hs). lia.
Qed.

Lemma covers_mono now t t' : coversSlots now t → t ≤ t' → coversSlots now t'.
Proof. intros H Hle s Hs Hn. specialize (H s Hs Hn). lia. Qed.

Lemma last_covers lo now s :
  last (slotsBetween c lo now) = Some s →
  slot c s ∧ lo < s ≤ now ∧ coversSlots now s.
Proof.
  intros Hl. assert (Hs : s ∈ slotsBetween c lo now) by by apply last_Some_elem_of.
  apply elem_of_slotsBetween in Hs as [Hs Hb]. split_and!; [done|lia|lia|].
  assert (Hn : slotsBetween c s now = []).
  { destruct (slotsBetween c s now) as [|x l] eqn:E; [done|exfalso].
    rewrite (slotsBetween_app c lo s now), last_app_ne, E in Hl by (lia || by rewrite E).
    apply last_Some_elem_of in Hl. rewrite <-E in Hl. apply elem_of_slotsBetween in Hl. lia. }
  intros s' Hs' Hle. destruct (Z.le_gt_cases s' s) as [|Hgt]; [done|exfalso].
  assert (Hin : s' ∈ slotsBetween c s now) by (apply elem_of_slotsBetween; auto).
  rewrite Hn in Hin. set_solver.
Qed.

Lemma last_slots_None lo now : last (slotsBetween c lo now) = None → slotsBetween c lo now = [].
Proof. apply last_None. Qed.

(** a slot to fire, in time, that nothing settled *)
Definition safeFire (watermark : Z) (recorded : option Z) (now : Z)
    (catchUp : option ScheduleCatchUp) (s : Z) : Prop :=
  slot c s ∧ watermark < s ≤ now ∧ coversSlots now s ∧
  (∀ r, recorded = Some r → r ≤ now → r < s) ∧
  ∃ d ms, catchUp = Some (mkScheduleCatchUp PolicyLatest (Some d)) ∧
    parseDataDuration d = Ok ms ∧ now - s ≤ ms.

(** the slots a report is about, and the instant after which one may be fired,
    once the history settled a slot *)
Definition restOf (slots : list Z) (settled : option Z) : list Z :=
  match settled with Some r => filter (.≠ r) slots | None => slots end.

Lemma missedCount_zero slots fire : (missedCount (missedOf slots fire) =? 0) = bool_decide (slots = []).
Proof.
  unfold missedOf. cbn [missedCount]. assert (0 < MISSED_FIRE_COUNT_CAP)%nat by (vm_compute; lia).
  generalize dependent MISSED_FIRE_COUNT_CAP. intros n Hn. destruct slots as [|x l]; [done|].
  rewrite bool_decide_false by done. apply Z.eqb_neq. cbn [length]. lia.
Qed.

(** what the pass decides, in terms of the slots since the watermark *)
Lemma catchUpSchedule_inv st recorded now cu action :
  State.cronExpression st = Some e →
  catchUpSchedule e (Some st) recorded now cu = Ok action →
  let wm := lastEvaluatedFireTime st in
  let slots := slotsBetween c wm now in
  (action = NothingMissed ∧ slots = []) ∨
  slots ≠ [] ∧ ∃ settled fire,
    (settled = None ∧ ((∀ r, recorded = Some r → r ≤ now → r ≤ wm) ∨ fire = None) ∨
     ∃ r, recorded = Some r ∧ settled = Some r ∧ wm < r ≤ now) ∧
    catchUpTime (last (slotsBetween c (default wm settled) now)) now cu = Ok fire ∧
    match fire with
    | Some s => action = Fire s (missedOf (restOf slots settled) fire)
    | None => ∃ late, action = Report (missedOf (restOf slots settled) fire) settled late
    end.
Proof.
  intros He. unfold catchUpSchedule. rewrite He, bool_decide_true by done. cbn [negb].
  rewrite (evaluate_slots e c) by done. cbv zeta.
  set (wm := lastEvaluatedFireTime st). set (slots := slotsBetween c wm now).
  destruct (catchUpTime (last slots) now cu) as [fire|] eqn:Ef; cbn [mbind result_bind]; [|done].
  rewrite missedCount_zero. case_bool_decide as Hslots; [by intros [= <-]; left|].
  intros H. right. split; [done|]. cbn [missedOf catchUpFireTime] in H.
  destruct fire as [s|]; [destruct recorded as [r|]|]; cbn [mbind result_bind missedOf catchUpFireTime] in H.
  - destruct (Z.ltb_spec wm r) as [Hr|Hr], (Z.leb_spec r now) as [Hr'|Hr']; cbn [andb] in H.
    1:{ rewrite (around_slots e c) in H by done. exists (Some r). cbn [default restOf].
        destruct (catchUpTime _ now cu) as [fire|] eqn:Ef' in H; cbn [mbind result_bind] in H; [|done].
        cbn [missedOf catchUpFireTime] in H. exists fire. split; [right; eauto|]. split; [done|].
        destruct fire; simplify_eq; eauto. }
    all: exists None, (Some s); cbn [mbind result_bind missedOf catchUpFireTime] in H; simplify_eq;
      split_and!; [left; split; [done|left; intros ? Hsome Hle; simplify_eq; lia]|done|done].
  - exists None, (Some s). simplify_eq. split_and!; [left; split; [done|left; intros ? [=]]|done|done].
  - exists None, None. simplify_eq. split_and!; [left; eauto|done|eauto].
Qed.

(** ** What a write settles *)

(** after the write, the pass finds nothing missed at [now], whatever the policy
    and the history say *)
Definition settles (id : string) (st : ScheduleState) (now : Z) (req : StateWriteRequest) : Prop :=
  ∃ st', (applyRequest id (Some e) (Some st) req).1 = Some st' ∧
    lastEvaluatedFireTime st ≤ lastEvaluatedFireTime st' ∧
    ∀ recorded cu, catchUpSchedule e (Some st') recorded now cu = Ok NothingMissed.

Lemma nothing_missed st recorded now cu :
  State.cronExpression st = Some e → coversSlots now (lastEvaluatedFireTime st) →
  catchUpSchedule e (Some st) recorded now cu = Ok NothingMissed.
Proof.
  intros He Hcov. unfold catchUpSchedule. rewrite He, bool_decide_true by done. cbn [negb].
  rewrite (evaluate_slots e c), (covers_nil _ _ Hcov) by done. done.
Qed.

Lemma advance_settles id name st now at_ lm fired :
  e ≠ "" → coversSlots now (Z.max (lastEvaluatedFireTime st) at_) →
  let st' := advanceScheduleState (Some st) id name at_ (mkScheduleStateAdvance lm (Some e) fired) in
  lastEvaluatedFireTime st ≤ lastEvaluatedFireTime st' ∧
  ∀ recorded cu, catchUpSchedule e (Some st') recorded now cu = Ok NothingMissed.
Proof.
  intros Hne Hcov st'.
  assert (Hw : lastEvaluatedFireTime st' = Z.max (lastEvaluatedFireTime st) at_).
  { unfold st'. by rewrite advance_watermark. }
  split; [lia|]. intros recorded cu. apply nothing_missed; [|by rewrite Hw].
  unfold st', advanceScheduleState. cbn [State.cronExpression advCronExpression].
  rewrite bool_decide_false; [done|congruence].
Qed.

Lemma request_settles id st now req :
  e ≠ "" → State.cronExpression st = Some e →
  coversSlots now (Z.max (lastEvaluatedFireTime st) (reqFireTime req)) →
  settles id st now req.
Proof.
  intros Hne He Hcov. unfold settles, applyRequest.
  destruct (wUnlessSettled (reqOptions req)); cbn [andb];
    [destruct (Z.leb_spec (reqFireTime req) (lastEvaluatedFireTime st)) as [Hle|Hgt]|];
    cbn [fst].
  - exists st. split_and!; [done|lia|]. intros recorded cu. apply nothing_missed; [done|].
    by rewrite Z.max_l in Hcov by lia.
  - eexists. split; [done|]. by apply advance_settles.
  - eexists. split; [done|]. by apply advance_settles.
Qed.

Lemma nil_covers lo now : slotsBetween c lo now = [] → coversSlots now lo.
Proof.
  intros Hn s Hs Hle. destruct (Z.le_gt_cases s lo) as [|Hgt]; [done|exfalso].
  assert (Hin : s ∈ slotsBetween c lo now) by (apply elem_of_slotsBetween; auto).
  rewrite Hn in Hin. set_solver.
Qed.

Lemma report_settles id name st now fire settled :
  e ≠ "" → State.cronExpression st = Some e →
  slotsBetween c (lastEvaluatedFireTime st) now ≠ [] →
  (settled = None ∨ ∃ r, settled = Some r ∧ lastEvaluatedFireTime st < r ≤ now) →
  ∃ req, recordMissed name
      (missedOf (restOf (slotsBetween c (lastEvaluatedFireTime st) now) settled) fire)
      now settled false = Some req ∧ settles id st now req.
Proof.
  intros Hne He Hslots Hset. set (wm := lastEvaluatedFireTime st) in *.
  destruct (last (slotsBetween c wm now)) as [l|] eqn:El; [|by apply last_None in El].
  destruct (last_covers _ _ _ El) as (Hs & Hb & Hcov).
  unfold recordMissed. destruct Hset as [->|(r & -> & Hr)]; cbn [restOf missedOf latestMissed].
  - rewrite El. eexists. split; [done|]. apply request_settles; [done..|]. cbn. eapply covers_mono; [done|lia].
  - rewrite slots_around by done.
    destruct (last (slotsBetween c r now)) as [l'|] eqn:El'.
    + destruct (last_covers _ _ _ El') as (_ & Hb' & Hcov'). rewrite last_app, El'.
      rewrite (proj2 (Z.ltb_ge l' r)) by lia. eexists. split; [done|].
      apply request_settles; [done..|]. cbn. eapply covers_mono; [done|lia].
    + rewrite last_app, El'. apply last_None, nil_covers in El'.
      assert (Hgap : ∀ x, last (slotsBetween c wm (r - 1)) = Some x → x < r).
      { intros x (_ & ? & _)%last_covers. lia. }
      destruct (last (slotsBetween c wm (r - 1))) as [x|].
      * rewrite (proj2 (Z.ltb_lt x r)) by by apply Hgap.
        eexists. split; [done|]. apply request_settles; [done..|]. cbn. eapply covers_mono; [done|lia].
      * eexists. split; [done|]. apply request_settles; [done..|]. cbn. eapply covers_mono; [done|lia].
Qed.

Lemma catchUpSchedule_total st recorded now cu :
  State.cronExpression st = Some e →
  (∀ p, cu = Some p → ScheduleCatchUpSchema p = None) →
  ∃ action, catchUpSchedule e (Some st) recorded now cu = Ok action.
Proof.
  intros He Hok.
  assert (Hfire : ∀ l, ∃ fire, catchUpTime l now cu = Ok fire).
  { intros l. destruct cu as [p|]; [by apply accepted_policy_decides, Hok|].
    destruct l; by eexists. }
  unfold catchUpSchedule. rewrite He, bool_decide_true by done. cbn [negb].
  rewrite (evaluate_slots e c) by done.
  destruct (Hfire (last (slotsBetween c (lastEvaluatedFireTime st) now))) as [fire ->].
  cbn [mbind result_bind]. destruct (_ =? 0); [eauto|]. cbn [missedOf catchUpFireTime].
  destruct fire as [s|]; [destruct recorded as [r|]|]; cbn [mbind result_bind]; try by eauto.
  destruct (Z.ltb_spec (lastEvaluatedFireTime st) r), (Z.leb_spec r now); cbn [andb mbind result_bind];
    try by eauto.
  rewrite (around_slots e c) by done. destruct (Hfire (last (slotsBetween c r now))) as [fire' ->].
  cbn [mbind result_bind missedOf catchUpFireTime]. destruct fire'; eauto.
Qed.

(** C21: When the pass at startup fires a slot, it is a slot of the schedule
    after the watermark and not after now, the latest one there is, within the
    delay of a policy that asks for it, and later than any slot up to now that
    a run recorded: no slot is run twice, and no stale one at all. *)
Theorem catch_up_fires_safely st recorded now cu s m :
  catchUpSchedule e (Some st) recorded now cu = Ok (Fire s m) →
  safeFire (lastEvaluatedFireTime st) recorded now cu s.
Proof.
  intros H. assert (He : State.cronExpression st = Some e).
  { unfold catchUpSchedule in H. by case_bool_decide. }
  destruct (catchUpSchedule_inv _ _ _ _ _ He H) as [[? _]|(_ & settled & fire & Hset & Hf & Ha)]; [done|].
  destruct fire as [s'|]; [|by destruct Ha]. injection Ha as <- _.
  apply catchUpTime_inv in Hf as (Hl & Hcu). apply last_covers in Hl as (Hs & Hb & Hcov).
  destruct Hset as [[-> [Hr|[=]]]|(r & -> & -> & Hr)]; cbn in Hb; split_and!; try done; try lia.
  - intros r Er Hle. specialize (Hr r Er Hle). lia.
  - intros r' [= <-] _. lia.
Qed.

(** C22: For a schedule whose record is on its expression, the pass decides
    whatever the cron package answers for a policy the schema accepts, and
    nothing it saw stays open: the write of its report, or any write that
    settles the slot it fires, moves the watermark past every slot up to now,
    so the next pass at that time finds nothing missed. *)
Theorem catch_up_settles id name st recorded now cu :
  e ≠ "" → State.cronExpression st = Some e →
  (∀ p, cu = Some p → ScheduleCatchUpSchema p = None) →
  ∃ action, catchUpSchedule e (Some st) recorded now cu = Ok action ∧
    match action with
    | StartAfresh => False
    | NothingMissed => coversSlots now (lastEvaluatedFireTime st)
    | Report m settled _ =>
        ∃ req, recordMissed name m now settled false = Some req ∧ settles id st now req
    | Fire s _ => ∀ req, reqFireTime req = s → settles id st now req
    end.
Proof.
  intros Hne He Hok. destruct (catchUpSchedule_total st recorded now cu He Hok) as [action H].
  exists action. split; [done|].
  destruct (catchUpSchedule_inv _ _ _ _ _ He H)
    as [[-> Hnil]|(Hslots & settled & fire & Hset & Hf & Ha)].
  { by apply nil_covers. }
  destruct fire as [s|].
  - subst action. intros req <-. apply request_settles; [done..|].
    apply catchUpTime_inv in Hf as [(_ & ? & Hcov)%last_covers _]. eapply covers_mono; [done|lia].
  - destruct Ha as [late ->]. apply report_settles; [done..|].
    destruct Hset as [[-> _]|(r & _ & -> & Hr)]; eauto.
Qed.
End Pass.
End PassProps.

(** ** Schedules of a fixed period, on which the theorems are applied *)
Module Periodic.
Import CatchUp CatchUpProps State StateProps Pass PassProps.

#[local] Instance periodic : CronLib := {|
  Cron := Z;
  newCron s := if bool_decide (s = "* * * * * *") then Ok 1000
               else if bool_decide (s = "0 * * * *") then Ok 3600000
               else Throw "CronPattern: invalid configuration format";
  nextRun p t := if 0 <? p then Some ((t / p + 1) * p) else None;
|}.

#[local] Instance periodic_laws : CronLaws.
Proof.
  assert (H : ∀ c t s, nextRun c t = Some s → 0 < c ∧ s = (t / c + 1) * c ∧ t < s ≤ t + c).
  { intros c t s. cbn. destruct (Z.ltb_spec 0 c) as [Hc|]; [|done]. intros [= <-].
    pose proof (Z.div_mod t c ltac:(lia)). pose proof (Z.mod_pos_bound t c Hc). nia. }
  split.
  - intros c t s (_ & _ & ?)%H. lia.
  - intros c t u s (Hc & -> & Hs)%H Hu. cbn. rewrite (proj2 (Z.ltb_lt 0 c)) by done.
    do 3 f_equal. symmetry. apply Z.div_unique with (u - t / c * c); [|lia].
    pose proof (Z.div_mod t c ltac:(lia)). pose proof (Z.mod_pos_bound t c Hc). left. nia.
  - intros c t u. cbn. by destruct (0 <? c).
Qed.

Definition hourly : string := "0 * * * *".
Definition secondly : string := "* * * * * *".
Definition within (d : string) : option ScheduleCatchUp := Some (mkScheduleCatchUp PolicyLatest (Some d)).

(** more slots than the cap: the count saturates and the latest is bisected *)
Example saturated_latest :
  evaluateMissedFires secondly 0 5000500 (within "1h") =
    Ok (mkMissedFires 1000 true (Some 1000) (Some 5000000) (Some 5000000)).
Proof. vm_compute. reflexivity. Qed.

Lemma missed_fires_are_the_slots_witness :
  @newCron periodic secondly = Ok 1000 ∧
  evaluateMissedFires secondly 1500 4200 (within "1m") =
    Ok (mkMissedFires 3 false (Some 2000) (Some 4000) (Some 4000)) ∧
  missedAroundRecordedSlot secondly 1500 3000 4200 (within "1m") =
    Ok (mkMissedFires 2 false (Some 2000) (Some 4000) (Some 4000)).
Proof.
  split; [reflexivity|].
  destruct (missed_fires_are_the_slots (cron_lib := periodic) secondly 1000 1500 4200 (within "1m") eq_refl) as [H1 H2].
  split.
  - rewrite H1. vm_compute. reflexivity.
  - rewrite (H2 3000) by lia. vm_compute. reflexivity.
Defined.

Definition missedAt (t : Z) (cu : bool) : MissedFire := mkMissedFire t 1 None ServeDown cu 9000.

Definition writeOf (t : Z) (cu : bool) : Write :=
  mkWrite "nightly" t (mkScheduleStateAdvance (Some (missedAt t cu)) (Some hourly) false).


Definition stored : ScheduleState := mkScheduleState "wf" "nightly" 3600000 (Some hourly) None.

Lemma catch_up_fires_safely_witness :
  safeFire (cron_lib := periodic) 3600000 3600000 (Some 7200000) 11000000 (within "6h") 10800000.
Proof.
  apply (catch_up_fires_safely (cron_lib := periodic) hourly 3600000 eq_refl stored (Some 7200000) 11000000 (within "6h")
    10800000 (mkMissedFires 1 false (Some 10800000) (Some 10800000) (Some 10800000))).
  vm_compute. reflexivity.
Defined.

Lemma catch_up_settles_witness :
  settles hourly "wf" stored 11000000
    (mkRequest "nightly" 10800000 (mkWriteOptions None true false)).
Proof.
  destruct (catch_up_settles (cron_lib := periodic) hourly 3600000 eq_refl "wf" "nightly" stored (Some 7200000) 11000000
    (within "6h")) as (action & Ha & H); [discriminate|reflexivity| |].
  { intros p [= <-]. vm_compute. reflexivity. }
  assert (E : action = Fire 10800000
    (mkMissedFires 1 false (Some 10800000) (Some 10800000) (Some 10800000))).
  { vm_compute in Ha. by injection Ha as <-. }
  rewrite E in H. by apply H.
Defined.
End Periodic.
