(* ===== verification/StepRun.v ===== *)
(** * Step runs

    The [StepRun] class of [src/src/domain/workflows/workflow_run.ts], the
    links to nested runs of [nested_run_ref.ts] and the stored form of both.
    Every method of the class is a function from the step run, and the time it
    reads the clock, to the step run it leaves. What the class uses of signal
    waits ([signal_wait.ts]) is the interface [SignalWaits]; the check that a
    string is a UUID belongs to the schema library and is the parameter
    [isUuid]. *)

From Stdlib Require Import Ascii.
From S2P Require Import Prelude JsString TriggerCondition.

(** ** Interfaces *)

(** what a run record uses of a signal wait *)
Class SignalWaits := {
  SignalWait : Type;
  SignalReceipt : Type;
  wait_id : SignalWait → string;
  wait_deadline : SignalWait → Z;
  (** the payload as kept, or [None] when it is not valid *)
  validatePayload : SignalWait → JsValue → option JsValue;
  settledWith : SignalWait → SignalReceipt → SignalWait;
  receipt_waitId : SignalReceipt → string;
  (** [receiptForCaller] as it is written into the output *)
  receiptForCaller : SignalReceipt → JsValue;
  wait_toData : SignalWait → JsValue;
  (** [SignalWaitSchema.safeParse] and [SignalWait.fromData] *)
  wait_parse : JsValue → option SignalWait;
}.

(** what it relies on: a stored wait is read back as it was *)
Class SignalWaitLaws `{SignalWaits} : Prop := {
  wait_roundtrip (w : SignalWait) : wait_parse (wait_toData w) = Some w;
}.

(** a small implementation: a wait is its id and deadline, and takes any object *)
Module SampleWaits.

Definition toData (w : string * Z) : JsValue :=
  VObj [("waitId", VStr w.1); ("deadline", VNum w.2)].

Definition parse (raw : JsValue) : option (string * Z) :=
  match raw with
  | VObj [("waitId", VStr id); ("deadline", VNum d)] => Some (id, d)
  | _ => None
  end.

Definition sampleWaits : SignalWaits := {|
  SignalWait := string * Z;
  SignalReceipt := string;
  wait_id := fst;
  wait_deadline := snd;
  validatePayload _ v := match v with VObj _ => Some v | _ => None end;
  settledWith w _ := w;
  receipt_waitId r := r;
  receiptForCaller := VStr;
  wait_toData := toData;
  wait_parse := parse;
|}.

Lemma sampleWaitLaws : @SignalWaitLaws sampleWaits.
Proof. constructor. by intros [id d]. Qed.

End SampleWaits.

Module RunLink.

Definition MAX_WORKFLOW_NESTING_DEPTH : Z := 10.

Record NestedRunRef : Type := MkNested {
  workflowId : string;
  workflowName : string;
  runId : string;
}.

Record ParentRunRef : Type := MkParent {
  p_workflowId : string;
  p_workflowName : string;
  p_runId : string;
  p_jobName : string;
  p_stepName : string;
  p_nestingDepth : Z;
  p_ancestorWorkflowNames : list string;
}.

(** a link as read from a run record; a malformed one keeps its raw value *)
Inductive t (T : Type) : Type :=
| valid (ref : T)
| broken (raw : JsValue).

Arguments valid {T} _.
Arguments broken {T} _.

(** [/^@[a-z0-9_-]+\/[a-z0-9_-]+(\/[a-z0-9_-]+)*$/] *)
Definition isNamePart (s : string) : bool :=
  negb (bool_decide (s = "")) &&
  all_chars (λ c, isLowerAZ c || isDigit c || Ascii.eqb c "_" || Ascii.eqb c "-") s.

Definition isScopedName (name : string) : bool :=
  match splitOn "/" name with
  | scope :: (_ :: _) as parts =>
      match scope with
      | String c rest => Ascii.eqb c "@" && isNamePart rest && forallb isNamePart (tail parts)
      | EmptyString => false
      end
  | _ => false
  end.

Definition workflowNameBase (name : string) : bool :=
  negb (bool_decide (name = "")) &&
  (if includesPair "." "." name || includesChar "\" name || includesChar (ascii_of_nat 0) name
   then false
   else if includesChar "/" name then isScopedName name else true).

Section links.
Context (isUuid : string → bool).

Definition validNested (r : NestedRunRef) : bool :=
  isUuid (workflowId r) && workflowNameBase (workflowName r) && isUuid (runId r).

Definition nestedToData (r : NestedRunRef) : JsValue :=
  VObj [("workflowId", VStr (workflowId r)); ("workflowName", VStr (workflowName r));
        ("runId", VStr (runId r))].

(** [NestedRunRefSchema.safeParse] *)
Definition parseNestedRunRef (raw : JsValue) : option NestedRunRef :=
  match raw with
  | VObj l =>
      wid ← field_string "workflowId" l;
      wname ← field_string "workflowName" l;
      rid ← field_string "runId" l;
      let r := MkNested wid wname rid in
      if validNested r then Some r else None
  | _ => None
  end.

Definition validParent (r : ParentRunRef) : bool :=
  isUuid (p_workflowId r) && workflowNameBase (p_workflowName r) && isUuid (p_runId r) &&
  negb (bool_decide (p_jobName r = "")) && negb (bool_decide (p_stepName r = "")) &&
  (1 <=? p_nestingDepth r)%Z && (p_nestingDepth r <=? MAX_WORKFLOW_NESTING_DEPTH)%Z &&
  forallb workflowNameBase (p_ancestorWorkflowNames r).

Definition parentToData (r : ParentRunRef) : JsValue :=
  VObj [("workflowId", VStr (p_workflowId r)); ("workflowName", VStr (p_workflowName r));
        ("runId", VStr (p_runId r)); ("jobName", VStr (p_jobName r));
        ("stepName", VStr (p_stepName r)); ("nestingDepth", VNum (p_nestingDepth r));
        ("ancestorWorkflowNames", VArr (VStr <$> p_ancestorWorkflowNames r))].

Fixpoint strings_of (vs : list JsValue) : option (list string) :=
  match vs with
  | [] => Some []
  | VStr s :: vs => cons s <$> strings_of vs
  | _ => None
  end.

Definition field_strings (key : string) (l : list (string * JsValue)) : option (list string) :=
  match assoc_get key l with
  | Some (VArr vs) => strings_of vs
  | _ => None
  end.

(** [ParentRunRefSchema.safeParse] *)
Definition parseParentRunRef (raw : JsValue) : option ParentRunRef :=
  match raw with
  | VObj l =>
      wid ← field_string "workflowId" l;
      wname ← field_string "workflowName" l;
      rid ← field_string "runId" l;
      job ← field_string "jobName" l;
      step ← field_string "stepName" l;
      depth ← match assoc_get "nestingDepth" l with Some (VNum z) => Some z | _ => None end;
      ancestors ← field_strings "ancestorWorkflowNames" l;
      let r := MkParent wid wname rid job step depth ancestors in
      if validParent r then Some r else None
  | _ => None
  end.

Definition parseLink {T} (schema : JsValue → option T) (raw : JsValue) : t T :=
  match schema raw with Some ref => valid ref | None => broken raw end.

Definition parseNestedRunLink (raw : option JsValue) : option (t NestedRunRef) :=
  parseLink parseNestedRunRef <$> raw.

Definition parseParentRunLink (raw : option JsValue) : option (t ParentRunRef) :=
  parseLink parseParentRunRef <$> raw.

Definition persistedLink {T} (toData : T → JsValue) (link : t T) : JsValue :=
  match link with valid ref => toData ref | broken raw => raw end.

Definition sameRunId (a b : string) : bool := bool_decide (toLowerCase a = toLowerCase b).

(** a link as the parser makes it *)
Definition wf {T} (schema : JsValue → option T) (toData : T → JsValue) (link : t T) : Prop :=
  match link with
  | valid ref => schema (toData ref) = Some ref
  | broken raw => schema raw = None
  end.

Lemma parseNestedRunRef_toData r : validNested r = true → parseNestedRunRef (nestedToData r) = Some r.
Proof. intros H. destruct r. simpl in *. unfold parseNestedRunRef. simpl. by rewrite H. Qed.

Lemma strings_of_VStr l : strings_of (VStr <$> l) = Some l.
Proof. induction l as [|s l IH]; [done|]. rewrite fmap_cons. cbn [strings_of]. by rewrite IH. Qed.

Lemma parseParentRunRef_toData r : validParent r = true → parseParentRunRef (parentToData r) = Some r.
Proof.
  intros H. destruct r. unfold parseParentRunRef. simpl. unfold field_strings. simpl.
  rewrite strings_of_VStr. simpl. by rewrite H.
Qed.

Lemma parseNestedRunRef_valid raw r : parseNestedRunRef raw = Some r → validNested r = true.
Proof.
  unfold parseNestedRunRef. destruct raw; try done. intros H.
  repeat (apply bind_Some in H as (? & _ & H)). by case_match; simplify_eq.
Qed.

Lemma parseParentRunRef_valid raw r : parseParentRunRef raw = Some r → validParent r = true.
Proof.
  unfold parseParentRunRef. destruct raw; try done. intros H.
  repeat (apply bind_Some in H as (? & _ & H)). by case_match; simplify_eq.
Qed.

(** what a save writes is read back as the same link *)
Lemma link_roundtrip {T} schema (toData : T → JsValue) link :
  wf schema toData link → parseLink schema (persistedLink toData link) = link.
Proof. unfold parseLink. destruct link; simpl; intros ->; done. Qed.

Lemma parseNestedLink_wf raw : wf parseNestedRunRef nestedToData (parseLink parseNestedRunRef raw).
Proof.
  unfold parseLink. destruct (parseNestedRunRef raw) as [r|] eqn:E; simpl; [|done].
  by eapply parseNestedRunRef_toData, parseNestedRunRef_valid.
Qed.

Lemma parseParentLink_wf raw : wf parseParentRunRef parentToData (parseLink parseParentRunRef raw).
Proof.
  unfold parseLink. destruct (parseParentRunRef raw) as [r|] eqn:E; simpl; [|done].
  by eapply parseParentRunRef_toData, parseParentRunRef_valid.
Qed.

End links.
End RunLink.

Module StepRun.

Record DataArtifactRef : Type := MkArtifact {
  dataId : string;
  artifactName : string;
  version : Z;
  tags : gmap string string;
  sha256 : option string;
}.

#[global] Instance DataArtifactRef_eq_dec : EqDecision DataArtifactRef.
Proof. solve_decision. Defined.

Record ApprovalDecision : Type := MkDecision {
  approved : bool;
  reason : option string;
  decidedBy : option string;
  decisionClient : option string;
  decidedAt : Z;
}.

Inductive AssertSeverity : Type := low | medium | high.

Record AssertResult : Type := MkAssert {
  passed : bool;
  expr : string;
  message : string;
  severity : AssertSeverity;
  assertError : option string;
}.

Inductive StepSkipReason : Type :=
| guarded (expression : option string)
| dependency
| job_skipped.

Inductive StepFailureKind : Type := workflow_changed.

Definition STRANDED_STEP_ERROR : string :=
  "Not run: the workflow or a forEach collection changed since the run. Start a new run.".
Definition CANCELLED_STEP_ERROR : string := "cancelled".
Definition OWNER_STOPPED_STEP_ERROR : string :=
  "cancelled: the process running this step stopped before the step finished".
Definition WAIT_TIMEOUT_STEP_ERROR : string := "wait_timeout".
Definition WAIT_UNREADABLE_STEP_ERROR : string := "wait_unreadable".

Section step_run.
Context `{SignalWaits} (isUuid : string → bool).

Inductive StoredWait : Type :=
| validWait (wait : SignalWait)
| brokenWait (raw : JsValue).

Definition parseStoredWait (raw : option JsValue) : option StoredWait :=
  (λ raw, match wait_parse raw with Some w => validWait w | None => brokenWait raw end) <$> raw.

Definition persistedWait (stored : StoredWait) : JsValue :=
  match stored with validWait w => wait_toData w | brokenWait raw => raw end.

Record StepRunData : Type := MkData {
  d_stepName : string;
  d_status : RunStatus.t;
  d_startedAt : option Z;
  d_completedAt : option Z;
  d_error : option string;
  d_errorCode : option string;
  d_output : option JsValue;
  d_dataArtifacts : option (list DataArtifactRef);
  d_allowedFailure : option bool;
  d_approvalDecision : option ApprovalDecision;
  d_approvalPrompt : option string;
  d_approvalTimeout : option Z;
  d_assertResult : option AssertResult;
  d_forEachTemplate : option string;
  d_skipReason : option StepSkipReason;
  d_resetByResume : option bool;
  d_failureKind : option StepFailureKind;
  d_settledByAbort : option bool;
  d_stoppedByAbort : option bool;
  d_nestedRun : option JsValue;
  d_detachedNestedRun : option bool;
  d_wait : option JsValue;
}.

Record t : Type := Mk {
  stepName : string;
  status : RunStatus.t;
  startedAt : option Z;
  completedAt : option Z;
  error : option string;
  output : option JsValue;
  dataArtifacts : list DataArtifactRef;
  allowedFailure : bool;
  approvalDecision : option ApprovalDecision;
  approvalPrompt : option string;
  assertResult : option AssertResult;
  forEachTemplate : option string;
  skipReason : option StepSkipReason;
  resetByResume : bool;
  failureKind : option StepFailureKind;
  settledByAbort : bool;
  nestedRun : option (RunLink.t RunLink.NestedRunRef);
  detachedNestedRun : bool;
  wait_ : option StoredWait;
  approvalTimeout : option Z;
  stoppedByAbort : bool;
  errorCode : option string;
}.

#[global] Instance t_eta : Eta t := λ r,
  Mk (stepName r) (status r) (startedAt r) (completedAt r) (error r) (output r) (dataArtifacts r)
     (allowedFailure r) (approvalDecision r) (approvalPrompt r) (assertResult r)
     (forEachTemplate r) (skipReason r) (resetByResume r) (failureKind r) (settledByAbort r)
     (nestedRun r) (detachedNestedRun r) (wait_ r) (approvalTimeout r) (stoppedByAbort r)
     (errorCode r).

Definition pending (name : string) (template : option string) : t :=
  Mk name RunStatus.pending None None None None [] false None None None template None false None
     false None false None None false None.

Definition fromData (d : StepRunData) : t :=
  Mk (d_stepName d) (d_status d) (d_startedAt d) (d_completedAt d) (d_error d) (d_output d)
     (default [] (d_dataArtifacts d)) (default false (d_allowedFailure d)) (d_approvalDecision d)
     (d_approvalPrompt d) (d_assertResult d) (d_forEachTemplate d) (d_skipReason d)
     (default false (d_resetByResume d)) (d_failureKind d) (default false (d_settledByAbort d))
     (RunLink.parseNestedRunLink isUuid (d_nestedRun d)) (default false (d_detachedNestedRun d))
     (parseStoredWait (d_wait d)) (d_approvalTimeout d) (default false (d_stoppedByAbort d))
     (d_errorCode d).

(** [if (flag) data.flag = true] *)
Definition flag (b : bool) : option bool := if b then Some true else None.

Definition toData (s : t) : StepRunData :=
  MkData (stepName s) (status s) (startedAt s) (completedAt s) (error s) (errorCode s) (output s)
    (match dataArtifacts s with [] => None | l => Some l end) (flag (allowedFailure s))
    (approvalDecision s) (approvalPrompt s) (approvalTimeout s) (assertResult s)
    (match forEachTemplate s with
     | Some tpl => if bool_decide (tpl = "") then None else Some tpl
     | None => None
     end)
    (skipReason s) (flag (resetByResume s)) (failureKind s) (flag (settledByAbort s))
    (flag (stoppedByAbort s)) (RunLink.persistedLink RunLink.nestedToData <$> nestedRun s)
    (flag (detachedNestedRun s)) (persistedWait <$> wait_ s).

Definition isNestedWait (s : t) : bool :=
  bool_decide (status s = RunStatus.waiting_approval) &&
  match nestedRun s with Some _ => true | None => false end.

Definition signalWait (s : t) : option SignalWait :=
  match wait_ s with Some (validWait w) => Some w | _ => None end.

Definition isSignalWait (s : t) : bool :=
  bool_decide (status s = RunStatus.waiting_signal) || bool_decide (status s = RunStatus.waiting).

Definition recordApprovalDecision (decision : ApprovalDecision) (s : t) : t :=
  s <| approvalDecision := Some decision |>.

Definition recordAssertResult (res : AssertResult) (s : t) : t := s <| assertResult := Some res |>.

Definition markAllowedFailure (s : t) : t := s <| allowedFailure := true |>.

Definition addDataArtifact (artifact : DataArtifactRef) (s : t) : t :=
  s <| dataArtifacts := dataArtifacts s ++ [artifact] |>.

Definition resetToPending (s : t) : t := pending (stepName s) (forEachTemplate s).

Definition revertUnrecordedStart (s : t) : t :=
  if negb (bool_decide (status s = RunStatus.running)) then s
  else s <| status := RunStatus.pending |> <| startedAt := None |>.

Definition markResetByResume (s : t) : t := s <| resetByResume := true |>.

Definition clearResetMarker (s : t) : t := s <| resetByResume := false |>.

Definition succeed (now : Z) (out : option JsValue) (s : t) : t :=
  let s := s <| status := RunStatus.succeeded |> <| completedAt := Some now |>
             <| resetByResume := false |> in
  match out with Some o => s <| output := Some o |> | None => s end.

Definition fail (now : Z) (err : string) (code : option string) (s : t) : t :=
  s <| status := RunStatus.failed |> <| completedAt := Some now |> <| error := Some err |>
    <| errorCode := code |> <| resetByResume := false |>.

Definition markUnknown (now : Z) (err : option string) (s : t) : t :=
  let s := s <| status := RunStatus.unknown |> <| completedAt := Some now |>
             <| resetByResume := false |> in
  match err with
  | Some e => s <| error := Some e |> <| errorCode := None |>
  | None => s
  end.

Definition skip (now : Z) (why : option StepSkipReason) (s : t) : t :=
  let s := s <| status := RunStatus.skipped |> <| completedAt := Some now |>
             <| resetByResume := false |> in
  match why with Some r => s <| skipReason := Some r |> | None => s end.

Definition failStranded (now : Z) (s : t) : t :=
  fail now STRANDED_STEP_ERROR None s <| allowedFailure := false |>
    <| failureKind := Some workflow_changed |>.

Definition failStoppedByAbort (now : Z) (err : string) (code : option string) (s : t) : t :=
  fail now err code s <| stoppedByAbort := true |>.

Definition cancelUnstarted (now : Z) (s : t) : t :=
  fail now CANCELLED_STEP_ERROR None s <| settledByAbort := true |>.

Definition skipUnstarted (now : Z) (why : StepSkipReason) (s : t) : t :=
  skip now (Some why) s <| settledByAbort := true |>.

Definition cancelUndecidedApproval (now : Z) (s : t) : t :=
  if negb (bool_decide (status s = RunStatus.waiting_approval)) then s
  else fail now CANCELLED_STEP_ERROR None s <| settledByAbort := true |>.

Definition cancelOpenWait (now : Z) (s : t) : t :=
  if negb (isSignalWait s) then s
  else fail now CANCELLED_STEP_ERROR None s <| settledByAbort := true |>.

Definition waitForSignal (w : SignalWait) (s : t) : t :=
  s <| status := RunStatus.waiting_signal |> <| resetByResume := false |>
    <| wait_ := Some (validWait w) |>.

(** the outcome of a wait; every kind carries the id of the wait *)
Inductive WaitOutcome : Type :=
| accepted (waitId : string) (receipt : SignalReceipt) (payload : JsValue)
| timed_out (waitId : string)
| cancelled (waitId : string).

Definition outcome_waitId (o : WaitOutcome) : string :=
  match o with accepted id _ _ | timed_out id | cancelled id => id end.

Definition canApplyWaitOutcome (outcome : WaitOutcome) (s : t) : bool :=
  match signalWait s with
  | None => false
  | Some w =>
      if negb (isSignalWait s) || negb (bool_decide (outcome_waitId outcome = wait_id w)) then false
      else
        match outcome with
        | accepted _ receipt payload =>
            bool_decide (receipt_waitId receipt = wait_id w) &&
            match validatePayload w payload with Some _ => true | None => false end
        | _ => true
        end
  end.

Definition applyWaitOutcome (now : Z) (outcome : WaitOutcome) (s : t) : t * bool :=
  if negb (canApplyWaitOutcome outcome s) then (s, false)
  else
    match signalWait s with
    | None => (s, false)
    | Some w =>
        match outcome with
        | accepted _ receipt payload =>
            match validatePayload w payload with
            | None => (s, false)
            | Some kept =>
                (succeed now
                   (Some (VObj [("type", VStr "wait_for_signal"); ("payload", kept);
                                ("signal", receiptForCaller receipt)]))
                   (s <| wait_ := Some (validWait (settledWith w receipt)) |>), true)
            end
        | timed_out _ => (fail now WAIT_TIMEOUT_STEP_ERROR None s, true)
        | cancelled _ => (cancelOpenWait now s, true)
        end
    end.

Definition failUnreadableWait (now : Z) (s : t) : t * bool :=
  if negb (isSignalWait s) || match signalWait s with Some _ => true | None => false end
  then (s, false)
  else (fail now WAIT_UNREADABLE_STEP_ERROR None s, true).

Definition failUnusableOutcome (now : Z) (s : t) : t * bool :=
  if negb (isSignalWait s) then (s, false)
  else (fail now WAIT_UNREADABLE_STEP_ERROR None s, true).

Definition start (at_ : Z) (s : t) : t :=
  s <| status := RunStatus.running |> <| startedAt := Some at_ |> <| resetByResume := false |>.

Definition waitForApproval (prompt : option string) (timeout : option Z) (s : t) : t :=
  let s := s <| status := RunStatus.waiting_approval |> <| resetByResume := false |> in
  let s := match prompt with Some p => s <| approvalPrompt := Some p |> | None => s end in
  s <| approvalTimeout := timeout |>.

Definition waitForNestedRun (ref : RunLink.NestedRunRef) (s : t) : t :=
  s <| status := RunStatus.waiting_approval |> <| resetByResume := false |>
    <| nestedRun := Some (RunLink.valid ref) |>.

Definition rejectNested (now : Z) (decision : ApprovalDecision) (err : string) (s : t) : t :=
  fail now err None (s <| approvalDecision := Some decision |>).

Definition detachNestedRun (now : Z) (err : string) (s : t) : t :=
  fail now err None s <| settledByAbort := true |> <| detachedNestedRun := true |>.

(** ** Persistence *)

(** a step run as [fromData] makes it: its links and waits are what the schemas
    read them as *)
Definition wf (s : t) : Prop :=
  match nestedRun s with
  | Some l => RunLink.wf (RunLink.parseNestedRunRef isUuid) RunLink.nestedToData l
  | None => True
  end ∧
  match wait_ s with
  | Some (brokenWait raw) => wait_parse raw = None
  | _ => True
  end ∧
  forEachTemplate s ≠ Some "".

Lemma flag_default b : default false (flag b) = b.
Proof. by destruct b. Qed.

Context `{!SignalWaitLaws}.

Lemma fromData_toData s : wf s → fromData (toData s) = s.
Proof.
  destruct s; unfold wf, fromData, toData; simpl. intros (Hl & Hw & Hf). rewrite !flag_default.
  f_equal.
  - by destruct dataArtifacts0.
  - destruct forEachTemplate0; [|done]. rewrite bool_decide_eq_false_2 by congruence. done.
  - destruct nestedRun0 as [l|]; [|done]. unfold RunLink.parseNestedRunLink. simpl. f_equal.
    by apply RunLink.link_roundtrip.
  - destruct wait_0 as [[w|raw]|]; simpl; [by rewrite wait_roundtrip|by rewrite Hw|done].
Qed.

Lemma toData_fromData_wf d : d_forEachTemplate d ≠ Some "" → wf (fromData d).
Proof.
  intros Hf. unfold wf, fromData. simpl. split_and!; [| |done].
  - destruct (d_nestedRun d); simpl; [|done]. apply RunLink.parseNestedLink_wf.
  - destruct (d_wait d) as [raw|]; simpl; [|done]. by destruct (wait_parse raw) eqn:E.
Qed.

Lemma toData_stable s : wf s → toData (fromData (toData s)) = toData s.
Proof. intros Hs. by rewrite fromData_toData. Qed.

(** the methods keep the stored form readable *)
Lemma wf_same s s' :
  nestedRun s' = nestedRun s → wait_ s' = wait_ s → forEachTemplate s' = forEachTemplate s →
  wf s → wf s'.
Proof. unfold wf. intros -> -> ->. done. Qed.

(** Signal outcomes settle a wait at most once. An outcome is applied only
    to the wait it names and only with a payload the wait accepts; the step then
    leaves the waiting states, so no further outcome is ever applied to it, and
    an outcome that is not applied changes nothing. *)
Lemma wait_outcome_applies_once (now now' : Z) (outcome outcome' : WaitOutcome) (s : t) :
  let '(s', applied) := applyWaitOutcome now outcome s in
  applied = canApplyWaitOutcome outcome s ∧
  (applied = false → s' = s) ∧
  (applied = true →
     (∃ w, signalWait s = Some w ∧ outcome_waitId outcome = wait_id w) ∧
     isSignalWait s' = false ∧ applyWaitOutcome now' outcome' s' = (s', false) ∧
     match outcome with
     | accepted _ receipt payload =>
         status s' = RunStatus.succeeded ∧
         ∃ w kept, signalWait s = Some w ∧ validatePayload w payload = Some kept ∧
           receipt_waitId receipt = wait_id w ∧
           output s' = Some (VObj [("type", VStr "wait_for_signal"); ("payload", kept);
                                   ("signal", receiptForCaller receipt)])
     | timed_out _ => status s' = RunStatus.failed ∧ error s' = Some WAIT_TIMEOUT_STEP_ERROR
     | cancelled _ => status s' = RunStatus.failed ∧ settledByAbort s' = true
     end).
Proof.
  unfold applyWaitOutcome at 1. destruct (canApplyWaitOutcome outcome s) eqn:Hcan; simpl; [|done].
  assert (∀ s', isSignalWait s' = false → applyWaitOutcome now' outcome' s' = (s', false)) as Honce.
  { intros s' Hs'. unfold applyWaitOutcome, canApplyWaitOutcome.
    destruct (signalWait s'); [|done]. by rewrite Hs'. }
  unfold canApplyWaitOutcome in Hcan. destruct (signalWait s) as [w|] eqn:Hw; [|done].
  destruct (isSignalWait s) eqn:Hsw; [|done]. simpl in Hcan.
  case_bool_decide as Hid; [|done]. simpl in Hcan.
  destruct outcome as [id receipt payload|id|id]; simpl in *.
  - destruct (validatePayload w payload) as [kept|] eqn:Hv; [|by rewrite andb_false_r in Hcan].
    split_bools. split; [done|]. split; [done|]. intros _. split_and!; [by exists w|done|by apply Honce|done|].
    by exists w, kept.
  - split; [done|]. split; [done|]. intros _. split_and!; [by exists w|done|by apply Honce|done|done].
  - unfold cancelOpenWait. rewrite Hsw. simpl. split; [done|]. split; [done|]. intros _.
    split_and!; [by exists w|done|by apply Honce|done|done].
Qed.

End step_run.
End StepRun.
