(* ===== verification/SignalWait.v ===== *)
(** * Signal waits

    [src/src/domain/workflows/signal_wait.ts]: a step waits for a signal with a
    payload from outside. The wait keeps the schema the payload must satisfy,
    its deadline, and, for a wait that others address by a key, the key and
    where signals sent early are read. The file implements the interface
    [SignalWaits] a run record uses, with its law.

    The theorem shows what an accepted payload is: for a schema the workflow
    parser lets through, every keyword of it holds of the payload, at every
    level, in the sense of JSON Schema. Identifiers are arguments, instants
    milliseconds. *)

From Stdlib Require Import Ascii.
From S2P Require Import Prelude JsString JsonText InputValidation StepRun.
Local Open Scope Z_scope.

Module SignalWait.
Import InputValidation.

Definition SIGNAL_WAIT_MAX_TIMEOUT_SECONDS : Z := 365 * 24 * 60 * 60.
Definition SIGNAL_ACCEPT_EARLY_MAX_SECONDS : Z := 60 * 60.
Definition SIGNAL_PAYLOAD_MAX_BYTES : Z := 16 * 1024.
Definition SIGNAL_PAYLOAD_MAX_DEPTH : nat := 16.
Definition RESERVED_PAYLOAD_KEYS : list string := ["__proto__"; "constructor"; "prototype"].
Definition SIGNAL_IDEMPOTENCY_KEY_MAX_LENGTH : nat := 128.

(** ** Keys *)

Definition isKeyStart (c : ascii) : bool := isLowerAZ c || isDigit c.
Definition isKeyChar (c : ascii) : bool := isKeyStart c || Ascii.eqb c "_" || Ascii.eqb c "-".

(** [^[a-z0-9][a-z0-9_-]{0,63}$] *)
Definition WAIT_KEY_PATTERN (key : string) : bool :=
  match key with
  | EmptyString => false
  | String c rest => isKeyStart c && all_chars isKeyChar rest && (String.length rest <=? 63)%nat
  end.

Definition WINDOWS_DEVICE_NAME (key : string) : bool :=
  bool_decide (key ∈ ["con"; "prn"; "aux"; "nul"]) ||
  match key with
  | String a (String b (String c (String d EmptyString))) =>
      bool_decide (String a (String b (String c "")) ∈ ["com"; "lpt"]) && isDigit d
  | _ => false
  end.

Definition isWaitKey (key : string) : bool := WAIT_KEY_PATTERN key && negb (WINDOWS_DEVICE_NAME key).

(** [^[A-Za-z0-9._:-]+$] *)
Definition IDEMPOTENCY_KEY_PATTERN (value : string) : bool :=
  negb (bool_decide (value = "")) &&
  all_chars (λ c, isLowerAZ c || in_range 65 90 c || isDigit c || Ascii.eqb c "." || Ascii.eqb c "_" ||
                  Ascii.eqb c ":" || Ascii.eqb c "-") value.

Definition isIdempotencyKey (value : string) : bool :=
  (String.length value <=? SIGNAL_IDEMPOTENCY_KEY_MAX_LENGTH)%nat && IDEMPOTENCY_KEY_PATTERN value.

Definition WAIT_KEY_FORM : string :=
  "1 to 64 lowercase letters, digits, hyphens or underscores, starting with a letter or digit, and " +:+
  "not a Windows device name (con, prn, aux, nul, com0 to com9, lpt0 to lpt9)".

(** ** Data *)

Record SignalReceipt := MkReceipt {
  r_id : string;
  r_waitId : string;
  receivedAt : Z;
  submittedBy : string;
  idempotencyKey : option string;
  heldAsPending : bool;
}.

Definition receiptForCaller (r : SignalReceipt) : SignalReceipt :=
  MkReceipt (r_id r) (r_waitId r) (receivedAt r) (submittedBy r) (idempotencyKey r) false.

Record WaitEarly := MkEarly { generation : Z; overRelease : bool; from : Z }.

#[global] Instance SignalReceipt_eq_dec : EqDecision SignalReceipt.
Proof. solve_decision. Defined.
#[global] Instance WaitEarly_eq_dec : EqDecision WaitEarly.
Proof. solve_decision. Defined.

Definition earlySlots (early : WaitEarly) : list Z :=
  if overRelease early && (1 <? generation early)
  then [generation early; generation early - 1] else [generation early].

(** the fields of a wait; the class's constructor is private, so only what
    [open] and [fromData] make exists *)
Record Data := MkData {
  id_ : string;
  schema : list (string * JsValue);
  deadline : Z;
  receipt : option SignalReceipt;
  key : option string;
  early : option WaitEarly;
}.

(** ** Schemas of payloads *)

Definition isPlainObject (v : JsValue) : bool := isObject v.

Definition ENFORCED_SCHEMA_KEYWORDS : list string :=
  ["type"; "enum"; "required"; "properties"; "additionalProperties"; "items"; "minItems"; "maxItems";
   "uniqueItems"].

Definition ANNOTATION_SCHEMA_KEYWORDS : list string := ["description"; "title"; "examples"; "$comment"].

Definition TYPE_BOUND_SCHEMA_KEYWORDS (key : string) : option string :=
  if bool_decide (key ∈ ["required"; "properties"; "additionalProperties"]) then Some "object"
  else if bool_decide (key ∈ ["items"; "minItems"; "maxItems"; "uniqueItems"]) then Some "array"
  else None.

(** the loop over the keys of one node *)
Definition unenforcedKey (path : string) (isRoot : bool) (node : list (string * JsValue))
    (entry : string * JsValue) : list string :=
  let '(key, value) := entry in
  if bool_decide (key ∈ ANNOTATION_SCHEMA_KEYWORDS) then []
  else if bool_decide (key = "default") then
    [path +:+ ".default: a default is never applied to a payload"]
  else if bool_decide (key = "enum") && match value with VArr [] => true | _ => false end then
    [path +:+ ".enum: an empty enum is not checked"]
  else if negb (bool_decide (key ∈ ENFORCED_SCHEMA_KEYWORDS)) then
    [path +:+ "." +:+ key +:+ ": not a supported keyword"]
  else
    match TYPE_BOUND_SCHEMA_KEYWORDS key with
    | Some boundTo =>
        let type := if isRoot then Some (VStr "object") else assoc_get "type" node in
        match type with
        | Some (VStr t) =>
            if bool_decide (t = boundTo) then []
            else [path +:+ "." +:+ key +:+ ": only checked beside " +:+ dq +:+ "type: " +:+ boundTo +:+ dq]
        | _ => [path +:+ "." +:+ key +:+ ": only checked beside " +:+ dq +:+ "type: " +:+ boundTo +:+ dq]
        end
    | None => []
    end.

Fixpoint collectUnenforcedKeywords (node : JsValue) (path : string) (isRoot : bool) : list string :=
  match node with
  | VObj fields =>
      mjoin (unenforcedKey path isRoot fields <$> fields) ++
      find_field (λ v, match v with
        | VObj props =>
            mjoin (List.map (λ '(name, child),
              collectUnenforcedKeywords child (path +:+ ".properties." +:+ name) false) props)
        | _ => []
        end) [] "properties" fields ++
      find_field (λ v, collectUnenforcedKeywords v (path +:+ ".items") false) [] "items" fields ++
      find_field (λ v, collectUnenforcedKeywords v (path +:+ ".additionalProperties") false) []
        "additionalProperties" fields
  | _ => []
  end.

Definition unenforcedSchemaKeywords (schema : JsValue) : list string :=
  collectUnenforcedKeywords schema "schema" true.

(** an object that declares no properties declares none *)
Fixpoint withDeclaredProperties (node : JsValue) : JsValue :=
  match node with
  | VObj fields =>
      let properties := find_field (λ v, match v with
        | VObj props => List.map (λ '(name, child), (name, withDeclaredProperties child)) props
        | _ => []
        end) [] "properties" fields in
      let sub := λ key copy,
        find_field (λ v, if isPlainObject v then set_assoc key (withDeclaredProperties v) copy else copy)
          copy key fields in
      let copy :=
        if bool_decide (s_type node = Some "object")
        then set_assoc "properties" (VObj properties) fields else fields in
      VObj (sub "additionalProperties" (sub "items" copy))
  | _ => node
  end.

(** ** Payloads *)

Inductive PayloadValidation := Valid (payload : list (string * JsValue)) | Invalid (errors : list string).

(** bytes in UTF-8 *)
Fixpoint utf8Length (s : string) : Z :=
  match s with
  | EmptyString => 0
  | String c s => (if code c <? 128 then 1 else 2) + utf8Length s
  end.

Fixpoint structuralErrors (value : JsValue) (path : string) (depth : nat) : list string :=
  match value with
  | VArr l =>
      if (SIGNAL_PAYLOAD_MAX_DEPTH <? depth)%nat then
        [path +:+ " nests deeper than " +:+ pretty SIGNAL_PAYLOAD_MAX_DEPTH +:+ " levels"]
      else
        (fix go i l := match l with
         | [] => []
         | x :: l => structuralErrors x (path +:+ "[" +:+ pretty i +:+ "]") (S depth) ++ go (S i) l
         end) 0%nat l
  | VObj l =>
      if (SIGNAL_PAYLOAD_MAX_DEPTH <? depth)%nat then
        [path +:+ " nests deeper than " +:+ pretty SIGNAL_PAYLOAD_MAX_DEPTH +:+ " levels"]
      else
        mjoin (List.map (λ '(key, child),
          if bool_decide (key ∈ RESERVED_PAYLOAD_KEYS) then
            [path +:+ "." +:+ key +:+ " uses the reserved key " +:+ dq +:+ key +:+ dq]
          else structuralErrors child (path +:+ "." +:+ key) (S depth)) l)
  | _ => []
  end.

Section validation.
Context (stops : bool).

(** the payload is checked as one property of an object *)
Definition payloadSchema (schema : list (string * JsValue)) : JsValue :=
  withDeclaredProperties (VObj (set_assoc "type" (VStr "object") schema)).

Definition validatePayload (w : Data) (payload : JsValue) : PayloadValidation :=
  match payload with
  | VObj plain =>
      let bytes := utf8Length (json_text payload) in
      if SIGNAL_PAYLOAD_MAX_BYTES <? bytes then
        Invalid ["payload is " +:+ pretty bytes +:+ " bytes, over the " +:+
                 pretty SIGNAL_PAYLOAD_MAX_BYTES +:+ " byte limit"]
      else
        let structural := structuralErrors payload "payload" 1 in
        if negb (bool_decide (structural = [])) then Invalid structural
        else
          let '(valid, errors) := InputValidation.validate stops [("payload", payload)]
            [("properties", VObj [("payload", payloadSchema (schema w))])] in
          if negb valid then
            Invalid (List.map (λ e,
              "payload: " +:+
              (if startsWith (message e) "payload." then str_drop 8 (message e) else message e)) errors)
          else Valid plain
  | _ => Invalid ["payload must be a JSON object"]
  end.

End validation.

(** ** What a schema asks for *)

(** the schema of the value under a key *)
Definition subschema (s : JsValue) (key : string) : option JsValue :=
  match declared (default [] (s_properties s)) key with
  | Some p => Some p
  | None => s_additional s
  end.

(** every keyword of the schema holds, whatever keywords are beside it; [null]
    is no value, and an enum lists strings, numbers and booleans *)
Inductive conforms : JsValue → JsValue → Prop :=
| conforms_intro s v :
    v ≠ VNull →
    (∀ t, s_type s = Some t → getValueType v = t ∨ (t = "integer" ∧ ∃ z, v = VNum z)) →
    (∀ l, s_enum s = Some l → includesValue v l = true) →
    (∀ l m, v = VArr l → s_number "minItems" s = Some m → m ≤ Z.of_nat (length l)) →
    (∀ l m, v = VArr l → s_number "maxItems" s = Some m → Z.of_nat (length l) ≤ m) →
    (∀ l, v = VArr l → truthy (field "uniqueItems" s) = true → NoDup l) →
    (∀ l items x, v = VArr l → s_items s = Some items → x ∈ l → conforms items x) →
    (∀ l key, v = VObj l → key ∈ s_required s → is_Some (assoc_get key l)) →
    (∀ l key x, v = VObj l → s_closed s = true → (key, x) ∈ l → is_Some (subschema s key)) →
    (∀ l key x sub, v = VObj l → (key, x) ∈ l → subschema s key = Some sub → conforms sub x) →
    conforms s v.

Definition enforced (s : JsValue) : Prop := ∃ path, collectUnenforcedKeywords s path false = [].

(** ** What the parser of workflows lets through *)

Lemma assoc_get_elem {V} key (v : V) l : assoc_get key l = Some v → (key, v) ∈ l.
Proof.
  induction l as [|[k w] l IH]; [done|]. cbn. case_bool_decide as E.
  - intros [= ->]. subst k. left.
  - intros H. right. by apply IH.
Qed.

Lemma mjoin_nil {A} (ls : list (list A)) : mjoin ls = [] ↔ ∀ l, l ∈ ls → l = [].
Proof.
  induction ls as [|l ls IH].
  - split; [|done]. by intros _ l ?%elem_of_nil.
  - change (mjoin (l :: ls)) with (l ++ mjoin ls). rewrite app_nil, IH. setoid_rewrite elem_of_cons. naive_solver.
Qed.

Lemma enforced_obj fields :
  enforced (VObj fields) →
  ∃ path, (∀ e, e ∈ fields → unenforcedKey path false fields e = []) ∧
    (∀ props name child, assoc_get "properties" fields = Some (VObj props) → (name, child) ∈ props →
       enforced child) ∧
    (∀ v, assoc_get "items" fields = Some v → enforced v) ∧
    (∀ v, assoc_get "additionalProperties" fields = Some v → enforced v).
Proof.
  intros [path H]. cbn [collectUnenforcedKeywords] in H. rewrite !app_nil, !find_field_eq in H.
  destruct H as (Hk & Hp & Hi & Ha). exists path. split_and!.
  - intros e He. rewrite mjoin_nil in Hk. apply Hk. apply list_elem_of_fmap. eauto.
  - intros props name child E Hin. rewrite E in Hp. cbn in Hp. rewrite mjoin_nil in Hp.
    exists (path +:+ ".properties." +:+ name). apply Hp. apply list_elem_of_In, in_map_iff.
    exists (name, child). split; [done|]. by apply list_elem_of_In.
  - intros v E. rewrite E in Hi. eexists. exact Hi.
  - intros v E. rewrite E in Ha. eexists. exact Ha.
Qed.

(** a keyword bound to a type stands beside that type *)
Lemma enforced_type s key v t :
  enforced s → field key s = Some v → TYPE_BOUND_SCHEMA_KEYWORDS key = Some t → s_type s = Some t.
Proof.
  destruct s as [| | | | |fields]; try done. intros (path & H & _)%enforced_obj Hf Ht.
  apply assoc_get_elem in Hf. specialize (H _ Hf). unfold unenforcedKey in H.
  assert (key ∈ ["required"; "properties"; "additionalProperties"; "items"; "minItems"; "maxItems"; "uniqueItems"]) as Hkey.
  { unfold TYPE_BOUND_SCHEMA_KEYWORDS in Ht. repeat case_bool_decide; set_solver. }
  rewrite (bool_decide_eq_false_2 (key ∈ ANNOTATION_SCHEMA_KEYWORDS)) in H by (clear -Hkey; set_solver).
  rewrite (bool_decide_eq_false_2 (key = "default")) in H by (clear -Hkey; set_solver).
  rewrite (bool_decide_eq_false_2 (key = "enum")) in H by (clear -Hkey; set_solver). cbn [andb] in H.
  rewrite (bool_decide_eq_true_2 (key ∈ ENFORCED_SCHEMA_KEYWORDS)), Ht in H by (clear -Hkey; set_solver).
  cbn [negb] in H. unfold s_type. cbn [field]. destruct (assoc_get "type" fields) as [[| | |u| |]|]; try done.
  case_bool_decide as E; [subst u|done]. rewrite bool_decide_eq_false_2; [done|].
  intros ->. unfold TYPE_BOUND_SCHEMA_KEYWORDS in Ht. repeat case_bool_decide; discriminate.
Qed.

Lemma enforced_default s : enforced s → field "default" s = None.
Proof.
  destruct s as [| | | | |fields]; try done. intros (path & H & _)%enforced_obj.
  cbn [field]. destruct (assoc_get "default" fields) as [v|] eqn:E; [|done].
  apply assoc_get_elem, H in E. discriminate E.
Qed.

Lemma enforced_items s items : enforced s → s_items s = Some items → enforced items.
Proof.
  destruct s as [| | | | |fields]; try done. intros (path & _ & _ & H & _)%enforced_obj.
  unfold s_items. cbn [field]. destruct (assoc_get "items" fields) as [v|]; [|done].
  destruct (truthy (Some v)); [|done]. intros [= <-]. by apply H.
Qed.

Lemma s_properties_Some s props : s_properties s = Some props ↔ field "properties" s = Some (VObj props).
Proof. unfold s_properties. destruct (field _ s) as [[]|]; naive_solver. Qed.

Lemma s_additional_Some s a : s_additional s = Some a ↔ field "additionalProperties" s = Some a ∧ isObject a = true.
Proof. unfold s_additional. destruct (field _ s) as [[]|]; naive_solver. Qed.

Lemma declared_Some props key p :
  declared props key = Some p ↔ assoc_get key props = Some p ∧ truthy (Some p) = true.
Proof.
  unfold declared. destruct (assoc_get key props) as [v|]; [|naive_solver].
  destruct (truthy (Some v)) eqn:E; split.
  - by intros [= <-].
  - by intros [[= <-] _].
  - done.
  - intros [[= <-] H]. by rewrite H in E.
Qed.

Lemma enforced_subschema s key sub : enforced s → subschema s key = Some sub → enforced sub.
Proof.
  destruct s as [| | | | |fields]; try done. intros (path & _ & Hp & _ & Ha)%enforced_obj.
  unfold subschema. destruct (declared _ key) as [p|] eqn:Hd.
  - intros [= ->]. apply declared_Some in Hd as [Hd%assoc_get_elem _].
    destruct (s_properties (VObj fields)) as [props|] eqn:E; [|by apply elem_of_nil in Hd].
    apply s_properties_Some in E. by eapply Hp.
  - intros [H _]%s_additional_Some. by apply Ha.
Qed.

(** ** Closing objects *)

Lemma field_set s key k v :
  field k (VObj (set_assoc key v s)) = if bool_decide (k = key) then Some v else field k (VObj s).
Proof. apply assoc_get_set. Qed.

(** a field of the closed schema *)
Lemma field_closed s key :
  field key (withDeclaredProperties s) =
  if bool_decide (key = "properties") && bool_decide (s_type s = Some "object")
  then Some (VObj ((λ '(name, child), (name, withDeclaredProperties child)) <$> default [] (s_properties s)))
  else if bool_decide (key ∈ ["items"; "additionalProperties"]) then withDeclaredProperties <$> field key s
  else field key s.
Proof.
  destruct s as [| | | | |fields]; try by repeat case_bool_decide.
  cbn [withDeclaredProperties]. rewrite !find_field_eq. unfold isPlainObject.
  assert (∀ k copy, (assoc_get k copy = assoc_get k fields) →
    assoc_get key (default copy ((λ v, if isObject v then set_assoc k (withDeclaredProperties v) copy else copy) <$>
      assoc_get k fields)) =
    if bool_decide (key = k) then withDeclaredProperties <$> assoc_get k fields else assoc_get key copy) as Hsub.
  { intros k copy Hcopy. destruct (assoc_get k fields) as [v|]; cbn.
    - destruct (isObject v) eqn:E; [by rewrite assoc_get_set|]. case_bool_decide; [|done]. subst key.
      rewrite Hcopy. by destruct v.
    - case_bool_decide; [by subst|done]. }
  assert (default [] ((λ v, match v with
      | VObj props => List.map (λ '(name, child), (name, withDeclaredProperties child)) props
      | _ => [] end) <$> assoc_get "properties" fields) =
    (λ '(name, child), (name, withDeclaredProperties child)) <$> default [] (s_properties (VObj fields))) as ->.
  { unfold s_properties. cbn [field]. by destruct (assoc_get "properties" fields) as [[| | | | |props]|]. }
  generalize ((λ '(name, child), (name, withDeclaredProperties child)) <$> default [] (s_properties (VObj fields))).
  intros props. generalize (bool_decide (s_type (VObj fields) = Some "object")). intros b. cbn [field].
  set (f1 := if b then set_assoc "properties" (VObj props) fields else fields).
  assert (∀ k, assoc_get k f1 = if bool_decide (k = "properties") && b then Some (VObj props) else assoc_get k fields) as Hf1.
  { intros k. unfold f1. destruct b; [by rewrite assoc_get_set, andb_true_r|by rewrite andb_false_r]. }
  rewrite Hsub.
  - destruct (decide (key = "additionalProperties")) as [->|]; [done|].
    rewrite bool_decide_eq_false_2, Hsub, Hf1 by (done || by rewrite Hf1).
    destruct (decide (key = "items")) as [->|]; [done|]. rewrite bool_decide_eq_false_2 by done.
    by rewrite (bool_decide_eq_false_2 (key ∈ _)) by set_solver.
  - clear Hsub. destruct (assoc_get "items" fields) as [v|]; cbn; [|by rewrite Hf1].
    destruct (isObject v); [|by rewrite Hf1]. by rewrite assoc_get_set, Hf1.
Qed.

Lemma truthy_closed v : truthy (Some (withDeclaredProperties v)) = truthy (Some v).
Proof. by destruct v. Qed.

(** what the walk reads of a closed schema *)
Lemma closed_fields s :
  let c := withDeclaredProperties s in
  s_type c = s_type s ∧ s_enum c = s_enum s ∧ (∀ k, k ∈ ["minItems"; "maxItems"] → s_number k c = s_number k s) ∧
  field "uniqueItems" c = field "uniqueItems" s ∧ s_required c = s_required s ∧ s_closed c = s_closed s ∧
  field "default" c = field "default" s.
Proof.
  cbv zeta. unfold s_type, s_enum, s_number, s_required, s_closed. rewrite !field_closed.
  split_and!; try done.
  - intros k Hk. rewrite field_closed.
    rewrite (bool_decide_eq_false_2 (k = "properties")) by (clear -Hk; set_solver).
    by rewrite (bool_decide_eq_false_2 (k ∈ _)) by (clear -Hk; set_solver).
  - cbn. by destruct (field "additionalProperties" s) as [[]|].
Qed.

Lemma field_closed_sub s key :
  key ∈ ["items"; "additionalProperties"] →
  field key (withDeclaredProperties s) = withDeclaredProperties <$> field key s.
Proof.
  intros Hk. rewrite field_closed, (bool_decide_eq_true_2 _ Hk).
  by rewrite (bool_decide_eq_false_2 (key = "properties")) by (clear -Hk; set_solver).
Qed.

Lemma closed_items s : s_items (withDeclaredProperties s) = withDeclaredProperties <$> s_items s.
Proof.
  unfold s_items. rewrite field_closed_sub by set_solver. destruct (field "items" s) as [v|]; [|done].
  cbn [fmap option_fmap option_map]. rewrite truthy_closed. by destruct (truthy (Some v)).
Qed.

Lemma closed_additional s : s_additional (withDeclaredProperties s) = withDeclaredProperties <$> s_additional s.
Proof.
  unfold s_additional. rewrite field_closed_sub by set_solver. by destruct (field "additionalProperties" s) as [[]|].
Qed.

Lemma declared_map f props key :
  (∀ v, truthy (Some (f v)) = truthy (Some v)) →
  declared ((λ '(name, child), (name, f child)) <$> props) key = f <$> declared props key.
Proof.
  intros Hf. unfold declared. induction props as [|[k v] props IH]; [done|].
  cbn [fmap list_fmap assoc_get]. case_bool_decide; [|done]. rewrite Hf. by destruct (truthy (Some v)).
Qed.

(** an object schema, closed, always declares its properties *)
Lemma closed_subschema s key :
  s_type s = Some "object" →
  ∃ props, s_properties (withDeclaredProperties s) = Some props ∧
    declared props key = withDeclaredProperties <$> declared (default [] (s_properties s)) key.
Proof.
  intros Ht. eexists. split.
  - unfold s_properties at 1. rewrite field_closed, (bool_decide_eq_true_2 (s_type s = _)) by done. reflexivity.
  - apply declared_map, truthy_closed.
Qed.

Section exact.
Context (stops : bool).

Notation check v s path := (validateProperty stops v path (withDeclaredProperties s) = []).

Lemma type_ok v t path :
  validateType path v t = None ↔ getValueType v = t ∨ (t = "integer" ∧ ∃ z, v = VNum z).
Proof.
  rewrite validateType_none. destruct (decide (t = "integer")) as [->|]; [|naive_solver].
  split; [naive_solver|]. intros [H|[_ H]]; [by destruct v|auto].
Qed.

Lemma array_conforms l :
  Forall (λ v, ∀ s path, enforced s → check v s path ↔ conforms s v) l →
  ∀ s path, enforced s → check (VArr l) s path ↔ conforms s (VArr l).
Proof.
  intros IH s path He. rewrite Forall_forall in IH.
  destruct (closed_fields s) as (Ht & Hen & Hnum & Hu & _ & _ & _).
  rewrite validateProperty_array, enumErrors_nil, boundErrors_nil, closed_items, Ht, Hen, Hu, !Hnum by set_solver.
  assert (∀ k v, k ∈ ["items"; "minItems"; "maxItems"; "uniqueItems"] → field k s = Some v → s_type s = Some "array") as Hb.
  { intros k v Hk Hf. apply (enforced_type s k v); [done..|].
    unfold TYPE_BOUND_SCHEMA_KEYWORDS. rewrite bool_decide_eq_false_2 by (clear -Hk; set_solver).
    by rewrite bool_decide_eq_true_2. }
  split.
  - intros (H1 & H2 & H3). apply conforms_intro.
    + discriminate.
    + intros t Hst. left. cbn. by rewrite (H1 t Hst).
    + exact H2.
    + intros ? m [= <-] Hm. apply H3; [|done]. unfold s_number in Hm. destruct (field "minItems" s) eqn:E; [|done].
      eapply Hb; [|exact E]. set_solver.
    + intros ? m [= <-] Hm. apply H3; [|done]. unfold s_number in Hm. destruct (field "maxItems" s) eqn:E; [|done].
      eapply Hb; [|exact E]. set_solver.
    + intros ? [= <-] Hm. apply H3; [|done]. destruct (field "uniqueItems" s) eqn:E; [|done].
      eapply Hb; [|exact E]. set_solver.
    + intros ? items x [= <-] Hi Hx. destruct H3 as [_ H3].
      { unfold s_items in Hi. destruct (field "items" s) eqn:E; [|done]. eapply Hb; [|exact E]. set_solver. }
      apply list_elem_of_lookup in Hx as [j Hj]. rewrite Hi in H3. specialize (H3 _ j x eq_refl Hj).
      apply IH in H3; [done| |by eapply enforced_items]. by eapply list_elem_of_lookup_2.
    + intros ? ? [=].
    + intros ? ? ? [=].
    + intros ? ? ? ? [=].
  - inversion 1 as [? ? _ H1 H2 Hmin Hmax Hun Hit _ _ _]; subst. split_and!.
    + intros t Hst. destruct (H1 t Hst) as [<-|[_ [z ?]]]; done.
    + done.
    + intros _. split_and!; [eauto..|]. intros items j x Hi Hj. destruct (s_items s) as [it|] eqn:E; [|done].
      injection Hi as <-. apply IH; [by eapply list_elem_of_lookup_2|by eapply enforced_items|].
      eapply Hit; [done|done|]. by eapply list_elem_of_lookup_2.
Qed.

Lemma object_conforms l :
  Forall ((λ v, ∀ s path, enforced s → check v s path ↔ conforms s v) ∘ snd) l →
  ∀ s path, enforced s → check (VObj l) s path ↔ conforms s (VObj l).
Proof.
  intros IH s path He. rewrite Forall_forall in IH.
  destruct (closed_fields s) as (Ht & Hen & _ & _ & Hreq & Hcl & _).
  rewrite validateProperty_object, enumErrors_nil, requiredErrors_nil, Ht, Hen, Hreq.
  assert (∀ k v, k ∈ ["required"; "properties"; "additionalProperties"] → field k s = Some v → s_type s = Some "object") as Hb.
  { intros k v Hk Hf. apply (enforced_type s k v); [done..|].
    unfold TYPE_BOUND_SCHEMA_KEYWORDS. by rewrite bool_decide_eq_true_2. }
  assert (∀ key x path, (key, x) ∈ l → s_type s = Some "object" →
    entryOk stops (withDeclaredProperties s) path (key, x) ↔
    (s_closed s = true → is_Some (subschema s key)) ∧ ∀ sub, subschema s key = Some sub → conforms sub x) as Hentry.
  { intros key x path' Hin Hobj. unfold entryOk. destruct (closed_subschema s key Hobj) as (props & -> & Hd).
    cbn [mbind option_bind]. rewrite Hd. unfold subschema at 1 2.
    assert (∀ sub path, subschema s key = Some sub → check x sub path ↔ conforms sub x) as Hx.
    { intros sub path'' Hsub. apply (IH (key, x)); [done|]. by eapply enforced_subschema. }
    unfold subschema in Hx. destruct (declared (default [] (s_properties s)) key) as [p|]; cbn [fmap option_fmap option_map].
    - rewrite (Hx p) by done. naive_solver.
    - rewrite Hcl, closed_additional. pose proof (closed_not_additional s) as Hca.
      destruct (s_additional s) as [a|]; cbn [fmap option_fmap option_map].
      + split.
        * intros [_ H]. split; [done|]. intros sub [= <-]. apply (Hx a (path' +:+ "." +:+ key)); [done|]. by apply H.
        * intros [_ H]. split; [intros Hc; by specialize (Hca Hc)|]. intros ? [= <-]. apply Hx; [done|]. by apply H.
      + split.
        * intros [H _]. split; [intros Hc; by specialize (H Hc)|done].
        * intros [H _]. split; [intros Hc; by destruct (H Hc)|done]. }
  split.
  - intros (H1 & H2 & H3).
    assert (∀ key x, (key, x) ∈ l → (s_closed s = true → is_Some (subschema s key)) ∧
      ∀ sub, subschema s key = Some sub → conforms sub x) as Hall.
    { intros key x Hin.
      assert (s_type s = Some "object" → (s_closed s = true → is_Some (subschema s key)) ∧
        ∀ sub, subschema s key = Some sub → conforms sub x) as Hobj.
      { intros Hst. apply (Hentry key x path Hin Hst). by apply H3. }
      split.
      - intros Hc. apply Hobj; [|done]. unfold s_closed in Hc.
        destruct (field "additionalProperties" s) eqn:E; [|done]. eapply Hb; [|exact E]. set_solver.
      - intros sub Hsub. apply Hobj; [|done]. unfold subschema in Hsub.
        destruct (declared _ key) as [p|] eqn:Hd.
        + apply declared_Some in Hd as [Hd _]. destruct (s_properties s) as [props|] eqn:E; [|done].
          apply s_properties_Some in E. eapply Hb; [|exact E]. set_solver.
        + apply s_additional_Some in Hsub as [E _]. eapply Hb; [|exact E]. set_solver. }
    apply conforms_intro.
    + discriminate.
    + intros t Hst. left. cbn. by rewrite (H1 t Hst).
    + exact H2.
    + intros ? ? [=].
    + intros ? ? [=].
    + intros ? [=].
    + intros ? ? ? [=].
    + intros ? key [= <-] Hk. apply H3; [|done]. unfold s_required in Hk.
      destruct (field "required" s) eqn:E; [|by apply elem_of_nil in Hk]. eapply Hb; [|exact E]. set_solver.
    + intros ? key x [= <-] Hc Hin. by apply (Hall key x).
    + intros ? key x sub [= <-] Hin. by apply (Hall key x).
  - inversion 1 as [? ? _ H1 H2 _ _ _ _ Hr Hc Hs]; subst. split_and!.
    + intros t Hst. destruct (H1 t Hst) as [<-|[_ [z ?]]]; done.
    + done.
    + intros Hst. split; [eauto|]. intros [key x] Hin. apply (Hentry key x path Hin Hst). split; [eauto|eauto].
Qed.

Lemma plain_conforms v :
  match v with VArr _ | VObj _ | VNull => False | _ => True end →
  ∀ s path, enforced s → check v s path ↔ conforms s v.
Proof.
  intros Hv s path He. destruct (closed_fields s) as (Ht & Hen & _).
  rewrite (validateProperty_plain stops path v _ Hv), enumErrors_nil, Ht, Hen.
  setoid_rewrite type_ok. split.
  - intros [H1 H2]. apply conforms_intro; [by destruct v|done|done|..]; by destruct v.
  - by inversion 1.
Qed.

Lemma validate_conforms v : ∀ s path, enforced s → check v s path ↔ conforms s v.
Proof.
  induction v as [|b|z|t|l IH|l IH] using JsonText.JsValue_ind'; intros s path He.
  - cbn [validateProperty]. destruct (closed_fields s) as (_ & _ & _ & _ & _ & _ & ->).
    rewrite (enforced_default s He). split; [done|]. by inversion 1.
  - by apply plain_conforms.
  - by apply plain_conforms.
  - by apply plain_conforms.
  - by apply array_conforms.
  - by apply object_conforms.
Qed.

End exact.

(** ** The shape of a payload *)

(** how deep objects and arrays nest *)
Fixpoint depthOf (v : JsValue) : nat :=
  match v with
  | VArr l => S (max_list (List.map depthOf l))
  | VObj l => S (max_list (List.map (λ kv, depthOf kv.2) l))
  | _ => 0
  end.

(** the keys at every level *)
Fixpoint allKeys (v : JsValue) : list string :=
  match v with
  | VArr l => mjoin (List.map allKeys l)
  | VObj l => mjoin (List.map (λ kv, kv.1 :: allKeys kv.2) l)
  | _ => []
  end.

Definition wellShaped (v : JsValue) (depth : nat) : Prop :=
  (depth + depthOf v ≤ S SIGNAL_PAYLOAD_MAX_DEPTH)%nat ∧ ∀ k, k ∈ allKeys v → k ∉ RESERVED_PAYLOAD_KEYS.

Lemma max_list_le (l : list nat) n : (max_list l ≤ n)%nat ↔ ∀ m, m ∈ l → (m ≤ n)%nat.
Proof.
  induction l as [|x l IH].
  - split; [|cbn; lia]. by intros _ m ?%elem_of_nil.
  - change (max_list (x :: l)) with (x `max` max_list l)%nat. setoid_rewrite elem_of_cons. split.
    + intros H m [->|Hm]; [lia|]. apply IH; [lia|done].
    + intros H. assert (x ≤ n)%nat by auto. assert (max_list l ≤ n)%nat by (apply IH; auto). lia.
Qed.

Lemma elem_of_mjoin_map {A B} (f : A → list B) l x : x ∈ mjoin (List.map f l) ↔ ∃ y, y ∈ l ∧ x ∈ f y.
Proof.
  rewrite list_elem_of_join. setoid_rewrite list_elem_of_In at 2. setoid_rewrite in_map_iff.
  setoid_rewrite <-list_elem_of_In. naive_solver.
Qed.

(** nesting one level down *)
Lemma depth_children (l : list JsValue) (depth : nat) :
  (depth + S (max_list (List.map depthOf l)) ≤ S SIGNAL_PAYLOAD_MAX_DEPTH)%nat ↔
  (depth ≤ SIGNAL_PAYLOAD_MAX_DEPTH)%nat ∧
  ∀ x, x ∈ l → (S depth + depthOf x ≤ S SIGNAL_PAYLOAD_MAX_DEPTH)%nat.
Proof.
  assert ((∀ x, x ∈ l → (S depth + depthOf x ≤ S SIGNAL_PAYLOAD_MAX_DEPTH)%nat) ↔
    ∀ m, m ∈ List.map depthOf l → (S depth + m ≤ S SIGNAL_PAYLOAD_MAX_DEPTH)%nat) as ->.
  { setoid_rewrite list_elem_of_In at 2. setoid_rewrite in_map_iff. setoid_rewrite <-list_elem_of_In. naive_solver. }
  generalize (List.map depthOf l). clear l. intros l. split.
  - intros H. split; [lia|]. intros m Hm. assert (m ≤ max_list l)%nat by (by apply (max_list_le l)). lia.
  - intros [H1 H2]. assert (max_list l ≤ SIGNAL_PAYLOAD_MAX_DEPTH - depth)%nat; [|lia].
    apply max_list_le. intros m Hm. specialize (H2 m Hm). lia.
Qed.

Lemma structuralErrors_nil v :
  ∀ path depth, (depth ≤ S SIGNAL_PAYLOAD_MAX_DEPTH)%nat → structuralErrors v path depth = [] ↔ wellShaped v depth.
Proof.
  unfold wellShaped.
  induction v as [|b|z|t|l IH|l IH] using JsonText.JsValue_ind'; intros path depth Hd; cbn [structuralErrors depthOf allKeys].
  1-4: split; [|done]; intros _; split; [lia|by intros k ?%elem_of_nil].
  - rewrite depth_children. setoid_rewrite elem_of_mjoin_map. rewrite Forall_forall in IH.
    destruct (SIGNAL_PAYLOAD_MAX_DEPTH <? depth)%nat eqn:E; [apply Nat.ltb_lt in E|apply Nat.ltb_ge in E].
    { split; [done|]. intros [[? _] _]. lia. }
    generalize 0%nat. induction l as [|x l IHl]; intros i.
    + split; [|done]. intros _. split; [split; [done|by intros x ?%elem_of_nil]|]. by intros k (y & ?%elem_of_nil & _).
    + cbn [structuralErrors]. rewrite app_nil, (IH x), (IHl (λ y Hy, IH y (list_elem_of_further _ _ _ Hy)) (S i)) by (left || lia).
      setoid_rewrite elem_of_cons. naive_solver.
  - replace (List.map (λ kv, depthOf kv.2) l) with (List.map depthOf l.*2) by (rewrite List.map_map; done).
    rewrite depth_children. setoid_rewrite elem_of_mjoin_map. rewrite Forall_forall in IH.
    destruct (SIGNAL_PAYLOAD_MAX_DEPTH <? depth)%nat eqn:E; [apply Nat.ltb_lt in E|apply Nat.ltb_ge in E].
    { split; [done|]. intros [[? _] _]. lia. }
    induction l as [|[key x] l IHl].
    + split; [|done]. intros _. split; [split; [done|by intros x ?%elem_of_nil]|]. by intros k (y & ?%elem_of_nil & _).
    + cbn [List.map]. change (mjoin (?a :: ?b)) with (a ++ mjoin b). rewrite app_nil, (IHl (λ y Hy, IH y (list_elem_of_further _ _ _ Hy))).
      clear IHl. cbn [fmap list_fmap snd].
      assert ((if bool_decide (key ∈ RESERVED_PAYLOAD_KEYS)
        then [path +:+ "." +:+ key +:+ " uses the reserved key " +:+ dq +:+ key +:+ dq]
        else structuralErrors x (path +:+ "." +:+ key) (S depth)) = [] ↔
        key ∉ RESERVED_PAYLOAD_KEYS ∧ wellShaped x (S depth)) as ->.
      { pose proof (IH (key, x) (list_elem_of_here _ _) (path +:+ "." +:+ key) (S depth)) as Hx. cbn beta iota delta [compose snd] in Hx.
        case_bool_decide; [split; [done|by intros [? _]]|]. rewrite Hx by lia. unfold wellShaped. tauto. }
      unfold wellShaped. split.
      * intros [(Hk & Hx1 & Hx2) [[_ Hl1] Hl2]]. split; [split; [done|]|].
        -- intros y [->|Hy]%elem_of_cons; [done|by apply Hl1].
        -- intros k (y & [->|Hy]%elem_of_cons & Hin); [|by apply Hl2; eauto].
           cbn in Hin. apply elem_of_cons in Hin as [->|Hin]; [done|by apply Hx2].
      * intros [[_ H1] H2].
        assert (∀ k, k = key ∨ k ∈ allKeys x → k ∉ RESERVED_PAYLOAD_KEYS) as H3.
        { intros k Hk. apply H2. exists (key, x). split; [left|]. by apply elem_of_cons. }
        split; [split; [|split]|split; [split; [done|]|]].
        -- apply H3. by left.
        -- apply H1. left.
        -- intros k Hk. apply H3. by right.
        -- intros y Hy. apply H1. by right.
        -- intros k (y & Hy & Hin). apply H2. exists y. split; [by right|done].
Qed.

(** ** Accepted payloads *)

Lemma elem_of_set_assoc {V} key (v : V) l e : e ∈ set_assoc key v l → e = (key, v) ∨ e ∈ l.
Proof.
  induction l as [|[k w] l IH]; cbn.
  - intros ->%list_elem_of_singleton. by left.
  - case_bool_decide as E.
    + subst k. intros [->|H]%elem_of_cons; [by left|right; by right].
    + intros [->|[->|H]%IH]%elem_of_cons; [right; left|by left|right; by right].
Qed.

(** the root is checked as an object whether or not it says so *)
Lemma enforced_root fields :
  unenforcedSchemaKeywords (VObj fields) = [] → enforced (VObj (set_assoc "type" (VStr "object") fields)).
Proof.
  unfold unenforcedSchemaKeywords. intros H. exists "schema". revert H. cbn [collectUnenforcedKeywords].
  rewrite !app_nil, !find_field_eq, !assoc_get_set. intros (Hk & Hp & Hi & Ha). split_and!; [|done..].
  rewrite mjoin_nil in Hk |- *. intros l (e & -> & He)%list_elem_of_fmap.
  apply elem_of_set_assoc in He as [->|He]; [done|].
  rewrite <-(Hk (unenforcedKey "schema" true fields e)) by (apply list_elem_of_fmap; eauto).
  destruct e as [key v]. unfold unenforcedKey. by rewrite assoc_get_set.
Qed.

Lemma validate_payload_only stops payload s :
  isObject s = true →
  (InputValidation.validate stops [("payload", payload)] [("properties", VObj [("payload", s)])]).1 = true ↔
  validateProperty stops payload "payload" s = [].
Proof.
  intros Hs. unfold InputValidation.validate, validateEntries. cbn [fst]. rewrite bool_decide_eq_true.
  change (s_required (VObj [("properties", VObj [("payload", s)])])) with (@nil string). cbn [omap list_omap app].
  rewrite collect_entries_nil. split.
  - intros [_ H]. specialize (H ("payload", payload) (list_elem_of_here _ _)). cbn beta iota in H.
    change (declared (propertiesOf [("properties", VObj [("payload", s)])]) "payload") with
      (if truthy (Some s) then Some s else None) in H. by destruct s.
  - intros H. split; [done|]. intros x ->%list_elem_of_singleton. cbn beta iota.
    change (declared (propertiesOf [("properties", VObj [("payload", s)])]) "payload") with
      (if truthy (Some s) then Some s else None). by destruct s.
Qed.


Definition sampleSchema : list (string * JsValue) :=
  [("properties", VObj [("approved", VObj [("type", VStr "boolean")]);
                        ("tags", VObj [("type", VStr "array"); ("items", VObj [("type", VStr "string")]);
                                       ("uniqueItems", VBool true)])]);
   ("required", VArr [VStr "approved"]); ("additionalProperties", VBool false)].

Definition samplePayload : list (string * JsValue) :=
  [("approved", VBool true); ("tags", VArr [VStr "a"; VStr "b"])].


Example refused_twice :
  validatePayload false (MkData "" sampleSchema 0 None None None)
    (VObj [("tags", VArr [VStr "a"; VStr "a"]); ("x", VNull)]) =
  Invalid ["payload: approved is required"; "payload: tags must have unique items";
           "payload: x is not a valid property"].
Proof. vm_compute. reflexivity. Qed.

(** ** The wait *)

(** [z.string().optional()] and the like, over a field *)
Definition optionalField (ok : JsValue → bool) (key : string) (fields : list (string * JsValue)) : bool :=
  find_field ok true key fields.

Definition isVStr (v : JsValue) : bool := match v with VStr _ => true | _ => false end.

Definition isStringArray (v : JsValue) : bool := match v with VArr l => forallb isVStr l | _ => false end.

(** [JsonSchemaPropertySchema] *)
Fixpoint propertySchemaOk (v : JsValue) : bool :=
  match v with
  | VObj fields =>
      optionalField (λ v, match v with
        | VStr t => bool_decide (t ∈ ["string"; "number"; "integer"; "boolean"; "array"; "object"])
        | _ => false
        end) "type" fields &&
      optionalField isVStr "description" fields &&
      optionalField (λ v, match v with VArr _ => true | _ => false end) "enum" fields &&
      find_field propertySchemaOk true "items" fields &&
      find_field (λ v, match v with
        | VObj props => forallb (λ '(_, child), propertySchemaOk child) props
        | _ => false
        end) true "properties" fields &&
      optionalField isStringArray "required" fields &&
      find_field (λ v, match v with VBool _ => true | _ => propertySchemaOk v end) true
        "additionalProperties" fields
  | _ => false
  end.

(** [RequiredInputsSchemaSchema] *)
Definition inputsSchemaOk (fields : list (string * JsValue)) : bool :=
  optionalField (λ v, match v with VStr t => bool_decide (t = "object") | _ => false end) "type" fields &&
  optionalField (λ v, match v with
    | VObj props => forallb (λ '(_, child), propertySchemaOk child) props
    | _ => false
    end) "properties" fields &&
  optionalField isStringArray "required" fields &&
  optionalField (λ v, match v with VBool _ => true | _ => propertySchemaOk v end) "additionalProperties" fields.

Section stored.
(** [z.string().uuid()] *)
Context (isUuid : string → bool).

Definition receiptOk (r : SignalReceipt) : bool :=
  isUuid (r_id r) && isUuid (r_waitId r) && negb (bool_decide (submittedBy r = "")) &&
  match idempotencyKey r with Some k => isIdempotencyKey k | None => true end.

Definition earlyOk (e : WaitEarly) : bool := isSafeInteger (generation e) && (1 <=? generation e).

(** what every wait satisfies *)
Definition waitOk (d : Data) : bool :=
  isUuid (id_ d) && inputsSchemaOk (schema d) &&
  match receipt d with Some r => receiptOk r | None => true end &&
  match key d with Some k => isWaitKey k | None => true end &&
  match early d with Some e => earlyOk e | None => true end.

Definition receiptToJSON (r : SignalReceipt) : JsValue :=
  VObj ([("id", VStr (r_id r)); ("waitId", VStr (r_waitId r)); ("receivedAt", VNum (receivedAt r));
         ("submittedBy", VStr (submittedBy r))] ++
        optField "idempotencyKey" VStr (idempotencyKey r) ++
        (if heldAsPending r then [("heldAsPending", VBool true)] else [])).

Definition earlyToJSON (e : WaitEarly) : JsValue :=
  VObj [("generation", VNum (generation e)); ("overRelease", VBool (overRelease e)); ("from", VNum (from e))].

(** [SignalReceiptSchema] *)
Definition readReceipt (raw : JsValue) : option SignalReceipt :=
  match raw with
  | VObj f =>
      id ← field_string "id" f;
      waitId ← field_string "waitId" f;
      receivedAt ← s_number "receivedAt" raw;
      submittedBy ← field_string "submittedBy" f;
      idempotencyKey ← match assoc_get "idempotencyKey" f with
        | None => Some None
        | Some (VStr s) => Some (Some s)
        | Some _ => None
        end;
      heldAsPending ← match assoc_get "heldAsPending" f with
        | None => Some false
        | Some (VBool true) => Some true
        | Some _ => None
        end;
      let r := MkReceipt id waitId receivedAt submittedBy idempotencyKey heldAsPending in
      if receiptOk r then Some r else None
  | _ => None
  end.

(** [WaitEarlySchema] *)
Definition readEarly (raw : JsValue) : option WaitEarly :=
  match raw with
  | VObj f =>
      generation ← s_number "generation" raw;
      overRelease ← match assoc_get "overRelease" f with Some (VBool b) => Some b | _ => None end;
      from ← s_number "from" raw;
      let e := MkEarly generation overRelease from in
      if earlyOk e then Some e else None
  | _ => None
  end.

(** an optional field, read *)
Definition readOptional {A} (read : JsValue → option A) (v : option JsValue) : option (option A) :=
  match v with None => Some None | Some v => Some <$> read v end.

(** [SignalWaitSchema.safeParse] *)
Definition readWait (raw : JsValue) : option Data :=
  match raw with
  | VObj f =>
      if bool_decide (field_string "kind" f = Some "signal") then
        id ← field_string "id" f;
        schema ← match assoc_get "schema" f with Some (VObj s) => Some s | _ => None end;
        deadline ← s_number "deadline" raw;
        receipt ← readOptional readReceipt (assoc_get "receipt" f);
        key ← readOptional (λ v, match v with VStr s => Some s | _ => None end) (assoc_get "key" f);
        early ← readOptional readEarly (assoc_get "early" f);
        let d := MkData id schema deadline receipt key early in
        if waitOk d then Some d else None
      else None
  | _ => None
  end.

Definition toData (d : Data) : JsValue :=
  VObj ([("kind", VStr "signal"); ("id", VStr (id_ d)); ("schema", VObj (schema d));
         ("deadline", VNum (deadline d))] ++
        optField "receipt" receiptToJSON (receipt d) ++ optField "key" VStr (key d) ++
        optField "early" earlyToJSON (early d)).

(** *** Operations *)

(** [SignalWait.open]; [uuid] is the new identifier *)
Definition open (uuid : string) (schema : list (string * JsValue)) (timeoutSeconds now maxTimeoutSeconds : Z)
    (key : option string) : result Data :=
  _ ← throw_if (match key with Some k => negb (isWaitKey k) | None => false end)
        ("A wait key must be " +:+ WAIT_KEY_FORM +:+ ", got " +:+ default "" key +:+ ".");
  let max := Z.min maxTimeoutSeconds SIGNAL_WAIT_MAX_TIMEOUT_SECONDS in
  _ ← throw_if (negb (0 <? timeoutSeconds) || negb (timeoutSeconds <=? max))
        ("A wait timeout must be more than 0 and at most " +:+ pretty max +:+ " seconds, got " +:+
         pretty timeoutSeconds +:+ ".");
  Ok (MkData uuid schema (now + timeoutSeconds * 1000) None key None).

Definition withEarly (d : Data) (early : WaitEarly) : result Data :=
  match key d with
  | None => Throw "Only a wait that holds a key takes an early signal."
  | Some _ => Ok (MkData (id_ d) (schema d) (deadline d) (receipt d) (key d) (Some early))
  end.

Definition isSettled (d : Data) : bool := bool_decide (is_Some (receipt d)).

Definition isExpired (d : Data) (now : Z) : bool := deadline d <? now.

Definition settledWith (d : Data) (r : SignalReceipt) : Data :=
  MkData (id_ d) (schema d) (deadline d) (Some r) (key d) (early d).

(** objects with their keys sorted, at every level *)
Fixpoint sortKeys (v : JsValue) : JsValue :=
  match v with
  | VArr l => VArr (List.map sortKeys l)
  | VObj l => VObj (js_sort (λ a b, byCodeUnit a.1 b.1) (List.map (λ '(k, c), (k, sortKeys c)) l))
  | _ => v
  end.

Definition canonicalJson (v : JsValue) : string := json_text (sortKeys v).

Definition equals (a b : Data) : bool := bool_decide (canonicalJson (toData a) = canonicalJson (toData b)).

(** [StoredWait]: a malformed wait is kept as it was *)
Inductive StoredWait := ValidWait (wait : Data) | BrokenWait (raw : JsValue).

Definition parseStoredWait (raw : option JsValue) : option StoredWait :=
  match raw with
  | None => None
  | Some raw =>
      Some (match readWait raw with
      | Some d => ValidWait d
      | None => BrokenWait raw
      end)
  end.

Definition persistedWait (s : StoredWait) : JsValue :=
  match s with ValidWait d => toData d | BrokenWait raw => raw end.

(** *** What is stored is read back *)

Lemma readReceipt_ok r : receiptOk r = true → readReceipt (receiptToJSON r) = Some r.
Proof.
  intros H. transitivity (if receiptOk r then Some r else None); [|by rewrite H].
  destruct r as [i w t s [k|] []]; reflexivity.
Qed.

Lemma readEarly_ok e : earlyOk e = true → readEarly (earlyToJSON e) = Some e.
Proof.
  intros H. transitivity (if earlyOk e then Some e else None); [|by rewrite H]. by destruct e.
Qed.

Lemma readWait_ok d : waitOk d = true → readWait (toData d) = Some d.
Proof.
  intros H. destruct d as [i sc dl r k e]. assert (H' := H). unfold waitOk in H'.
  cbn [receipt key early] in H'. split_bools.
  transitivity (receipt ← readOptional readReceipt (receiptToJSON <$> r);
    early ← readOptional readEarly (earlyToJSON <$> e);
    if waitOk (MkData i sc dl receipt k early) then Some (MkData i sc dl receipt k early) else None).
  - destruct r, k, e; reflexivity.
  - destruct r as [r|], e as [e|]; cbn [fmap option_fmap option_map readOptional];
      rewrite ?readReceipt_ok, ?readEarly_ok by done; cbn [mbind option_bind fmap option_fmap option_map]; by rewrite H.
Qed.

Lemma readWait_waitOk raw d : readWait raw = Some d → waitOk d = true.
Proof.
  destruct raw as [| | | | |f]; try done. unfold readWait. destruct (bool_decide _); [|done].
  repeat (intros (? & _ & H)%bind_Some; revert H). cbv zeta. destruct (waitOk _) eqn:E; [|done]. by intros [= <-].
Qed.

Lemma open_waitOk uuid sc timeout now max k d :
  isUuid uuid = true → inputsSchemaOk sc = true → open uuid sc timeout now max k = Ok d →
  waitOk d = true ∧ now < deadline d ≤ now + SIGNAL_WAIT_MAX_TIMEOUT_SECONDS * 1000.
Proof.
  intros Hu Hsc (_ & Hk%throw_if_ok & H)%result_bind_ok. apply result_bind_ok in H as (_ & Ht%throw_if_ok & [= <-]).
  apply orb_false_iff in Ht as [H1%negb_false_iff%Z.ltb_lt H2%negb_false_iff%Z.leb_le].
  split; [|cbn [deadline]; lia]. unfold waitOk. cbn [id_ schema receipt key early]. rewrite Hu, Hsc.
  destruct k as [k|]; [|done]. apply negb_false_iff in Hk. by rewrite Hk.
Qed.

(** ** What a run record uses

    The interface of [StepRun], whose law is the round trip. *)

Definition wait : Type := dsig (λ d, waitOk d = true).
Definition signalReceipt : Type := dsig (λ r, receiptOk r = true).

Lemma settledWith_ok (w : wait) (r : signalReceipt) : waitOk (settledWith (`w) (`r)) = true.
Proof.
  pose proof (proj2_dsig w) as Hw. pose proof (proj2_dsig r) as Hr. cbn beta in Hw, Hr.
  unfold waitOk in *. cbn [id_ schema receipt key early settledWith]. split_bools. by rewrite Hr, !andb_true_iff.
Qed.

#[local] Program Instance signalWaits (stops : bool) : SignalWaits := {|
  StepRun.SignalWait := wait;
  StepRun.SignalReceipt := signalReceipt;
  wait_id w := id_ (`w);
  wait_deadline w := deadline (`w);
  StepRun.validatePayload w v :=
    match validatePayload stops (`w) v with Valid plain => Some (VObj plain) | Invalid _ => None end;
  StepRun.settledWith w r := dexist (settledWith (`w) (`r)) (settledWith_ok w r);
  receipt_waitId r := r_waitId (`r);
  StepRun.receiptForCaller r := receiptToJSON (receiptForCaller (`r));
  wait_toData w := toData (`w);
  wait_parse raw :=
    match readWait raw with
    | Some d => match decide (waitOk d = true) with left H => Some (dexist d H) | right _ => None end
    | None => None
    end;
|}.

#[local] Instance signalWaitLaws stops : @SignalWaitLaws (signalWaits stops).
Proof.
  constructor. intros w. cbn -[readWait toData waitOk decide]. rewrite readWait_ok by (by apply (proj2_dsig w)).
  destruct (decide _) as [H|H]; [|by destruct H; apply (proj2_dsig w)]. f_equal. apply dexists_proj1.
Qed.

End stored.

End SignalWait.
