(* ===== verification/SignalStore.v ===== *)
(** * The store of signal waits

    The records of [src/src/domain/workflows/signal_wait_records.ts],
    [wait_key_claim.ts] and [pending_signal.ts], their addresses, and the store
    of [src/src/infrastructure/persistence/control_plane_signal_wait_store.ts].

    A step that waits under a key claims it: claims are numbered and created
    once, so of two claimants one wins. A signal sent before its wait opens is
    kept in the slot of the next claim. Steps, signallers and settlers of many
    runs use the store at once, with no lock; each operation is a program of
    calls to the store, as in [WriterLease]. A call may throw, and a call that
    threw may have taken effect. An object of the store is kept as the record
    its bytes hold, or as garbage (bytes over the limit or that are no such
    record); its key is kept as the address it is made from, [storeKey] and the
    two functions that read an address being the two directions. Instants are
    milliseconds. *)

From Stdlib Require Import Ascii.
From S2P Require Import Prelude JsString PartitionKey InputValidation StepRun SignalWait.
Local Open Scope Z_scope.

Module SignalStore.
Import SignalWait.

(** ** Records *)

Record WaitKeyClaim := MkClaim {
  c_workflowId : string;
  c_key : string;
  c_generation : Z;
  c_recordedAt : Z;
  c_waitId : string;
  c_runId : string;
  c_jobName : string;
  c_stepName : string;
  c_deadline : Z;
  c_early : option WaitEarly;
}.

Record WaitKeyRelease := MkRelease {
  l_workflowId : string;
  l_key : string;
  l_generation : Z;
  l_recordedAt : Z;
}.

Inductive WaitKeyRecord := RClaim (c : WaitKeyClaim) | RRelease (r : WaitKeyRelease).

Definition recordGeneration (r : WaitKeyRecord) : Z :=
  match r with RClaim c => c_generation c | RRelease r => l_generation r end.

Record WaitRegistration := MkRegistration {
  g_waitId : string;
  g_workflowId : string;
  g_workflowName : string;
  g_runId : string;
  g_jobName : string;
  g_stepName : string;
  g_deadline : Z;
  g_schema : list (string * JsValue);
  g_registeredAt : Z;
  g_key : option string;
  g_early : option WaitEarly;
}.

Inductive OutcomeKind := Accepted (receipt : SignalReceipt) (payload : list (string * JsValue)) | TimedOut | Cancelled.

Record WaitOutcome := MkOutcome {
  o_kind : OutcomeKind;
  o_waitId : string;
  o_workflowId : string;
  o_runId : string;
  o_deadline : Z;
  o_settledAt : Z;
}.

Record PendingSignal := MkPending {
  p_workflowId : string;
  p_key : string;
  p_slot : Z;
  p_number : Z;
  p_receiptId : string;
  p_receivedAt : Z;
  p_submittedBy : string;
  p_payload : list (string * JsValue);
  p_acceptEarly : Z;
  p_authorizedFor : option string;
  p_idempotencyKey : option string;
}.

Record PendingLapse := MkLapse {
  z_workflowId : string;
  z_key : string;
  z_slot : Z;
  z_number : Z;
  z_recordedAt : Z;
}.

Inductive PendingRecord := RPending (p : PendingSignal) | RLapse (l : PendingLapse).

Definition recordNumber (r : PendingRecord) : Z :=
  match r with RPending p => p_number p | RLapse l => z_number l end.

Record WaitRef := MkRef {
  waitId : string;
  workflowId : string;
  workflowName : option string;
  runId : string;
  f_deadline : Z;
  f_key : option string;
  f_early : option WaitEarly;
  f_schema : option (list (string * JsValue));
}.

Inductive StoredWaitRecord (T : Type) := Found (record : T) | Absent | Unreadable.
Arguments Found {T} _.
Arguments Absent {T}.
Arguments Unreadable {T}.

Definition isAbsent {T} (s : StoredWaitRecord T) : bool := match s with Absent => true | _ => false end.

(** ** Addresses *)

Inductive Address :=
| AKey (workflowId key : string) (generation : Z)
| APending (workflowId key : string) (slot number : Z)
| AOutcome (waitId : string)
| ARegistration (waitId : string).

#[global] Instance Address_eq_dec : EqDecision Address.
Proof. solve_decision. Defined.

Inductive Value :=
| VKey (r : WaitKeyRecord)
| VPending (r : PendingRecord)
| VOutcome (o : WaitOutcome)
| VRegistration (r : WaitRegistration)
| VGarbage.

Definition isSinglePathSegment (id : string) : bool :=
  negb (bool_decide (id = "")) && negb (includesChar "/" id) && negb (includesChar (ascii_of_nat 92) id) &&
  negb (bool_decide (id = ".")) && negb (bool_decide (id = "..")).

(** [generationFromKey] of one segment: [^[1-9][0-9]*$] and a safe integer *)
Definition generationFromKey (last : string) : option Z :=
  match last with
  | EmptyString => None
  | String c rest =>
      if in_range 49 57 c && all_chars isDigit rest then
        let generation := digits_value 0 last in
        if isSafeInteger generation then Some generation else None
      else None
  end.

Definition WAIT_KEY_RECORD_PREFIX : string := "wait-keys/".
Definition PENDING_SIGNAL_PREFIX : string := "wait-pending/".
Definition WAIT_REGISTRATION_PREFIX : string := "waits/".
Definition WAIT_OUTCOME_PREFIX : string := "wait-outcomes/".

Definition normalizeWaitId (raw : string) : option string :=
  let id := toLowerCase (trim raw) in
  if PartitionKey.UUID id then Some id else None.

(** whether an address has a key; the code throws for the others *)
Definition validAddress (a : Address) : bool :=
  match a with
  | AKey workflowId key generation => isSinglePathSegment workflowId && isWaitKey key && (1 <=? generation)
  | APending workflowId key slot number =>
      isSinglePathSegment workflowId && isWaitKey key && (1 <=? slot) && isSafeInteger slot &&
      (1 <=? number) && isSafeInteger number
  | AOutcome waitId | ARegistration waitId => bool_decide (is_Some (normalizeWaitId waitId))
  end.

(** [waitKeyRecordKey], [pendingRecordKey], [waitOutcomeKey], [waitRegistrationKey] *)
Definition storeKey (a : Address) : string :=
  match a with
  | AKey workflowId key generation =>
      WAIT_KEY_RECORD_PREFIX +:+ workflowId +:+ "/" +:+ key +:+ "/" +:+ pretty generation
  | APending workflowId key slot number =>
      PENDING_SIGNAL_PREFIX +:+ workflowId +:+ "/" +:+ key +:+ "/" +:+ pretty slot +:+ "/" +:+ pretty number
  | AOutcome waitId => WAIT_OUTCOME_PREFIX +:+ default waitId (normalizeWaitId waitId)
  | ARegistration waitId => WAIT_REGISTRATION_PREFIX +:+ default waitId (normalizeWaitId waitId)
  end.

Definition waitKeyAddressFromKey (storeKey : string) : option Address :=
  if negb (startsWith storeKey WAIT_KEY_RECORD_PREFIX) then None
  else
    match splitOn "/" (str_drop (String.length WAIT_KEY_RECORD_PREFIX) storeKey) with
    | [workflowId; key; last] =>
        generation ← generationFromKey last;
        if isSinglePathSegment workflowId && isWaitKey key then Some (AKey workflowId key generation) else None
    | _ => None
    end.

Definition pendingAddressFromKey (storeKey : string) : option Address :=
  if negb (startsWith storeKey PENDING_SIGNAL_PREFIX) then None
  else
    match splitOn "/" (str_drop (String.length PENDING_SIGNAL_PREFIX) storeKey) with
    | [workflowId; key; slot; number] =>
        slot ← generationFromKey slot;
        number ← generationFromKey number;
        if isSinglePathSegment workflowId && isWaitKey key then Some (APending workflowId key slot number) else None
    | _ => None
    end.

(** [waitIdFromKey], which tries the two prefixes in turn *)
Definition waitIdFromKey (storeKey : string) : option string :=
  if startsWith storeKey WAIT_REGISTRATION_PREFIX
  then normalizeWaitId (str_drop (String.length WAIT_REGISTRATION_PREFIX) storeKey)
  else if startsWith storeKey WAIT_OUTCOME_PREFIX
  then normalizeWaitId (str_drop (String.length WAIT_OUTCOME_PREFIX) storeKey)
  else None.

(** ** Programs *)

Inductive Prefix := PKey (workflowId key : string) | PKeys | PSlot (workflowId key : string) (slot : Z) | PPendings
| PRegistrations | POutcomes.

Definition under (p : Prefix) (a : Address) : bool :=
  match p, a with
  | PKey w k, AKey w' k' _ => bool_decide (w = w') && bool_decide (k = k')
  | PKeys, AKey _ _ _ => true
  | PSlot w k s, APending w' k' s' _ => bool_decide (w = w') && bool_decide (k = k') && (s =? s')
  | PPendings, APending _ _ _ _ => true
  | PRegistrations, ARegistration _ => true
  | POutcomes, AOutcome _ => true
  | _, _ => false
  end.

(** a program in [await]s: what a call gives, or nothing when it throws *)
Inductive prog (A : Type) : Type :=
| Ret (a : A)
| Die (message : string)
| DoList (p : Prefix) (k : option (list Address) → prog A)
| DoGet (a : Address) (k : option (option Value) → prog A)
| DoPutIfAbsent (a : Address) (v : Value) (k : option () → prog A)
| DoDelete (a : Address) (k : option () → prog A).
Arguments Ret {A} _.
Arguments Die {A} _.
Arguments DoList {A} _ _.
Arguments DoGet {A} _ _.
Arguments DoPutIfAbsent {A} _ _ _.
Arguments DoDelete {A} _ _.

Fixpoint bind {A B} (p : prog A) (f : A → prog B) : prog B :=
  match p with
  | Ret a => f a
  | Die message => Die message
  | DoList p k => DoList p (λ r, bind (k r) f)
  | DoGet a k => DoGet a (λ r, bind (k r) f)
  | DoPutIfAbsent a v k => DoPutIfAbsent a v (λ r, bind (k r) f)
  | DoDelete a k => DoDelete a (λ r, bind (k r) f)
  end.

#[global] Instance prog_ret : MRet prog := @Ret.
#[global] Instance prog_bind : MBind prog := λ A B f p, bind p f.

(** [try]: what the program gives, or the message of what it throws *)
Fixpoint attempt {A} (p : prog A) : prog (A + string) :=
  match p with
  | Ret a => Ret (inl a)
  | Die message => Ret (inr message)
  | DoList p k => DoList p (λ r, attempt (k r))
  | DoGet a k => DoGet a (λ r, attempt (k r))
  | DoPutIfAbsent a v k => DoPutIfAbsent a v (λ r, attempt (k r))
  | DoDelete a k => DoDelete a (λ r, attempt (k r))
  end.

Definition orThrow {A} (r : option A) : prog A :=
  match r with Some a => Ret a | None => Die "the store failed" end.

Definition ofResult {A} (r : result A) : prog A :=
  match r with Ok a => Ret a | Throw message => Die message end.

Definition list_ (p : Prefix) : prog (list Address) := DoList p orThrow.
Definition get (a : Address) : prog (option Value) := DoGet a orThrow.
Definition putIfAbsent (a : Address) (v : Value) : prog () := DoPutIfAbsent a v orThrow.
Definition delete_ (a : Address) : prog () := DoDelete a orThrow.

(** the key of the address, which some addresses do not have *)
Definition at_ {A} (a : Address) (p : prog A) : prog A :=
  if validAddress a then p else Die ("Not a key: " +:+ storeKey a).

Definition withWaitId {A} (waitId : string) (p : string → prog A) : prog A :=
  match normalizeWaitId waitId with Some id => p id | None => Die ("Not a wait id: " +:+ waitId) end.

(** [for ... of] that gathers *)
Fixpoint forEach {A B} (l : list A) (f : A → prog B) : prog (list B) :=
  match l with
  | [] => Ret []
  | x :: l => y ← f x; ys ← forEach l f; Ret (y :: ys)
  end.

Fixpoint foundAmong {T} (l : list (StoredWaitRecord T)) : list T :=
  match l with
  | [] => []
  | Found r :: l => r :: foundAmong l
  | _ :: l => foundAmong l
  end.

(** ** Decoding

    [z.string().uuid()] is a parameter, as are the validator's order of
    errors and the length of a registration's JSON. *)

Class Env := MkEnv {
  isUuid : string → bool;
  stops : bool;
  byteLength : WaitRegistration → Z;
}.

Section store.
Context `{Env}.

(** what parsing keeps of an object: [z.record] drops this name *)
Definition survivesParsing (payload : list (string * JsValue)) : bool :=
  negb (bool_decide ("__proto__" ∈ payload.*1)).

Definition nonEmpty (s : string) : bool := negb (bool_decide (s = "")).

Definition optionally {A} (ok : A → bool) (o : option A) : bool :=
  match o with Some a => ok a | None => true end.

Definition keyAddressOk (workflowId key : string) (generation : Z) : bool :=
  isSinglePathSegment workflowId && isWaitKey key && isSafeInteger generation && (1 <=? generation).

(** [WaitKeyRecordSchema] *)
Definition waitKeyRecordOk (r : WaitKeyRecord) : bool :=
  match r with
  | RClaim c =>
      keyAddressOk (c_workflowId c) (c_key c) (c_generation c) && PartitionKey.UUID (c_waitId c) &&
      isUuid (c_runId c) && nonEmpty (c_jobName c) && nonEmpty (c_stepName c) && optionally earlyOk (c_early c)
  | RRelease r => keyAddressOk (l_workflowId r) (l_key r) (l_generation r)
  end.

(** [PendingRecordSchema] *)
Definition pendingRecordOk (r : PendingRecord) : bool :=
  match r with
  | RPending p =>
      keyAddressOk (p_workflowId p) (p_key p) (p_slot p) && isSafeInteger (p_number p) && (1 <=? p_number p) &&
      isUuid (p_receiptId p) && nonEmpty (p_submittedBy p) && (0 <? p_acceptEarly p) &&
      (p_acceptEarly p <=? SIGNAL_ACCEPT_EARLY_MAX_SECONDS) && optionally nonEmpty (p_authorizedFor p) &&
      optionally isIdempotencyKey (p_idempotencyKey p)
  | RLapse l =>
      keyAddressOk (z_workflowId l) (z_key l) (z_slot l) && isSafeInteger (z_number l) && (1 <=? z_number l)
  end.

(** [WaitRegistrationSchema] *)
Definition waitRegistrationOk (r : WaitRegistration) : bool :=
  PartitionKey.UUID (g_waitId r) && isSinglePathSegment (g_workflowId r) && nonEmpty (g_workflowName r) &&
  isUuid (g_runId r) && nonEmpty (g_jobName r) && nonEmpty (g_stepName r) && inputsSchemaOk (g_schema r) &&
  optionally isWaitKey (g_key r) && optionally earlyOk (g_early r).

(** [WaitOutcomeSchema] *)
Definition waitOutcomeOk (o : WaitOutcome) : bool :=
  PartitionKey.UUID (o_waitId o) && isSinglePathSegment (o_workflowId o) && isUuid (o_runId o) &&
  match o_kind o with Accepted receipt _ => receiptOk isUuid receipt | _ => true end.

Definition keyAddress (r : WaitKeyRecord) : string * string * Z :=
  match r with
  | RClaim c => (c_workflowId c, c_key c, c_generation c)
  | RRelease r => (l_workflowId r, l_key r, l_generation r)
  end.

Definition decodeWaitKeyRecord (v : option Value) (workflowId key : string) (generation : Z)
    : StoredWaitRecord WaitKeyRecord :=
  match v with
  | None => Absent
  | Some (VKey r) =>
      if negb (waitKeyRecordOk r) then Unreadable
      else if match r with
              | RClaim c =>
                  match c_early c with
                  | Some e => negb (SignalWait.generation e =? c_generation c)
                  | None => false
                  end
              | RRelease _ => false
              end
      then Unreadable
      else
        let '(w, k, g) := keyAddress r in
        if bool_decide (w = workflowId) && bool_decide (k = key) && (g =? generation)
        then Found r else Unreadable
  | Some _ => Unreadable
  end.

Definition pendingAddress (r : PendingRecord) : string * string * Z * Z :=
  match r with
  | RPending p => (p_workflowId p, p_key p, p_slot p, p_number p)
  | RLapse l => (z_workflowId l, z_key l, z_slot l, z_number l)
  end.

Definition decodePendingRecord (v : option Value) (workflowId key : string) (slot number : Z)
    : StoredWaitRecord PendingRecord :=
  match v with
  | None => Absent
  | Some (VPending r) =>
      if negb (pendingRecordOk r) then Unreadable
      else
        let '(w, k, s, n) := pendingAddress r in
        if negb (bool_decide (w = workflowId) && bool_decide (k = key) && (s =? slot) && (n =? number))
        then Unreadable
        else if match r with RPending p => negb (survivesParsing (p_payload p)) | RLapse _ => false end
        then Unreadable
        else Found r
  | Some _ => Unreadable
  end.

Definition decodeWaitRegistration (v : option Value) (waitId : string) : StoredWaitRecord WaitRegistration :=
  match v with
  | None => Absent
  | Some (VRegistration r) =>
      if negb (waitRegistrationOk r) then Unreadable
      else if bool_decide (g_waitId r = toLowerCase waitId) then Found r else Unreadable
  | Some _ => Unreadable
  end.

Definition decodeWaitOutcome (v : option Value) (waitId : string) : StoredWaitRecord WaitOutcome :=
  match v with
  | None => Absent
  | Some (VOutcome o) =>
      if negb (waitOutcomeOk o) then Unreadable
      else if negb (bool_decide (o_waitId o = toLowerCase waitId)) then Unreadable
      else
        match o_kind o with
        | Accepted _ payload => if survivesParsing payload then Found o else Unreadable
        | _ => Found o
        end
  | Some _ => Unreadable
  end.

(** ** The store *)

Definition HIGHEST_KEY_RECORD_READS : nat := 4.
Definition WAIT_RECORD_MAX_BYTES : Z := 256 * 1024.

Inductive HighestKeyRecord := KNone | KFound (r : WaitKeyRecord) | KUnreadable (generation : Z).
Inductive HighestPendingRecord := PNone | PFound (r : PendingRecord) | PUnreadable (number : Z).

Definition register (r : WaitRegistration) : prog () :=
  if WAIT_RECORD_MAX_BYTES <? byteLength r
  then Die ("Signal wait registration is " +:+ pretty (byteLength r) +:+ " bytes, over the " +:+
            pretty WAIT_RECORD_MAX_BYTES +:+ " byte limit")
  else withWaitId (g_waitId r) (λ id, putIfAbsent (ARegistration id) (VRegistration r)).

Definition findRegistration (waitId : string) : prog (StoredWaitRecord WaitRegistration) :=
  withWaitId waitId (λ id, v ← get (ARegistration id); Ret (decodeWaitRegistration v waitId)).

Definition waitIdsOf (l : list Address) : list string :=
  omap (λ a, match a with AOutcome id | ARegistration id => normalizeWaitId id | _ => None end) l.

Definition listRegistrations : prog (list WaitRegistration) :=
  keys ← list_ PRegistrations;
  found ← forEach (waitIdsOf keys) findRegistration;
  Ret (foundAmong found).

Definition findOutcome (waitId : string) : prog (StoredWaitRecord WaitOutcome) :=
  withWaitId waitId (λ id, v ← get (AOutcome id); Ret (decodeWaitOutcome v waitId)).

Definition listOutcomes : prog (list WaitOutcome) :=
  keys ← list_ POutcomes;
  found ← forEach (waitIdsOf keys) findOutcome;
  Ret (foundAmong found).

Definition settle (o : WaitOutcome) : prog (StoredWaitRecord WaitOutcome) :=
  _ ← withWaitId (o_waitId o) (λ id, putIfAbsent (AOutcome id) (VOutcome o));
  findOutcome (o_waitId o).

Definition removeRegistration (waitId : string) : prog () :=
  withWaitId waitId (λ id, delete_ (ARegistration id)).

Definition removeOutcome (waitId : string) : prog () := withWaitId waitId (λ id, delete_ (AOutcome id)).

Definition findKeyRecord (workflowId key : string) (generation : Z) : prog (StoredWaitRecord WaitKeyRecord) :=
  at_ (AKey workflowId key generation)
    (v ← get (AKey workflowId key generation); Ret (decodeWaitKeyRecord v workflowId key generation)).

Definition maxGeneration (l : list Address) : Z :=
  foldr (λ a m, match a with AKey _ _ g => Z.max g m | _ => m end) 0 l.

Fixpoint highestKeyLoop (attempts : nat) (workflowId key : string) (generation : Z) : prog HighestKeyRecord :=
  match attempts with
  | O => Ret (KUnreadable generation)
  | S attempts =>
      keys ← list_ (PKey workflowId key);
      let generation := maxGeneration keys in
      if generation =? 0 then Ret KNone
      else
        stored ← findKeyRecord workflowId key generation;
        match stored with
        | Found r => Ret (KFound r)
        | Unreadable => Ret (KUnreadable generation)
        | Absent => highestKeyLoop attempts workflowId key generation
        end
  end.

Definition highestKeyRecord (workflowId key : string) : prog HighestKeyRecord :=
  at_ (AKey workflowId key 1) (highestKeyLoop HIGHEST_KEY_RECORD_READS workflowId key 0).

Definition createKeyRecord (r : WaitKeyRecord) : prog (StoredWaitRecord WaitKeyRecord) :=
  let '(w, k, g) := keyAddress r in
  _ ← at_ (AKey w k g) (putIfAbsent (AKey w k g) (VKey r));
  findKeyRecord w k g.

Definition listKeyRecords : prog (list WaitKeyRecord) :=
  keys ← list_ PKeys;
  found ← forEach keys (λ a,
    match a with AKey w k g => findKeyRecord w k g | _ => Ret Absent end);
  Ret (foundAmong found).

Definition removeKeyRecord (workflowId key : string) (generation : Z) : prog () :=
  at_ (AKey workflowId key generation) (delete_ (AKey workflowId key generation)).

Definition findPendingRecord (workflowId key : string) (slot number : Z) : prog (StoredWaitRecord PendingRecord) :=
  at_ (APending workflowId key slot number)
    (v ← get (APending workflowId key slot number); Ret (decodePendingRecord v workflowId key slot number)).

Definition maxNumber (l : list Address) : Z :=
  foldr (λ a m, match a with APending _ _ _ n => Z.max n m | _ => m end) 0 l.

Fixpoint highestPendingLoop (attempts : nat) (workflowId key : string) (slot number : Z)
    : prog HighestPendingRecord :=
  match attempts with
  | O => Ret (PUnreadable number)
  | S attempts =>
      keys ← list_ (PSlot workflowId key slot);
      let number := maxNumber keys in
      if number =? 0 then Ret PNone
      else
        stored ← findPendingRecord workflowId key slot number;
        match stored with
        | Found r => Ret (PFound r)
        | Unreadable => Ret (PUnreadable number)
        | Absent => highestPendingLoop attempts workflowId key slot number
        end
  end.

Definition highestPendingRecord (workflowId key : string) (slot : Z) : prog HighestPendingRecord :=
  at_ (APending workflowId key slot 1) (highestPendingLoop HIGHEST_KEY_RECORD_READS workflowId key slot 0).

Definition createPendingRecord (r : PendingRecord) : prog (StoredWaitRecord PendingRecord) :=
  let '(w, k, s, n) := pendingAddress r in
  _ ← at_ (APending w k s n) (putIfAbsent (APending w k s n) (VPending r));
  findPendingRecord w k s n.

Definition listPendingAddresses : prog (list Address) := list_ PPendings.

Definition removePendingRecord (workflowId key : string) (slot number : Z) : prog () :=
  at_ (APending workflowId key slot number) (delete_ (APending workflowId key slot number)).

Definition removeKeyRecordsOfWorkflow (workflowId : string) : prog () :=
  if isSinglePathSegment workflowId then
    keys ← list_ PKeys;
    _ ← forEach (List.filter (λ a, match a with AKey w _ _ => bool_decide (w = workflowId) | _ => false end) keys)
      delete_;
    Ret tt
  else Die ("Not a workflow id a wait key can be kept under: " +:+ workflowId).

Definition removePendingRecordsOfWorkflow (workflowId : string) : prog () :=
  if isSinglePathSegment workflowId then
    keys ← list_ PPendings;
    _ ← forEach (List.filter (λ a, match a with APending w _ _ _ => bool_decide (w = workflowId) | _ => false end)
      keys) delete_;
    Ret tt
  else Die ("Not a workflow id a pending signal can be kept under: " +:+ workflowId).

End store.
End SignalStore.
