(* ===== verification/SignalKeys.v ===== *)
(** * Wait keys and early signals

    [src/src/domain/workflows/wait_key_claim.ts], [pending_signal.ts],
    [early_signal.ts], the outcomes of [signal_wait_records.ts], the cleanup of
    [signal_wait_cleanup.ts], the step that opens a wait
    ([execution_service.ts]) and the delivery of a signal
    ([src/src/libswamp/workflows/signal.ts]), as programs over the store of
    [SignalStore]. The clock and new identifiers are arguments, and so is the
    run repository the sweep looks runs up in. *)

From S2P Require Import Prelude JsString PartitionKey InputValidation StepRun SignalWait SignalStore.
Local Open Scope Z_scope.

Module SignalKeys.
Import SignalWait SignalStore.

Section keys.
Context `{Env}.

(** ** Outcomes: [signal_wait_records.ts] *)

Record StepPlace := MkPlace {
  s_workflowId : string;
  s_workflowName : string;
  s_runId : string;
  s_jobName : string;
  s_stepName : string;
}.

Definition registrationOf (at_ : StepPlace) (wait : Data) (now : Z) : WaitRegistration :=
  MkRegistration (id_ wait) (s_workflowId at_) (s_workflowName at_) (s_runId at_) (s_jobName at_)
    (s_stepName at_) (deadline wait) (schema wait) now (SignalWait.key wait) (early wait).

Definition timedOutOutcome (ref : WaitRef) (now : Z) : WaitOutcome :=
  MkOutcome TimedOut (waitId ref) (workflowId ref) (runId ref) (f_deadline ref) now.

Definition cancelledOutcome (ref : WaitRef) (now : Z) : WaitOutcome :=
  MkOutcome Cancelled (waitId ref) (workflowId ref) (runId ref) (f_deadline ref) now.

Definition isWaitExpired (deadline now : Z) : bool := deadline <? now.

(** a registration is a [WaitRef] *)
Definition refOfRegistration (r : WaitRegistration) : WaitRef :=
  MkRef (g_waitId r) (g_workflowId r) (Some (g_workflowName r)) (g_runId r) (g_deadline r) (g_key r)
    (g_early r) (Some (g_schema r)).

(** [SignalWait.fromData({kind, id, schema, deadline})], which throws for what
    is not a wait *)
Definition waitOf (waitId : string) (schema : list (string * JsValue)) (deadline : Z) : result Data :=
  let d := MkData waitId schema deadline None None None in
  if waitOk isUuid d then Ok d else Throw "not a wait".

Inductive SignalDecision :=
| DAccepted (receipt : SignalReceipt) (payload : list (string * JsValue))
| DExpired (deadline : Z)
| DInvalidPayload (errors : list string).

Definition decideSignal (r : WaitRegistration) (payload : JsValue) (submittedBy : string) (now : Z)
    (idempotencyKey : option string) (uuid : string) : result SignalDecision :=
  if isWaitExpired (g_deadline r) now then Ok (DExpired (g_deadline r))
  else
    wait ← waitOf (g_waitId r) (g_schema r) (g_deadline r);
    match validatePayload stops wait payload with
    | Invalid errors => Ok (DInvalidPayload errors)
    | Valid plain => Ok (DAccepted (MkReceipt uuid (g_waitId r) now submittedBy idempotencyKey false) plain)
    end.

(** [settledBy] of [signal_wait_store.ts] *)
Definition settledBy (stored : StoredWaitRecord WaitOutcome) (o : WaitOutcome) : bool :=
  match stored with
  | Found r =>
      match o_kind r, o_kind o with
      | Accepted a _, Accepted b _ => bool_decide (r_id a = r_id b)
      | TimedOut, TimedOut | Cancelled, Cancelled => o_settledAt r =? o_settledAt o
      | _, _ => false
      end
  | _ => false
  end.

(** ** Pending signals: [pending_signal.ts] *)

Definition PENDING_SIGNAL_LAPSE_GRACE_MS : Z := 24 * 60 * 60 * 1000.

Record EarlyWaitRef := MkEarlyRef {
  e_ref : WaitRef;
  e_key : string;
  e_early : WaitEarly;
  e_schema : list (string * JsValue);
}.

Definition earlyWaitRef (ref : WaitRef) : option EarlyWaitRef :=
  match f_key ref, f_early ref, f_schema ref with
  | Some key, Some early, Some schema => Some (MkEarlyRef ref key early schema)
  | _, _, _ => None
  end.

Definition earliestReceipt (claimedAt acceptEarly : Z) : Z := claimedAt - acceptEarly * 1000.

Definition heldUntil (p : PendingSignal) : Z := p_receivedAt p + p_acceptEarly p * 1000.

Definition isPendingHeld (p : PendingSignal) (now : Z) : bool := now <=? heldUntil p.

Definition isReceivedForWait (slot receivedAt : Z) (early : WaitEarly) (deadline : Z) : bool :=
  bool_decide (slot ∈ earlySlots early) && (from early <=? receivedAt) && (receivedAt <=? deadline).

Definition pendingOutcome (p : PendingSignal) (e : EarlyWaitRef) : result (option WaitOutcome) :=
  let ref := e_ref e in
  if negb (bool_decide (p_workflowId p = workflowId ref) && bool_decide (p_key p = e_key e)) then Ok None
  else if match p_authorizedFor p with
          | Some name => negb (bool_decide (Some name = workflowName ref))
          | None => false
          end then Ok None
  else if negb (isReceivedForWait (p_slot p) (p_receivedAt p) (e_early e) (f_deadline ref)) then Ok None
  else
    wait ← waitOf (waitId ref) (e_schema e) (f_deadline ref);
    match validatePayload stops wait (VObj (p_payload p)) with
    | Invalid _ => Ok None
    | Valid payload =>
        Ok (Some (MkOutcome
          (Accepted (MkReceipt (p_receiptId p) (waitId ref) (p_receivedAt p) (p_submittedBy p)
             (p_idempotencyKey p) true) payload)
          (waitId ref) (workflowId ref) (runId ref) (f_deadline ref) (p_receivedAt p)))
    end.

Fixpoint applicableAmong (slots : list Z) (e : EarlyWaitRef) : prog (option WaitOutcome) :=
  match slots with
  | [] => Ret None
  | slot :: slots =>
      highest ← highestPendingRecord (workflowId (e_ref e)) (e_key e) slot;
      match highest with
      | PFound (RPending p) =>
          outcome ← ofResult (pendingOutcome p e);
          match outcome with Some o => Ret (Some o) | None => applicableAmong slots e end
      | _ => applicableAmong slots e
      end
  end.

Definition applicablePendingOutcome (e : EarlyWaitRef) : prog (option WaitOutcome) :=
  applicableAmong (earlySlots (e_early e)) e.

(** what a listener hears changes no record, so it is left out *)
Definition takePendingSignal (e : EarlyWaitRef) : prog (StoredWaitRecord WaitOutcome) :=
  outcome ← applicablePendingOutcome e;
  match outcome with
  | None => Ret Absent
  | Some o => settle o
  end.

(** ** Claims: [wait_key_claim.ts] *)

Definition WAIT_KEY_CLAIM_ATTEMPTS : nat := 8.
Definition WAIT_KEY_UNREGISTERED_GRACE_MS : Z := 5 * 60 * 1000.

Definition waitRefOfClaim (c : WaitKeyClaim) : WaitRef :=
  MkRef (c_waitId c) (c_workflowId c) None (c_runId c) (c_deadline c) (Some (c_key c)) (c_early c) None.

Definition decideKeyHolder (highest : option WaitKeyRecord) (outcome : StoredWaitRecord WaitOutcome)
    : option WaitKeyClaim :=
  match highest with
  | None | Some (RRelease _) => None
  | Some (RClaim c) => if isAbsent outcome then Some c else None
  end.

Definition readsSlot (slot : Z) (c : WaitKeyClaim) (generation : Z) : bool :=
  (generation =? slot) || match c_early c with Some e => overRelease e | None => false end.

Definition knownOrFound (known : option WaitKeyRecord) (workflowId key : string) (generation : Z)
    : prog (StoredWaitRecord WaitKeyRecord) :=
  match known with
  | Some r => if recordGeneration r =? generation then Ret (Found r) else findKeyRecord workflowId key generation
  | None => findKeyRecord workflowId key generation
  end.

Definition claimAmong (slot generation : Z) (stored : StoredWaitRecord WaitKeyRecord) : list WaitKeyClaim :=
  match stored with
  | Found (RClaim c) => if readsSlot slot c generation then [c] else []
  | _ => []
  end.

Definition isUnreadable {T} (s : StoredWaitRecord T) : bool := match s with Unreadable => true | _ => false end.

Definition claimsReadingSlot (workflowId key : string) (slot : Z) (known : option WaitKeyRecord)
    : prog (list WaitKeyClaim * bool) :=
  first ← knownOrFound known workflowId key slot;
  second ← knownOrFound known workflowId key (slot + 1);
  Ret (claimAmong slot slot first ++ claimAmong slot (slot + 1) second,
       isUnreadable first || isUnreadable second).

Record WaitKeyRequest := MkRequest {
  q_workflowId : string;
  q_key : string;
  q_waitId : string;
  q_runId : string;
  q_jobName : string;
  q_stepName : string;
  q_deadline : Z;
  q_acceptEarly : option Z;
}.

Inductive WaitKeyAcquisition :=
| Acquired (claim : WaitKeyClaim)
| Own (claim : WaitKeyClaim)
| HeldBy (claim : WaitKeyClaim)
| UnreadableAt (generation : Z)
| Contended.

Definition waitKeyRefusal (key : string) (refusal : WaitKeyAcquisition) : option string :=
  match refusal with
  | HeldBy c =>
      Some ("key " +:+ key +:+ " is held by the open wait " +:+ c_waitId c +:+ " of step " +:+ c_stepName c +:+
            " in run " +:+ c_runId c)
  | UnreadableAt generation =>
      Some ("record " +:+ pretty generation +:+ " of key " +:+ key +:+
            " cannot be read, so its holder is unknown")
  | Contended =>
      Some ("key " +:+ key +:+ " was claimed by other waits " +:+ pretty (Z.of_nat WAIT_KEY_CLAIM_ATTEMPTS) +:+
            " times in a row")
  | Acquired _ | Own _ => None
  end.

(** an outcome that names another run is not that wait's outcome; [own] of
    [outcomeOfClaim], and [belongsTo] *)
Definition belongsTo (runId : string) (stored : StoredWaitRecord WaitOutcome) : StoredWaitRecord WaitOutcome :=
  match stored with
  | Found o => if bool_decide (o_runId o = runId) then stored else Unreadable
  | _ => stored
  end.

Definition settleTimedOut (ref : WaitRef) (now : Z) : prog (StoredWaitRecord WaitOutcome) :=
  if isWaitExpired (f_deadline ref) now
  then stored ← settle (timedOutOutcome ref now); Ret (belongsTo (runId ref) stored)
  else Ret Absent.

Definition outcomeOfClaim (c : WaitKeyClaim) (now : Z) : prog (StoredWaitRecord WaitOutcome) :=
  let ref := waitRefOfClaim c in
  found ← findOutcome (waitId ref);
  let stored := belongsTo (runId ref) found in
  if negb (isAbsent stored) then Ret stored
  else
    taken ←
      match c_early c with
      | None => Ret Absent
      | Some _ =>
          registration ← findRegistration (c_waitId c);
          match registration with
          | Found r =>
              if bool_decide (g_workflowId r = c_workflowId c) && bool_decide (g_key r = Some (c_key c)) then
                match earlyWaitRef (MkRef (waitId ref) (workflowId ref) (Some (g_workflowName r)) (runId ref)
                        (f_deadline ref) (f_key ref) (f_early ref) (Some (g_schema r))) with
                | Some e => taken ← takePendingSignal e; Ret (belongsTo (runId ref) taken)
                | None => Ret Absent
                end
              else Ret Absent
          | _ => Ret Absent
          end
      end;
    if negb (isAbsent taken) then Ret taken else settleTimedOut ref now.

Definition settleAbandoned (c : WaitKeyClaim) (now : Z) : prog bool :=
  if negb (WAIT_KEY_UNREGISTERED_GRACE_MS <? now - c_recordedAt c) then Ret false
  else
    registration ← findRegistration (c_waitId c);
    if negb (isAbsent registration) then Ret false
    else
      stored ← settle (cancelledOutcome (waitRefOfClaim c) now);
      Ret (negb (isAbsent stored)).

Definition generationOf (record : option WaitKeyRecord) : Z :=
  match record with Some r => recordGeneration r | None => 0 end.

Definition isRelease (record : option WaitKeyRecord) : bool :=
  match record with Some (RRelease _) => true | _ => false end.

Definition claimOver (request : WaitKeyRequest) (record : option WaitKeyRecord) (now : Z) : WaitKeyClaim :=
  let generation := generationOf record + 1 in
  MkClaim (q_workflowId request) (q_key request) generation now (q_waitId request) (q_runId request)
    (q_jobName request) (q_stepName request) (q_deadline request)
    ((λ acceptEarly, MkEarly generation (isRelease record) (earliestReceipt now acceptEarly)) <$>
      q_acceptEarly request).

Definition isMine (request : WaitKeyRequest) (c : WaitKeyClaim) : bool :=
  bool_decide (c_runId c = q_runId request) && bool_decide (c_jobName c = q_jobName request) &&
  bool_decide (c_stepName c = q_stepName request).

Definition tryClaim (request : WaitKeyRequest) (record : option WaitKeyRecord) (now : Z)
    : prog (option WaitKeyClaim) :=
  let claim := claimOver request record now in
  stored ← createKeyRecord (RClaim claim);
  Ret (match stored with
       | Found (RClaim c) => if bool_decide (c_waitId c = c_waitId claim) then Some c else None
       | _ => None
       end).

Fixpoint claimLoop (attempts : nat) (request : WaitKeyRequest) (now : Z) : prog WaitKeyAcquisition :=
  match attempts with
  | O => Ret Contended
  | S attempts =>
      highest ← highestKeyRecord (q_workflowId request) (q_key request);
      match highest with
      | KUnreadable generation => Ret (UnreadableAt generation)
      | _ =>
          let record := match highest with KFound r => Some r | _ => None end in
          outcome ← match record with Some (RClaim c) => outcomeOfClaim c now | _ => Ret Absent end;
          match decideKeyHolder record outcome with
          | Some holder =>
              still ← highestKeyRecord (q_workflowId request) (q_key request);
              match still with
              | KFound r =>
                  if negb (recordGeneration r =? c_generation holder) then claimLoop attempts request now
                  else if isMine request holder then Ret (Own holder)
                  else
                    settled ← settleAbandoned holder now;
                    if settled : bool then claimLoop attempts request now else Ret (HeldBy holder)
              | _ => claimLoop attempts request now
              end
          | None =>
              claimed ← tryClaim request record now;
              match claimed with
              | Some c => Ret (Acquired c)
              | None => claimLoop attempts request now
              end
          end
      end
  end.

Definition claimWaitKey (request : WaitKeyRequest) (now : Z) : prog WaitKeyAcquisition :=
  claimLoop WAIT_KEY_CLAIM_ATTEMPTS request now.

Inductive KeyHolderLookup := LHeld (claim : WaitKeyClaim) | LFree | LUnreadable (generation : Z).

Fixpoint keyHolderLoop (attempts : nat) (workflowId key : string) (highest : HighestKeyRecord)
    : prog KeyHolderLookup :=
  match attempts with
  | O => Ret LFree
  | S attempts =>
      match highest with
      | KUnreadable generation => Ret (LUnreadable generation)
      | KFound (RClaim c) =>
          stored ← findOutcome (c_waitId c);
          match decideKeyHolder (Some (RClaim c)) (belongsTo (c_runId c) stored) with
          | None => Ret LFree
          | Some holder =>
              still ← highestKeyRecord workflowId key;
              match still with
              | KFound r =>
                  if recordGeneration r =? c_generation holder then Ret (LHeld holder)
                  else keyHolderLoop attempts workflowId key still
              | _ => keyHolderLoop attempts workflowId key still
              end
          end
      | _ => Ret LFree
      end
  end.

Definition findKeyHolder (workflowId key : string) : prog KeyHolderLookup :=
  if negb (isSinglePathSegment workflowId) || negb (isWaitKey key) then Ret LFree
  else
    highest ← highestKeyRecord workflowId key;
    keyHolderLoop WAIT_KEY_CLAIM_ATTEMPTS workflowId key highest.

Definition findSettledKeyHolder (workflowId key : string) : prog (option (WaitKeyClaim * WaitOutcome)) :=
  if negb (isSinglePathSegment workflowId) || negb (isWaitKey key) then Ret None
  else
    highest ← highestKeyRecord workflowId key;
    match highest with
    | KFound (RClaim c) =>
        stored ← findOutcome (c_waitId c);
        Ret (match stored with
             | Found o => if bool_decide (o_runId o = c_runId c) then Some (c, o) else None
             | _ => None
             end)
    | _ => Ret None
    end.

(** the records of each key, in the order their keys are met *)
Definition byKey (l : list WaitKeyRecord) : list (list WaitKeyRecord) :=
  let same r r' := bool_decide ((keyAddress r).1 = (keyAddress r').1) in
  let keys := foldl (λ acc r, if existsb (same r) acc then acc else acc ++ [r]) [] l in
  List.map (λ r, List.filter (same r) l) keys.

(** the claims of one key: the highest is superseded, the rest removed; the
    slots only a removed claim read *)
Definition releaseOneKey (shouldRemove : WaitKeyClaim → bool) (now : Z) (records : list WaitKeyRecord)
    : prog (nat * nat * list (string * string * Z)) :=
  let selected := List.filter (λ r, match r with RRelease _ => true | RClaim c => shouldRemove c end) records in
  match selected, records with
  | [], _ | _, [] => Ret (0%nat, 0%nat, [])
  | _, first :: _ =>
      let '(workflowId, key, _) := keyAddress first in
      highest ← highestKeyRecord workflowId key;
      match highest with
      | KFound highest =>
          let floor := recordGeneration highest in
          superseded ←
            match highest with
            | RClaim _ =>
                if existsb (λ r, recordGeneration r =? floor) selected then
                  stored ← createKeyRecord (RRelease (MkRelease workflowId key (floor + 1) now));
                  Ret (match stored with
                       | Absent => None
                       | Found (RRelease r) => Some (floor + 1, if l_recordedAt r =? now then 1%nat else 0%nat)
                       | _ => Some (floor + 1, 0%nat)
                       end)
                else Ret (Some (floor, 0%nat))
            | RRelease _ => Ret (Some (floor, 0%nat))
            end;
          match superseded with
          | None => Ret (0%nat, 0%nat, [])
          | Some (floor, released) =>
              let below := List.filter (λ r, recordGeneration r <? floor) selected in
              _ ← forEach below (λ r, removeKeyRecord workflowId key (recordGeneration r));
              Ret (length below, released,
                mjoin (List.map (λ r, match r with
                  | RClaim c =>
                      (workflowId, key, c_generation c) ::
                      (if match c_early c with Some e => overRelease e | None => false end
                       then [(workflowId, key, c_generation c - 1)] else [])
                  | RRelease _ => []
                  end) below))
          end
      | _ => Ret (0%nat, 0%nat, [])
      end
  end.

Definition removeSlots (orphanedSlots : list (string * string * Z)) : prog () :=
  if bool_decide (orphanedSlots = []) then Ret tt
  else
    addresses ← listPendingAddresses;
    _ ← forEach addresses (λ a, match a with
      | APending w k s n => if bool_decide ((w, k, s) ∈ orphanedSlots) then removePendingRecord w k s n else Ret tt
      | _ => Ret tt
      end);
    Ret tt.

(** how many were removed, and how many superseded *)
Definition releaseKeyClaims (shouldRemove : WaitKeyClaim → bool) (now : Z) : prog (nat * nat) :=
  records ← listKeyRecords;
  results ← forEach (byKey records) (releaseOneKey shouldRemove now);
  _ ← removeSlots (mjoin (List.map snd results));
  Ret (sum_list (List.map (λ '(removed, _, _), removed) results),
       sum_list (List.map (λ '(_, released, _), released) results)).

(** ** Early signals: [early_signal.ts] *)

(** the slot of the next claim, and the slots it reads *)
Definition liveSlotsOf (highest : HighestKeyRecord) : Z * list Z :=
  match highest with
  | KFound r =>
      let generation := recordGeneration r in
      (generation + 1, match r with
                       | RRelease _ => [generation + 1; generation]
                       | RClaim _ => [generation + 1]
                       end)
  | _ => (1, [1])
  end.

Inductive EarlySignalDecision := DStore (number : Z) | DAlreadyPending (record : PendingSignal) | DUnreadable.

Fixpoint firstHeld (heads : list HighestPendingRecord) (now : Z) : option EarlySignalDecision :=
  match heads with
  | [] => None
  | PUnreadable _ :: _ => Some DUnreadable
  | PFound (RPending p) :: heads =>
      if isPendingHeld p now then Some (DAlreadyPending p) else firstHeld heads now
  | _ :: heads => firstHeld heads now
  end.

Definition decideEarlySignal (heads : list HighestPendingRecord) (now : Z) : EarlySignalDecision :=
  match firstHeld heads now with
  | Some decision => decision
  | None =>
      DStore (match heads with
              | [] | PNone :: _ => 1
              | PFound r :: _ => recordNumber r + 1
              | PUnreadable number :: _ => number + 1
              end)
  end.

Record HeldPendingSignal := MkHeld {
  h_workflowId : string;
  h_key : string;
  h_receiptId : string;
  h_receivedAt : Z;
  h_heldUntil : Z;
  h_submittedBy : string;
  h_authorizedFor : option string;
}.

Definition headsOf (workflowId key : string) (live : list Z) : prog (list HighestPendingRecord) :=
  forEach live (highestPendingRecord workflowId key).

Definition heldUnder (now : Z) (at_ : string * string) : prog (option HeldPendingSignal) :=
  let '(workflowId, key) := at_ in
  highest ← highestKeyRecord workflowId key;
  match highest with
  | KUnreadable _ => Ret None
  | _ =>
      heads ← headsOf workflowId key (liveSlotsOf highest).2;
      Ret (match decideEarlySignal heads now with
           | DAlreadyPending p =>
               Some (MkHeld workflowId key (p_receiptId p) (p_receivedAt p) (heldUntil p) (p_submittedBy p)
                       (p_authorizedFor p))
           | _ => None
           end)
  end.

Definition listHeldPendingSignals (now : Z) : prog (list HeldPendingSignal) :=
  addresses ← listPendingAddresses;
  let keys := foldl (λ acc a, match a with
    | APending w k _ _ => if bool_decide ((w, k) ∈ acc) then acc else acc ++ [(w, k)]
    | _ => acc
    end) [] addresses in
  held ← forEach keys (heldUnder now);
  Ret (js_sort (λ a b, h_heldUntil a - h_heldUntil b) (mjoin (List.map option_list held))).

Record EarlySignal := MkSignal {
  y_workflowId : string;
  y_key : string;
  y_payload : list (string * JsValue);
  y_submittedBy : string;
  y_acceptEarly : Z;
  y_idempotencyKey : option string;
  y_authorizedFor : option string;
}.

Inductive EarlyArrival :=
| EPending (record : PendingSignal)
| EAlreadyPending (record : PendingSignal)
| EHeld (claim : WaitKeyClaim) (record : option PendingSignal)
| ETaken (claim : WaitKeyClaim) (record : PendingSignal)
| EDuplicate (claim : WaitKeyClaim) (outcome : WaitOutcome) (record : option PendingSignal)
| EUnreadable
| EContended.

(** the outcome of a claim when a signal was accepted for its run *)
Definition acceptedFor (c : WaitKeyClaim) (stored : StoredWaitRecord WaitOutcome)
    : option (WaitOutcome * SignalReceipt) :=
  match stored with
  | Found o =>
      if negb (bool_decide (o_runId o = c_runId c)) then None
      else match o_kind o with Accepted receipt _ => Some (o, receipt) | _ => None end
  | _ => None
  end.

Definition isCopy (idempotencyKey_ : option string) (submittedBy_ : string) (receipt : SignalReceipt) : bool :=
  match idempotencyKey_ with
  | Some k => bool_decide (idempotencyKey receipt = Some k) && bool_decide (submittedBy receipt = submittedBy_)
  | None => false
  end.

Fixpoint takerAmong (claims : list WaitKeyClaim) (stored : PendingSignal) (copy : option (WaitKeyClaim * WaitOutcome))
    : prog (option (WaitKeyClaim * WaitOutcome)) :=
  match claims with
  | [] => Ret copy
  | c :: claims =>
      if match c_early c with
         | None => true
         | Some e => negb (bool_decide (p_slot stored ∈ earlySlots e))
         end
      then takerAmong claims stored copy
      else
        outcome ← findOutcome (c_waitId c);
        match acceptedFor c outcome with
        | None => takerAmong claims stored copy
        | Some (o, receipt) =>
            if bool_decide (r_id receipt = p_receiptId stored) then Ret (Some (c, o))
            else
              takerAmong claims stored
                (if isCopy (p_idempotencyKey stored) (p_submittedBy stored) receipt then Some (c, o) else copy)
        end
  end.

Definition findTakerOf (stored : PendingSignal) : prog (option (WaitKeyClaim * WaitOutcome)) :=
  claims ← claimsReadingSlot (p_workflowId stored) (p_key stored) (p_slot stored) None;
  takerAmong claims.1 stored None.

Fixpoint settledAmong (generations : list Z) (workflowId key : string) (highest : WaitKeyRecord)
    (idempotencyKey_ submittedBy_ : string) : prog (option (WaitKeyClaim * WaitOutcome)) :=
  match generations with
  | [] => Ret None
  | each :: generations =>
      if each <? 1 then Ret None
      else
        stored ← knownOrFound (Some highest) workflowId key each;
        match stored with
        | Found (RClaim c) =>
            outcome ← findOutcome (c_waitId c);
            match acceptedFor c outcome with
            | Some (o, receipt) =>
                if bool_decide (o_workflowId o = workflowId) && isCopy (Some idempotencyKey_) submittedBy_ receipt
                then Ret (Some (c, o))
                else settledAmong generations workflowId key highest idempotencyKey_ submittedBy_
            | None => settledAmong generations workflowId key highest idempotencyKey_ submittedBy_
            end
        | _ => settledAmong generations workflowId key highest idempotencyKey_ submittedBy_
        end
  end.

Definition settledUnderKey (workflowId key : string) (highest : HighestKeyRecord)
    (idempotencyKey_ submittedBy_ : string) : prog (option (WaitKeyClaim * WaitOutcome)) :=
  match highest with
  | KFound r =>
      settledAmong [recordGeneration r; recordGeneration r - 1] workflowId key r idempotencyKey_ submittedBy_
  | _ => Ret None
  end.

Definition pendingOf (signal : EarlySignal) (receiptId : string) (slot number now : Z) : PendingSignal :=
  MkPending (y_workflowId signal) (y_key signal) slot number receiptId now (y_submittedBy signal)
    (y_payload signal) (y_acceptEarly signal) (y_authorizedFor signal) (y_idempotencyKey signal).

(** whether no claim reads the slot, as far as the highest record tells *)
Definition slotIsLive (slot : Z) (highest : HighestKeyRecord) : bool :=
  match highest with
  | KFound r => (recordGeneration r <? slot) ||
      ((recordGeneration r =? slot) && match r with RRelease _ => true | RClaim _ => false end)
  | _ => 0 <? slot
  end.

Definition keyUnreadable (highest : HighestKeyRecord) : bool :=
  match highest with KUnreadable _ => true | _ => false end.

(** the second read, after the signal was stored: its answer, or nothing when
    the signal has to arrive again *)
Definition answerStored (workflowId key : string) (stored : PendingSignal) : prog (option EarlyArrival) :=
  again ← highestKeyRecord workflowId key;
  if keyUnreadable again then Ret (Some (EPending stored))
  else if slotIsLive (p_slot stored) again then Ret (Some (EPending stored))
  else
    holding ← findKeyHolder workflowId key;
    match holding with
    | LUnreadable _ => Ret (Some EUnreadable)
    | _ =>
        taker ← findTakerOf stored;
        Ret (match taker, holding with
             | Some (claim, outcome), _ =>
                 Some (match o_kind outcome with
                       | Accepted receipt _ =>
                           if bool_decide (r_id receipt = p_receiptId stored) then ETaken claim stored
                           else EDuplicate claim outcome (Some stored)
                       | _ => EDuplicate claim outcome (Some stored)
                       end)
             | None, LHeld claim => Some (EHeld claim (Some stored))
             | None, _ => None
             end)
    end.

(** one attempt: its answer, or what the next one goes on with *)
Definition holdOnce (signal : EarlySignal) (receiptId : string) (now : Z) (stored : option PendingSignal)
    : prog (EarlyArrival + option PendingSignal) :=
  let workflowId := y_workflowId signal in
  let key := y_key signal in
  highest ← highestKeyRecord workflowId key;
  if keyUnreadable highest then Ret (inl EUnreadable)
  else
    holder ← findKeyHolder workflowId key;
    match holder with
    | LUnreadable _ => Ret (inl EUnreadable)
    | LHeld claim => Ret (inl (EHeld claim stored))
    | LFree =>
        landed ←
          match y_idempotencyKey signal with
          | Some k => settledUnderKey workflowId key highest k (y_submittedBy signal)
          | None => Ret None
          end;
        match landed with
        | Some (claim, outcome) => Ret (inl (EDuplicate claim outcome stored))
        | None =>
            heads ← headsOf workflowId key (liveSlotsOf highest).2;
            match decideEarlySignal heads now with
            | DAlreadyPending record => Ret (inl (EAlreadyPending record))
            | DUnreadable => Ret (inl EUnreadable)
            | DStore number =>
                created ← createPendingRecord
                  (RPending (pendingOf signal receiptId (liveSlotsOf highest).1 number now));
                match created with
                | Found (RPending p) =>
                    if negb (bool_decide (p_receiptId p = receiptId)) then Ret (inl (EAlreadyPending p))
                    else
                      answer ← answerStored workflowId key p;
                      Ret (match answer with Some a => inl a | None => inr (Some p) end)
                | Found (RLapse _) => Ret (inr stored)
                | _ => Ret (inl EUnreadable)
                end
            end
        end
    end.

Fixpoint holdLoop (attempts : nat) (signal : EarlySignal) (receiptId : string) (now : Z)
    (stored : option PendingSignal) : prog EarlyArrival :=
  match attempts with
  | O => Ret EContended
  | S attempts =>
      answer ← holdOnce signal receiptId now stored;
      match answer with
      | inl a => Ret a
      | inr stored => holdLoop attempts signal receiptId now stored
      end
  end.

Definition holdEarlySignal (signal : EarlySignal) (receiptId : string) (now : Z) : prog EarlyArrival :=
  holdLoop WAIT_KEY_CLAIM_ATTEMPTS signal receiptId now None.

Inductive EarlierSignal := SPending (record : PendingSignal) | SSettled (claim : WaitKeyClaim) (outcome : WaitOutcome).

Fixpoint pendingAmong (slots : list Z) (workflowId key idempotencyKey_ submittedBy_ : string) (now : Z)
    : prog (option PendingSignal) :=
  match slots with
  | [] => Ret None
  | slot :: slots =>
      head ← highestPendingRecord workflowId key slot;
      match head with
      | PFound (RPending p) =>
          if bool_decide (p_idempotencyKey p = Some idempotencyKey_) &&
             bool_decide (p_submittedBy p = submittedBy_) && isPendingHeld p now
          then Ret (Some p)
          else pendingAmong slots workflowId key idempotencyKey_ submittedBy_ now
      | _ => pendingAmong slots workflowId key idempotencyKey_ submittedBy_ now
      end
  end.

Definition findSignalByIdempotencyKey (workflowId key idempotencyKey_ submittedBy_ : string) (now : Z)
    : prog (option EarlierSignal) :=
  highest ← highestKeyRecord workflowId key;
  match highest with
  | KUnreadable _ => Ret None
  | _ =>
      pending ← pendingAmong (liveSlotsOf highest).2 workflowId key idempotencyKey_ submittedBy_ now;
      match pending with
      | Some p => Ret (Some (SPending p))
      | None =>
          landed ← settledUnderKey workflowId key highest idempotencyKey_ submittedBy_;
          Ret (match landed with Some (claim, outcome) => Some (SSettled claim outcome) | None => None end)
      end
  end.

(** ** Settling and cleaning up: [signal_wait_cleanup.ts] *)

Definition ORPHAN_WAIT_RECORD_GRACE_MS : Z := 24 * 60 * 60 * 1000.

Definition outcomeAt (ref : WaitRef) (now : Z) : prog (StoredWaitRecord WaitOutcome) :=
  found ← findOutcome (waitId ref);
  let stored := belongsTo (runId ref) found in
  if negb (isAbsent stored) then Ret stored
  else
    taken ←
      match earlyWaitRef ref with
      | Some e => taken ← takePendingSignal e; Ret (belongsTo (runId ref) taken)
      | None => Ret Absent
      end;
    if negb (isAbsent taken) then Ret taken else settleTimedOut ref now.

Definition ensureRegistered (r : WaitRegistration) : prog WaitRegistration :=
  stored ← findRegistration (g_waitId r);
  match stored with
  | Found r => Ret r
  | _ =>
      _ ← (if isUnreadable stored then removeRegistration (g_waitId r) else Ret tt);
      _ ← register r;
      now ← findRegistration (g_waitId r);
      Ret (match now with Found r' => r' | _ => r end)
  end.

Definition isOfStep (at_ : StepPlace) (r : WaitRegistration) : bool :=
  bool_decide (g_workflowId r = s_workflowId at_) && bool_decide (g_runId r = s_runId at_) &&
  bool_decide (g_jobName r = s_jobName at_) && bool_decide (g_stepName r = s_stepName at_).

Definition findRegistrationOfStep (at_ : StepPlace) : prog (option WaitRegistration) :=
  registrations ← listRegistrations;
  Ret (List.find (isOfStep at_) registrations).

(** [closeStepWait]; [settled] is whether the step's wait has a receipt *)
Definition closeStepWait (ref : WaitRef) (settled : bool) (now : Z) : prog () :=
  registration ← findRegistration (waitId ref);
  if isAbsent registration then Ret tt
  else
    _ ← (if settled then Ret tt else _ ← settle (cancelledOutcome ref now); Ret tt);
    removeRegistration (waitId ref).

Definition removeWaitRecords (waitIds : list string) : prog () :=
  _ ← forEach waitIds (λ waitId, _ ← removeRegistration waitId; removeOutcome waitId);
  Ret tt.

Definition removeWaitRecordsOfRuns (runIds : list string) (now : Z) : prog nat :=
  if bool_decide (runIds = []) then Ret 0%nat
  else
    _ ← releaseKeyClaims (λ c, bool_decide (c_runId c ∈ runIds)) now;
    registrations ← listRegistrations;
    outcomes ← listOutcomes;
    let waitIds := remove_dups
      (List.map g_waitId (List.filter (λ r, bool_decide (g_runId r ∈ runIds)) registrations) ++
       List.map o_waitId (List.filter (λ o, bool_decide (o_runId o ∈ runIds)) outcomes)) in
    _ ← removeWaitRecords waitIds;
    Ret (length waitIds).

Definition removeSupersededPendingSignal (workflowId key : string) (slot number : Z) : prog () :=
  if number <=? 1 then Ret tt else removePendingRecord workflowId key slot (number - 1).

(** the addresses of each slot, in the order their slots are met *)
Definition bySlot (l : list Address) : list (string * string * Z * list Z) :=
  let slots := foldl (λ acc a, match a with
    | APending w k s _ => if bool_decide ((w, k, s) ∈ acc) then acc else acc ++ [(w, k, s)]
    | _ => acc
    end) [] l in
  List.map (λ at_ : string * string * Z,
    (at_, omap (λ a, match a with
      | APending w k s n => if bool_decide ((w, k, s) = at_) then Some n else None
      | _ => None
      end) l)) slots.

Definition sweepSlot (now : Z) (at_ : string * string * Z * list Z) : prog nat :=
  let '(workflowId, key, slot, numbers) := at_ in
  let remove numbers := _ ← forEach numbers (removePendingRecord workflowId key slot); Ret (length numbers) in
  highest ← highestKeyRecord workflowId key;
  match highest with
  | KUnreadable _ => Ret 0%nat
  | _ =>
      if negb (slotIsLive slot highest) then
        readers ← claimsReadingSlot workflowId key slot
          (match highest with KFound r => Some r | _ => None end);
        if readers.2 || negb (bool_decide (readers.1 = [])) then Ret 0%nat else remove numbers
      else
        head ← highestPendingRecord workflowId key slot;
        match head with
        | PFound r =>
            let floor := recordNumber r in
            superseded ←
              match r with
              | RPending p =>
                  if heldUntil p + PENDING_SIGNAL_LAPSE_GRACE_MS <? now then
                    stored ← createPendingRecord (RLapse (MkLapse workflowId key slot (floor + 1) now));
                    Ret (match stored with Found _ => Some (floor + 1) | _ => None end)
                  else Ret (Some floor)
              | RLapse _ => Ret (Some floor)
              end;
            match superseded with
            | Some floor => remove (List.filter (λ n, n <? floor) numbers)
            | None => Ret 0%nat
            end
        | _ => Ret 0%nat
        end
  end.

Definition sweepPendingSignals (now : Z) : prog nat :=
  addresses ← listPendingAddresses;
  removed ← forEach (bySlot addresses) (sweepSlot now);
  Ret (sum_list removed).

(** what the run repository finds: nothing, a run that cannot be read, or a
    run with its status and the instant it completed *)
Inductive RunLookup := RunAbsent | RunUnreadable | RunFound (status : string) (completedAt : option Z).

Definition isEndedRunStatus (status : string) : bool :=
  bool_decide (status ∈ ["succeeded"; "failed"; "cancelled"]).

Definition endedAfterRegistering (status : string) (completedAt : option Z) (r : WaitRegistration) : bool :=
  if negb (isEndedRunStatus status) then false
  else match completedAt with Some at_ => g_registeredAt r <=? at_ | None => false end.

Definition orphaned (deadline now : Z) : bool := deadline + ORPHAN_WAIT_RECORD_GRACE_MS <? now.

Record WaitRecordSweep := MkSweep {
  w_registrations : nat;
  w_outcomes : nat;
  w_keyRecords : nat;
  w_pendingSignals : nat;
}.

Definition sweepRegistration (findRun : string → string → RunLookup) (now : Z) (r : WaitRegistration) : prog nat :=
  match findRun (g_workflowId r) (g_runId r) with
  | RunUnreadable => Ret 0%nat
  | RunFound status completedAt =>
      if endedAfterRegistering status completedAt r then
        outcome ← findOutcome (g_waitId r);
        _ ← (if isAbsent outcome
             then _ ← settle (cancelledOutcome (refOfRegistration r) now); Ret tt else Ret tt);
        _ ← removeRegistration (g_waitId r);
        Ret 1%nat
      else Ret 0%nat
  | RunAbsent =>
      if orphaned (g_deadline r) now then _ ← removeRegistration (g_waitId r); Ret 1%nat else Ret 0%nat
  end.

Definition runIsAbsent (l : RunLookup) : bool := match l with RunAbsent => true | _ => false end.

Definition sweepOutcome (findRun : string → string → RunLookup) (now : Z) (o : WaitOutcome) : prog nat :=
  if negb (orphaned (o_deadline o) now) then Ret 0%nat
  else if negb (runIsAbsent (findRun (o_workflowId o) (o_runId o))) then Ret 0%nat
  else _ ← removeOutcome (o_waitId o); Ret 1%nat.

Definition sweepWaitRecords (findRun : string → string → RunLookup) (now : Z) (authoritative : bool)
    : prog WaitRecordSweep :=
  pendingSignals ← sweepPendingSignals now;
  if negb authoritative then Ret (MkSweep 0 0 0 pendingSignals)
  else
    registrations ← listRegistrations;
    registrations ← forEach registrations (sweepRegistration findRun now);
    keyRecords ← releaseKeyClaims
      (λ c, orphaned (c_deadline c) now && runIsAbsent (findRun (c_workflowId c) (c_runId c))) now;
    outcomes ← listOutcomes;
    outcomes ← forEach outcomes (sweepOutcome findRun now);
    Ret (MkSweep (sum_list registrations) (sum_list outcomes) keyRecords.1 pendingSignals).

(** ** A step opens its wait: [execution_service.ts] *)

Record WaitTask := MkTask {
  t_schema : list (string * JsValue);
  t_timeout : Z;
  t_key : option string;
  t_acceptEarly : option Z;
}.

Inductive WaitOpening :=
| WTimeoutTooLong
| WKeyHeld (refusal : WaitKeyAcquisition)
| WOpened (wait : Data) (taken : StoredWaitRecord WaitOutcome) (error : option string).

(** a wait this step registered before its process died; [started] is whether
    this process started the run *)
Definition adoptableWait (started : bool) (at_ : StepPlace) (now : Z) : prog (option WaitRegistration) :=
  if started then Ret None
  else
    earlier ← findRegistrationOfStep at_;
    match earlier with
    | None => Ret None
    | Some earlier =>
        outcome ← findOutcome (g_waitId earlier);
        let accepted := match outcome with
          | Found o => match o_kind o with Accepted _ _ => true | _ => false end
          | _ => false
          end in
        if accepted || (isAbsent outcome && negb (isWaitExpired (g_deadline earlier) now)) then Ret (Some earlier)
        else
          _ ← (if isAbsent outcome
               then _ ← settle (cancelledOutcome (refOfRegistration earlier) now); Ret tt else Ret tt);
          _ ← removeRegistration (g_waitId earlier);
          Ret None
    end.

(** [SignalWait.fromData] of every field *)
Definition fromData (d : Data) : prog Data :=
  if waitOk isUuid d then Ret d else Die "not a wait".

(** [waitRefOf] of the step that waits *)
Definition waitRefOf (at_ : StepPlace) (wait : Data) : WaitRef :=
  match SignalWait.key wait, early wait with
  | Some key, Some early =>
      MkRef (id_ wait) (s_workflowId at_) (Some (s_workflowName at_)) (s_runId at_) (deadline wait) (Some key)
        (Some early) (Some (schema wait))
  | _, _ =>
      MkRef (id_ wait) (s_workflowId at_) (Some (s_workflowName at_)) (s_runId at_) (deadline wait) None None None
  end.

(** failures of the store are ignored: the error that led here is reported *)
Definition closeUnopenedWait (at_ : StepPlace) (wait : Data) (now : Z) : prog () :=
  match SignalWait.key wait with
  | None => Ret tt
  | Some _ =>
      _ ← attempt (settle (cancelledOutcome
        (MkRef (id_ wait) (s_workflowId at_) None (s_runId at_) (deadline wait) None None None) now));
      Ret tt
  end.

(** the wait the step holds once it has its key *)
Definition acquire (at_ : StepPlace) (task : WaitTask) (wait : Data) (key : string) (claimedAt closedAt : Z)
    : prog (Data + WaitKeyAcquisition) :=
  acquisition ← attempt (claimWaitKey (MkRequest (s_workflowId at_) key (id_ wait) (s_runId at_) (s_jobName at_)
    (s_stepName at_) (deadline wait) (t_acceptEarly task)) claimedAt);
  match acquisition with
  | inr error => _ ← closeUnopenedWait at_ wait closedAt; Die error
  | inl (Own c) =>
      wait ← fromData (MkData (c_waitId c) (t_schema task) (c_deadline c) None (Some key) (c_early c));
      Ret (inl wait)
  | inl (Acquired c) =>
      match c_early c with
      | Some e => wait ← ofResult (withEarly wait e); Ret (inl wait)
      | None => Ret (inl wait)
      end
  | inl refusal => Ret (inr refusal)
  end.

(** the step waits; an early signal is taken at once *)
Definition takeEarly (at_ : StepPlace) (wait : Data) : prog WaitOpening :=
  match earlyWaitRef (waitRefOf at_ wait) with
  | None => Ret (WOpened wait Absent None)
  | Some e =>
      taken ← attempt (takePendingSignal e);
      Ret (match taken with
           | inl stored => WOpened wait stored None
           | inr error => WOpened wait Absent (Some error)
           end)
  end.

Definition openWait (started : bool) (maxTimeout : option Z) (at_ : StepPlace) (task : WaitTask) (uuid : string)
    (openedAt claimedAt closedAt : Z) : prog WaitOpening :=
  earlier ← adoptableWait started at_ openedAt;
  match earlier with
  | Some earlier =>
      wait ← fromData (MkData (g_waitId earlier) (g_schema earlier) (g_deadline earlier) None (g_key earlier)
        (g_early earlier));
      takeEarly at_ wait
  | None =>
      if match maxTimeout with Some max => max <? t_timeout task | None => false end then Ret WTimeoutTooLong
      else
        wait ← ofResult (SignalWait.open uuid (t_schema task) (t_timeout task) openedAt
          (default SIGNAL_WAIT_MAX_TIMEOUT_SECONDS maxTimeout) (t_key task));
        acquired ←
          match t_key task with
          | Some key => acquire at_ task wait key claimedAt closedAt
          | None => Ret (inl wait)
          end;
        match acquired with
        | inr refusal => Ret (WKeyHeld refusal)
        | inl wait =>
            registered ← attempt (register (registrationOf at_ wait openedAt));
            match registered with
            | inr error => _ ← closeUnopenedWait at_ wait closedAt; Die error
            | inl _ => takeEarly at_ wait
            end
        end
  end.

(** ** A signal is delivered to an open wait: [deliver] of [signal.ts], from the
    registration of the wait on *)

Inductive Delivery :=
| VInvalidPayload (errors : list string)
| VTimedOut
| VUnreadableRecord
| VRefused (outcome : WaitOutcome)
| VDelivered (outcome : WaitOutcome) (duplicate : bool).

Definition answerDelivery (sender : string) (idempotencyKey_ : option string)
    (stored : StoredWaitRecord WaitOutcome) (delivered : option WaitOutcome) : Delivery :=
  let landed := match delivered with Some d => settledBy stored d | None => false end in
  match stored with
  | Found o =>
      match o_kind o with
      | Accepted receipt _ =>
          if landed then VDelivered o false
          else if isCopy idempotencyKey_ sender receipt then VDelivered o true
          else VRefused o
      | _ => VRefused o
      end
  | _ => VUnreadableRecord
  end.

Definition deliver (r : WaitRegistration) (payload : JsValue) (sender : string) (idempotencyKey_ : option string)
    (pendingReceiptId : option string) (uuid : string) (now : Z) : prog Delivery :=
  stored ← outcomeAt (refOfRegistration r) now;
  match stored with
  | Absent =>
      decision ← ofResult (decideSignal r payload sender now idempotencyKey_ uuid);
      match decision with
      | DInvalidPayload errors => Ret (VInvalidPayload errors)
      | DExpired _ => Ret VTimedOut
      | DAccepted receipt plain =>
          let outcome := MkOutcome (Accepted receipt plain) (g_waitId r) (g_workflowId r) (g_runId r)
            (g_deadline r) now in
          stored ← settle outcome;
          Ret (answerDelivery sender idempotencyKey_ stored (Some outcome))
      end
  | _ =>
      Ret (answerDelivery sender idempotencyKey_ stored
        (match stored with
         | Found o =>
             match o_kind o with
             | Accepted receipt _ => if bool_decide (pendingReceiptId = Some (r_id receipt)) then Some o else None
             | _ => None
             end
         | _ => None
         end))
  end.

End keys.
End SignalKeys.
