(* ===== verification/SignalKeysProps.v ===== *)
(** * Properties of wait keys and early signals

    Any number of processes use one store of signal waits at once: steps that
    open waits, signallers, settlers, sweeps and removals. Their calls
    interleave, may fail with or without effect, and a process may stop for
    good at any call. Nothing but registrations is taken out of the store
    meanwhile. This file has the logs such processes leave, what they say when
    each addition keeps to the protocol, and a logic of programs;
    [SignalKeysRuns] applies it to every operation. *)

From Stdlib Require Import Ascii.
From S2P Require Import Prelude JsString ModelType PartitionKey InputValidation StepRun SignalWait SignalStore SignalKeys.
Local Open Scope Z_scope.

Module SignalKeysProps.
Import SignalWait SignalStore SignalKeys.

Section props.
Context `{Env}.

(** ** Processes on one store *)

(** the objects of a store, the oldest first *)
Notation log := (list (Address * Value)).

Fixpoint find (σ : log) (a : Address) : option Value :=
  match σ with
  | [] => None
  | (a', v) :: σ => if decide (a' = a) then Some v else find σ a
  end.

Definition listing (p : Prefix) (σ : log) : list Address := List.filter (under p) σ.*1.

Definition put (σ : log) (a : Address) (v : Value) : log :=
  match find σ a with Some _ => σ | None => σ ++ [(a, v)] end.

(** [removes] says which removals take effect *)
Definition remove (removes : Address → bool) (σ : log) (a : Address) : log :=
  if removes a then List.filter (λ e, negb (bool_decide (e.1 = a))) σ else σ.

(** One call of a process. Each call to the store is atomic; it may fail, and
    a call that failed may or may not have taken effect. *)
Inductive procStep {A} (removes : Address → bool) : log → prog A → log → prog A → Prop :=
| ps_list σ p k : procStep removes σ (DoList p k) σ (k (Some (listing p σ)))
| ps_list_fail σ p k : procStep removes σ (DoList p k) σ (k None)
| ps_get σ a k : procStep removes σ (DoGet a k) σ (k (Some (find σ a)))
| ps_get_fail σ a k : procStep removes σ (DoGet a k) σ (k None)
| ps_put σ a v k : procStep removes σ (DoPutIfAbsent a v k) (put σ a v) (k (Some tt))
| ps_put_fail σ a v k : procStep removes σ (DoPutIfAbsent a v k) σ (k None)
| ps_put_unknown σ a v k : procStep removes σ (DoPutIfAbsent a v k) (put σ a v) (k None)
| ps_delete σ a k : procStep removes σ (DoDelete a k) (remove removes σ a) (k (Some tt))
| ps_delete_fail σ a k : procStep removes σ (DoDelete a k) σ (k None)
| ps_delete_unknown σ a k : procStep removes σ (DoDelete a k) (remove removes σ a) (k None).

(** a store and the processes that use it; any of them makes the next call *)
Inductive step {A} (removes : Address → bool) : log * list (prog A) → log * list (prog A) → Prop :=
| step_proc σ ps i p σ' p' :
    ps !! i = Some p → procStep removes σ p σ' p' → step removes (σ, ps) (σ', <[i := p']> ps).

Definition isRegistration (a : Address) : bool := match a with ARegistration _ => true | _ => false end.
Definition isRegistrations (p : Prefix) : bool := match p with PRegistrations => true | _ => false end.

(** what is never removed *)
Definition core (σ : log) : log := List.filter (λ e, negb (isRegistration e.1)) σ.

(** ** What the log says *)

Definition claimed (σ : log) (c : WaitKeyClaim) : Prop :=
  find σ (AKey (c_workflowId c) (c_key c) (c_generation c)) = Some (VKey (RClaim c)).

Definition pendingIn (σ : log) (p : PendingSignal) : Prop :=
  find σ (APending (p_workflowId p) (p_key p) (p_slot p) (p_number p)) = Some (VPending (RPending p)).

(** a wait has an outcome *)
Definition settled (σ : log) (c : WaitKeyClaim) : Prop :=
  ∃ id, normalizeWaitId (c_waitId c) = Some id ∧ is_Some (find σ (AOutcome id)).

(** a claim was given up: a release supersedes it *)
Definition released (σ : log) (c : WaitKeyClaim) : Prop :=
  ∃ l, find σ (AKey (c_workflowId c) (c_key c) (c_generation c + 1)) = Some (VKey (RRelease l)).

(** a claim reads the pending signals of a slot *)
Definition reads (c : WaitKeyClaim) (slot : Z) : Prop :=
  ∃ e, c_early c = Some e ∧ slot ∈ earlySlots e.

(** a wait was given the pending signal with this receipt *)
Definition takes (o : WaitOutcome) (receiptId : string) : Prop :=
  ∃ receipt payload, o_kind o = Accepted receipt payload ∧ heldAsPending receipt = true ∧ r_id receipt = receiptId.

(** the wait of a claim is decided, and not by this receipt *)
Definition decided (σ : log) (receiptId : string) (c : WaitKeyClaim) : Prop :=
  (∃ id o, normalizeWaitId (c_waitId c) = Some id ∧ find σ (AOutcome id) = Some (VOutcome o) ∧
    ¬ takes o receiptId) ∨ released σ c.

(** every claim that reads the slot exists and is decided *)
Definition slotClosed (σ : log) (receiptId workflowId key : string) (slot : Z) : Prop :=
  ∃ r, find σ (AKey workflowId key slot) = Some (VKey r) ∧
    (∀ c, r = RClaim c → waitKeyRecordOk r = true → reads c slot → decided σ receiptId c) ∧
    (∀ l, r = RRelease l → ∃ r', find σ (AKey workflowId key (slot + 1)) = Some (VKey r') ∧
      ∀ c, r' = RClaim c → waitKeyRecordOk r' = true → reads c slot → decided σ receiptId c).

(** ** The protocol: what may be added to a log *)

Definition keyAdmissible (σ : log) (w k : string) (g : Z) (r : WaitKeyRecord) : Prop :=
  keyAddress r = (w, k, g) ∧ 1 ≤ g ∧
  match r with
  | RRelease _ => ∃ c, find σ (AKey w k (g - 1)) = Some (VKey (RClaim c))
  | RClaim c =>
      ∃ record, (record = None ∧ g = 1 ∨ ∃ r', record = Some r' ∧ find σ (AKey w k (g - 1)) = Some (VKey r')) ∧
        (∀ c', record = Some (RClaim c') → settled σ c') ∧
        (∀ e, c_early c = Some e → SignalWait.generation e = g ∧ overRelease e = isRelease record) ∧
        (∀ c', claimed σ c' → c_waitId c' = c_waitId c → c_runId c' = c_runId c)
  end.

Definition pendingAdmissible (σ : log) (w k : string) (s n : Z) (r : PendingRecord) : Prop :=
  pendingAddress r = (w, k, s, n) ∧
  match r with
  | RLapse _ => True
  | RPending p => ∀ p', pendingIn σ p' → p_receiptId p' = p_receiptId p →
      p_workflowId p' = w ∧ p_key p' = k ∧ p_slot p' < s ∧ slotClosed σ (p_receiptId p) w k (p_slot p')
  end.

(** a wait is given a pending signal only through a claim that reads it *)
Definition outcomeAdmissible (σ : log) (id : string) (o : WaitOutcome) : Prop :=
  ∀ receiptId, takes o receiptId → decodeWaitOutcome (Some (VOutcome o)) id = Found o ∧
    ∃ c p, claimed σ c ∧ waitKeyRecordOk (RClaim c) = true ∧ c_waitId c = id ∧ o_runId o = c_runId c ∧
      pendingIn σ p ∧ p_receiptId p = receiptId ∧
      p_workflowId p = c_workflowId c ∧ p_key p = c_key c ∧ reads c (p_slot p).

Definition admissible (σ : log) (a : Address) (v : Value) : Prop :=
  match a, v with
  | AKey w k g, VKey r => keyAdmissible σ w k g r
  | APending w k s n, VPending r => pendingAdmissible σ w k s n r
  | AOutcome id, VOutcome o => outcomeAdmissible σ id o
  | _, _ => False
  end.

Inductive good : log → Prop :=
| good_nil : good []
| good_snoc σ a v : good σ → find σ a = None → admissible σ a v → good (σ ++ [(a, v)]).

(** a registration with an early signal names a claim of its run *)
Definition registrationFor (σ : log) (r : WaitRegistration) : Prop :=
  ∀ k e, g_key r = Some k → g_early r = Some e → ∃ c, claimed σ c ∧ waitKeyRecordOk (RClaim c) = true ∧
    c_waitId c = g_waitId r ∧ c_workflowId c = g_workflowId r ∧ c_key c = k ∧ c_early c = Some e ∧
    c_runId c = g_runId r.

Definition valueFor (σ : log) (v : Value) : Prop :=
  match v with VRegistration r => registrationFor σ r | _ => True end.

(** ** Logs *)

Lemma find_app σ τ a : find (σ ++ τ) a = match find σ a with Some v => Some v | None => find τ a end.
Proof. induction σ as [|[a' v] σ IH]; cbn; [done|]. by destruct (decide (a' = a)). Qed.

Lemma find_snoc σ a v a' :
  find σ a = None → find (σ ++ [(a, v)]) a' = if decide (a = a') then Some v else find σ a'.
Proof.
  intros Hn. rewrite find_app. cbn. destruct (decide (a = a')) as [->|]; [by rewrite Hn|].
  by destruct (find σ a').
Qed.

Lemma find_mono σ τ a v : find σ a = Some v → find (σ ++ τ) a = Some v.
Proof. intros Hf. by rewrite find_app, Hf. Qed.

Lemma find_prefix σ σ' a v : σ `prefix_of` σ' → find σ a = Some v → find σ' a = Some v.
Proof. intros [τ ->]. apply find_mono. Qed.

Lemma find_elem σ a : is_Some (find σ a) ↔ a ∈ σ.*1.
Proof.
  induction σ as [|[a' v] σ IH]; cbn; [rewrite elem_of_nil; split; [by intros [? ?]|done]|].
  rewrite elem_of_cons. destruct (decide (a' = a)) as [->|Hne]; [split; eauto|].
  rewrite IH. split; [auto|]. intros [->|?]; done.
Qed.

Lemma elem_of_listing p σ a : a ∈ listing p σ ↔ is_Some (find σ a) ∧ under p a = true.
Proof. unfold listing. by rewrite elem_of_bfilter, find_elem. Qed.

Lemma find_kept (f : Address * Value → bool) σ a :
  (∀ v, f (a, v) = true) → find (List.filter f σ) a = find σ a.
Proof.
  intros Hf. induction σ as [|[a' v] σ IH]; cbn; [done|]. destruct (f (a', v)) eqn:E; cbn.
  - by rewrite IH.
  - destruct (decide (a' = a)) as [->|]; [by rewrite Hf in E|done].
Qed.

Lemma find_core σ a : isRegistration a = false → find (core σ) a = find σ a.
Proof. intros Ha. apply find_kept. intros v. cbn. by rewrite Ha. Qed.

Lemma listing_core σ p : isRegistrations p = false → listing p (core σ) = listing p σ.
Proof.
  intros Hp. unfold listing, core. induction σ as [|[a v] σ IH]; cbn; [done|].
  destruct (isRegistration a) eqn:E; cbn; rewrite IH; [|done]. destruct a; try done. by destruct p.
Qed.

Lemma core_app σ τ : core (σ ++ τ) = core σ ++ core τ.
Proof. apply List.filter_app. Qed.

Lemma find_admissible σ a v :
  good σ → find σ a = Some v →
  ∃ σ0, σ0 `prefix_of` σ ∧ good σ0 ∧ find σ0 a = None ∧ admissible σ0 a v ∧ σ0 ++ [(a, v)] `prefix_of` σ.
Proof.
  intros Hg. revert a v. induction Hg as [|σ a' v' Hg IH Hn Ha]; intros a v Hf; [done|].
  rewrite find_snoc in Hf by done. destruct (decide (a' = a)) as [->|].
  - injection Hf as ->. exists σ. split_and!; try done. by exists [(a, v)].
  - destruct (IH a v Hf) as (σ0 & Hp & ? & ? & ? & Hp'). exists σ0. split_and!; try done.
    + etrans; [exact Hp|]. by exists [(a', v')].
    + etrans; [exact Hp'|]. by exists [(a', v')].
Qed.

Lemma prefix_snoc_cases {A} (l l' : list A) x :
  l `prefix_of` l' ++ [x] → l = l' ++ [x] ∨ l `prefix_of` l'.
Proof.
  intros [τ Heq]. destruct τ as [|y τ _] using rev_ind.
  - left. by rewrite app_nil_r in Heq.
  - right. rewrite app_assoc in Heq. apply app_inj_tail in Heq as [-> _]. by exists τ.
Qed.

Lemma good_prefix σ σ' : σ `prefix_of` σ' → good σ' → good σ.
Proof.
  intros Hp Hg. revert σ Hp. induction Hg as [|σ' a v Hg IH Hn Ha]; intros σ Hp.
  - apply prefix_nil_inv in Hp as ->. constructor.
  - apply prefix_snoc_cases in Hp as [->|Hp]; [by constructor|auto].
Qed.

(** ** Good logs *)

Lemma claimed_mono σ σ' c : σ `prefix_of` σ' → claimed σ c → claimed σ' c.
Proof. intros Hp. by apply find_prefix. Qed.

Lemma pendingIn_mono σ σ' p : σ `prefix_of` σ' → pendingIn σ p → pendingIn σ' p.
Proof. intros Hp. by apply find_prefix. Qed.

Lemma settled_mono σ σ' c : σ `prefix_of` σ' → settled σ c → settled σ' c.
Proof. intros Hp (id & ? & v & Hv). exists id. split; [done|]. exists v. by eapply find_prefix. Qed.

Lemma released_mono σ σ' c : σ `prefix_of` σ' → released σ c → released σ' c.
Proof. intros Hp (l & Hl). exists l. by eapply find_prefix. Qed.

Lemma decided_mono σ σ' R c : σ `prefix_of` σ' → decided σ R c → decided σ' R c.
Proof.
  intros Hp [(id & o & ? & Ho & ?)|Hr]; [left|right; by eapply released_mono].
  exists id, o. split_and!; try done. by eapply find_prefix.
Qed.

Lemma slotClosed_mono σ σ' R w k s : σ `prefix_of` σ' → slotClosed σ R w k s → slotClosed σ' R w k s.
Proof.
  intros Hp (r & Hr & Hc & Hl). exists r. split; [by eapply find_prefix|]. split.
  - intros c -> ? ?. eapply decided_mono; [done|]. by apply Hc.
  - intros l ->. destruct (Hl l eq_refl) as (r' & Hr' & Hc'). exists r'.
    split; [by eapply find_prefix|]. intros c -> ? ?. eapply decided_mono; [done|]. by apply Hc'.
Qed.

Lemma registrationFor_mono σ σ' r : σ `prefix_of` σ' → registrationFor σ r → registrationFor σ' r.
Proof.
  intros Hp Hr k e Hk He. destruct (Hr k e Hk He) as (c & ? & Hrest). exists c.
  split; [by eapply claimed_mono|done].
Qed.

(** a key's record is at its own address *)
Lemma good_key σ w k g v :
  good σ → find σ (AKey w k g) = Some v →
  ∃ r σ0, v = VKey r ∧ σ0 `prefix_of` σ ∧ σ0 ++ [(AKey w k g, v)] `prefix_of` σ ∧ good σ0 ∧
    keyAdmissible σ0 w k g r.
Proof.
  intros Hg Hf. destruct (find_admissible σ _ _ Hg Hf) as (σ0 & ? & ? & ? & Ha & ?).
  destruct v; try done. eauto 10.
Qed.

Lemma good_key_address σ w k g r :
  good σ → find σ (AKey w k g) = Some (VKey r) → keyAddress r = (w, k, g) ∧ 1 ≤ g.
Proof. intros Hg Hf. by destruct (good_key σ w k g _ Hg Hf) as (r' & σ0 & [= <-] & _ & _ & _ & ? & ? & _). Qed.

Lemma good_claim σ w k g c :
  good σ → find σ (AKey w k g) = Some (VKey (RClaim c)) →
  claimed σ c ∧ c_workflowId c = w ∧ c_key c = k ∧ c_generation c = g.
Proof.
  intros Hg Hf. destruct (good_key_address _ _ _ _ _ Hg Hf) as [[= <- <- <-] _]. done.
Qed.

(** generations are contiguous *)
Lemma good_below σ w k g :
  good σ → is_Some (find σ (AKey w k g)) → 1 < g → ∃ r, find σ (AKey w k (g - 1)) = Some (VKey r).
Proof.
  intros Hg [v Hf] Hlt. destruct (good_key σ w k g v Hg Hf) as (r & σ0 & -> & Hp & _ & _ & _ & _ & Ha).
  destruct r as [c|l].
  - destruct Ha as (record & [[_ ?]|(r' & _ & Hf')] & _); [lia|]. exists r'. by eapply find_prefix.
  - destruct Ha as (c & Hf'). exists (RClaim c). by eapply find_prefix.
Qed.

Lemma good_contiguous σ w k g g' :
  good σ → is_Some (find σ (AKey w k g')) → 1 ≤ g ≤ g' → ∃ r, find σ (AKey w k g) = Some (VKey r).
Proof.
  intros Hg Hs Hle. remember (Z.to_nat (g' - g)) as n eqn:E. revert g g' Hs Hle E.
  induction n as [|n IH]; intros g g' Hs Hle E.
  - replace g' with g in Hs by lia. destruct Hs as [v Hv].
    destruct (good_key _ _ _ _ _ Hg Hv) as (r & _ & -> & _). eauto.
  - destruct (good_below σ w k g' Hg Hs) as (r & Hr); [lia|].
    apply (IH g (g' - 1)); [eauto|lia|lia].
Qed.

(** what supersedes a claim is a release, or the claim's wait is settled *)
Lemma good_superseded σ c :
  good σ → claimed σ c → is_Some (find σ (AKey (c_workflowId c) (c_key c) (c_generation c + 1))) →
  released σ c ∨ settled σ c.
Proof.
  intros Hg Hc [v Hv]. destruct (good_key _ _ _ _ _ Hg Hv) as (r & σ0 & -> & Hp & _ & _ & _ & Hge & Ha).
  destruct r as [c'|l]; [|left; by exists l]. right.
  destruct Ha as (record & Hrec & Hset & _).
  assert (record = Some (RClaim c)) as ->.
  { destruct Hrec as [[-> Hg1]|(r' & -> & Hf)].
    - assert (1 ≤ c_generation c) by (by eapply good_key_address). lia.
    - replace (c_generation c + 1 - 1) with (c_generation c) in Hf by lia.
      apply (find_prefix _ _ _ _ Hp) in Hf. unfold claimed in Hc. congruence. }
  eapply settled_mono; [exact Hp|]. by apply Hset.
Qed.

(** the claims of one wait are of one run *)
Lemma good_run σ c c' : good σ → claimed σ c → claimed σ c' → c_waitId c = c_waitId c' → c_runId c = c_runId c'.
Proof.
  intros Hg. revert c c'. induction Hg as [|σ a v Hg IH Hn Ha]; [done|].
  assert (∀ c c', claimed σ c → claimed (σ ++ [(a, v)]) c' → c_waitId c = c_waitId c' → c_runId c = c_runId c')
    as Hone.
  { intros c c' Hc Hc' He. unfold claimed in Hc'. rewrite find_snoc in Hc' by done.
    destruct (decide (a = _)) as [->|]; [|by apply IH]. injection Hc' as ->.
    destruct Ha as (_ & _ & record & _ & _ & _ & Ha). by apply Ha. }
  intros c c' Hc Hc' He. pose proof Hc as Hq. unfold claimed in Hq. rewrite find_snoc in Hq by done.
  destruct (decide _) as [Ea|]; [|by apply Hone]. pose proof Hc' as Hq'. unfold claimed in Hq'.
  rewrite find_snoc in Hq' by done. destruct (decide _) as [Ea'|]; [congruence|]. symmetry. by apply Hone.
Qed.

(** a claim that reads the slot below its own is over a release *)
Lemma good_reads σ c s :
  good σ → claimed σ c → reads c s →
  s = c_generation c ∨ s = c_generation c - 1 ∧
    ∃ l, find σ (AKey (c_workflowId c) (c_key c) s) = Some (VKey (RRelease l)).
Proof.
  intros Hg Hc (e & He & Hs).
  destruct (good_key _ _ _ _ _ Hg Hc) as (r & σ0 & [= <-] & Hp & _ & _ & _ & Hge & record & Hrec & _ & Hover & _).
  destruct (Hover e He) as [Hgen Hrel]. unfold earlySlots in Hs. rewrite Hgen, Hrel in Hs.
  destruct record as [[c'|l]|]; cbn in Hs.
  - apply list_elem_of_singleton in Hs. auto.
  - destruct (1 <? c_generation c) eqn:E; [|apply list_elem_of_singleton in Hs; auto].
    apply elem_of_cons in Hs as [?|Hs%list_elem_of_singleton]; [auto|]. right. split; [done|].
    destruct Hrec as [[? _]|(r' & [= <-] & Hf)]; [done|]. exists l. subst s. by eapply find_prefix.
  - apply list_elem_of_singleton in Hs. auto.
Qed.

Lemma good_claim_eq σ c c' :
  claimed σ c → claimed σ c' → c_workflowId c = c_workflowId c' → c_key c = c_key c' →
  c_generation c = c_generation c' → c = c'.
Proof. unfold claimed. intros Hc Hc' Hw Hk Hg. rewrite Hw, Hk, Hg in Hc. congruence. Qed.

(** one claim at most reads a slot *)
Lemma good_reader_unique σ c c' s :
  good σ → claimed σ c → claimed σ c' → c_workflowId c = c_workflowId c' → c_key c = c_key c' →
  reads c s → reads c' s → c = c'.
Proof.
  intros Hg Hc Hc' Hw Hk Hr Hr'. unfold claimed in *.
  destruct (good_reads σ c s Hg Hc Hr) as [E|[E (l & Hl)]];
    destruct (good_reads σ c' s Hg Hc' Hr') as [E'|[E' (l' & Hl')]].
  - apply (good_claim_eq σ); congruence.
  - rewrite E, <-Hw, <-Hk in Hl'. congruence.
  - rewrite E', Hw, Hk in Hl. congruence.
  - apply (good_claim_eq σ); try done. lia.
Qed.

(** of two signals kept under one receipt, the slot of the first is closed *)
Lemma good_rearrived σ p p' :
  good σ → pendingIn σ p → pendingIn σ p' → p_receiptId p = p_receiptId p' → p ≠ p' →
  p_workflowId p = p_workflowId p' ∧ p_key p = p_key p' ∧
  (slotClosed σ (p_receiptId p) (p_workflowId p) (p_key p) (p_slot p) ∨
   slotClosed σ (p_receiptId p) (p_workflowId p) (p_key p) (p_slot p')).
Proof.
  intros Hg. revert p p'. induction Hg as [|σ a v Hg IH Hn Ha]; [done|].
  assert (∀ p p', pendingIn σ p → pendingIn (σ ++ [(a, v)]) p' → p_receiptId p = p_receiptId p' → p ≠ p' →
    p_workflowId p = p_workflowId p' ∧ p_key p = p_key p' ∧
    (slotClosed (σ ++ [(a, v)]) (p_receiptId p) (p_workflowId p) (p_key p) (p_slot p) ∨
     slotClosed (σ ++ [(a, v)]) (p_receiptId p) (p_workflowId p) (p_key p) (p_slot p'))) as Hone.
  { intros p p' Hp Hp' He Hne. unfold pendingIn in Hp'. rewrite find_snoc in Hp' by done.
    assert (σ `prefix_of` σ ++ [(a, v)]) as Hpre by (by exists [(a, v)]).
    destruct (decide (a = _)) as [->|].
    - injection Hp' as ->. destruct Ha as (_ & Ha). destruct (Ha p Hp He) as (-> & -> & ? & ?).
      split_and!; [done..|]. left. rewrite He. by eapply slotClosed_mono.
    - destruct (IH p p' Hp Hp' He Hne) as (? & ? & Hcl). split_and!; [done..|].
      destruct Hcl; [left|right]; by eapply slotClosed_mono. }
  intros p p' Hp Hp' He Hne. pose proof Hp as Hq. unfold pendingIn in Hq. rewrite find_snoc in Hq by done.
  destruct (decide (a = APending (p_workflowId p) (p_key p) (p_slot p) (p_number p))) as [Ea|]; [|by apply Hone].
  pose proof Hp' as Hq'. unfold pendingIn in Hq'. rewrite find_snoc in Hq' by done.
  destruct (decide (a = APending (p_workflowId p') (p_key p') (p_slot p') (p_number p'))) as [Ea'|].
  - congruence.
  - destruct (Hone p' p) as (Hw & Hk & Hcl); [done..|]. rewrite Hw, Hk, <-He in Hcl.
    split_and!; [done..|]. tauto.
Qed.

(** ** Safety of good logs *)

(** a claim's wait can still be settled, and its claim is the key's *)
Definition openClaim (σ : log) (c : WaitKeyClaim) : Prop := claimed σ c ∧ ¬ settled σ c ∧ ¬ released σ c.

Lemma good_one_open σ c c' :
  good σ → openClaim σ c → openClaim σ c' → c_workflowId c = c_workflowId c' → c_key c = c_key c' → c = c'.
Proof.
  intros Hg (Hc & Hs & Hr) (Hc' & Hs' & Hr') Hw Hk.
  assert (∀ c c', claimed σ c → ¬ settled σ c → ¬ released σ c → claimed σ c' →
    c_workflowId c = c_workflowId c' → c_key c = c_key c' → ¬ c_generation c < c_generation c') as Hlt.
  { clear -H Hg. intros c c' Hc Hs Hr Hc' Hw Hk Hlt.
    destruct (good_superseded σ c Hg Hc); [|done..].
    destruct (good_contiguous σ (c_workflowId c) (c_key c) (c_generation c + 1) (c_generation c') Hg);
      [|assert (1 ≤ c_generation c) by (by eapply good_key_address); lia|eauto].
    rewrite Hw, Hk. unfold claimed in Hc'. eauto. }
  apply (good_claim_eq σ); try done.
  pose proof (Hlt c c' Hc Hs Hr Hc' Hw Hk). pose proof (Hlt c' c Hc' Hs' Hr' Hc (eq_sym Hw) (eq_sym Hk)). lia.
Qed.

Lemma good_outcome σ id o receiptId :
  good σ → find σ (AOutcome id) = Some (VOutcome o) → takes o receiptId →
  ∃ c p, claimed σ c ∧ waitKeyRecordOk (RClaim c) = true ∧ c_waitId c = id ∧ o_runId o = c_runId c ∧
    pendingIn σ p ∧ p_receiptId p = receiptId ∧
    p_workflowId p = c_workflowId c ∧ p_key p = c_key c ∧ reads c (p_slot p) ∧
    decodeWaitOutcome (Some (VOutcome o)) id = Found o.
Proof.
  intros Hg Hf Ht. destruct (find_admissible σ _ _ Hg Hf) as (σ0 & Hp & _ & _ & Ha & _).
  destruct (Ha receiptId Ht) as (Hd & c & p & Hc & Hok & Hid & Hrun & Hp' & ? & ? & ? & ?). exists c, p.
  split_and!; eauto using claimed_mono, pendingIn_mono.
Qed.

(** a wait that took the signal of a closed slot was given up *)
Lemma good_closed σ R c s :
  good σ → claimed σ c → waitKeyRecordOk (RClaim c) = true → reads c s →
  slotClosed σ R (c_workflowId c) (c_key c) s → decided σ R c.
Proof.
  intros Hg Hc Hok Hr (r & Hf & Hcl & Hrel). unfold claimed in Hc.
  destruct (good_reads σ c s Hg Hc Hr) as [->|[-> (l & Hl)]].
  - rewrite Hc in Hf. injection Hf as <-. by apply Hcl.
  - rewrite Hl in Hf. injection Hf as <-. destruct (Hrel l eq_refl) as (r' & Hf' & Hcl').
    replace (c_generation c - 1 + 1) with (c_generation c) in Hf' by lia.
    rewrite Hc in Hf'. injection Hf' as <-. by apply Hcl'.
Qed.

Lemma uuid_chars shape s : PartitionKey.matchesShape shape s = true → all_chars (λ c, negb (isSpace c)) s = true.
Proof.
  revert s. induction shape as [|d shape IH]; intros [|c s]; cbn; try done.
  intros [Hc Hs]%andb_true_iff. rewrite IH by done. rewrite andb_true_r.
  destruct d; [by apply Ascii.eqb_eq in Hc as ->|].
  unfold PartitionKey.isLowerHex, isDigit, in_range in Hc. unfold isSpace, in_range, code in *. split_bools.
  destruct (nat_of_ascii c) as [|n] eqn:E; lia.
Qed.

Lemma normalizeWaitId_uuid id : PartitionKey.UUID id = true → normalizeWaitId id = Some id.
Proof.
  intros Hu. unfold normalizeWaitId. rewrite ModelType.trim_id by (by eapply uuid_chars).
  rewrite (PartitionKey.matchesShape_lower _ _ Hu). by rewrite Hu.
Qed.

Lemma claim_waitId c : waitKeyRecordOk (RClaim c) = true → normalizeWaitId (c_waitId c) = Some (c_waitId c).
Proof. unfold waitKeyRecordOk. intros Hok. split_bools. by apply normalizeWaitId_uuid. Qed.

Lemma good_taken_once σ id id' o o' R :
  good σ → find σ (AOutcome id) = Some (VOutcome o) → find σ (AOutcome id') = Some (VOutcome o') →
  takes o R → takes o' R →
  id = id' ∨ ∃ c, claimed σ c ∧ released σ c ∧ (c_waitId c = id ∨ c_waitId c = id').
Proof.
  intros Hg Hf Hf' Ht Ht'.
  destruct (good_outcome _ _ _ _ Hg Hf Ht) as (c & p & Hc & Hok & Hid & _ & Hp & HR & Hw & Hk & Hr & _).
  destruct (good_outcome _ _ _ _ Hg Hf' Ht') as (c' & p' & Hc' & Hok' & Hid' & _ & Hp' & HR' & Hw' & Hk' & Hr' & _).
  assert (∀ id o c s, find σ (AOutcome id) = Some (VOutcome o) → takes o R → claimed σ c →
    waitKeyRecordOk (RClaim c) = true → c_waitId c = id → reads c s →
    slotClosed σ R (c_workflowId c) (c_key c) s → released σ c) as Hdec.
  { clear -H Hg. intros id o c s Hf Ht Hc Hok Hid Hr Hcl.
    destruct (good_closed σ R c s Hg Hc Hok Hr Hcl) as [(id0 & o0 & Hn & Hf0 & Hno)|?]; [|done].
    rewrite claim_waitId in Hn by done. congruence. }
  destruct (decide (p_workflowId p = p_workflowId p' ∧ p_key p = p_key p' ∧ p_slot p = p_slot p'))
    as [(Ew & Ek & Es)|Hne].
  - left. rewrite <-Hid, <-Hid'. f_equal. apply (good_reader_unique σ c c' (p_slot p)); try done; congruence.
  - destruct (good_rearrived σ p p' Hg Hp Hp') as (Ew & Ek & Hcl); [congruence|naive_solver|].
    rewrite HR in Hcl. right. destruct Hcl as [Hcl|Hcl].
    + exists c. split_and!; [done| |auto]. apply (Hdec id o c (p_slot p)); try done. congruence.
    + exists c'. split_and!; [done| |auto]. apply (Hdec id' o' c' (p_slot p')); try done. congruence.
Qed.

(** ** A logic of programs

    A process has a token, the identifier it made: the receipt of the signal it
    sends, or the wait it opens. Between its calls the others extend the log as
    the protocol allows, and never with its token. *)

Definition foreign (me : string) (e : Address * Value) : Prop :=
  match e.2 with
  | VPending (RPending p) => p_receiptId p ≠ me
  | VKey (RClaim c) => c_waitId c ≠ me
  | _ => True
  end.

Definition mine (me : string) (v : Value) : Prop :=
  match v with
  | VPending (RPending p) => p_receiptId p = me
  | VKey (RClaim c) => c_waitId c = me
  | _ => True
  end.

Definition ext (me : string) (σ σ' : log) : Prop := ∃ τ, σ' = σ ++ τ ∧ Forall (foreign me) τ.

(** what a process may list and read *)
Definition listed (σ : log) (p : Prefix) (l : list Address) : Prop :=
  isRegistrations p = false → l = listing p σ.

Definition readFrom (σ : log) (a : Address) (v : option Value) : Prop :=
  if isRegistration a then match v with Some v => valueFor σ v | None => True end else v = find σ a.

(** the calls a process makes keep to the protocol, whatever the others do;
    it ends in [Q], or throws in [E] *)
Fixpoint safe {A} (me : string) (Q : A → log → Prop) (E : log → Prop) (σ : log) (p : prog A) : Prop :=
  match p with
  | Ret a => Q a σ
  | Die _ => E σ
  | DoList pf k => ∀ σ', ext me σ σ' → good σ' →
      safe me Q E σ' (k None) ∧ ∀ l, listed σ' pf l → safe me Q E σ' (k (Some l))
  | DoGet a k => ∀ σ', ext me σ σ' → good σ' →
      safe me Q E σ' (k None) ∧ ∀ v, readFrom σ' a v → safe me Q E σ' (k (Some v))
  | DoPutIfAbsent a v k => ∀ σ', ext me σ σ' → good σ' →
      safe me Q E σ' (k None) ∧
      if isRegistration a then valueFor σ' v ∧ safe me Q E σ' (k (Some tt))
      else match find σ' a with
           | Some _ => safe me Q E σ' (k (Some tt))
           | None => admissible σ' a v ∧ mine me v ∧ ∀ r, safe me Q E (σ' ++ [(a, v)]) (k r)
           end
  | DoDelete a k => ∀ σ', ext me σ σ' → good σ' → ∀ r, safe me Q E σ' (k r)
  end.

Lemma ext_prefix me σ σ' : ext me σ σ' → σ `prefix_of` σ'.
Proof. intros (τ & -> & _). by exists τ. Qed.

#[global] Instance ext_preorder me : PreOrder (ext me).
Proof.
  split.
  - intros σ. exists []. by rewrite app_nil_r.
  - intros σ1 σ2 σ3 (τ & -> & ?) (τ' & -> & ?). exists (τ ++ τ'). rewrite app_assoc, Forall_app. done.
Qed.

Lemma safe_bind {A B} me (Q : A → log → Prop) (R : B → log → Prop) E E' p f σ :
  safe me Q E σ p → (∀ a σ', Q a σ' → safe me R E' σ' (f a)) → (∀ σ', E σ' → E' σ') →
  safe me R E' σ (p ≫= f).
Proof.
  intros Hp HQ HE. cbv [mbind prog_bind]. revert σ Hp.
  induction p as [a|m|pf k IH|a k IH|a v k IH|a k IH]; cbn; intros σ Hp.
  - auto.
  - auto.
  - intros σ' He Hg. destruct (Hp σ' He Hg) as [H1 H2]. eauto.
  - intros σ' He Hg. destruct (Hp σ' He Hg) as [H1 H2]. eauto.
  - intros σ' He Hg. destruct (Hp σ' He Hg) as [H1 H2]. split; [auto|].
    destruct (isRegistration a); [destruct H2; auto|]. destruct (find σ' a); [auto|].
    destruct H2 as (? & ? & ?). auto.
  - intros σ' He Hg r. auto.
Qed.

Lemma safe_mono {A} me (Q R : A → log → Prop) (E E' : log → Prop) p σ :
  safe me Q E σ p → (∀ a σ', Q a σ' → R a σ') → (∀ σ', E σ' → E' σ') → safe me R E' σ p.
Proof.
  intros Hp HQ HE. revert σ Hp. induction p as [a|m|pf k IH|a k IH|a v k IH|a k IH]; cbn; intros σ Hp.
  - auto.
  - auto.
  - intros σ' He Hg. destruct (Hp σ' He Hg) as [H1 H2]. eauto.
  - intros σ' He Hg. destruct (Hp σ' He Hg) as [H1 H2]. eauto.
  - intros σ' He Hg. destruct (Hp σ' He Hg) as [H1 H2]. split; [auto|].
    destruct (isRegistration a); [destruct H2; auto|]. destruct (find σ' a); [auto|].
    destruct H2 as (? & ? & ?). auto.
  - intros σ' He Hg r. auto.
Qed.

Lemma safe_attempt {A} me (Q : A → log → Prop) E E' p σ :
  safe me Q E σ p →
  safe me (λ r σ', match r with inl a => Q a σ' | inr _ => E σ' end) E' σ (attempt p).
Proof.
  intros Hp. revert σ Hp. induction p as [a|m|pf k IH|a k IH|a v k IH|a k IH]; cbn; intros σ Hp.
  - done.
  - done.
  - intros σ' He Hg. destruct (Hp σ' He Hg) as [H1 H2]. eauto.
  - intros σ' He Hg. destruct (Hp σ' He Hg) as [H1 H2]. eauto.
  - intros σ' He Hg. destruct (Hp σ' He Hg) as [H1 H2]. split; [auto|].
    destruct (isRegistration a); [destruct H2; auto|]. destruct (find σ' a); [auto|].
    destruct H2 as (? & ? & ?). auto.
  - intros σ' He Hg r. auto.
Qed.

(** programs that create nothing under the token of their process *)
Definition triple {A} (me : string) (σ : log) (p : prog A) (Q : A → log → Prop) : Prop :=
  safe me (λ a σ', ext me σ σ' ∧ good σ' ∧ Q a σ') (λ σ', ext me σ σ' ∧ good σ') σ p.

Section rules.
Context (me : string).

Lemma t_ret {A} (a : A) σ (Q : A → log → Prop) : good σ → Q a σ → triple me σ (Ret a) Q.
Proof. intros Hg HQ. by split_and!. Qed.

Lemma t_die {A} m σ (Q : A → log → Prop) : good σ → triple me σ (Die m) Q.
Proof. intros Hg. by split. Qed.

Lemma t_bind {A B} (p : prog A) (f : A → prog B) σ Q R :
  triple me σ p Q → (∀ a σ', ext me σ σ' → good σ' → Q a σ' → triple me σ' (f a) R) →
  triple me σ (p ≫= f) R.
Proof.
  intros Hp Hf. eapply safe_bind; [exact Hp| |done]. intros a σ' (He & Hg & HQ).
  eapply safe_mono; [by apply Hf|cbn|cbn].
  - intros b σ'' (? & ? & ?). split_and!; try done. by etrans.
  - intros σ'' (? & ?). split; [by etrans|done].
Qed.

(** a program of the logic inside one that is not *)
Lemma t_use {A B} (p : prog A) (f : A → prog B) σ Q (R : B → log → Prop) :
  triple me σ p Q → (∀ a σ', ext me σ σ' → good σ' → Q a σ' → safe me R good σ' (f a)) →
  safe me R good σ (p ≫= f).
Proof.
  intros Hp Hf. eapply safe_bind; [exact Hp| |by intros σ' [_ ?]].
  intros a σ' (He & Hg & HQ). by apply Hf.
Qed.

Lemma t_mono {A} (p : prog A) σ (Q R : A → log → Prop) :
  triple me σ p Q → (∀ a σ', ext me σ σ' → good σ' → Q a σ' → R a σ') → triple me σ p R.
Proof. intros Hp HQ. eapply safe_mono; [exact Hp| |done]. cbn. intros a σ' (? & ? & ?). auto. Qed.

Lemma t_attempt {A} (p : prog A) σ Q :
  triple me σ p Q → triple me σ (attempt p) (λ r σ', match r with inl a => Q a σ' | inr _ => True end).
Proof.
  intros Hp. eapply safe_mono; [by eapply (safe_attempt me _ _ (λ _, False)), Hp|cbn|done].
  intros [a|m] σ'; [done|]. by intros (? & ?).
Qed.

Lemma t_list p σ : good σ → triple me σ (list_ p) (λ l σ', listed σ' p l).
Proof. intros Hg σ' He Hg'. split; [done|]. by intros l Hl. Qed.

Lemma t_get a σ : good σ → triple me σ (get a) (λ v σ', readFrom σ' a v).
Proof. intros Hg σ' He Hg'. split; [done|]. by intros l Hl. Qed.

Lemma t_delete a σ : good σ → triple me σ (delete_ a) (λ _ _, True).
Proof. intros Hg σ' He Hg'. by intros [[]|]. Qed.

(** what carries no token is foreign to everyone *)
Definition plain (v : Value) : Prop :=
  match v with VPending (RPending _) | VKey (RClaim _) => False | _ => True end.

Lemma plain_mine v : plain v → mine me v.
Proof. by destruct v as [[]|[]| | |]. Qed.

Lemma ext_plain σ a v : plain v → ext me σ (σ ++ [(a, v)]).
Proof. intros Hv. exists [(a, v)]. split; [done|]. apply Forall_singleton. by destruct v as [[]|[]| | |]. Qed.

Lemma t_put a v σ :
  good σ → isRegistration a = false → plain v →
  (∀ σ', ext me σ σ' → good σ' → find σ' a = None → admissible σ' a v) →
  triple me σ (putIfAbsent a v) (λ _ σ', is_Some (find σ' a)).
Proof.
  intros Hg Ha Hv Had σ' He Hg'. split; [done|]. rewrite Ha.
  destruct (find σ' a) as [v'|] eqn:E; [cbn; rewrite E; eauto|].
  pose proof (Had σ' He Hg' E) as Had'. split_and!; [done|by apply plain_mine|].
  assert (good (σ' ++ [(a, v)])) by (by constructor).
  assert (ext me σ (σ' ++ [(a, v)])) by (etrans; [done|by apply ext_plain]).
  intros [[]|]; cbn; [|done]. split_and!; [done..|]. rewrite find_snoc, decide_True by done. eauto.
Qed.

Lemma t_register id r σ :
  good σ → registrationFor σ r → triple me σ (putIfAbsent (ARegistration id) (VRegistration r)) (λ _ _, True).
Proof.
  intros Hg Hr σ' He Hg'. cbn. split_and!; try done.
  eapply registrationFor_mono; [by eapply ext_prefix|done].
Qed.

Lemma t_forEach {A B} (l : list A) (f : A → prog B) σ (P : B → log → Prop) :
  good σ → (∀ b σ1 σ2, σ1 `prefix_of` σ2 → P b σ1 → P b σ2) →
  (∀ x σ', x ∈ l → ext me σ σ' → good σ' → triple me σ' (f x) P) →
  triple me σ (forEach l f) (λ bs σ', Forall (λ b, P b σ') bs).
Proof.
  intros Hg Hm Hf. revert σ Hg Hf. induction l as [|x l IH]; intros σ Hg Hf.
  - apply t_ret; [done|constructor].
  - cbn [forEach]. eapply t_bind; [apply Hf; [apply list_elem_of_here|done..]|].
    intros b σ' He Hg' Hb. eapply t_bind; [apply IH; [done|]|].
    + intros y σ'' Hy He' Hg''. apply Hf; [by apply list_elem_of_further|by etrans|done].
    + intros bs σ'' He' Hg'' Hbs. apply t_ret; [done|]. constructor; [|done].
      eapply Hm; [by eapply ext_prefix|done].
Qed.

Lemma t_forEach_ {A B} (l : list A) (f : A → prog B) σ :
  good σ → (∀ x σ', x ∈ l → ext me σ σ' → good σ' → triple me σ' (f x) (λ _ _, True)) →
  triple me σ (forEach l f) (λ _ _, True).
Proof. intros Hg Hf. eapply t_mono; [by apply (t_forEach l f σ (λ _ _, True))|done]. Qed.

Lemma t_ofResult {A} (r : result A) σ : good σ → triple me σ (ofResult r) (λ a _, r = Ok a).
Proof. intros Hg. destruct r; [by apply t_ret|by apply t_die]. Qed.

End rules.

End props.
End SignalKeysProps.
