(* ===== verification/SignalKeysRuns.v ===== *)
(** * Runs of wait keys and early signals

    Every operation of [SignalKeys] keeps to the protocol of
    [SignalKeysProps], whatever the other processes do. So at most one wait is
    open under a key, a signal that was answered as pending is seen by every
    wait that reads its slot, and it settles at most one wait. *)

From S2P Require Import Prelude JsString PartitionKey SignalWait SignalStore SignalKeys SignalKeysProps.
Local Open Scope Z_scope.

Module SignalKeysRuns.
Import SignalWait SignalStore SignalKeys SignalKeysProps.

Section runs.
Context `{Env}.

Notation log := (list (Address * Value)).

(** ** Reading the store *)

(** a key's highest record in a log *)
Definition highestAt (σ : log) (w k : string) (h : HighestKeyRecord) : Prop :=
  match h with
  | KNone => ∀ g, find σ (AKey w k g) = None
  | KFound r =>
      find σ (AKey w k (recordGeneration r)) = Some (VKey r) ∧ waitKeyRecordOk r = true ∧
      ∀ g, is_Some (find σ (AKey w k g)) → g ≤ recordGeneration r
  | KUnreadable g =>
      (∃ v, find σ (AKey w k g) = Some v ∧ decodeWaitKeyRecord (Some v) w k g = Unreadable) ∧
      ∀ g', is_Some (find σ (AKey w k g')) → g' ≤ g
  end.

(** a slot's highest record in a log *)
Definition highestIn (σ : log) (w k : string) (s : Z) (h : HighestPendingRecord) : Prop :=
  match h with
  | PNone => ∀ n, 1 ≤ n → find σ (APending w k s n) = None
  | PFound r =>
      find σ (APending w k s (recordNumber r)) = Some (VPending r) ∧ pendingRecordOk r = true ∧
      decodePendingRecord (Some (VPending r)) w k s (recordNumber r) = Found r ∧
      ∀ n, is_Some (find σ (APending w k s n)) → n ≤ recordNumber r
  | PUnreadable n =>
      (∃ v, find σ (APending w k s n) = Some v ∧ decodePendingRecord (Some v) w k s n = Unreadable) ∧
      ∀ n', is_Some (find σ (APending w k s n')) → n' ≤ n
  end.

(** something that held at some moment between two logs *)
Definition once (me : string) (σ σ' : log) (P : log → Prop) : Prop :=
  ∃ σ0, ext me σ σ0 ∧ good σ0 ∧ ext me σ0 σ' ∧ P σ0.

Lemma maxGeneration_spec w k l :
  (∀ a, a ∈ l → under (PKey w k) a = true) →
  (∀ g, AKey w k g ∈ l → g ≤ maxGeneration l) ∧ 0 ≤ maxGeneration l ∧
  (maxGeneration l = 0 ∨ AKey w k (maxGeneration l) ∈ l).
Proof.
  induction l as [|a l IH]; intros Hl.
  - split_and!; [by intros g ?%elem_of_nil|done|by left].
  - destruct IH as (H1 & H2 & H3); [intros; apply Hl; by apply list_elem_of_further|].
    pose proof (Hl a (list_elem_of_here _ _)) as Ha. destruct a as [w' k' g'| | |]; try done.
    cbn in Ha. split_bools. subst. cbn [maxGeneration foldr]. fold (maxGeneration l). split_and!.
    + intros g [[= <-]|Hg]%elem_of_cons; [lia|]. specialize (H1 g Hg). lia.
    + lia.
    + rewrite !elem_of_cons. destruct (Z.max_spec g' (maxGeneration l)) as [[? ->]|[? ->]]; [|auto].
      destruct H3; auto.
Qed.

Lemma maxNumber_spec w k s l :
  (∀ a, a ∈ l → under (PSlot w k s) a = true) →
  (∀ n, APending w k s n ∈ l → n ≤ maxNumber l) ∧ 0 ≤ maxNumber l ∧
  (maxNumber l = 0 ∨ APending w k s (maxNumber l) ∈ l).
Proof.
  induction l as [|a l IH]; intros Hl.
  - split_and!; [by intros g ?%elem_of_nil|done|by left].
  - destruct IH as (H1 & H2 & H3); [intros; apply Hl; by apply list_elem_of_further|].
    pose proof (Hl a (list_elem_of_here _ _)) as Ha. destruct a as [|w' k' s' n'| |]; try done.
    cbn in Ha. split_bools. subst. cbn [maxNumber foldr]. fold (maxNumber l). split_and!.
    + intros g Hg. apply elem_of_cons in Hg as [Hg|Hg]; [injection Hg as <-; lia|]. specialize (H1 g Hg). lia.
    + lia.
    + rewrite !elem_of_cons. destruct (Z.max_spec n' (maxNumber l)) as [[? ->]|[? ->]]; [|auto].
      destruct H3; auto.
Qed.

Lemma decode_key_found v w k g r :
  decodeWaitKeyRecord v w k g = Found r →
  v = Some (VKey r) ∧ keyAddress r = (w, k, g) ∧ recordGeneration r = g ∧ waitKeyRecordOk r = true.
Proof.
  unfold decodeWaitKeyRecord. destruct v as [[r'| | | |]|]; try done.
  destruct (waitKeyRecordOk r') eqn:Hok; [|done]. cbn [negb]. case_match; [done|].
  destruct (keyAddress r') as [[w' k'] g'] eqn:E. case_bools; [|done]. intros [= <-]. split_bools. subst.
  split_and!; try done. destruct r'; by simplify_eq/=.
Qed.

Lemma decode_pending_found v w k s n r :
  decodePendingRecord v w k s n = Found r →
  v = Some (VPending r) ∧ pendingAddress r = (w, k, s, n) ∧ recordNumber r = n ∧ pendingRecordOk r = true.
Proof.
  unfold decodePendingRecord. destruct v as [[|r'| | |]|]; try done.
  destruct (pendingRecordOk r') eqn:Hok; [|done]. cbn [negb].
  destruct (pendingAddress r') as [[[w' k'] s'] n'] eqn:E.
  destruct (bool_decide (w' = w) && bool_decide (k' = k) && (s' =? s) && (n' =? n)) eqn:E'; [|done].
  cbn [negb]. case_match; [done|]. intros [= <-]. split_bools. subst.
  split_and!; try done. destruct r'; by simplify_eq/=.
Qed.

(** ** Outcomes *)

Definition outcomeRead (σ : log) (waitId : string) (s : StoredWaitRecord WaitOutcome) : Prop :=
  ∃ id, normalizeWaitId waitId = Some id ∧ s = decodeWaitOutcome (find σ (AOutcome id)) waitId.

Definition settledFor (σ : log) (waitId : string) : Prop :=
  ∃ id, normalizeWaitId waitId = Some id ∧ is_Some (find σ (AOutcome id)).

Lemma decode_outcome_absent v waitId : decodeWaitOutcome v waitId = Absent ↔ v = None.
Proof.
  unfold decodeWaitOutcome. destruct v as [v|]; [|done]. split; [|done].
  destruct v as [| |o| |]; try done. by repeat case_match.
Qed.

Lemma decode_outcome_found v waitId o : decodeWaitOutcome v waitId = Found o → v = Some (VOutcome o).
Proof.
  unfold decodeWaitOutcome. destruct v as [[| |o'| |]|]; try done.
  repeat case_match; try done; by intros [= ->].
Qed.

Lemma read_settled σ waitId s : outcomeRead σ waitId s → s ≠ Absent → settledFor σ waitId.
Proof.
  intros (id & Hid & ->) Hs. exists id. split; [done|].
  destruct (find σ (AOutcome id)); [eauto|]. done.
Qed.

Lemma belongsTo_absent runId s : belongsTo runId s = Absent ↔ s = Absent.
Proof. destruct s; cbn; [|done..]. by case_bool_decide. Qed.

Lemma isAbsent_true {T} (s : StoredWaitRecord T) : isAbsent s = true ↔ s = Absent.
Proof. by destruct s. Qed.

Lemma isAbsent_false {T} (s : StoredWaitRecord T) : isAbsent s = false ↔ s ≠ Absent.
Proof. by destruct s. Qed.

Lemma settledFor_mono σ σ' waitId : σ `prefix_of` σ' → settledFor σ waitId → settledFor σ' waitId.
Proof. intros Hp (id & ? & v & Hv). exists id. split; [done|]. exists v. by eapply find_prefix. Qed.

(** an outcome that gives no pending signal is always allowed *)
Definition gives (o : WaitOutcome) : bool :=
  match o_kind o with Accepted receipt _ => heldAsPending receipt | _ => false end.

Lemma admissible_plain σ id o : gives o = false → admissible σ (AOutcome id) (VOutcome o).
Proof. unfold gives. intros Hg R (receipt & payload & Hk & Hh & _). rewrite Hk in Hg. congruence. Qed.

(** ** Taking a pending signal *)

(** the claim of the wait *)
Definition refFor (σ : log) (e : EarlyWaitRef) : Prop :=
  ∃ c, claimed σ c ∧ waitKeyRecordOk (RClaim c) = true ∧ c_waitId c = waitId (e_ref e) ∧
    c_workflowId c = workflowId (e_ref e) ∧ c_key c = e_key e ∧ c_early c = Some (e_early e) ∧
    c_runId c = runId (e_ref e).

Lemma refFor_mono σ σ' e : σ `prefix_of` σ' → refFor σ e → refFor σ' e.
Proof. intros Hp (c & ? & ?). exists c. split; [by eapply claimed_mono|done]. Qed.

Lemma validatePayload_plain d plain payload :
  validatePayload stops d (VObj plain) = Valid payload → payload = plain.
Proof. cbn [validatePayload]. repeat case_match; congruence. Qed.

Lemma pendingOutcome_spec p e o :
  pendingOutcome p e = Ok (Some o) →
  p_workflowId p = workflowId (e_ref e) ∧ p_key p = e_key e ∧ p_slot p ∈ earlySlots (e_early e) ∧
  isUuid (waitId (e_ref e)) = true ∧
  o = MkOutcome (Accepted (MkReceipt (p_receiptId p) (waitId (e_ref e)) (p_receivedAt p) (p_submittedBy p)
        (p_idempotencyKey p) true) (p_payload p))
      (waitId (e_ref e)) (workflowId (e_ref e)) (runId (e_ref e)) (f_deadline (e_ref e)) (p_receivedAt p).
Proof.
  unfold pendingOutcome.
  destruct (bool_decide (p_workflowId p = workflowId (e_ref e)) && bool_decide (p_key p = e_key e)) eqn:E1; [|done].
  cbn [negb]. case_match; [done|].
  destruct (isReceivedForWait _ _ _ _) eqn:E2; [|done]. cbn [negb].
  unfold waitOf. destruct (waitOk isUuid _) eqn:E3; [|done]. cbn [mbind result_bind].
  destruct (validatePayload stops _ _) as [payload|] eqn:E4; [|done]. intros [= <-].
  apply validatePayload_plain in E4 as ->. unfold isReceivedForWait in E2. unfold waitOk in E3.
  cbn in E3. split_bools. by split_and!.
Qed.

Lemma admissible_taken σ e p o id :
  refFor σ e → pendingIn σ p →
  decodePendingRecord (Some (VPending (RPending p))) (p_workflowId p) (p_key p) (p_slot p) (p_number p) =
    Found (RPending p) →
  pendingOutcome p e = Ok (Some o) → normalizeWaitId (o_waitId o) = Some id →
  admissible σ (AOutcome id) (VOutcome o).
Proof.
  intros (c & Hc & Hok & Hid & Hw & Hk & He & Hrun) Hp Hdp Ho Hn.
  destruct (pendingOutcome_spec p e o Ho) as (Ew & Ek & Es & Eu & ->). cbn [o_waitId] in Hn.
  rewrite <-Hid, claim_waitId in Hn by done. injection Hn as <-.
  pose proof (decode_pending_found _ _ _ _ _ _ Hdp) as (_ & _ & _ & Hpok).
  intros R (receipt & payload & Hkind & _ & <-). cbn in Hkind. injection Hkind as <- <-. split.
  - cbn [decodeWaitOutcome]. unfold waitOutcomeOk, receiptOk.
    cbn [o_waitId o_workflowId o_runId o_kind r_id r_waitId submittedBy idempotencyKey].
    rewrite <-Hid, <-Hw, <-Hrun in *. unfold waitKeyRecordOk, keyAddressOk in Hok. unfold pendingRecordOk in Hpok.
    unfold optionally in *. split_bools.
    repeat match goal with Hb : ?b = true |- context [?b] => rewrite Hb end. cbn [andb negb].
    unfold nonEmpty in *.
    repeat match goal with Hb : ?b = true |- context [?b] => rewrite Hb end. cbn [andb negb].
    rewrite (bool_decide_eq_true_2 (c_waitId c = _)).
    2: { symmetry. by eapply PartitionKey.matchesShape_lower. }
    cbn [negb]. cbn [decodePendingRecord] in Hdp. repeat case_match; try done.
  - exists c, p. cbn. split_and!; try done; try congruence. exists (e_early e). done.
Qed.

Section programs.
Context (me : string).

Notation triple := (triple me).
Notation ext := (ext me).
Notation once := (once me).

Lemma t_at {A} a (p : prog A) σ Q :
  good σ → (validAddress a = true → triple σ p Q) → triple σ (at_ a p) Q.
Proof. intros Hg Hp. unfold at_. destruct (validAddress a); [auto|by apply t_die]. Qed.

Lemma t_findKeyRecord w k g σ :
  good σ → triple σ (findKeyRecord w k g) (λ s σ', s = decodeWaitKeyRecord (find σ' (AKey w k g)) w k g).
Proof.
  intros Hg. apply t_at; [done|]. intros _. eapply t_bind; [by apply t_get|].
  intros v σ' He Hg' Hv. apply t_ret; [done|]. by rewrite Hv.
Qed.

Lemma t_findPendingRecord w k s n σ :
  good σ →
  triple σ (findPendingRecord w k s n) (λ r σ', r = decodePendingRecord (find σ' (APending w k s n)) w k s n).
Proof.
  intros Hg. apply t_at; [done|]. intros _. eapply t_bind; [by apply t_get|].
  intros v σ' He Hg' Hv. apply t_ret; [done|]. by rewrite Hv.
Qed.

(** the highest record of a key, at one moment; it is still there at the end *)
Lemma t_highestKeyRecord w k σ :
  good σ → triple σ (highestKeyRecord w k) (λ h σ', validAddress (AKey w k 1) = true ∧
    once σ σ' (λ σ0, highestAt σ0 w k h)).
Proof.
  intros Hg. apply t_at; [done|]. intros Hva. unfold HIGHEST_KEY_RECORD_READS. cbn [highestKeyLoop].
  eapply t_bind; [by apply t_list|]. intros l σ1 He1 Hg1 Hl. specialize (Hl eq_refl). subst l.
  destruct (maxGeneration_spec w k (listing (PKey w k) σ1)) as (Hmax & Hpos & Hin);
    [by intros a [_ ?]%elem_of_listing|].
  assert (∀ g, is_Some (find σ1 (AKey w k g)) → g ≤ maxGeneration (listing (PKey w k) σ1)) as Hmax'.
  { intros g Hs. apply Hmax, elem_of_listing. split; [done|]. cbn. by rewrite !bool_decide_eq_true_2. }
  destruct (Z.eqb_spec (maxGeneration (listing (PKey w k) σ1)) 0) as [E|Hne].
  - apply t_ret; [done|]. split; [done|]. exists σ1. split_and!; try done. intros g.
    destruct (find σ1 (AKey w k g)) eqn:Hf; [|done].
    assert (g ≤ 0) by (rewrite <-E; eauto). assert (1 ≤ g); [|lia].
    destruct (good_key _ _ _ _ _ Hg1 Hf) as (r & _ & -> & _). by eapply good_key_address.
  - destruct Hin as [?|Hin]; [done|]. apply elem_of_listing in Hin as [[v Hv] _].
    set (m := maxGeneration (listing (PKey w k) σ1)) in *.
    eapply t_bind; [by apply t_findKeyRecord|]. intros s σ2 He2 Hg2 ->.
    rewrite (find_prefix σ1 σ2 _ v); [|by eapply ext_prefix|done].
    destruct (decodeWaitKeyRecord (Some v) w k m) as [r| |] eqn:Hd.
    + apply decode_key_found in Hd as ([= ->] & _ & Hm & Hok). apply t_ret; [done|]. split; [done|].
      exists σ1. split_and!; try done. cbn. by rewrite Hm.
    + exfalso. destruct (good_key _ _ _ _ _ Hg1 Hv) as (r & _ & -> & _). cbn in Hd.
      repeat case_match; done.
    + apply t_ret; [done|]. split; [done|]. exists σ1. split_and!; try done. split; [eauto|done].
Qed.

Lemma t_highestPendingRecord w k s σ :
  good σ → triple σ (highestPendingRecord w k s) (λ h σ', once σ σ' (λ σ0, highestIn σ0 w k s h)).
Proof.
  intros Hg. apply t_at; [done|]. intros Hva. unfold HIGHEST_KEY_RECORD_READS. cbn [highestPendingLoop].
  eapply t_bind; [by apply t_list|]. intros l σ1 He1 Hg1 Hl. specialize (Hl eq_refl). subst l.
  destruct (maxNumber_spec w k s (listing (PSlot w k s) σ1)) as (Hmax & Hpos & Hin);
    [by intros a [_ ?]%elem_of_listing|].
  assert (∀ n, is_Some (find σ1 (APending w k s n)) → n ≤ maxNumber (listing (PSlot w k s) σ1)) as Hmax'.
  { intros n Hs. apply Hmax, elem_of_listing. split; [done|]. cbn.
    rewrite !bool_decide_eq_true_2, Z.eqb_refl by done. done. }
  destruct (Z.eqb_spec (maxNumber (listing (PSlot w k s) σ1)) 0) as [E|Hne].
  - apply t_ret; [done|]. exists σ1. split_and!; try done. intros n Hn.
    destruct (find σ1 (APending w k s n)) eqn:Hf; [|done]. assert (n ≤ 0) by (rewrite <-E; eauto). lia.
  - destruct Hin as [?|Hin]; [done|]. apply elem_of_listing in Hin as [[v Hv] _].
    set (m := maxNumber (listing (PSlot w k s) σ1)) in *.
    eapply t_bind; [by apply t_findPendingRecord|]. intros st σ2 He2 Hg2 ->.
    rewrite (find_prefix σ1 σ2 _ v); [|by eapply ext_prefix|done].
    destruct (decodePendingRecord (Some v) w k s m) as [r| |] eqn:Hd.
    + pose proof Hd as Hd'. apply decode_pending_found in Hd as ([= ->] & _ & Hm & Hok). apply t_ret; [done|].
      exists σ1. split_and!; try done. cbn. by rewrite Hm.
    + exfalso. destruct v as [|r| | |]; try done. cbn in Hd.
      destruct (pendingAddress r) as [[[? ?] ?] ?]. repeat case_match; done.
    + apply t_ret; [done|]. exists σ1. split_and!; try done. split; [eauto|done].
Qed.

Lemma t_withWaitId {A} waitId (p : string → prog A) σ Q :
  good σ → (∀ id, normalizeWaitId waitId = Some id → triple σ (p id) Q) → triple σ (withWaitId waitId p) Q.
Proof. intros Hg Hp. unfold withWaitId. destruct (normalizeWaitId waitId); [auto|by apply t_die]. Qed.

Lemma t_findOutcome waitId σ : good σ → triple σ (findOutcome waitId) (λ s σ', outcomeRead σ' waitId s).
Proof.
  intros Hg. apply t_withWaitId; [done|]. intros id Hid. eapply t_bind; [by apply t_get|].
  intros v σ' He Hg' Hv. apply t_ret; [done|]. exists id. by rewrite Hv.
Qed.

Lemma t_settle o σ :
  good σ →
  (∀ id σ', normalizeWaitId (o_waitId o) = Some id → ext σ σ' → good σ' → admissible σ' (AOutcome id) (VOutcome o)) →
  triple σ (settle o) (λ s σ', outcomeRead σ' (o_waitId o) s ∧ s ≠ Absent).
Proof.
  intros Hg Ha. eapply t_bind.
  { apply t_withWaitId; [done|]. intros id Hid.
    eapply (t_mono _ _ _ _ (λ _ σ', settledFor σ' (o_waitId o))); [by apply t_put; eauto|].
    intros [] σ' He' Hg' Hs. by exists id. }
  intros [] σ1 He1 Hg1 Hs. eapply t_mono; [by apply t_findOutcome|].
  intros s σ2 He2 Hg2 Hr. split; [done|]. intros ->. destruct Hr as (id & Hid & Habs).
  symmetry in Habs. apply decode_outcome_absent in Habs.
  destruct (settledFor_mono σ1 σ2 (o_waitId o) (ext_prefix _ _ _ He2) Hs) as (id' & Hid' & [v Hv]). congruence.
Qed.

Lemma t_settle_plain o σ :
  good σ → gives o = false → triple σ (settle o) (λ s σ', outcomeRead σ' (o_waitId o) s ∧ s ≠ Absent).
Proof. intros Hg Ho. apply t_settle; [done|]. intros id σ' _ _ _. by apply admissible_plain. Qed.

Lemma t_findRegistration waitId σ :
  good σ → triple σ (findRegistration waitId) (λ s σ', ∀ r, s = Found r → registrationFor σ' r).
Proof.
  intros Hg. apply t_withWaitId; [done|]. intros id Hid. eapply t_bind; [by apply t_get|].
  intros v σ' He Hg' Hv. apply t_ret; [done|]. intros r. unfold decodeWaitRegistration.
  destruct v as [[| | |r'|]|]; try done. repeat case_match; try done. by intros [= <-].
Qed.

(** a slot whose highest record the wait cannot take *)
Definition passed (e : EarlyWaitRef) (slot : Z) (σ : log) : Prop :=
  ∃ h, highestIn σ (workflowId (e_ref e)) (e_key e) slot h ∧
    ∀ p, h = PFound (RPending p) → pendingOutcome p e = Ok None.

Lemma once_weaken σ σ1 σ2 σ3 P : ext σ σ1 → once σ1 σ2 P → ext σ2 σ3 → once σ σ3 P.
Proof. intros He (σ0 & ? & ? & ? & ?) He'. exists σ0. split_and!; [by etrans|done|by etrans|done]. Qed.

Lemma t_applicableAmong slots e σ :
  good σ →
  triple σ (applicableAmong slots e) (λ r σ', match r with
    | Some o => ∃ p, pendingIn σ' p ∧ pendingOutcome p e = Ok (Some o) ∧
        decodePendingRecord (Some (VPending (RPending p))) (p_workflowId p) (p_key p) (p_slot p) (p_number p) =
          Found (RPending p)
    | None => ∀ slot, slot ∈ slots → once σ σ' (passed e slot)
    end).
Proof.
  revert σ. induction slots as [|slot slots IH]; intros σ Hg.
  - apply t_ret; [done|]. by intros slot ?%elem_of_nil.
  - cbn [applicableAmong]. eapply t_bind; [by apply t_highestPendingRecord|]. intros h σ1 He1 Hg1 Hh.
    assert (∀ σ', ext σ σ' → good σ' →
      (∀ p, h = PFound (RPending p) → pendingOutcome p e = Ok None) → ext σ1 σ' →
      triple σ' (applicableAmong slots e) (λ r σ', match r with
        | Some o => ∃ p, pendingIn σ' p ∧ pendingOutcome p e = Ok (Some o) ∧
            decodePendingRecord (Some (VPending (RPending p))) (p_workflowId p) (p_key p) (p_slot p) (p_number p) =
              Found (RPending p)
        | None => ∀ slot', slot' ∈ slot :: slots → once σ σ' (passed e slot')
        end)) as Hnext.
    { intros σ' He' Hg' Hno He1'. eapply t_mono; [by apply IH|]. intros [o|] σ2 He2 Hg2 Hr; [done|].
      intros slot' [->|Hin]%elem_of_cons.
      - apply (once_weaken σ σ σ1 σ2); [done| |by etrans]. destruct Hh as (σ0 & ? & ? & ? & ?). exists σ0.
        split_and!; [done..|]. by exists h.
      - eapply once_weaken; [exact He'|by apply Hr|done]. }
    destruct h as [|[p|l]|n]; [by apply Hnext| |by apply Hnext|by apply Hnext].
    eapply t_bind; [by apply t_ofResult|]. intros o σ2 He2 Hg2 Ho.
    destruct o as [o|]; [|apply Hnext; [by etrans|done|by intros p' [= <-]|done]].
    apply t_ret; [done|]. destruct Hh as (σ0 & He0 & Hg0 & He01 & Hf & _ & Hd & _). cbn in Hf.
    destruct (decode_pending_found _ _ _ _ _ _ Hd) as (_ & Haddr & _). cbn in Haddr. injection Haddr as Ew Ek Es.
    exists p. rewrite Ew, Ek, Es. split_and!; try done. unfold pendingIn. rewrite Ew, Ek, Es.
    eapply find_prefix; [|done]. eapply ext_prefix. by etrans.
Qed.

(** the wait is settled, or no slot it reads has a signal it can take *)
Lemma t_takePendingSignal e σ :
  good σ → refFor σ e →
  triple σ (takePendingSignal e) (λ s σ',
    (s = Absent → ∀ slot, slot ∈ earlySlots (e_early e) → once σ σ' (passed e slot)) ∧
    (s ≠ Absent → outcomeRead σ' (waitId (e_ref e)) s)).
Proof.
  intros Hg Hr. eapply t_bind; [by apply t_applicableAmong|]. intros [o|] σ1 He1 Hg1 Ho.
  - destruct Ho as (p & Hp & Ho & Hd). eapply t_mono; [apply t_settle; [done|]|].
    + intros id σ' Hid He' Hg'. eapply admissible_taken; [| |done|done|done].
      * eapply refFor_mono; [|done]. eapply ext_prefix. by etrans.
      * eapply pendingIn_mono; [by eapply ext_prefix|done].
    + intros s σ2 He2 Hg2 [Hs Hne]. split; [done|]. intros _.
      destruct (pendingOutcome_spec p e o Ho) as (_ & _ & _ & _ & ->). done.
  - apply t_ret; [done|]. by split.
Qed.

Lemma t_settleTimedOut ref now σ :
  good σ → triple σ (settleTimedOut ref now) (λ s σ', s ≠ Absent → settledFor σ' (waitId ref)).
Proof.
  intros Hg. unfold settleTimedOut. destruct (isWaitExpired _ _); [|by apply t_ret].
  eapply t_bind; [by apply t_settle_plain|]. intros s σ1 He1 Hg1 [Hs Hne]. apply t_ret; [done|].
  intros _. by eapply read_settled.
Qed.

Lemma t_outcomeOfClaim c now σ :
  good σ → claimed σ c → waitKeyRecordOk (RClaim c) = true →
  triple σ (outcomeOfClaim c now) (λ s σ', s ≠ Absent → settled σ' c).
Proof.
  intros Hg Hc Hok. unfold outcomeOfClaim. cbn [waitRefOfClaim waitId runId].
  eapply t_bind; [by apply t_findOutcome|]. intros s σ1 He1 Hg1 Hs.
  destruct (isAbsent (belongsTo (c_runId c) s)) eqn:Ea.
  2: { apply t_ret; [done|]. intros Hne. rewrite belongsTo_absent in Hne. exact (read_settled _ _ _ Hs Hne). }
  cbn [negb]. eapply (t_bind _ _ _ _ (λ s σ', s ≠ Absent → settled σ' c)).
  { destruct (c_early c) as [e|] eqn:He; [|by apply t_ret].
    eapply t_bind; [by apply t_findRegistration|]. intros r σ2 He2 Hg2 Hr.
    destruct r as [r| |]; [|by apply t_ret..]. destruct (bool_decide _ && bool_decide _); [|by apply t_ret].
    unfold earlyWaitRef. cbn [f_key f_early f_schema waitRefOfClaim]. rewrite He.
    eapply t_bind; [apply t_takePendingSignal; [done|]|].
    - exists c. cbn. split_and!; try done. eapply claimed_mono; [|done]. eapply ext_prefix. by etrans.
    - intros st σ3 He3 Hg3 [_ Hst]. apply t_ret; [done|]. intros Hne. rewrite belongsTo_absent in Hne.
      exact (read_settled _ _ _ (Hst Hne) Hne). }
  intros taken σ2 He2 Hg2 Ht. destruct (isAbsent taken) eqn:Et; cbn [negb].
  - apply (t_settleTimedOut (waitRefOfClaim c)); done.
  - apply t_ret; [done|]. intros _. apply Ht. by apply isAbsent_false.
Qed.

Lemma t_settleAbandoned c now σ : good σ → triple σ (settleAbandoned c now) (λ _ _, True).
Proof.
  intros Hg. unfold settleAbandoned. case_match; [by apply t_ret|].
  eapply t_bind; [by apply t_findRegistration|]. intros r σ1 He1 Hg1 _. case_match; [by apply t_ret|].
  eapply t_bind; [by apply t_settle_plain|]. intros s σ2 He2 Hg2 _. by apply t_ret.
Qed.

(** ** Claiming a key *)

Lemma find_in σ a v : find σ a = Some v → (a, v) ∈ σ.
Proof.
  induction σ as [|[a' v'] σ IH]; cbn; [done|]. destruct (decide (a' = a)) as [->|].
  - intros [= ->]. apply list_elem_of_here.
  - intros Hf. apply list_elem_of_further. auto.
Qed.

(** every claim of the token is of this run *)
Definition ownClaims (runId : string) (σ : log) : Prop :=
  ∀ c, claimed σ c → c_waitId c = me → c_runId c = runId.

Lemma ownClaims_ext runId σ σ' : ext σ σ' → ownClaims runId σ → ownClaims runId σ'.
Proof.
  intros (τ & -> & Hf) Ho c Hc Hid. unfold claimed in Hc. rewrite find_app in Hc.
  destruct (find σ _) eqn:E; [injection Hc as ->; by apply Ho|].
  apply find_in in Hc. rewrite Forall_forall in Hf. by specialize (Hf _ Hc Hid).
Qed.

Lemma ownClaims_snoc runId σ a v :
  find σ a = None → (∀ c, v = VKey (RClaim c) → c_runId c = runId) → ownClaims runId σ →
  ownClaims runId (σ ++ [(a, v)]).
Proof.
  intros Hn Hv Ho c Hc Hid. unfold claimed in Hc. rewrite find_snoc in Hc by done.
  destruct (decide _); [|by apply Ho]. injection Hc as ->. by apply Hv.
Qed.

(** what a process knows of the log it works on *)
Definition since (σ : log) (P : log → Prop) (σ' : log) : Prop := σ `prefix_of` σ' ∧ good σ' ∧ P σ'.

Lemma s_createClaim c runId σ :
  good σ → ownClaims runId σ → c_waitId c = me → c_runId c = runId →
  (∀ σ', ext σ σ' → good σ' →
    keyAdmissible σ' (c_workflowId c) (c_key c) (c_generation c) (RClaim c)) →
  safe me (λ s σ', since σ (ownClaims runId) σ' ∧
      s = decodeWaitKeyRecord (find σ' (AKey (c_workflowId c) (c_key c) (c_generation c)))
            (c_workflowId c) (c_key c) (c_generation c)) good σ
    (createKeyRecord (RClaim c)).
Proof.
  intros Hg Ho Hid Hrun Ha. unfold createKeyRecord. cbn [keyAddress].
  eapply (safe_bind _ (λ _, since σ (ownClaims runId)) _ good good).
  - unfold at_. destruct (validAddress _); [|done]. intros σ1 He1 Hg1. cbn [orThrow safe isRegistration].
    assert (ownClaims runId σ1) by (by eapply ownClaims_ext).
    split; [done|]. destruct (find σ1 _) as [v|] eqn:E.
    { split_and!; [by eapply ext_prefix|done..]. }
    assert (admissible σ1 (AKey (c_workflowId c) (c_key c) (c_generation c)) (VKey (RClaim c))) by (by apply Ha).
    assert (good (σ1 ++ [(AKey (c_workflowId c) (c_key c) (c_generation c), VKey (RClaim c))]))
      by (by constructor).
    split_and!; [done..|]. intros [[]|]; [|done]. split_and!; [|done|].
    + etrans; [by eapply ext_prefix|]. eexists. done.
    + apply ownClaims_snoc; try done. intros c' [= <-]. done.
  - intros [] σ1 (Hp1 & Hg1 & Ho1). eapply safe_mono; [by apply t_findKeyRecord|cbn|by intros σ2 [_ ?]].
    intros s σ2 (He2 & Hg2 & ->). split; [|done]. split_and!; [|done|by eapply ownClaims_ext].
    etrans; [done|by eapply ext_prefix].
  - done.
Qed.

Definition claimFor (σ : log) (request : WaitKeyRequest) (c : WaitKeyClaim) : Prop :=
  claimed σ c ∧ waitKeyRecordOk (RClaim c) = true ∧ c_workflowId c = q_workflowId request ∧
  c_key c = q_key request ∧ c_runId c = q_runId request.

Definition acquisitionFor (request : WaitKeyRequest) (a : WaitKeyAcquisition) (σ : log) : Prop :=
  match a with
  | Acquired c => claimFor σ request c ∧ c_waitId c = me
  | Own c => claimFor σ request c
  | _ => True
  end.

(** a claim over the highest record is allowed once its holder is settled *)
Lemma claimOver_admissible request record now σ :
  good σ → q_waitId request = me → ownClaims (q_runId request) σ →
  match record with
  | None => True
  | Some r => find σ (AKey (q_workflowId request) (q_key request) (recordGeneration r)) = Some (VKey r) ∧
      ∀ c, r = RClaim c → settled σ c
  end →
  let c := claimOver request record now in
  keyAdmissible σ (c_workflowId c) (c_key c) (c_generation c) (RClaim c).
Proof.
  intros Hg Hme Ho Hr. cbn. split_and!; [done| |].
  - destruct record as [r|]; cbn; [|lia]. destruct Hr as [Hf _].
    destruct (good_key_address _ _ _ _ _ Hg Hf). lia.
  - exists record. split_and!.
    + destruct record as [r|]; [right|by left]. exists r. split; [done|]. destruct Hr as [Hf _].
      cbn. by replace (recordGeneration r + 1 - 1) with (recordGeneration r) by lia.
    + intros c' ->. by apply Hr.
    + intros e He. apply fmap_Some in He as (x & _ & ->). done.
    + intros c' Hc' Hid. apply Ho; [done|]. by rewrite Hid.
Qed.

(** the record a claim is made over: none, a release, or a settled claim *)
Definition claimable (request : WaitKeyRequest) (record : option WaitKeyRecord) (σ : log) : Prop :=
  match record with
  | None => True
  | Some r => find σ (AKey (q_workflowId request) (q_key request) (recordGeneration r)) = Some (VKey r) ∧
      ∀ c, r = RClaim c → settled σ c
  end.

Lemma claimable_mono request record σ σ' :
  σ `prefix_of` σ' → claimable request record σ → claimable request record σ'.
Proof.
  intros Hp. destruct record as [r|]; [|done]. intros [Hf Hs]. split; [by eapply find_prefix|].
  intros c ->. eapply settled_mono; [done|]. by apply Hs.
Qed.

Lemma s_tryClaim request record now σ :
  q_waitId request = me → good σ → ownClaims (q_runId request) σ → claimable request record σ →
  safe me (λ r, since σ (λ σ', ownClaims (q_runId request) σ' ∧
      ∀ c, r = Some c → claimFor σ' request c ∧ c_waitId c = me)) good σ
    (tryClaim request record now).
Proof.
  intros Hme Hg Ho Hr. unfold tryClaim. eapply safe_bind.
  - apply (s_createClaim (claimOver request record now) (q_runId request)); try done.
    intros σ' He' Hg'. apply claimOver_admissible; [done..|by eapply ownClaims_ext|].
    by apply (claimable_mono request record σ σ' (ext_prefix _ _ _ He')).
  - intros s σ1 [(Hp1 & Hg1 & Ho1) Hs]. split_and!; [done..|]. intros c Hc.
    destruct s as [[c'|l]| |]; try done. case_bool_decide as Hid; [|done]. injection Hc as ->.
    symmetry in Hs. destruct (decode_key_found _ _ _ _ _ Hs) as (Hf & Hka & Hrg & Hok).
    cbn in Hid, Hka, Hf, Hrg. injection Hka as Hw Hk Hgen. rewrite Hme in Hid.
    assert (claimed σ1 c) by (unfold claimed; by rewrite Hw, Hk, Hgen).
    split; [|done]. split_and!; try done. by apply Ho1.
  - done.
Qed.

Lemma s_claimLoop attempts request now σ :
  q_waitId request = me → good σ → ownClaims (q_runId request) σ →
  safe me (λ a, since σ (λ σ', acquisitionFor request a σ' ∧ ownClaims (q_runId request) σ')) good σ
    (claimLoop attempts request now).
Proof.
  intros Hme. revert σ. induction attempts as [|attempts IH]; intros σ0 Hg0 Ho0; [by split_and!|].
  assert (∀ σ, σ0 `prefix_of` σ → good σ → ownClaims (q_runId request) σ →
    safe me (λ a, since σ0 (λ σ', acquisitionFor request a σ' ∧ ownClaims (q_runId request) σ')) good σ
      (claimLoop attempts request now)) as Hloop.
  { intros σ Hp Hg Ho. eapply safe_mono; [by apply IH|cbn|done]. intros a σ' (? & ? & ?).
    split_and!; [by etrans|naive_solver..]. }
  clear IH. cbn [claimLoop]. eapply t_use; [by apply t_highestKeyRecord|].
  intros h σ1 He1 Hg1 [_ Hh]. pose proof (ext_prefix _ _ _ He1) as Hp1.
  assert (ownClaims (q_runId request) σ1) as Ho1 by (by eapply ownClaims_ext).
  assert (∀ record, (∀ r, record = Some r →
      find σ1 (AKey (q_workflowId request) (q_key request) (recordGeneration r)) = Some (VKey r) ∧
      waitKeyRecordOk r = true) →
    safe me (λ a, since σ0 (λ σ', acquisitionFor request a σ' ∧ ownClaims (q_runId request) σ')) good σ1
      (outcome ← match record with Some (RClaim c) => outcomeOfClaim c now | _ => Ret Absent end;
       match decideKeyHolder record outcome with
       | Some holder =>
           still ← highestKeyRecord (q_workflowId request) (q_key request);
           match still with
           | KFound r =>
               if negb (recordGeneration r =? c_generation holder) then claimLoop attempts request now
               else if isMine request holder then Ret (Own holder)
               else
                 settled ← settleAbandoned holder now;
                 if settled : bool then claimLoop attempts request now else Ret (HeldBy holder)
           | _ => claimLoop attempts request now
           end
       | None =>
           claimed ← tryClaim request record now;
           match claimed with Some c => Ret (Acquired c) | None => claimLoop attempts request now end
       end)) as Hbody.
  { intros record Hrec. eapply (t_use _ _ _ _ (λ s σ', ∀ c, record = Some (RClaim c) → s ≠ Absent → settled σ' c)).
    { destruct record as [[c|l]|]; [|by apply t_ret..]. destruct (Hrec _ eq_refl) as [Hf Hok].
      eapply t_mono; [apply t_outcomeOfClaim; [done| |done]|].
      - by eapply good_claim.
      - intros s σ2 He2 Hg2 Hs c' [= <-]. done. }
    intros s σ2 He2 Hg2 Hs. pose proof (ext_prefix _ _ _ He2) as Hp2.
    assert (ownClaims (q_runId request) σ2) as Ho2 by (by eapply ownClaims_ext).
    assert (σ0 `prefix_of` σ2) as Hp02 by (by etrans).
    destruct (decideKeyHolder record s) as [holder|] eqn:Hd.
    - destruct record as [[c|l]|]; try done. cbn in Hd. destruct (isAbsent s); [|done]. injection Hd as ->.
      destruct (Hrec _ eq_refl) as [Hf Hok]. apply (find_prefix _ σ2) in Hf; [|done].
      eapply t_use; [by apply t_highestKeyRecord|]. intros h' σ3 He3 Hg3 [_ Hh3].
      pose proof (ext_prefix _ _ _ He3) as Hp3. assert (σ0 `prefix_of` σ3) as Hp03 by (by etrans).
      assert (ownClaims (q_runId request) σ3) as Ho3 by (by eapply ownClaims_ext).
      destruct h' as [|r'|g]; [by apply Hloop| |by apply Hloop].
      destruct (negb _); [by apply Hloop|]. destruct (isMine request holder) eqn:Hm.
      + unfold isMine in Hm. split_bools. destruct (good_claim _ _ _ _ _ Hg2 Hf) as (Hc & ? & ? & _).
        split; [done|]. split; [done|]. split; [|done]. split; [by apply (claimed_mono σ2 σ3)|]. by split_and!.
      + eapply t_use; [by apply t_settleAbandoned|]. intros b σ4 He4 Hg4 _.
        pose proof (ext_prefix _ _ _ He4). assert (ownClaims (q_runId request) σ4) by (by eapply ownClaims_ext).
        destruct b; [apply Hloop; [by etrans|done..]|]. split_and!; [by etrans|done..].
    - eapply safe_bind; [apply s_tryClaim; try done| |done].
      + destruct record as [r|]; [|done]. destruct (Hrec _ eq_refl) as [Hf Hok].
        split; [by apply (find_prefix σ1 σ2)|]. intros c ->. apply Hs; [done|]. intros ->. done.
      + intros [c|] σ3 (Hp3 & Hg3 & Ho3 & Hc); [|apply Hloop; [by etrans|done..]].
        split_and!; [by etrans|done| |done]. by apply Hc. }
  destruct h as [|r|g]; [apply (Hbody None); done| |by split_and!].
  apply (Hbody (Some r)). intros r' [= <-]. destruct Hh as (σs & _ & _ & Hes & Hf & Hok & _).
  split; [|done]. eapply find_prefix; [by eapply ext_prefix|done].
Qed.

(** ** Finding the holder of a key *)

Definition freed (σ : log) (c : WaitKeyClaim) : Prop := released σ c ∨ settled σ c.

Lemma freed_mono σ σ' c : σ `prefix_of` σ' → freed σ c → freed σ' c.
Proof. intros Hp [?|?]; [left; by eapply released_mono|right; by eapply settled_mono]. Qed.

Lemma below_freed σ c g :
  good σ → claimed σ c → is_Some (find σ (AKey (c_workflowId c) (c_key c) g)) → c_generation c < g → freed σ c.
Proof.
  intros Hg Hc Hs Hlt. apply good_superseded; [done..|].
  destruct (good_contiguous σ (c_workflowId c) (c_key c) (c_generation c + 1) g Hg Hs) as (r & Hr); [|eauto].
  destruct (good_key_address _ _ _ _ _ Hg Hc). lia.
Qed.

(** every claim of the key that can be read in [σ] is settled or given up by [σ'] *)
Definition allFreed (w k : string) (σ σ' : log) : Prop :=
  ∀ c, claimed σ c → c_workflowId c = w → c_key c = k → waitKeyRecordOk (RClaim c) = true → freed σ' c.

Lemma allFreed_mono w k σ0 σ1 σ2 σ3 :
  σ0 `prefix_of` σ1 → σ2 `prefix_of` σ3 → allFreed w k σ1 σ2 → allFreed w k σ0 σ3.
Proof.
  intros H01 H23 Hf c Hc Hw Hk Hok. eapply freed_mono; [done|]. apply Hf; try done. by eapply claimed_mono.
Qed.

Lemma good_decode σ c w k g :
  good σ → find σ (AKey w k g) = Some (VKey (RClaim c)) → waitKeyRecordOk (RClaim c) = true →
  decodeWaitKeyRecord (Some (VKey (RClaim c))) w k g = Found (RClaim c).
Proof.
  intros Hg Hf Hok. destruct (good_key _ _ _ _ _ Hg Hf) as (r & σ0 & [= <-] & _ & _ & _ & [= <- <- <-] & _ & Ha).
  destruct Ha as (record & _ & _ & He & _). unfold decodeWaitKeyRecord. rewrite Hok. cbn [negb keyAddress].
  rewrite !bool_decide_eq_true_2, Z.eqb_refl by done. destruct (c_early c) as [e|]; [|done].
  destruct (He e eq_refl) as [-> _]. by rewrite Z.eqb_refl.
Qed.

(** the highest record of a key frees every claim but itself *)
Lemma highest_freed w k σ h c :
  good σ → highestAt σ w k h → claimed σ c → c_workflowId c = w → c_key c = k →
  waitKeyRecordOk (RClaim c) = true → h = KFound (RClaim c) ∨ freed σ c.
Proof.
  intros Hg Hh Hc Hw Hk Hok. pose proof Hc as Hc'. unfold claimed in Hc'. rewrite Hw, Hk in Hc'.
  destruct h as [|r|g]; cbn [highestAt] in Hh.
  - by rewrite Hh in Hc'.
  - destruct Hh as (Hf & _ & Hmax). specialize (Hmax (c_generation c) ltac:(eauto)).
    destruct (decide (c_generation c = recordGeneration r)) as [E|].
    + left. rewrite E, Hf in Hc'. by injection Hc' as ->.
    + right. apply (below_freed σ c (recordGeneration r)); [done..| |lia]. rewrite Hw, Hk. eauto.
  - destruct Hh as ((v & Hf & Hd) & Hmax). specialize (Hmax (c_generation c) ltac:(eauto)). right.
    destruct (decide (c_generation c = g)) as [E|].
    + rewrite E in Hc'. assert (v = VKey (RClaim c)) as -> by congruence.
      rewrite (good_decode σ c w k g Hg Hc' Hok) in Hd. done.
    + apply (below_freed σ c g); [done..| |lia]. rewrite Hw, Hk. eauto.
Qed.

Lemma t_keyHolderLoop attempts w k h σ σ0 :
  good σ → once σ0 σ (λ σs, highestAt σs w k h) → (attempts = 0%nat → allFreed w k σ0 σ) →
  triple σ (keyHolderLoop attempts w k h) (λ r σ', r = LFree → allFreed w k σ0 σ').
Proof.
  revert h σ. induction attempts as [|attempts IH]; intros h σ Hg Hh Hz; [apply t_ret; auto|].
  clear Hz. cbn [keyHolderLoop]. destruct Hh as (σs & Hes & Hgs & Hse & Hh).
  pose proof (ext_prefix _ _ _ Hes) as Hps. pose proof (ext_prefix _ _ _ Hse) as Hsp.
  assert (∀ σ', σ `prefix_of` σ' → good σ' → (∀ c, h = KFound (RClaim c) → freed σ' c) → allFreed w k σ0 σ')
    as Hfree.
  { intros σ' Hp' Hg' Hc c Hcl Hw Hk Hok. apply (claimed_mono σ0 σs) in Hcl; [|done].
    destruct (highest_freed w k σs h c) as [?|Hf]; try done; [by apply Hc|].
    eapply freed_mono; [|done]. by etrans. }
  destruct h as [|[c|l]|g].
  - apply t_ret; [done|]. intros _. by apply Hfree.
  - eapply t_bind; [by apply t_findOutcome|]. intros s σ1 He1 Hg1 Hs.
    pose proof (ext_prefix _ _ _ He1) as Hp1.
    destruct (decideKeyHolder _ _) as [holder|] eqn:Hd; cbn in Hd;
      destruct (isAbsent (belongsTo (c_runId c) s)) eqn:Ha; try done.
    2: { apply t_ret; [done|]. intros _. apply Hfree; [done..|]. intros c' [= <-]. right.
      apply isAbsent_false in Ha. rewrite belongsTo_absent in Ha. exact (read_settled _ _ _ Hs Ha). }
    injection Hd as <-. eapply t_bind; [by apply t_highestKeyRecord|]. intros h σ2 He2 Hg2 [_ Hh2].
    assert (h ≠ KFound (RClaim c) →
      triple σ2 (keyHolderLoop attempts w k h) (λ r σ', r = LFree → allFreed w k σ0 σ')) as Hrec.
    { intros Hne. pose proof (ext_prefix _ _ _ He2) as Hp2.
      destruct Hh2 as (σt & Het & Hgt & Het2 & Ht). apply IH; [done| |].
      - exists σt. split_and!; try done. etrans; [exact Hes|]. etrans; [exact Hse|]. by etrans.
      - intros _. apply Hfree; [by etrans|done|]. intros c' [= <-].
        apply (freed_mono σt σ2 c (ext_prefix _ _ _ Het2)).
        destruct Hh as (Hf & Hok & _). cbn [recordGeneration] in Hf.
        destruct (good_claim _ _ _ _ _ Hgs Hf) as (Hc & Hw & Hk & _).
        destruct (highest_freed w k σt h c) as [?|?]; try done.
        apply (claimed_mono σs σt); [|done]. eapply ext_prefix. etrans; [exact Hse|]. by etrans. }
    destruct h as [|r|g]; [by apply Hrec| |by apply Hrec]. destruct (Z.eqb_spec (recordGeneration r) (c_generation c)).
    + by apply t_ret.
    + apply Hrec. by intros [= ->].
  - apply t_ret; [done|]. intros _. by apply Hfree.
  - by apply t_ret.
Qed.

Lemma t_findKeyHolder w k σ :
  good σ → validAddress (AKey w k 1) = true →
  triple σ (findKeyHolder w k) (λ r σ', r = LFree → allFreed w k σ σ').
Proof.
  intros Hg Hva. unfold findKeyHolder. cbn in Hva. split_bools.
  repeat match goal with Hb : ?b = true |- context [?b] => rewrite Hb end. cbn [negb orb].
  eapply t_bind; [by apply t_highestKeyRecord|]. intros h σ1 He1 Hg1 [_ Hh].
  by apply t_keyHolderLoop.
Qed.

(** ** Looking for what took a signal *)

Lemma t_knownOrFound known w k g σ :
  good σ → triple σ (knownOrFound known w k g) (λ s σ', known = None →
    s = decodeWaitKeyRecord (find σ' (AKey w k g)) w k g).
Proof.
  intros Hg. unfold knownOrFound. destruct known as [r|].
  - destruct (_ =? _); [by apply t_ret|]. eapply t_mono; [by apply t_findKeyRecord|done].
  - eapply t_mono; [by apply t_findKeyRecord|done].
Qed.

Lemma reads_readsSlot σ c s :
  good σ → claimed σ c → reads c s →
  (c_generation c = s ∨ c_generation c = s + 1) ∧ readsSlot s c (c_generation c) = true.
Proof.
  intros Hg Hc Hr. pose proof Hr as (e & He & Hs).
  destruct (good_key _ _ _ _ _ Hg Hc) as (r & σ0 & [= <-] & _ & _ & _ & _ & _ & record & _ & _ & Hover & _).
  destruct (Hover e He) as [Hgen _]. unfold readsSlot. rewrite He. unfold earlySlots in Hs. rewrite Hgen in Hs.
  destruct (overRelease e && (1 <? c_generation c)) eqn:Ho.
  - apply andb_true_iff in Ho as [-> _]. rewrite orb_true_r. split; [|done].
    apply elem_of_cons in Hs as [?|Hs%list_elem_of_singleton]; lia.
  - apply list_elem_of_singleton in Hs as ->. rewrite Z.eqb_refl. auto.
Qed.

Lemma claimAmong_claimed σ w k s g :
  good σ → Forall (λ c, claimed σ c ∧ waitKeyRecordOk (RClaim c) = true)
    (claimAmong s g (decodeWaitKeyRecord (find σ (AKey w k g)) w k g)).
Proof.
  intros Hg. destruct (decodeWaitKeyRecord _ w k g) as [[c|l]| |] eqn:Hd; try constructor.
  destruct (decode_key_found _ _ _ _ _ Hd) as (Hf & _ & _ & Hok). cbn [claimAmong].
  destruct (readsSlot s c g); constructor; [|constructor]. split; [|done]. by eapply good_claim.
Qed.

Lemma t_claimsReadingSlot w k s known σ :
  good σ → triple σ (claimsReadingSlot w k s known) (λ r σ', known = None →
    Forall (λ c, claimed σ' c ∧ waitKeyRecordOk (RClaim c) = true) r.1 ∧
    ∀ c, claimed σ c → c_workflowId c = w → c_key c = k → waitKeyRecordOk (RClaim c) = true → reads c s →
      c ∈ r.1).
Proof.
  intros Hg. eapply t_bind; [by apply t_knownOrFound|]. intros first σ1 He1 Hg1 Hfirst.
  eapply t_bind; [by apply t_knownOrFound|]. intros second σ2 He2 Hg2 Hsecond. apply t_ret; [done|].
  intros Hk0. cbn [fst]. rewrite (Hfirst Hk0), (Hsecond Hk0).
  pose proof (ext_prefix _ _ _ He1) as Hp1. pose proof (ext_prefix _ _ _ He2) as Hp2. split.
  - apply Forall_app. split; [|by apply claimAmong_claimed].
    eapply Forall_impl; [by apply (claimAmong_claimed σ1)|]. intros c [? ?].
    split; [by apply (claimed_mono σ1 σ2)|done].
  - intros c Hc Hw Hk Hok Hr. destruct (reads_readsSlot σ c s Hg Hc Hr) as [Hgen Hrs].
    unfold claimed in Hc. rewrite Hw, Hk in Hc. apply elem_of_app.
    destruct Hgen as [E|E]; rewrite E in Hc, Hrs; [left|right]; unfold claimAmong.
    + apply (find_prefix _ _ _ _ Hp1) in Hc. rewrite Hc, (good_decode σ1 c w k s Hg1 Hc Hok), Hrs.
      apply list_elem_of_here.
    + apply (find_prefix _ _ _ _ Hp1), (find_prefix _ _ _ _ Hp2) in Hc.
      rewrite Hc, (good_decode σ2 c w k (s + 1) Hg2 Hc Hok), Hrs. apply list_elem_of_here.
Qed.

(** a wait that was given the signal is found by its claim *)
Lemma taken_accepted σ c o id R :
  good σ → claimed σ c → waitKeyRecordOk (RClaim c) = true → normalizeWaitId (c_waitId c) = Some id →
  find σ (AOutcome id) = Some (VOutcome o) → takes o R →
  ∃ receipt, acceptedFor c (decodeWaitOutcome (Some (VOutcome o)) (c_waitId c)) = Some (o, receipt) ∧
    r_id receipt = R.
Proof.
  intros Hg Hc Hok Hid Hf Ht. rewrite claim_waitId in Hid by done. injection Hid as <-.
  destruct (good_outcome _ _ _ _ Hg Hf Ht) as (c' & _ & Hc' & _ & Hid' & Hrun & _ & _ & _ & _ & _ & Hd).
  rewrite Hd. unfold acceptedFor. rewrite bool_decide_eq_true_2 by (rewrite Hrun; by apply (good_run σ)).
  destruct Ht as (receipt & payload & -> & _ & <-). eauto.
Qed.

Lemma t_takerAmong claims p copy σ :
  good σ → Forall (λ c, claimed σ c ∧ waitKeyRecordOk (RClaim c) = true) claims →
  triple σ (takerAmong claims p copy) (λ r σ', r = None → copy = None ∧
    ∀ c id o, c ∈ claims → reads c (p_slot p) → normalizeWaitId (c_waitId c) = Some id →
      find σ (AOutcome id) = Some (VOutcome o) → ¬ takes o (p_receiptId p)).
Proof.
  revert copy σ. induction claims as [|c claims IH]; intros copy σ Hg Hcl.
  - apply t_ret; [done|]. intros Hcopy. split; [done|]. by intros c id o ?%elem_of_nil.
  - apply Forall_cons in Hcl as [[Hc Hok] Hcl]. cbn [takerAmong].
    destruct (match c_early c with Some e => _ | None => true end) eqn:Hnr.
    { eapply t_mono; [by apply IH|]. intros r σ' He' Hg' Hr Hnone. destruct (Hr Hnone) as [Hcopy Hall].
      split; [done|]. intros c' id o [->|Hin]%elem_of_cons; [|by apply Hall].
      intros (e & He & Hs). rewrite He in Hnr. split_bools. done. }
    eapply t_bind; [by apply t_findOutcome|]. intros s σ1 He1 Hg1 (id1 & Hid1 & Hs).
    pose proof (ext_prefix _ _ _ He1) as Hp1.
    assert (Forall (λ c, claimed σ1 c ∧ waitKeyRecordOk (RClaim c) = true) claims) as Hcl1.
    { eapply Forall_impl; [exact Hcl|]. intros c' [? ?]. split; [by eapply claimed_mono|done]. }
    assert (∀ copy', (copy' = None → copy = None) → (∀ o receipt, acceptedFor c s = Some (o, receipt) →
        r_id receipt ≠ p_receiptId p) →
      triple σ1 (takerAmong claims p copy') (λ r σ', r = None → copy = None ∧
        ∀ c' id o, c' ∈ c :: claims → reads c' (p_slot p) → normalizeWaitId (c_waitId c') = Some id →
          find σ (AOutcome id) = Some (VOutcome o) → ¬ takes o (p_receiptId p))) as Hnext.
    { intros copy' Hcopy Hno. eapply t_mono; [by apply IH|]. intros r σ' He' Hg' Hr Hnone.
      destruct (Hr Hnone) as [Hcopy' Hall]. split; [auto|]. intros c' id o [->|Hin]%elem_of_cons Hrd Hid Hf.
      - intros Ht. apply (find_prefix _ σ1) in Hf; [|done].
        destruct (taken_accepted σ1 c o id (p_receiptId p)) as (receipt & Ha & Hrid); try done.
        { by eapply claimed_mono. }
        apply (Hno o receipt); [|done]. rewrite Hid1 in Hid. injection Hid as <-. by rewrite Hs, Hf.
      - apply (Hall c' id o); try done. by eapply find_prefix. }
    destruct (acceptedFor c s) as [[o receipt]|] eqn:Ha; [|by apply Hnext].
    case_bool_decide as Hrid; [by apply t_ret|]. apply Hnext.
    + by destruct (isCopy _ _ _).
    + intros o' receipt' [= <- <-]. done.
Qed.

(** no taker: no claim of the slot was given the signal *)
Lemma t_findTakerOf p σ :
  good σ → triple σ (findTakerOf p) (λ r σ', r = None →
    ∀ c id o, claimed σ c → c_workflowId c = p_workflowId p → c_key c = p_key p →
      waitKeyRecordOk (RClaim c) = true → reads c (p_slot p) → normalizeWaitId (c_waitId c) = Some id →
      find σ (AOutcome id) = Some (VOutcome o) → ¬ takes o (p_receiptId p)).
Proof.
  intros Hg. eapply t_bind; [by apply t_claimsReadingSlot|]. intros r σ1 He1 Hg1 Hr.
  destruct (Hr eq_refl) as [Hcl Hin]. eapply t_mono; [by apply t_takerAmong|].
  intros t σ2 He2 Hg2 Ht -> c id o Hc Hw Hk Hok Hrd Hid Hf.
  destruct (Ht eq_refl) as [_ Hno]. apply (Hno c id o); try done; [by apply Hin|].
  eapply find_prefix; [by eapply ext_prefix|done].
Qed.

Lemma t_settledAmong generations w k highest key sender σ :
  good σ → triple σ (settledAmong generations w k highest key sender) (λ _ _, True).
Proof.
  revert σ. induction generations as [|g generations IH]; intros σ Hg; [by apply t_ret|].
  cbn [settledAmong]. destruct (_ <? _); [by apply t_ret|].
  eapply t_bind; [by apply t_knownOrFound|]. intros s σ1 He1 Hg1 _.
  destruct s as [[c|l]| |]; [|by apply IH..]. eapply t_bind; [by apply t_findOutcome|].
  intros o σ2 He2 Hg2 _. destruct (acceptedFor c o) as [[o' receipt]|]; [|by apply IH].
  destruct (_ && _); [by apply t_ret|by apply IH].
Qed.

Lemma t_headsOf w k live σ : good σ → triple σ (headsOf w k live) (λ _ _, True).
Proof.
  intros Hg. apply t_forEach_; [done|]. intros s σ' _ _ Hg'. eapply t_mono; [by apply t_highestPendingRecord|done].
Qed.

(** ** Holding an early signal *)

Section hold.
Context (w k : string).

(** the signals this process kept are at slots closed to them *)
Definition ownPendings (σ : log) : Prop :=
  ∀ p, pendingIn σ p → p_receiptId p = me →
    p_workflowId p = w ∧ p_key p = k ∧ slotClosed σ me w k (p_slot p).

Lemma pending_back σ σ' p : ext σ σ' → pendingIn σ' p → p_receiptId p = me → pendingIn σ p.
Proof.
  intros (τ & -> & Hf) Hp Hid. unfold pendingIn in *. rewrite find_app in Hp.
  destruct (find σ _); [done|]. apply find_in in Hp. rewrite Forall_forall in Hf. by specialize (Hf _ Hp Hid).
Qed.

Lemma ownPendings_ext σ σ' : ext σ σ' → ownPendings σ → ownPendings σ'.
Proof.
  intros He Ho p Hp Hid. destruct (Ho p) as (? & ? & ?); [by eapply pending_back|done|].
  split_and!; try done. eapply slotClosed_mono; [by eapply ext_prefix|done].
Qed.

(** a new signal goes above every slot its process used *)
Lemma ownPendings_below σ σ0 h p :
  ownPendings σ → ext σ σ0 → good σ0 → highestAt σ0 w k h → pendingIn σ p → p_receiptId p = me →
  match h with KUnreadable _ => True | _ => p_slot p < (liveSlotsOf h).1 end.
Proof.
  intros Ho He Hg Hh Hp Hid. destruct (Ho p Hp Hid) as (_ & _ & r & Hf & _).
  apply (find_prefix _ σ0) in Hf; [|by eapply ext_prefix].
  destruct h as [|r'|g]; [|destruct Hh as (_ & _ & Hmax)|done].
  - cbn [highestAt] in Hh. by rewrite Hh in Hf.
  - specialize (Hmax (p_slot p) ltac:(eauto)). cbn. lia.
Qed.

Lemma liveSlot_positive σ h : good σ → highestAt σ w k h → 1 ≤ (liveSlotsOf h).1.
Proof.
  intros Hg Hh. destruct h as [|r|g]; cbn; [lia| |lia]. destruct Hh as (Hf & _).
  destruct (good_key_address _ _ _ _ _ Hg Hf). lia.
Qed.

(** a signal kept before any claim that reads it *)
Definition beforeReaders (p : PendingSignal) (σ : log) : Prop :=
  ∃ σa, σa `prefix_of` σ ∧ pendingIn σa p ∧
    ∀ c, claimed σa c → c_workflowId c = p_workflowId p → c_key c = p_key p → ¬ reads c (p_slot p).

Definition unreadableKey (σ : log) : Prop :=
  ∃ g v, find σ (AKey w k g) = Some v ∧ decodeWaitKeyRecord (Some v) w k g = Unreadable.

Lemma live_noReaders σ h s c :
  good σ → highestAt σ w k h → (∀ g, h ≠ KUnreadable g) → slotIsLive s h = true →
  claimed σ c → c_workflowId c = w → c_key c = k → ¬ reads c s.
Proof.
  intros Hg Hh Hnu Hl Hc Hw Hk Hr. pose proof Hc as Hc'. unfold claimed in Hc'. rewrite Hw, Hk in Hc'.
  destruct (reads_readsSlot σ c s Hg Hc Hr) as [Hgen _].
  destruct h as [|r|g]; [cbn [highestAt] in Hh; by rewrite Hh in Hc'| |by destruct (Hnu g)].
  destruct Hh as (Hf & _ & Hmax). specialize (Hmax (c_generation c) ltac:(eauto)). cbn in Hl.
  apply orb_true_iff in Hl as [Hl|Hl]; split_bools; [lia|]. destruct r as [c'|l]; [done|].
  assert (c_generation c = recordGeneration (RRelease l)) as E by lia. rewrite E in Hc'. congruence.
Qed.

(** once the slot is claimed, the holder free and no taker found, the slot is closed *)
Lemma notLive_closed σs σ0 σ1 p h :
  good σs → good σ1 → σs `prefix_of` σ0 → σ0 `prefix_of` σ1 →
  highestAt σs w k h → (∀ g, h ≠ KUnreadable g) → slotIsLive (p_slot p) h = false →
  1 ≤ p_slot p → p_workflowId p = w → p_key p = k → p_receiptId p = me → allFreed w k σs σ0 →
  (∀ c id o, claimed σ0 c → c_workflowId c = p_workflowId p → c_key c = p_key p →
    waitKeyRecordOk (RClaim c) = true → reads c (p_slot p) → normalizeWaitId (c_waitId c) = Some id →
    find σ0 (AOutcome id) = Some (VOutcome o) → ¬ takes o (p_receiptId p)) →
  slotClosed σ1 me w k (p_slot p).
Proof.
  intros Hgs Hg1 Hps0 Hp01 Hh Hnu Hl Hpos Hw Hk Hid Hfree Hno. pose proof (good_prefix _ _ Hp01 Hg1) as Hg0.
  assert (∀ c g, find σs (AKey w k g) = Some (VKey (RClaim c)) → waitKeyRecordOk (RClaim c) = true →
    reads c (p_slot p) → decided σ1 me c) as Hdec.
  { intros c g Hf Hok Hr. destruct (good_claim _ _ _ _ _ Hgs Hf) as (Hc & Hcw & Hck & _).
    apply (decided_mono σ0 σ1); [done|]. destruct (Hfree c) as [Hrel|(id & Hn & v & Hv)]; try done; [by right|].
    left. destruct (find_admissible _ _ _ Hg0 Hv) as (σx & _ & _ & _ & Ha & _).
    destruct v as [| |o| |]; try done. exists id, o. split_and!; try done. rewrite <-Hid.
    apply (Hno c id o); try congruence. by apply (claimed_mono σs σ0). }
  assert (∃ r, find σs (AKey w k (p_slot p)) = Some (VKey r) ∧
    (∀ l, r = RRelease l → ∃ r', find σs (AKey w k (p_slot p + 1)) = Some (VKey r'))) as (r & Hf & Hnext).
  { destruct h as [|r0|g]; [cbn in Hl; lia| |by destruct (Hnu g)]. destruct Hh as (Hf & _ & _). cbn in Hl.
    apply orb_false_iff in Hl as [Hlt Hrel]. apply Z.ltb_ge in Hlt.
    destruct (good_contiguous σs w k (p_slot p) (recordGeneration r0) Hgs) as (r & Hr); [eauto|lia|].
    exists r. split; [done|]. intros l ->.
    assert (recordGeneration r0 ≠ p_slot p).
    { intros E. rewrite E, Hr in Hf. injection Hf as <-. by rewrite E, Z.eqb_refl in Hrel. }
    apply (good_contiguous σs w k _ (recordGeneration r0) Hgs); [eauto|lia]. }
  assert (σs `prefix_of` σ1) as Hps1 by (by etrans).
  exists r. split; [by apply (find_prefix σs)|]. split.
  - intros c -> Hok Hr. by apply (Hdec c (p_slot p)).
  - intros l Hl'. destruct (Hnext l Hl') as (r' & Hr'). exists r'. split; [by apply (find_prefix σs)|].
    intros c -> Hok Hr. by apply (Hdec c (p_slot p + 1)).
Qed.

Lemma s_createPending p0 σ :
  good σ → ownPendings σ → p_workflowId p0 = w → p_key p0 = k → p_receiptId p0 = me → 1 ≤ p_slot p0 →
  (∀ p, pendingIn σ p → p_receiptId p = me → p_slot p < p_slot p0) →
  safe me (λ s σ', since σ (λ σ', ∀ p, pendingIn σ' p → p_receiptId p = me → pendingIn σ p ∨ p = p0) σ' ∧
      s = decodePendingRecord (find σ' (APending w k (p_slot p0) (p_number p0))) w k (p_slot p0) (p_number p0))
    good σ (createPendingRecord (RPending p0)).
Proof.
  intros Hg Ho Hw Hk Hid Hpos Hlt. unfold createPendingRecord. cbn [pendingAddress]. rewrite Hw, Hk.
  eapply (safe_bind _ (λ _, since σ (λ σ', ∀ p, pendingIn σ' p → p_receiptId p = me → pendingIn σ p ∨ p = p0))
    _ good good).
  - unfold at_. destruct (validAddress _); [|done]. intros σ1 He1 Hg1. cbn [orThrow safe isRegistration].
    split; [done|]. pose proof (ext_prefix _ _ _ He1) as Hp1. destruct (find σ1 _) as [v|] eqn:E.
    { split_and!; [done..|]. intros p Hp Hp'. left. by eapply pending_back. }
    assert (admissible σ1 (APending w k (p_slot p0) (p_number p0)) (VPending (RPending p0))) as Ha.
    { split; [by cbn; rewrite Hw, Hk|]. intros p' Hp' Hid'. rewrite Hid in Hid'.
      destruct (ownPendings_ext σ σ1 He1 Ho p' Hp' Hid') as (? & ? & ?). rewrite Hid. split_and!; try done.
      apply Hlt; [by eapply pending_back|done]. }
    assert (good (σ1 ++ [(APending w k (p_slot p0) (p_number p0), VPending (RPending p0))])) by (by constructor).
    split_and!; [done..|]. intros [[]|]; [|done]. split_and!; [etrans; [exact Hp1|]; eexists; done|done|].
    intros p Hp Hp'. unfold pendingIn in Hp. rewrite find_snoc in Hp by done.
    destruct (decide _); [injection Hp as <-; by right|]. left. by eapply pending_back.
  - intros [] σ1 (Hp1 & Hg1 & Ho1). eapply safe_mono; [by apply t_findPendingRecord|cbn|by intros σ2 [_ ?]].
    intros s σ2 (He2 & Hg2 & ->). split; [|done]. split_and!; [etrans; [done|by eapply ext_prefix]|done|].
    intros p Hp Hp'. apply Ho1; [by eapply pending_back|done].
  - done.
Qed.

Definition arrivalFor (a : EarlyArrival) (σ : log) : Prop :=
  ∀ p, a = EPending p → unreadableKey σ ∨
    beforeReaders p σ ∧ p_workflowId p = w ∧ p_key p = k ∧ 1 ≤ p_number p.

Lemma keyUnreadable_false h : keyUnreadable h = false → ∀ g, h ≠ KUnreadable g.
Proof. by destruct h. Qed.

Lemma t_answerStored p σ :
  good σ → validAddress (AKey w k 1) = true → pendingIn σ p → 1 ≤ p_slot p → 1 ≤ p_number p →
  p_workflowId p = w → p_key p = k → p_receiptId p = me →
  triple σ (answerStored w k p) (λ r σ', match r with
    | Some a => arrivalFor a σ'
    | None => slotClosed σ' me w k (p_slot p)
    end).
Proof.
  intros Hg Hva Hp Hpos Hnum Hw Hk Hid. eapply t_bind; [by apply t_highestKeyRecord|].
  intros h σ1 He1 Hg1 [_ (σs & Hes & Hgs & Hse & Hh)].
  pose proof (ext_prefix _ _ _ Hes) as Hps. pose proof (ext_prefix _ _ _ Hse) as Hps1.
  destruct (keyUnreadable h) eqn:Hu.
  { apply t_ret; [done|]. intros p' [= <-]. left. destruct h as [| |g]; try done.
    destruct Hh as ((v & Hf & Hd) & _). exists g, v. split; [by apply (find_prefix σs)|done]. }
  pose proof (keyUnreadable_false h Hu) as Hnu. destruct (slotIsLive (p_slot p) h) eqn:Hl.
  { apply t_ret; [done|]. intros p' [= <-]. right. split_and!; try done. exists σs.
    split_and!; [done|by apply (pendingIn_mono σ)|]. intros c Hc Hcw Hck.
    apply (live_noReaders σs h); congruence. }
  eapply t_bind; [by apply t_findKeyHolder|]. intros holding σ2 He2 Hg2 Hfree.
  pose proof (ext_prefix _ _ _ He2) as Hp2.
  assert ((holding = LFree ∨ ∃ c, holding = LHeld c) →
    triple σ2 (taker ← findTakerOf p;
      Ret (match taker, holding with
           | Some (claim, outcome), _ =>
               Some (match o_kind outcome with
                     | Accepted receipt _ =>
                         if bool_decide (r_id receipt = p_receiptId p) then ETaken claim p
                         else EDuplicate claim outcome (Some p)
                     | _ => EDuplicate claim outcome (Some p)
                     end)
           | None, LHeld claim => Some (EHeld claim (Some p))
           | None, _ => None
           end)) (λ r σ', match r with
             | Some a => arrivalFor a σ'
             | None => slotClosed σ' me w k (p_slot p)
             end)) as Htaker.
  { intros Hh2. eapply t_bind; [by apply t_findTakerOf|]. intros taker σ3 He3 Hg3 Hno. apply t_ret; [done|].
    destruct taker as [[c o]|].
    - intros p' E. repeat case_match; done.
    - destruct Hh2 as [->|[c ->]]; [|done]. specialize (Hfree eq_refl).
      apply (notLive_closed σs σ2 σ3 p h); try done.
      + by etrans.
      + by eapply ext_prefix.
      + by apply (allFreed_mono w k σs σ1 σ2 σ2).
      + by apply Hno. }
  destruct holding as [c| |g]; [apply Htaker; eauto..|by apply t_ret].
Qed.

(** an attempt ends in an answer, or every signal the process kept is at a closed slot *)
Lemma s_holdOnce signal now stored σ :
  y_workflowId signal = w → y_key signal = k → good σ → ownPendings σ →
  safe me (λ r σ', good σ' ∧ match r with inl a => arrivalFor a σ' | inr _ => ownPendings σ' end) good σ
    (holdOnce signal me now stored).
Proof.
  intros Hw Hk Hg Ho. unfold holdOnce. cbv zeta. rewrite Hw, Hk. eapply t_use; [by apply t_highestKeyRecord|].
  intros h σ1 He1 Hg1 [Hva (σs & Hes & Hgs & Hse & Hh)]. destruct (keyUnreadable h) eqn:Hu; [by split|].
  eapply t_use; [by apply t_findKeyHolder|]. intros holder σ2 He2 Hg2 _.
  destruct holder as [c| |g]; [by split| |by split].
  eapply (t_use _ _ _ _ (λ _ _, True)).
  { destruct (y_idempotencyKey signal); [|by apply t_ret]. unfold settledUnderKey.
    destruct h; [by apply t_ret|by apply t_settledAmong|by apply t_ret]. }
  intros landed σ3 He3 Hg3 _. destruct landed as [[c o]|]; [by split|].
  eapply t_use; [by apply t_headsOf|]. intros heads σ4 He4 Hg4 _.
  destruct (decideEarlySignal heads now) as [n|p|]; [|by split..].
  set (p0 := pendingOf signal me (liveSlotsOf h).1 n now).
  assert (ext σ σ4) as He04. { etrans; [exact He1|]. etrans; [exact He2|]. by etrans. }
  pose proof (ownPendings_ext σ σ4 He04 Ho) as Ho4. pose proof (liveSlot_positive σs h Hgs Hh) as Hpos.
  assert (∀ p, pendingIn σ4 p → p_receiptId p = me → p_slot p < p_slot p0) as Hlt.
  { intros p Hp Hid. pose proof (ownPendings_below σ σs h p Ho Hes Hgs Hh) as Hb.
    destruct h; [apply Hb; [by eapply pending_back|done]..|done]. }
  eapply safe_bind; [by apply (s_createPending p0)| |done].
  intros s σ5 [(Hp5 & Hg5 & Hback) Hs].
  assert (∀ p, pendingIn σ5 p → p_receiptId p = me → p = p0 ∨
    p_workflowId p = w ∧ p_key p = k ∧ slotClosed σ5 me w k (p_slot p)) as Hold.
  { intros p Hp Hid. destruct (Hback p Hp Hid) as [Hp4|?]; [right|by left].
    destruct (Ho4 p Hp4 Hid) as (? & ? & ?). split_and!; try done. by apply (slotClosed_mono σ4). }
  destruct s as [[p|l]| |]; [| |by split..]; symmetry in Hs;
    destruct (decode_pending_found _ _ _ _ _ _ Hs) as (Hf & Haddr & _ & Hpok).
  - case_bool_decide as Hid; [|by split]. cbn [negb]. cbn in Haddr. injection Haddr as Epw Epk Eps Epn.
    assert (pendingIn σ5 p) as Hp by (unfold pendingIn; by rewrite Epw, Epk, Eps, Epn).
    assert (p = p0) as ->.
    { destruct (Hback p Hp Hid) as [Hp4|?]; [|done]. specialize (Hlt p Hp4 Hid). rewrite Eps in Hlt. by apply Z.lt_irrefl in Hlt. }
    assert (1 ≤ p_number p0) by (unfold pendingRecordOk in Hpok; split_bools; done).
    eapply t_use; [by apply t_answerStored|]. intros [a|] σ6 He6 Hg6 Ha; [by split|]. split; [done|].
    intros p Hp6 Hid6. apply (pending_back σ5) in Hp6; [|done..].
    destruct (Hold p Hp6 Hid6) as [->|(? & ? & ?)]; [done|].
    split_and!; try done. apply (slotClosed_mono σ5); [by eapply ext_prefix|done].
  - split; [done|]. intros p Hp Hid. destruct (Hold p Hp Hid) as [->|?]; [exfalso|done]. unfold pendingIn in Hp.
    change (p_workflowId p0) with (y_workflowId signal) in Hp. change (p_key p0) with (y_key signal) in Hp.
    rewrite Hw, Hk in Hp. congruence.
Qed.

Lemma s_holdLoop attempts signal now stored σ :
  y_workflowId signal = w → y_key signal = k → good σ → ownPendings σ →
  safe me (λ a σ', good σ' ∧ arrivalFor a σ') good σ (holdLoop attempts signal me now stored).
Proof.
  intros Hw Hk. revert stored σ. induction attempts as [|attempts IH]; intros stored σ Hg Ho; [by split|].
  cbn [holdLoop]. eapply safe_bind; [by apply s_holdOnce| |done]. intros [a|stored'] σ' [Hg' Ha]; [by split|].
  by apply IH.
Qed.

End hold.

(** ** Releasing, sweeping and closing *)

Lemma t_createRelease w k g now σ c :
  good σ → find σ (AKey w k (g - 1)) = Some (VKey (RClaim c)) →
  triple σ (createKeyRecord (RRelease (MkRelease w k g now))) (λ _ _, True).
Proof.
  intros Hg Hf. unfold createKeyRecord. cbn [keyAddress]. eapply t_bind.
  - apply t_at; [done|]. intros Hva. apply t_put; [done..|]. intros σ' He' Hg' _. split_and!; [done| |].
    + destruct (good_key_address _ _ _ _ _ Hg Hf) as [_ Hge]. cbn. lia.
    + exists c. eapply find_prefix; [by eapply ext_prefix|done].
  - intros [] σ' He' Hg' _. eapply t_mono; [by apply t_findKeyRecord|done].
Qed.

Lemma t_createLapse w k s n now σ :
  good σ → triple σ (createPendingRecord (RLapse (MkLapse w k s n now))) (λ _ _, True).
Proof.
  intros Hg. unfold createPendingRecord. cbn [pendingAddress]. eapply t_bind.
  - apply t_at; [done|]. intros Hva. by apply t_put.
  - intros [] σ' He' Hg' _. eapply t_mono; [by apply t_findPendingRecord|done].
Qed.

Lemma t_at_delete a σ : good σ → triple σ (at_ a (delete_ a)) (λ _ _, True).
Proof. intros Hg. apply t_at; [done|]. intros _. by apply t_delete. Qed.

Lemma t_with_delete waitId (a : string → Address) σ :
  good σ → triple σ (withWaitId waitId (λ id, delete_ (a id))) (λ _ _, True).
Proof. intros Hg. apply t_withWaitId; [done|]. intros id _. by apply t_delete. Qed.

Lemma t_releaseOneKey shouldRemove now records σ :
  good σ → triple σ (releaseOneKey shouldRemove now records) (λ _ _, True).
Proof.
  intros Hg. unfold releaseOneKey. cbv zeta. destruct (List.filter _ records) as [|x selected]; [by apply t_ret|].
  destruct records as [|first records]; [by apply t_ret|]. destruct (keyAddress first) as [[w k] g].
  eapply t_bind; [by apply t_highestKeyRecord|]. intros h σ1 He1 Hg1 [_ Hh].
  destruct h as [|r|]; [by apply t_ret| |by apply t_ret]. eapply (t_bind _ _ _ _ (λ _ _, True)).
  - destruct r as [c|l]; [|by apply t_ret]. destruct (existsb _ _); [|by apply t_ret].
    destruct Hh as (σs & _ & Hgs & Hse & Hf & _). eapply t_bind; [apply (t_createRelease _ _ _ _ _ c); [done|]|].
    + replace (_ + 1 - 1) with (recordGeneration (RClaim c)) by lia.
      eapply find_prefix; [by eapply ext_prefix|done].
    + intros s σ2 He2 Hg2 _. by apply t_ret.
  - intros superseded σ2 He2 Hg2 _. destruct superseded as [[floor released]|]; [|by apply t_ret].
    eapply t_bind; [apply t_forEach_; [done|]|].
    + intros y σ' _ _ Hg'. by apply t_at_delete.
    + intros ys σ3 He3 Hg3 _. by apply t_ret.
Qed.

Lemma t_listKeyRecords σ : good σ → triple σ listKeyRecords (λ _ _, True).
Proof.
  intros Hg. eapply t_bind; [by apply t_list|]. intros keys σ1 He1 Hg1 _.
  eapply t_bind; [apply t_forEach_; [done|]|].
  - intros a σ' _ _ Hg'. destruct a; [eapply t_mono; [by apply t_findKeyRecord|done]|by apply t_ret..].
  - intros found σ2 He2 Hg2 _. by apply t_ret.
Qed.

Lemma t_releaseKeyClaims shouldRemove now σ :
  good σ → triple σ (releaseKeyClaims shouldRemove now) (λ _ _, True).
Proof.
  intros Hg. eapply t_bind; [by apply t_listKeyRecords|]. intros records σ1 He1 Hg1 _.
  eapply t_bind; [apply t_forEach_; [done|]|].
  { intros l σ' _ _ Hg'. by apply t_releaseOneKey. }
  intros results σ2 He2 Hg2 _. eapply (t_bind _ _ _ _ (λ _ _, True)).
  - unfold removeSlots. case_bool_decide; [by apply t_ret|].
    eapply t_bind; [by apply t_list|]. intros addresses σ3 He3 Hg3 _.
    eapply t_bind; [apply t_forEach_; [done|]|intros ? σ4 He4 Hg4 _; by apply t_ret].
    intros a σ' _ _ Hg'. destruct a; try by apply t_ret. case_bool_decide; [by apply t_at_delete|by apply t_ret].
  - intros [] σ3 He3 Hg3 _. by apply t_ret.
Qed.

Lemma t_sweepSlot now at_ σ : good σ → triple σ (sweepSlot now at_) (λ _ _, True).
Proof.
  intros Hg. destruct at_ as [[[w k] s] numbers]. unfold sweepSlot. cbv zeta.
  assert (∀ ns σ', good σ' → triple σ' (_ ← forEach ns (removePendingRecord w k s); Ret (length ns)) (λ _ _, True))
    as Hremove.
  { intros ns σ' Hg'. eapply t_bind; [apply t_forEach_; [done|]|intros ? σ2 He2 Hg2 _; by apply t_ret].
    intros n σ2 _ _ Hg2. by apply t_at_delete. }
  eapply t_bind; [by apply t_highestKeyRecord|]. intros h σ1 He1 Hg1 _.
  assert (triple σ1
    (if negb (slotIsLive s h) then
       readers ← claimsReadingSlot w k s (match h with KFound r => Some r | _ => None end);
       if readers.2 || negb (bool_decide (readers.1 = [])) then Ret 0%nat
       else _ ← forEach numbers (removePendingRecord w k s); Ret (length numbers)
     else
       head ← highestPendingRecord w k s;
       match head with
       | PFound r =>
           superseded ←
             match r with
             | RPending p =>
                 if heldUntil p + PENDING_SIGNAL_LAPSE_GRACE_MS <? now then
                   stored ← createPendingRecord (RLapse (MkLapse w k s (recordNumber r + 1) now));
                   Ret (match stored with Found _ => Some (recordNumber r + 1) | _ => None end)
                 else Ret (Some (recordNumber r))
             | RLapse _ => Ret (Some (recordNumber r))
             end;
           match superseded with
           | Some floor =>
               _ ← forEach (List.filter (λ n, n <? floor) numbers) (removePendingRecord w k s);
               Ret (length (List.filter (λ n, n <? floor) numbers))
           | None => Ret 0%nat
           end
       | _ => Ret 0%nat
       end) (λ _ _, True)) as Hrest.
  { destruct (negb _).
    - eapply t_bind; [by apply t_claimsReadingSlot|]. intros readers σ2 He2 Hg2 _.
      destruct (_ || _); [by apply t_ret|by apply Hremove].
    - eapply t_bind; [by apply t_highestPendingRecord|]. intros head σ2 He2 Hg2 _.
      destruct head as [|r|]; [by apply t_ret| |by apply t_ret]. eapply (t_bind _ _ _ _ (λ _ _, True)).
      + destruct r as [p|l]; [|by apply t_ret]. destruct (_ <? _); [|by apply t_ret].
        eapply t_bind; [by apply t_createLapse|]. intros st σ3 He3 Hg3 _. by apply t_ret.
      + intros [floor|] σ3 He3 Hg3 _; [by apply Hremove|by apply t_ret]. }
  destruct h; [exact Hrest|exact Hrest|by apply t_ret].
Qed.

Lemma t_sweepPendingSignals now σ : good σ → triple σ (sweepPendingSignals now) (λ _ _, True).
Proof.
  intros Hg. eapply t_bind; [by apply t_list|]. intros addresses σ1 He1 Hg1 _.
  eapply t_bind; [apply t_forEach_; [done|]|intros ? σ2 He2 Hg2 _; by apply t_ret].
  intros x σ' _ _ Hg'. by apply t_sweepSlot.
Qed.

Lemma t_listRegistrations σ :
  good σ → triple σ listRegistrations (λ l σ', ∀ r, r ∈ l → registrationFor σ' r).
Proof.
  intros Hg. eapply t_bind; [by apply t_list|]. intros keys σ1 He1 Hg1 _.
  eapply t_bind.
  - apply (t_forEach me _ _ _ (λ s σ', ∀ r, s = Found r → registrationFor σ' r)); [done| |].
    + intros s σ2 σ3 Hp Hs r ->. eapply registrationFor_mono; [done|]. by apply Hs.
    + intros id σ' _ _ Hg'. by apply t_findRegistration.
  - intros found σ2 He2 Hg2 Hall. apply t_ret; [done|]. intros r Hr. cbn in Hall.
    induction Hall as [|s found Hs Hall IH]; [by apply elem_of_nil in Hr|].
    destruct s as [r'| |]; cbn in Hr; [|by apply IH..].
    apply elem_of_cons in Hr as [->|Hr]; [by apply Hs|by apply IH].
Qed.

Lemma t_listOutcomes σ : good σ → triple σ listOutcomes (λ _ _, True).
Proof.
  intros Hg. eapply t_bind; [by apply t_list|]. intros keys σ1 He1 Hg1 _.
  eapply t_bind; [apply t_forEach_; [done|]|intros ? σ2 He2 Hg2 _; by apply t_ret].
  intros id σ' _ _ Hg'. eapply t_mono; [by apply t_findOutcome|done].
Qed.

Lemma t_settle_ignored o σ :
  good σ → gives o = false → triple σ (_ ← settle o; Ret tt) (λ _ _, True).
Proof.
  intros Hg Ho. eapply t_bind; [by apply t_settle_plain|]. intros s σ' He' Hg' _. by apply t_ret.
Qed.

Lemma t_sweepRegistration findRun now r σ : good σ → triple σ (sweepRegistration findRun now r) (λ _ _, True).
Proof.
  intros Hg. unfold sweepRegistration.
  assert (∀ σ', good σ' → triple σ' (_ ← removeRegistration (g_waitId r); Ret 1%nat) (λ _ _, True)) as Hremove.
  { intros σ' Hg'. eapply t_bind; [by apply t_with_delete|]. intros [] σ2 He2 Hg2 _. by apply t_ret. }
  destruct (findRun _ _) as [| |status completedAt].
  - destruct (orphaned _ _); [by apply Hremove|by apply t_ret].
  - by apply t_ret.
  - destruct (endedAfterRegistering _ _ _); [|by apply t_ret].
    eapply t_bind; [by apply t_findOutcome|]. intros o σ1 He1 Hg1 _. eapply (t_bind _ _ _ _ (λ _ _, True)).
    + destruct (isAbsent o); [by apply t_settle_ignored|by apply t_ret].
    + intros [] σ2 He2 Hg2 _. by apply Hremove.
Qed.

Lemma t_sweepWaitRecords findRun now authoritative σ :
  good σ → triple σ (sweepWaitRecords findRun now authoritative) (λ _ _, True).
Proof.
  intros Hg. eapply t_bind; [by apply t_sweepPendingSignals|]. intros n σ1 He1 Hg1 _.
  destruct authoritative; cbn [negb]; [|by apply t_ret].
  eapply t_bind; [by apply t_listRegistrations|]. intros l σ2 He2 Hg2 _.
  eapply t_bind; [apply t_forEach_; [done|]; intros; by apply t_sweepRegistration|].
  intros regs σ3 He3 Hg3 _. eapply t_bind; [by apply t_releaseKeyClaims|]. intros keys σ4 He4 Hg4 _.
  eapply t_bind; [by apply t_listOutcomes|]. intros os σ5 He5 Hg5 _.
  eapply t_bind; [apply t_forEach_; [done|]|intros ? σ6 He6 Hg6 _; by apply t_ret].
  intros o σ' _ _ Hg'. unfold sweepOutcome. destruct (negb _); [by apply t_ret|].
  destruct (negb _); [by apply t_ret|]. eapply t_bind; [by apply t_with_delete|].
  intros [] σ6 He6 Hg6 _. by apply t_ret.
Qed.

Lemma t_removeWaitRecordsOfRuns runIds now σ :
  good σ → triple σ (removeWaitRecordsOfRuns runIds now) (λ _ _, True).
Proof.
  intros Hg. unfold removeWaitRecordsOfRuns. case_bool_decide; [by apply t_ret|].
  eapply t_bind; [by apply t_releaseKeyClaims|]. intros n σ1 He1 Hg1 _.
  eapply t_bind; [by apply t_listRegistrations|]. intros l σ2 He2 Hg2 _.
  eapply t_bind; [by apply t_listOutcomes|]. intros os σ3 He3 Hg3 _. cbv zeta.
  eapply (t_bind _ _ _ _ (λ _ _, True)); [|intros ? σ4 He4 Hg4 _; by apply t_ret].
  eapply t_bind; [apply t_forEach_; [done|]|intros ? σ4 He4 Hg4 _; by apply t_ret].
  intros id σ' _ _ Hg'. eapply t_bind; [by apply t_with_delete|]. intros [] σ4 He4 Hg4 _. by apply t_with_delete.
Qed.

Lemma t_closeStepWait ref settled now σ : good σ → triple σ (closeStepWait ref settled now) (λ _ _, True).
Proof.
  intros Hg. eapply t_bind; [by apply t_findRegistration|]. intros r σ1 He1 Hg1 _.
  destruct (isAbsent r); [by apply t_ret|]. eapply (t_bind _ _ _ _ (λ _ _, True)).
  - destruct settled; [by apply t_ret|by apply t_settle_ignored].
  - intros [] σ2 He2 Hg2 _. by apply t_with_delete.
Qed.

(** ** Settling and delivering *)

Lemma registration_ref σ r e :
  registrationFor σ r → earlyWaitRef (refOfRegistration r) = Some e → refFor σ e.
Proof.
  intros Hr He. unfold earlyWaitRef in He. cbn in He.
  destruct (g_key r) as [k|] eqn:Hk; [|done]. destruct (g_early r) as [early|] eqn:Hearly; [|done].
  injection He as <-. destruct (Hr k early Hk Hearly) as (c & ? & ? & ? & ? & ? & ? & ?). exists c. by split_and!.
Qed.

Lemma t_outcomeAt ref now σ :
  good σ → (∀ e, earlyWaitRef ref = Some e → refFor σ e) →
  triple σ (outcomeAt ref now) (λ _ _, True).
Proof.
  intros Hg He. eapply t_bind; [by apply t_findOutcome|]. intros s σ1 He1 Hg1 _. cbv zeta.
  destruct (isAbsent _); cbn [negb]; [|by apply t_ret]. eapply (t_bind _ _ _ _ (λ _ _, True)).
  - destruct (earlyWaitRef ref) as [e|]; [|by apply t_ret].
    eapply t_bind; [apply t_takePendingSignal; [done|]|intros ? σ2 He2 Hg2 _; by apply t_ret].
    eapply refFor_mono; [by eapply ext_prefix|by apply He].
  - intros taken σ2 He2 Hg2 _. destruct (isAbsent taken); cbn [negb]; [|by apply t_ret].
    eapply t_mono; [by apply t_settleTimedOut|done].
Qed.

Lemma t_deliver r payload sender key pending uuid now σ :
  good σ → registrationFor σ r → triple σ (deliver r payload sender key pending uuid now) (λ _ _, True).
Proof.
  intros Hg Hr. eapply t_bind.
  { apply t_outcomeAt; [done|]. intros e. by apply registration_ref. }
  intros s σ1 He1 Hg1 _. destruct s as [o| |]; [by apply t_ret| |by apply t_ret].
  eapply t_bind; [by apply t_ofResult|]. intros d σ2 He2 Hg2 Hd.
  destruct d as [receipt plain|deadline|errors]; [|by apply t_ret..].
  eapply t_bind; [apply t_settle_plain; [done|]|intros ? σ3 He3 Hg3 _; by apply t_ret].
  unfold decideSignal, waitOf in Hd. destruct (isWaitExpired _ _); [done|].
  destruct (waitOk _ _); cbn [mbind result_bind] in Hd; [|done].
  destruct (validatePayload _ _ _); [|done]. by injection Hd as <- _.
Qed.

(** ** Opening a wait *)

(** the claim of the wait a step holds *)
Definition waitFor (at_ : StepPlace) (wait : Data) (σ : log) : Prop :=
  ∀ k e, SignalWait.key wait = Some k → early wait = Some e → ∃ c, claimed σ c ∧
    waitKeyRecordOk (RClaim c) = true ∧ c_waitId c = id_ wait ∧ c_workflowId c = s_workflowId at_ ∧
    c_key c = k ∧ c_early c = Some e ∧ c_runId c = s_runId at_.

Lemma waitFor_mono at_ wait σ σ' : σ `prefix_of` σ' → waitFor at_ wait σ → waitFor at_ wait σ'.
Proof.
  intros Hp Hw k e Hk He. destruct (Hw k e Hk He) as (c & ? & ?). exists c. split; [by eapply claimed_mono|done].
Qed.

Lemma waitRefOf_early at_ wait e :
  earlyWaitRef (waitRefOf at_ wait) = Some e ↔
  ∃ k early_, SignalWait.key wait = Some k ∧ early wait = Some early_ ∧
    e = MkEarlyRef (waitRefOf at_ wait) k early_ (schema wait).
Proof.
  unfold earlyWaitRef, waitRefOf. destruct (SignalWait.key wait) as [k|], (early wait) as [early_|]; cbn.
  - split; [intros [= <-]; eauto|]. by intros (? & ? & [= <-] & [= <-] & ->).
  - split; [done|]. by intros (? & ? & _ & ? & _).
  - split; [done|]. by intros (? & ? & ? & _).
  - split; [done|]. by intros (? & ? & ? & _).
Qed.

Lemma waitFor_ref at_ wait σ e :
  waitFor at_ wait σ → earlyWaitRef (waitRefOf at_ wait) = Some e → refFor σ e.
Proof.
  intros Hw (k & early_ & Hk & He & ->)%waitRefOf_early. destruct (Hw k early_ Hk He) as (c & Hc).
  exists c. unfold waitRefOf. rewrite Hk, He. cbn. tauto.
Qed.

(** a step that waits found no signal it can take, after its claim *)
Definition openedFor (at_ : StepPlace) (o : WaitOpening) (σ : log) : Prop :=
  ∀ wait e, o = WOpened wait Absent None → earlyWaitRef (waitRefOf at_ wait) = Some e →
    ∃ σc, refFor σc e ∧ ∀ slot, slot ∈ earlySlots (e_early e) →
      ∃ σs, σc `prefix_of` σs ∧ σs `prefix_of` σ ∧ good σs ∧ passed e slot σs.

Lemma t_takeEarly at_ wait σ :
  good σ → waitFor at_ wait σ → triple σ (takeEarly at_ wait) (openedFor at_).
Proof.
  intros Hg Hw. unfold takeEarly. destruct (earlyWaitRef (waitRefOf at_ wait)) as [e|] eqn:He.
  - pose proof (waitFor_ref at_ wait σ e Hw He) as Hr.
    eapply t_bind; [by apply t_attempt, t_takePendingSignal|]. intros [s|m] σ' He' Hg' Hs; apply t_ret; try done.
    intros wait' e' E Hwe. injection E as -> ->. rewrite He in Hwe. injection Hwe as <-.
    exists σ. split; [done|]. intros slot Hslot. destruct Hs as [Hs _].
    destruct (Hs eq_refl slot Hslot) as (σs & ? & ? & ? & ?). exists σs.
    split_and!; [by eapply ext_prefix..|done|done].
  - apply t_ret; [done|]. intros wait' e' E. injection E as ->. by rewrite He.
Qed.

Lemma t_adoptableWait started at_ now σ :
  good σ → triple σ (adoptableWait started at_ now) (λ r σ', ∀ g, r = Some g →
    registrationFor σ' g ∧ isOfStep at_ g = true).
Proof.
  intros Hg. unfold adoptableWait. destruct started; [by apply t_ret|]. unfold findRegistrationOfStep.
  eapply (t_bind _ _ _ _ (λ r σ', ∀ g, r = Some g → registrationFor σ' g ∧ isOfStep at_ g = true)).
  { eapply t_bind; [by apply t_listRegistrations|]. intros l σ1 He1 Hg1 Hl. apply t_ret; [done|].
    intros g Hf. apply List.find_some in Hf as [Hin Ho]. split; [|done]. apply Hl. by apply list_elem_of_In. }
  intros r σ1 He1 Hg1 Hr. destruct r as [g|]; [|by apply t_ret]. destruct (Hr g eq_refl) as [Hreg Ho].
  eapply t_bind; [by apply t_findOutcome|]. intros o σ2 He2 Hg2 _. cbv zeta.
  destruct (_ || _).
  { apply t_ret; [done|]. intros g' [= <-]. split; [|done].
    eapply registrationFor_mono; [by eapply ext_prefix|done]. }
  eapply (t_bind _ _ _ _ (λ _ _, True)).
  { destruct (isAbsent o); [by apply t_settle_ignored|by apply t_ret]. }
  intros [] σ3 He3 Hg3 _. eapply t_bind; [by apply t_with_delete|]. intros [] σ4 He4 Hg4 _. by apply t_ret.
Qed.

Lemma t_closeUnopenedWait at_ wait now σ : good σ → triple σ (closeUnopenedWait at_ wait now) (λ _ _, True).
Proof.
  intros Hg. unfold closeUnopenedWait. destruct (SignalWait.key wait); [|by apply t_ret].
  eapply t_bind; [by apply t_attempt, t_settle_plain|]. intros r σ' He' Hg' _. by apply t_ret.
Qed.

Lemma s_acquire at_ task wait k t1 t2 σ :
  id_ wait = me → early wait = None → SignalWait.key wait = Some k → good σ → ownClaims (s_runId at_) σ →
  safe me (λ r σ', good σ' ∧ ∀ wait', r = inl wait' → waitFor at_ wait' σ') good σ
    (acquire at_ task wait k t1 t2).
Proof.
  intros Hid Hearly Hk Hg Ho. unfold acquire. eapply safe_bind.
  - eapply (safe_attempt _ _ _ good). apply s_claimLoop; [exact Hid|done|exact Ho].
  - intros [a|m] σ1 Ha; cbn in Ha.
    + destruct Ha as (_ & Hg1 & Ha & _). destruct a as [c|c|c|g|]; [| |by split..].
      * destruct Ha as [(Hc & Hok & Hw & Hck & Hrun) Hcid]. cbn in Hw, Hck, Hrun.
        destruct (c_early c) as [e|] eqn:He.
        -- unfold withEarly. rewrite Hk. cbn [ofResult]. split; [done|]. intros wait' [= <-] k' e' Hk' He'.
           cbn in Hk', He'. injection Hk' as <-. injection He' as <-. exists c.
           split_and!; try done. cbn. congruence.
        -- split; [done|]. intros wait' [= <-] k' e' _ He'. congruence.
      * destruct Ha as (Hc & Hok & Hw & Hck & Hrun). cbn in Hw, Hck, Hrun. unfold fromData.
        destruct (waitOk _ _); [|done]. split; [done|]. intros wait' [= <-] k' e' Hk' He'.
        cbn in Hk', He'. injection Hk' as <-. exists c. by split_and!.
    + eapply t_use; [by apply t_closeUnopenedWait|]. by intros [] σ2 He2 Hg2 _.
  - done.
Qed.

Lemma s_openWait started maxTimeout at_ task t0 t1 t2 σ :
  good σ → ownClaims (s_runId at_) σ →
  safe me (λ o σ', good σ' ∧ openedFor at_ o σ') good σ (openWait started maxTimeout at_ task me t0 t1 t2).
Proof.
  intros Hg Ho. unfold openWait. eapply t_use; [by apply t_adoptableWait|]. intros earlier σ1 He1 Hg1 Hr.
  assert (∀ wait σ', good σ' → waitFor at_ wait σ' →
    safe me (λ o σ', good σ' ∧ openedFor at_ o σ') good σ' (takeEarly at_ wait)) as Htake.
  { intros wait σ' Hg' Hw. eapply safe_mono; [by apply t_takeEarly|by intros o σ2 (_ & ? & ?)|by intros σ2 [_ ?]]. }
  destruct earlier as [g|].
  - destruct (Hr g eq_refl) as [Hreg Hstep]. unfold isOfStep in Hstep. split_bools.
    unfold fromData. destruct (waitOk _ _); [|done]. apply Htake; [done|]. intros k e Hk He. cbn in Hk, He.
    destruct (Hreg k e Hk He) as (c & ? & ? & ? & ? & ? & ? & ?). exists c. cbn.
    split_and!; try done; congruence.
  - destruct (match maxTimeout with Some _ => _ | None => _ end); [by split|].
    destruct (SignalWait.open _ _ _ _ _ _) as [wait|m] eqn:Hopen; [|done].
    assert (id_ wait = me ∧ early wait = None ∧ SignalWait.key wait = t_key task) as (Hid & Hearly & Hkey).
    { unfold SignalWait.open in Hopen. apply result_bind_ok in Hopen as ([] & _ & Hopen).
      cbv zeta in Hopen. apply result_bind_ok in Hopen as ([] & _ & Hopen). by injection Hopen as <-. }
    change (ofResult (Ok wait) ≫= ?f) with (f wait).
    assert (ownClaims (s_runId at_) σ1) by (by eapply ownClaims_ext). eapply safe_bind.
    + instantiate (1 := good). instantiate (1 := λ r σ', good σ' ∧ ∀ wait', r = inl wait' → waitFor at_ wait' σ').
      destruct (t_key task) as [k|]; [by apply s_acquire|]. split; [done|].
      intros wait' [= <-] k e Hk. congruence.
    + intros [wait'|refusal] σ2 [Hg2 Hw]; [|by split]. specialize (Hw wait' eq_refl).
      eapply t_use.
      { apply t_attempt. unfold register. destruct (_ <? _); [by apply t_die|].
        apply t_withWaitId; [done|]. intros id _. by apply t_register. }
      intros [[]|m] σ3 He3 Hg3 _.
      * apply Htake; [done|]. eapply waitFor_mono; [by eapply ext_prefix|done].
      * eapply t_use; [by apply t_closeUnopenedWait|]. by intros [] σ4 He4 Hg4 _.
    + done.
Qed.

End programs.
End runs.
End SignalKeysRuns.
