(* ===== verification/SignalProtocol.v ===== *)
(** * The protocol of wait keys and early signals

    A pool of processes on one store of signal waits: steps that open waits, signallers,
    commands that settle or close waits, removals of runs and sweeps. *)

From S2P Require Import Prelude JsString PartitionKey SignalWait SignalStore SignalKeys SignalKeysProps SignalKeysRuns.
Local Open Scope Z_scope.

Module SignalProtocol.
Import SignalWait SignalStore SignalKeys SignalKeysProps SignalKeysRuns.

Notation log := (list (Address * Value)).

Section protocol.
Context `{Env}.

(** what a process does; the identifier it makes is its token *)
Inductive Process :=
| Step (started : bool) (maxTimeout : option Z) (at_ : StepPlace) (task : WaitTask)
    (openedAt claimedAt closedAt : Z)
| Signal (signal : EarlySignal) (now : Z)
| Deliver (waitId : string) (payload : JsValue) (sender : string) (idempotencyKey pendingReceiptId : option string)
    (now : Z)
| Settle (waitId : string) (now : Z)
| Close (ref : WaitRef) (settled : bool) (now : Z)
| RemoveRuns (runIds : list string) (now : Z)
| Sweep (findRun : string → string → RunLookup) (now : Z) (authoritative : bool).

Inductive Answer :=
| Opened (at_ : StepPlace) (o : WaitOpening)
| Arrived (signal : EarlySignal) (a : EarlyArrival)
| Done.

Definition program (me : string) (p : Process) : prog Answer :=
  match p with
  | Step started maxTimeout at_ task t0 t1 t2 =>
      o ← openWait started maxTimeout at_ task me t0 t1 t2; Ret (Opened at_ o)
  | Signal signal now => a ← holdEarlySignal signal me now; Ret (Arrived signal a)
  | Deliver waitId payload sender key pending now =>
      r ← findRegistration waitId;
      match r with Found r => _ ← deliver r payload sender key pending me now; Ret Done | _ => Ret Done end
  | Settle waitId now =>
      r ← findRegistration waitId;
      match r with Found r => _ ← outcomeAt (refOfRegistration r) now; Ret Done | _ => Ret Done end
  | Close ref settled now => _ ← closeStepWait ref settled now; Ret Done
  | RemoveRuns runIds now => _ ← removeWaitRecordsOfRuns runIds now; Ret Done
  | Sweep findRun now authoritative => _ ← sweepWaitRecords findRun now authoritative; Ret Done
  end.

Definition programs (pool : list (string * Process)) : list (prog Answer) :=
  (λ e, program e.1 e.2) <$> pool.

(** registrations of a store name their claims *)
Definition registrationsOk (σ : log) : Prop :=
  ∀ id v, (ARegistration id, v) ∈ σ → valueFor (core σ) v.

(** a store the protocol left, and processes whose tokens are new *)
Definition started (σ : log) (pool : list (string * Process)) : Prop :=
  good (core σ) ∧ registrationsOk σ ∧ NoDup pool.*1 ∧ ∀ me e, me ∈ pool.*1 → e ∈ core σ → foreign me e.

(** the calls of the pool, with no object but registrations removed *)
Definition reaches (σ : log) (pool : list (string * Process)) (σ' : log) (ps : list (prog Answer)) : Prop :=
  rtc (step isRegistration) (σ, programs pool) (σ', ps).

(** ** Every process keeps to the protocol *)

Definition answerFor (a : Answer) (σ : log) : Prop :=
  match a with
  | Opened at_ o => openedFor at_ o σ
  | Arrived signal a => arrivalFor (y_workflowId signal) (y_key signal) a σ
  | Done => True
  end.

Lemma t_done {A} me (p : prog A) σ :
  triple me σ p (λ _ _, True) → safe me (λ a σ', good σ' ∧ answerFor a σ') good σ (_ ← p; Ret Done).
Proof. intros Hp. eapply t_use; [exact Hp|]. by intros a σ' He Hg _. Qed.

Lemma program_safe me p σ :
  good σ → (∀ e, e ∈ σ → foreign me e) →
  safe me (λ a σ', good σ' ∧ answerFor a σ') good σ (program me p).
Proof.
  intros Hg Hfresh. destruct p; cbn [program].
  - eapply safe_bind; [apply s_openWait; [exact Hg|]| |auto].
    + intros c Hc Hid. apply find_in in Hc. by specialize (Hfresh _ Hc Hid).
    + intros o σ' [? ?]. by split.
  - assert (ownPendings me (y_workflowId signal) (y_key signal) σ) as Hown.
    { intros q Hq Hid. apply find_in in Hq. by specialize (Hfresh _ Hq Hid). }
    unfold holdEarlySignal. generalize WAIT_KEY_CLAIM_ATTEMPTS as n. intros n.
    pose proof (s_holdLoop me (y_workflowId signal) (y_key signal) n signal now None σ eq_refl eq_refl Hg Hown) as Hs.
    eapply safe_bind; [exact Hs| |auto]. intros a σ' [? ?]. by split.
  - eapply t_use; [by apply t_findRegistration|]. intros r σ1 He1 Hg1 Hr.
    destruct r as [r| |]; [|by split..]. by apply t_done, t_deliver; [|apply Hr].
  - eapply t_use; [by apply t_findRegistration|]. intros r σ1 He1 Hg1 Hr.
    destruct r as [r| |]; [|by split..]. apply t_done, t_outcomeAt; [done|]. intros e. by apply registration_ref, Hr.
  - by apply t_done, t_closeStepWait.
  - by apply t_done, t_removeWaitRecordsOfRuns.
  - by apply t_done, t_sweepWaitRecords.
Qed.

(** ** Pools *)

Lemma core_put_registration σ id v : core (put σ (ARegistration id) v) = core σ.
Proof. unfold put. destruct (find σ _); [done|]. by rewrite core_app, app_nil_r. Qed.

Lemma core_put σ a v :
  isRegistration a = false →
  core (put σ a v) = match find (core σ) a with Some _ => core σ | None => core σ ++ [(a, v)] end.
Proof.
  intros Ha. unfold put. rewrite find_core by done. destruct (find σ a); [done|].
  rewrite core_app. unfold core at 2. cbn. by rewrite Ha.
Qed.

Lemma core_remove σ a : core (remove isRegistration σ a) = core σ.
Proof.
  unfold remove. destruct (isRegistration a) eqn:Ha; [|done]. unfold core.
  induction σ as [|[a' v] σ IH]; cbn; [done|]. case_bool_decide as E; cbn.
  - subst a'. by rewrite Ha.
  - by rewrite IH.
Qed.

Lemma remove_subset removes σ a e : e ∈ remove removes σ a → e ∈ σ.
Proof. unfold remove. destruct (removes a); [|done]. by intros [? _]%elem_of_bfilter. Qed.

(** a call leaves the log as it was, or adds what the protocol allows *)
Lemma call_safe {A} me (Q : A → log → Prop) σi σ p σ' p' :
  ext me σi (core σ) → good (core σ) → registrationsOk σ → safe me Q good σi p →
  procStep isRegistration σ p σ' p' →
  registrationsOk σ' ∧ safe me Q good (core σ') p' ∧
  (core σ' = core σ ∨ ∃ a v, core σ' = core σ ++ [(a, v)] ∧ find (core σ) a = None ∧
    admissible (core σ) a v ∧ mine me v).
Proof.
  intros He Hg Hr Hs Hstep.
  assert (∀ a v, (isRegistration a = true → valueFor (core σ) v) → registrationsOk (put σ a v)) as Hput.
  { intros a v Hv id v'. unfold put. destruct (find σ a) eqn:E; [apply Hr|]. intros Hin.
    assert (valueFor (core σ) v') as Hv'.
    { apply elem_of_app in Hin as [Hin|Hin]; [by eapply Hr|]. apply list_elem_of_singleton in Hin.
      injection Hin as <- <-. by apply Hv. }
    destruct v'; try done. eapply registrationFor_mono; [|exact Hv']. rewrite core_app. by eexists. }
  assert (∀ a, registrationsOk (remove isRegistration σ a)) as Hrem.
  { intros a id v Hin%remove_subset. rewrite core_remove. by eapply Hr. }
  destruct Hstep; cbn [safe] in Hs; specialize (Hs (core σ) He Hg).
  - destruct Hs as [_ Hs]. split_and!; [done| |by left]. apply Hs. intros Hp. by rewrite listing_core.
  - destruct Hs as [Hs _]. split_and!; [done..|by left].
  - destruct Hs as [_ Hs]. split_and!; [done| |by left]. apply Hs. unfold readFrom.
    destruct (isRegistration a) eqn:Ha; [|by rewrite find_core].
    destruct (find σ a) as [v|] eqn:E; [|done]. destruct a; try done. by eapply Hr, find_in.
  - destruct Hs as [Hs _]. split_and!; [done..|by left].
  - destruct Hs as [_ Hs]. destruct (isRegistration a) eqn:Ha.
    + destruct Hs as [Hv Hs]. destruct a; try done. rewrite core_put_registration.
      split_and!; [by apply Hput|done|by left].
    + rewrite core_put by done. destruct (find (core σ) a) eqn:E.
      * split_and!; [by apply Hput; rewrite Ha|done|by left].
      * destruct Hs as (Hadm & Hmine & Hs). split_and!; [by apply Hput; rewrite Ha|done|]. right. eauto 10.
  - destruct Hs as [Hs _]. split_and!; [done..|by left].
  - destruct Hs as [Hs0 Hs]. destruct (isRegistration a) eqn:Ha.
    + destruct Hs as [Hv Hs]. destruct a; try done. rewrite core_put_registration.
      split_and!; [by apply Hput|done|by left].
    + rewrite core_put by done. destruct (find (core σ) a) eqn:E.
      * split_and!; [by apply Hput; rewrite Ha|done|by left].
      * destruct Hs as (Hadm & Hmine & Hs). split_and!; [by apply Hput; rewrite Ha|done|]. right. eauto 10.
  - rewrite core_remove. split_and!; [done|by apply Hs|by left].
  - split_and!; [done|by apply Hs|by left].
  - rewrite core_remove. split_and!; [done|by apply Hs|by left].
Qed.

Definition poolInv (tokens : list string) (s : log * list (prog Answer)) : Prop :=
  good (core s.1) ∧ registrationsOk s.1 ∧ length s.2 = length tokens ∧
  ∀ i me p, tokens !! i = Some me → s.2 !! i = Some p → ∃ σi, ext me σi (core s.1) ∧
    safe me (λ a σ', good σ' ∧ answerFor a σ') good σi p.

Lemma mine_foreign me me' a v : mine me v → me ≠ me' → foreign me' (a, v).
Proof. intros Hm Hne. destruct v as [[]|[]| | |]; cbn in *; congruence. Qed.

Lemma poolInv_step tokens s s' :
  NoDup tokens → poolInv tokens s → step isRegistration s s' → poolInv tokens s'.
Proof.
  intros Hnd (Hg & Hr & Hl & Hsafe) Hstep. destruct Hstep as [σ ps i p σ' p' Hi Hcall]. cbn [fst snd] in *.
  assert (is_Some (tokens !! i)) as [me Hme].
  { apply lookup_lt_is_Some. rewrite <-Hl. by eapply lookup_lt_Some. }
  destruct (Hsafe i me p Hme Hi) as (σi & He & Hs).
  destruct (call_safe me _ σi σ p σ' p' He Hg Hr Hs Hcall) as (Hr' & Hs' & Hcore).
  assert (good (core σ')) as Hg'.
  { destruct Hcore as [->|(a & v & -> & ? & ? & _)]; [done|by constructor]. }
  split_and!; [done|done|cbn [snd]; by rewrite length_insert|]. intros j me' q Hme' Hq. cbn [fst snd] in *.
  apply list_lookup_insert_Some in Hq as [(<- & <- & _)|[Hij Hq]].
  - rewrite Hme in Hme'. injection Hme' as <-. by exists (core σ').
  - destruct (Hsafe j me' q Hme' Hq) as (σj & Hej & Hsj). exists σj. split; [|done].
    destruct Hcore as [->|(a & v & -> & _ & _ & Hmine)]; [done|]. etrans; [exact Hej|].
    exists [(a, v)]. split; [done|]. apply Forall_singleton. eapply mine_foreign; [done|]. intros ->.
    apply Hij. by eapply NoDup_lookup.
Qed.

Lemma poolInv_reaches σ pool σ' ps : started σ pool → reaches σ pool σ' ps → poolInv pool.*1 (σ', ps).
Proof.
  intros (Hg & Hr & Hnd & Hfresh) Hsteps. unfold reaches in Hsteps.
  remember (σ, programs pool) as s0 eqn:E0. remember (σ', ps) as s1 eqn:E1.
  assert (poolInv pool.*1 s0) as Hinv.
  { subst s0. split_and!; [done..|by cbn [snd]; unfold programs; rewrite !length_fmap|].
    intros i me p Hme Hp. exists (core σ). split; [done|]. cbn in Hp. unfold programs in Hp.
    rewrite list_lookup_fmap in Hme. apply fmap_Some in Hme as ([me' q] & Hq & ->).
    rewrite list_lookup_fmap, Hq in Hp.
    injection Hp as <-. apply program_safe; [done|]. intros e He. apply Hfresh; [|done].
    apply list_elem_of_fmap. exists (me', q). split; [done|]. by eapply list_elem_of_lookup_2. }
  clear E0 E1. induction Hsteps as [|s0 s2 s1 Hstep _ IH]; [done|]. apply IH. by eapply poolInv_step.
Qed.

(** ** What holds of every store a pool leaves *)

Lemma settled_core σ c : settled (core σ) c ↔ settled σ c.
Proof. unfold settled. by setoid_rewrite find_core. Qed.

Lemma released_core σ c : released (core σ) c ↔ released σ c.
Proof. unfold released. by setoid_rewrite find_core. Qed.

Lemma claimed_core σ c : claimed (core σ) c ↔ claimed σ c.
Proof. unfold claimed. by rewrite find_core. Qed.

Lemma openClaim_core σ c : openClaim (core σ) c ↔ openClaim σ c.
Proof. unfold openClaim. by rewrite claimed_core, settled_core, released_core. Qed.

Lemma answer_of σ pool σ' ps i a :
  started σ pool → reaches σ pool σ' ps → ps !! i = Some (Ret a) →
  ∃ σi, σi `prefix_of` core σ' ∧ good σi ∧ answerFor a σi.
Proof.
  intros Hst Hre Hi. destruct (poolInv_reaches _ _ _ _ Hst Hre) as (_ & _ & Hl & Hsafe). cbn [fst snd] in *.
  assert (is_Some (pool.*1 !! i)) as [me Hme].
  { apply lookup_lt_is_Some. rewrite <-Hl. by eapply lookup_lt_Some. }
  destruct (Hsafe i me _ Hme Hi) as (σi & He & Hg & Ha). exists σi. split_and!; try done. by eapply ext_prefix.
Qed.




(** ** Schedules *)

(** the next call of a process, when it succeeds *)
Definition next {A} (removes : Address → bool) (σ : log) (p : prog A) : log * prog A :=
  match p with
  | Ret _ | Die _ => (σ, p)
  | DoList pf k => (σ, k (Some (listing pf σ)))
  | DoGet a k => (σ, k (Some (find σ a)))
  | DoPutIfAbsent a v k => (put σ a v, k (Some tt))
  | DoDelete a k => (remove removes σ a, k (Some tt))
  end.

(** the processes call in the given order *)
Fixpoint schedule {A} (removes : Address → bool) (order : list nat) (s : log * list (prog A))
    : log * list (prog A) :=
  match order with
  | [] => s
  | i :: order =>
      schedule removes order
        (match s.2 !! i with
         | Some p => let '(σ, p) := next removes s.1 p in (σ, <[i := p]> s.2)
         | None => s
         end)
  end.

Lemma schedule_steps {A} removes order (s : log * list (prog A)) : rtc (step removes) s (schedule removes order s).
Proof.
  revert s. induction order as [|i order IH]; intros [σ ps]; [done|]. cbn [schedule fst snd].
  destruct (ps !! i) as [p|] eqn:Hi; [|apply IH]. destruct (next removes σ p) as [σ' p'] eqn:Hn.
  assert (procStep removes σ p σ' p' ∨ (σ', p') = (σ, p)) as [Hs|[= -> ->]].
  { destruct p; cbn in Hn; injection Hn as <- <-; [by right..| | | |]; left; constructor. }
  - eapply rtc_l; [by econstructor|]. apply IH.
  - rewrite list_insert_id by done. apply IH.
Qed.

Lemma started_nil pool : NoDup pool.*1 → started [] pool.
Proof.
  intros Hnd. split_and!; [constructor| |done|].
  - intros id v Hin. by apply elem_of_nil in Hin.
  - intros me e _ Hin. by apply elem_of_nil in Hin.
Qed.

End protocol.

(** ** Examples *)

#[local] Instance sampleEnv : Env := MkEnv PartitionKey.UUID true (λ _, 0).

Definition uuidA : string := "aaaaaaaa-aaaa-aaaa-aaaa-aaaaaaaaaaaa".
Definition uuidB : string := "bbbbbbbb-bbbb-bbbb-bbbb-bbbbbbbbbbbb".
Definition uuidC : string := "cccccccc-cccc-cccc-cccc-cccccccccccc".
Definition runA : string := "11111111-1111-1111-1111-111111111111".
Definition runB : string := "22222222-2222-2222-2222-222222222222".
Definition runC : string := "33333333-3333-3333-3333-333333333333".

Definition place (run : string) : StepPlace := MkPlace "wf" "deploy" run "job" "approve".

(** a wait of an hour under a key that takes signals a minute early *)
Definition keyed : WaitTask := MkTask [("type", VStr "object")] 3600 (Some "go") (Some 60).

Definition opener (run : string) (now : Z) : Process := Step true None (place run) keyed now now now.

Definition early (now : Z) : Process :=
  Signal (MkSignal "wf" "go" [] "ann" 60 None None) now.

(** a signal, then a step that opens its wait a second later *)
Definition soon : list (string * Process) := [(uuidA, early 0); (uuidB, opener runB 1000)].

(** the same, with the step too late for the signal *)
Definition late : list (string * Process) := [(uuidA, early 0); (uuidB, opener runB 1000000)].

(** the first process to its end, then the second *)
Definition inTurn : list nat := replicate 20 0%nat ++ replicate 20 1%nat.

Definition after (pool : list (string * Process)) : log * list (prog Answer) :=
  schedule isRegistration inTurn ([], programs pool).

Lemma reaches_after pool : reaches [] pool (after pool).1 (after pool).2.
Proof.
  unfold reaches, after. pose proof (schedule_steps isRegistration inTurn ([], programs pool)) as Hs.
  revert Hs. generalize (schedule isRegistration inTurn ([], programs pool)). intros [σ ps] Hs. exact Hs.
Qed.

Lemma late_started : started [] late.
Proof. apply started_nil, (bool_decide_unpack (NoDup late.*1)). vm_compute. exact I. Qed.

Lemma soon_started : started [] soon.
Proof. apply started_nil, (bool_decide_unpack (NoDup soon.*1)). vm_compute. exact I. Qed.

Definition lateClaim : WaitKeyClaim :=
  MkClaim "wf" "go" 1 1000000 uuidB runB "job" "approve" 4600000 (Some (MkEarly 1 false 940000)).


(** every key record of a log can be read *)
Definition readableKeys (σ : log) : bool :=
  forallb (λ e, match e.1 with
    | AKey w k g => negb (isUnreadable (decodeWaitKeyRecord (Some e.2) w k g))
    | _ => true
    end) σ.

Lemma readableKeys_spec σ w k g v :
  readableKeys σ = true → find σ (AKey w k g) = Some v → decodeWaitKeyRecord (Some v) w k g ≠ Unreadable.
Proof.
  unfold readableKeys. rewrite forallb_forall. intros Hall Hf E. apply find_in, list_elem_of_In, Hall in Hf.
  cbn [fst snd] in Hf. by rewrite E in Hf.
Qed.

Definition earlySample : EarlySignal := MkSignal "wf" "go" [] "ann" 60 None None.

Definition pendingSample : PendingSignal := pendingOf earlySample uuidA 1 1 0.

Definition lateWait : Data :=
  MkData uuidB [("type", VStr "object")] 4600000 None (Some "go") (Some (MkEarly 1 false 940000)).


Definition soonOutcome : WaitOutcome :=
  MkOutcome (Accepted (MkReceipt uuidA uuidB 0 "ann" None true) []) uuidB "wf" runB 3601000 0.


(** ** Removed generations

    The removal of a run takes the claims of the run out of the store when a
    later record supersedes them. A claimant that read the key before those
    claims were made, and creates its own after they are gone, is given a
    generation that was used: its wait is open beside the one that holds the
    key. *)

Definition closing : Process :=
  Close (MkRef uuidB "wf" None runB 3601000 None None None) false 2000.

Definition removal : list (string * Process) :=
  [(uuidA, opener runA 1000); (uuidB, opener runB 1000); ("close", closing); (uuidC, opener runC 3000);
   ("remove", RemoveRuns [runB] 4000)].

(** the first step has read the key; the second opens its wait, which is
    closed; the third opens its own; the second's run is removed; the first goes on *)
Definition stale : list nat :=
  [0%nat] ++ replicate 20 1%nat ++ replicate 5 2%nat ++ replicate 20 3%nat ++ replicate 40 4%nat ++
  replicate 20 0%nat.

Definition afterRemoval : log * list (prog Answer) :=
  schedule (λ _, true) stale ([], programs removal).

Definition reusedClaim : WaitKeyClaim :=
  MkClaim "wf" "go" 1 1000 uuidA runA "job" "approve" 3601000 (Some (MkEarly 1 false (-59000))).

Definition standingClaim : WaitKeyClaim :=
  MkClaim "wf" "go" 2 3000 uuidC runC "job" "approve" 3603000 (Some (MkEarly 2 false (-57000))).

Lemma open_by_search σ c :
  find σ (AKey (c_workflowId c) (c_key c) (c_generation c)) = Some (VKey (RClaim c)) →
  match normalizeWaitId (c_waitId c) with Some id => find σ (AOutcome id) | None => None end = None →
  match find σ (AKey (c_workflowId c) (c_key c) (c_generation c + 1)) with
  | Some (VKey (RRelease _)) => False
  | _ => True
  end → openClaim σ c.
Proof.
  intros Hc Ho Hr. split_and!; [done| |].
  - intros (id & Hid & [v Hv]). rewrite Hid in Ho. congruence.
  - intros (l & Hl). by rewrite Hl in Hr.
Qed.

Lemma removed_generation_is_reused :
  rtc (step (λ _, true)) ([], programs removal) afterRemoval ∧
  openClaim afterRemoval.1 reusedClaim ∧ openClaim afterRemoval.1 standingClaim ∧ reusedClaim ≠ standingClaim.
Proof.
  split; [apply schedule_steps|].
  split_and!; [apply open_by_search; vm_compute; trivial..|discriminate].
Qed.

End SignalProtocol.
