(* ===== verification/Continuation.v ===== *)
(** * Continuation claims: one resume per suspension

    [src/src/domain/workflows/continuation_claim.ts] and its store,
    [src/src/infrastructure/persistence/control_plane_continuation_claim_store.ts].
    A resume claims the suspension it consumes: claims are numbered, each is
    created once in a store every host reads, and a claim is replaced by the
    next one when its holder is known dead.

    As in [SignalStore], an operation is a program of calls to the store, a
    call may throw and then may have taken effect, and an object is the claim
    its bytes hold or garbage. Keys are the strings of the source. Whether a
    holder lives is asked by a call too; [heartbeatLiveness] is the answer of a
    store with heartbeats. Instants are milliseconds. *)

From Stdlib Require Import Ascii.
From S2P Require Import Prelude JsString PartitionKey InputValidation StepRun SignalWait SignalStore.
Local Open Scope Z_scope.

Module Continuation.

Definition CONTINUATION_CLAIM_PREFIX : string := "continuations/".

Definition isLowerHex (c : ascii) : bool := isDigit c || in_range 97 102 c.

(** [/^[0-9a-f]{64}$/] *)
Definition SUSPENSION_KEY (s : string) : bool :=
  bool_decide (String.length s = 64%nat) && all_chars isLowerHex s.

Record ContinuationClaim := MkClaim {
  runId : string;
  suspensionKey : string;
  generation : Z;
  holder : string;
  claimedAt : Z;
}.

#[global] Instance ContinuationClaim_eq_dec : EqDecision ContinuationClaim.
Proof. solve_decision. Defined.

Definition ContinuationClaimSchema (c : ContinuationClaim) : bool :=
  PartitionKey.UUID (runId c) && SUSPENSION_KEY (suspensionKey c) && (1 <=? generation c) &&
  (1 <=? String.length (holder c))%nat && (String.length (holder c) <=? 256)%nat.

Definition SERVE : string := "serve:".

Definition serveHolder (instanceId : string) : string := SERVE +:+ instanceId.

Definition serveInstanceOf (holder : string) : option string :=
  if startsWith holder SERVE && (String.length SERVE <? String.length holder)%nat
  then Some (str_drop (String.length SERVE) holder) else None.

Definition continuationRunPrefix (runId : string) : result string :=
  if negb (PartitionKey.UUID runId) then Throw ("Not a run id: " +:+ runId)
  else Ok (CONTINUATION_CLAIM_PREFIX +:+ toLowerCase runId +:+ "/").

Definition continuationSuspensionPrefix (runId suspensionKey : string) : result string :=
  if negb (SUSPENSION_KEY suspensionKey) then Throw ("Not a suspension key: " +:+ suspensionKey)
  else p ← continuationRunPrefix runId; Ok (p +:+ suspensionKey +:+ "/").

Definition continuationClaimKey (runId suspensionKey : string) (generation : Z) : result string :=
  if generation <? 1 then Throw ("Not a claim generation: " +:+ pretty generation)
  else p ← continuationSuspensionPrefix runId suspensionKey; Ok (p +:+ pretty generation).

(** [key.slice(key.lastIndexOf("/") + 1)] *)
Definition lastSegment (key : string) : string := default "" (last (splitOn "/" key)).

Definition generationFromKey (key : string) : option Z :=
  SignalStore.generationFromKey (lastSegment key).

(** ** Programs of calls *)

Inductive Value := VClaim (c : ContinuationClaim) | VGarbage.

#[global] Instance Value_eq_dec : EqDecision Value.
Proof. solve_decision. Defined.

Definition decodeContinuationClaim (v : option Value) (expRunId expKey : string) (expGeneration : Z) :
    option ContinuationClaim :=
  match v with
  | Some (VClaim c) =>
      if negb (ContinuationClaimSchema c) then None
      else if bool_decide (toLowerCase (runId c) = toLowerCase expRunId) &&
              bool_decide (suspensionKey c = expKey) && (generation c =? expGeneration)
      then Some c else None
  | _ => None
  end.

Inductive HolderLiveness := Alive | Dead | Unknown.

#[global] Instance HolderLiveness_eq_dec : EqDecision HolderLiveness.
Proof. solve_decision. Defined.

Inductive prog (A : Type) : Type :=
| Ret (a : A)
| Die (message : string)
| DoList (prefix : string) (k : option (list string) → prog A)
| DoGet (key : string) (k : option (option Value) → prog A)
| DoPutIfAbsent (key : string) (v : Value) (k : option bool → prog A)
| DoDelete (key : string) (k : option () → prog A)
| DoLiveness (holder : string) (k : option HolderLiveness → prog A).
Arguments Ret {A} _.
Arguments Die {A} _.
Arguments DoList {A} _ _.
Arguments DoGet {A} _ _.
Arguments DoPutIfAbsent {A} _ _ _.
Arguments DoDelete {A} _ _.
Arguments DoLiveness {A} _ _.

Fixpoint bind {A B} (p : prog A) (f : A → prog B) : prog B :=
  match p with
  | Ret a => f a
  | Die message => Die message
  | DoList prefix k => DoList prefix (λ r, bind (k r) f)
  | DoGet key k => DoGet key (λ r, bind (k r) f)
  | DoPutIfAbsent key v k => DoPutIfAbsent key v (λ r, bind (k r) f)
  | DoDelete key k => DoDelete key (λ r, bind (k r) f)
  | DoLiveness h k => DoLiveness h (λ r, bind (k r) f)
  end.

#[global] Instance prog_ret : MRet prog := @Ret.
#[global] Instance prog_bind : MBind prog := λ A B f p, bind p f.

Definition orThrow {A} (r : option A) : prog A :=
  match r with Some a => Ret a | None => Die "the store failed" end.

(** [try]: what the program gives, or the message of what it throws *)
Fixpoint attempt {A} (p : prog A) : prog (A + string) :=
  match p with
  | Ret a => Ret (inl a)
  | Die message => Ret (inr message)
  | DoList prefix k => DoList prefix (λ r, attempt (k r))
  | DoGet key k => DoGet key (λ r, attempt (k r))
  | DoPutIfAbsent key v k => DoPutIfAbsent key v (λ r, attempt (k r))
  | DoDelete key k => DoDelete key (λ r, attempt (k r))
  | DoLiveness h k => DoLiveness h (λ r, attempt (k r))
  end.

Definition ofResult {A} (r : result A) : prog A :=
  match r with Ok a => Ret a | Throw message => Die message end.

(** ** The store *)

Fixpoint readable (generations : list Z) (run susp : string) : prog (option ContinuationClaim) :=
  match generations with
  | [] => Ret None
  | g :: rest =>
      key ← ofResult (continuationClaimKey run susp g);
      v ← DoGet key orThrow;
      match decodeContinuationClaim v run susp g with
      | Some c => Ret (Some c)
      | None => readable rest run susp
      end
  end.

Definition highestFirst (a b : Z) : Z := b - a.

Definition find (run susp : string) : prog (option ContinuationClaim) :=
  prefix ← ofResult (continuationSuspensionPrefix run susp);
  keys ← DoList prefix orThrow;
  readable (js_sort highestFirst (omap generationFromKey keys)) run susp.

Definition create (c : ContinuationClaim) : prog bool :=
  key ← ofResult (continuationClaimKey (runId c) (suspensionKey c) (generation c));
  DoPutIfAbsent key (VClaim c) orThrow.

Definition release (c : ContinuationClaim) : prog () :=
  key ← ofResult (continuationClaimKey (runId c) (suspensionKey c) (generation c));
  DoDelete key orThrow.

Fixpoint deleteAll (keys : list string) : prog () :=
  match keys with
  | [] => Ret tt
  | key :: rest => DoDelete key orThrow ≫= λ _, deleteAll rest
  end.

Definition removeForRun (run : string) : prog () :=
  prefix ← ofResult (continuationRunPrefix run);
  keys ← DoList prefix orThrow;
  deleteAll keys.

(** every run is tried, and the first failure is thrown after the last *)
Fixpoint removeClaimsOfRuns (runIds : list string) (failures : list string) : prog () :=
  match runIds with
  | [] => match failures with f :: _ => Die f | [] => Ret tt end
  | run :: rest =>
      if negb (PartitionKey.UUID run) then removeClaimsOfRuns rest failures
      else
        r ← attempt (removeForRun run);
        removeClaimsOfRuns rest
          (match r with inl _ => failures | inr message => failures ++ [message] end)
  end.

(** ** Acquiring *)

Inductive ContinuationMode := Manual | Automatic (takeover : bool).

Inductive ContinuationAcquisition :=
| Acquired (c : ContinuationClaim)
| Held (c : ContinuationClaim) (l : HolderLiveness).

(** whether a claim of another holder is replaced *)
Definition replaces (mode : ContinuationMode) (l : HolderLiveness) : bool :=
  match mode with
  | Manual => negb (bool_decide (l = Alive))
  | Automatic takeover => bool_decide (l = Dead) && takeover
  end.

(** from the current claim of the suspension *)
Definition acquireOver (self run susp : string) (mode : ContinuationMode) (now : Z)
    (current : ContinuationClaim) : prog ContinuationAcquisition :=
  if bool_decide (holder current = self) then Ret (Acquired current)
  else
    l ← DoLiveness (holder current) orThrow;
    if negb (replaces mode l) then Ret (Held current l)
    else
      let next := MkClaim run susp (generation current + 1) self now in
      ok ← create next;
      if (ok : bool) then Ret (Acquired next)
      else
        winner ← find run susp;
        match winner with
        | Some w => l ← DoLiveness (holder w) orThrow; Ret (Held w l)
        | None => Ret (Held next Unknown)
        end.

Definition acquireContinuation (self run susp : string) (mode : ContinuationMode) (now : Z) :
    prog ContinuationAcquisition :=
  current ← find run susp;
  match current with
  | Some c => acquireOver self run susp mode now c
  | None =>
      let first := MkClaim run susp 1 self now in
      ok ← create first;
      if (ok : bool) then Ret (Acquired first)
      else
        current ← find run susp;
        match current with
        | None => Ret (Held first Unknown)
        | Some c => acquireOver self run susp mode now c
        end
  end.

(** ** Heartbeats *)

Definition CONTINUATION_HOLDER_STALE_MS : Z := 90000.
Definition HOLDER_STALE_MAX_MS : Z := 86400000.

(** [record?.key] *)
Definition fieldOf (key : string) (v : JsValue) : option JsValue :=
  match v with VObj l => assoc_get key l | _ => None end.

(** What a heartbeat says: [answer] is [None] when the read throws, [Some None]
    when there is none, [Some (Some None)] when it is no JSON; [dateOf] is
    [new Date(v).getTime()]. *)
Definition judgeHeartbeat (dateOf : option JsValue → option Z) (staleMs now : Z)
    (answer : option (option (option JsValue))) : HolderLiveness :=
  match answer with
  | None => Unknown
  | Some None => Dead
  | Some (Some None) => Dead
  | Some (Some (Some record)) =>
      match fieldOf "stoppedAt" record with
      | Some (VStr _) => Dead
      | _ =>
          match dateOf (fieldOf "heartbeatAt" record) with
          | None => Dead
          | Some at_ =>
              let ttl :=
                match fieldOf "staleTtlMs" record with
                | Some (VNum n) =>
                    if (0 <? n) && (n <=? HOLDER_STALE_MAX_MS) then n else staleMs
                | _ => staleMs
                end in
              if ttl <? now - at_ then Dead else Alive
          end
      end
  end.

(** [/^[A-Za-z0-9_-]+$/] *)
Definition isInstanceChar (c : ascii) : bool :=
  in_range 65 90 c || in_range 97 122 c || isDigit c || in_range 95 95 c || in_range 45 45 c.

Definition heartbeatLiveness (dateOf : option JsValue → option Z) (staleMs now : Z)
    (read : string → option (option (option JsValue))) (holder : string) : HolderLiveness :=
  match serveInstanceOf holder with
  | Some instanceId =>
      if negb (bool_decide (instanceId = "")) && all_chars isInstanceChar instanceId
      then judgeHeartbeat dateOf staleMs now (read ("heartbeats/" +:+ instanceId))
      else Unknown
  | None => Unknown
  end.
End Continuation.
