(* ===== verification/ContinuationProps.v ===== *)
(** * Continuation claims: at most one live holder

    Any number of processes, each with its own holder name, acquire, hold,
    release and die at any call, on one store, for one suspension; calls
    interleave and may fail with or without effect, and objects of the store may
    be damaged. *)

From Stdlib Require Import Ascii.
From S2P Require Import Prelude JsString PartitionKey InputValidation StepRun SignalWait SignalStore Continuation.
Local Open Scope Z_scope.

Module ContinuationProps.
Import Continuation.

(** ** Keys *)

Lemma claimKey_ok run susp g key :
  continuationClaimKey run susp g = Ok key ↔
  1 ≤ g ∧ ∃ p, continuationSuspensionPrefix run susp = Ok p ∧ key = p +:+ pretty g.
Proof.
  unfold continuationClaimKey. destruct (Z.ltb_spec g 1); [split; [done|lia]|].
  rewrite result_bind_ok. split.
  - intros (p & Hp & [= <-]). eauto.
  - intros (_ & p & Hp & ->). eauto.
Qed.

Lemma claimKey_inj run susp g g' key :
  continuationClaimKey run susp g = Ok key → continuationClaimKey run susp g' = Ok key → g = g'.
Proof.
  rewrite !claimKey_ok. intros (_ & p & Hp & ->) (_ & p' & Hp' & E).
  rewrite Hp in Hp'. injection Hp' as <-.
  apply (inj (String.append p)) in E. by apply (inj pretty) in E.
Qed.

Lemma decode_spec v run susp g c :
  decodeContinuationClaim v run susp g = Some c →
  v = Some (VClaim c) ∧ generation c = g ∧
  ∀ key, continuationClaimKey run susp g = Ok key →
    continuationClaimKey (runId c) (suspensionKey c) (generation c) = Ok key.
Proof.
  unfold decodeContinuationClaim. destruct v as [[c'|]|]; [|done|done].
  destruct (ContinuationClaimSchema c') eqn:Hs; [|done]. cbn [negb].
  destruct (_ && _ && _) eqn:E; [|done]. intros [= ->]. split_bools.
  split_and!; [done|done|]. subst g. intros key.
  rewrite !claimKey_ok. intros (Hg & p & Hp & ->). split; [done|]. exists p. split; [|done].
  unfold ContinuationClaimSchema in Hs. split_bools.
  unfold continuationSuspensionPrefix, continuationRunPrefix in *.
  subst susp. destruct (SUSPENSION_KEY _); [|done]. cbn [negb] in *.
  apply result_bind_ok in Hp as (q & Hq & [= <-]). apply result_bind_ok. exists q. split; [|done].
  destruct (PartitionKey.UUID run); [|done]. cbn [negb] in Hq. simplify_eq.
  destruct (PartitionKey.UUID (runId c)); [|done]. cbn [negb]. by rewrite H.
Qed.

(** ** Pools of processes *)

Inductive Phase :=
| Idle
| Acquiring (p : prog ContinuationAcquisition)
| Holding (c : ContinuationClaim)
| Releasing (p : prog ())
| Stopped.

(** [released] tells that the process has begun to release a claim *)
Record Process := MkProcess { phase : Phase; released : bool }.

#[local] Notation Pool := (gmap string Process).
#[local] Notation Store := (gmap string Value).

(** a process that stopped, or one that never ran *)
Definition gone (procs : Pool) (h : string) : Prop :=
  ∀ st, procs !! h = Some st → phase st = Stopped.

(** one call, answered by the store; an answer [Dead] is only given for a
    holder that is gone *)
Inductive call (procs : Pool) (store : Store) {A} : prog A → Store → prog A → Prop :=
| call_list prefix k l :
    (∀ key, key ∈ l ↔ startsWith key prefix = true ∧ is_Some (store !! key)) →
    call procs store (DoList prefix k) store (k (Some l))
| call_list_fails prefix k : call procs store (DoList prefix k) store (k None)
| call_get key k : call procs store (DoGet key k) store (k (Some (store !! key)))
| call_get_fails key k : call procs store (DoGet key k) store (k None)
| call_put key v k :
    store !! key = None →
    call procs store (DoPutIfAbsent key v k) (<[key := v]> store) (k (Some true))
| call_put_present key v k :
    is_Some (store !! key) → call procs store (DoPutIfAbsent key v k) store (k (Some false))
| call_put_fails key v k : call procs store (DoPutIfAbsent key v k) store (k None)
| call_put_unheard key v k :
    store !! key = None →
    call procs store (DoPutIfAbsent key v k) (<[key := v]> store) (k None)
| call_delete key k r : call procs store (DoDelete key k) (delete key store) (k r)
| call_delete_fails key k : call procs store (DoDelete key k) store (k None)
| call_liveness h k l :
    (l = Dead → gone procs h) → call procs store (DoLiveness h k) store (k (Some l))
| call_liveness_fails h k : call procs store (DoLiveness h k) store (k None).

Section Pool.
Context (run susp : string).

(** Resumes are automatic. A process that died keeps what it held: [step_stop]
    is for processes that did not begin to release. *)
Inductive step : Store * Pool → Store * Pool → Prop :=
| step_start store procs h r takeover now :
    procs !! h = Some (MkProcess Idle r) →
    step (store, procs)
      (store, <[h := MkProcess (Acquiring
                 (acquireContinuation h run susp (Automatic takeover) now)) r]> procs)
| step_acquire store procs h r p store' p' :
    procs !! h = Some (MkProcess (Acquiring p) r) → call procs store p store' p' →
    step (store, procs) (store', <[h := MkProcess (Acquiring p') r]> procs)
| step_acquired store procs h r c :
    procs !! h = Some (MkProcess (Acquiring (Ret (Acquired c))) r) →
    step (store, procs) (store, <[h := MkProcess (Holding c) r]> procs)
| step_held store procs h r c l :
    procs !! h = Some (MkProcess (Acquiring (Ret (Held c l))) r) →
    step (store, procs) (store, <[h := MkProcess Idle r]> procs)
| step_threw store procs h r message :
    procs !! h = Some (MkProcess (Acquiring (Die message)) r) →
    step (store, procs) (store, <[h := MkProcess Idle r]> procs)
| step_done store procs h r c :
    procs !! h = Some (MkProcess (Holding c) r) →
    step (store, procs) (store, <[h := MkProcess Idle r]> procs)
| step_release store procs h r c :
    procs !! h = Some (MkProcess (Holding c) r) →
    step (store, procs) (store, <[h := MkProcess (Releasing (release c)) true]> procs)
| step_releasing store procs h r p store' p' :
    procs !! h = Some (MkProcess (Releasing p) r) → call procs store p store' p' →
    step (store, procs) (store', <[h := MkProcess (Releasing p') r]> procs)
| step_released store procs h r p :
    procs !! h = Some (MkProcess (Releasing p) r) →
    (p = Ret tt ∨ ∃ message, p = Die message) →
    step (store, procs) (store, <[h := MkProcess Idle r]> procs)
| step_stop store procs h ph :
    procs !! h = Some (MkProcess ph false) →
    step (store, procs) (store, <[h := MkProcess Stopped false]> procs)
| step_damage store procs key :
    is_Some (store !! key) → step (store, procs) (<[key := VGarbage]> store, procs).

(** no claim of the suspension to begin with, and every process idle *)
Definition initial (cfg : Store * Pool) : Prop :=
  (∀ g key, continuationClaimKey run susp g = Ok key →
     decodeContinuationClaim (cfg.1 !! key) run susp g = None) ∧
  ∀ h st, cfg.2 !! h = Some st → st = MkProcess Idle false.

(** ** What the programs rely on *)

(** what a process knows: the claims that were ever created, who is gone, and
    the generations that are its own *)
Record World := MkWorld { log : Z → string → Prop; wGone : string → Prop; own : Z → Prop }.

Definition extends (W W' : World) : Prop :=
  (∀ g h, log W g h → log W' g h) ∧ (∀ h, wGone W h → wGone W' h) ∧ (∀ g, own W g → own W' g).

Lemma extends_refl W : extends W W.
Proof. done. Qed.

Lemma extends_trans W1 W2 W3 : extends W1 W2 → extends W2 W3 → extends W1 W3.
Proof. intros (?&?&?) (?&?&?). split_and!; eauto. Qed.

Definition goodClaim (W : World) (c : ContinuationClaim) : Prop :=
  own W (generation c) ∧
  ∃ key, continuationClaimKey run susp (generation c) = Ok key ∧
    continuationClaimKey (runId c) (suspensionKey c) (generation c) = Ok key.

(** a program that creates only the first claim, or the one after a claim whose
    holder is gone, and acquires only what is its own *)
Fixpoint acquires (h : string) (W : World) (p : prog ContinuationAcquisition) : Prop :=
  match p with
  | Ret (Acquired c) => goodClaim W c
  | Ret (Held _ _) | Die _ => True
  | DoList _ k => ∀ W' r, extends W W' → acquires h W' (k r)
  | DoGet key k => ∀ W' r, extends W W' →
      (∀ v g c, r = Some v → continuationClaimKey run susp g = Ok key →
         decodeContinuationClaim v run susp g = Some c →
         log W' g (holder c) ∧ (holder c = h → own W' g)) →
      acquires h W' (k r)
  | DoPutIfAbsent key v k =>
      ∃ g c, continuationClaimKey run susp g = Ok key ∧ v = VClaim c ∧ holder c = h ∧
        (g = 1 ∨ ∃ d, log W (g - 1) d ∧ wGone W d) ∧
        ∀ W' r, extends W W' → (r = Some true → own W' g) → acquires h W' (k r)
  | DoDelete _ _ => False
  | DoLiveness d k => ∀ W' r, extends W W' → (r = Some Dead → wGone W' d) → acquires h W' (k r)
  end.

Lemma goodClaim_mono W W' c : extends W W' → goodClaim W c → goodClaim W' c.
Proof. intros (_&_&Ho) [H1 H2]. split; auto. Qed.

Lemma acquires_mono h W W' p : extends W W' → acquires h W p → acquires h W' p.
Proof.
  intros HW. destruct p as [[c|c l]| | | | | |]; cbn [acquires]; eauto using goodClaim_mono, extends_trans.
  intros (g & c & Hk & Hv & Hh & Hg & Hc). exists g, c. split_and!; eauto using extends_trans.
  destruct Hg as [->|(d & Hl & Hd)]; [by left|]. right. exists d. destruct HW as (?&?&?). eauto.
Qed.

(** reading passes on what it learnt *)
Lemma readable_acquires h W gens f :
  (∀ W' r, extends W W' →
     (∀ c, r = Some c → log W' (generation c) (holder c) ∧
        (holder c = h → own W' (generation c)) ∧
        ∃ key, continuationClaimKey run susp (generation c) = Ok key ∧
          continuationClaimKey (runId c) (suspensionKey c) (generation c) = Ok key) →
     acquires h W' (f r)) →
  acquires h W (readable gens run susp ≫= f).
Proof.
  revert W. induction gens as [|g gens IH]; intros W Hf.
  { cbn. apply Hf; [done|]. intros c [=]. }
  cbn [readable]. destruct (continuationClaimKey run susp g) as [key|] eqn:Hk; [|done].
  cbn. intros W' r HW Hr. destruct r as [v|]; [|done]. cbn.
  destruct (decodeContinuationClaim v run susp g) as [c|] eqn:Hd; cbn.
  - apply Hf; [done|]. intros c' [= <-]. destruct (decode_spec _ _ _ _ _ Hd) as (_ & Hg & Hkey).
    destruct (Hr v g c eq_refl Hk Hd) as [Hl Ho]. rewrite Hg in *. split_and!; [done|done|].
    exists key. rewrite <-Hg in *. auto.
  - apply IH. intros W'' r HW' Hr'. apply Hf; [by eapply extends_trans|done].
Qed.

Lemma find_acquires h W f :
  (∀ W' r, extends W W' →
     (∀ c, r = Some c → log W' (generation c) (holder c) ∧
        (holder c = h → own W' (generation c)) ∧
        ∃ key, continuationClaimKey run susp (generation c) = Ok key ∧
          continuationClaimKey (runId c) (suspensionKey c) (generation c) = Ok key) →
     acquires h W' (f r)) →
  acquires h W (find run susp ≫= f).
Proof.
  intros Hf. unfold find. destruct (continuationSuspensionPrefix run susp) as [p|]; [|done].
  cbn. intros W' [keys|] HW; [|done]. cbn. apply readable_acquires.
  intros W'' r HW' Hr. apply Hf; [by eapply extends_trans|done].
Qed.

Lemma create_acquires h W g now f :
  (g = 1 ∨ ∃ d, log W (g - 1) d ∧ wGone W d) →
  (∀ W' (r : bool), extends W W' →
     (r = true → own W' g ∧
        ∃ key, continuationClaimKey run susp g = Ok key) → acquires h W' (f r)) →
  acquires h W (create (MkClaim run susp g h now) ≫= f).
Proof.
  intros Hg Hf. unfold create. cbn [runId suspensionKey generation].
  destruct (continuationClaimKey run susp g) as [key|] eqn:Hk; [|done]. cbn.
  exists g, (MkClaim run susp g h now). split_and!; [done|done|done|done|].
  intros W' [r|] HW Hr; [|done]. cbn. apply Hf; [done|]. intros ->. eauto.
Qed.

Lemma acquireOver_acquires h W takeover now c :
  log W (generation c) (holder c) → (holder c = h → own W (generation c)) →
  (∃ key, continuationClaimKey run susp (generation c) = Ok key ∧
     continuationClaimKey (runId c) (suspensionKey c) (generation c) = Ok key) →
  acquires h W (acquireOver h run susp (Automatic takeover) now c).
Proof.
  intros Hl Ho Hk. unfold acquireOver. case_bool_decide as Hh; [split; auto|].
  cbn. intros W' [l|] HW Hd; [|done]. cbn. destruct l; [done| |done].
  rewrite bool_decide_true by done. destruct takeover; [|done]. cbn [andb negb].
  apply create_acquires.
  { right. exists (holder c). replace (generation c + 1 - 1) with (generation c) by lia.
    destruct HW as (HW & _). auto. }
  intros W'' [] HW' Hr.
  - destruct (Hr eq_refl) as (Hown & key & Hkey). split; [done|]. cbn. eauto.
  - apply find_acquires. intros W3 [w|] HW3 _; [|done]. cbn. by intros W4 [l|] HW4 _.
Qed.

Lemma acquire_acquires h W takeover now :
  acquires h W (acquireContinuation h run susp (Automatic takeover) now).
Proof.
  unfold acquireContinuation. apply find_acquires. intros W' [c|] HW Hr.
  { destruct (Hr c eq_refl) as (Hl & Ho & Hk). by apply acquireOver_acquires. }
  apply create_acquires; [by left|]. intros W'' [] HW' Hc.
  - destruct (Hc eq_refl) as (Hown & key & Hkey). split; [done|]. cbn. eauto.
  - apply find_acquires. intros W3 [c|] HW3 Hr3; [|done].
    destruct (Hr3 c eq_refl) as (Hl & Ho & Hk). by apply acquireOver_acquires.
Qed.

(** ** The invariant of a pool *)

Definition worldOf (procs : Pool) (owner : gmap Z string) (lg : Z → string → Prop) (h : string) : World :=
  {| log := lg; wGone := gone procs; own := λ g, owner !! g = Some h |}.

(** what is left to do of a release *)
Definition releases (owner : gmap Z string) (h : string) (p : prog ()) : Prop :=
  match p with
  | Ret _ | Die _ => True
  | DoDelete key k =>
      (∃ g, continuationClaimKey run susp g = Ok key ∧ owner !! g = Some h) ∧
      ∀ r, k r = Ret tt ∨ ∃ message, k r = Die message
  | _ => False
  end.

Definition phaseOk (procs : Pool) (owner : gmap Z string) (lg : Z → string → Prop) (h : string)
    (st : Process) : Prop :=
  match phase st with
  | Idle => True
  | Acquiring p => acquires h (worldOf procs owner lg h) p
  | Holding c => goodClaim (worldOf procs owner lg h) c
  | Releasing p => released st = true ∧ releases owner h p
  | Stopped => released st = false
  end.

(** [owner] is who created each object that is there now, [lg] who ever did *)
Record inv (store : Store) (procs : Pool) (owner : gmap Z string) (lg : Z → string → Prop) : Prop := {
  inv_present g h : owner !! g = Some h →
    ∃ key, continuationClaimKey run susp g = Ok key ∧ is_Some (store !! key);
  inv_readable g key c : continuationClaimKey run susp g = Ok key →
    decodeContinuationClaim (store !! key) run susp g = Some c → owner !! g = Some (holder c);
  inv_below g h g' h' : owner !! g = Some h → owner !! g' = Some h' → g < g' → gone procs h;
  inv_filled g g' h' key : owner !! g' = Some h' → 1 ≤ g ≤ g' →
    continuationClaimKey run susp g = Ok key → is_Some (store !! key);
  inv_logged g h : owner !! g = Some h → lg g h;
  inv_kept g h : lg g h → ∃ st, procs !! h = Some st ∧ (owner !! g = Some h ∨ released st = true);
  inv_phases h st : procs !! h = Some st → phaseOk procs owner lg h st;
}.

Definition Inv (cfg : Store * Pool) : Prop := ∃ owner lg, inv cfg.1 cfg.2 owner lg.

Lemma initial_Inv cfg : initial cfg → Inv cfg.
Proof.
  intros [Hc Hp]. exists ∅, (λ _ _, False). split; try by (intros; simplify_map_eq).
  - intros g key c Hk Hd. by rewrite (Hc g key Hk) in Hd.
  - intros h st Hst. by rewrite (Hp h st Hst).
Qed.

(** ** Every step keeps it *)

Lemma phaseOk_mono procs procs' owner owner' (lg lg' : Z → string → Prop) h st :
  (∀ d, gone procs d → gone procs' d) → (∀ g d, lg g d → lg' g d) →
  (∀ g, owner !! g = Some h → owner' !! g = Some h) →
  phaseOk procs owner lg h st → phaseOk procs' owner' lg' h st.
Proof.
  intros Hg Hl Ho. assert (extends (worldOf procs owner lg h) (worldOf procs' owner' lg' h)) by done.
  unfold phaseOk. destruct (phase st) as [|p|c|p|]; [done| | | |done].
  - by apply acquires_mono.
  - by apply goodClaim_mono.
  - intros [Hr Hp]. split; [done|]. destruct p; try done. destruct Hp as [(g & Hk & Hog) Hf]. split; eauto.
Qed.

Lemma gone_update procs h st st' d :
  procs !! h = Some st → phase st ≠ Stopped → gone procs d → gone (<[h := st']> procs) d.
Proof.
  unfold gone. intros Hh Hst Hd x Hx. destruct (decide (d = h)) as [->|Hne].
  - by destruct (Hst (Hd st Hh)).
  - rewrite lookup_insert_ne in Hx by done. by apply Hd.
Qed.

(** a process moves on, the store as it is *)
Lemma inv_update store procs owner lg h st st' :
  inv store procs owner lg → procs !! h = Some st → phase st ≠ Stopped →
  (released st = true → released st' = true) →
  phaseOk (<[h := st']> procs) owner lg h st' →
  inv store (<[h := st']> procs) owner lg.
Proof.
  intros [I1 I2 I3 I4 I5 I6 I7] Hh Hst Hrel Hok. split; [done..| | | | |].
  - intros g d g' d' Hd Hd' Hlt. eapply gone_update; [done..|]. eauto.
  - done.
  - done.
  - intros g d Hl. destruct (I6 g d Hl) as (x & Hx & Hor). destruct (decide (d = h)) as [->|Hne].
    + exists st'. simplify_map_eq. split; [done|]. destruct Hor; auto.
    + exists x. by rewrite lookup_insert_ne.
  - intros d x. destruct (decide (d = h)) as [->|Hne]; [by intros; simplify_map_eq|].
    rewrite lookup_insert_ne by done. intros Hx. eapply phaseOk_mono; [| | |by apply I7]; [|done..].
    intros e. by eapply gone_update.
Qed.

(** an object is created, the first or after one whose holder is gone *)
Lemma inv_put store procs owner (lg : Z → string → Prop) h g key c :
  inv store procs owner lg → is_Some (procs !! h) →
  continuationClaimKey run susp g = Ok key → store !! key = None → holder c = h →
  (g = 1 ∨ ∃ d, lg (g - 1) d ∧ gone procs d) →
  inv (<[key := VClaim c]> store) procs (<[g := h]> owner) (λ g' h', lg g' h' ∨ g' = g ∧ h' = h).
Proof.
  intros [I1 I2 I3 I4 I5 I6 I7] [st Hst] Hk Hnone Hc Hg.
  assert (Hfresh : owner !! g = None).
  { destruct (owner !! g) eqn:E; [|done]. destruct (I1 _ _ E) as (key' & Hk' & [? ?]). congruence. }
  assert (Hge : 1 ≤ g) by (by apply claimKey_ok in Hk as [? _]).
  (* nothing above, everything below gone *)
  assert (Hbelow : ∀ g' h', owner !! g' = Some h' → g' < g).
  { intros g' h' E. destruct (Z.lt_ge_cases g' g) as [|Hle]; [done|].
    destruct (I4 g g' h' key E) as [? ?]; [lia|done|congruence]. }
  assert (Hpred : g = 1 ∨ ∃ d, owner !! (g - 1) = Some d ∧ gone procs d).
  { destruct Hg as [|(d & Hl & Hd)]; [by left|right]. exists d. split; [|done].
    destruct (I6 _ _ Hl) as (x & Hx & [?|Hr]); [done|]. specialize (I7 d x Hx).
    unfold phaseOk in I7. rewrite (Hd x Hx) in I7. congruence. }
  assert (Hgone : ∀ g' h', owner !! g' = Some h' → gone procs h').
  { intros g' h' E. destruct Hpred as [->|(d & Ed & Hd)].
    - destruct (I1 _ _ E) as (k' & [? _]%claimKey_ok & _). specialize (Hbelow _ _ E). lia.
    - destruct (decide (g' = g - 1)) as [->|]; [by simplify_eq|].
      specialize (Hbelow _ _ E). eapply I3; [exact E|exact Ed|lia]. }
  split.
  - intros g' h'. destruct (decide (g' = g)) as [->|]; rewrite ?lookup_insert_eq, ?lookup_insert_ne by done.
    + intros _. exists key. rewrite lookup_insert_eq. eauto.
    + intros E. destruct (I1 _ _ E) as (key' & Hk' & Hs). exists key'. split; [done|].
      rewrite lookup_insert_ne; [done|]. intros ->. destruct Hs. congruence.
  - intros g' key' c' Hk' Hd. destruct (decide (g' = g)) as [->|Hne].
    + rewrite lookup_insert_eq. rewrite Hk in Hk'. injection Hk' as <-. rewrite lookup_insert_eq in Hd.
      apply decode_spec in Hd as ([= <-] & _). by rewrite Hc.
    + rewrite lookup_insert_ne by done. eapply I2; [done|]. rewrite lookup_insert_ne in Hd; [done|].
      intros ->. by apply Hne, (claimKey_inj run susp g' g key').
  - intros g1 h1 g2 h2 E1 E2 Hlt. destruct (decide (g1 = g)) as [->|].
    + rewrite lookup_insert_ne in E2 by lia. specialize (Hbelow _ _ E2). lia.
    + rewrite lookup_insert_ne in E1 by done. eauto.
  - intros g1 g2 h2 key' E2 Hle Hk'. destruct (decide (key' = key)) as [->|Hne].
    { rewrite lookup_insert_eq. eauto. }
    rewrite lookup_insert_ne by done. destruct (decide (g2 = g)) as [->|].
    + destruct Hpred as [->|(d & Ed & _)].
      * replace g1 with 1 in Hk' by lia. congruence.
      * destruct (decide (g1 = g)) as [->|]; [congruence|]. apply (I4 g1 (g - 1) d key'); [done|lia|done].
    + rewrite lookup_insert_ne in E2 by done. eauto.
  - intros g' h' E. destruct (decide (g' = g)) as [->|].
    + rewrite lookup_insert_eq in E. simplify_eq. auto.
    + rewrite lookup_insert_ne in E by done. auto.
  - intros g' h' [Hl|[-> ->]].
    + destruct (I6 _ _ Hl) as (x & Hx & Hor). exists x. split; [done|].
      destruct Hor as [Ho|]; [left|by right]. rewrite lookup_insert_ne; [done|]. intros ->. congruence.
    + exists st. rewrite lookup_insert_eq. auto.
  - intros d x Hx. eapply phaseOk_mono; [done| | |by apply I7]; [by left|].
    intros g' E. rewrite lookup_insert_ne; [done|]. intros ->. congruence.
Qed.

(** the holder of an object that is there deletes it *)
Lemma inv_delete store procs owner (lg : Z → string → Prop) h st st' g key :
  inv store procs owner lg → procs !! h = Some st → phase st ≠ Stopped →
  continuationClaimKey run susp g = Ok key → owner !! g = Some h →
  released st' = true → phaseOk (<[h := st']> procs) (delete g owner) lg h st' →
  inv (delete key store) (<[h := st']> procs) (delete g owner) lg.
Proof.
  intros Hinv Hst Hns Hk Hown Hrel Hok.
  assert (Hlive : ¬ gone procs h) by (intros Hg; by apply Hns, Hg).
  destruct Hinv as [I1 I2 I3 I4 I5 I6 I7].
  assert (Htop : ∀ g' h', owner !! g' = Some h' → g' ≤ g).
  { intros g' h' E. destruct (Z.le_gt_cases g' g) as [|Hgt]; [done|].
    destruct Hlive. eapply I3; [exact Hown|exact E|lia]. }
  split.
  - intros g' h' [Hne E]%lookup_delete_Some. destruct (I1 _ _ E) as (key' & Hk' & Hs).
    exists key'. split; [done|]. rewrite lookup_delete_ne; [done|]. intros ->.
    by apply Hne, (claimKey_inj run susp g g' key').
  - intros g' key' c Hk' Hd. destruct (decide (key' = key)) as [->|Hne].
    { by rewrite lookup_delete_eq in Hd. }
    rewrite lookup_delete_ne in Hd by done. rewrite lookup_delete_ne; [by eapply I2|].
    intros ->. congruence.
  - intros g1 h1 g2 h2 [_ E1]%lookup_delete_Some [_ E2]%lookup_delete_Some Hlt.
    eapply gone_update; [done..|]. eauto.
  - intros g1 g2 h2 key' [Hne E2]%lookup_delete_Some Hle Hk'. rewrite lookup_delete_ne; [by eapply I4|].
    intros ->. specialize (Htop _ _ E2). pose proof (claimKey_inj _ _ _ _ _ Hk Hk'). lia.
  - intros g' h' [_ E]%lookup_delete_Some. auto.
  - intros g' d Hl. destruct (I6 _ _ Hl) as (x & Hx & Hor). destruct (decide (d = h)) as [->|Hne].
    + exists st'. simplify_map_eq. auto.
    + exists x. rewrite lookup_insert_ne by done. split; [done|]. destruct Hor as [Ho|]; [left|by right].
      rewrite lookup_delete_ne; [done|]. intros ->. congruence.
  - intros d x. destruct (decide (d = h)) as [->|Hne]; [by intros; simplify_map_eq|].
    rewrite lookup_insert_ne by done. intros Hx. eapply phaseOk_mono; [|done| |by apply I7].
    + intros e. by eapply gone_update.
    + intros g' E. rewrite lookup_delete_ne; [done|]. intros ->. congruence.
Qed.

Lemma inv_damage store procs owner lg key :
  inv store procs owner lg → is_Some (store !! key) →
  inv (<[key := VGarbage]> store) procs owner lg.
Proof.
  intros [I1 I2 I3 I4 I5 I6 I7] Hs.
  assert (Hdom : ∀ k, is_Some (store !! k) → is_Some ((<[key := VGarbage]> store : Store) !! k)).
  { intros k Hk. destruct (decide (k = key)) as [->|]; [rewrite lookup_insert_eq; eauto|].
    by rewrite lookup_insert_ne. }
  split; [| |done| |done..].
  - intros g h E. destruct (I1 _ _ E) as (k & Hk & Hp). eauto.
  - intros g k c Hk Hd. destruct (decide (k = key)) as [->|]; [by rewrite lookup_insert_eq in Hd|].
    rewrite lookup_insert_ne in Hd by done. eauto.
  - intros g g' h' k E Hle Hk. apply Hdom. eauto.
Qed.

(** a call of an acquiring process *)
Lemma inv_acquire_call store procs owner lg h r p store' p' :
  inv store procs owner lg → procs !! h = Some (MkProcess (Acquiring p) r) →
  call procs store p store' p' →
  Inv (store', <[h := MkProcess (Acquiring p') r]> procs).
Proof.
  intros Hinv Hh Hcall. pose proof (inv_phases _ _ _ _ Hinv _ _ Hh) as Hok. cbn in Hok.
  assert (Hsame : acquires h (worldOf procs owner lg h) p' → store' = store →
    Inv (store', <[h := MkProcess (Acquiring p') r]> procs)).
  { intros Ha ->. exists owner, lg. eapply inv_update; [done..|].
    change (acquires h (worldOf (<[h := MkProcess (Acquiring p') r]> procs) owner lg h) p').
    eapply acquires_mono; [|exact Ha]. split_and!; [done| |done].
    intros d. by eapply gone_update. }
  assert (Hput : ∀ key g c, continuationClaimKey run susp g = Ok key → store !! key = None →
    holder c = h → (g = 1 ∨ ∃ d, lg (g - 1) d ∧ gone procs d) →
    (∀ W', extends (worldOf procs owner lg h) W' → own W' g → acquires h W' p') →
    Inv (<[key := VClaim c]> store, <[h := MkProcess (Acquiring p') r]> procs)).
  { intros key g c Hk Hn Hc Hg Ha. eexists _, _. eapply inv_update; [|done|done|done|].
    { by eapply inv_put. }
    change (acquires h (worldOf (<[h := MkProcess (Acquiring p') r]> procs) (<[g := h]> owner)
      (λ g' h', lg g' h' ∨ g' = g ∧ h' = h) h) p').
    apply Ha; [|cbn; by rewrite lookup_insert_eq]. split_and!; cbn; [by left|..].
    - intros d. by eapply gone_update.
    - intros g' E. destruct (decide (g' = g)) as [->|]; by rewrite ?lookup_insert_eq, ?lookup_insert_ne. }
  destruct Hcall; cbn [acquires] in Hok; try done; try (by apply Hsame; [apply Hok|done]).
  - apply Hsame; [|done]. apply Hok; [done|]. intros v g c [= <-] Hk Hd. cbn.
    pose proof (inv_readable _ _ _ _ Hinv _ _ _ Hk Hd) as Ho. split; [by eapply inv_logged|].
    by intros <-.
  - destruct Hok as (g & c & Hk & -> & Hc & Hg & Ha). eapply Hput; [done..|]. intros W' HW Ho.
    by apply Ha.
  - destruct Hok as (g & c & Hk & -> & Hc & Hg & Ha). by apply Hsame; [apply Ha|].
  - destruct Hok as (g & c & Hk & -> & Hc & Hg & Ha). by apply Hsame; [apply Ha|].
  - destruct Hok as (g & c & Hk & -> & Hc & Hg & Ha). eapply Hput; [done..|]. intros W' HW Ho.
    by apply Ha.
  - apply Hsame; [|done]. apply Hok; [done|]. intros [= ->]. cbn. auto.
Qed.

(** a call of a releasing process *)
Lemma inv_release_call store procs owner lg h r p store' p' :
  inv store procs owner lg → procs !! h = Some (MkProcess (Releasing p) r) →
  call procs store p store' p' →
  Inv (store', <[h := MkProcess (Releasing p') r]> procs).
Proof.
  intros Hinv Hh Hcall. pose proof (inv_phases _ _ _ _ Hinv _ _ Hh) as [Hr Hok]. cbn in Hr, Hok.
  destruct Hcall as [| | | | | | | |key k rr|key k| |]; try done;
    destruct Hok as [(g & Hk & Ho) Hfin].
  - exists (delete g owner), lg. eapply inv_delete; [done..|].
    split; [done|]. destruct (Hfin rr) as [->|[m ->]]; done.
  - exists owner, lg. eapply inv_update; [done..|].
    split; [done|]. destruct (Hfin None) as [->|[m ->]]; done.
Qed.

Lemma step_Inv cfg cfg' : step cfg cfg' → Inv cfg → Inv cfg'.
Proof.
  intros Hstep (owner & lg & Hinv). cbn in Hinv.
  destruct Hstep as [store procs h r tk now Hh|store procs h r p store' p' Hh Hcall
    |store procs h r c Hh|store procs h r c l Hh|store procs h r m Hh|store procs h r c Hh
    |store procs h r c Hh|store procs h r p store' p' Hh Hcall|store procs h r p Hh Hfin
    |store procs h ph Hh|store procs key Hs]; cbn in Hinv;
    try (pose proof (inv_phases _ _ _ _ Hinv _ _ Hh) as Hok; cbn in Hok);
    try (by exists owner, lg; eapply inv_update).
  - exists owner, lg. eapply inv_update; [done..|]. apply acquire_acquires.
  - by eapply inv_acquire_call.
  - exists owner, lg. eapply inv_update; [done..|]. split; [done|].
    destruct Hok as (Ho & key & Hk & Hk'). unfold release. rewrite Hk'. cbn.
    split; [eauto|]. intros [[]|]; cbn; eauto.
  - by eapply inv_release_call.
  - exists owner, lg. destruct ph; [by eapply inv_update..|by rewrite insert_id].
  - exists owner, lg. by apply inv_damage.
Qed.

End Pool.
End ContinuationProps.
