(* ===== verification/ContinuationAlone.v ===== *)
(** * Continuation claims: a resume with no other at work

    What [find] and [acquireContinuation] do on a store nobody else changes,
    a run of three processes that shows why a process that began to release
    must not die, and the witnesses of both theorems on claims. *)

From Stdlib Require Import Ascii.
From S2P Require Import Prelude JsString PartitionKey InputValidation StepRun SignalWait SignalStore Continuation ContinuationProps.
Local Open Scope Z_scope.

Module ContinuationAlone.
Import Continuation ContinuationProps.

(** ** Keys are read back *)

Lemma splitOn_ne c s : splitOn c s ≠ [].
Proof. induction s as [|d s IH]; cbn; [done|]. destruct (splitOn c s); [done|]. by case_match. Qed.

Lemma last_splitOn c p x : last (splitOn c (p +:+ String c x)) = last (splitOn c x).
Proof.
  assert (Hlen : ∀ q, (2 ≤ length (splitOn c (q +:+ String c x)))%nat ∧
    last (splitOn c (q +:+ String c x)) = last (splitOn c x)); [|by apply Hlen].
  induction q as [|d q [IHl IH]]; cbn.
  - pose proof (splitOn_ne c x). destruct (splitOn c x) as [|w ws]; [done|].
    rewrite Ascii.eqb_refl. cbn [length]. split; [lia|]. rewrite last_cons. by destruct (last (w :: ws)) eqn:E; [|apply last_None in E].
  - destruct (splitOn c (q +:+ String c x)) as [|w [|w' ws]]; cbn in IHl; [lia..|].
    destruct (Ascii.eqb c d); cbn [length]; (split; [lia|]); by rewrite <-IH.
Qed.

Lemma splitOn_none c s : all_chars (λ d, negb (Ascii.eqb c d)) s = true → splitOn c s = [s].
Proof.
  induction s as [|d s IH]; cbn; [done|]. intros [Hd Hs]%andb_true_iff. rewrite IH by done.
  by destruct (Ascii.eqb c d).
Qed.

Lemma pretty_go_head x s :
  (0 < x)%N → ∃ c rest, pretty_N_go x s = String c rest ∧ in_range 49 57 c = true.
Proof.
  revert s. induction (N.lt_wf_0 x) as [x _ IH]; intros s Hx. rewrite pretty_N_go_step by done.
  destruct (N.eq_0_gt_0_cases (x / 10)) as [E|Hy]; [|apply IH; [by apply N.div_lt|done]].
  rewrite E, pretty_N_go_0. eexists _, _. split; [done|].
  assert (x < 10)%N by (apply N.div_small_iff in E; lia). rewrite N.mod_small by done.
  destruct (pretty_char_digit x) as [_ Hc]; [done|]. unfold in_range. rewrite Hc.
  rewrite andb_true_iff, !Z.leb_le. lia.
Qed.

Lemma pretty_Z_head g : 1 ≤ g → ∃ c rest, pretty g = String c rest ∧ in_range 49 57 c = true.
Proof.
  intros Hg. destruct g as [|p|p]; [lia| |lia].
  change (pretty (Zpos p)) with (pretty (Npos p)). unfold pretty, pretty_N.
  rewrite decide_False by done. by apply pretty_go_head.
Qed.

(** a generation is read back from the key of its claim *)
Lemma generation_of_key run susp g key :
  continuationClaimKey run susp g = Ok key → isSafeInteger g = true →
  generationFromKey key = Some g.
Proof.
  rewrite claimKey_ok. intros (Hg & p & Hp & ->) Hsafe.
  assert (∃ q, p = q +:+ "/") as [q ->].
  { unfold continuationSuspensionPrefix in Hp. destruct (SUSPENSION_KEY susp); [|done]. cbn [negb] in Hp.
    apply result_bind_ok in Hp as (r & _ & [= <-]). exists (r +:+ susp). by rewrite str_app_assoc. }
  unfold generationFromKey, lastSegment.
  rewrite str_app_assoc. change ("/" +:+ pretty g) with (String "/" (pretty g)). rewrite last_splitOn.
  destruct (pretty_Z_digits g) as (Hv & Hd & _); [lia|]. rewrite splitOn_none.
  2:{ eapply all_chars_impl; [|exact Hd]. intros c Hc. destruct (Ascii.eqb_spec "/" c) as [<-|]; done. }
  change (default "" (last [pretty g])) with (pretty g). destruct (pretty_Z_head g Hg) as (c & rest & Ec & Hc). unfold SignalStore.generationFromKey.
  rewrite Ec in *. cbn [all_chars] in Hd. apply andb_true_iff in Hd as [_ Hd]. rewrite Hc, Hd. cbn [andb].
  by rewrite Hv, Hsafe.
Qed.

Lemma generationFromKey_pos key g : generationFromKey key = Some g → 1 ≤ g ∧ isSafeInteger g = true.
Proof.
  unfold generationFromKey, SignalStore.generationFromKey. destruct (lastSegment key) as [|c rest]; [done|].
  destruct (in_range 49 57 c && all_chars isDigit rest) eqn:E; [|done].
  destruct (isSafeInteger _) eqn:Es; [|done]. intros [= <-]. split; [|done].
  apply andb_true_iff in E as [Hc Hr]. unfold in_range in Hc. split_bools. cbn [digits_value].
  rewrite digits_value_acc. apply digits_value_bound in Hr.
  pose proof (Z.pow_pos_nonneg 10 (Z.of_nat (String.length rest))). nia.
Qed.

(** ** Programs run alone *)

Section Alone.
Context (liveness : string → HolderLiveness).

#[local] Notation Store := (gmap string Value).

Definition keysUnder (store : Store) (prefix : string) : list string :=
  filter (λ key, startsWith key prefix = true) (map_to_list store).*1.

(** every call answered, and by nobody else's doing *)
Fixpoint eval {A} (store : Store) (p : prog A) : Store * (A + string) :=
  match p with
  | Ret a => (store, inl a)
  | Die message => (store, inr message)
  | DoList prefix k => eval store (k (Some (keysUnder store prefix)))
  | DoGet key k => eval store (k (Some (store !! key)))
  | DoPutIfAbsent key v k =>
      match store !! key with
      | None => eval (<[key := v]> store) (k (Some true))
      | Some _ => eval store (k (Some false))
      end
  | DoDelete key k => eval (delete key store) (k (Some tt))
  | DoLiveness h k => eval store (k (Some (liveness h)))
  end.

Lemma eval_bind {A B} (p : prog A) (f : A → prog B) store :
  eval store (p ≫= f) =
    match eval store p with
    | (store', inl a) => eval store' (f a)
    | (store', inr message) => (store', inr message)
    end.
Proof.
  revert store. unfold mbind, prog_bind.
  induction p as [a|m|pr k IH|key k IH|key v k IH|key k IH|h k IH]; intros store; cbn [bind eval];
    try done; try apply IH.
  destruct (store !! key); apply IH.
Qed.

Context (run susp prefix : string) (Hprefix : continuationSuspensionPrefix run susp = Ok prefix).

(** the claim of a generation, if it can be read *)
Definition claimAt (store : Store) (g : Z) : option ContinuationClaim :=
  decodeContinuationClaim (store !! (prefix +:+ pretty g)) run susp g.

Lemma claimKey_prefix g : 1 ≤ g → continuationClaimKey run susp g = Ok (prefix +:+ pretty g).
Proof. intros Hg. apply claimKey_ok. eauto. Qed.

Lemma eval_readable store gens :
  Forall (λ g, 1 ≤ g) gens →
  eval store (readable gens run susp) = (store, inl (head (omap (claimAt store) gens))).
Proof.
  induction 1 as [|g gens Hg _ IH]; [done|]. cbn [readable]. rewrite claimKey_prefix by done.
  rewrite !eval_bind. cbn [eval orThrow ofResult]. rewrite eval_bind. cbn [eval orThrow omap list_omap].
  fold (claimAt store g). destruct (claimAt store g); [done|]. by rewrite IH.
Qed.

#[local] Instance highestFirst_comparator : Comparator highestFirst.
Proof. split; unfold highestFirst; lia. Qed.

(** the highest claim that can be read *)
Definition currentClaim (store : Store) (r : option ContinuationClaim) : Prop :=
  match r with
  | Some c => claimAt store (generation c) = Some c ∧ isSafeInteger (generation c) = true ∧ 1 ≤ generation c ∧
      ∀ g, generation c < g → isSafeInteger g = true → claimAt store g = None
  | None => ∀ g, 1 ≤ g → isSafeInteger g = true → claimAt store g = None
  end.

Lemma head_omap_spec {A B} (f : A → option B) l y :
  head (omap f l) = Some y →
  ∃ l1 x l2, l = l1 ++ x :: l2 ∧ f x = Some y ∧ omap f l1 = [].
Proof.
  induction l as [|x l IH]; cbn; [done|]. destruct (f x) as [b|] eqn:E; cbn.
  - intros [= ->]. by exists [], x, l.
  - intros H. destruct (IH H) as (l1 & x' & l2 & -> & Hf & Hn). exists (x :: l1), x', l2.
    split_and!; [done|done|]. cbn. by rewrite E.
Qed.

Lemma claim_listed store g c :
  claimAt store g = Some c → 1 ≤ g → isSafeInteger g = true →
  g ∈ omap generationFromKey (keysUnder store prefix).
Proof.
  intros Hc Hg Hs. apply list_elem_of_omap. exists (prefix +:+ pretty g).
  split; [|by apply (generation_of_key run susp); [apply claimKey_prefix|]].
  unfold keysUnder. apply list_elem_of_filter. split; [apply startsWith_app|].
  unfold claimAt in Hc. destruct (store !! (prefix +:+ pretty g)) as [v|] eqn:E; [|done].
  apply list_elem_of_fmap. exists (prefix +:+ pretty g, v). split; [done|]. by apply elem_of_map_to_list.
Qed.

Lemma find_alone store : ∃ r, eval store (find run susp) = (store, inl r) ∧ currentClaim store r.
Proof.
  set (gens := js_sort highestFirst (omap generationFromKey (keysUnder store prefix))).
  assert (Hgens : ∀ g, g ∈ gens ↔ g ∈ omap generationFromKey (keysUnder store prefix)).
  { intros g. apply elem_of_js_sort. }
  assert (Hpos : ∀ g, g ∈ gens → 1 ≤ g ∧ isSafeInteger g = true).
  { intros g (key & _ & Hk)%Hgens%list_elem_of_omap. by eapply generationFromKey_pos. }
  exists (head (omap (claimAt store) gens)). split.
  { unfold find. rewrite Hprefix, eval_bind. cbn [eval orThrow ofResult].
    rewrite eval_bind. cbn [eval orThrow]. apply eval_readable, Forall_forall.
    intros g Hg. by apply Hpos. }
  pose proof (js_sort_sorted highestFirst (omap generationFromKey (keysUnder store prefix))) as Hsort.
  fold gens in Hsort. destruct (head (omap (claimAt store) gens)) as [c|] eqn:E; cbn.
  - destruct (head_omap_spec _ _ _ E) as (l1 & g & l2 & Hl & Hf & Hn).
    assert (generation c = g) as Hg by (by apply decode_spec in Hf as (_ & ? & _)).
    assert (Hin : g ∈ gens) by (rewrite Hl; set_solver). destruct (Hpos g Hin). rewrite Hg.
    split_and!; [done..|]. intros g' Hlt Hs. destruct (claimAt store g') as [c'|] eqn:E'; [|done].
    exfalso. assert (Hg' : g' ∈ gens) by (apply Hgens; eapply claim_listed; [done|lia|done]).
    rewrite Hl in Hg'. apply elem_of_app in Hg' as [Hg'|Hg'].
    + assert (c' ∈ omap (claimAt store) l1) by (apply list_elem_of_omap; eauto). rewrite Hn in *. set_solver.
    + rewrite Hl in Hsort. apply StronglySorted_app_1_r in Hsort.
      apply StronglySorted_inv in Hsort as [_ Hall]. apply elem_of_cons in Hg' as [->|Hg']; [lia|].
      rewrite Forall_forall in Hall. specialize (Hall g' Hg'). unfold highestFirst in Hall. lia.
  - intros g Hg Hs. destruct (claimAt store g) as [c|] eqn:Ec; [|done]. exfalso.
    assert (c ∈ omap (claimAt store) gens).
    { apply list_elem_of_omap. exists g. split; [|done]. apply Hgens. by eapply claim_listed. }
    destruct (omap (claimAt store) gens); set_solver.
Qed.

Lemma eval_create store g self now :
  1 ≤ g →
  eval store (create (MkClaim run susp g self now)) =
    match store !! (prefix +:+ pretty g) with
    | None => (<[prefix +:+ pretty g := VClaim (MkClaim run susp g self now)]> store, inl true)
    | Some _ => (store, inl false)
    end.
Proof.
  intros Hg. unfold create. cbn [runId suspensionKey generation]. rewrite claimKey_prefix, eval_bind by done.
  cbn [eval ofResult orThrow]. by destruct (store !! (prefix +:+ pretty g)).
Qed.

(** what acquiring comes to, from the current claim *)
Definition acquisition (self : string) (mode : ContinuationMode) (now : Z) (store : Store)
    (current : option ContinuationClaim) : Store * ContinuationAcquisition :=
  match current with
  | None =>
      let first := MkClaim run susp 1 self now in
      match store !! (prefix +:+ pretty 1) with
      | None => (<[prefix +:+ pretty 1 := VClaim first]> store, Acquired first)
      | Some _ => (store, Held first Unknown)
      end
  | Some c =>
      if bool_decide (holder c = self) then (store, Acquired c)
      else if negb (replaces mode (liveness (holder c))) then (store, Held c (liveness (holder c)))
      else
        let next := MkClaim run susp (generation c + 1) self now in
        match store !! (prefix +:+ pretty (generation c + 1)) with
        | None => (<[prefix +:+ pretty (generation c + 1) := VClaim next]> store, Acquired next)
        | Some _ => (store, Held c (liveness (holder c)))
        end
  end.

Lemma eval_acquireOver store self mode now c :
  eval store (find run susp) = (store, inl (Some c)) → 1 ≤ generation c →
  eval store (acquireOver self run susp mode now c) =
    let '(store', a) := acquisition self mode now store (Some c) in (store', inl a).
Proof.
  intros Hf Hg. unfold acquireOver, acquisition. case_bool_decide; [done|].
  rewrite eval_bind. cbn [eval orThrow]. destruct (replaces mode (liveness (holder c))); [|done].
  cbn [negb]. rewrite eval_bind, eval_create by lia.
  destruct (store !! (prefix +:+ pretty (generation c + 1))); [|done].
  rewrite eval_bind, Hf, eval_bind. done.
Qed.

Lemma claimAt_own store g self now :
  1 ≤ g → (1 ≤ String.length self ≤ 256)%nat →
  claimAt (<[prefix +:+ pretty g := VClaim (MkClaim run susp g self now)]> store) g =
    Some (MkClaim run susp g self now).
Proof.
  intros Hg Hl. unfold claimAt. rewrite lookup_insert_eq. unfold decodeContinuationClaim, ContinuationClaimSchema.
  cbn [runId suspensionKey generation holder]. pose proof Hprefix as Hp.
  unfold continuationSuspensionPrefix, continuationRunPrefix in Hp.
  destruct (SUSPENSION_KEY susp); [|done]. cbn [negb] in Hp.
  destruct (PartitionKey.UUID run); [|done]. rewrite (proj2 (Z.leb_le 1 g)) by done.
  rewrite !(proj2 (Nat.leb_le _ _)) by lia. cbn [andb negb].
  by rewrite !bool_decide_true, Z.eqb_refl by done.
Qed.

Lemma claimAt_other store g g' v :
  1 ≤ g → 1 ≤ g' → g ≠ g' → claimAt (<[prefix +:+ pretty g := v]> store) g' = claimAt store g'.
Proof.
  intros Hg Hg' Hne. unfold claimAt. rewrite lookup_insert_ne; [done|]. intros E.
  apply Hne, (claimKey_inj run susp g g' (prefix +:+ pretty g)); [by apply claimKey_prefix|].
  rewrite E. by apply claimKey_prefix.
Qed.

Lemma acquired_is_current store self mode now current store' c :
  currentClaim store current → (1 ≤ String.length self ≤ 256)%nat →
  acquisition self mode now store current = (store', Acquired c) →
  isSafeInteger (generation c) = true → currentClaim store' (Some c).
Proof.
  intros Hc Hl. destruct current as [d|]; cbn [acquisition].
  - destruct Hc as (Hd & Hs & Hg & Habove). case_bool_decide; [intros [= <- <-]; done|].
    destruct (negb _); [done|]. case_match; [done|]. intros [= <- <-] Hsafe. cbn [currentClaim generation] in *.
    split_and!; [by apply claimAt_own; [lia|]|done|lia|]. intros g Hlt Hsg.
    rewrite claimAt_other by lia. apply Habove; [lia|done].
  - case_match; [done|]. intros [= <- <-] Hsafe. cbn [currentClaim generation] in *.
    split_and!; [by apply claimAt_own|done|lia|]. intros g Hlt Hsg. rewrite claimAt_other by lia.
    apply Hc; [lia|done].
Qed.

(** C27: A resume with no other at work on the suspension's claims ends as they
    say: with none that can be read it creates the first, with its own it has
    it, and another's it replaces by the next exactly when the mode and the
    holder's state allow; otherwise it is told who holds the suspension. The
    current claim is the highest that can be read, so a damaged record hides
    none below it; and whenever it acquires, its claim is the current one
    afterwards. *)
Theorem acquire_alone store self mode now :
  ∃ current, currentClaim store current ∧
    eval store (acquireContinuation self run susp mode now) =
      (let '(store', a) := acquisition self mode now store current in (store', inl a)) ∧
    ∀ store' c, acquisition self mode now store current = (store', Acquired c) →
      (1 ≤ String.length self ≤ 256)%nat → isSafeInteger (generation c) = true →
      currentClaim store' (Some c).
Proof.
  destruct (find_alone store) as (current & Hf & Hc). exists current.
  split; [done|]. split; [|by eauto using acquired_is_current].
  unfold acquireContinuation. rewrite eval_bind, Hf. destruct current as [c|].
  - apply eval_acquireOver; [done|]. by destruct Hc as (_ & _ & ? & _).
  - rewrite eval_bind, eval_create by lia. cbn [acquisition].
    destruct (store !! (prefix +:+ pretty 1)); [|done]. by rewrite eval_bind, Hf.
Qed.
End Alone.

(** ** Runs of a pool, call by call *)

Module Runs.
Section Runs.
Context (run susp : string).
#[local] Notation Store := (gmap string Value).
#[local] Notation Pool := (gmap string Process).

(** one call, answered; the answer on a holder is [Dead] when it stopped *)
Definition livenessOf (procs : Pool) (h : string) : HolderLiveness :=
  match procs !! h with
  | Some (MkProcess Stopped _) => Dead
  | Some _ => Alive
  | None => Unknown
  end.

Definition answered {A} (procs : Pool) (sp : Store * prog A) : Store * prog A :=
  let '(store, p) := sp in
  match p with
  | Ret _ | Die _ => sp
  | DoList prefix k => (store, k (Some (keysUnder store prefix)))
  | DoGet key k => (store, k (Some (store !! key)))
  | DoPutIfAbsent key v k =>
      match store !! key with
      | None => (<[key := v]> store, k (Some true))
      | Some _ => (store, k (Some false))
      end
  | DoDelete key k => (delete key store, k (Some tt))
  | DoLiveness h k => (store, k (Some (livenessOf procs h)))
  end.

Lemma livenessOf_gone procs h : livenessOf procs h = Dead → gone procs h.
Proof.
  unfold livenessOf, gone. intros H st Hst. rewrite Hst in H. by destruct st as [[] ?].
Qed.

Lemma elem_of_keysUnder store prefix key :
  key ∈ keysUnder store prefix ↔ startsWith key prefix = true ∧ is_Some (store !! key).
Proof.
  unfold keysUnder. rewrite list_elem_of_filter, list_elem_of_fmap. split.
  - intros [Hp ([k v] & -> & Hin%elem_of_map_to_list)]. eauto.
  - intros [Hp [v Hv]]. split; [done|]. exists (key, v). by rewrite elem_of_map_to_list.
Qed.

Lemma answered_call {A} procs store (p : prog A) :
  answered procs (store, p) = (store, p) ∨
  call procs store p (answered procs (store, p)).1 (answered procs (store, p)).2.
Proof.
  destruct p as [a|m|prefix k|key k|key v k|key k|h k]; cbn; [by left..|right|right|right|right|right].
  - constructor. intros key. apply elem_of_keysUnder.
  - constructor.
  - destruct (store !! key) eqn:E; constructor; [by eexists|done].
  - constructor.
  - constructor. apply livenessOf_gone.
Qed.

(** [n] calls of an acquiring process *)
Fixpoint acquireFor (n : nat) (h : string) (cfg : Store * Pool) : Store * Pool :=
  match n with
  | O => cfg
  | S n =>
      match cfg.2 !! h with
      | Some (MkProcess (Acquiring p) r) =>
          let '(store, p') := answered cfg.2 (cfg.1, p) in
          acquireFor n h (store, <[h := MkProcess (Acquiring p') r]> cfg.2)
      | _ => cfg
      end
  end.

Lemma acquireFor_run n h cfg : rtc (step run susp) cfg (acquireFor n h cfg).
Proof.
  revert cfg. induction n as [|n IH]; intros [store procs]; [done|]. cbn [acquireFor fst snd].
  destruct (procs !! h) as [[[|p| | |] r]|] eqn:E; try done.
  destruct (answered procs (store, p)) as [store' p'] eqn:Ea.
  destruct (answered_call procs store p) as [Es|Hcall].
  - rewrite Ea in Es. injection Es as -> ->. rewrite insert_id by done. apply IH.
  - rewrite Ea in Hcall. eapply rtc_l; [by eapply step_acquire|apply IH].
Qed.

Definition start (h : string) (cfg : Store * Pool) : Store * Pool :=
  match cfg.2 !! h with
  | Some (MkProcess Idle r) =>
      (cfg.1, <[h := MkProcess (Acquiring (acquireContinuation h run susp (Automatic true) 5)) r]> cfg.2)
  | _ => cfg
  end.

Lemma start_run h cfg : rtc (step run susp) cfg (start h cfg).
Proof.
  destruct cfg as [store procs]. unfold start. cbn [fst snd].
  destruct (procs !! h) as [[[] r]|] eqn:E; try done. apply rtc_once. by constructor.
Qed.

Definition finish (h : string) (cfg : Store * Pool) : Store * Pool :=
  match cfg.2 !! h with
  | Some (MkProcess (Acquiring (Ret (Acquired c))) r) => (cfg.1, <[h := MkProcess (Holding c) r]> cfg.2)
  | _ => cfg
  end.

Lemma finish_run h cfg : rtc (step run susp) cfg (finish h cfg).
Proof.
  destruct cfg as [store procs]. unfold finish. cbn [fst snd].
  destruct (procs !! h) as [[[|[[c|]| | | | | |]| | |] r]|] eqn:E; try done. apply rtc_once. by constructor.
Qed.

(** a holder releases its claim, with the call answered *)
Definition releaseNow (h : string) (cfg : Store * Pool) : Store * Pool :=
  match cfg.2 !! h with
  | Some (MkProcess (Holding c) r) =>
      let '(store, p) := answered cfg.2 (cfg.1, release c) in
      (store, <[h := MkProcess (Releasing p) true]> cfg.2)
  | _ => cfg
  end.

Lemma releaseNow_run h cfg : rtc (step run susp) cfg (releaseNow h cfg).
Proof.
  destruct cfg as [store procs]. unfold releaseNow. cbn [fst snd].
  destruct (procs !! h) as [[[| |c| |] r]|] eqn:E; try done.
  eapply rtc_l; [by eapply step_release|].
  set (procs' := <[h := MkProcess (Releasing (release c)) true]> procs).
  assert (Hsame : answered procs (store, release c) = answered procs' (store, release c)).
  { unfold release. by destruct (continuationClaimKey _ _ _). }
  rewrite Hsame. destruct (answered procs' (store, release c)) as [store' p'] eqn:Ea.
  destruct (answered_call procs' store (release c)) as [Es|Hcall].
  - rewrite Ea in Es. injection Es as -> ->. done.
  - rewrite Ea in Hcall. apply rtc_once.
    replace (<[h := MkProcess (Releasing p') true]> procs) with (<[h := MkProcess (Releasing p') true]> procs')
      by apply insert_insert_eq.
    eapply step_releasing; [apply lookup_insert_eq|done].
Qed.

Definition die (h : string) (cfg : Store * Pool) : Store * Pool :=
  match cfg.2 !! h with
  | Some (MkProcess _ r) => (cfg.1, <[h := MkProcess Stopped r]> cfg.2)
  | None => cfg
  end.
End Runs.

(** ** A suspension *)

Definition runA : string := "11111111-2222-4333-8444-555555555555".
Definition suspA : string := "0123456789abcdef0123456789abcdef0123456789abcdef0123456789abcdef".
Definition prefixA : string := "continuations/" +:+ runA +:+ "/" +:+ suspA +:+ "/".
Definition key1 : string := prefixA +:+ "1".
Definition claimOf (g : Z) (h : string) : ContinuationClaim := MkClaim runA suspA g h 5.

Definition serveA : string := serveHolder "a".
Definition serveB : string := serveHolder "b".
Definition serveC : string := serveHolder "c".
Definition idle : gmap string Process :=
  <[serveA := MkProcess Idle false]> (<[serveB := MkProcess Idle false]> (<[serveC := MkProcess Idle false]> ∅)).

Lemma idle_initial : initial runA suspA (∅, idle).
Proof.
  split; [intros g key _; cbn [fst]; by rewrite lookup_empty|]. cbn. unfold idle. intros h st.
  intros H. repeat (apply lookup_insert_Some in H as [[_ <-]|[_ H]]; [done|]). by rewrite lookup_empty in H.
Qed.

(** [serveA] acquires alone: a list, and a create *)
Definition heldByA : gmap string Value * gmap string Process :=
  finish serveA (acquireFor 2 serveA (start runA suspA serveA (∅, idle))).

(** [serveB] reads that claim; [serveA] releases it and dies; [serveC] creates
    the first claim again; [serveB] finds [serveA] dead and creates the second *)
Definition beforeDeath (cfg : gmap string Value * gmap string Process) :
    gmap string Value * gmap string Process :=
  releaseNow serveA (acquireFor 2 serveB (start runA suspA serveB cfg)).

Definition afterDeath (cfg : gmap string Value * gmap string Process) :
    gmap string Value * gmap string Process :=
  finish serveB (acquireFor 2 serveB (finish serveC (acquireFor 2 serveC (start runA suspA serveC cfg)))).

Definition heldTwice : gmap string Value * gmap string Process :=
  afterDeath (die serveA (beforeDeath heldByA)).

(** runs of several moves, from the last one back *)
Ltac run_back :=
  repeat first
    [ reflexivity
    | etransitivity;
        [|first [apply finish_run | apply acquireFor_run | apply start_run | apply releaseNow_run]] ].

Lemma heldByA_run : rtc (step runA suspA) (∅, idle) heldByA.
Proof. unfold heldByA. run_back. Qed.

Lemma beforeDeath_run cfg : rtc (step runA suspA) cfg (beforeDeath cfg).
Proof. unfold beforeDeath. run_back. Qed.

Lemma afterDeath_run cfg : rtc (step runA suspA) cfg (afterDeath cfg).
Proof. unfold afterDeath. run_back. Qed.

(** a step of a pool in which a process may die after it began to release *)
Inductive stepOrDie : gmap string Value * gmap string Process → gmap string Value * gmap string Process → Prop :=
| sd_step cfg cfg' : step runA suspA cfg cfg' → stepOrDie cfg cfg'
| sd_die cfg h : stepOrDie cfg (die h cfg).

Lemma steps_or_die cfg cfg' : rtc (step runA suspA) cfg cfg' → rtc stepOrDie cfg cfg'.
Proof. induction 1; [done|]. eapply rtc_l; [by apply sd_step|done]. Qed.

(** the proviso of [one_live_holder] is needed: were a process to die after it
    released, two others could both hold the suspension *)
Example released_and_dead_lets_two_in :
  rtc stepOrDie (∅, idle) heldTwice ∧
  heldTwice.2 !! serveB = Some (MkProcess (Holding (claimOf 2 serveB)) false) ∧
  heldTwice.2 !! serveC = Some (MkProcess (Holding (claimOf 1 serveC)) false).
Proof.
  split; [|split; vm_compute; reflexivity]. unfold heldTwice.
  etransitivity; [apply steps_or_die, heldByA_run|]. generalize heldByA. intros cfg.
  etransitivity; [apply steps_or_die, beforeDeath_run|]. generalize (beforeDeath cfg). intros cfg'.
  eapply rtc_l; [apply (sd_die _ serveA)|]. apply steps_or_die, afterDeath_run.
Qed.


(** with [serveA] dead, [serveB] takes its claim over *)
Lemma acquire_alone_witness :
  ∃ current, currentClaim runA suspA prefixA heldByA.1 current ∧
    eval (λ _, Dead) heldByA.1 (acquireContinuation serveB runA suspA (Automatic true) 5) =
      (let '(store', a) := acquisition (λ _, Dead) runA suspA prefixA serveB (Automatic true) 5 heldByA.1 current in
       (store', inl a)).
Proof.
  destruct (acquire_alone (λ _, Dead) runA suspA prefixA eq_refl heldByA.1 serveB (Automatic true) 5)
    as (current & Hc & He & _).
  exists current. split; [exact Hc|exact He].
Defined.

Example takes_over :
  (eval (λ _, Dead) heldByA.1 (acquireContinuation serveB runA suspA (Automatic true) 5)).2 =
    inl (Acquired (claimOf 2 serveB)).
Proof. vm_compute. reflexivity. Qed.
End Runs.
End ContinuationAlone.
