(* ===== verification/JobRun.v ===== *)
(** * Job runs

    The [JobRun] class of [src/src/domain/workflows/workflow_run.ts] with the
    fan-out plan it records, over the step runs of [StepRun] and the plans of
    [Remote]. A job run holds its steps as a list of step runs; a method that
    finds a step by name and then changes it changes the first step of that
    name. The clock is read once by each call. *)

From S2P Require Import Prelude JsString TriggerCondition StepRun Remote.

Module JobRun.

(** ** Fan-out plans as a job run records them *)

Record FanOutMemberRecord : Type := MkMemberRecord {
  m_worker : string;
  m_instanceUuid : string;
  m_disposition : FanOut.FanOutDisposition;
  m_reason : option FanOut.FanOutReason;
  m_batch : option nat;
}.

Definition fanOutLaneName (jobName worker : string) : string :=
  jobName +:+ "[" +:+ worker +:+ "]".

Section job_run.
Context `{SignalWaits}.

Record FanOutLaneRun : Type := MkLane {
  l_name : string;
  l_worker : string;
  l_instanceUuid : string;
  l_steps : list StepRun.t;
}.

Record FanOutPlanRecord : Type := MkPlan {
  members : list FanOutMemberRecord;
  plannedLanes : Z;
  maxFailures : option Z;
  batches : list (list string);
  lanes : list FanOutLaneRun;
}.

Record FanOutLaneData : Type := MkLaneData {
  ld_name : string;
  ld_worker : string;
  ld_instanceUuid : string;
  ld_steps : list StepRun.StepRunData;
}.

Record FanOutPlanData : Type := MkPlanData {
  pd_members : list FanOutMemberRecord;
  pd_plannedLanes : Z;
  pd_maxFailures : option Z;
  pd_batches : list (list string);
  pd_lanes : list FanOutLaneData;
}.

Record JobRunData : Type := MkData {
  d_jobName : string;
  d_status : RunStatus.t;
  d_startedAt : option Z;
  d_completedAt : option Z;
  d_steps : list StepRun.StepRunData;
  d_fanOutPlan : option FanOutPlanData;
}.

(** ** The job run *)

Record t : Type := Mk {
  jobName : string;
  status : RunStatus.t;
  startedAt : option Z;
  completedAt : option Z;
  steps : list StepRun.t;
  fanOutPlan : option FanOutPlanRecord;
  forEachMappings : gmap string (list string);
}.

#[global] Instance t_eta : Eta t := λ r,
  Mk (jobName r) (status r) (startedAt r) (completedAt r) (steps r) (fanOutPlan r)
     (forEachMappings r).

Definition pending (name : string) (stepNames : list string) : t :=
  Mk name RunStatus.pending None None ((λ n, StepRun.pending n None) <$> stepNames) None ∅.

Definition laneFromData (isUuid : string → bool) (d : FanOutLaneData) : FanOutLaneRun :=
  MkLane (ld_name d) (ld_worker d) (ld_instanceUuid d) (StepRun.fromData isUuid <$> ld_steps d).

Definition planFromData (isUuid : string → bool) (d : FanOutPlanData) : FanOutPlanRecord :=
  MkPlan (pd_members d) (pd_plannedLanes d) (pd_maxFailures d) (pd_batches d)
    (laneFromData isUuid <$> pd_lanes d).

Definition fromData (isUuid : string → bool) (d : JobRunData) : t :=
  Mk (d_jobName d) (d_status d) (d_startedAt d) (d_completedAt d)
    (StepRun.fromData isUuid <$> d_steps d) (planFromData isUuid <$> d_fanOutPlan d) ∅.

Definition laneToData (l : FanOutLaneRun) : FanOutLaneData :=
  MkLaneData (l_name l) (l_worker l) (l_instanceUuid l) (StepRun.toData <$> l_steps l).

Definition planToData (p : FanOutPlanRecord) : FanOutPlanData :=
  MkPlanData (members p) (plannedLanes p) (maxFailures p) (batches p) (laneToData <$> lanes p).

Definition toData (j : t) : JobRunData :=
  MkData (jobName j) (status j) (startedAt j) (completedAt j) (StepRun.toData <$> steps j)
    (planToData <$> fanOutPlan j).

(** *** Recording a fan-out plan *)

(** [for (const worker of batch) …] *)
Fixpoint indexBatch (job : string) (batch : list string) (index : nat) (batchOf : gmap string nat)
    : result (gmap string nat) :=
  match batch with
  | [] => Ok batchOf
  | worker :: rest =>
      match batchOf !! worker with
      | Some _ => Throw ("Fan-out plan for job '" +:+ job +:+ "' lists '" +:+ worker +:+
                         "' in more than one batch")
      | None => indexBatch job rest index (<[worker := index]> batchOf)
      end
  end.

(** [batches.forEach((batch, index) => …)] *)
Fixpoint indexBatches (job : string) (bs : list (list string)) (index : nat)
    (batchOf : gmap string nat) : result (gmap string nat) :=
  match bs with
  | [] => Ok batchOf
  | batch :: rest =>
      batchOf ← indexBatch job batch index batchOf;
      indexBatches job rest (S index) batchOf
  end.

Fixpoint checkMembers (job : string) (ms : list FanOut.FanOutMember) (workers : list string)
    : result () :=
  match ms with
  | [] => Ok tt
  | m :: rest =>
      if bool_decide (FanOut.worker m ∈ workers)
      then Throw ("Fan-out plan for job '" +:+ job +:+ "' lists '" +:+ FanOut.worker m +:+
                  "' more than once")
      else checkMembers job rest (set_add (FanOut.worker m) workers)
  end.

Fixpoint checkLanes (job : string) (laned : list FanOut.FanOutMember) (batchOf : gmap string nat)
    : result () :=
  match laned with
  | [] => Ok tt
  | m :: rest =>
      match batchOf !! FanOut.worker m with
      | None => Throw ("Fan-out plan for job '" +:+ job +:+ "' has lane '" +:+ FanOut.worker m +:+
                       "' in no batch")
      | Some _ => checkLanes job rest batchOf
      end
  end.

(** [laned.get(worker)]; the workers of [laned] are distinct when it is read *)
Definition lanedGet (laned : list FanOut.FanOutMember) (worker : string)
    : option FanOut.FanOutMember :=
  List.find (λ m, bool_decide (FanOut.worker m = worker)) laned.

Definition memberRecord (batchOf : gmap string nat) (m : FanOut.FanOutMember) : FanOutMemberRecord :=
  MkMemberRecord (FanOut.worker m) (FanOut.instanceUuid m) (FanOut.disposition m) (FanOut.reason m)
    (if FanOut.hasLane m then batchOf !! FanOut.worker m else None).

Definition laneRun (job : string) (laned : list FanOut.FanOutMember) (stepNames : list string)
    (worker : string) : option FanOutLaneRun :=
  m ← lanedGet laned worker;
  Some (MkLane (fanOutLaneName job worker) worker (FanOut.instanceUuid m)
          ((λ n, StepRun.pending n None) <$> stepNames)).

Definition recordFanOutPlan (ms : list FanOut.FanOutMember) (planned : Z) (budget : option Z)
    (bs : list (list string)) (stepNames : list string) (j : t) : result t :=
  match fanOutPlan j with
  | Some _ => Throw ("Job '" +:+ jobName j +:+ "' already holds a fan-out plan")
  | None =>
      batchOf ← indexBatches (jobName j) bs 0 ∅;
      _ ← checkMembers (jobName j) ms [];
      let laned := List.filter FanOut.hasLane ms in
      _ ← checkLanes (jobName j) laned batchOf;
      Ok (j <| fanOutPlan :=
            Some (MkPlan (memberRecord batchOf <$> ms) planned budget bs
                    (omap (laneRun (jobName j) laned stepNames) (mjoin bs))) |>)
  end.

(** *** Steps by name *)

Definition isNamed (name : string) (s : StepRun.t) : bool := bool_decide (StepRun.stepName s = name).

Definition getStep (name : string) (j : t) : option StepRun.t := List.find (isNamed name) (steps j).

(** changing the step [getStep] finds *)
Fixpoint updateFirst (name : string) (f : StepRun.t → StepRun.t) (l : list StepRun.t)
    : list StepRun.t :=
  match l with
  | [] => []
  | s :: l => if isNamed name s then f s :: l else s :: updateFirst name f l
  end.

(** the statuses of the steps [names] names, when the job has all of them *)
Definition statusesOf (names : list string) (j : t) : option (list RunStatus.t) :=
  mapM (λ name, StepRun.status <$> getStep name j) names.

Definition aggregate (statuses : list RunStatus.t) : RunStatus.t :=
  if existsb RunStatus.isUnfinishedStatus statuses then RunStatus.running
  else if existsb (λ s, bool_decide (s = RunStatus.unknown)) statuses then RunStatus.unknown
  else if existsb (λ s, bool_decide (s = RunStatus.failed)) statuses then RunStatus.failed
  else if forallb (λ s, bool_decide (s = RunStatus.succeeded)) statuses then RunStatus.succeeded
  else if forallb (λ s, bool_decide (s = RunStatus.skipped)) statuses then RunStatus.skipped
  else RunStatus.succeeded.

#[global] Instance getStatus_ : TriggerEvaluationContext t := λ j ref,
  match getStep ref j with
  | Some s => Some (StepRun.status s)
  | None =>
      match forEachMappings j !! ref with
      | None | Some [] => None
      | Some names => aggregate <$> statusesOf names j
      end
  end.

(** *** Expansion of forEach steps *)

Definition addExpandedStep (name : string) (j : t) : t :=
  match getStep name j with
  | Some _ => j
  | None => j <| steps := steps j ++ [StepRun.pending name None] |>
  end.

(** the steps before the first step named [template], and those after it *)
Fixpoint splitAt (template : string) (l : list StepRun.t)
    : option (list StepRun.t * list StepRun.t) :=
  match l with
  | [] => None
  | s :: l =>
      if isNamed template s then Some ([], l)
      else '(before, after) ← splitAt template l; Some (s :: before, after)
  end.

Definition replaceExpandedSteps (template : string) (expanded : list string) (j : t) : t :=
  match splitAt template (steps j) with
  | None => j
  | Some (before, after) =>
      let existing := StepRun.stepName <$> steps j in
      let insertions :=
        (λ name, StepRun.pending name (Some template)) <$>
          List.filter (λ name, negb (bool_decide (name ∈ existing))) expanded in
      j <| steps := before ++ insertions ++ after |>
  end.

Definition registerForEachExpansion (template : string) (expanded : list string) (j : t) : t :=
  j <| forEachMappings := <[template := expanded]> (forEachMappings j) |>.

Definition hasForEachExpansion (template : string) (j : t) : bool :=
  match forEachMappings j !! template with Some _ => true | None => false end.

Definition isGuarded (s : StepRun.t) : bool :=
  match StepRun.skipReason s with Some (StepRun.guarded _) => true | _ => false end.

Definition skippedByGuard (ref : string) (j : t) : bool :=
  let names :=
    match getStep ref j with
    | Some _ => [ref]
    | None => default [] (forEachMappings j !! ref)
    end in
  (0 <? length names) &&
  forallb (λ name, match getStep name j with Some s => isGuarded s | None => false end) names.

(** *** Transitions *)

Definition resetToPending (j : t) : t :=
  j <| status := RunStatus.pending |> <| startedAt := None |> <| completedAt := None |>.

Definition start (at_ : Z) (j : t) : t :=
  j <| status := RunStatus.running |> <| startedAt := Some at_ |>.

Definition succeed (now : Z) (j : t) : t :=
  j <| status := RunStatus.succeeded |> <| completedAt := Some now |>.

Definition fail (now : Z) (j : t) : t :=
  j <| status := RunStatus.failed |> <| completedAt := Some now |>.

Definition markUnknown (now : Z) (j : t) : t :=
  j <| status := RunStatus.unknown |> <| completedAt := Some now |>.

Definition isPending (s : StepRun.t) : bool := bool_decide (StepRun.status s = RunStatus.pending).

Definition skip (now : Z) (j : t) : t :=
  j <| status := RunStatus.skipped |> <| completedAt := Some now |>
    <| steps := (λ s, if isPending s then StepRun.skip now (Some StepRun.job_skipped) s else s)
                  <$> steps j |>.

(** the job run left, and the steps it failed *)
Definition failStrandedResetSteps (now : Z) (j : t) : t * list StepRun.t :=
  (j <| steps := (λ s, if StepRun.resetByResume s then StepRun.failStranded now s else s)
                   <$> steps j |>,
   StepRun.failStranded now <$> List.filter StepRun.resetByResume (steps j)).

Fixpoint cancelPendingSteps (now : Z) (names : list string) (j : t) : t * list StepRun.t :=
  match names with
  | [] => (j, [])
  | name :: rest =>
      match getStep name j with
      | Some s =>
          if isPending s then
            let j := j <| steps := updateFirst name (StepRun.cancelUnstarted now) (steps j) |> in
            let '(j, cancelled) := cancelPendingSteps now rest j in
            (j, StepRun.cancelUnstarted now s :: cancelled)
          else cancelPendingSteps now rest j
      | None => cancelPendingSteps now rest j
      end
  end.

Definition skipNotStarted (now : Z) (j : t) : t :=
  skip now
    (j <| steps := (λ s, if isPending s then StepRun.skipUnstarted now StepRun.job_skipped s else s)
                     <$> steps j |>).

Definition hasStep (st : RunStatus.t) (j : t) : bool :=
  existsb (λ s, bool_decide (StepRun.status s = st)) (steps j).

Definition hasUnfinishedStep (j : t) : bool :=
  existsb (λ s, RunStatus.isUnfinishedStatus (StepRun.status s)) (steps j).

Definition settleNotStarted (now : Z) (j : t) : t :=
  if negb (bool_decide (status j = RunStatus.pending)) then j
  else if hasStep RunStatus.pending j then j
  else if hasStep RunStatus.failed j then fail now j
  else skip now j.

Definition settleNotResumed (now : Z) (j : t) : t :=
  if negb (bool_decide (status j = RunStatus.running)) then j
  else if existsb (λ s, bool_decide (StepRun.status s = RunStatus.failed) &&
                        negb (StepRun.allowedFailure s)) (steps j) then fail now j
  else if hasUnfinishedStep j then markUnknown now j
  else succeed now j.

Definition holdsAbortedWork (j : t) : bool :=
  existsb StepRun.settledByAbort (steps j) ||
  (bool_decide (status j = RunStatus.unknown) && hasStep RunStatus.pending j).

(** ** Steps by name *)

Lemma getStep_Some name j s :
  getStep name j = Some s → s ∈ steps j ∧ StepRun.stepName s = name.
Proof. unfold getStep, isNamed. intros [? ?]%find_Some_elem_of. by split_bools. Qed.

Lemma getStep_None name j : getStep name j = None ↔ name ∉ StepRun.stepName <$> steps j.
Proof.
  unfold getStep, isNamed. rewrite find_None_elem_of, list_elem_of_fmap. split.
  - intros Hall (s & -> & Hs). specialize (Hall s Hs). by rewrite bool_decide_eq_false in Hall.
  - intros Hn s Hs. apply bool_decide_eq_false. intros <-. eauto.
Qed.

Lemma updateFirst_names name f l :
  (∀ s, StepRun.stepName (f s) = StepRun.stepName s) →
  StepRun.stepName <$> updateFirst name f l = StepRun.stepName <$> l.
Proof.
  intros Hf. induction l as [|s l IH]; simpl; [done|].
  destruct (isNamed name s); csimpl; by rewrite ?Hf, ?IH.
Qed.

(** ** Conditions on a forEach step *)

Lemma statusesOf_Some names j sts :
  statusesOf names j = Some sts ↔
  Forall2 (λ name st, ∃ s, getStep name j = Some s ∧ StepRun.status s = st) names sts.
Proof.
  unfold statusesOf. rewrite mapM_Some.
  split; intros HF; (eapply Forall2_impl; [exact HF|]); intros n st; rewrite fmap_Some; naive_solver.
Qed.

(** every named step is there, with a status [P] accepts *)
Definition allSteps (P : RunStatus.t → Prop) (names : list string) (j : t) : Prop :=
  ∀ n, n ∈ names → ∃ s, getStep n j = Some s ∧ P (StepRun.status s).

Definition someStep (P : RunStatus.t → Prop) (names : list string) (j : t) : Prop :=
  ∃ n s, n ∈ names ∧ getStep n j = Some s ∧ P (StepRun.status s).

Lemma allSteps_statuses P names j :
  allSteps P names j ↔ ∃ sts, statusesOf names j = Some sts ∧ Forall P sts.
Proof.
  setoid_rewrite statusesOf_Some. unfold allSteps. split.
  - induction names as [|n names IH]; intros Hall; [exists []; by repeat constructor|].
    destruct (Hall n) as (s & Hs & HP); [set_solver|].
    destruct IH as (sts & HF & HPs); [set_solver|].
    exists (StepRun.status s :: sts). split; constructor; eauto.
  - intros (sts & HF & HP). induction HF as [|n st names sts (s & Hs & <-) HF IH]; [set_solver|].
    inversion_clear HP. intros n'. rewrite elem_of_cons. intros [->|Hn]; eauto.
Qed.

Lemma someStep_statuses P names j sts :
  statusesOf names j = Some sts → someStep P names j ↔ Exists P sts.
Proof.
  rewrite statusesOf_Some. unfold someStep. intros HF.
  induction HF as [|n st names sts (s & Hs & <-) HF IH].
  - rewrite Exists_nil. set_solver.
  - rewrite Exists_cons, <-IH. setoid_rewrite elem_of_cons. split.
    + intros (n' & s' & [->|Hn'] & Hs' & HP); [left; congruence|right; eauto 6].
    + intros [HP|(n' & s' & ? & ? & ?)]; eauto 8.
Qed.

(** a status as [aggregate] looks at it *)
Lemma existsb_Exists {A} (f : A → bool) (P : A → Prop) l :
  (∀ x, f x = true ↔ P x) → existsb f l = true ↔ Exists P l.
Proof.
  intros Hf. rewrite existsb_elem_of, Exists_exists. by setoid_rewrite Hf.
Qed.

Lemma existsb_not_Exists {A} (f : A → bool) (P : A → Prop) l :
  (∀ x, f x = true ↔ P x) → existsb f l = false ↔ Forall (λ x, ¬ P x) l.
Proof.
  intros Hf. rewrite existsb_false_elem_of, Forall_forall.
  by setoid_rewrite <-Hf; setoid_rewrite not_true_iff_false.
Qed.

Lemma forallb_Forall {A} (f : A → bool) (P : A → Prop) l :
  (∀ x, f x = true ↔ P x) → forallb f l = true ↔ Forall P l.
Proof. intros Hf. rewrite forallb_elem_of, Forall_forall. by setoid_rewrite Hf. Qed.

Definition finished (s : RunStatus.t) : Prop := RunStatus.isUnfinishedStatus s = false.

Definition passed (s : RunStatus.t) : Prop := s = RunStatus.succeeded ∨ s = RunStatus.skipped.

Definition known (s : RunStatus.t) : Prop := finished s ∧ s ≠ RunStatus.unknown.

Lemma known_passed s : known s → s ≠ RunStatus.failed → passed s.
Proof. unfold known, finished, passed. destruct s; simpl; naive_solver. Qed.

Lemma passed_known s : passed s → known s ∧ s ≠ RunStatus.failed.
Proof. unfold known, finished, passed. destruct s; simpl; naive_solver. Qed.

(** the three ways the steps of a template settle *)
Lemma aggregate_spec sts :
  sts ≠ [] →
  (aggregate sts = RunStatus.succeeded ↔
     Forall passed sts ∧ Exists (λ s, s = RunStatus.succeeded) sts) ∧
  (aggregate sts = RunStatus.failed ↔
     Forall known sts ∧ Exists (λ s, s = RunStatus.failed) sts) ∧
  (aggregate sts = RunStatus.skipped ↔ Forall (λ s, s = RunStatus.skipped) sts).
Proof.
  intros Hne. unfold aggregate.
  assert (Forall known sts ↔
    existsb RunStatus.isUnfinishedStatus sts = false ∧
    existsb (λ s, bool_decide (s = RunStatus.unknown)) sts = false) as Hk.
  { rewrite (existsb_not_Exists _ (λ s, ¬ finished s));
      [|intros s; unfold finished; destruct (RunStatus.isUnfinishedStatus s); naive_solver].
    rewrite (existsb_not_Exists _ (λ s, s = RunStatus.unknown))
      by (intros; apply bool_decide_eq_true).
    rewrite <-Forall_and. apply Forall_iff. intros s. unfold known, finished.
    destruct (RunStatus.isUnfinishedStatus s); naive_solver. }
  assert (Forall passed sts ↔ Forall known sts ∧
    existsb (λ s, bool_decide (s = RunStatus.failed)) sts = false) as Hp.
  { rewrite (existsb_not_Exists _ (λ s, s = RunStatus.failed))
      by (intros; apply bool_decide_eq_true).
    rewrite <-Forall_and. apply Forall_iff. intros s.
    split; [apply passed_known|intros [? ?]; by apply known_passed]. }
  assert (Forall (λ s, s = RunStatus.skipped) sts → Forall passed sts) as Hsp
    by (intros HF; eapply Forall_impl; [exact HF|]; intros ? ->; by right).
  assert (Forall passed sts → ¬ Forall (λ s, s = RunStatus.skipped) sts →
          Exists (λ s, s = RunStatus.succeeded) sts) as Hmix.
  { intros HF Hn. apply not_Forall_Exists in Hn; [|apply _]. apply Exists_exists in Hn as (s & Hs & Hns).
    apply Exists_exists. exists s. split; [done|]. rewrite Forall_forall in HF.
    by destruct (HF s Hs). }
  assert (Exists (λ s, s = RunStatus.succeeded) sts → ¬ Forall (λ s, s = RunStatus.skipped) sts) as Hns.
  { rewrite Exists_exists, Forall_forall. intros (s & Hs & ->) Hall. by specialize (Hall _ Hs). }
  pose proof (existsb_Exists (λ s, bool_decide (s = RunStatus.failed)) _ sts
    (λ s, bool_decide_eq_true (s = RunStatus.failed))) as Hf.
  pose proof (forallb_Forall (λ s, bool_decide (s = RunStatus.succeeded)) _ sts
    (λ s, bool_decide_eq_true (s = RunStatus.succeeded))) as Hsu.
  pose proof (forallb_Forall (λ s, bool_decide (s = RunStatus.skipped)) _ sts
    (λ s, bool_decide_eq_true (s = RunStatus.skipped))) as Hsk.
  assert (Forall (λ s, s = RunStatus.succeeded) sts → Exists (λ s, s = RunStatus.succeeded) sts) as Hall.
  { destruct sts; [done|]. inversion_clear 1. by left. }
  destruct (existsb RunStatus.isUnfinishedStatus sts); [naive_solver|].
  destruct (existsb (λ s, bool_decide (s = RunStatus.unknown)) sts); [naive_solver|].
  destruct (existsb (λ s, bool_decide (s = RunStatus.failed)) sts); [naive_solver|].
  destruct (forallb (λ s, bool_decide (s = RunStatus.succeeded)) sts); [naive_solver|].
  destruct (forallb (λ s, bool_decide (s = RunStatus.skipped)) sts); naive_solver.
Qed.


(** ** Fan-out plans *)

Lemma indexBatch_ok job batch i m :
  NoDup batch → (∀ w, w ∈ batch → m !! w = None) →
  ∃ m', indexBatch job batch i m = Ok m' ∧
    (∀ w, w ∈ batch → m' !! w = Some i) ∧ (∀ w, w ∉ batch → m' !! w = m !! w).
Proof.
  revert m. induction batch as [|w ws IH]; intros m Hnd Hm; simpl.
  { exists m. set_solver. }
  apply NoDup_cons in Hnd as [Hw Hnd]. rewrite Hm by set_solver.
  destruct (IH (<[w := i]> m) Hnd) as (m' & E & Hin & Hout).
  { intros w' Hw'. rewrite lookup_insert_ne by set_solver. apply Hm. set_solver. }
  exists m'. split_and!; [done| |].
  - intros w' [->|Hw']%elem_of_cons; [|by apply Hin].
    rewrite Hout by done. apply lookup_insert_eq.
  - intros w' Hw'. rewrite Hout by set_solver. apply lookup_insert_ne. set_solver.
Qed.

Lemma indexBatches_ok job bs i m :
  NoDup (mjoin bs) → (∀ w, w ∈ mjoin bs → m !! w = None) →
  ∃ m', indexBatches job bs i m = Ok m' ∧
    (∀ k b w, bs !! k = Some b → w ∈ b → m' !! w = Some (i + k)) ∧
    (∀ w, w ∉ mjoin bs → m' !! w = m !! w).
Proof.
  revert i m. induction bs as [|b bs IH]; intros i m; simpl.
  { intros _ _. exists m. split_and!; [done|intros ???; by rewrite lookup_nil|done]. }
  intros (Hb & Hdisj & Hbs)%NoDup_app Hm.
  destruct (indexBatch_ok job b i m Hb) as (m1 & E1 & Hin1 & Hout1); [set_solver|].
  destruct (IH (S i) m1 Hbs) as (m2 & E2 & Hin2 & Hout2).
  { intros w Hw. rewrite Hout1 by (intros Hwb; by apply (Hdisj w)). apply Hm. set_solver. }
  exists m2. split_and!.
  - rewrite E1. exact E2.
  - intros [|k] b' w Hb' Hw; simpl in Hb'.
    + simplify_eq. rewrite Hout2 by (by apply Hdisj). rewrite Nat.add_0_r. by apply Hin1.
    + rewrite (Hin2 k b' w Hb' Hw). f_equal. lia.
  - intros w Hw. rewrite Hout2 by set_solver. apply Hout1. set_solver.
Qed.

Lemma checkMembers_ok job ms seen :
  NoDup (FanOut.worker <$> ms) → (∀ w, w ∈ FanOut.worker <$> ms → w ∉ seen) →
  checkMembers job ms seen = Ok tt.
Proof.
  revert seen. induction ms as [|m ms IH]; intros seen; csimpl; [done|].
  intros [Hm Hnd]%NoDup_cons Hseen. rewrite bool_decide_eq_false_2 by set_solver.
  apply IH; [done|]. intros w Hw. rewrite elem_of_set_add. set_solver.
Qed.

Lemma checkLanes_ok job laned batchOf :
  (∀ m, m ∈ laned → is_Some (batchOf !! FanOut.worker m)) → checkLanes job laned batchOf = Ok tt.
Proof.
  induction laned as [|m ms IH]; intros Hall; simpl; [done|].
  destruct (Hall m) as [i ->]; [set_solver|]. apply IH. set_solver.
Qed.

Lemma lanedGet_Some laned w :
  w ∈ FanOut.worker <$> laned → ∃ m, lanedGet laned w = Some m ∧ m ∈ laned ∧ FanOut.worker m = w.
Proof.
  unfold lanedGet. intros (m & -> & Hm)%list_elem_of_fmap.
  destruct (List.find _ laned) as [m'|] eqn:E.
  - apply find_Some_elem_of in E as [? ?]. split_bools. eauto.
  - rewrite find_None_elem_of in E. specialize (E m Hm). by split_bools.
Qed.

Lemma lanes_workers job laned stepNames (ws : list string) :
  (∀ w, w ∈ ws → w ∈ FanOut.worker <$> laned) →
  l_worker <$> omap (laneRun job laned stepNames) ws = ws.
Proof.
  induction ws as [|w ws IH]; intros Hall; [done|].
  destruct (lanedGet_Some laned w) as (m & Em & _); [set_solver|].
  cbn [omap list_omap]. unfold laneRun at 1. rewrite Em. csimpl. f_equal. apply IH. set_solver.
Qed.

(** A job run takes the plan a fan-out makes. The members of a planned
    fan-out and the batches of its rollout are recorded without error: the lanes
    of the record are the workers of the batches in the order they are to start,
    as many as planned, every step of every lane pending, and each member with a
    lane carries the batch that holds it. A second plan is refused. *)
Lemma recordFanOutPlan_takes_plans (selector : FanOut.FanOutSelector) (policy : FanOut.FanOutPolicy)
    (pool : list Scheduler.PoolWorker) (ms : list FanOut.FanOutMember) (planned : Z)
    (budget : option Z) (sizes : option (list FanOut.Size)) (bs : list (list string))
    (stepNames : list string) (j : t) :
  Scheduler.planFanOut selector policy pool = Ok (FanOut.planned ms planned budget) →
  sizes ≠ Some [] → Rollout.planBatches ms sizes = Ok bs → fanOutPlan j = None →
  ∃ plan, let j' := j <| fanOutPlan := Some plan |> in
    recordFanOutPlan ms planned budget bs stepNames j = Ok j' ∧
    l_worker <$> lanes plan = mjoin bs ∧ Z.of_nat (length (lanes plan)) = planned ∧
    (∀ l, l ∈ lanes plan → StepRun.stepName <$> l_steps l = stepNames ∧
       Forall (λ s, StepRun.status s = RunStatus.pending) (l_steps l)) ∧
    (∀ i m r, ms !! i = Some m → members plan !! i = Some r →
       m_worker r = FanOut.worker m ∧
       if FanOut.hasLane m then ∃ k b, m_batch r = Some k ∧ bs !! k = Some b ∧ FanOut.worker m ∈ b
       else m_batch r = None) ∧
    is_ok (recordFanOutPlan ms planned budget bs stepNames j') = false.
Proof.
  intros Hp Hs Hb Hj. destruct (Scheduler.planFanOut_planned _ _ _ _ _ _ Hp) as (Hnd & Hlanes & _).
  destruct (Rollout.planBatches_lanes _ _ _ Hs Hb) as [E _].
  pose proof (Rollout.lanesOf_NoDup ms Hnd) as Hnb. rewrite <-E in Hnb.
  destruct (indexBatches_ok (jobName j) bs 0 ∅ Hnb) as (batchOf & Eb & Hin & _).
  { intros w _. apply lookup_empty. }
  assert (Hbatch : ∀ m, m ∈ ms → FanOut.hasLane m = true →
    ∃ k b, batchOf !! FanOut.worker m = Some k ∧ bs !! k = Some b ∧ FanOut.worker m ∈ b).
  { intros m Hm Hl. assert (FanOut.worker m ∈ mjoin bs) as Hw.
    { rewrite E. apply Rollout.elem_of_lanesOf. eauto. }
    apply list_elem_of_join in Hw as (b & Hw & [k Hk]%list_elem_of_lookup).
    exists k, b. split_and!; [|done|done]. by eapply Hin in Hw. }
  set (laned := List.filter FanOut.hasLane ms).
  assert (Hws : l_worker <$> omap (laneRun (jobName j) laned stepNames) (mjoin bs) = mjoin bs).
  { apply lanes_workers. intros w. rewrite E, Rollout.elem_of_lanesOf. intros (m & Hm & Hl & <-).
    apply list_elem_of_fmap. exists m. split; [done|]. by apply elem_of_bfilter. }
  exists (MkPlan (memberRecord batchOf <$> ms) planned budget bs
            (omap (laneRun (jobName j) laned stepNames) (mjoin bs))).
  cbn zeta. split_and!.
  - unfold recordFanOutPlan. rewrite Hj, Eb. cbn [mbind result_bind].
    rewrite checkMembers_ok by (done || set_solver). cbn [mbind result_bind].
    rewrite checkLanes_ok; [reflexivity|]. intros m [Hm Hl]%elem_of_bfilter.
    destruct (Hbatch m Hm Hl) as (k & b & -> & _). eauto.
  - exact Hws.
  - rewrite <-(length_fmap l_worker). cbn [lanes]. rewrite Hws, E, Hlanes. f_equal.
    apply Rollout.lanesOf_length.
  - intros l. cbn [lanes]. intros (w & _ & Hw)%list_elem_of_omap. unfold laneRun in Hw.
    apply bind_Some in Hw as (m & _ & [= <-]). simpl. rewrite <-list_fmap_compose. split.
    + by rewrite list_fmap_id.
    + apply Forall_fmap, Forall_true. done.
  - intros i m r Hi Hr. simpl in Hr. rewrite list_lookup_fmap, Hi in Hr. simpl in Hr. simplify_eq.
    simpl. split; [done|]. destruct (FanOut.hasLane m) eqn:Hl; [|done].
    apply Hbatch; [by eapply list_elem_of_lookup_2|done].
  - done.
Qed.

End job_run.

Definition sampleJob : @t SampleWaits.sampleWaits := pending "deploy" ["copy"; "restart"].

Lemma recordFanOutPlan_takes_plans_witness :
  ∃ plan, recordFanOutPlan
    [FanOut.MkMember "a" "id-a" FanOut.dispatch None;
     FanOut.MkMember "b" "id-b" FanOut.waiting (Some FanOut.disconnected)]
    2 (Some 1%Z) [["a"]; ["b"]] ["copy"; "restart"] sampleJob =
    Ok (sampleJob <| fanOutPlan := Some plan |>) ∧ l_worker <$> lanes plan = ["a"; "b"].
Proof.
  destruct (recordFanOutPlan_takes_plans (FanOut.MkSelector None None) Scheduler.quarter
    [Scheduler.poolWorker "b" Scheduler.ws_disconnected; Scheduler.poolWorker "a" Scheduler.idle]
    [FanOut.MkMember "a" "id-a" FanOut.dispatch None;
     FanOut.MkMember "b" "id-b" FanOut.waiting (Some FanOut.disconnected)] 2 (Some 1%Z)
    (Some [FanOut.Count 1; FanOut.Percent "100%"]) [["a"]; ["b"]] ["copy"; "restart"] sampleJob)
    as (plan & H1 & H2 & _).
  - vm_compute. reflexivity.
  - discriminate.
  - vm_compute. reflexivity.
  - reflexivity.
  - exists plan. split; [exact H1|exact H2].
Defined.

Definition settledStep (name : string) (st : RunStatus.t) : @StepRun.t SampleWaits.sampleWaits :=
  StepRun.pending name None <| StepRun.status := st |>.

Definition expandedJob : @t SampleWaits.sampleWaits :=
  registerForEachExpansion "each" ["each-1"; "each-2"]
    (pending "job" [] <| steps := [settledStep "each-1" RunStatus.succeeded;
                                   settledStep "each-2" RunStatus.skipped] |>).


End JobRun.
