(* ===== verification/WorkflowRun.v ===== *)
(** * Workflow runs

    The [WorkflowRun] class of [src/src/domain/workflows/workflow_run.ts]: the
    record of one run of a workflow, its job runs, its owner across resumes, how
    it ends, is interrupted, recovered and resumed, and its stored form. A method
    is a function from the run, and the time it reads the clock, to the run it
    leaves. Fields the run only keeps for others (provenance, deferred
    expressions, written references) hold the value they are stored as. The
    sensitive values attached to a live run, and the masked and the persisted
    views made with them, are not part of the record. *)

From S2P Require Import Prelude JsString TriggerCondition StepRun JobRun.

Module WorkflowRun.

Inductive Status : Type :=
| pending | running | suspended | succeeded | failed | cancelled | interrupted.

#[global] Instance Status_eq_dec : EqDecision Status.
Proof. solve_decision. Defined.

Inductive PrincipalKind : Type := user | worker | service.

Record TokenBinding : Type := MkBinding {
  b_name : string;
  b_createdAt : string;
  b_principalId : string;
}.

Record TriggeringPrincipal : Type := MkPrincipal {
  tp_kind : PrincipalKind;
  tp_id : string;
  tp_tokenBinding : option TokenBinding;
  tp_localGroups : list string;
  tp_idpGroups : list string;
  tp_collectives : list string;
}.

Record RunStartKeyData : Type := MkStartKey {
  lookup_ : string;
  salt : string;
  fingerprint : string;
}.

Record RunPlan : Type := MkRunPlan {
  planFingerprint : string;
  evaluatedWorkflowId : option string;
  definitionFingerprint : option string;
}.

(** the process that drives a run; both fields are absent for a stored owner
    that had neither *)
Record Owner : Type := MkOwner {
  o_pid : option Z;
  o_instanceId : option string;
}.

#[global] Instance Owner_eq_dec : EqDecision Owner.
Proof. solve_decision. Defined.

(** a recorded start of a step, [step_start.ts] *)
Record StepStart : Type := MkStart {
  ss_workflowId : string;
  ss_runId : string;
  ss_jobName : string;
  ss_stepName : string;
  ss_startedAt : Z;
}.

Record StepRunRef : Type := MkRef { r_jobName : string; r_stepName : string }.

#[global] Instance StepRunRef_eq_dec : EqDecision StepRunRef.
Proof. solve_decision. Defined.

Record FailedStepRef : Type := MkFailed {
  f_jobName : string;
  f_stepName : string;
  f_forEachTemplate : option string;
  f_approvalRejected : bool;
  f_failureKind : option StepRun.StepFailureKind;
}.

(** [JSON.stringify([ref.jobName, ref.stepName])] *)
Definition stepRunKey (ref : StepRunRef) : string :=
  "[" +:+ JSON_stringify (r_jobName ref) +:+ "," +:+ JSON_stringify (r_stepName ref) +:+ "]".

Section workflow_run.
Context `{SignalWaits}.

Record t : Type := Mk {
  id : string;
  workflowId : string;
  workflowName : string;
  status : Status;
  startedAt : option Z;
  completedAt : option Z;
  jobs : list JobRun.t;
  logFile : option string;
  tags : gmap string string;
  workflowDataArtifacts : list StepRun.DataArtifactRef;
  inputs : list (string * JsValue);
  resumeInputs : list string;
  pid : option Z;
  initiatedBy : option string;
  instanceId : option string;
  triggerSource : option string;
  references : option (list (string * string));
  runPlan : option RunPlan;
  inheritedExpressions : list string;
  deferredExpressions : list JsValue;
  ownerBeforeResume : option Owner;
  writtenReferences : list JsValue;
  sensitiveFormat : option Z;
  parentRun : option (RunLink.t RunLink.ParentRunRef);
  triggeringPrincipal : option TriggeringPrincipal;
  allowedVaults : option (list string);
  recovered : bool;
  client : option string;
  inputsProvenance : option JsValue;
  persistedInputsProvenance : option JsValue;
  replayedEvaluatedCache : bool;
  resumedAt : option Z;
  startKey : option RunStartKeyData;
}.

#[global] Instance t_eta : Eta t := λ r,
  Mk (id r) (workflowId r) (workflowName r) (status r) (startedAt r) (completedAt r) (jobs r)
     (logFile r) (tags r) (workflowDataArtifacts r) (inputs r) (resumeInputs r) (pid r)
     (initiatedBy r) (instanceId r) (triggerSource r) (references r) (runPlan r)
     (inheritedExpressions r) (deferredExpressions r) (ownerBeforeResume r) (writtenReferences r)
     (sensitiveFormat r) (parentRun r) (triggeringPrincipal r) (allowedVaults r) (recovered r)
     (client r) (inputsProvenance r) (persistedInputsProvenance r) (replayedEvaluatedCache r)
     (resumedAt r) (startKey r).

(** [workflow.jobs] as the names [create] reads: each job with its steps *)
Definition create (runId wfId wfName : string) (wfJobs : list (string * list string))
    (tags : option (gmap string string)) (initiatedBy triggerSource client : option string) : t :=
  Mk runId wfId wfName pending None None ((λ '(n, ss), JobRun.pending n ss) <$> wfJobs) None
     (default ∅ tags) [] [] [] None initiatedBy None triggerSource None None [] [] None [] None None
     None None false client None None false None None.

(** ** Jobs and steps by name *)

Definition isJob (name : string) (j : JobRun.t) : bool := bool_decide (JobRun.jobName j = name).

Definition getJob (name : string) (r : t) : option JobRun.t := List.find (isJob name) (jobs r).

#[global] Instance getStatus_ : TriggerEvaluationContext t := λ r ref,
  JobRun.status <$> getJob ref r.

(** changing the job [getJob] finds *)
Fixpoint updateFirst (name : string) (f : JobRun.t → JobRun.t) (l : list JobRun.t)
    : list JobRun.t :=
  match l with
  | [] => []
  | j :: l => if isJob name j then f j :: l else j :: updateFirst name f l
  end.

Definition mapSteps (f : StepRun.t → StepRun.t) (j : JobRun.t) : JobRun.t :=
  j <| JobRun.steps := f <$> JobRun.steps j |>.

(** the steps of a run with the names of their jobs, in order *)
Definition stepsOf (r : t) : list (string * StepRun.t) :=
  j ← jobs r; (λ s, (JobRun.jobName j, s)) <$> JobRun.steps j.

(** ** Ownership *)

Definition takeOwnership (owner : Owner) (r : t) : t :=
  r <| ownerBeforeResume :=
         Some (default (MkOwner (pid r) (instanceId r)) (ownerBeforeResume r)) |>
    <| pid := o_pid owner |> <| instanceId := o_instanceId owner |>.

Definition releaseOwnership (r : t) : t :=
  match ownerBeforeResume r with
  | None => r
  | Some o =>
      r <| pid := o_pid o |> <| instanceId := o_instanceId o |> <| ownerBeforeResume := None |>
  end.

(** ** Starting, suspending and resuming *)

Definition start (now : Z) (p : option Z) (inst : option string) (r : t) : t :=
  let r := r <| status := running |> <| startedAt := Some now |> <| pid := p |> in
  match inst with
  | Some i => if bool_decide (i = "") then r else r <| instanceId := Some i |>
  | None => r
  end.

Definition suspend (ins : option (list (string * JsValue))) (r : t) : t :=
  let r := r <| status := suspended |> in
  releaseOwnership (match ins with Some i => r <| inputs := i |> | None => r end).

Definition resumeFromSuspended (now : Z) (owner : Owner) (r : t) : t :=
  takeOwnership owner
    (r <| status := running |> <| completedAt := None |> <| recovered := false |>
       <| resumedAt := Some now |>).

Definition resumeFromFailed (now : Z) (owner : Owner) (r : t) : t :=
  takeOwnership owner
    (r <| status := running |> <| completedAt := None |> <| resumedAt := Some now |>).

(** ** Ending a run *)

Definition detachedError (s : StepRun.t) : string :=
  "Detached: the run ended while this step waited on " +:+
  match StepRun.nestedRun s with
  | Some (RunLink.valid ref) =>
      "run " +:+ RunLink.runId ref +:+ " of nested workflow " +:+ quoted (RunLink.workflowName ref)
  | _ => "its nested workflow run"
  end +:+ ".".

Definition detachStep (now : Z) (s : StepRun.t) : StepRun.t :=
  if StepRun.isNestedWait s then StepRun.detachNestedRun now (detachedError s) s else s.

Definition detachJob (now : Z) (j : JobRun.t) : JobRun.t :=
  let detached := existsb StepRun.isNestedWait (JobRun.steps j) in
  let j := mapSteps (detachStep now) j in
  if detached && negb (JobRun.hasUnfinishedStep j) &&
     (bool_decide (JobRun.status j = RunStatus.pending) ||
      bool_decide (JobRun.status j = RunStatus.running) ||
      bool_decide (JobRun.status j = RunStatus.waiting_approval))
  then JobRun.fail now j else j.

Definition detachNestedWaits (now : Z) (r : t) : t := r <| jobs := detachJob now <$> jobs r |>.

Definition jobPassed (j : JobRun.t) : bool :=
  bool_decide (JobRun.status j = RunStatus.succeeded) ||
  bool_decide (JobRun.status j = RunStatus.skipped).

Definition complete (now : Z) (r : t) : t :=
  if bool_decide (status r = cancelled) || bool_decide (status r = interrupted) then r
  else
    let r := detachNestedWaits now r in
    let anyNonTerminal := existsb (λ j, negb (jobPassed j)) (jobs r) in
    releaseOwnership
      (r <| status := if anyNonTerminal then failed else succeeded |> <| completedAt := Some now |>).

Definition isCancellable (r : t) : bool :=
  bool_decide (status r = pending) || bool_decide (status r = running) ||
  bool_decide (status r = suspended).

(** [if (reason) this._tags[key] = reason] *)
Definition setTag (key reason : string) (r : t) : t :=
  r <| tags := <[key := reason]> (tags r) |>.

Definition endAsCancelled (now : Z) (reason : option string) (r : t) : t :=
  if negb (isCancellable r) then r
  else
    let r := detachNestedWaits now r <| status := cancelled |> <| completedAt := Some now |> in
    releaseOwnership
      match reason with
      | Some why => if bool_decide (why = "") then r else setTag "cancel_reason" why r
      | None => r
      end.

Definition recordCancelReason (reason : string) (r : t) : t :=
  if negb (bool_decide (status r = cancelled)) || bool_decide (reason = "") then r
  else setTag "cancel_reason" reason r.

(** [`${dataId}@${version}`] *)
Definition versionKey (dataId : string) (version : Z) : string := dataId +:+ "@" +:+ pretty version.

Definition namesRefused (keys : list string) (artifacts : list StepRun.DataArtifactRef) : bool :=
  existsb (λ a, bool_decide (versionKey (StepRun.dataId a) (StepRun.version a) ∈ keys)) artifacts.

Definition refusesStep (keys : list string) (s : StepRun.t) : bool :=
  negb (bool_decide (StepRun.status s = RunStatus.failed)) &&
  namesRefused keys (StepRun.dataArtifacts s).

Definition failRefusedJob (now : Z) (keys : list string) (reason : string) (j : JobRun.t) : JobRun.t :=
  let hit := existsb (refusesStep keys) (JobRun.steps j) in
  let j := mapSteps (λ s, if refusesStep keys s then StepRun.fail now reason None s else s) j in
  if hit && bool_decide (JobRun.status j = RunStatus.succeeded) then JobRun.fail now j else j.

Definition failStepsNamingRefusedData (now : Z) (refused : list (string * Z)) (reason : string) (r : t)
    : t * list StepRun.t :=
  let keys := set_of ((λ '(d, v), versionKey d v) <$> refused) in
  let failedSteps :=
    j ← jobs r; StepRun.fail now reason None <$> List.filter (refusesStep keys) (JobRun.steps j) in
  let r := r <| jobs := failRefusedJob now keys reason <$> jobs r |> in
  (if (negb (bool_decide (length failedSteps = 0)) ||
       namesRefused keys (workflowDataArtifacts r)) && bool_decide (status r = succeeded)
   then r <| status := failed |> else r,
   failedSteps).

(** ** Interruption and recovery *)

Definition isStatus (st : RunStatus.t) (s : StepRun.t) : bool := bool_decide (StepRun.status s = st).

Definition stoppedInFlight (s : StepRun.t) : bool :=
  isStatus RunStatus.failed s && StepRun.stoppedByAbort s.

Definition interruptStep (now : Z) (reason : string) (s : StepRun.t) : StepRun.t :=
  if isStatus RunStatus.running s || stoppedInFlight s
  then StepRun.markUnknown now (Some ("interrupted: " +:+ reason)) s else s.

Definition interruptJob (now : Z) (reason : string) (j : JobRun.t) : JobRun.t :=
  let stopped := existsb stoppedInFlight (JobRun.steps j) in
  let j := mapSteps (interruptStep now reason) j in
  if bool_decide (JobRun.status j = RunStatus.running) ||
     (stopped && (bool_decide (JobRun.status j = RunStatus.failed) ||
                  bool_decide (JobRun.status j = RunStatus.succeeded)))
  then JobRun.markUnknown now j else j.

Definition hasEnded (r : t) : bool :=
  bool_decide (status r = succeeded) || bool_decide (status r = failed) ||
  bool_decide (status r = interrupted).

Definition interrupt (now : Z) (reason : string) (r : t) : t :=
  if hasEnded r then r
  else
    releaseOwnership
      (setTag "interrupt_reason" reason
         (r <| jobs := interruptJob now reason <$> jobs r |> <| status := interrupted |>
            <| completedAt := Some now |>)).

(** the step the index by name holds: the last job and the last step of the name *)
Definition indexedStep (r : t) (jobName stepName : string) : option StepRun.t :=
  j ← List.find (isJob jobName) (reverse (jobs r));
  List.find (JobRun.isNamed stepName) (reverse (JobRun.steps j)).

(** the record shows the step pending, lacks it, or holds it from an older start *)
Definition isUnrecorded (r : t) (s : StepStart) : bool :=
  match indexedStep r (ss_jobName s) (ss_stepName s) with
  | None => true
  | Some step =>
      isStatus RunStatus.pending step ||
      match StepRun.startedAt step with
      | None => true
      | Some at_ => (at_ <? ss_startedAt s)%Z
      end
  end.

Fixpoint journalledLoop (r : t) (starts : list StepStart) (seen : list string)
    : list StepRunRef :=
  match starts with
  | [] => []
  | s :: rest =>
      if negb (bool_decide (ss_runId s = id r)) then journalledLoop r rest seen
      else
        match getJob (ss_jobName s) r with
        | None => journalledLoop r rest seen
        | Some job =>
            let key := stepRunKey (MkRef (ss_jobName s) (ss_stepName s)) in
            if negb (isUnrecorded r s) || bool_decide (key ∈ seen) then journalledLoop r rest seen
            else MkRef (JobRun.jobName job) (ss_stepName s) ::
                 journalledLoop r rest (set_add key seen)
        end
  end.

Definition journalledStarts (starts : list StepStart) (r : t) : list StepRunRef :=
  journalledLoop r starts [].

(** one journalled start of an orphaned run *)
Definition orphanStart (now : Z) (reason : string) (stepName : string) (j : JobRun.t) : JobRun.t :=
  let j := JobRun.addExpandedStep stepName j in
  match JobRun.getStep stepName j with
  | None => j
  | Some step =>
      if isStatus RunStatus.running step then j
      else
        let j := j <| JobRun.steps :=
          JobRun.updateFirst stepName
            (StepRun.markUnknown now (Some ("interrupted: " +:+ reason +:+ " (start recorded)")))
            (JobRun.steps j) |> in
        if bool_decide (JobRun.status j = RunStatus.running) then j else JobRun.markUnknown now j
  end.

Definition startNotRecorded (j : JobRun.t) : bool :=
  bool_decide (JobRun.status j = RunStatus.running) && negb (JobRun.hasStep RunStatus.running j).

Definition orphanJob (now : Z) (reason : string) (j : JobRun.t) : JobRun.t :=
  if startNotRecorded j then
    mapSteps (λ s, if isStatus RunStatus.pending s
                   then StepRun.markUnknown now
                          (Some ("interrupted: " +:+ reason +:+ " (start not recorded)")) s
                   else s) j
  else j.

Definition orphanStarts (now : Z) (reason : string) (refs : list StepRunRef) (js : list JobRun.t)
    : list JobRun.t :=
  foldl (λ js ref, updateFirst (r_jobName ref) (orphanStart now reason (r_stepName ref)) js) js refs.

Definition interruptOrphaned (now : Z) (reason : string) (starts : list StepStart) (r : t) : t :=
  interrupt now reason
    (if bool_decide (status r = running) then
       r <| jobs := orphanJob now reason <$>
                    orphanStarts now reason (journalledStarts starts r) (jobs r) |>
     else r).

Definition unknownSteps (r : t) : list string :=
  j ← jobs r; StepRun.stepName <$> List.filter (isStatus RunStatus.unknown) (JobRun.steps j).

(** the step would be unknown were the run orphaned now *)
Definition unknownIfOrphaned (r : t) (j : JobRun.t) (s : StepRun.t) : bool :=
  isStatus RunStatus.unknown s ||
  (bool_decide (status r = running) && startNotRecorded j && isStatus RunStatus.pending s) ||
  (negb (hasEnded r) && isStatus RunStatus.running s) ||
  (negb (hasEnded r) && stoppedInFlight s).

Definition unknownStepsIfOrphaned (starts : list StepStart) (r : t) : list string :=
  set_of
    ((if bool_decide (status r = running) then r_stepName <$> journalledStarts starts r else []) ++
     (j ← jobs r; StepRun.stepName <$> List.filter (unknownIfOrphaned r j) (JobRun.steps j))).

Definition recoverJob (j : JobRun.t) : JobRun.t :=
  let j := mapSteps (λ s, if isStatus RunStatus.unknown s then StepRun.resetToPending s else s) j in
  if bool_decide (JobRun.status j = RunStatus.unknown) then JobRun.resetToPending j else j.

Definition statusName (s : Status) : string :=
  match s with
  | pending => "pending" | running => "running" | suspended => "suspended"
  | succeeded => "succeeded" | failed => "failed" | cancelled => "cancelled"
  | interrupted => "interrupted"
  end.

Definition resetUnknownStepsForRecovery (r : t) : result t :=
  if negb (bool_decide (status r = interrupted))
  then Throw ("Cannot reset unknown steps: run is " +:+ statusName (status r) +:+
              ", expected interrupted")
  else Ok (r <| jobs := recoverJob <$> jobs r |> <| status := suspended |>
             <| completedAt := None |> <| recovered := true |>).

Definition awaitsResumeAfterRecovery (r : t) : bool :=
  bool_decide (status r = suspended) && recovered r.

(** ** The start journal of a live run *)

Fixpoint latestInsert (s : StepStart) (l : list StepStart) : list StepStart :=
  match l with
  | [] => [s]
  | kept :: l =>
      if bool_decide (stepRunKey (MkRef (ss_jobName kept) (ss_stepName kept)) =
                      stepRunKey (MkRef (ss_jobName s) (ss_stepName s)))
      then (if (ss_startedAt kept <? ss_startedAt s)%Z then s else kept) :: l
      else kept :: latestInsert s l
  end.

Definition ofThisAttempt (r : t) (s : StepStart) : bool :=
  match resumedAt r with Some attempt => (attempt <=? ss_startedAt s)%Z | None => true end.

Definition latestStarts (r : t) (starts : list StepStart) : list StepStart :=
  foldl (λ l s, latestInsert s l) [] (List.filter (ofThisAttempt r) starts).

Definition latestGet (latest : list StepStart) (ref : StepRunRef) : option StepStart :=
  List.find (λ s, bool_decide (stepRunKey (MkRef (ss_jobName s) (ss_stepName s)) = stepRunKey ref))
    latest.

Definition applyStart (at_ : Z) (stepName : string) (j : JobRun.t) : JobRun.t :=
  let j := JobRun.addExpandedStep stepName j in
  let j := j <| JobRun.steps :=
    JobRun.updateFirst stepName
      (λ s, StepRun.start at_ (if isStatus RunStatus.pending s then s else StepRun.resetToPending s))
      (JobRun.steps j) |> in
  if bool_decide (JobRun.status j = RunStatus.pending) then JobRun.start at_ j else j.

Definition applyStepStarts (starts : list StepStart) (r : t) : t :=
  if negb (bool_decide (status r = running)) then r
  else
    let latest := latestStarts r starts in
    r <| jobs :=
      foldl (λ js ref,
        match latestGet latest ref with
        | Some s => updateFirst (r_jobName ref) (applyStart (ss_startedAt s) (r_stepName ref)) js
        | None => js
        end) (jobs r) (journalledStarts latest r) |>.

(** ** Resetting steps for a resume *)

Definition resetStep (keys : list string) (j : JobRun.t) (s : StepRun.t) : StepRun.t :=
  let s := StepRun.clearResetMarker s in
  if bool_decide (stepRunKey (MkRef (JobRun.jobName j) (StepRun.stepName s)) ∈ keys)
  then StepRun.resetToPending s else s.

Definition resetJob (keys : list string) (j : JobRun.t) : JobRun.t :=
  let needsReset :=
    existsb (λ s, bool_decide (stepRunKey (MkRef (JobRun.jobName j) (StepRun.stepName s)) ∈ keys))
      (JobRun.steps j) in
  let j := mapSteps (resetStep keys j) j in
  if needsReset then JobRun.resetToPending j else j.

Definition markTracked (js : list JobRun.t) (ref : StepRunRef) : list JobRun.t :=
  updateFirst (r_jobName ref)
    (λ j, j <| JobRun.steps :=
                 JobRun.updateFirst (r_stepName ref) StepRun.markResetByResume (JobRun.steps j) |>) js.

Definition resetForResumeFrom (stepsToReset tracked : list StepRunRef) (r : t) : t :=
  let keys := set_of (stepRunKey <$> stepsToReset) in
  r <| jobs := foldl markTracked (resetJob keys <$> jobs r) tracked |>.

Definition reopenJob (j : JobRun.t) : JobRun.t :=
  let reopen := JobRun.holdsAbortedWork j in
  let j := mapSteps (λ s, if StepRun.settledByAbort s then StepRun.resetToPending s else s) j in
  if reopen &&
     (bool_decide (JobRun.status j = RunStatus.succeeded) ||
      bool_decide (JobRun.status j = RunStatus.failed) ||
      bool_decide (JobRun.status j = RunStatus.skipped) ||
      bool_decide (JobRun.status j = RunStatus.unknown))
  then JobRun.resetToPending j else j.

Definition reopenAbortedWork (r : t) : t := r <| jobs := reopenJob <$> jobs r |>.

Definition recordResumeInputs (keys : list string) (r : t) : t :=
  r <| resumeInputs := foldl (λ l k, set_add k l) (resumeInputs r) keys |>.

(** ** Fields recorded for later *)

Definition recordTriggeringPrincipal (p : TriggeringPrincipal) (r : t) : t :=
  r <| triggeringPrincipal := Some p |>.
Definition recordAllowedVaults (vaults : list string) (r : t) : t :=
  r <| allowedVaults := Some vaults |>.
Definition recordStartKey (key : RunStartKeyData) (r : t) : t := r <| startKey := Some key |>.
Definition clearStartKey (r : t) : t := r <| startKey := None |>.
Definition setReferences (refs : list (string * string)) (r : t) : t := r <| references := Some refs |>.
Definition recordParentRun (ref : RunLink.ParentRunRef) (r : t) : t :=
  r <| parentRun := Some (RunLink.valid ref) |>.
Definition addWorkflowDataArtifact (a : StepRun.DataArtifactRef) (r : t) : t :=
  r <| workflowDataArtifacts := workflowDataArtifacts r ++ [a] |>.
Definition setLogFile (path : string) (r : t) : t := r <| logFile := Some path |>.
Definition captureRunPlan (plan : RunPlan) (r : t) : t := r <| runPlan := Some plan |>.
Definition captureInputs (ins : list (string * JsValue)) (r : t) : t := r <| inputs := ins |>.
Definition captureInheritedExpressions (es : list string) (r : t) : t :=
  r <| inheritedExpressions := es |>.
Definition captureInputsProvenance (p : JsValue) (r : t) : t := r <| inputsProvenance := Some p |>.
Definition recordReplayedEvaluatedCache (r : t) : t := r <| replayedEvaluatedCache := true |>.
Definition captureDeferredExpressions (es : list JsValue) (r : t) : t :=
  r <| deferredExpressions := es |>.

(** ** Queries *)

Definition failedRef (p : string * StepRun.t) : FailedStepRef :=
  let '(job, s) := p in
  MkFailed job (StepRun.stepName s) (StepRun.forEachTemplate s)
    match StepRun.approvalDecision s with Some d => negb (StepRun.approved d) | None => false end
    (StepRun.failureKind s).

Definition isFailure (s : StepRun.t) : bool :=
  isStatus RunStatus.failed s && negb (StepRun.allowedFailure s).

Definition failedSteps (r : t) : list FailedStepRef :=
  failedRef <$> List.filter (λ p, isFailure p.2) (stepsOf r).

Definition refOf (p : string * StepRun.t) : StepRunRef := MkRef p.1 (StepRun.stepName p.2).

Definition findWaitingApprovalStep (r : t) : option StepRunRef :=
  refOf <$> List.find (λ p, isStatus RunStatus.waiting_approval p.2 && negb (StepRun.isNestedWait p.2))
              (stepsOf r).

Definition findSignalWaits (r : t) : list (StepRunRef * option SignalWait) :=
  (λ p, (refOf p, StepRun.signalWait p.2)) <$> List.filter (λ p, StepRun.isSignalWait p.2) (stepsOf r).

(** [wait.isExpired(now)] *)
Definition isExpired (now : Z) (w : SignalWait) : bool := (wait_deadline w <? now)%Z.

Fixpoint firstOpen (now : Z) (l : list (StepRunRef * option SignalWait))
    : option (StepRunRef * SignalWait) :=
  match l with
  | [] => None
  | (ref, Some w) :: l => if isExpired now w then firstOpen now l else Some (ref, w)
  | (_, None) :: l => firstOpen now l
  end.

Definition findOpenSignalWait (now : Z) (r : t) : option (StepRunRef * SignalWait) :=
  firstOpen now (findSignalWaits r).

Definition nestedWaitOf (p : string * StepRun.t)
    : option (StepRunRef * RunLink.t RunLink.NestedRunRef) :=
  if StepRun.isNestedWait p.2 then (λ l, (refOf p, l)) <$> StepRun.nestedRun p.2 else None.

Definition findNestedWaits (r : t) : list (StepRunRef * RunLink.t RunLink.NestedRunRef) :=
  omap nestedWaitOf (stepsOf r).

Definition detachedOf (p : string * StepRun.t) : option (StepRunRef * RunLink.NestedRunRef) :=
  match StepRun.nestedRun p.2 with
  | Some (RunLink.valid ref) => if StepRun.detachedNestedRun p.2 then Some (refOf p, ref) else None
  | _ => None
  end.

Definition detachedNestedRuns (r : t) : list (StepRunRef * RunLink.NestedRunRef) :=
  omap detachedOf (stepsOf r).

Definition isAwaitingResume (r : t) : bool :=
  bool_decide (status r = suspended) &&
  match findWaitingApprovalStep r with Some _ => false | None => true end &&
  (length (findNestedWaits r) =? 0) && (length (findSignalWaits r) =? 0).

Fixpoint failureLoop (l : list (string * StepRun.t)) (settled : option StepRun.t)
    : option string * option string :=
  match l with
  | [] => (StepRun.stepName <$> settled, settled ≫= StepRun.error)
  | (_, s) :: l =>
      if negb (isStatus RunStatus.failed s) || StepRun.allowedFailure s || StepRun.detachedNestedRun s
      then failureLoop l settled
      else if negb (StepRun.settledByAbort s) then (Some (StepRun.stepName s), StepRun.error s)
      else failureLoop l (match settled with Some _ => settled | None => Some s end)
  end.

(** the failed step and the reason *)
Definition failureInfo (r : t) : option string * option string := failureLoop (stepsOf r) None.

Definition isCompleted (s : StepRun.t) : bool :=
  isStatus RunStatus.succeeded s || isStatus RunStatus.skipped s || isStatus RunStatus.failed s ||
  isStatus RunStatus.unknown s.

(** the completed steps and the total *)
Definition computeStepProgress (r : t) : option (Z * Z) :=
  let total := length (stepsOf r) in
  if total =? 0 then None
  else Some (Z.of_nat (length (List.filter (λ p, isCompleted p.2) (stepsOf r))), Z.of_nat total).

(** ** The stored form *)

Record WorkflowRunData : Type := MkData {
  d_id : string;
  d_workflowId : string;
  d_workflowName : string;
  d_status : Status;
  d_startedAt : option Z;
  d_completedAt : option Z;
  d_jobs : list JobRun.JobRunData;
  d_workflowDataArtifacts : option (list StepRun.DataArtifactRef);
  d_logFile : option string;
  d_pid : option Z;
  d_tags : gmap string string;
  d_references : option (list (string * string));
  d_inputs : option (list (string * JsValue));
  d_resumeInputs : option (list string);
  d_inheritedExpressions : option (list string);
  d_deferredExpressions : option (list JsValue);
  d_inputsProvenance : option JsValue;
  d_persistedInputsProvenance : option JsValue;
  d_replayedEvaluatedCache : option bool;
  d_initiatedBy : option string;
  d_client : option string;
  d_startKey : option RunStartKeyData;
  d_instanceId : option string;
  d_ownerBeforeResume : option Owner;
  d_triggerSource : option string;
  d_failedStep : option string;
  d_failureReason : option string;
  d_writtenReferences : option (list JsValue);
  d_sensitiveFormat : option Z;
  d_stepProgress : option (Z * Z);
  d_awaitingResume : option bool;
  d_recovered : option bool;
  d_resumedAt : option Z;
  d_runPlan : option RunPlan;
  d_parentRun : option JsValue;
  d_triggeringPrincipal : option TriggeringPrincipal;
  d_allowedVaults : option (list string);
}.

(** [if (xs.length > 0) data.xs = xs] *)
Definition nonEmpty {A} (l : list A) : option (list A) := match l with [] => None | _ => Some l end.

Definition toData (r : t) : WorkflowRunData :=
  MkData (id r) (workflowId r) (workflowName r) (status r) (startedAt r) (completedAt r)
    (JobRun.toData <$> jobs r) (nonEmpty (workflowDataArtifacts r))
    (match logFile r with Some f => if bool_decide (f = "") then None else Some f | None => None end)
    (pid r) (tags r) (references r ≫= nonEmpty) (nonEmpty (inputs r)) (nonEmpty (resumeInputs r))
    (nonEmpty (inheritedExpressions r)) (nonEmpty (deferredExpressions r)) (inputsProvenance r)
    (persistedInputsProvenance r) (StepRun.flag (replayedEvaluatedCache r)) (initiatedBy r) (client r)
    (startKey r) (instanceId r) (ownerBeforeResume r) (triggerSource r) (failureInfo r).1
    (failureInfo r).2 (nonEmpty (writtenReferences r)) (sensitiveFormat r) (computeStepProgress r)
    (StepRun.flag (isAwaitingResume r)) (StepRun.flag (awaitsResumeAfterRecovery r)) (resumedAt r)
    (runPlan r) (RunLink.persistedLink RunLink.parentToData <$> parentRun r) (triggeringPrincipal r)
    (allowedVaults r).

Definition fromData (isUuid : string → bool) (d : WorkflowRunData) : t :=
  Mk (d_id d) (d_workflowId d) (d_workflowName d) (d_status d) (d_startedAt d) (d_completedAt d)
    (JobRun.fromData isUuid <$> d_jobs d) (d_logFile d) (d_tags d)
    (default [] (d_workflowDataArtifacts d)) (default [] (d_inputs d)) (default [] (d_resumeInputs d))
    (d_pid d) (d_initiatedBy d) (d_instanceId d) (d_triggerSource d) (d_references d) (d_runPlan d)
    (default [] (d_inheritedExpressions d)) (default [] (d_deferredExpressions d))
    (d_ownerBeforeResume d) (default [] (d_writtenReferences d)) (d_sensitiveFormat d)
    (RunLink.parseParentRunLink isUuid (d_parentRun d)) (d_triggeringPrincipal d) (d_allowedVaults d)
    (default false (d_recovered d)) (d_client d) (d_inputsProvenance d)
    (d_persistedInputsProvenance d) (bool_decide (d_replayedEvaluatedCache d = Some true))
    (d_resumedAt d) (d_startKey d).

Definition isServeDrivenRun (principal : option TriggeringPrincipal) (inst : option string) : bool :=
  match principal, inst with None, None => false | _, _ => true end.

Definition isGuardedRunRecord (d : WorkflowRunData) : bool :=
  isServeDrivenRun (d_triggeringPrincipal d) (d_instanceId d) ||
  existsb (λ j, existsb (λ s, match StepRun.d_approvalDecision s with Some _ => true | None => false end)
                  (JobRun.d_steps j)) (d_jobs d).

End workflow_run.
End WorkflowRun.
