(* ===== verification/WorkflowRunProps.v ===== *)
(** * Properties of workflow runs

    Theorems on the [WorkflowRun] model: what a recovery asks for and leaves,
    the owner of a run across resumes, how a run ends, what is written and read
    back, what a resume resets, and how refused data is reported. *)

From S2P Require Import Prelude JsString TriggerCondition StepRun JobRun WorkflowRun.

Module WorkflowRunProps.
Import WorkflowRun.

(** ** Recovery *)

Section recovery.
Context `{SignalWaits}.

Lemma elem_of_unknownSteps r n :
  n ∈ unknownSteps r ↔
  ∃ j s, j ∈ jobs r ∧ s ∈ JobRun.steps j ∧ StepRun.status s = RunStatus.unknown ∧
         StepRun.stepName s = n.
Proof.
  unfold unknownSteps. rewrite list_elem_of_bind. split.
  - intros (j & (s & -> & Hs)%list_elem_of_fmap & Hj). apply elem_of_bfilter in Hs as [Hs Hu].
    unfold isStatus in Hu. split_bools. eauto 6.
  - intros (j & s & Hj & Hs & Hu & <-). exists j. split; [|done]. apply list_elem_of_fmap.
    exists s. split; [done|]. apply elem_of_bfilter. split; [done|]. by apply bool_decide_eq_true.
Qed.

(** jobs whose steps change one by one *)
Lemma unknownSteps_fmap r r' (F : JobRun.t → JobRun.t) (f : JobRun.t → StepRun.t → StepRun.t) n :
  jobs r' = F <$> jobs r → (∀ j, JobRun.steps (F j) = f j <$> JobRun.steps j) →
  n ∈ unknownSteps r' ↔
  ∃ j s, j ∈ jobs r ∧ s ∈ JobRun.steps j ∧ StepRun.status (f j s) = RunStatus.unknown ∧
         StepRun.stepName (f j s) = n.
Proof.
  intros Hjobs Hsteps. rewrite elem_of_unknownSteps, Hjobs. split.
  - intros (j' & s' & (j & -> & Hj)%list_elem_of_fmap & Hs' & Hu & Hn).
    rewrite Hsteps in Hs'. apply list_elem_of_fmap in Hs' as (s & -> & Hs). eauto 6.
  - intros (j & s & Hj & Hs & Hu & Hn). exists (F j), (f j s).
    split_and!; [by apply list_elem_of_fmap_2|rewrite Hsteps; by apply list_elem_of_fmap_2|done|done].
Qed.

(** a step a run that has not ended leaves unknown when it is orphaned *)
Definition lost (j : JobRun.t) (s : StepRun.t) : bool :=
  isStatus RunStatus.unknown s || (startNotRecorded j && isStatus RunStatus.pending s) ||
  isStatus RunStatus.running s || stoppedInFlight s.

Definition lostIn (js : list JobRun.t) (n : string) : Prop :=
  ∃ j s, j ∈ js ∧ s ∈ JobRun.steps j ∧ lost j s = true ∧ StepRun.stepName s = n.

Lemma interruptStep_status now reason s :
  StepRun.status (interruptStep now reason s) = RunStatus.unknown ↔
  isStatus RunStatus.unknown s || isStatus RunStatus.running s || stoppedInFlight s = true.
Proof.
  unfold interruptStep, stoppedInFlight, isStatus.
  destruct (StepRun.status s) eqn:E, (StepRun.stoppedByAbort s); simpl; rewrite ?E; naive_solver.
Qed.

Lemma interruptStep_name now reason s :
  StepRun.stepName (interruptStep now reason s) = StepRun.stepName s.
Proof. unfold interruptStep. by case_match. Qed.

Lemma interruptJob_steps now reason j :
  JobRun.steps (interruptJob now reason j) = interruptStep now reason <$> JobRun.steps j.
Proof. unfold interruptJob. by case_match. Qed.

Lemma releaseOwnership_jobs r : jobs (releaseOwnership r) = jobs r.
Proof. unfold releaseOwnership. by case_match. Qed.

Lemma releaseOwnership_status r : status (releaseOwnership r) = status r.
Proof. unfold releaseOwnership. by case_match. Qed.

Lemma interrupt_jobs now reason r :
  hasEnded r = false → jobs (interrupt now reason r) = interruptJob now reason <$> jobs r.
Proof. unfold interrupt. intros ->. by rewrite releaseOwnership_jobs. Qed.

(** what the last two passes over the jobs do to one step *)
Definition orphanStep (now : Z) (reason : string) (j : JobRun.t) (s : StepRun.t) : StepRun.t :=
  interruptStep now reason
    (if startNotRecorded j && isStatus RunStatus.pending s
     then StepRun.markUnknown now (Some ("interrupted: " +:+ reason +:+ " (start not recorded)")) s
     else s).

Lemma orphanStep_spec now reason j s :
  (StepRun.status (orphanStep now reason j s) = RunStatus.unknown ↔ lost j s = true) ∧
  StepRun.stepName (orphanStep now reason j s) = StepRun.stepName s.
Proof.
  unfold orphanStep. rewrite interruptStep_status, interruptStep_name. unfold lost, isStatus, stoppedInFlight.
  destruct (startNotRecorded j); simpl; [|by rewrite orb_false_r].
  unfold isStatus. destruct (StepRun.status s) eqn:E; simpl; rewrite ?E; simpl;
    rewrite ?E; simpl; split; try done.
Qed.

Lemma orphanJob_steps now reason j :
  JobRun.steps (interruptJob now reason (orphanJob now reason j)) =
  orphanStep now reason j <$> JobRun.steps j.
Proof.
  rewrite interruptJob_steps. unfold orphanJob, orphanStep. destruct (startNotRecorded j); simpl.
  - rewrite <-list_fmap_compose. apply list_fmap_ext. intros i s _. simpl. done.
  - done.
Qed.

(** *** One journalled start *)

Lemma updateFirst_split name (j : JobRun.t) s :
  JobRun.getStep name j = Some s →
  ∃ l1 l2, JobRun.steps j = l1 ++ s :: l2 ∧
           ∀ f, JobRun.updateFirst name f (JobRun.steps j) = l1 ++ f s :: l2.
Proof.
  unfold JobRun.getStep. induction (JobRun.steps j) as [|x l IH]; simpl; [done|].
  destruct (JobRun.isNamed name x).
  - intros [= ->]. by exists [], l.
  - intros (l1 & l2 & -> & Hf)%IH. exists (x :: l1), l2. split; [done|]. intros f. by rewrite Hf.
Qed.

Lemma getStep_last name (j : JobRun.t) s :
  JobRun.getStep name j = None → StepRun.stepName s = name →
  JobRun.getStep name (j <| JobRun.steps := JobRun.steps j ++ [s] |>) = Some s.
Proof.
  unfold JobRun.getStep. simpl. intros Hn Hs.
  induction (JobRun.steps j) as [|x l IH]; simpl in *.
  - unfold JobRun.isNamed. by rewrite bool_decide_eq_true_2.
  - destruct (JobRun.isNamed name x); [done|]. by apply IH.
Qed.

(** the step a start finds or adds *)
Lemma addExpandedStep_split name (j : JobRun.t) :
  ∃ s l1 l2, let j1 := JobRun.addExpandedStep name j in
    JobRun.getStep name j1 = Some s ∧ StepRun.stepName s = name ∧ JobRun.status j1 = JobRun.status j ∧
    JobRun.steps j1 = l1 ++ s :: l2 ∧
    (∀ f, JobRun.updateFirst name f (JobRun.steps j1) = l1 ++ f s :: l2) ∧
    (j1 = j ∨ JobRun.steps j = l1 ++ l2 ∧ isStatus RunStatus.running s = false).
Proof.
  cbn zeta. unfold JobRun.addExpandedStep. destruct (JobRun.getStep name j) as [s|] eqn:E.
  - destruct (updateFirst_split name j s E) as (l1 & l2 & Es & Hf).
    exists s, l1, l2. split_and!; [done|by apply JobRun.getStep_Some in E as [_ ?]|done|done|done|by left].
  - pose proof (getStep_last name j (StepRun.pending name None) E eq_refl) as E'.
    destruct (updateFirst_split name _ _ E') as (l1 & l2 & Es & Hf).
    exists (StepRun.pending name None), l1, l2. split_and!; [done|done|done|done|done|right].
    split; [|done]. simpl in Es.
    destruct l2 as [|x l2 _] using rev_ind; [by apply app_inj_tail in Es as [-> _]; rewrite app_nil_r|].
    exfalso. rewrite app_comm_cons, app_assoc in Es. apply app_inj_tail in Es as [Es _].
    apply JobRun.getStep_None in E. apply E. rewrite Es. apply list_elem_of_fmap.
    exists (StepRun.pending name None). set_solver.
Qed.

Lemma startNotRecorded_ext (j j' : JobRun.t) :
  (JobRun.status j' = RunStatus.running ↔ JobRun.status j = RunStatus.running) →
  JobRun.hasStep RunStatus.running j' = JobRun.hasStep RunStatus.running j →
  startNotRecorded j' = startNotRecorded j.
Proof. intros Hst Hh. unfold startNotRecorded. rewrite Hh. f_equal. by apply bool_decide_ext. Qed.

Lemma lostIn_singleton (j : JobRun.t) n :
  lostIn [j] n ↔ ∃ s, s ∈ JobRun.steps j ∧ lost j s = true ∧ StepRun.stepName s = n.
Proof.
  unfold lostIn. split.
  - intros (j' & s & ->%list_elem_of_singleton & ?). eauto.
  - intros (s & ?). exists j, s. split; [set_solver|done].
Qed.

Lemma orphanStart_lost now reason name (j : JobRun.t) n :
  lostIn [orphanStart now reason name j] n ↔ n = name ∨ lostIn [j] n.
Proof.
  destruct (addExpandedStep_split name j) as (s & l1 & l2 & Hg & Hname & Hst & Es & Hf & Hcase).
  rewrite !lostIn_singleton. unfold orphanStart. rewrite Hg.
  destruct (isStatus RunStatus.running s) eqn:Hrun.
  { destruct Hcase as [Ej|[_ ?]]; [|done]. rewrite Ej in Es |- *. split; [by right|]. intros [->|?]; [|done].
    exists s. split_and!; [rewrite Es; set_solver| |done]. unfold lost. rewrite Hrun. by rewrite orb_true_r. }
  assert (JobRun.steps j = l1 ++ s :: l2 ∨ JobRun.steps j = l1 ++ l2) as Hc.
  { destruct Hcase as [Ej|[? _]]; [left|by right]. by rewrite Ej in Es. }
  set (mark := StepRun.markUnknown now (Some ("interrupted: " +:+ reason +:+ " (start recorded)"))).
  set (u := mark s). set (j2 := if bool_decide _ then _ else _).
  assert (JobRun.steps j2 = l1 ++ u :: l2) as E2 by (unfold j2; case_match; apply Hf).
  assert (startNotRecorded j2 = startNotRecorded j) as Hsn.
  { apply startNotRecorded_ext.
    - rewrite <-Hst. unfold j2. case_bool_decide as Hb; simpl in *; [done|]. naive_solver.
    - unfold JobRun.hasStep. rewrite E2. unfold isStatus in Hrun.
      destruct Hc as [-> | ->]; rewrite !existsb_app; cbn [existsb]; by rewrite ?Hrun. }
  assert (∀ x, lost j2 x = lost j x) as Hl by (intros x; unfold lost; by rewrite Hsn).
  assert (∀ x, x ∈ JobRun.steps j → x ∈ l1 ++ l2 ∨ StepRun.stepName x = name) as Hin.
  { intros x. destruct Hc as [-> | ->]; [|by left].
    intros [?|[->|?]%elem_of_cons]%elem_of_app; [left|by right|left]; set_solver. }
  assert (∀ x, x ∈ l1 ++ l2 → x ∈ JobRun.steps j) as Hin'.
  { intros x Hx. destruct Hc as [-> | ->]; [set_solver|done]. }
  rewrite E2. split.
  - intros (x & [Hx|[->|Hx]%elem_of_cons]%elem_of_app & Hlx & <-); [right|by left|right];
      exists x; rewrite <-Hl; (split; [apply Hin'; set_solver|done]).
  - intros [->|(x & Hx & Hlx & <-)].
    { exists u. split_and!; [set_solver|done|done]. }
    destruct (Hin x Hx) as [Hx'|Hx'].
    + exists x. rewrite Hl. split; [set_solver|done].
    + exists u. split_and!; [set_solver|done|by rewrite Hx'].
Qed.

Lemma updateFirst_lost name f js n m :
  (∀ j, lostIn [f j] n ↔ n = m ∨ lostIn [j] n) → existsb (isJob name) js = true →
  lostIn (updateFirst name f js) n ↔ n = m ∨ lostIn js n.
Proof.
  intros Hf. assert (∀ j js, lostIn (j :: js) n ↔ lostIn [j] n ∨ lostIn js n) as Hcons.
  { intros j l. unfold lostIn. setoid_rewrite elem_of_cons. set_solver. }
  induction js as [|j js IH]; simpl; [done|].
  destruct (isJob name j); simpl; intros He; rewrite !(Hcons _ js), ?(Hcons _ (updateFirst _ _ _)).
  - rewrite Hf. naive_solver.
  - rewrite IH by done. naive_solver.
Qed.

Lemma orphanStart_jobName now reason name j :
  JobRun.jobName (orphanStart now reason name j) = JobRun.jobName j.
Proof.
  unfold orphanStart. assert (JobRun.jobName (JobRun.addExpandedStep name j) = JobRun.jobName j) as E
    by (unfold JobRun.addExpandedStep; by case_match).
  repeat case_match; done.
Qed.

Lemma updateFirst_jobNames name f js k :
  (∀ j, JobRun.jobName (f j) = JobRun.jobName j) →
  existsb (isJob k) (updateFirst name f js) = existsb (isJob k) js.
Proof.
  intros Hf. induction js as [|j js IH]; simpl; [done|].
  destruct (isJob name j); simpl; unfold isJob in *; by rewrite ?Hf, ?IH.
Qed.

Lemma orphanStarts_lost now reason refs js n :
  Forall (λ ref, existsb (isJob (r_jobName ref)) js = true) refs →
  lostIn (orphanStarts now reason refs js) n ↔ n ∈ r_stepName <$> refs ∨ lostIn js n.
Proof.
  revert js. induction refs as [|ref refs IH]; intros js HF; simpl.
  { set_solver. }
  inversion_clear HF as [|? ? Href HF']. unfold orphanStarts in *. simpl. rewrite IH.
  - rewrite (updateFirst_lost _ _ _ _ (r_stepName ref)) by (done || (intros; apply orphanStart_lost)).
    rewrite elem_of_cons. naive_solver.
  - eapply Forall_impl; [exact HF'|]. intros ref' Hr. simpl.
    rewrite updateFirst_jobNames; [done|]. intros. apply orphanStart_jobName.
Qed.

Lemma journalledLoop_jobs r starts seen :
  Forall (λ ref, existsb (isJob (r_jobName ref)) (jobs r) = true) (journalledLoop r starts seen).
Proof.
  revert seen. induction starts as [|s starts IH]; intros seen; simpl; [constructor|].
  case_match; [apply IH|]. destruct (getJob (ss_jobName s) r) as [j|] eqn:Hj; [|apply IH].
  case_match; [apply IH|]. constructor; [|apply IH]. simpl.
  apply find_Some_elem_of in Hj as [Hj Hn]. apply existsb_elem_of. exists j. split; [done|].
  unfold isJob. by apply bool_decide_eq_true.
Qed.

(** the jobs and steps of [unknownStepsIfOrphaned] *)
Lemma elem_of_unknownStepsIfOrphaned starts r n :
  n ∈ unknownStepsIfOrphaned starts r ↔
  (status r = running ∧ n ∈ r_stepName <$> journalledStarts starts r) ∨
  ∃ j s, j ∈ jobs r ∧ s ∈ JobRun.steps j ∧ unknownIfOrphaned r j s = true ∧ StepRun.stepName s = n.
Proof.
  unfold unknownStepsIfOrphaned. rewrite elem_of_set_of, elem_of_app, list_elem_of_bind.
  setoid_rewrite list_elem_of_fmap. setoid_rewrite elem_of_bfilter.
  case_bool_decide; set_solver.
Qed.

Lemma orphaned_running now reason starts r n :
  status r = running →
  n ∈ unknownSteps (interruptOrphaned now reason starts r) ↔
  n ∈ r_stepName <$> journalledStarts starts r ∨ lostIn (jobs r) n.
Proof.
  intros Hr. unfold interruptOrphaned. rewrite bool_decide_eq_true_2 by done.
  set (js := orphanStarts now reason (journalledStarts starts r) (jobs r)).
  rewrite <-(orphanStarts_lost now reason) by apply journalledLoop_jobs. fold js.
  rewrite (unknownSteps_fmap (r <| jobs := js |>) _
    (λ j, interruptJob now reason (orphanJob now reason j)) (orphanStep now reason)).
  - unfold lostIn. simpl. split; intros (j & s & ? & ? & H1 & <-); exists j, s;
      destruct (orphanStep_spec now reason j s) as [E1 E2]; rewrite ?E2; naive_solver.
  - rewrite interrupt_jobs by (unfold hasEnded; simpl; by rewrite Hr). simpl.
    by rewrite <-list_fmap_compose.
  - apply orphanJob_steps.
Qed.

Lemma interruptOrphaned_unknown now reason starts r n :
  n ∈ unknownStepsIfOrphaned starts r ↔ n ∈ unknownSteps (interruptOrphaned now reason starts r).
Proof.
  rewrite elem_of_unknownStepsIfOrphaned. destruct (decide (status r = running)) as [Hr|Hr].
  { rewrite orphaned_running by done. unfold lostIn, unknownIfOrphaned, hasEnded, lost. rewrite Hr. simpl.
    naive_solver. }
  unfold interruptOrphaned. rewrite bool_decide_eq_false_2 by done.
  assert (∀ j s, unknownIfOrphaned r j s =
    isStatus RunStatus.unknown s || (negb (hasEnded r) && isStatus RunStatus.running s) ||
    (negb (hasEnded r) && stoppedInFlight s)) as Hu.
  { intros j s. unfold unknownIfOrphaned. rewrite bool_decide_eq_false_2 by done. simpl.
    by rewrite orb_false_r. }
  setoid_rewrite Hu. destruct (hasEnded r) eqn:He; simpl.
  - unfold interrupt. rewrite He, elem_of_unknownSteps. unfold isStatus.
    setoid_rewrite orb_false_r. setoid_rewrite orb_false_r. setoid_rewrite bool_decide_eq_true.
    naive_solver.
  - rewrite (unknownSteps_fmap r _ (interruptJob now reason) (λ _, interruptStep now reason)).
    + setoid_rewrite interruptStep_status. setoid_rewrite interruptStep_name. naive_solver.
    + by apply interrupt_jobs.
    + apply interruptJob_steps.
Qed.

Lemma recoverJob_steps (j : JobRun.t) :
  JobRun.steps (recoverJob j) =
  (λ s, if isStatus RunStatus.unknown s then StepRun.resetToPending s else s) <$> JobRun.steps j.
Proof. unfold recoverJob. by case_match. Qed.

Lemma recovery_clears r r' : resetUnknownStepsForRecovery r = Ok r' → unknownSteps r' = [].
Proof.
  unfold resetUnknownStepsForRecovery. case_match; [done|]. intros [= <-].
  apply elem_of_nil_inv. intros n.
  rewrite (unknownSteps_fmap r _ recoverJob
    (λ _ s, if isStatus RunStatus.unknown s then StepRun.resetToPending s else s));
    [|done|apply recoverJob_steps].
  intros (j & s & _ & _ & Hs & _). unfold isStatus in Hs. by case_bool_decide.
Qed.

(** C11: recovery asks for exactly the steps it resets. What
    [unknownStepsIfOrphaned] reports for a run, without changing it, is exactly
    the set of steps marked unknown when the run is then interrupted as
    orphaned, whatever starts the journal holds. The interrupted run has ended
    and is reset by a recovery, which leaves it suspended and waiting for a
    resume, with no step unknown; a run in any other state cannot be reset. *)
Theorem recovery_asks_exactly (now : Z) (reason : string) (starts : list StepStart) (r : t) :
  let r' := interruptOrphaned now reason starts r in
  (∀ n, n ∈ unknownStepsIfOrphaned starts r ↔ n ∈ unknownSteps r') ∧
  (status r' = interrupted →
     ∃ r'', resetUnknownStepsForRecovery r' = Ok r'' ∧ unknownSteps r'' = [] ∧
            status r'' = suspended ∧ awaitsResumeAfterRecovery r'' = true) ∧
  (status r' = interrupted ∨ status r = succeeded ∨ status r = failed) ∧
  (status r' ≠ interrupted → is_ok (resetUnknownStepsForRecovery r') = false).
Proof.
  cbn zeta. split_and!.
  - intros n. apply interruptOrphaned_unknown.
  - intros Hs. unfold resetUnknownStepsForRecovery at 1. rewrite bool_decide_eq_true_2 by done. simpl.
    eexists. split_and!; [done| |done|done]. eapply recovery_clears.
    unfold resetUnknownStepsForRecovery. by rewrite bool_decide_eq_true_2 by done.
  - unfold interruptOrphaned, interrupt.
    destruct (status r) eqn:Hr; try (by right; auto); left;
      case_match eqn:He; rewrite ?releaseOwnership_status; simpl; try done;
      unfold hasEnded in He; simpl in He; rewrite Hr in He; done.
  - intros Hs. unfold resetUnknownStepsForRecovery. by rewrite bool_decide_eq_false_2 by done.
Qed.

End recovery.

(** ** Ownership *)

Section ownership.
Context `{SignalWaits}.

(** what happens to a run once it has started *)
Inductive Event : Type :=
| Suspend (ins : option (list (string * JsValue)))
| ResumeSuspended (at_ : Z) (by_ : Owner)
| ResumeFailed (at_ : Z) (by_ : Owner)
| Complete (at_ : Z)
| Cancel (at_ : Z) (why : option string)
| Interrupt (at_ : Z) (why : string)
| InterruptOrphaned (at_ : Z) (why : string) (starts : list StepStart)
| Recover
| ApplyStarts (starts : list StepStart)
| RefuseData (at_ : Z) (refused : list (string * Z)) (why : string)
| ResetSteps (refs tracked : list StepRunRef)
| ReopenAborted
| CancelReason (why : string)
| ChangeJobs (f : list JobRun.t → list JobRun.t).

Definition apply (e : Event) (r : t) : t :=
  match e with
  | Suspend ins => suspend ins r
  | ResumeSuspended now o => resumeFromSuspended now o r
  | ResumeFailed now o => resumeFromFailed now o r
  | Complete now => complete now r
  | Cancel now why => endAsCancelled now why r
  | Interrupt now why => interrupt now why r
  | InterruptOrphaned now why starts => interruptOrphaned now why starts r
  | Recover => match resetUnknownStepsForRecovery r with Ok r' => r' | Throw _ => r end
  | ApplyStarts starts => applyStepStarts starts r
  | RefuseData now refused why => (failStepsNamingRefusedData now refused why r).1
  | ResetSteps refs tracked => resetForResumeFrom refs tracked r
  | ReopenAborted => reopenAbortedWork r
  | CancelReason why => recordCancelReason why r
  | ChangeJobs f => r <| jobs := f (jobs r) |>
  end.

Definition applyAll (es : list Event) (r : t) : t := foldl (λ r e, apply e r) r es.

(** the process a cancel or a supersede of the run goes to *)
Definition ownerOf (r : t) : Owner := default (MkOwner (pid r) (instanceId r)) (ownerBeforeResume r).

(** an owner is kept aside only while a resume drives the run *)
Definition settledOwner (r : t) : Prop := status r ≠ running → ownerBeforeResume r = None.

Definition sameOwnership (r r' : t) : Prop :=
  ownerOf r' = ownerOf r ∧ (settledOwner r → settledOwner r').

Lemma sameOwnership_same r r' :
  pid r' = pid r → instanceId r' = instanceId r → ownerBeforeResume r' = ownerBeforeResume r →
  (status r' ≠ running → status r ≠ running) → sameOwnership r r'.
Proof. unfold sameOwnership, settledOwner, ownerOf. intros -> -> -> Hs. naive_solver. Qed.

Lemma sameOwnership_trans r1 r2 r3 : sameOwnership r1 r2 → sameOwnership r2 r3 → sameOwnership r1 r3.
Proof. unfold sameOwnership. intros [E1 H1] [E2 H2]. split; [congruence|auto]. Qed.

Lemma releaseOwnership_same r r' :
  pid r' = pid r → instanceId r' = instanceId r → ownerBeforeResume r' = ownerBeforeResume r →
  sameOwnership r (releaseOwnership r').
Proof.
  intros Hp Hi Ho. unfold sameOwnership, settledOwner, ownerOf, releaseOwnership. rewrite Ho.
  destruct (ownerBeforeResume r) as [[p i]|] eqn:E; simpl.
  - done.
  - by rewrite Hp, Hi, Ho.
Qed.

Lemma takeOwnership_same o r r' :
  pid r' = pid r → instanceId r' = instanceId r → ownerBeforeResume r' = ownerBeforeResume r →
  status r' = running → sameOwnership r (takeOwnership o r').
Proof.
  intros Hp Hi Ho Hs. unfold sameOwnership, settledOwner, ownerOf, takeOwnership. simpl.
  by rewrite Hp, Hi, Ho, Hs.
Qed.

Lemma interrupt_same now why r : sameOwnership r (interrupt now why r).
Proof.
  unfold interrupt. case_match; [by apply sameOwnership_same|]. by apply releaseOwnership_same.
Qed.

Lemma apply_same e r : sameOwnership r (apply e r).
Proof.
  destruct e; simpl.
  - unfold suspend. by case_match; apply releaseOwnership_same.
  - by apply takeOwnership_same.
  - by apply takeOwnership_same.
  - unfold complete. case_match; [by apply sameOwnership_same|]. by apply releaseOwnership_same.
  - unfold endAsCancelled. case_match; [by apply sameOwnership_same|].
    repeat case_match; by apply releaseOwnership_same.
  - apply interrupt_same.
  - unfold interruptOrphaned. eapply sameOwnership_trans; [|apply interrupt_same].
    case_match; by apply sameOwnership_same.
  - unfold resetUnknownStepsForRecovery. case_match eqn:E; [|by apply sameOwnership_same].
    case_match eqn:Hs; simplify_eq. split_bools. apply sameOwnership_same; [done..|].
    intros _. congruence.
  - unfold applyStepStarts. case_match; by apply sameOwnership_same.
  - unfold failStepsNamingRefusedData. simpl. case_match eqn:Hs; apply sameOwnership_same; try done.
    split_bools. simpl in *. congruence.
  - by apply sameOwnership_same.
  - by apply sameOwnership_same.
  - unfold recordCancelReason. case_match; by apply sameOwnership_same.
  - by apply sameOwnership_same.
Qed.

Lemma applyAll_same es r : sameOwnership r (applyAll es r).
Proof.
  revert r. induction es as [|e es IH]; intros r; [by apply sameOwnership_same|].
  eapply sameOwnership_trans; [apply (apply_same e)|apply IH].
Qed.

(** C19: a run keeps its owner across resumes. From the start of a run, through
    any sequence of suspensions, resumes by any process, completions,
    cancellations, interruptions, recoveries and changes of its jobs, the owner
    cancel and supersede go to is the one that started the run; and whenever no
    process drives the run, its recorded process is that owner again. While a
    resume drives it, the record names the resuming process. *)
Theorem owner_survives_resumes (now : Z) (p : option Z) (inst : option string) (r : t)
    (es : list Event) :
  status r = pending → ownerBeforeResume r = None → instanceId r = None →
  let r0 := start now p inst r in
  let r' := applyAll es r0 in
  let owner := MkOwner p (match inst with Some i => if bool_decide (i = "") then None else Some i
                          | None => None end) in
  ownerOf r' = owner ∧
  (status r' ≠ running → pid r' = o_pid owner ∧ instanceId r' = o_instanceId owner) ∧
  (∀ at_ by_, let r'' := resumeFromSuspended at_ by_ r' in
     pid r'' = o_pid by_ ∧ instanceId r'' = o_instanceId by_ ∧ ownerOf r'' = owner).
Proof.
  intros Hs Ho Hi. cbn zeta.
  set (owner := MkOwner p _). set (r0 := start now p inst r).
  assert (ownerOf r0 = owner ∧ ownerBeforeResume r0 = None) as [H0 H0'].
  { unfold r0, start, ownerOf, owner. repeat case_match; simpl; by rewrite Ho, ?Hi. }
  destruct (applyAll_same es r0) as [E Hset]. rewrite H0 in E. split_and!; [done| |].
  - intros Hn. assert (ownerBeforeResume (applyAll es r0) = None) as Hnone
      by (apply Hset; [intros _; done|done]).
    unfold ownerOf in E. rewrite Hnone in E. simpl in E. by rewrite <-E.
  - intros at_ by_. split; [done|]. split; [done|]. rewrite <-E.
    by apply (takeOwnership_same by_ (applyAll es r0)).
Qed.

End ownership.

Definition localRun : @t SampleWaits.sampleWaits :=
  create "run" "wf" "deploy" [("build", ["compile"; "test"])] None None None None.

Lemma owner_survives_resumes_witness :
  status localRun = pending ∧
  ownerOf (applyAll [Suspend None; ResumeSuspended 20 (MkOwner (Some 7%Z) None); Cancel 30 None]
             (start 10 (Some 5%Z) (Some "serve-1") localRun)) = MkOwner (Some 5%Z) (Some "serve-1").
Proof.
  split; [reflexivity|].
  destruct (owner_survives_resumes 10 (Some 5%Z) (Some "serve-1") localRun
    [Suspend None; ResumeSuspended 20 (MkOwner (Some 7%Z) None); Cancel 30 None]) as [H1 _].
  - reflexivity.
  - reflexivity.
  - reflexivity.
  - exact H1.
Defined.

(** ** Endings *)

Section endings.
Context `{SignalWaits}.

Lemma stepsOf_fmap (r r' : t) F f :
  jobs r' = F <$> jobs r →
  (∀ j, JobRun.jobName (F j) = JobRun.jobName j ∧ JobRun.steps (F j) = f <$> JobRun.steps j) →
  stepsOf r' = (λ p, (p.1, f p.2)) <$> stepsOf r.
Proof.
  unfold stepsOf. intros -> HF. induction (jobs r) as [|j js IH]; csimpl; [done|].
  rewrite fmap_app, <-IH. destruct (HF j) as [-> ->]. f_equal.
  by rewrite <-!list_fmap_compose.
Qed.

Lemma detachJob_steps now (j : JobRun.t) :
  JobRun.jobName (detachJob now j) = JobRun.jobName j ∧
  JobRun.steps (detachJob now j) = detachStep now <$> JobRun.steps j.
Proof. unfold detachJob. by case_match. Qed.

Lemma detachJob_passed now (j : JobRun.t) : jobPassed (detachJob now j) = jobPassed j.
Proof.
  unfold detachJob. case_match eqn:E; [|done]. split_bools. unfold jobPassed.
  simpl in *. destruct (JobRun.status j); done.
Qed.

Lemma isNestedWait_detachStep now s : StepRun.isNestedWait (detachStep now s) = false.
Proof. unfold detachStep. by destruct (StepRun.isNestedWait s) eqn:E. Qed.

(** the end of a run detaches every step that waits on a nested run *)
Lemma detached_run now (r r' : t) :
  jobs r' = detachJob now <$> jobs r →
  findNestedWaits r' = [] ∧
  ∀ ref child, (ref, RunLink.valid child) ∈ findNestedWaits r → (ref, child) ∈ detachedNestedRuns r'.
Proof.
  intros Hj. pose proof (stepsOf_fmap r r' _ _ Hj (detachJob_steps now)) as E.
  unfold findNestedWaits, detachedNestedRuns. rewrite E. split.
  - apply elem_of_nil_inv. intros x (p' & (p & -> & _)%list_elem_of_fmap & Hx)%list_elem_of_omap.
    unfold nestedWaitOf in Hx. simpl in Hx. by rewrite isNestedWait_detachStep in Hx.
  - intros ref child (p & Hp & Hx)%list_elem_of_omap. apply list_elem_of_omap.
    exists (p.1, detachStep now p.2). split; [by apply (list_elem_of_fmap_2 (λ p, (p.1, detachStep now p.2)))|].
    unfold nestedWaitOf in Hx. destruct (StepRun.isNestedWait p.2) eqn:Hw; [|done].
    apply fmap_Some in Hx as (l & Hl & [= -> <-]). unfold detachedOf, detachStep. simpl. rewrite Hw. simpl.
    by rewrite Hl.
Qed.

Lemma passed_after now (js : list JobRun.t) :
  existsb (λ j, negb (jobPassed j)) (detachJob now <$> js) = false ↔ ∀ j, j ∈ js → jobPassed j = true.
Proof.
  rewrite existsb_false_elem_of. setoid_rewrite negb_false_iff. split.
  - intros Hall j Hj. rewrite <-(detachJob_passed now). by apply Hall, list_elem_of_fmap_2.
  - intros Hall j' (j & -> & Hj)%list_elem_of_fmap. rewrite detachJob_passed. auto.
Qed.


End endings.

(** ** Storage *)

Section storage.
Context `{SignalWaits} (isUuid : string → bool).

(** a job run whose steps and lanes are as the schemas read them *)
Definition wfJob (j : JobRun.t) : Prop :=
  Forall (StepRun.wf isUuid) (JobRun.steps j) ∧
  ∀ plan, JobRun.fanOutPlan j = Some plan →
    Forall (λ l, Forall (StepRun.wf isUuid) (JobRun.l_steps l)) (JobRun.lanes plan).

Definition wfRun (r : t) : Prop :=
  Forall wfJob (jobs r) ∧
  ∀ l, parentRun r = Some l →
    RunLink.wf (RunLink.parseParentRunRef isUuid) RunLink.parentToData l.

Definition storedJob (j : JobRun.t) : JobRun.t := j <| JobRun.forEachMappings := ∅ |>.

(** a run as it is after a save and a load: the forEach expansions are registered
    again by the process that drives the run, an empty log file name and an empty
    set of references are not kept, and a recovery is remembered only while the
    run waits for its resume *)
Definition stored (r : t) : t :=
  r <| jobs := storedJob <$> jobs r |>
    <| logFile := match logFile r with
                  | Some f => if bool_decide (f = "") then None else Some f
                  | None => None
                  end |>
    <| references := references r ≫= nonEmpty |>
    <| recovered := awaitsResumeAfterRecovery r |>.

Lemma nonEmpty_default {A} (l : list A) : default [] (nonEmpty l) = l.
Proof. by destruct l. Qed.

Lemma nonEmpty_idemp {A} (o : option (list A)) : (o ≫= nonEmpty) ≫= nonEmpty = o ≫= nonEmpty.
Proof. by destruct o as [[]|]. Qed.

Lemma stepsOf_stored r : stepsOf (stored r) = stepsOf r.
Proof.
  rewrite (stepsOf_fmap r (stored r) storedJob (λ s, s)); [|done|].
  - rewrite <-(list_fmap_id (stepsOf r)) at 2. apply list_fmap_ext. by intros ? [] _.
  - intros j. by rewrite list_fmap_id.
Qed.

Lemma toData_stored r : toData (stored r) = toData r.
Proof.
  unfold toData, failureInfo, computeStepProgress, isAwaitingResume, findWaitingApprovalStep,
    findNestedWaits, findSignalWaits, awaitsResumeAfterRecovery.
  rewrite stepsOf_stored. simpl. f_equal.
  - rewrite <-list_fmap_compose. by apply list_fmap_ext.
  - destruct (logFile r) as [f|]; [|done]. case_bool_decide; [done|]. by rewrite bool_decide_eq_false_2.
  - apply nonEmpty_idemp.
  - f_equal. unfold awaitsResumeAfterRecovery. by destruct (bool_decide _).
Qed.

Context `{!SignalWaitLaws}.

Lemma steps_roundtrip (l : list StepRun.t) :
  Forall (StepRun.wf isUuid) l → StepRun.fromData isUuid <$> (StepRun.toData <$> l) = l.
Proof.
  induction 1 as [|s l Hs Hl IH]; csimpl; [done|]. by rewrite IH, StepRun.fromData_toData.
Qed.

Lemma job_roundtrip (j : JobRun.t) :
  wfJob j → JobRun.fromData isUuid (JobRun.toData j) = storedJob j.
Proof.
  intros [Hs Hp]. destruct j as [name st sa ca ss plan maps].
  unfold JobRun.fromData, storedJob. simpl in *. rewrite steps_roundtrip by done. f_equal.
  destruct plan as [plan|]; [|done]. specialize (Hp plan eq_refl). destruct plan as [ms pl mf bs ls].
  simpl in *. unfold JobRun.planFromData. simpl. do 2 f_equal.
  induction Hp as [|l ls Hl Hls IH]; csimpl; [done|]. rewrite IH. f_equal.
  unfold JobRun.laneFromData. destruct l. simpl in *. by rewrite steps_roundtrip.
Qed.

Lemma jobs_roundtrip (js : list JobRun.t) :
  Forall wfJob js → JobRun.fromData isUuid <$> (JobRun.toData <$> js) = storedJob <$> js.
Proof. induction 1 as [|j js Hj Hjs IH]; csimpl; [done|]. by rewrite IH, job_roundtrip. Qed.


End storage.

Definition anyUuid (s : string) : bool := negb (bool_decide (s = "")).

Definition waitingRun : @t SampleWaits.sampleWaits :=
  create "run" "wf" "deploy" [("build", ["compile"])] None None None None
    <| jobs := [JobRun.pending "build" [] <| JobRun.steps :=
         [StepRun.waitForSignal (("w1", 100%Z) : @SignalWait SampleWaits.sampleWaits)
            (StepRun.pending "gate" None)] |>] |>
    <| parentRun := Some (RunLink.valid (RunLink.MkParent "p" "parent" "q" "job" "step" 1 [])) |>.


(** ** Resets *)

Section resets.
Context `{SignalWaits}.

Lemma stepRunKey_inj a b : stepRunKey a = stepRunKey b → a = b.
Proof.
  unfold stepRunKey. destruct a as [j s], b as [j' s']. simpl. intros E%(str_app_inj_l "[").
  apply JSON_stringify_inj in E as [-> E]. apply (str_app_inj_l ",") in E.
  by apply JSON_stringify_inj in E as [-> _].
Qed.

Lemma key_in_set ref refs : stepRunKey ref ∈ set_of (stepRunKey <$> refs) ↔ ref ∈ refs.
Proof.
  rewrite elem_of_set_of, list_elem_of_fmap. split; [|by eauto].
  intros (ref' & ->%stepRunKey_inj & ?). done.
Qed.

(** A resume resets exactly the steps it names. Every step of the run is put
    back to pending when its job and its name are among the steps to reset, and
    otherwise keeps everything but an old reset marker; a job is put back to
    pending exactly when one of its steps was. In particular a step of the same
    name in another job is left alone, whatever characters the names hold. *)
Lemma resume_resets_exactly (refs : list StepRunRef) (r : t) (i : nat) (j : JobRun.t) :
  jobs r !! i = Some j →
  ∃ j', jobs (resetForResumeFrom refs [] r) !! i = Some j' ∧ JobRun.jobName j' = JobRun.jobName j ∧
    (∀ k s, JobRun.steps j !! k = Some s →
       JobRun.steps j' !! k = Some
         (if decide (MkRef (JobRun.jobName j) (StepRun.stepName s) ∈ refs)
          then StepRun.pending (StepRun.stepName s) (StepRun.forEachTemplate s)
          else s <| StepRun.resetByResume := false |>)) ∧
    ((∃ s, s ∈ JobRun.steps j ∧ MkRef (JobRun.jobName j) (StepRun.stepName s) ∈ refs) →
       JobRun.status j' = RunStatus.pending) ∧
    ((¬ ∃ s, s ∈ JobRun.steps j ∧ MkRef (JobRun.jobName j) (StepRun.stepName s) ∈ refs) →
       JobRun.status j' = JobRun.status j).
Proof.
  intros Hj. unfold resetForResumeFrom. simpl. set (keys := set_of _).
  exists (resetJob keys j). rewrite list_lookup_fmap, Hj. split; [done|].
  unfold resetJob. set (needs := existsb _ _).
  assert (needs = true ↔ ∃ s, s ∈ JobRun.steps j ∧ MkRef (JobRun.jobName j) (StepRun.stepName s) ∈ refs) as Hn.
  { unfold needs, keys. rewrite existsb_elem_of. setoid_rewrite bool_decide_eq_true.
    by setoid_rewrite key_in_set. }
  assert (JobRun.steps (if needs then JobRun.resetToPending (mapSteps (resetStep keys j) j)
                        else mapSteps (resetStep keys j) j) = resetStep keys j <$> JobRun.steps j) as Hs
    by by destruct needs.
  split_and!.
  - by destruct needs.
  - intros k s Hk. rewrite Hs, list_lookup_fmap, Hk. simpl. f_equal. unfold resetStep. simpl.
    case_decide as Hd; [rewrite bool_decide_eq_true_2 by (by apply key_in_set)
                       |rewrite bool_decide_eq_false_2 by (unfold keys; by rewrite key_in_set)]; done.
  - intros Hex. apply Hn in Hex as ->. done.
  - intros Hex. destruct needs; [|done]. destruct Hex. by apply Hn.
Qed.

End resets.

Lemma resume_resets_exactly_witness :
  ∃ j', jobs (resetForResumeFrom [MkRef "build" "test"] [] localRun) !! 0 = Some j' ∧
        JobRun.status j' = RunStatus.pending.
Proof.
  destruct (resume_resets_exactly [MkRef "build" "test"] localRun 0
    (JobRun.pending "build" ["compile"; "test"])) as (j' & H1 & _ & _ & H2 & _).
  - reflexivity.
  - exists j'. split; [exact H1|]. apply H2.
    exists (StepRun.pending "test" None). split; [by right; left|by left].
Defined.

(** ** Refused data *)

Section refused.
Context `{SignalWaits}.

Lemma failRefusedJob_steps now keys reason (j : JobRun.t) :
  JobRun.jobName (failRefusedJob now keys reason j) = JobRun.jobName j ∧
  JobRun.steps (failRefusedJob now keys reason j) =
  (λ s, if refusesStep keys s then StepRun.fail now reason None s else s) <$> JobRun.steps j.
Proof. unfold failRefusedJob. by case_match. Qed.

(** Refused data is never part of a success. Once a commit refused some
    versions, every step that names one of them is failed, a step that had
    already failed keeps its own error, every job with a newly failed step is not
    succeeded, and the run is not succeeded when a step was newly failed or when
    the run itself names refused data; a run with none of this keeps its status. *)
Lemma refused_data_never_succeeds (now : Z) (refused : list (string * Z)) (reason : string) (r : t) :
  let keys := (λ '(d, v), versionKey d v) <$> refused in
  let names arts := ∃ a, a ∈ arts ∧ versionKey (StepRun.dataId a) (StepRun.version a) ∈ keys in
  let '(r', failedNow) := failStepsNamingRefusedData now refused reason r in
  (∀ p, p ∈ stepsOf r' → names (StepRun.dataArtifacts p.2) → StepRun.status p.2 = RunStatus.failed) ∧
  (∀ p, p ∈ stepsOf r → StepRun.status p.2 = RunStatus.failed → p ∈ stepsOf r') ∧
  (∀ j s, j ∈ jobs r → s ∈ JobRun.steps j → names (StepRun.dataArtifacts s) →
     StepRun.status s ≠ RunStatus.failed →
     ∃ j', j' ∈ jobs r' ∧ JobRun.jobName j' = JobRun.jobName j ∧
           JobRun.status j' ≠ RunStatus.succeeded ∧ StepRun.fail now reason None s ∈ JobRun.steps j') ∧
  (status r' = succeeded → failedNow = [] ∧ ¬ names (workflowDataArtifacts r)) ∧
  (failedNow = [] → ¬ names (workflowDataArtifacts r) → status r' = status r).
Proof.
  cbn zeta. unfold failStepsNamingRefusedData. set (keys := set_of _).
  assert (∀ arts, namesRefused keys arts = true ↔
    ∃ a, a ∈ arts ∧ versionKey (StepRun.dataId a) (StepRun.version a) ∈ (λ '(d, v), versionKey d v) <$> refused)
    as Hn.
  { intros arts. unfold namesRefused. rewrite existsb_elem_of. setoid_rewrite bool_decide_eq_true.
    unfold keys. by setoid_rewrite elem_of_set_of. }
  set (hits := (jobs r ≫= _)). setoid_rewrite <-Hn. clear Hn.
  set (f := λ s, if refusesStep keys s then StepRun.fail now reason None s else s).
  assert (∀ s, namesRefused keys (StepRun.dataArtifacts (f s)) = true → StepRun.status (f s) = RunStatus.failed) as Hfail.
  { intros s. unfold f, refusesStep. destruct (decide (StepRun.status s = RunStatus.failed)) as [E|E].
    - by rewrite bool_decide_eq_true_2.
    - rewrite bool_decide_eq_false_2 by done. simpl. case_match eqn:Hr; [done|]. congruence. }
  assert (∀ j s, j ∈ jobs r → s ∈ JobRun.steps j → refusesStep keys s = true → hits ≠ []) as Hhits.
  { intros j s Hj Hs Hr Hnil. eapply (not_elem_of_nil (StepRun.fail now reason None s)).
    rewrite <-Hnil. apply list_elem_of_bind. exists j. split; [|done].
    apply list_elem_of_fmap_2, elem_of_bfilter. done. }
  set (r1 := r <| jobs := _ |>).
  assert (∀ r2, jobs r2 = jobs r1 → stepsOf r2 = (λ p, (p.1, f p.2)) <$> stepsOf r) as Hsteps.
  { intros r2 E. apply (stepsOf_fmap r r2 (failRefusedJob now keys reason)); [done|].
    apply failRefusedJob_steps. }
  set (c := _ && _). set (r2 := if c then _ else r1).
  assert (jobs r2 = jobs r1) as E2 by (unfold r2; by destruct c).
  rewrite (Hsteps _ E2), E2. split_and!.
  - intros p' (p & -> & _)%list_elem_of_fmap. apply Hfail.
  - intros p Hp Hst. replace p with (p.1, f p.2) at 1.
    + by apply (list_elem_of_fmap_2 (λ p, (p.1, f p.2))).
    + destruct p as [n s]. unfold f, refusesStep. simpl in *. by rewrite bool_decide_eq_true_2.
  - intros j s Hj Hs Hr Hst. exists (failRefusedJob now keys reason j).
    assert (refusesStep keys s = true) as Hr'
      by (unfold refusesStep; by rewrite bool_decide_eq_false_2, Hr).
    destruct (failRefusedJob_steps now keys reason j) as [En Es].
    split_and!; [by apply list_elem_of_fmap_2|done| |].
    + unfold failRefusedJob. rewrite (proj2 (existsb_elem_of _ _)) by eauto. simpl.
      case_bool_decide; done.
    + rewrite Es. replace (StepRun.fail now reason None s) with (f s) by (unfold f; by rewrite Hr').
      by apply list_elem_of_fmap_2.
  - unfold r2. destruct c eqn:Ec; [done|]. simpl. intros Hst. unfold c in Ec.
    rewrite (bool_decide_eq_true_2 (status r1 = succeeded)), andb_true_r in Ec by done. split_bools.
    split; [by apply nil_length_inv|]. simpl in *. congruence.
  - intros Hnil Hna. unfold r2, c. rewrite Hnil. simpl.
    destruct (namesRefused keys (workflowDataArtifacts r)); [done|]. done.
Qed.

End refused.
End WorkflowRunProps.
