(* ===== verification/ResumePlan.v ===== *)
(** * Resuming a run: pairing of jobs, retries and resets

    [src/src/domain/workflows/job_pairing.ts] (which stored job an
    expression-named job became), [failed_step_retry.ts] (the steps a retry
    starts from) and [resume_reset.ts] (the records a resume resets, and the
    changes of the workflow it refuses), with the quoting of
    [src/src/domain/shell_word.ts] their messages use. A [UserError] is
    [Throw]; maps and sets of names are [gmap] and lists without duplicates.

    The closure of the reset takes fuel: a queue of the entries and of one
    element for each edge is enough ([templatesToReset_closure]). *)

From Stdlib Require Import Ascii.
From S2P Require Import Prelude JsString ExpressionScanner ExpressionReferences.
From S2P Require Import TriggerCondition Remote StepRun JobRun WorkflowRun Workflow.

(** ** Words of a shell *)

Module ShellWord.

Definition isControl (c : ascii) : bool := in_range 0 31 c || in_range 127 159 c.

Fixpoint someChar (p : ascii → bool) (s : string) : bool :=
  match s with EmptyString => false | String c s => p c || someChar p s end.

Definition hasControlCharacter (value : string) : bool := someChar isControl value.

(** [SHELL_SAFE_WORD] *)
Definition isSafeChar (c : ascii) : bool :=
  isLowerAZ c || in_range 65 90 c || isDigit c ||
  existsb (Ascii.eqb c) (String.list_ascii_of_string "_@%+=:,./-").

Fixpoint replaceAll (c : ascii) (by_ : string) (s : string) : string :=
  match s with
  | EmptyString => EmptyString
  | String d s => (if Ascii.eqb c d then by_ else String d "") +:+ replaceAll c by_ s
  end.

Definition BACKSLASH : string := String Lexer.BACKSLASH "".
Definition APOSTROPHE : string := "'".

Definition hexByte (c : ascii) : string :=
  String (hexDigit (code c / 16)%Z) (String (hexDigit (code c mod 16)%Z) "").

Fixpoint mapControl (s : string) : string :=
  match s with
  | EmptyString => EmptyString
  | String c s =>
      (if isControl c then BACKSLASH +:+ (if (code c <? 128)%Z then "x" else "u00") +:+ hexByte c
       else String c "") +:+ mapControl s
  end.

Definition ansiCQuote (value : string) : string :=
  let escaped := replaceAll "'" (BACKSLASH +:+ APOSTROPHE)
                   (replaceAll Lexer.BACKSLASH (BACKSLASH +:+ BACKSLASH) value) in
  "$" +:+ APOSTROPHE +:+ mapControl escaped +:+ APOSTROPHE.

Definition quoteShellWord (value : string) : string :=
  if negb (bool_decide (value = "")) && all_chars isSafeChar value then value
  else if hasControlCharacter value then ansiCQuote value
  else APOSTROPHE +:+ replaceAll "'" (APOSTROPHE +:+ DQ +:+ APOSTROPHE +:+ DQ +:+ APOSTROPHE) value +:+ APOSTROPHE.

End ShellWord.

(** ** Pairing of jobs *)

Module JobPairing.
Section pairing.
Context `{SignalWaits} `{CelGrammar}.

Definition evaluatedName (name : string) : bool :=
  match String.index 0 Scanner.OPENER name with Some _ => true | None => false end.

(** the literal text around the expressions *)
Fixpoint literalParts (template : string) (from : nat) (spans : list Scanner.ExpressionSpan)
    : list string :=
  match spans with
  | [] => [Lexer.slice template from (String.length template)]
  | span :: spans =>
      Lexer.slice template from (Scanner.start span) :: literalParts template (Scanner.end_ span) spans
  end.

Fixpoint findParts (stored : string) (at_ : nat) (parts : list string) : option nat :=
  match parts with
  | [] => Some at_
  | part :: parts =>
      match String.index at_ part stored with
      | None => None
      | Some found => findParts stored (found + String.length part) parts
      end
  end.

Definition endsWith (s suffix : string) : bool :=
  (String.length suffix <=? String.length s) &&
  bool_decide (String.substring (String.length s - String.length suffix) (String.length suffix) s = suffix).

Definition fits (template stored : string) : bool :=
  match literalParts template 0 (Scanner.scanExpressions template) with
  | [] | [_] => bool_decide (stored = template)
  | first :: rest =>
      let last_ := default "" (last rest) in
      if negb (startsWith stored first) then false
      else match findParts stored (String.length first) (removelast rest) with
           | None => false
           | Some at_ =>
               (String.length last_ <=? String.length stored) &&
               (at_ <=? String.length stored - String.length last_) && endsWith stored last_
           end
  end.

(** [INPUT_REFERENCE]: the segments after [inputs] *)
Definition isNameStart (c : ascii) : bool := isLowerAZ c || in_range 65 90 c || Ascii.eqb c "_".

Definition isIdentifier (s : string) : bool :=
  match s with
  | String c rest => isNameStart c && all_chars (λ c, isNameStart c || isDigit c) rest
  | EmptyString => false
  end.

Definition inputPath (inner : string) : option (list string) :=
  match splitOn "." inner with
  | root :: ((_ :: _) as path) =>
      if bool_decide (root = "inputs") && forallb isIdentifier path then Some path else None
  | _ => None
  end.

(** [value[key]] where [value] is an object or an array; a key is an identifier,
    so the only primitive an array or a prototype adds is the length *)
Definition property (key : string) (value : option JsValue) : option JsValue :=
  match value with
  | Some (VObj l) => assoc_get key l
  | Some (VArr l) => if bool_decide (key = "length") then Some (VNum (Z.of_nat (length l))) else None
  | _ => None
  end.

Definition inputValue (inputs : list (string * JsValue)) (inner : string) : option string :=
  match inputPath inner with
  | None => None
  | Some path =>
      match foldl (λ v key, property key v) (Some (VObj inputs)) path with
      | Some ((VStr _ | VNum _ | VBool _) as v) => Some (js_toString v)
      | _ => None
      end
  end.

Definition nameFromInputs (template : string) (inputs : list (string * JsValue)) : option string :=
  let name := Scanner.replaceExpressionSpans template
                (λ span, default "" (inputValue inputs (Scanner.inner span))) in
  if forallb (λ span, bool_decide (inputValue inputs (Scanner.inner span) ≠ None))
       (Scanner.scanExpressions template)
  then Some name else None.

Definition literalNames (w : Workflow.t) : list string :=
  Job.name <$> List.filter (λ j, negb (evaluatedName (Job.name j))) (Workflow.jobs w).

(** the pairs found by evaluating names, and the indices left *)
Fixpoint pairByInputs (w : Workflow.t) (r : WorkflowRun.t) (i : nat) (js : list Job.t)
    (pairs : gmap string string) (unpaired : list nat) : gmap string string * list nat :=
  match js with
  | [] => (pairs, unpaired)
  | job :: js =>
      if negb (evaluatedName (Job.name job)) then pairByInputs w r (S i) js pairs unpaired
      else
        match nameFromInputs (Job.name job) (WorkflowRun.inputs r) with
        | Some name =>
            if negb (bool_decide (name ∈ literalNames w)) &&
               bool_decide (is_Some (WorkflowRun.getJob name r))
            then pairByInputs w r (S i) js (<[Job.name job := name]> pairs) unpaired
            else pairByInputs w r (S i) js pairs (unpaired ++ [i])
        | None => pairByInputs w r (S i) js pairs (unpaired ++ [i])
        end
  end.

(** the literal jobs are at their stored positions *)
Definition samePositions (w : Workflow.t) (r : WorkflowRun.t) : bool :=
  forallb (λ p, evaluatedName (Job.name p.1) || bool_decide (JobRun.jobName p.2 = Job.name p.1))
    (zip (Workflow.jobs w) (WorkflowRun.jobs r)).

Fixpoint pairByPosition (w : Workflow.t) (r : WorkflowRun.t) (unpaired : list nat)
    (pairs : gmap string string) : option (gmap string string) :=
  match unpaired with
  | [] => Some pairs
  | i :: unpaired =>
      match Workflow.jobs w !! i, WorkflowRun.jobs r !! i with
      | Some job, Some stored =>
          let stored := JobRun.jobName stored in
          if bool_decide (stored ∈ literalNames w) || negb (fits (Job.name job) stored) then None
          else pairByPosition w r unpaired (<[Job.name job := stored]> pairs)
      | _, _ => None
      end
  end.

Definition distinctValues (pairs : gmap string string) : bool :=
  size (list_to_set (map_to_list pairs).*2 : gset string) =? size pairs.

Definition pairExpressionJobs (w : Workflow.t) (r : WorkflowRun.t) : option (gmap string string) :=
  let '(pairs, unpaired) := pairByInputs w r 0 (Workflow.jobs w) ∅ [] in
  paired ← (match unpaired with
            | [] => Some pairs
            | _ =>
                if negb (length (Workflow.jobs w) =? length (WorkflowRun.jobs r)) then None
                else if negb (samePositions w r) then None
                else pairByPosition w r unpaired pairs
            end : option (gmap string string));
  if distinctValues paired then Some paired else None.

(** [pairs?.get(name)] *)
Definition pairOf (pairs : option (gmap string string)) (name : string) : option string :=
  p ← pairs; p !! name.

Definition workflowJobOf (w : Workflow.t) (jobRun : JobRun.t) (pairs : option (gmap string string))
    : option Job.t :=
  match List.find (λ j, negb (evaluatedName (Job.name j)) &&
                        bool_decide (Job.name j = JobRun.jobName jobRun)) (Workflow.jobs w) with
  | Some j => Some j
  | None =>
      List.find (λ j, evaluatedName (Job.name j) &&
                      bool_decide (pairOf pairs (Job.name j) = Some (JobRun.jobName jobRun)))
        (Workflow.jobs w)
  end.

Definition shown (name : option string) : string := default "undefined" name.

Definition evaluatedJobMismatch (w resolved : Workflow.t) (r : WorkflowRun.t) (resetJobs : list string)
    (pairs : option (gmap string string)) : option string :=
  let fix loop (i : nat) (js : list Job.t) : option string :=
    match js with
    | [] => None
    | job :: js =>
        if negb (evaluatedName (Job.name job)) then loop (S i) js
        else
          let now := Job.name <$> Workflow.jobs resolved !! i in
          let paired := pairOf pairs (Job.name job) in
          let held := match paired with Some p => bool_decide (p ∈ resetJobs) | None => false end in
          if match now with
             | Some n => bool_decide (is_Some (WorkflowRun.getJob n r)) &&
                         (negb held || bool_decide (now = paired))
             | None => false
             end
          then loop (S i) js
          else Some ("Job " +:+ quoted (Job.name job) +:+ " now evaluates to " +:+ quoted (shown now) +:+
                     (if held then ", but the run stored it as " +:+ quoted (shown paired) +:+ "."
                      else ", which is not in the run."))
    end in
  loop 0 (Workflow.jobs w).

End pairing.
End JobPairing.

(** ** Retries of failed steps *)

Module FailedStepRetry.
Import JobPairing.
Section retry.
Context `{SignalWaits} `{CelGrammar}.

(** [TERMINAL_STATUSES] *)
Definition isTerminal (s : RunStatus.t) : bool :=
  match s with RunStatus.succeeded | RunStatus.failed | RunStatus.skipped => true | _ => false end.

Definition statusText (s : RunStatus.t) : string :=
  match s with
  | RunStatus.pending => "pending" | RunStatus.running => "running"
  | RunStatus.waiting_approval => "waiting_approval" | RunStatus.waiting => "waiting"
  | RunStatus.waiting_signal => "waiting_signal" | RunStatus.succeeded => "succeeded"
  | RunStatus.failed => "failed" | RunStatus.skipped => "skipped" | RunStatus.unknown => "unknown"
  end.

Definition entryTemplateOf (s : WorkflowRun.FailedStepRef) : string :=
  default (WorkflowRun.f_stepName s) (WorkflowRun.f_forEachTemplate s).

(** [job?.getStep(name)] *)
Definition hasStep (name : string) (j : Job.t) : bool :=
  match Job.getStep name j with Some _ => true | None => false end.

Definition fromJobFor (w : Workflow.t) (r : WorkflowRun.t) (jobName template : string) : option string :=
  if length (List.filter (hasStep template) (Workflow.jobs w)) <? 2 then None
  else
    jobRun ← WorkflowRun.getJob jobName r;
    job ← workflowJobOf w jobRun (pairExpressionJobs w r);
    if hasStep template job then Some (Job.name job) else None.

Definition fromArguments (w : Workflow.t) (r : WorkflowRun.t) (jobName template : string) : string :=
  let from := "--from " +:+ ShellWord.quoteShellWord template in
  match fromJobFor w r jobName template with
  | Some job => from +:+ " --job " +:+ ShellWord.quoteShellWord job
  | None => from
  end.

Fixpoint firstDuplicate (names seen : list string) : option string :=
  match names with
  | [] => None
  | name :: names =>
      if bool_decide (name ∈ seen) then Some name else firstDuplicate names (set_add name seen)
  end.

(** the first failure of a list of checks *)
Fixpoint checkAll {A} (f : A → result ()) (l : list A) : result () :=
  match l with
  | [] => Ok tt
  | x :: l => _ ← f x; checkAll f l
  end.

Definition inJob (stepName jobName : string) : string :=
  "Step " +:+ quoted stepName +:+ " in job " +:+ quoted jobName.

Definition historyOf (r : WorkflowRun.t) : string :=
  "See 'swamp workflow history logs " +:+ WorkflowRun.id r +:+ "'.".

Definition checkFinishedStep (w : Workflow.t) (r : WorkflowRun.t) (j : JobRun.t) (s : StepRun.t)
    : result () :=
  if isTerminal (StepRun.status s) then Ok tt
  else
    let hint :=
      if bool_decide (StepRun.status s = RunStatus.pending) then
        " Add " +:+ fromArguments w r (JobRun.jobName j)
          (default (StepRun.stepName s) (StepRun.forEachTemplate s)) +:+ " to run it."
      else "" in
    Throw (inJob (StepRun.stepName s) (JobRun.jobName j) +:+ " is " +:+ statusText (StepRun.status s) +:+
      "; retry needs every step finished." +:+ hint +:+ " " +:+ historyOf r).

Definition checkFinishedJob (w : Workflow.t) (r : WorkflowRun.t) (j : JobRun.t) : result () :=
  _ ← checkAll (checkFinishedStep w r j) (JobRun.steps j);
  throw_if (negb (isTerminal (JobRun.status j)))
    ("Job " +:+ quoted (JobRun.jobName j) +:+ " is " +:+ statusText (JobRun.status j) +:+
     "; retry needs every job finished. " +:+ historyOf r).

(** [entries.set(stepRunKey(entry), entry)] *)
Fixpoint setEntry (entry : WorkflowRun.StepRunRef) (entries : list WorkflowRun.StepRunRef)
    : list WorkflowRun.StepRunRef :=
  match entries with
  | [] => [entry]
  | e :: entries =>
      if bool_decide (WorkflowRun.stepRunKey e = WorkflowRun.stepRunKey entry)
      then entry :: entries else e :: setEntry entry entries
  end.

Fixpoint entryLoop (w : Workflow.t) (r : WorkflowRun.t) (pairs : option (gmap string string))
    (failed : list WorkflowRun.FailedStepRef) (entries : list WorkflowRun.StepRunRef)
    : result (list WorkflowRun.StepRunRef) :=
  match failed with
  | [] => Ok entries
  | s :: failed =>
      let template := entryTemplateOf s in
      match WorkflowRun.getJob (WorkflowRun.f_jobName s) r ≫= (λ j, workflowJobOf w j pairs) with
      | Some job =>
          if hasStep template job
          then entryLoop w r pairs failed (setEntry (WorkflowRun.MkRef (Job.name job) template) entries)
          else Throw (inJob (WorkflowRun.f_stepName s) (WorkflowRun.f_jobName s) +:+
                 " is not in the current workflow. Start a new run. " +:+ historyOf r)
      | None =>
          Throw (inJob (WorkflowRun.f_stepName s) (WorkflowRun.f_jobName s) +:+
            " is not in the current workflow. Start a new run. " +:+ historyOf r)
      end
  end.

Definition refuseRejected (w : Workflow.t) (r : WorkflowRun.t) : result () :=
  match List.find WorkflowRun.f_approvalRejected (WorkflowRun.failedSteps r) with
  | Some s =>
      Throw (inJob (WorkflowRun.f_stepName s) (WorkflowRun.f_jobName s) +:+
        " was rejected; retry won't re-open it. Add " +:+
        fromArguments w r (WorkflowRun.f_jobName s) (entryTemplateOf s) +:+ " to ask again. " +:+ historyOf r)
  | None => Ok tt
  end.

Definition refuseStranded (r : WorkflowRun.t) : result () :=
  match List.find (λ s, match WorkflowRun.f_failureKind s with
                        | Some StepRun.workflow_changed => true | None => false end)
          (WorkflowRun.failedSteps r) with
  | Some s =>
      Throw (inJob (entryTemplateOf s) (WorkflowRun.f_jobName s) +:+
        " did not run: the workflow or a forEach collection changed. Start a new run. " +:+ historyOf r)
  | None => Ok tt
  end.

Definition selectRetryTemplates (w : Workflow.t) (r : WorkflowRun.t)
    : result (list WorkflowRun.StepRunRef) :=
  let failed := WorkflowRun.failedSteps r in
  _ ← refuseRejected w r;
  _ ← refuseStranded r;
  _ ← checkAll (checkFinishedJob w r) (WorkflowRun.jobs r);
  _ ← throw_if (length failed =? 0) ("Run has no failed step to retry. " +:+ historyOf r);
  _ ← checkAll (λ j, throw_if (bool_decide (JobRun.status j = RunStatus.failed) &&
                       negb (bool_decide (JobRun.jobName j ∈ WorkflowRun.f_jobName <$> failed)))
             ("Job " +:+ quoted (JobRun.jobName j) +:+
              " failed before any step failed; retry cannot select a step. " +:+ historyOf r))
        (WorkflowRun.jobs r);
  entries ← entryLoop w r (pairExpressionJobs w r) failed [];
  _ ← checkAll (λ j, match firstDuplicate (StepRun.stepName <$> JobRun.steps j) [] with
                     | Some name =>
                         Throw ("Step name " +:+ quoted name +:+ " is stored more than once in job " +:+
                           quoted (JobRun.jobName j) +:+ "; retry needs unique step names in a job. " +:+ historyOf r)
                     | None => Ok tt
                     end) (WorkflowRun.jobs r);
  Ok entries.

End retry.
End FailedStepRetry.

(** ** Resets *)

Module ResumeReset.
Import JobPairing FailedStepRetry WorkflowRun.
Section reset.
Context `{SignalWaits} `{CelGrammar} `{CelParser}.

Notation Pairs := (option (gmap string string)).

Inductive ResetBranch : Type := by_name | by_template | by_prefix | by_settled.

#[global] Instance ResetBranch_eq_dec : EqDecision ResetBranch.
Proof. solve_decision. Defined.

Record SelectedRecord : Type := MkSelected {
  s_jobName : string;
  s_stepName : string;
  s_forEachTemplate : option string;
  s_branch : ResetBranch;
}.

Record ResumeReset : Type := MkReset { steps : list StepRunRef; tracked : list StepRunRef; pairs : Pairs }.

(** [FINISHED_STATUSES] *)
Definition isFinishedStatus (s : RunStatus.t) : bool :=
  match s with
  | RunStatus.succeeded | RunStatus.failed | RunStatus.skipped | RunStatus.unknown => true
  | _ => false
  end.

Definition finishedRecord (s : StepRun.t) : bool :=
  isFinishedStatus (StepRun.status s) && negb (StepRun.settledByAbort s).

Definition finishedJob (j : JobRun.t) : bool :=
  isFinishedStatus (JobRun.status j) && negb (JobRun.holdsAbortedWork j).

Record ResumeFrom : Type := MkFrom { from_step : string; from_job : option string }.

Definition jobList (names : list string) : string :=
  let listed := join ", " (quoted <$> take 3 names) in
  if 3 <? length names
  then listed +:+ " and " +:+ pretty (Z.of_nat (length names - 3)) +:+ " more" else listed.

Definition jobsNoun (names : list string) : string := if length names =? 1 then "job" else "jobs".

Definition stepNotFound (w : Workflow.t) (step : string) : string :=
  let all := set_of (j ← Workflow.jobs w; Step.name <$> Job.steps j) in
  "Step " +:+ quoted step +:+ " not found in workflow " +:+ quoted (Workflow.name w) +:+
  ". Available steps: " +:+ join ", " all.

Definition resolveFrom (w : Workflow.t) (from : ResumeFrom) : result StepRunRef :=
  let step := from_step from in
  let jobsWithStep := Job.name <$> List.filter (hasStep step) (Workflow.jobs w) in
  match from_job from with
  | Some name =>
      match Workflow.getJob name w with
      | None =>
          Throw ("Job " +:+ quoted name +:+ " not found in workflow " +:+ quoted (Workflow.name w) +:+
            ". Available jobs: " +:+ jobList (Job.name <$> Workflow.jobs w) +:+ ".")
      | Some job =>
          if hasStep step job then Ok (MkRef (Job.name job) step)
          else match jobsWithStep with
               | [] => Throw (stepNotFound w step)
               | _ => Throw ("Step " +:+ quoted step +:+ " is not in job " +:+ quoted name +:+ ". It is in " +:+
                        jobsNoun jobsWithStep +:+ " " +:+ jobList jobsWithStep +:+ ".")
               end
      end
  | None =>
      match jobsWithStep with
      | [] => Throw (stepNotFound w step)
      | [job] => Ok (MkRef job step)
      | _ => Throw ("Step " +:+ quoted step +:+ " is in more than one job: " +:+ jobList jobsWithStep +:+
               ". Add --job <job> to choose one.")
      end
  end.

(** *** The closure over the dependencies *)

(** the calls of [edge], in order *)
Definition stepEdges (job : Job.t) : list (string * string) :=
  s ← Job.steps job;
  (λ dep, (stepRunKey (MkRef (Job.name job) dep), stepRunKey (MkRef (Job.name job) (Step.name s))))
    <$> Step.getDependencyNames s.

Definition jobEdges (w : Workflow.t) (job : Job.t) : list (string * string) :=
  depName ← Job.getDependencyNames job;
  match List.find (λ j, bool_decide (Job.name j = depName)) (Workflow.jobs w) with
  | None => []
  | Some depJob =>
      depStep ← Job.steps depJob;
      (λ s, (stepRunKey (MkRef (Job.name depJob) (Step.name depStep)),
             stepRunKey (MkRef (Job.name job) (Step.name s)))) <$> Job.steps job
  end.

Definition edges (w : Workflow.t) : list (string * string) :=
  job ← Workflow.jobs w; stepEdges job ++ jobEdges w job.

Definition edge (downstreamOf : gmap string (list string)) (e : string * string)
    : gmap string (list string) :=
  <[e.1 := set_add e.2 (default [] (downstreamOf !! e.1))]> downstreamOf.

Definition downstreamOf (w : Workflow.t) : gmap string (list string) := foldl edge ∅ (edges w).

Fixpoint closureLoop (fuel : nat) (downstream : gmap string (list string)) (queue keys : list string)
    : list string :=
  match fuel with
  | O => keys
  | S fuel =>
      match queue with
      | [] => keys
      | current :: queue =>
          if bool_decide (current ∈ keys) then closureLoop fuel downstream queue keys
          else
            let keys := set_add current keys in
            closureLoop fuel downstream
              (queue ++ List.filter (λ d, negb (bool_decide (d ∈ keys)))
                          (default [] (downstream !! current))) keys
      end
  end.

Definition templatesToReset (w : Workflow.t) (entries : list StepRunRef) : list string :=
  closureLoop (length entries + length (edges w)) (downstreamOf w) (stepRunKey <$> entries) [].

Definition unpairedExpressionJob (w : Workflow.t) (pairs : Pairs) (keys : list string) : option string :=
  match pairs with
  | Some _ => None
  | None =>
      (λ job, "Job " +:+ quoted (Job.name job) +:+
        " cannot be matched to a job of the run: the workflow's jobs changed since the run.") <$>
      List.find (λ j, evaluatedName (Job.name j) &&
        existsb (λ s, bool_decide (stepRunKey (MkRef (Job.name j) (Step.name s)) ∈ keys)) (Job.steps j))
        (Workflow.jobs w)
  end.

(** *** Reads of a step name that several jobs use *)

Definition sharedNames (jobs : list (list string)) : gset string :=
  let jobsWithName : gmap string nat :=
    foldl (λ m names, foldl (λ m name, <[name := default 0 (m !! name) + 1]> m) m (set_of names)) ∅ jobs in
  dom (filter (λ kv, 1 < kv.2) jobsWithName).

Fixpoint takeDigits (s : string) : string * string :=
  match s with
  | String c rest =>
      if isDigit c then let '(d, rest) := takeDigits rest in (String c d, rest) else ("", s)
  | EmptyString => ("", "")
  end.

(** digits between a prefix and [\]], and the text after *)
Definition bracketed (prefix s : string) : option (nat * string) :=
  if negb (startsWith s prefix) then None
  else
    let '(digits, rest) := takeDigits (str_drop (String.length prefix) s) in
    match digits, rest with
    | String _ _, String c rest =>
        if Ascii.eqb c "]" then Some (Z.to_nat (digits_value 0 digits), rest) else None
    | _, _ => None
    end.

(** [STEP_PATH] *)
Definition stepPath (path : string) : option (nat * nat) :=
  '(j, rest) ← bracketed "jobs[" path;
  '(k, _) ← bracketed ".steps[" rest;
  Some (j, k).

Definition assertsOf (w : Workflow.t) : list References.Extra :=
  List.concat (imap (λ j job, List.concat (imap (λ k s,
    match Step.task s with
    | StepTask.assert expr _ _ =>
        [References.MkExtra expr expr
           ("jobs[" +:+ pretty (Z.of_nat j) +:+ "].steps[" +:+ pretty (Z.of_nat k) +:+ "].task.expr")]
    | _ => []
    end) (Job.steps job))) (Workflow.jobs w)).

Definition rerunAt (w : Workflow.t) (rerunKeys : list string) (path : string) : option (Job.t * Step.t) :=
  '(j, k) ← stepPath path;
  job ← Workflow.jobs w !! j;
  s ← Job.steps job !! k;
  if bool_decide (stepRunKey (MkRef (Job.name job) (Step.name s)) ∈ rerunKeys) then Some (job, s) else None.

Definition sharedStepRead (w : Workflow.t) (r : WorkflowRun.t) (rerunKeys : list string) : option string :=
  let shared := sharedNames ((λ j, Step.name <$> Job.steps j) <$> Workflow.jobs w) ∪
                sharedNames ((λ j, StepRun.stepName <$> JobRun.steps j) <$> WorkflowRun.jobs r) in
  if size shared =? 0 then None
  else
    head (omap (λ e : References.AnalyzedExpression,
      let refs := References.references e in
      let read := List.find (λ name, bool_decide (name ∈ shared)) (References.stepTargets refs) in
      match read, References.stepsWide refs with
      | None, false => None
      | _, _ =>
          '(job, s) ← head (omap (rerunAt w rerunKeys) (References.a_paths e));
          Some match read with
          | Some name =>
              inJob (Step.name s) (Job.name job) +:+ " reads steps." +:+ name +:+ ", and a step named " +:+
              quoted name +:+ " is in more than one job, so re-running it could read another job's output."
          | None =>
              inJob (Step.name s) (Job.name job) +:+
              " reads the steps map by a computed key, and a step name is used in more than one job, so re-running it could read another job's output."
          end
      end) (References.analyzeContentExpressions (Workflow.toData w) (assertsOf w))).

(** *** Selection of records *)

Definition matchRecord (keys : list string) (job : Job.t) (s : StepRun.t) : option ResetBranch :=
  let resets name := bool_decide (stepRunKey (MkRef (Job.name job) name) ∈ keys) in
  let name := StepRun.stepName s in
  if resets name then Some by_name
  else if match StepRun.forEachTemplate s with
          | Some t => negb (bool_decide (t = "")) && resets t
          | None => false
          end then Some by_template
  else if hasStep name job then None
  else if existsb (λ step, Step.isForEach step && resets (Step.name step) &&
                           startsWith name (Step.name step +:+ "-")) (Job.steps job)
  then Some by_prefix else None.

Definition selectResetRecords (w : Workflow.t) (r : WorkflowRun.t) (pairs : Pairs) (keys : list string)
    : list SelectedRecord :=
  jobRun ← WorkflowRun.jobs r;
  match workflowJobOf w jobRun pairs with
  | None => []
  | Some job =>
      omap (λ s, MkSelected (JobRun.jobName jobRun) (StepRun.stepName s) (StepRun.forEachTemplate s)
                   <$> matchRecord keys job s) (JobRun.steps jobRun)
  end.

Definition selectedRef (s : SelectedRecord) : StepRunRef := MkRef (s_jobName s) (s_stepName s).

Definition zeroStepsError (fromStep : string) : string :=
  "--from " +:+ quoted fromStep +:+ " matched zero persisted steps in the run. " +:+
  "The step may not have been reached during execution.".

Definition computeStepsToReset (w : Workflow.t) (r : WorkflowRun.t) (from : ResumeFrom)
    : result (list StepRunRef) :=
  let pairs := pairExpressionJobs w r in
  entry ← resolveFrom w from;
  let keys := templatesToReset w [entry] in
  _ ← match unpairedExpressionJob w pairs keys with
      | Some problem => Throw (problem +:+ " Start a new run.")
      | None => Ok tt
      end;
  match selectedRef <$> selectResetRecords w r pairs keys with
  | [] => Throw (zeroStepsError (from_step from))
  | stepsToReset => Ok stepsToReset
  end.

(** *** Changes of the workflow a resume refuses *)

Definition moved (step stored current : string) : string :=
  "Step " +:+ quoted step +:+ " is in job " +:+ quoted stored +:+ " in the run, job " +:+
  quoted current +:+ " in the workflow.".

Definition movedOrChanged (w : Workflow.t) (step job : string) : string :=
  let notForEach := inJob step job +:+ " is no longer a forEach step." in
  match List.find (λ j, existsb (λ s, bool_decide (Step.name s = step)) (Job.steps j)) (Workflow.jobs w) with
  | Some now => if bool_decide (Job.name now = job) then notForEach else moved step job (Job.name now)
  | None => notForEach
  end.

(** a record of the step or of its iterations *)
Definition holds (name : string) (j : JobRun.t) : bool :=
  existsb (λ s, bool_decide (StepRun.stepName s = name) ||
                bool_decide (StepRun.forEachTemplate s = Some name)) (JobRun.steps j).

(** an iteration stored before [forEachTemplate] was recorded *)
Definition legacyIteration (name : string) (job : Job.t) (s : StepRun.t) : bool :=
  bool_decide (StepRun.forEachTemplate s = None) && startsWith (StepRun.stepName s) (name +:+ "-") &&
  negb (hasStep (StepRun.stepName s) job).

(** [job.getStep(name)?.forEach !== undefined] *)
Definition isForEachStep (name : string) (job : Job.t) : bool :=
  match Job.getStep name job with Some s => Step.isForEach s | None => false end.

Definition hasEvaluatedJob (w : Workflow.t) : bool :=
  existsb (λ j, evaluatedName (Job.name j)) (Workflow.jobs w).

(** the position of the job [getJob] finds *)
Fixpoint indexOfJob (name : string) (l : list JobRun.t) : option nat :=
  match l with
  | [] => None
  | j :: l => if WorkflowRun.isJob name j then Some 0 else S <$> indexOfJob name l
  end.

(** [job?.getStep(name)] *)
Definition jobHasStep (name : string) (job : option Job.t) : bool :=
  match job with Some j => hasStep name j | None => false end.

Definition movedEntry (w : Workflow.t) (r : WorkflowRun.t) (pairs : Pairs) (entry : StepRunRef)
    : option string :=
  let name := r_stepName entry in
  let ownName :=
    if evaluatedName (r_jobName entry) then pairOf pairs (r_jobName entry) else Some (r_jobName entry) in
  match ownName ≫= λ n, WorkflowRun.getJob n r with
  | None => None
  | Some own =>
      if holds name own then None
      else if match Workflow.getJob (r_jobName entry) w with
              | Some ownJob => isForEachStep name ownJob &&
                               existsb (legacyIteration name ownJob) (JobRun.steps own)
              | None => false
              end then None
      else
        let ownIndex := ownName ≫= λ n, indexOfJob n (WorkflowRun.jobs r) in
        let storedIn :=
          List.find (λ p : nat * JobRun.t,
            let job := workflowJobOf w p.2 pairs in
            if bool_decide (job = None) && hasEvaluatedJob w && bool_decide (pairs = None) then false
            else negb (bool_decide (Some p.1 = ownIndex)) && negb (jobHasStep name job) && holds name p.2)
            (imap pair (WorkflowRun.jobs r)) in
        (λ p, moved name (JobRun.jobName p.2) (r_jobName entry)) <$> storedIn
  end.

Definition missingJob (w : Workflow.t) (r : WorkflowRun.t) : option string :=
  (λ job, "Job " +:+ quoted (Job.name job) +:+ " is not in the run.") <$>
  List.find (λ j, negb (evaluatedName (Job.name j)) &&
                  bool_decide (WorkflowRun.getJob (Job.name j) r = None)) (Workflow.jobs w).

Definition missingStepOf (w : Workflow.t) (r : WorkflowRun.t) (job : Job.t) (jobRun : JobRun.t)
    (step : Step.t) : option string :=
  let name := Step.name step in
  if Step.isForEach step || evaluatedName name then None
  else
    match JobRun.getStep name jobRun with
    | Some _ => None
    | None =>
        Some match List.find (λ j, bool_decide (is_Some (JobRun.getStep name j)) &&
                                   negb (jobHasStep name (Workflow.getJob (JobRun.jobName j) w)))
                     (WorkflowRun.jobs r) with
        | Some stored => moved name (JobRun.jobName stored) (Job.name job)
        | None => inJob name (Job.name job) +:+ " is not in the run."
        end
    end.

(** the first step of a re-entered job that has no record; [run.getJob] has to
    find every literal job *)
Fixpoint missingStepLoop (w : Workflow.t) (r : WorkflowRun.t) (reentered : JobRun.t → bool)
    (js : list Job.t) : result (option string) :=
  match js with
  | [] => Ok None
  | job :: js =>
      if evaluatedName (Job.name job) then missingStepLoop w r reentered js
      else
        match WorkflowRun.getJob (Job.name job) r with
        | None => Throw "TypeError"
        | Some jobRun =>
            if negb (reentered jobRun) then missingStepLoop w r reentered js
            else
              match head (omap (missingStepOf w r job jobRun) (Job.steps job)) with
              | Some problem => Ok (Some problem)
              | None => missingStepLoop w r reentered js
              end
        end
  end.

Definition missingStep (w : Workflow.t) (r : WorkflowRun.t) (reentered : JobRun.t → bool)
    : result (option string) := missingStepLoop w r reentered (Workflow.jobs w).

Definition recordsStep (jobRun : option JobRun.t) (job : Job.t) (name : string) : bool :=
  match jobRun with
  | None => false
  | Some j =>
      if holds name j then true
      else if negb (isForEachStep name job) then false
      else negb (bool_decide (JobRun.status j = RunStatus.pending)) ||
           existsb (legacyIteration name job) (JobRun.steps j)
  end.

Definition movedRecord (w : Workflow.t) (r : WorkflowRun.t) (jobRun : JobRun.t) (ownJob : option Job.t)
    (record : StepRun.t) : option string :=
  if finishedRecord record then None
  else
    let template := StepRun.forEachTemplate record in
    let name := default (StepRun.stepName record) template in
    match ownJob ≫= Job.getStep name with
    | Some own =>
        if bool_decide (template = None) || Step.isForEach own then None
        else Some (inJob name (JobRun.jobName jobRun) +:+ " is no longer a forEach step.")
    | None =>
        (λ now, moved name (JobRun.jobName jobRun) (Job.name now)) <$>
        List.find (λ j, negb (evaluatedName (Job.name j)) && hasStep name j &&
                        negb (recordsStep (WorkflowRun.getJob (Job.name j) r) j name)) (Workflow.jobs w)
    end.

Definition movedUnfinishedStep (w : Workflow.t) (r : WorkflowRun.t) : option string :=
  head (jobRun ← WorkflowRun.jobs r;
    let ownJob := Workflow.getJob (JobRun.jobName jobRun) w in
    if finishedJob jobRun then []
    else if bool_decide (ownJob = None) && hasEvaluatedJob w then []
    else omap (movedRecord w r jobRun ownJob) (JobRun.steps jobRun)).

Definition removedUnfinishedJob (w : Workflow.t) (r : WorkflowRun.t) : option string :=
  if hasEvaluatedJob w then None
  else
    (λ j, "Job " +:+ quoted (JobRun.jobName j) +:+ " is in the run but not in the workflow.") <$>
    List.find (λ j, negb (finishedJob j) && bool_decide (Workflow.getJob (JobRun.jobName j) w = None))
      (WorkflowRun.jobs r).

Definition suspendedWayOut (w : Workflow.t) (r : WorkflowRun.t) : string :=
  match WorkflowRun.instanceId r with
  | Some _ => "To cancel it: 'swamp workflow cancel --run " +:+ WorkflowRun.id r +:+ " --server <url>'."
  | None => "To cancel it: 'swamp workflow cancel " +:+ Workflow.name w +:+ " --run " +:+
            WorkflowRun.id r +:+ "'."
  end.

(** *** Plans *)

(** work the abort settled that the selection does not reach *)
Definition settledRecords (r : WorkflowRun.t) (selected : list SelectedRecord) : list SelectedRecord :=
  let reached := set_of (stepRunKey <$> (selectedRef <$> selected)) in
  jobRun ← WorkflowRun.jobs r;
  omap (λ s,
    if StepRun.settledByAbort s &&
       negb (bool_decide (stepRunKey (MkRef (JobRun.jobName jobRun) (StepRun.stepName s)) ∈ reached))
    then Some (MkSelected (JobRun.jobName jobRun) (StepRun.stepName s) (StepRun.forEachTemplate s) by_settled)
    else None) (JobRun.steps jobRun).

(** the workflow job of a selected record *)
Definition ownJobOf (w : Workflow.t) (r : WorkflowRun.t) (pairs : Pairs) (record : SelectedRecord)
    : option Job.t :=
  WorkflowRun.getJob (s_jobName record) r ≫= λ j, workflowJobOf w j pairs.

Definition rerunKey (w : Workflow.t) (r : WorkflowRun.t) (pairs : Pairs) (record : SelectedRecord)
    : option string :=
  job ← ownJobOf w r pairs record;
  let template :=
    match s_forEachTemplate record with
    | Some t => if hasStep t job then t else s_stepName record
    | None => s_stepName record
    end in
  if hasStep template job then Some (stepRunKey (MkRef (Job.name job) template)) else None.

Definition rerunKeys (w : Workflow.t) (r : WorkflowRun.t) (pairs : Pairs) (keys : list string)
    (selected : list SelectedRecord) : list string :=
  foldl (λ l k, set_add k l) keys
    (omap (rerunKey w r pairs) (List.filter (λ s, bool_decide (s_branch s = by_settled)) selected)).

(** whether a record is tracked, or the change that refuses the resume *)
Definition trackRecord (w : Workflow.t) (r : WorkflowRun.t) (pairs : Pairs) (record : SelectedRecord)
    : string + bool :=
  let ownJob := ownJobOf w r pairs record in
  let fromTemplate :=
    match s_forEachTemplate record, ownJob with
    | Some t, Some j => isForEachStep t j
    | _, _ => false
    end in
  let own := jobHasStep (s_stepName record) ownJob in
  match s_branch record with
  | by_prefix => inr false
  | branch =>
      if bool_decide (ownJob = None) && hasEvaluatedJob w then inr false
      else
        match branch with
        | by_settled => inr (own || fromTemplate)
        | by_name =>
            if own || fromTemplate then inr true
            else inl (movedOrChanged w (s_stepName record) (s_jobName record))
        | _ =>
            if fromTemplate then inr true
            else inl (movedOrChanged w (default "undefined" (s_forEachTemplate record)) (s_jobName record))
        end
  end.

Fixpoint trackLoop (w : Workflow.t) (r : WorkflowRun.t) (pairs : Pairs) (refuse : string → string)
    (selected : list SelectedRecord) : result (list StepRunRef) :=
  match selected with
  | [] => Ok []
  | record :: selected =>
      match trackRecord w r pairs record with
      | inl problem => Throw (refuse problem)
      | inr keep =>
          rest ← trackLoop w r pairs refuse selected;
          Ok (if keep then selectedRef record :: rest else rest)
      end
  end.

(** [if (problem !== undefined) throw refuse(problem)] *)
Definition refuseIf (refuse : string → string) (problem : option string) : result () :=
  match problem with Some p => Throw (refuse p) | None => Ok tt end.

(** [a ?? b] *)
Definition orElse {A} (a b : option A) : option A := match a with Some _ => a | None => b end.

Definition entriesOf (w : Workflow.t) (r : WorkflowRun.t) (from : option ResumeFrom)
    : result (list StepRunRef) :=
  match from with
  | Some from => entry ← resolveFrom w from; Ok [entry]
  | None => selectRetryTemplates w r
  end.

Definition planFailedRunResume (w : Workflow.t) (r : WorkflowRun.t) (from : option ResumeFrom)
    : result ResumeReset :=
  let refuse problem := problem +:+ " Start a new run. " +:+ historyOf r in
  let pairs := pairExpressionJobs w r in
  entries ← entriesOf w r from;
  _ ← refuseIf refuse (orElse (missingJob w r) (removedUnfinishedJob w r));
  _ ← match from, entries with
      | Some _, entry :: _ => refuseIf refuse (movedEntry w r pairs entry)
      | _, _ => Ok tt
      end;
  let keys := templatesToReset w entries in
  _ ← refuseIf refuse (unpairedExpressionJob w pairs keys);
  let selected := selectResetRecords w r pairs keys in
  _ ← match selected with
      | [] => Throw match from with
              | Some from => zeroStepsError (from_step from)
              | None => "Retry matched no persisted steps in run " +:+ WorkflowRun.id r +:+ "."
              end
      | _ => Ok tt
      end;
  let steps := selectedRef <$> selected in
  let selected := selected ++ settledRecords r selected in
  _ ← refuseIf refuse (sharedStepRead w r (rerunKeys w r pairs keys selected));
  tracked ← trackLoop w r pairs refuse selected;
  let resetJobs := set_of (r_jobName <$> steps) in
  noStep ← missingStep w r (λ j, negb (finishedJob j) || bool_decide (JobRun.jobName j ∈ resetJobs));
  _ ← refuseIf refuse noStep;
  Ok (MkReset steps tracked pairs).

Definition checkSuspendedRunResume (w : Workflow.t) (r : WorkflowRun.t) : result () :=
  let early := orElse (orElse (missingJob w r) (movedUnfinishedStep w r)) (removedUnfinishedJob w r) in
  problem ← match early with
            | Some p => Ok (Some p)
            | None => missingStep w r (λ j, negb (finishedJob j))
            end;
  refuseIf (λ p, "The workflow changed shape since the run started. " +:+ suspendedWayOut w r +:+ " " +:+ p)
    problem.

End reset.
End ResumeReset.
