(* ===== verification/ResumePlanProps.v ===== *)
(** * Properties of the plan of a resume

    The closure of the reset is reachability over the dependencies of the
    workflow; pairing matches expression-named jobs and stored jobs one to one;
    a plan selects exactly the records of the steps the closure reaches, and
    resetting by it leaves them pending and every other record as it was. *)

From Stdlib Require Import Ascii.
From stdpp Require Import relations.
From S2P Require Import Prelude JsString ExpressionScanner ExpressionReferences.
From S2P Require Import TriggerCondition Remote StepRun JobRun WorkflowRun WorkflowRunProps Workflow.
From S2P Require Import ResumePlan.

Module ResumePlanProps.
Import JobPairing FailedStepRetry ResumeReset.

(** ** The closure *)

Section closure.
Context (es : list (string * string)).

Definition follows (a b : string) : Prop := (a, b) ∈ es.

Definition edgesOfKey (k : string) : list (string * string) := filter (λ e, e.1 = k) es.
Definition edgesOutside (keys : list string) : list (string * string) := filter (λ e, e.1 ∉ keys) es.

Lemma edgesOutside_add k keys :
  k ∉ keys → length (edgesOutside keys) = length (edgesOutside (set_add k keys)) + length (edgesOfKey k).
Proof.
  intros Hk. unfold edgesOutside, edgesOfKey. clear -Hk. induction es as [|e l IH]; [done|].
  rewrite !filter_cons. destruct (decide (e.1 = k)) as [->|Hne].
  - rewrite (decide_True (P := k ∉ keys)) by done.
    rewrite decide_False by (rewrite elem_of_set_add; naive_solver). simpl. lia.
  - destruct (decide (e.1 ∈ keys)).
    + rewrite !decide_False by (rewrite ?elem_of_set_add; naive_solver). lia.
    + rewrite !decide_True by (rewrite ?elem_of_set_add; naive_solver). simpl. lia.
Qed.

(** the keys lead back to themselves or into the queue *)
Definition closed (keys queue : list string) : Prop :=
  ∀ a b, a ∈ keys → follows a b → b ∈ keys ∨ b ∈ queue.

Lemma closed_reaches keys queue a k :
  closed keys queue → rtc follows a k → a ∈ keys → k ∈ keys ∨ ∃ q, q ∈ queue ∧ rtc follows q k.
Proof.
  intros Hc Hr. induction Hr as [|a b k Hab Hr IH]; intros Ha; [by left|].
  destruct (Hc a b Ha Hab) as [Hb|Hb]; eauto.
Qed.

Context (ds : gmap string (list string)).
Context (Hds : ∀ k v, v ∈ default [] (ds !! k) ↔ follows k v).
Context (Hlen : ∀ k, length (default [] (ds !! k)) ≤ length (edgesOfKey k)).

Lemma closureLoop_reaches fuel queue keys k :
  length queue + length (edgesOutside keys) ≤ fuel → closed keys queue →
  k ∈ closureLoop fuel ds queue keys ↔ k ∈ keys ∨ ∃ q, q ∈ queue ∧ rtc follows q k.
Proof.
  revert queue keys. induction fuel as [|fuel IH]; intros queue keys Hf Hc.
  { destruct queue; [|simpl in Hf; lia]. simpl. set_solver. }
  destruct queue as [|current queue]; [simpl; set_solver|]. cbn [closureLoop].
  case_bool_decide as Hcur.
  - assert (closed keys queue) as Hc'.
    { intros a b Ha Hab. destruct (Hc a b Ha Hab) as [|[->|]%elem_of_cons]; auto. }
    rewrite IH by (simpl in Hf; (lia || done)). split; [set_solver|].
    intros [?|(q & [->|?]%elem_of_cons & ?)]; [auto| |eauto]. by apply (closed_reaches keys queue current).
  - set (keys' := set_add current keys). set (more := List.filter _ _).
    assert (∀ b, b ∈ more ↔ b ∉ keys' ∧ follows current b) as Hmore.
    { intros b. unfold more. rewrite elem_of_bfilter, Hds, negb_true_iff, bool_decide_eq_false. tauto. }
    assert (length more ≤ length (edgesOfKey current)) as Hml.
    { etrans; [apply bfilter_length_le|apply Hlen]. }
    assert (∀ a, a ∈ keys' ↔ a ∈ keys ∨ a = current) as Hk' by (intros; unfold keys'; rewrite elem_of_set_add; tauto).
    assert (closed keys' (queue ++ more)) as Hc'.
    { intros a b Ha Hab. destruct (decide (b ∈ keys')) as [|Hb]; [by left|]. right. apply elem_of_app.
      apply Hk' in Ha as [Ha| ->]; [|right; by apply Hmore]. left.
      destruct (Hc a b Ha Hab) as [?|[->|?]%elem_of_cons]; [|by destruct Hb; apply Hk'; auto|done].
      destruct Hb. apply Hk'. auto. }
    pose proof (edgesOutside_add current keys Hcur) as He. fold keys' in He. cbn [length] in Hf.
    rewrite IH; [|rewrite length_app; lia|done].
    split.
    + intros [[?| ->]%Hk'|(q & [?|[_ ?]%Hmore]%elem_of_app & ?)]; [auto|set_solver|set_solver|].
      right. exists current. split; [set_solver|]. by eapply rtc_l.
    + intros [?|(q & [->|?]%elem_of_cons & ?)]; [left; apply Hk'; auto| |set_solver].
      apply (closed_reaches keys' (queue ++ more) current); [done..|]. apply Hk'. auto.
Qed.

End closure.

Lemma length_set_add (x : string) l : length (set_add x l) ≤ S (length l).
Proof. unfold set_add. case_match; rewrite ?length_app; simpl; lia. Qed.

Lemma edges_elem l m k v :
  v ∈ default [] (foldl edge m l !! k) ↔ v ∈ default [] (m !! k) ∨ (k, v) ∈ l.
Proof.
  revert m. induction l as [|[a b] l IH]; intros m; simpl; [set_solver|]. rewrite IH. unfold edge. simpl.
  destruct (decide (a = k)) as [->|Hne].
  - rewrite lookup_insert_eq. simpl. rewrite elem_of_set_add. set_solver.
  - rewrite lookup_insert_ne by done. set_solver.
Qed.

Lemma edges_length l m k :
  length (default [] (foldl edge m l !! k)) ≤ length (default [] (m !! k)) + length (edgesOfKey l k).
Proof.
  revert m. induction l as [|[a b] l IH]; intros m; simpl; [lia|]. etrans; [apply IH|].
  unfold edge, edgesOfKey. rewrite filter_cons. simpl. destruct (decide (a = k)) as [->|Hne].
  - rewrite lookup_insert_eq. simpl. pose proof (length_set_add b (default [] (m !! k))). lia.
  - rewrite lookup_insert_ne by done. lia.
Qed.

(** [depends w a b]: the step [b] of the workflow runs after [a], because it or
    its job depends on it *)
Inductive depends (w : Workflow.t) : WorkflowRun.StepRunRef → WorkflowRun.StepRunRef → Prop :=
| depends_step job s dep :
    job ∈ Workflow.jobs w → s ∈ Job.steps job → dep ∈ Step.getDependencyNames s →
    depends w (WorkflowRun.MkRef (Job.name job) dep) (WorkflowRun.MkRef (Job.name job) (Step.name s))
| depends_job job depName depJob depStep s :
    job ∈ Workflow.jobs w → depName ∈ Job.getDependencyNames job → Workflow.getJob depName w = Some depJob →
    depStep ∈ Job.steps depJob → s ∈ Job.steps job →
    depends w (WorkflowRun.MkRef (Job.name depJob) (Step.name depStep))
      (WorkflowRun.MkRef (Job.name job) (Step.name s)).

Lemma elem_of_edges w a b :
  (a, b) ∈ edges w ↔
  ∃ x y, depends w x y ∧ a = WorkflowRun.stepRunKey x ∧ b = WorkflowRun.stepRunKey y.
Proof.
  unfold edges. rewrite list_elem_of_bind. split.
  - intros (job & [Hin|Hin]%elem_of_app & Hj).
    + apply list_elem_of_bind in Hin as (s & (dep & [= -> ->] & Hd)%list_elem_of_fmap & Hs).
      eexists _, _. split; [eapply (depends_step _ job s dep); done|done].
    + apply list_elem_of_bind in Hin as (depName & Hin & Hd).
      destruct (List.find _ _) as [depJob|] eqn:Hf; [|by apply not_elem_of_nil in Hin].
      apply list_elem_of_bind in Hin as (depStep & (s & [= -> ->] & Hs)%list_elem_of_fmap & Hds).
      eexists _, _. split; [eapply depends_job; eauto|done].
  - intros (x & y & Hd & -> & ->). destruct Hd as [job s dep Hj Hs Hdep|job depName depJob depStep s Hj Hd Hf Hds Hs];
      exists job; (split; [|done]); apply elem_of_app.
    + left. apply list_elem_of_bind. exists s. split; [|done]. apply list_elem_of_fmap. eauto.
    + right. apply list_elem_of_bind. exists depName. split; [|done].
      unfold Workflow.getJob, Workflow.isJob in Hf. rewrite Hf. apply list_elem_of_bind.
      exists depStep. split; [|done]. apply list_elem_of_fmap. eauto.
Qed.

Lemma follows_depends w a k :
  rtc (follows (edges w)) (WorkflowRun.stepRunKey a) k ↔
  ∃ b, k = WorkflowRun.stepRunKey b ∧ rtc (depends w) a b.
Proof.
  split.
  - intros Hr. remember (WorkflowRun.stepRunKey a) as ka eqn:Ea. revert a Ea.
    induction Hr as [|ka kb k Hab _ IH]; intros a ->; [eauto using rtc_refl|].
    apply elem_of_edges in Hab as (x & y & Hd & <-%WorkflowRunProps.stepRunKey_inj & ->).
    destruct (IH y eq_refl) as (b & -> & ?). eauto using rtc_l.
  - intros (b & -> & Hr). induction Hr as [|a c b Hac _ IH]; [done|]. eapply rtc_l; [|exact IH].
    apply elem_of_edges. eauto.
Qed.

(** C15: The steps a resume re-runs are exactly those reachable from its entries
    over the dependencies between steps and between jobs: the breadth-first loop
    ends within its queue, adds everything downstream and nothing else. *)
Theorem templatesToReset_closure w entries ref :
  WorkflowRun.stepRunKey ref ∈ templatesToReset w entries ↔
  ∃ entry, entry ∈ entries ∧ rtc (depends w) entry ref.
Proof.
  unfold templatesToReset, downstreamOf.
  rewrite (closureLoop_reaches (edges w)).
  - split.
    + intros [[]%not_elem_of_nil|(q & (e & -> & He)%list_elem_of_fmap & Hr)].
      apply follows_depends in Hr as (b & ->%WorkflowRunProps.stepRunKey_inj & ?). eauto.
    + intros (e & He & Hr). right. exists (WorkflowRun.stepRunKey e). split; [apply list_elem_of_fmap; eauto|].
      apply follows_depends. eauto.
  - intros k v. rewrite edges_elem, lookup_empty. simpl. unfold follows. set_solver.
  - intros k. etrans; [apply edges_length|]. rewrite lookup_empty. simpl. lia.
  - rewrite length_fmap. unfold edgesOutside.
    pose proof (length_filter (λ e : string * string, e.1 ∉ []) (edges w)). lia.
  - intros a b []%not_elem_of_nil.
Qed.

(** ** Pairing *)

Lemma size_list_to_set_NoDup (l : list string) :
  size (list_to_set l : gset string) = length l → NoDup l.
Proof.
  assert (∀ l : list string, size (list_to_set l : gset string) ≤ length l) as Hle.
  { intros k. induction k as [|x k IH]; [by rewrite list_to_set_nil, size_empty|].
    rewrite list_to_set_cons, size_union_alt, size_singleton. cbn [length].
    pose proof (subseteq_size (list_to_set k ∖ {[x]} : gset string) (list_to_set k) ltac:(set_solver)). lia. }
  induction l as [|x l IH]; intros Hs; [constructor|]. rewrite list_to_set_cons in Hs. cbn [length] in Hs.
  assert (x ∉ l) as Hx.
  { intros Hx. replace ({[x]} ∪ list_to_set l : gset string) with (list_to_set l : gset string) in Hs
      by set_solver. pose proof (Hle l). lia. }
  constructor; [done|]. apply IH. rewrite size_union, size_singleton in Hs by set_solver. lia.
Qed.

Lemma distinctValues_inj (m : gmap string string) a b s :
  distinctValues m = true → m !! a = Some s → m !! b = Some s → a = b.
Proof.
  unfold distinctValues. rewrite Nat.eqb_eq. intros Hs Ha Hb.
  rewrite <-(length_map_to_list m), <-(length_fmap snd) in Hs. apply size_list_to_set_NoDup in Hs.
  apply elem_of_map_to_list, list_elem_of_lookup in Ha as [i Hi].
  apply elem_of_map_to_list, list_elem_of_lookup in Hb as [j Hj].
  assert (i = j) as ->; [|congruence]. eapply (NoDup_lookup _ i j s Hs); rewrite list_lookup_fmap.
  - by rewrite Hi.
  - by rewrite Hj.
Qed.

Section pairing.
Context `{SignalWaits} `{CelGrammar} (w : Workflow.t) (r : WorkflowRun.t).

Definition isExpressionJob (job : Job.t) : Prop :=
  job ∈ Workflow.jobs w ∧ evaluatedName (Job.name job) = true.

(** every pair joins an expression-named job to a stored job that no literal
    name claims *)
Definition goodPairs (m : gmap string string) : Prop := ∀ n s, m !! n = Some s →
  (∃ job, isExpressionJob job ∧ Job.name job = n) ∧ is_Some (WorkflowRun.getJob s r) ∧ s ∉ literalNames w.

Lemma goodPairs_insert m job s :
  goodPairs m → isExpressionJob job → is_Some (WorkflowRun.getJob s r) → s ∉ literalNames w →
  goodPairs (<[Job.name job := s]> m).
Proof.
  intros Hm ??? n s'. destruct (decide (Job.name job = n)) as [<-|].
  - rewrite lookup_insert_eq. intros [= <-]. eauto.
  - rewrite lookup_insert_ne by done. apply Hm.
Qed.

(** the names paired so far, and the positions still to be paired *)
Definition reached (m : gmap string string) (u : list nat) (i : nat) (job : Job.t) : Prop :=
  is_Some (m !! Job.name job) ∨ i ∈ u.

Definition expressionAt (i : nat) : Prop :=
  ∃ job, Workflow.jobs w !! i = Some job ∧ evaluatedName (Job.name job) = true.

Lemma is_Some_insert (m : gmap string string) k v n : is_Some (m !! n) → is_Some (<[k := v]> m !! n).
Proof. rewrite !lookup_insert_is_Some'. auto. Qed.

Lemma pairByInputs_spec done_ js m u m' u' :
  Workflow.jobs w = done_ ++ js → pairByInputs w r (length done_) js m u = (m', u') →
  goodPairs m → (∀ i, i ∈ u → expressionAt i) →
  goodPairs m' ∧ (∀ i, i ∈ u' → expressionAt i) ∧
  (∀ n, is_Some (m !! n) → is_Some (m' !! n)) ∧ (∀ i, i ∈ u → i ∈ u') ∧
  (∀ k job, js !! k = Some job → evaluatedName (Job.name job) = true →
     reached m' u' (length done_ + k) job).
Proof.
  revert done_ m u. induction js as [|job js IH]; intros done_ m u Hw E Hm Hu; cbn [pairByInputs] in E.
  { simplify_eq. split_and!; auto. intros k job [=]. }
  assert (Workflow.jobs w = (done_ ++ [job]) ++ js) as Hw' by by rewrite <-app_assoc.
  assert (S (length done_) = length (done_ ++ [job])) as Hl by (rewrite length_app; simpl; lia).
  rewrite Hl in E.
  assert (Workflow.jobs w !! length done_ = Some job) as Hat
    by (rewrite Hw, lookup_app_r, Nat.sub_diag by lia; done).
  assert (∀ m u, pairByInputs w r (length (done_ ++ [job])) js m u = (m', u') →
    goodPairs m → (∀ i, i ∈ u → expressionAt i) →
    (evaluatedName (Job.name job) = true → reached m u (length done_) job) →
    goodPairs m' ∧ (∀ i, i ∈ u' → expressionAt i) ∧
    (∀ n, is_Some (m !! n) → is_Some (m' !! n)) ∧ (∀ i, i ∈ u → i ∈ u') ∧
    (∀ k job', (job :: js) !! k = Some job' → evaluatedName (Job.name job') = true →
       reached m' u' (length done_ + k) job')) as Hstep.
  { intros m1 u1 E1 Hm1 Hu1 Hr1. destruct (IH _ _ _ Hw' E1 Hm1 Hu1) as (? & ? & Hk & Hkeep & Hreach).
    split_and!; [done..|]. intros [|k] job' Hk' He.
    - simpl in Hk'. simplify_eq. rewrite Nat.add_0_r. destruct (Hr1 He); [left|right]; auto.
    - replace (length done_ + S k) with (length (done_ ++ [job]) + k) by (rewrite length_app; simpl; lia).
      by apply Hreach. }
  destruct (evaluatedName (Job.name job)) eqn:Hev; cbn [negb] in E; [|by apply Hstep].
  assert (isExpressionJob job) as Hej by (split; [rewrite Hw; set_solver|done]).
  assert (pairByInputs w r (length (done_ ++ [job])) js m (u ++ [length done_]) = (m', u') →
    goodPairs m' ∧ (∀ i, i ∈ u' → expressionAt i) ∧
    (∀ n, is_Some (m !! n) → is_Some (m' !! n)) ∧ (∀ i, i ∈ u → i ∈ u') ∧
    (∀ k job', (job :: js) !! k = Some job' → evaluatedName (Job.name job') = true →
       reached m' u' (length done_ + k) job')) as Hleft.
  { intros E1. destruct (Hstep _ _ E1) as (? & ? & ? & Hkeep & ?); [done| |right; set_solver|].
    - intros i [?| ->%list_elem_of_singleton]%elem_of_app; [auto|]. by exists job.
    - split_and!; [done..| |done]. intros. apply Hkeep. set_solver. }
  destruct (nameFromInputs _ _) as [name|]; [|by apply Hleft].
  destruct (_ && _) eqn:Hc; [|by apply Hleft]. split_bools.
  destruct (Hstep _ _ E) as (? & ? & Hkeep & ? & ?).
  - apply goodPairs_insert; auto.
  - done.
  - intros _. left. rewrite lookup_insert_eq. eauto.
  - split_and!; [done..| |done|done]. intros. apply Hkeep, is_Some_insert. done.
Qed.

Lemma getJob_stored i j : WorkflowRun.jobs r !! i = Some j → is_Some (WorkflowRun.getJob (JobRun.jobName j) r).
Proof.
  intros Hj. unfold WorkflowRun.getJob. destruct (List.find _ _) eqn:E; [by eauto|].
  assert (j ∈ WorkflowRun.jobs r) as Hin by by eapply list_elem_of_lookup_2.
  eapply find_None_elem_of in E; [|done]. unfold WorkflowRun.isJob in E. by rewrite bool_decide_true in E.
Qed.

Lemma pairByPosition_spec u m m' :
  pairByPosition w r u m = Some m' → goodPairs m → (∀ i, i ∈ u → expressionAt i) →
  goodPairs m' ∧ (∀ n, is_Some (m !! n) → is_Some (m' !! n)) ∧
  (∀ i job, i ∈ u → Workflow.jobs w !! i = Some job → is_Some (m' !! Job.name job)).
Proof.
  revert m. induction u as [|i u IH]; intros m E Hm Hu; cbn [pairByPosition] in E.
  { simplify_eq. split_and!; auto. intros ?? []%not_elem_of_nil. }
  destruct (Hu i) as (job & Hj & He); [set_solver|]. rewrite Hj in E.
  destruct (WorkflowRun.jobs r !! i) as [stored|] eqn:Hs; [|done].
  destruct (_ || _) eqn:Hc; [done|]. split_bools.
  destruct (IH _ E) as (Hm' & Hkeep & Hrest).
  - apply goodPairs_insert; [done| |by eapply getJob_stored|done].
    split; [by eapply list_elem_of_lookup_2|done].
  - intros. apply Hu. set_solver.
  - split_and!; [done| |].
    + intros. apply Hkeep, is_Some_insert. done.
    + intros k job' [->|?]%elem_of_cons Hk; [|by eapply Hrest]. simplify_eq.
      apply Hkeep. rewrite lookup_insert_eq. eauto.
Qed.

Lemma pairExpressionJobs_spec m :
  pairExpressionJobs w r = Some m →
  goodPairs m ∧ distinctValues m = true ∧ ∀ job, isExpressionJob job → is_Some (m !! Job.name job).
Proof.
  unfold pairExpressionJobs. destruct (pairByInputs w r 0 (Workflow.jobs w) ∅ []) as [m1 u1] eqn:E1.
  destruct (pairByInputs_spec [] (Workflow.jobs w) ∅ [] m1 u1) as (Hg & Hu & _ & _ & Hreach);
    [done|done|intros ?? [=]|intros ? []%not_elem_of_nil|].
  assert (∀ job, isExpressionJob job → is_Some (m1 !! Job.name job) ∨
    ∃ i, i ∈ u1 ∧ Workflow.jobs w !! i = Some job) as Hall.
  { intros job [Hin He]. apply list_elem_of_lookup in Hin as [k Hk].
    destruct (Hreach k job Hk He) as [?|?]; [by left|right; eauto]. }
  destruct u1 as [|i u1].
  - intros Hm. cbn in Hm. destruct (distinctValues m1) eqn:Hd; [|done]. simplify_eq. split_and!; [done..|].
    intros job ?%Hall. set_solver.
  - destruct (negb (_ =? _)); [done|]. destruct (negb (samePositions w r)); [done|].
    destruct (pairByPosition w r (i :: u1) m1) as [m2|] eqn:E2; [|done].
    intros Hm. cbn in Hm. destruct (distinctValues m2) eqn:Hd; [|done]. simplify_eq.
    destruct (pairByPosition_spec _ _ _ E2 Hg Hu) as (? & Hkeep & Hpos). split_and!; [done..|].
    intros job [?|(k & ? & ?)]%Hall; eauto.
Qed.

Lemma elem_of_literalNames n :
  n ∈ literalNames w ↔ ∃ j, j ∈ Workflow.jobs w ∧ evaluatedName (Job.name j) = false ∧ Job.name j = n.
Proof.
  unfold literalNames. rewrite list_elem_of_fmap. setoid_rewrite elem_of_bfilter.
  setoid_rewrite negb_true_iff. naive_solver.
Qed.

(** the workflow job of a stored one is the literal job of its name, or the
    expression-named job paired with it *)
Lemma workflowJobOf_spec jobRun pairs job :
  workflowJobOf w jobRun pairs = Some job →
  job ∈ Workflow.jobs w ∧
  (evaluatedName (Job.name job) = false ∧ Job.name job = JobRun.jobName jobRun ∨
   evaluatedName (Job.name job) = true ∧ JobRun.jobName jobRun ∉ literalNames w ∧
   pairOf pairs (Job.name job) = Some (JobRun.jobName jobRun)).
Proof.
  unfold workflowJobOf. destruct (List.find _ _) as [j|] eqn:E; intros Hj.
  - simplify_eq. apply find_Some_elem_of in E as [? ?]. split_bools. auto.
  - apply find_Some_elem_of in Hj as [? ?]. split_bools. split; [done|]. right. split_and!; [done| |done].
    rewrite elem_of_literalNames. intros (j & Hj & He & Hn). eapply find_None_elem_of in E; [|done].
    rewrite He, Hn, bool_decide_true in E by done. done.
Qed.

(** C36: When the expression-named jobs of a workflow can be paired with the jobs
    of a run, every one of them has a stored job, and jobs correspond one to one:
    two stored jobs belong to the same job of the workflow exactly when they have
    the same name. *)
Theorem pairing_is_one_to_one m :
  pairExpressionJobs w r = Some m →
  (∀ job, isExpressionJob job → ∃ jobRun job', jobRun ∈ WorkflowRun.jobs r ∧
     m !! Job.name job = Some (JobRun.jobName jobRun) ∧
     workflowJobOf w jobRun (Some m) = Some job' ∧ Job.name job' = Job.name job) ∧
  (∀ j1 j2 job1 job2, workflowJobOf w j1 (Some m) = Some job1 → workflowJobOf w j2 (Some m) = Some job2 →
     Job.name job1 = Job.name job2 ↔ JobRun.jobName j1 = JobRun.jobName j2).
Proof.
  intros (Hg & Hd & Hall)%pairExpressionJobs_spec. split.
  - intros job Hj. destruct (Hall job Hj) as [s Hs]. destruct (Hg _ _ Hs) as (_ & [jr Hjr] & Hlit).
    apply find_Some_elem_of in Hjr as [Hin Hn]. unfold WorkflowRun.isJob in Hn. split_bools. subst s.
    destruct (workflowJobOf w jr (Some m)) as [job'|] eqn:E.
    + exists jr, job'. split_and!; [done..|].
      apply workflowJobOf_spec in E as (Hin' & [[He Hn]|(He & _ & Hp)]).
      * destruct Hlit. apply elem_of_literalNames. eauto.
      * cbn in Hp. by eapply distinctValues_inj.
    + unfold workflowJobOf in E. destruct (List.find _ _); [done|]. destruct Hj as [Hjin He].
      eapply find_None_elem_of in E; [|exact Hjin]. rewrite He in E. cbn in E.
      by rewrite Hs, bool_decide_true in E.
  - intros j1 j2 job1 job2 (Hj1 & H1)%workflowJobOf_spec (Hj2 & H2)%workflowJobOf_spec. cbn in H1, H2.
    destruct H1 as [[He1 Hn1]|(He1 & Hl1 & Hp1)], H2 as [[He2 Hn2]|(He2 & Hl2 & Hp2)].
    + split; congruence.
    + split; [congruence|]. intros E. destruct Hl2. apply elem_of_literalNames. exists job1. by rewrite <-E.
    + split; [congruence|]. intros E. destruct Hl1. apply elem_of_literalNames. exists job2. by rewrite E.
    + split; [congruence|]. intros E. rewrite <-E in Hp2. by eapply distinctValues_inj.
Qed.

End pairing.

(** ** Plans *)

Section plans.
Context `{SignalWaits} `{CelGrammar} `{CelParser}.
Import WorkflowRun.

(** [downstream w entries job name]: the step is an entry or runs after one *)
Definition downstream (w : Workflow.t) (entries : list StepRunRef) (job : Job.t) (name : string) : Prop :=
  ∃ entry, entry ∈ entries ∧ rtc (depends w) entry (MkRef (Job.name job) name).

(** the record belongs to a step downstream of the entries: by its name, by the
    template it was expanded from, or, when the workflow has no step of its name,
    by the prefix of a forEach step *)
Definition rerun (w : Workflow.t) (r : t) (entries : list StepRunRef) (j : JobRun.t) (s : StepRun.t)
    : Prop :=
  ∃ job, workflowJobOf w j (pairExpressionJobs w r) = Some job ∧
    (downstream w entries job (StepRun.stepName s) ∨
     (∃ template, StepRun.forEachTemplate s = Some template ∧ template ≠ "" ∧ downstream w entries job template) ∨
     (Job.getStep (StepRun.stepName s) job = None ∧
      ∃ step, step ∈ Job.steps job ∧ Step.forEach step ≠ None ∧ downstream w entries job (Step.name step) ∧
              startsWith (StepRun.stepName s) (Step.name step +:+ "-") = true)).

Lemma resets_downstream w entries job name :
  bool_decide (stepRunKey (MkRef (Job.name job) name) ∈ templatesToReset w entries) = true ↔
  downstream w entries job name.
Proof. rewrite bool_decide_eq_true. apply templatesToReset_closure. Qed.

Lemma hasStep_false name job : hasStep name job = false ↔ Job.getStep name job = None.
Proof. unfold hasStep. by destruct (Job.getStep name job). Qed.

Lemma isForEach_true s : Step.isForEach s = true ↔ Step.forEach s ≠ None.
Proof. unfold Step.isForEach. by destruct (Step.forEach s). Qed.

Lemma matchRecord_spec w entries job s :
  is_Some (matchRecord (templatesToReset w entries) job s) ↔
  downstream w entries job (StepRun.stepName s) ∨
  (∃ template, StepRun.forEachTemplate s = Some template ∧ template ≠ "" ∧ downstream w entries job template) ∨
  (Job.getStep (StepRun.stepName s) job = None ∧
   ∃ step, step ∈ Job.steps job ∧ Step.forEach step ≠ None ∧ downstream w entries job (Step.name step) ∧
           startsWith (StepRun.stepName s) (Step.name step +:+ "-") = true).
Proof.
  unfold matchRecord. setoid_rewrite <-(resets_downstream w entries job). setoid_rewrite <-hasStep_false.
  destruct (bool_decide _); [naive_solver|].
  destruct (match StepRun.forEachTemplate s with Some _ => _ | None => _ end) eqn:Ht.
  { destruct (StepRun.forEachTemplate s) as [tm|]; [|done]. apply andb_true_iff in Ht as [Hne%negb_true_iff%bool_decide_eq_false Hd].
    split; [intros _|by eauto]. right; left. eauto. }
  assert (¬ ∃ template, StepRun.forEachTemplate s = Some template ∧ template ≠ "" ∧
    bool_decide (stepRunKey (MkRef (Job.name job) template) ∈ templatesToReset w entries) = true) as Hno.
  { intros (tm & E & Hne & Hd). rewrite E, Hd, bool_decide_false in Ht by done. done. }
  destruct (hasStep (StepRun.stepName s) job).
  { split; [by intros []|]. intros [[=]|[?|[[=] _]]]. by destruct Hno. }
  assert (existsb (λ step, Step.isForEach step &&
      bool_decide (stepRunKey (MkRef (Job.name job) (Step.name step)) ∈ templatesToReset w entries) &&
      startsWith (StepRun.stepName s) (Step.name step +:+ "-")) (Job.steps job) = true ↔
    ∃ step, step ∈ Job.steps job ∧ Step.forEach step ≠ None ∧
      bool_decide (stepRunKey (MkRef (Job.name job) (Step.name step)) ∈ templatesToReset w entries) = true ∧
      startsWith (StepRun.stepName s) (Step.name step +:+ "-") = true) as Hex.
  { rewrite existsb_elem_of. setoid_rewrite andb_true_iff. setoid_rewrite andb_true_iff.
    setoid_rewrite isForEach_true. setoid_rewrite <-(assoc (∧)). done. }
  destruct Hex as [Hto Hfrom]. destruct (existsb _ _).
  - split; [intros _|by eauto]. auto.
  - split; [by intros []|]. intros [[=]|[?|[_ ?]]]; [by destruct Hno|by specialize (Hfrom ltac:(done))].
Qed.

Lemma selectResetRecords_spec w r entries ref :
  ref ∈ selectedRef <$> selectResetRecords w r (pairExpressionJobs w r) (templatesToReset w entries) ↔
  ∃ j s, j ∈ jobs r ∧ s ∈ JobRun.steps j ∧ rerun w r entries j s ∧
         ref = MkRef (JobRun.jobName j) (StepRun.stepName s).
Proof.
  unfold selectResetRecords, rerun. rewrite list_elem_of_fmap. setoid_rewrite list_elem_of_bind.
  setoid_rewrite <-matchRecord_spec. split.
  - intros (rec & -> & j & Hin & Hj). destruct (workflowJobOf _ _ _) as [job|] eqn:Ew; [|by apply not_elem_of_nil in Hin].
    apply list_elem_of_omap in Hin as (s & Hs & (b & Hb & ->)%fmap_Some_1).
    exists j, s. split_and!; [done..| |done]. exists job. rewrite Hb. eauto.
  - intros (j & s & Hj & Hs & (job & Ew & [b Hb]) & ->).
    exists (MkSelected (JobRun.jobName j) (StepRun.stepName s) (StepRun.forEachTemplate s) b).
    split; [done|]. exists j. split; [|done]. rewrite Ew. apply list_elem_of_omap.
    exists s. split; [done|]. by rewrite Hb.
Qed.

(** *** Resets, up to the marker of the resume *)

Definition unmarked (s : StepRun.t) : StepRun.t := s <| StepRun.resetByResume := false |>.

(** the job [j'] is [j] but for the markers of its steps *)
Definition sameButMarkers (j j' : JobRun.t) : Prop :=
  JobRun.jobName j' = JobRun.jobName j ∧ JobRun.status j' = JobRun.status j ∧
  unmarked <$> JobRun.steps j' = unmarked <$> JobRun.steps j.

Lemma updateFirst_unmarked name l :
  unmarked <$> JobRun.updateFirst name StepRun.markResetByResume l = unmarked <$> l.
Proof. induction l as [|s l IH]; simpl; [done|]. case_match; csimpl; [done|by rewrite IH]. Qed.

Lemma markTracked_same ref js i j :
  js !! i = Some j → ∃ j', markTracked js ref !! i = Some j' ∧ sameButMarkers j j'.
Proof.
  unfold markTracked. revert i. induction js as [|j0 js IH]; intros i Hi; [done|]. simpl.
  destruct (isJob (r_jobName ref) j0), i as [|i]; simpl in Hi |- *; simplify_eq.
  - eexists. split; [done|]. split_and!; [done..|]. apply updateFirst_unmarked.
  - by exists j.
  - by exists j.
  - by apply IH.
Qed.

Lemma foldl_markTracked_same refs js i j :
  js !! i = Some j → ∃ j', foldl markTracked js refs !! i = Some j' ∧ sameButMarkers j j'.
Proof.
  revert js j. induction refs as [|ref refs IH]; intros js j Hi; simpl; [by exists j|].
  destruct (markTracked_same ref js i j Hi) as (j1 & Q1 & ? & ? & E1).
  destruct (IH _ _ Q1) as (j2 & Q2 & ? & ? & E2). exists j2. split; [done|].
  split_and!; [congruence..|]. by rewrite E2.
Qed.

Lemma resetForResumeFrom_jobs refs tracked r i j :
  jobs r !! i = Some j →
  ∃ j', jobs (resetForResumeFrom refs tracked r) !! i = Some j' ∧ JobRun.jobName j' = JobRun.jobName j ∧
    unmarked <$> JobRun.steps j' =
      (λ s, if decide (MkRef (JobRun.jobName j) (StepRun.stepName s) ∈ refs)
            then StepRun.pending (StepRun.stepName s) (StepRun.forEachTemplate s) else unmarked s)
        <$> JobRun.steps j.
Proof.
  intros Hj. unfold resetForResumeFrom. simpl. set (keys := set_of _).
  destruct (foldl_markTracked_same tracked (resetJob keys <$> jobs r) i (resetJob keys j)) as (j' & Hj' & Hn & _ & Hs).
  { by rewrite list_lookup_fmap, Hj. }
  exists j'. split; [done|]. split; [rewrite Hn; unfold resetJob; by case_match|].
  rewrite Hs. assert (JobRun.steps (resetJob keys j) = resetStep keys j <$> JobRun.steps j) as ->
    by (unfold resetJob; by case_match).
  rewrite <-list_fmap_compose. apply list_fmap_ext. intros k s _. simpl. unfold resetStep. simpl.
  case_decide as Hd; [rewrite bool_decide_true by (by apply WorkflowRunProps.key_in_set)
                     |rewrite bool_decide_false by (unfold keys; by rewrite WorkflowRunProps.key_in_set)]; done.
Qed.

(** what a successful plan went through *)
Lemma planFailedRunResume_Ok w r from plan :
  planFailedRunResume w r from = Ok plan →
  ∃ entries, entriesOf w r from = Ok entries ∧
    missingJob w r = None ∧ removedUnfinishedJob w r = None ∧
    steps plan = selectedRef <$> selectResetRecords w r (pairExpressionJobs w r) (templatesToReset w entries) ∧
    steps plan ≠ [] ∧
    (∃ refuse, let selected := selectResetRecords w r (pairExpressionJobs w r) (templatesToReset w entries) in
       trackLoop w r (pairExpressionJobs w r) refuse (selected ++ settledRecords r selected) = Ok (tracked plan)) ∧
    missingStep w r (λ j, negb (finishedJob j) ||
      bool_decide (JobRun.jobName j ∈ set_of (r_jobName <$> steps plan))) = Ok None ∧
    sharedStepRead w r (rerunKeys w r (pairExpressionJobs w r) (templatesToReset w entries)
      (let selected := selectResetRecords w r (pairExpressionJobs w r) (templatesToReset w entries) in
       selected ++ settledRecords r selected)) = None.
Proof.
  unfold planFailedRunResume. cbv zeta.
  intros (entries & He & (u1 & Q1 & (u2 & _ & (u3 & _ & (u4 & Q4 & (u5 & Q5 & (tr & Q6 & (ns & Q7 & (u8 & Q8 & Q9)
    %result_bind_ok)%result_bind_ok)%result_bind_ok)%result_bind_ok)%result_bind_ok)%result_bind_ok)
    %result_bind_ok)%result_bind_ok)%result_bind_ok.
  injection Q9 as <-. simpl.
  exists entries. destruct (orElse _ _) eqn:Ho in Q1; [done|]. unfold orElse in Ho.
  destruct (missingJob w r); [done|]. destruct (removedUnfinishedJob w r); [done|].
  destruct ns; [done|].
  destruct (sharedStepRead _ _ _) eqn:Hsh in Q5; [done|].
  split_and!; [done|done|done|done| |by eexists|done|done].
  by destruct (selectResetRecords w r _ _).
Qed.

Lemma trackLoop_spec w r pairs refuse selected refs :
  trackLoop w r pairs refuse selected = Ok refs →
  ∀ ref, ref ∈ refs → ∃ record, record ∈ selected ∧ ref = selectedRef record ∧
    trackRecord w r pairs record = inr true.
Proof.
  revert refs. induction selected as [|record selected IH]; intros refs E ref Hin; cbn [trackLoop] in E.
  { simplify_eq. by apply not_elem_of_nil in Hin. }
  destruct (trackRecord w r pairs record) as [|keep] eqn:Ht; [done|].
  apply result_bind_ok in E as (rest & Hrest & [= <-]).
  assert (ref ∈ rest ∨ keep = true ∧ ref = selectedRef record) as [Hr|[-> ->]]
    by (destruct keep; set_solver).
  - destruct (IH _ Hrest ref Hr) as (rec & ? & ? & ?). exists rec. split_and!; [set_solver|done|done].
  - exists record. split_and!; [set_solver|done|done].
Qed.

Lemma elem_of_settledRecords r selected record :
  record ∈ settledRecords r selected →
  ∃ j s, j ∈ jobs r ∧ s ∈ JobRun.steps j ∧ StepRun.settledByAbort s = true ∧
         selectedRef record = MkRef (JobRun.jobName j) (StepRun.stepName s).
Proof.
  unfold settledRecords. intros (j & Hin & Hj)%list_elem_of_bind.
  apply list_elem_of_omap in Hin as (s & Hs & E). destruct (_ && _) eqn:Hc in E; [|done]. simplify_eq.
  apply andb_true_iff in Hc as [? _]. eauto 10.
Qed.

Lemma head_omap_None {A B} (f : A → option B) l x : head (omap f l) = None → x ∈ l → f x = None.
Proof.
  intros Hh Hx. destruct (f x) as [y|] eqn:E; [|done].
  assert (y ∈ omap f l) as Hy by (apply list_elem_of_omap; eauto). destruct (omap f l); [|done].
  by apply not_elem_of_nil in Hy.
Qed.

Lemma missingStepOf_None w r job j step :
  missingStepOf w r job j step = None → Step.forEach step = None → evaluatedName (Step.name step) = false →
  is_Some (JobRun.getStep (Step.name step) j).
Proof.
  unfold missingStepOf, Step.isForEach. intros E Hf Hn. rewrite Hf, Hn in E. simpl in E.
  destruct (JobRun.getStep (Step.name step) j); [by eauto|done].
Qed.

Lemma missingStepLoop_spec w r reentered js :
  missingStepLoop w r reentered js = Ok None →
  ∀ job j step, job ∈ js → evaluatedName (Job.name job) = false → getJob (Job.name job) r = Some j →
    reentered j = true → step ∈ Job.steps job → Step.forEach step = None →
    evaluatedName (Step.name step) = false → is_Some (JobRun.getStep (Step.name step) j).
Proof.
  induction js as [|job0 js IH]; intros E job j step Hin Hlit Hg Hre Hs Hf Hn; [by apply not_elem_of_nil in Hin|].
  cbn [missingStepLoop] in E. apply elem_of_cons in Hin as [->|Hin].
  - rewrite Hlit, Hg, Hre in E. simpl in E. destruct (head _) eqn:Hh; [done|].
    eapply missingStepOf_None; [by eapply head_omap_None|done..].
  - revert E. repeat case_match; try done; intros E; by eapply IH.
Qed.

Lemma missingJob_None w r job :
  missingJob w r = None → job ∈ Workflow.jobs w → evaluatedName (Job.name job) = false →
  is_Some (getJob (Job.name job) r).
Proof.
  unfold missingJob. destruct (List.find _ _) eqn:E; [done|]. intros _ Hj He.
  eapply find_None_elem_of in E; [|done]. rewrite He in E. cbn in E.
  destruct (getJob (Job.name job) r); [by eauto|done].
Qed.

Lemma missingStep_defined w r reentered :
  missingJob w r = None → is_ok (missingStep w r reentered) = true.
Proof.
  intros Hm. unfold missingStep. assert (∀ job, job ∈ Workflow.jobs w → evaluatedName (Job.name job) = false →
    is_Some (getJob (Job.name job) r)) as Hall by (intros; by eapply missingJob_None).
  revert Hall. generalize (Workflow.jobs w). intros js. induction js as [|job js IH]; intros Hall; [done|].
  cbn [missingStepLoop]. assert (is_ok (missingStepLoop w r reentered js) = true) as IH'
    by (apply IH; intros; apply Hall; set_solver).
  destruct (evaluatedName (Job.name job)) eqn:He; [done|].
  destruct (Hall job ltac:(set_solver) He) as [j ->]. repeat case_match; done.
Qed.

(** C5: A resume re-runs exactly what its entries reach. When a plan is accepted,
    the records it resets are those of the run whose step, template or legacy
    prefix is downstream of an entry in the workflow, at least one; after the
    reset each of them is pending, with only its name and template kept, and every
    other record is as it was, markers of earlier resumes aside. *)
Theorem planned_reset w r from plan :
  planFailedRunResume w r from = Ok plan →
  ∃ entries, entriesOf w r from = Ok entries ∧ steps plan ≠ [] ∧
  (∀ ref, ref ∈ steps plan ↔ ∃ j s, j ∈ jobs r ∧ s ∈ JobRun.steps j ∧ rerun w r entries j s ∧
     ref = MkRef (JobRun.jobName j) (StepRun.stepName s)) ∧
  (∀ i j, jobs r !! i = Some j →
     ∃ j', jobs (resetForResumeFrom (steps plan) (tracked plan) r) !! i = Some j' ∧
       JobRun.jobName j' = JobRun.jobName j ∧
       unmarked <$> JobRun.steps j' =
         (λ s, if decide (MkRef (JobRun.jobName j) (StepRun.stepName s) ∈ steps plan)
               then StepRun.pending (StepRun.stepName s) (StepRun.forEachTemplate s) else unmarked s)
           <$> JobRun.steps j).
Proof.
  intros (entries & He & _ & _ & Hs & Hne & _)%planFailedRunResume_Ok.
  exists entries. split_and!; [done..| |].
  - intros ref. rewrite Hs. apply selectResetRecords_spec.
  - intros i j Hj. by apply resetForResumeFrom_jobs.
Qed.


(** ** Retries *)

Lemma checkAll_Ok {A} (f : A → result ()) l : checkAll f l = Ok tt ↔ ∀ x, x ∈ l → f x = Ok tt.
Proof.
  induction l as [|x l IH]; simpl; [set_solver|]. rewrite result_bind_ok. split.
  - intros ([] & Hx & Hl). rewrite IH in Hl. set_solver.
  - intros Hall. exists tt. rewrite IH. set_solver.
Qed.

Lemma firstDuplicate_None names seen :
  firstDuplicate names seen = None ↔ NoDup names ∧ ∀ x, x ∈ names → x ∉ seen.
Proof.
  revert seen. induction names as [|n names IH]; intros seen; simpl; [by split; [split; [constructor|set_solver]|]|].
  case_bool_decide; [set_solver|]. rewrite IH, NoDup_cons. setoid_rewrite elem_of_set_add. set_solver.
Qed.

Lemma elem_of_setEntry e entry entries : e ∈ setEntry entry entries ↔ e = entry ∨ e ∈ entries.
Proof.
  induction entries as [|x entries IH]; simpl; [set_solver|].
  case_bool_decide as E; [apply WorkflowRunProps.stepRunKey_inj in E as ->|rewrite elem_of_cons, IH]; set_solver.
Qed.

(** the entry of a failed step: its template in the workflow job of its job *)
Definition entryOf (w : Workflow.t) (r : t) (f : FailedStepRef) (e : StepRunRef) : Prop :=
  ∃ j job, getJob (f_jobName f) r = Some j ∧ workflowJobOf w j (pairExpressionJobs w r) = Some job ∧
    Job.getStep (entryTemplateOf f) job ≠ None ∧ e = MkRef (Job.name job) (entryTemplateOf f).

Lemma hasStep_true name job : hasStep name job = true ↔ Job.getStep name job ≠ None.
Proof. unfold hasStep. by destruct (Job.getStep name job). Qed.

Lemma entryLoop_spec w r failed entries :
  match entryLoop w r (pairExpressionJobs w r) failed entries with
  | Ok res => (∀ f, f ∈ failed → ∃ e, entryOf w r f e) ∧
      ∀ e, e ∈ res ↔ e ∈ entries ∨ ∃ f, f ∈ failed ∧ entryOf w r f e
  | Throw _ => ¬ ∀ f, f ∈ failed → ∃ e, entryOf w r f e
  end.
Proof.
  revert entries. induction failed as [|f failed IH]; intros entries; cbn [entryLoop]; [set_solver|].
  destruct (getJob (f_jobName f) r) as [j|] eqn:Hj; simpl.
  2: { intros Hall. destruct (Hall f) as (e & j & job & ? & _); [set_solver|congruence]. }
  destruct (workflowJobOf w j _) as [job|] eqn:Hw.
  2: { intros Hall. destruct (Hall f) as (e & ? & job & ? & ? & _); [set_solver|congruence]. }
  destruct (hasStep (entryTemplateOf f) job) eqn:Hh.
  2: { intros Hall.
       destruct (Hall f) as (e & ? & ? & ? & ? & Hn & _); [set_solver|]. apply hasStep_true in Hn. congruence. }
  apply hasStep_true in Hh.
  assert (∀ e, entryOf w r f e ↔ e = MkRef (Job.name job) (entryTemplateOf f)) as Hf.
  { intros e. split; [intros (? & ? & ? & ? & ? & ->); congruence|intros ->; by exists j, job]. }
  specialize (IH (setEntry (MkRef (Job.name job) (entryTemplateOf f)) entries)).
  destruct (entryLoop _ _ _ _ _) as [res|msg].
  - destruct IH as [Hall Hin]. split.
    + intros g [->|Hg]%elem_of_cons; [eexists; by apply Hf|auto].
    + intros e. rewrite Hin, elem_of_setEntry, <-Hf. set_solver.
  - intros Hall. apply IH. intros g Hg. apply Hall. set_solver.
Qed.

Lemma find_Ok {A} (p : A → bool) (l : list A) (msg : A → string) :
  (match List.find p l with Some x => Throw (msg x) | None => Ok tt end) = Ok tt ↔
  ∀ x, x ∈ l → p x = false.
Proof.
  destruct (List.find p l) as [x|] eqn:E.
  - apply find_Some_elem_of in E as [Hx Hp]. split; [done|]. intros Hall. by rewrite Hall in Hp.
  - split; [|done]. intros _ x Hx. by eapply find_None_elem_of in E.
Qed.

Lemma checkFinishedJob_Ok w r j :
  checkFinishedJob w r j = Ok tt ↔
  (∀ s, s ∈ JobRun.steps j → isTerminal (StepRun.status s) = true) ∧ isTerminal (JobRun.status j) = true.
Proof.
  unfold checkFinishedJob. rewrite result_bind_ok. setoid_rewrite throw_if_ok. split.
  - intros ([] & Hs & Hj%negb_false_iff). split; [|done]. intros s Hin.
    rewrite checkAll_Ok in Hs. specialize (Hs s Hin). unfold checkFinishedStep in Hs. by case_match.
  - intros [Hs Hj]. exists tt. split; [|by rewrite Hj]. apply checkAll_Ok. intros s Hin.
    unfold checkFinishedStep. by rewrite Hs.
Qed.

(** the runs a retry accepts *)
Record retryable (w : Workflow.t) (r : t) : Prop := {
  t_failed : failedSteps r ≠ [];
  t_decided f : f ∈ failedSteps r → f_approvalRejected f = false ∧ f_failureKind f = None;
  t_finished j : j ∈ jobs r → isTerminal (JobRun.status j) = true ∧
    ∀ s, s ∈ JobRun.steps j → isTerminal (StepRun.status s) = true;
  t_blamed j : j ∈ jobs r → JobRun.status j = RunStatus.failed →
    ∃ f, f ∈ failedSteps r ∧ f_jobName f = JobRun.jobName j;
  t_present f : f ∈ failedSteps r → ∃ e, entryOf w r f e;
  t_unique j : j ∈ jobs r → NoDup (StepRun.stepName <$> JobRun.steps j);
}.

Lemma refuseRejected_Ok w r :
  refuseRejected w r = Ok tt ↔ ∀ f, f ∈ failedSteps r → f_approvalRejected f = false.
Proof. apply find_Ok. Qed.

Lemma refuseStranded_Ok r :
  refuseStranded r = Ok tt ↔ ∀ f, f ∈ failedSteps r → f_failureKind f = None.
Proof.
  etrans; [apply find_Ok|]. apply forall_proper. intros f.
  destruct (f_failureKind f) as [[]|]; naive_solver.
Qed.

Lemma result_bind_unit {A} (m : result ()) (k : () → result A) a :
  (m ≫= k) = Ok a ↔ m = Ok tt ∧ k tt = Ok a.
Proof. rewrite result_bind_ok. split; [intros ([] & ? & ?)|intros [? ?]; exists tt]; done. Qed.

(** the checks of [selectRetryTemplates], in its order *)
Lemma selectRetryTemplates_Ok w r entries :
  selectRetryTemplates w r = Ok entries ↔
  (∀ f, f ∈ failedSteps r → f_approvalRejected f = false) ∧
  (∀ f, f ∈ failedSteps r → f_failureKind f = None) ∧
  (∀ j, j ∈ jobs r → (∀ s, s ∈ JobRun.steps j → isTerminal (StepRun.status s) = true) ∧
                     isTerminal (JobRun.status j) = true) ∧
  failedSteps r ≠ [] ∧
  (∀ j, j ∈ jobs r → JobRun.status j = RunStatus.failed → JobRun.jobName j ∈ f_jobName <$> failedSteps r) ∧
  entryLoop w r (pairExpressionJobs w r) (failedSteps r) [] = Ok entries ∧
  (∀ j, j ∈ jobs r → NoDup (StepRun.stepName <$> JobRun.steps j)).
Proof.
  unfold selectRetryTemplates. cbv zeta.
  rewrite !result_bind_unit, refuseRejected_Ok, refuseStranded_Ok, result_bind_ok, throw_if_ok, !checkAll_Ok.
  setoid_rewrite checkFinishedJob_Ok. setoid_rewrite throw_if_ok.
  setoid_rewrite result_bind_unit. setoid_rewrite checkAll_Ok.
  assert ((length (failedSteps r) =? 0) = false ↔ failedSteps r ≠ []) as ->
    by (rewrite Nat.eqb_neq; by destruct (failedSteps r)).
  assert (∀ j : JobRun.t, match firstDuplicate (StepRun.stepName <$> JobRun.steps j) [] with
    | Some name => Throw ("Step name " +:+ quoted name +:+ " is stored more than once in job " +:+
        quoted (JobRun.jobName j) +:+ "; retry needs unique step names in a job. " +:+ historyOf r)
    | None => Ok tt end = Ok tt ↔ NoDup (StepRun.stepName <$> JobRun.steps j)) as Hdup.
  { intros j. pose proof (firstDuplicate_None (StepRun.stepName <$> JobRun.steps j) []) as Hd.
    case_match; [|set_solver]. split; [done|]. intros Hn. exfalso.
    assert (Some s = None) as [=]. apply Hd. set_solver. }
  setoid_rewrite Hdup. clear Hdup. setoid_rewrite andb_false_iff. setoid_rewrite negb_false_iff.
  setoid_rewrite bool_decide_eq_true. setoid_rewrite bool_decide_eq_false.
  assert (∀ P Q : Prop, Decision P → (¬ P ∨ Q) ↔ (P → Q)) as Himp by (intros P Q [?|?]; tauto).
  setoid_rewrite Himp; [|apply _]. naive_solver.
Qed.

(** C25: A retry starts from every failure or is refused. It is accepted exactly for
    a finished run with a failed step, none of whose failures is a rejected
    approval or a changed workflow, whose failed jobs each have a failed step,
    whose failed steps are still in the workflow and whose jobs store no step name
    twice; the entries are then the templates of the failed steps, all of them and
    nothing else. *)
Theorem retry_starts_from_every_failure w r :
  (is_ok (selectRetryTemplates w r) = true ↔ retryable w r) ∧
  ∀ entries, selectRetryTemplates w r = Ok entries →
    ∀ e, e ∈ entries ↔ ∃ f, f ∈ failedSteps r ∧ entryOf w r f e.
Proof.
  pose proof (entryLoop_spec w r (failedSteps r) []) as Hloop. split; [split|].
  - destruct (selectRetryTemplates w r) as [entries|] eqn:E; [|done]. intros _.
    apply selectRetryTemplates_Ok in E as (? & ? & Hfin & ? & Hbl & El & ?). rewrite El in Hloop.
    split; auto.
    + intros j Hj. destruct (Hfin j Hj). auto.
    + intros j Hj Hs. destruct (proj1 (list_elem_of_fmap _ _ _) (Hbl j Hj Hs)) as (f & ? & ?). eauto.
    + apply Hloop.
  - intros [Hne Hdec Hfin Hbl Hpres Huniq].
    destruct (entryLoop _ _ _ _ _) as [entries|] eqn:El; [|by destruct Hloop].
    assert (selectRetryTemplates w r = Ok entries) as ->; [|done]. apply selectRetryTemplates_Ok.
    split_and!; [naive_solver|naive_solver|naive_solver|done| |done|done].
    intros j Hj Hs. destruct (Hbl j Hj Hs) as (f & ? & <-). apply list_elem_of_fmap. eauto.
  - intros entries (_ & _ & _ & _ & _ & El & _)%selectRetryTemplates_Ok. rewrite El in Hloop.
    intros e. rewrite (proj2 Hloop). set_solver.
Qed.

End plans.

(** ** A run of two jobs, the second named by an input *)

Module Sample.

#[export] Instance grammar : CelGrammar := λ _, true.
#[export] Instance parser : CelParser := λ _, None.

Definition nowhere : Placement.Fields := Placement.MkFields None None None None.

Definition step (name : string) (deps : list string) : Step.t :=
  Step.Mk name None (StepTask.manual_approval "go" None) None
    ((λ d, Step.MkDependency d TriggerCondition.succeeded) <$> deps) 0 None [] false nowhere None None.

Definition job (name : string) (steps : list Step.t) (deps : list string) : Job.t :=
  Job.Mk name None steps ((λ d, Job.MkDependency d TriggerCondition.succeeded) <$> deps) 0 None None None None
    nowhere.

Definition workflow : Workflow.t :=
  Workflow.Mk "id" "release" None None [] None
    [job "build" [step "compile" []; step "test" ["compile"]] [];
     job "${{ inputs.env }}-deploy" [step "push" []] ["build"]]
    1 None None None None nowhere None None.

Definition record (name : string) (st : RunStatus.t) : @StepRun.t SampleWaits.sampleWaits :=
  StepRun.pending name None <| StepRun.status := st |>.

Definition stored (name : string) (st : RunStatus.t) (l : list StepRun.t)
    : @JobRun.t SampleWaits.sampleWaits :=
  JobRun.pending name [] <| JobRun.status := st |> <| JobRun.steps := l |>.

Definition run : @WorkflowRun.t SampleWaits.sampleWaits :=
  WorkflowRun.create "run" "id" "release" [] None None None None
    <| WorkflowRun.status := WorkflowRun.failed |>
    <| WorkflowRun.inputs := [("env", VStr "prod")] |>
    <| WorkflowRun.jobs :=
         [stored "build" RunStatus.failed
            [record "compile" RunStatus.succeeded; record "test" RunStatus.failed];
          stored "prod-deploy" RunStatus.skipped [record "push" RunStatus.skipped]] |>.

Definition plan : ResumeReset :=
  MkReset [WorkflowRun.MkRef "build" "test"; WorkflowRun.MkRef "prod-deploy" "push"]
    [WorkflowRun.MkRef "build" "test"; WorkflowRun.MkRef "prod-deploy" "push"]
    (Some {[ "${{ inputs.env }}-deploy" := "prod-deploy" ]}).

End Sample.
Import Sample.

Lemma pairing_is_one_to_one_witness :
  ∃ jobRun, jobRun ∈ WorkflowRun.jobs run ∧
    workflowJobOf workflow jobRun (Some {[ "${{ inputs.env }}-deploy" := "prod-deploy" ]}) ≠ None.
Proof.
  destruct (pairing_is_one_to_one workflow run {[ "${{ inputs.env }}-deploy" := "prod-deploy" ]})
    as [H1 _]; [vm_compute; reflexivity|].
  destruct (H1 (job "${{ inputs.env }}-deploy" [step "push" []] ["build"])) as (jobRun & job' & Hin & _ & Hw & _).
  - split; [by right; left|vm_compute; reflexivity].
  - exists jobRun. split; [exact Hin|]. rewrite Hw. discriminate.
Defined.

Lemma planned_reset_witness :
  planFailedRunResume workflow run None = Ok plan ∧
  ∃ j', WorkflowRun.jobs (WorkflowRun.resetForResumeFrom (steps plan) (tracked plan) run) !! 1 = Some j' ∧
    StepRun.status <$> (unmarked <$> JobRun.steps j') = [RunStatus.pending].
Proof.
  assert (planFailedRunResume workflow run None = Ok plan) as Hp by (vm_compute; reflexivity).
  split; [exact Hp|].
  destruct (planned_reset workflow run None plan Hp) as (entries & _ & _ & _ & Hreset).
  destruct (Hreset 1 (stored "prod-deploy" RunStatus.skipped [record "push" RunStatus.skipped]))
    as (j' & Hj' & _ & Hs); [reflexivity|].
  exists j'. split; [exact Hj'|]. rewrite Hs. vm_compute. reflexivity.
Defined.


End ResumePlanProps.
